(* ===== verification/_CoqProject ===== *)
-Q . S2P
Prelude.v
SeqFacts.v
Errors.v
PolyFacts.v
Engine.v
DenseOps.v
ToyEngine.v
Utils.v
Kzg.v
Transcript.v
Setup.v
Ceremony.v
Hints.v
HintSound.v
Keys.v
Aggregation.v
Proving.v
Completeness.v
Safety.v
Soundness.v
Binding.v
Rounds.v
WrapsErrors.v
WrapsEngine.v
WrapsUtils.v
Schnorr.v
Multisig.v
AddressBook.v
Signing.v
SigningFacts.v
WrapsToy.v
SigningTheorems.v
BookTheorems.v
Circuit.v
CircuitFacts.v
CircuitSound.v
CircuitComplete.v
CircuitAdequacy.v
CircuitToy.v
WrapsProof.v
WrapsChain.v
ChainTheorems.v
NovaToy.v
CacheInterface.v
LruCache.v
Jni.v
Eip2537.v
Eip2537Facts.v
ToyJni.v
JniHints.v
JniHintsFacts.v
JniToy.v
JniWraps.v
JniWrapsFacts.v
JniWrapsToy.v
Demo.v
DemoFacts.v
DemoToy.v
Stats.v
StatsFacts.v
StatsToy.v
