(* ===== verification/Prelude.v ===== *)
(** * Verification of the Rust cryptography of hiero-cryptography

    ** The program

    Two crates.  [hinTS] (under src/cryptography/hedera-cryptography-hints/src/main/rust)
    is a weighted threshold signature scheme on BLS12-381: a powers-of-tau ceremony
    makes a reference string ([setup.rs]); each party publishes a hint for its slot,
    [preprocess] turns verified hints and weights into an aggregation and a
    verification key, parties sign, an aggregator makes one short signature with a
    SNARK of its weight, and [verify] checks it against a threshold ([hints.rs],
    over the polynomials of [utils.rs], the commitments of [kzg.rs] and the
    Fiat-Shamir [transcript.rs]).  [WRAPS] (under
    src/cryptography/hedera-cryptography-wraps/src/main/rust/nova-wraps/src) makes
    address books rotate: the owners of a book sign the next book and the next hints
    key in a three-round Schnorr multisignature ([schnorr.rs], [wraps.rs]), and a Nova
    proof of the rotation circuit ([circuit.rs]) compresses the chain of rotations
    from a genesis ledger id to the current state.  Java calls both through JNI
    ([jni_hints.rs], [jni_crs.rs], [jni_wraps.rs]); the calls of hinTS share LRU caches of
    parsed keys ([jni_cache.rs]), and an Ethereum
    bridge checks sync-committee signatures with blst ([jni_eth.rs], [jni_blst.rs]).

    ** How the code is modelled

    A function that returns [Result] returns [outcome]: [Ok], [Err] or [Panic] (an
    index out of range, a failed [assert!] or [unwrap], a zero divisor), so that
    panic freedom is a statement of its own.  Loops are folds over their iterator
    and total; only the [loop] of the demonstration has fuel, and eleven iterations are
    shown to be enough.  [u64] weights are [N] with the
    checked additions written out; hash maps that are only read are association
    lists, the cache's map is a [gmap].  Third-party code is a parameter: a class of
    operations, a class of laws that states what the code relies on, and a concrete
    instance that meets the laws and makes the definitions evaluate.

    - [Engine] (arkworks: field, groups, pairing, polynomials, domains, hashing),
      instance [ToyEngine];
    - [WrapsEngine] (the Grumpkin curve, Poseidon, SHA-256, ChaCha20, bincode), instances
      there and in [WrapsToy]; [WrapsUtils] has the zlib streams;
    - [Circuit] (constraint systems and Nova's gadgets), instance [CircuitToy];
    - [WrapsProof] (Nova's recursive and compressed SNARKs), instance [NovaToy];
    - [Eip2537] (blst), instance in [Eip2537Facts];
    - [Jni] (the Java environment), instance [ToyJni], and the codecs of [JniHints] and
      [JniWraps], instances in [JniToy] and [JniWrapsToy].

    ** Files

    Shared: [Prelude] (outcomes, vectors, tactics), [SeqFacts] (the same in terms of
    MathComp sequences), [PolyFacts] (polynomials over a subgroup), [DenseOps].

    hinTS: [Errors] models [errors.rs]; [Utils] [utils.rs]; [Kzg] [kzg.rs];
    [Transcript] [transcript.rs]; [Setup] [setup.rs]; [Hints] [hints.rs].  The theorems:
    [Ceremony] (contributions and the checks of the ceremony), [HintSound] (generated
    hints verify; accepted hints are honest), [Keys] ([preprocess] computes the
    specified keys and succeeds on verified hints), [Aggregation], [Proving],
    [Completeness] (aggregates of valid partial signatures verify), [Safety] (no
    operation panics), [Soundness] and [Binding] (what each algebraic check of the
    verifier forces), [Rounds] (the transcript binds its inputs).

    WRAPS: [WrapsErrors] models [error.rs] and [constants.rs]; [WrapsUtils] [utils.rs]
    and [poseidon.rs]; [Schnorr] and [Multisig] the two halves of [schnorr.rs];
    [AddressBook], [Signing] and [WrapsProof] the three parts of [wraps.rs]; [Circuit]
    [circuit.rs].  The theorems: [SigningFacts], [SigningTheorems] (honest sessions
    verify, the exact acceptance condition, quorum intersection, phase discipline),
    [BookTheorems] (validation against its contract, exact 64-bit weights, padding,
    what the commitment binds), [CircuitFacts], [CircuitSound] (satisfied constraints
    exhibit 64 seats and a signature by their majority), [CircuitComplete] (and conversely for the prover's own
    values), [CircuitAdequacy] (the prover's values and the constraints are two
    interpretations of one circuit that agree), [WrapsChain] and [ChainTheorems] (an
    accepted proof is a chain of authorised rotations; a chain of signed rotations
    can be proven; the prover checks what it returns), [NovaToy].

    The Java boundary: [CacheInterface] states what a cache of parsed values promises;
    [LruCache] models [jni_cache.rs], with a step relation for the threads that
    interleave at its two critical sections, and discharges that interface; [Jni] models
    the [jni_util.rs] of hinTS and the shape of an entry point (a body that reads static
    state and may fail, under [catch_unwind]); [Eip2537] models [jni_eth.rs] and
    [jni_blst.rs], with its theorems in [Eip2537Facts].  [JniHints] models [jni_crs.rs] and
    [jni_hints.rs] over the cache interface; [JniHintsFacts] shows that every session of
    calls answers as on fresh caches, that no call panics (a size below -1 for a new
    reference string apart) and that the signatures of the listed parties are
    aggregated and cross the boundary unchanged.  [JniWraps] models [jni_wraps.rs] and the [jni_util.rs] of WRAPS
    with its two write-once statics; [JniWrapsFacts] shows that they settle, that no call
    panics, that books built from Java are [u64]-typed, and that an answer of [true] to a
    proof verification, after any session, is the end of an authorised chain of
    rotations.  [ToyJni], [JniToy] and [JniWrapsToy] evaluate both.

    The example programs: [Demo] models [examples/demo.rs], the driver that composes the
    WRAPS operations (ten rotations over serialized checkpoints, each signed, folded,
    verified and refused to a minority); [DemoFacts] shows which weight its two
    committees hold and that it runs to the end with every assertion satisfied;
    [DemoToy] evaluates it.  [Stats] models [examples/stats.rs], three rotations of
    committees of three with a report of sizes and one of timings; [StatsFacts] shows
    that it runs to the end and that nothing is reported twice; [StatsToy] evaluates it.

    ** What the theorems assume

    Soundness statements about polynomial checks count challenges: a check that holds
    for more challenges than the degree bound is an identity.  Statements about hashes
    say which preimages are hashed and that these determine what was committed, or
    name the two preimages that collide.  Nova's [check_on_curve] constrains the
    coordinates of a point only when its infinity flag is not set, so the soundness of
    the circuit speaks of its own 64 seats, with the signature under every book they
    stand for ([CircuitSound.authorisation]).  [NovaSound] assumes that a verified Nova
    proof has a satisfying assignment for every step, and [NovaComplete] that satisfied
    steps can be proven; the security of the SNARK, of the curves and of the hash
    functions is not stated in any other form.  Randomness is an argument.

    ** Not modelled

    The memory clearing of secrets; the release of local Java references and the paths on which
    the allocator runs out of memory; what is printed, and durations (the timing harness [timing.rs] is only that);
    module declarations and re-exports ([lib.rs]); the tests. *)
From Stdlib Require Import Strings.Byte Strings.Ascii Strings.String DecimalString.
From Stdlib Require Import List Lia PeanoNat.
Import ListNotations.

(** ** Results of fallible Rust code

    A Rust function returning [Result<A, E>] either returns [Ok a], returns
    [Err e], or panics: an index out of range, a field division by zero, a
    failed [assert!] or [unwrap].  The [outcome] type keeps the three apart, so
    that "never panics" is a statement of its own. *)

Inductive outcome (E A : Type) : Type :=
| Ok (a : A)
| Err (e : E)
| Panic.
Arguments Ok {E A} a.
Arguments Err {E A} e.
Arguments Panic {E A}.

Definition bind {E A B} (m : outcome E A) (k : A -> outcome E B) : outcome E B :=
  match m with
  | Ok a => k a
  | Err e => Err e
  | Panic => Panic
  end.

Declare Scope outcome_scope.
Delimit Scope outcome_scope with outcome.

Notation "'let*' x ':=' c 'in' k" := (bind c (fun x => k))
  (at level 10, x pattern, c at level 100, k at level 200,
   format "'let*'  x  ':='  c  'in' '//' k") : outcome_scope.

#[global] Open Scope outcome_scope.

(** Rust's early return: [if cond { return Err(e) }]. *)
Notation "'fail_if' c 'with' e ';;' k" := (if c then Err e else k)
  (at level 10, c at level 100, e at level 100, k at level 200,
   format "'fail_if'  c  'with'  e  ';;' '//' k") : outcome_scope.

(** [check_or_return_false!(cond)] inside a function returning [Result<bool, _>]. *)
Notation "'check' c ';;' k" := (if c then k else Ok false)
  (at level 10, c at level 100, k at level 200,
   format "'check'  c  ';;' '//' k") : outcome_scope.

(** [opt.ok_or(e)?]. *)
Definition ok_or {E A} (e : E) (o : option A) : outcome E A :=
  match o with Some a => Ok a | None => Err e end.

(** [res.map_err(f)]. *)
Definition map_err {E E' A} (f : E -> E') (m : outcome E A) : outcome E' A :=
  match m with Ok a => Ok a | Err e => Err (f e) | Panic => Panic end.

(** A third-party [Result] without panics, as a value of a sum type. *)
Definition of_sum {E A} (s : E + A) : outcome E A :=
  match s with inl e => Err e | inr a => Ok a end.

(** [v[i]]: an index out of range panics. *)
Definition vec_get {E A} (v : list A) (i : nat) : outcome E A :=
  match nth_error v i with Some a => Ok a | None => Panic end.

(** [v[i] = a]: an index out of range panics. *)
Fixpoint update {A} (v : list A) (i : nat) (a : A) : list A :=
  match v, i with
  | [], _ => []
  | _ :: v', 0 => a :: v'
  | x :: v', S i' => x :: update v' i' a
  end.

Definition vec_set {E A} (v : list A) (i : nat) (a : A) : outcome E (list A) :=
  if Nat.ltb i (length v) then Ok (update v i a) else Panic.

(** [a - b] on [usize]: an underflow panics. *)
Definition usize_sub {E} (a b : nat) : outcome E nat :=
  if Nat.leb b a then Ok (a - b) else Panic.

(** A [for] loop whose body threads a state and may return early. *)
Fixpoint foldM {E A S} (f : S -> A -> outcome E S) (s : S) (l : list A) : outcome E S :=
  match l with
  | [] => Ok s
  | a :: l' => let* s' := f s a in foldM f s' l'
  end.

(** [iter.map(f).collect::<Result<Vec<_>, _>>()]. *)
Fixpoint mapM {E A B} (f : A -> outcome E B) (l : list A) : outcome E (list B) :=
  match l with
  | [] => Ok []
  | a :: l' => let* b := f a in let* bs := mapM f l' in Ok (b :: bs)
  end.

(** A [for] loop that returns [Ok(false)] at the first failing element. *)
Fixpoint allM {E A} (f : A -> outcome E bool) (l : list A) : outcome E bool :=
  match l with
  | [] => Ok true
  | a :: l' => let* b := f a in if b then allM f l' else Ok false
  end.

(** [std::panic::catch_unwind(f).unwrap_or_else(|_| d)] around a body that has
    already turned its errors into values. *)
Definition catch_unwind {E A} (d : A) (m : outcome E A) : A :=
  match m with Ok a => a | Err _ => d | Panic => d end.

(** The decimal form [{n}] of a [usize]. *)
Definition dec (n : nat) : string := NilZero.string_of_uint (Nat.to_uint n).

(** The text of a [format!] invocation: its template and its arguments. *)
Record message : Type := Msg { template : string; args : list nat }.

(** [format!]: each [{}] is replaced by the next argument. *)
Fixpoint format (t : string) (l : list nat) : string :=
  match t with
  | EmptyString => EmptyString
  | String c t' =>
      match l, t' with
      | n :: l', String d t'' =>
          if (Ascii.eqb c "{" && Ascii.eqb d "}")%char%bool then (dec n ++ format t'' l')%string
          else String c (format t' l)
      | _, _ => String c (format t' l)
      end
  end.

Definition never_panics {E A} (m : outcome E A) : Prop := m <> Panic.

Definition is_ok {E A} (m : outcome E A) : bool :=
  match m with Ok _ => true | _ => false end.

(** Byte strings: [b"..."]. *)
Definition bytes : Type := list byte.
Definition byte_string (s : string) : bytes := list_byte_of_string s.

(** ** Lemmas on [outcome] *)

Lemma bind_Ok_inv {E A B} (m : outcome E A) (k : A -> outcome E B) (b : B) :
  bind m k = Ok b -> exists a, m = Ok a /\ k a = Ok b.
Proof. destruct m; simpl; intros H; try discriminate. eauto. Qed.

Lemma ok_or_Ok_inv {E A} (e : E) (o : option A) (a : A) :
  ok_or e o = Ok a -> o = Some a.
Proof. destruct o; simpl; congruence. Qed.

Lemma of_sum_Ok_inv {E A} (s : E + A) (a : A) : of_sum s = Ok a -> s = inr a.
Proof. destruct s; simpl; congruence. Qed.

Lemma map_err_Ok_inv {E E' A} (f : E -> E') (m : outcome E A) (a : A) :
  map_err f m = Ok a -> m = Ok a.
Proof. destruct m; simpl; congruence. Qed.

Lemma vec_get_Ok_inv {E A} (v : list A) i (a : A) :
  @vec_get E A v i = Ok a -> nth_error v i = Some a.
Proof. unfold vec_get. destruct (nth_error v i); congruence. Qed.

Lemma vec_get_Ok {E A} (v : list A) i (a : A) :
  nth_error v i = Some a -> @vec_get E A v i = Ok a.
Proof. unfold vec_get. now intros ->. Qed.

Lemma update_length {A} (v : list A) i (a : A) : length (update v i a) = length v.
Proof. revert i; induction v as [|x v IH]; intros [|i]; simpl; auto. Qed.

Lemma update_nth {A} (d : A) (v : list A) i (a : A) j :
  i < length v -> nth j (update v i a) d = if Nat.eqb j i then a else nth j v d.
Proof.
  revert i j; induction v as [|x v IH]; intros [|i] [|j] H; simpl in *; try lia; auto.
  apply IH. lia.
Qed.

Lemma foldM_app {E A S} (f : S -> A -> outcome E S) s l1 l2 :
  foldM f s (l1 ++ l2) = bind (foldM f s l1) (fun s' => foldM f s' l2).
Proof.
  revert s; induction l1 as [|a l1 IH]; intros s; simpl; auto.
  destruct (f s a); simpl; auto.
Qed.

Lemma mapM_Ok_inv {E A B} (f : A -> outcome E B) l bs :
  mapM f l = Ok bs -> Forall2 (fun a b => f a = Ok b) l bs.
Proof.
  revert bs; induction l as [|a l IH]; simpl; intros bs H.
  - injection H as <-. constructor.
  - apply bind_Ok_inv in H as (b & Hb & H).
    apply bind_Ok_inv in H as (bs' & Hbs & H).
    injection H as <-. constructor; auto.
Qed.

Lemma mapM_pure {E A B} (f : A -> outcome E B) (g : A -> B) l :
  (forall a, In a l -> f a = Ok (g a)) -> mapM f l = Ok (map g l).
Proof.
  induction l as [|a l IH]; simpl; intros H; auto.
  rewrite H by auto. simpl. rewrite IH; auto.
Qed.

(** ** Powers of two *)

(** [n & (n - 1)] clears the lowest set bit, so it is zero exactly for the powers
    of two (and for 0). *)
Lemma land_pred_pow2 n : 0 < n -> Nat.land n (n - 1) = 0 <-> exists k, n = 2 ^ k.
Proof.
  induction n as [n IH] using (well_founded_induction Nat.lt_wf_0); intros Hn.
  destruct (Nat.Even_or_Odd n) as [[m ->]|[m ->]].
  - replace (2 * m - 1) with (2 * (m - 1) + 1) by lia.
    rewrite Nat.land_even_odd.
    assert (IHm : Nat.land m (m - 1) = 0 <-> exists k, m = 2 ^ k) by (apply IH; lia).
    split.
    + intros H. destruct IHm as [[k ->] _]; [lia|]. exists (S k). reflexivity.
    + intros [[|k] Hk]; [rewrite Nat.pow_0_r in Hk; lia|].
      rewrite Nat.pow_succ_r' in Hk. rewrite (proj2 IHm); [reflexivity|].
      exists k. lia.
  - replace (2 * m + 1 - 1) with (2 * m) by lia.
    rewrite Nat.land_odd_even, Nat.land_diag. split.
    + intros H. exists 0. simpl. lia.
    + intros [[|k] Hk]; [rewrite Nat.pow_0_r in Hk; lia|].
      rewrite Nat.pow_succ_r' in Hk. lia.
Qed.

(** Inverts the binds, option and sum embeddings of a hypothesis that says a
    computation returned [Ok]. *)
Ltac inv_ok H :=
  repeat
    match type of H with
    | bind _ _ = Ok _ =>
        let a := fresh "v" in let E := fresh "E" in
        apply bind_Ok_inv in H; destruct H as (a & E & H); inv_ok E
    | ok_or _ _ = Ok _ => apply ok_or_Ok_inv in H
    | of_sum _ = Ok _ => apply of_sum_Ok_inv in H
    | map_err _ _ = Ok _ => apply map_err_Ok_inv in H
    | (if ?c then _ else _) = Ok _ =>
        let C := fresh "C" in destruct c eqn:C; try discriminate H
    end.

Create HintDb outcome.
#[export] Hint Resolve vec_get_Ok : outcome.
