(* ===== verification/SeqFacts.v ===== *)
(** * Vectors and loops of the prelude, in terms of MathComp sequences *)
From Stdlib Require Import PeanoNat List.
From S2P Require Import Prelude.
From mathcomp Require Import ssreflect ssrfun ssrbool eqtype ssrnat seq.
Set Warnings "-rewrite-rw".
Set Implicit Arguments.
Unset Strict Implicit.
Unset Printing Implicit Defensive.

Section Vectors.
Variables (Error A : Type).
Implicit Types (s : seq A) (x a : A).

Lemma vec_getE x0 s i :
  vec_get s i = (if i < size s then Ok (nth x0 s i) else Panic) :> outcome Error A.
Proof.
by rewrite /vec_get; elim: s i => [|x s IH] [|i] //=.
Qed.

Lemma vec_get_lt x0 s i : i < size s -> vec_get s i = Ok (nth x0 s i) :> outcome Error A.
Proof. by move=> lt; rewrite (vec_getE x0) lt. Qed.

Lemma vec_get_Ok_lt s i a : vec_get s i = Ok a :> outcome Error A -> i < size s.
Proof. by rewrite (vec_getE a); case: ifP. Qed.

Lemma vec_get_Ok_nth x0 s i a : vec_get s i = Ok a :> outcome Error A -> nth x0 s i = a.
Proof. by rewrite (vec_getE x0); case: ifP => // _ []. Qed.

Lemma updateE x0 s i a : i < size s -> update s i a = set_nth x0 s i a.
Proof. by elim: s i => [|x s IH] [|i] //= lt; rewrite IH. Qed.

Lemma vec_set_lt x0 s i a :
  i < size s -> vec_set s i a = Ok (set_nth x0 s i a) :> outcome Error (seq A).
Proof.
move=> lt; rewrite /vec_set (updateE x0) //.
by have /Nat.ltb_lt -> : (i < length s)%coq_nat by apply/ltP.
Qed.

Lemma vec_set_Ok_inv x0 s i a s' :
  vec_set s i a = Ok s' :> outcome Error (seq A) -> i < size s /\ s' = set_nth x0 s i a.
Proof.
rewrite /vec_set; case: Nat.ltb_spec0 => // /ltP lt [<-].
by rewrite (updateE x0).
Qed.

Lemma size_set_nth_lt x0 s i a : i < size s -> size (set_nth x0 s i a) = size s.
Proof. by move=> lt; rewrite size_set_nth; apply/maxn_idPr. Qed.

End Vectors.

Section Loops.
Variables (Error A B S : Type).

Lemma foldM_cat (f : S -> A -> outcome Error S) s l1 l2 :
  foldM f s (l1 ++ l2) = (let* s' := foldM f s l1 in foldM f s' l2).
Proof. exact: foldM_app. Qed.

(** A loop whose body never fails on the elements it sees is a fold. *)
Lemma foldM_pure (T : eqType) (f : S -> T -> outcome Error S) (g : S -> T -> S)
  (I : S -> Prop) s (l : seq T) :
  I s -> (forall s a, I s -> a \in l -> f s a = Ok (g s a) /\ I (g s a)) ->
  foldM f s l = Ok (foldl g s l) /\ I (foldl g s l).
Proof.
elim: l s => [|a l IH] s Is H //=.
have [-> Is'] := H s a Is (mem_head _ _); apply: IH => // s' b Is'' bl.
by apply: H => //; rewrite inE bl orbT.
Qed.

(** An invariant of every state a loop returns. *)
Lemma foldM_inv (f : S -> A -> outcome Error S) (I : S -> Prop) s l s' :
  I s -> (forall s a s', I s -> f s a = Ok s' -> I s') -> foldM f s l = Ok s' -> I s'.
Proof.
elim: l s => [|a l IH] s Is H /=; first by case=> <-.
by case E : (f s a) => [s1| |] //=; apply: IH => //; apply: H E.
Qed.

Lemma mapM_ok (T : eqType) (f : T -> outcome Error B) (g : T -> B) (l : seq T) :
  (forall a, a \in l -> f a = Ok (g a)) -> mapM f l = Ok [seq g a | a <- l].
Proof.
elim: l => [|a l IH] H //=; rewrite H ?mem_head //= IH // => b bl.
by apply: H; rewrite inE bl orbT.
Qed.

Lemma allM_ok (T : eqType) (f : T -> outcome Error bool) (g : T -> bool) (l : seq T) :
  (forall x, x \in l -> f x = Ok (g x)) -> allM f l = Ok (all g l).
Proof.
elim: l => //= x l IH H; rewrite H ?mem_head //=.
by case: (g x) => //=; apply: IH => y yl; apply: H; rewrite in_cons yl orbT.
Qed.

(** A loop that pushes one element per iteration collects them. *)
Lemma foldM_collect (f : seq B -> A -> outcome Error (seq B)) (g : A -> outcome Error B) acc l :
  (forall v a, f v a = (let* b := g a in Ok (rcons v b))) ->
  foldM f acc l = (let* bs := mapM g l in Ok (acc ++ bs)).
Proof.
move=> H; elim: l acc => [|a l IH] acc /=; first by rewrite cats0.
by rewrite H; case: (g a) => [b| |] //=; rewrite IH; case: mapM => [bs| |] //=; rewrite cat_rcons.
Qed.

Lemma size_mapM (f : A -> outcome Error B) l bs : mapM f l = Ok bs -> size bs = size l.
Proof.
elim: l bs => [|a l IH] bs /=; first by case=> <-.
case: (f a) => [b| |] //=; case E : (mapM f l) => [bs'| |] //= [<-] /=.
by rewrite (IH _ E).
Qed.

Lemma nth_mapM (f : A -> outcome Error B) a0 b0 l bs i :
  mapM f l = Ok bs -> i < size l -> f (nth a0 l i) = Ok (nth b0 bs i).
Proof.
elim: l bs i => [|a l IH] bs i //=.
case fa : (f a) => [b| |] //=; case E : (mapM f l) => [bs'| |] //= [<-].
by case: i => [|i] lt //=; apply: IH.
Qed.

(** Panic freedom of sequencing and of loops. *)
Lemma bind_no_panic (m : outcome Error A) (k : A -> outcome Error B) :
  never_panics m -> (forall a, m = Ok a -> never_panics (k a)) -> never_panics (bind m k).
Proof. by case: m => [a| |] //= _ H; apply: H. Qed.

Lemma mapM_no_panic (f : A -> outcome Error B) l :
  (forall a, never_panics (f a)) -> never_panics (mapM f l).
Proof.
move=> H; elim: l => [|a l IH] //=.
have := H a; case: (f a) => [b| |] //= _.
by move: IH; case: (mapM f l).
Qed.

Lemma mapM_no_panic_in (T : eqType) (f : T -> outcome Error B) (l : seq T) :
  (forall a, a \in l -> never_panics (f a)) -> never_panics (mapM f l).
Proof.
elim: l => [|a l IH] //= H; have := H a (mem_head _ _); case: (f a) => [b| |] //= _.
have {}IH : never_panics (mapM f l) by apply: IH => x xl; apply: H; rewrite in_cons xl orbT.
by move: IH; case: (mapM f l).
Qed.

Lemma allM_no_panic_in (T : eqType) (f : T -> outcome Error bool) (l : seq T) :
  (forall a, a \in l -> never_panics (f a)) -> never_panics (allM f l).
Proof.
elim: l => [|a l IH] //= H; have := H a (mem_head _ _); case: (f a) => [b| |] //= _.
by case: b => //; apply: IH => x xl; apply: H; rewrite in_cons xl orbT.
Qed.

Lemma if_no_panic (c : bool) (m m' : outcome Error A) :
  (c -> never_panics m) -> (~~ c -> never_panics m') -> never_panics (if c then m else m').
Proof. by case: c => H H'; [apply: H|apply: H']. Qed.

Lemma ok_or_no_panic (e : Error) (o : option A) : never_panics (ok_or e o).
Proof. by case: o. Qed.

Lemma map_err_no_panic (f : Error -> B) (m : outcome Error A) :
  never_panics m -> never_panics (map_err f m).
Proof. by case: m. Qed.

Lemma foldM_no_panic (f : S -> A -> outcome Error S) s l :
  (forall s a, never_panics (f s a)) -> never_panics (foldM f s l).
Proof.
move=> H; elim: l s => [|a l IH] s //=.
by have := H s a; case: (f s a) => [s'| |] //= _; apply: IH.
Qed.

End Loops.

(** A [for (i, a) in v.iter().enumerate()] loop that only checks. *)
Section Enumerate.
Variables (Error A : Type).
Implicit Types (f : nat * A -> outcome Error unit) (l : seq A).

Lemma enum_checks_ok a0 f l k :
  foldM (fun _ => f) tt (zip (iota k (size l)) l) = Ok tt <->
  forall i, i < size l -> f (k + i, nth a0 l i) = Ok tt.
Proof.
elim: l k => [|a l IH] k /=; first by split.
split=> [|H].
  case fE: (f (k, a)) => [[]| |] //= /IH H [|i] lt; first by rewrite addn0.
  by rewrite -addSnnS; apply: H.
have := H 0 isT; rewrite addn0 /= => -> /=; apply/IH => i lt.
by rewrite addSnnS; apply: H i.+1 lt.
Qed.

Lemma enum_checks_no_panic a0 f l k :
  (forall i, i < size l -> never_panics (f (k + i, nth a0 l i))) ->
  never_panics (foldM (fun _ => f) tt (zip (iota k (size l)) l)).
Proof.
elim: l k => [|a l IH] k //= H; have := H 0 isT; rewrite addn0 /=.
case: (f (k, a)) => [[]| |] //= _; apply: IH => i lt; rewrite addSnnS.
exact: H i.+1 lt.
Qed.
End Enumerate.
