(* ===== verification/Errors.v ===== *)
(** * [errors.rs]: the error type of the hinTS crate *)
From Stdlib Require Import Strings.String.
From S2P Require Import Prelude.

Local Open Scope string_scope.

(** The two wrapped errors come from [ark_serialize] and [ark_ec]; they are type
    parameters here. *)
Inductive HinTSError (SE HE : Type) : Type :=
| EncodingError (e : SE)
| HashingError (e : HE)
| InvalidNetworkSize (n : nat)
| InsufficientCRS (d : nat)
| InvalidInput (m : message)
| CryptographyCatastrophe (m : message).
Arguments EncodingError {SE HE} e.
Arguments HashingError {SE HE} e.
Arguments InvalidNetworkSize {SE HE} n.
Arguments InsufficientCRS {SE HE} d.
Arguments InvalidInput {SE HE} m.
Arguments CryptographyCatastrophe {SE HE} m.

(** [impl From<SerializationError> for HinTSError] and
    [impl From<HashToCurveError> for HinTSError], as the [?] operator applies them. *)
Definition lift_encoding {SE HE A} (s : SE + A) : outcome (HinTSError SE HE) A :=
  map_err EncodingError (of_sum s).

Definition lift_hashing {SE HE A} (s : HE + A) : outcome (HinTSError SE HE) A :=
  map_err HashingError (of_sum s).

(** [impl Display for HinTSError]; the two wrapped errors display themselves. *)
Definition error_text {SE HE} (show_encoding : SE -> string) (show_hashing : HE -> string)
    (e : HinTSError SE HE) : string :=
  match e with
  | EncodingError err => show_encoding err
  | InvalidNetworkSize n => "Network size must be a power of 2. Got " ++ dec n
  | InsufficientCRS d => "CRS is insufficient for the operation. Expected degree " ++ dec d
  | InvalidInput s => "Invalid input: " ++ format (template s) (args s)
  | CryptographyCatastrophe s => "Cryptography catastrophe: " ++ format (template s) (args s)
  | HashingError err => show_hashing err
  end.

Example error_text_of_slot : error_text (fun _ : unit => "") (fun _ : unit => "")
  (InvalidInput (Msg "Invalid hint: hint verification failed for i = {}" (12 :: nil))) =
  "Invalid input: Invalid hint: hint verification failed for i = 12".
Proof. reflexivity. Qed.

Lemma lift_encoding_inr {SE HE A} (a : A) : @lift_encoding SE HE A (inr a) = Ok a.
Proof. reflexivity. Qed.

Lemma lift_encoding_Ok_inv {SE HE A} (s : SE + A) (a : A) :
  @lift_encoding SE HE A s = Ok a -> s = inr a.
Proof. destruct s; cbn; congruence. Qed.

Lemma lift_hashing_Ok_inv {SE HE A} (s : HE + A) (a : A) :
  @lift_hashing SE HE A s = Ok a -> s = inr a.
Proof. destruct s; cbn; congruence. Qed.

Lemma lift_encoding_no_panic {SE HE A} (s : SE + A) :
  never_panics (@lift_encoding SE HE A s).
Proof. destruct s; discriminate. Qed.

Lemma lift_hashing_no_panic {SE HE A} (s : HE + A) :
  never_panics (@lift_hashing SE HE A s).
Proof. destruct s; discriminate. Qed.
