(* ===== verification/PolyFacts.v ===== *)
(** * Polynomials over a multiplicative subgroup

    Algebra shared by the hinTS components: the vanishing polynomial of the
    subgroup generated by an [n]-th primitive root of unity, its Lagrange basis,
    divisibility by the vanishing polynomial, and root counting. *)
From mathcomp Require Import ssreflect ssrfun ssrbool eqtype ssrnat seq div.
From mathcomp Require Import fintype bigop ssralg poly polydiv ring_tactic field_tactic.
Import GRing.Theory.
Set Warnings "-rewrite-rw".
Set Implicit Arguments.
Unset Strict Implicit.
Unset Printing Implicit Defensive.
Local Open Scope ring_scope.

Section Subgroup.
Variables (K : fieldType) (n : nat) (w : K).
Hypothesis w_prim : n.-primitive_root w.

Let n_gt0 : (0 < n)%N := prim_order_gt0 w_prim.
Let nK0 : n%:R != 0 :> K := prim_root_natf_neq0 w_prim.

(** Z(X) = X^n - 1 *)
Definition Zn : {poly K} := 'X^n - 1.

(** L_i(X) = (w^i / n) Z(X) / (X - w^i) *)
Definition Lag (i : nat) : {poly K} := (w ^+ i / n%:R) *: (Zn %/ ('X - (w ^+ i)%:P)).

Lemma w_neq0 : w != 0.
Proof.
apply/eqP => w0; have := prim_expr_order w_prim; move/eqP.
by rewrite w0 expr0n eqn0Ngt n_gt0 eq_sym oner_eq0.
Qed.

Lemma wexp_neq0 i : w ^+ i != 0.
Proof. exact: expf_neq0 w_neq0. Qed.

Lemma size_Zn : size Zn = n.+1.
Proof. exact: size_XnsubC. Qed.

Lemma Zn_neq0 : Zn != 0.
Proof. by rewrite -size_poly_eq0 size_Zn. Qed.

Lemma horner_Zn x : Zn.[x] = x ^+ n - 1.
Proof. by rewrite /Zn !hornerE. Qed.

Lemma Zn_root i : Zn.[w ^+ i] = 0.
Proof. by rewrite horner_Zn -exprM mulnC exprM (prim_expr_order w_prim) expr1n subrr. Qed.

Lemma domain_inj i j : (i < n)%N -> (j < n)%N -> (w ^+ i == w ^+ j) = (i == j).
Proof. by move=> ltin ltjn; rewrite (eq_prim_root_expr w_prim) !modn_small. Qed.

Definition domain : seq K := [seq w ^+ i | i <- iota 0 n].

Lemma domain_uniq : uniq domain.
Proof.
rewrite map_inj_in_uniq ?iota_uniq // => i j; rewrite !mem_iota !add0n /= => lti ltj /eqP.
by rewrite domain_inj // => /eqP.
Qed.

Lemma prod_domain : \prod_(z <- domain) ('X - z%:P) = Zn.
Proof. by rewrite /Zn -(factor_Xn_sub_1 w_prim) /index_iota subn0 big_map. Qed.

(** Z(x) = 0 exactly on the domain. *)
Lemma Zn_eq0P x : reflect (exists2 i, (i < n)%N & x = w ^+ i) (x ^+ n == 1).
Proof.
apply: (iffP eqP) => [xn1|[i _ ->]]; last first.
  by apply/eqP; rewrite -subr_eq0 -horner_Zn Zn_root.
have: root Zn x by rewrite /root horner_Zn xn1 subrr.
rewrite -prod_domain root_prod_XsubC => /mapP [i].
by rewrite mem_iota add0n => /andP [_ lt] ->; exists i.
Qed.

(** A polynomial that vanishes on the domain is a multiple of Z. *)
Lemma dvd_ZnP (p : {poly K}) :
  reflect (forall i, (i < n)%N -> p.[w ^+ i] = 0) (Zn %| p).
Proof.
apply: (iffP idP) => [/dvdpP [q ->] i _|H]; first by rewrite hornerM Zn_root mulr0.
rewrite -prod_domain; apply: uniq_roots_dvdp; last by rewrite uniq_rootsE domain_uniq.
apply/allP => _ /mapP [i Hi ->]; apply/eqP/H.
by move: Hi; rewrite mem_iota.
Qed.

(** A polynomial of size at most [n] is determined by its values on the domain. *)
Lemma domain_ext (p q : {poly K}) : (size p <= n)%N -> (size q <= n)%N ->
  (forall i, (i < n)%N -> p.[w ^+ i] = q.[w ^+ i]) -> p = q.
Proof.
move=> sp sq H; apply/eqP; rewrite -subr_eq0; apply: contraT => nz.
have /(dvdp_leq nz) : Zn %| p - q.
  by apply/dvd_ZnP => i lt; rewrite hornerD hornerN H // subrr.
rewrite size_Zn leqNgt ltnS => /negP; case.
by apply: leq_trans (size_polyD _ _) _; rewrite size_polyN geq_max sp.
Qed.

Lemma dvd_XsubC_Zn i : 'X - (w ^+ i)%:P %| Zn.
Proof. by rewrite dvdp_XsubCl /root Zn_root. Qed.

Lemma Zn_div_XsubC i : (Zn %/ ('X - (w ^+ i)%:P)) * ('X - (w ^+ i)%:P) = Zn.
Proof. exact/divpK/dvd_XsubC_Zn. Qed.

Lemma Lag_mul i : Lag i * ('X - (w ^+ i)%:P) = (w ^+ i / n%:R) *: Zn.
Proof. by rewrite /Lag -scalerAl Zn_div_XsubC. Qed.

Lemma size_Lag i : size (Lag i) = n.
Proof.
rewrite size_scale ?mulf_neq0 ?invr_eq0 ?wexp_neq0 //.
by rewrite size_divp ?polyXsubC_eq0 // size_XsubC size_Zn subn1.
Qed.

Lemma Lag_self i : (Lag i).[w ^+ i] = 1.
Proof.
have := congr1 (fun p => p^`().[w ^+ i]) (Zn_div_XsubC i).
rewrite derivM derivXsubC mulr1 derivB derivXn derivC subr0.
rewrite hornerD hornerM hornerXsubC subrr mulr0 add0r hornerMn hornerXn => E.
rewrite hornerZ E -[w ^+ i ^+ _ *+ n]mulr_natr.
have a1 : w ^+ i * w ^+ i ^+ n.-1 = 1.
  by rewrite -exprS prednK // -exprM mulnC exprM (prim_expr_order w_prim) expr1n.
by rewrite mulrACA a1 mul1r mulVf.
Qed.

(** L_i(w^j) is 1 for j = i and 0 elsewhere on the domain. *)
Lemma Lag_domain i j : (i < n)%N -> (j < n)%N -> (Lag i).[w ^+ j] = (i == j)%:R.
Proof.
move=> lti ltj; case: eqP => [->|ne]; first exact: Lag_self.
have := congr1 (horner^~ (w ^+ j)) (Lag_mul i).
rewrite hornerM hornerXsubC hornerZ Zn_root mulr0 => /eqP.
rewrite mulf_eq0 subr_eq0 => /orP [/eqP //|].
by rewrite domain_inj // => /eqP ji; case: ne.
Qed.

(** The closed form the verifier uses off the domain. *)
Lemma Lag_off_domain i x : x != w ^+ i ->
  (Lag i).[x] = (w ^+ i / n%:R) * ((x ^+ n - 1) / (x - w ^+ i)).
Proof.
move=> ne; have nz : x - w ^+ i != 0 by rewrite subr_eq0.
apply: (mulIf nz); have := congr1 (horner^~ x) (Lag_mul i).
by rewrite hornerM hornerXsubC hornerZ horner_Zn => ->; rewrite -[RHS]mulrA divfK.
Qed.

(** L_i(0) = 1/n, whatever i: the constant term that makes Q_x a sumcheck. *)
Lemma Lag_at0 i : (Lag i).[0] = n%:R^-1.
Proof.
rewrite Lag_off_domain 1?eq_sym ?wexp_neq0 //.
have w0 := wexp_neq0 i.
by rewrite expr0n eqn0Ngt n_gt0 /= !sub0r invrN mulrNN mul1r mulrAC divff // mul1r.
Qed.

(** Interpolation in the Lagrange basis. *)
Definition interp (v : nat -> K) : {poly K} := \sum_(i < n) v i *: Lag i.

Lemma size_interp v : (size (interp v) <= n)%N.
Proof.
apply: leq_trans (size_sum _ _ _) _; apply/bigmax_leqP => i _.
by apply: leq_trans (size_scale_leq _ _) _; rewrite size_Lag.
Qed.

Lemma interp_domain v i : (i < n)%N -> (interp v).[w ^+ i] = v i.
Proof.
move=> lt; rewrite horner_sum (bigD1 (Ordinal lt)) //= hornerZ Lag_self mulr1.
rewrite big1 ?addr0 // => j ne; rewrite hornerZ Lag_domain //.
by rewrite -[i]/(nat_of_ord (Ordinal lt)) (inj_eq val_inj) (negbTE ne) mulr0.
Qed.

Lemma interpE (p : {poly K}) v : (size p <= n)%N ->
  (forall i, (i < n)%N -> p.[w ^+ i] = v i) -> p = interp v.
Proof.
move=> sp H; apply: domain_ext => // [|i lt]; first exact: size_interp.
by rewrite interp_domain // H.
Qed.

(** The products L_i L_j (i <> j) and L_i^2 - L_i are multiples of Z: these are
    the exact divisions behind the hints. *)
Lemma dvd_Lag_mul i j : (i < n)%N -> (j < n)%N -> i != j -> Zn %| Lag j * Lag i.
Proof.
move=> lti ltj ne; apply/dvd_ZnP => k lt; rewrite hornerM !Lag_domain //.
by case: eqP => [<-|_]; rewrite ?mul0r // (negbTE ne) mulr0.
Qed.

Lemma dvd_Lag_sqr i : (i < n)%N -> Zn %| Lag i * Lag i - Lag i.
Proof.
move=> lti; apply/dvd_ZnP => k lt; rewrite hornerD hornerN hornerM !Lag_domain //.
by case: (i == k); rewrite ?mulr0 ?mulr1 subrr.
Qed.

(** L_i(X) - L_i(0) is a multiple of X. *)
Lemma dvd_X_Lag i : 'X %| Lag i - (Lag i).[0]%:P.
Proof. by rewrite -['X]subr0 dvdp_XsubCl /root hornerD hornerN hornerC subrr. Qed.

(** w^(i-1), cyclically: the neighbour the running-sum recurrence looks back to. *)
Lemma domain_pred i : (i < n)%N ->
  w ^+ i / w = w ^+ (if i is i'.+1 then i' else n.-1).
Proof.
case: i => [|i] lt; last by rewrite exprS mulrC mulKf ?w_neq0.
rewrite expr0 -(prim_expr_order w_prim) -{1}(prednK n_gt0) exprS mulrC mulKf //.
exact: w_neq0.
Qed.

End Subgroup.

(** Substituting wX scales the i-th coefficient by w^i. *)
Lemma coef_comp_scaleX (K : fieldType) (p : {poly K}) (w : K) i :
  (p \Po (w *: 'X))`_i = p`_i * w ^+ i.
Proof.
rewrite coef_comp_poly; under eq_bigr => j _ do rewrite exprZn coefZ coefXn.
case: (ltnP i (size p)) => lt; last first.
  rewrite nth_default // mul0r big1 // => j _.
  by rewrite gtn_eqF ?mulr0 // (leq_trans _ lt).
rewrite (bigD1 (Ordinal lt)) //= eqxx mulr1 big1 ?addr0 // => j ne.
by rewrite -[i]/(nat_of_ord (Ordinal lt)) (inj_eq val_inj) eq_sym (negbTE ne) !mulr0.
Qed.

Section RootCounting.
Variable K : fieldType.

(** A polynomial of size at most [m] that vanishes at [m] distinct points is zero. *)
Lemma poly_eq0_roots (p : {poly K}) (rs : seq K) :
  uniq rs -> (forall x, x \in rs -> p.[x] = 0) -> (size p <= size rs)%N -> p = 0.
Proof.
move=> U H le; apply/eqP; apply: contraT => nz.
have /(max_poly_roots nz) /(_ U) : all (root p) rs by apply/allP => x /H /eqP.
by rewrite ltnNge le.
Qed.

(** Two polynomials that agree at enough points are equal. *)
Lemma poly_ext_roots (p q : {poly K}) (rs : seq K) :
  uniq rs -> (size p <= size rs)%N -> (size q <= size rs)%N ->
  (forall x, x \in rs -> p.[x] = q.[x]) -> p = q.
Proof.
move=> U sp sq H; apply/eqP; rewrite -subr_eq0; apply/eqP.
apply: poly_eq0_roots U _ _ => [x /H|].
  by rewrite hornerD hornerN => ->; rewrite subrr.
by apply: leq_trans (size_polyD _ _) _; rewrite size_polyN geq_max sp.
Qed.

End RootCounting.
