(* ===== verification/Engine.v ===== *)
(** * The arkworks interface of the hinTS crate

    The hinTS crate ([hedera-cryptography-hints/src/main/rust]) computes in the
    BLS12-381 scalar field, its two source groups and its target group, and with
    the univariate polynomials, evaluation domains, hashers and random generators
    of the arkworks crates.  None of that is code of the repository: it is the
    parameter [Engine] of the model, and [EngineLaws] states the documented
    behaviour the crate relies on.  A concrete engine that meets the laws is
    built in [ToyEngine]. *)
From S2P Require Import Prelude.
From Stdlib Require Import Strings.Byte.
From mathcomp Require Import ssreflect ssrfun ssrbool eqtype ssrnat seq div prime.
From mathcomp Require Import fintype bigop ssralg poly polydiv.
Import GRing.Theory.
Set Warnings "-rewrite-rw".
Set Implicit Arguments.
Unset Strict Implicit.
Unset Printing Implicit Defensive.
Local Open Scope ring_scope.

(** [ark_poly::univariate::DensePolynomial], whose field is public and is built
    and read directly by the crate. *)
Record DensePolynomial (F : Type) := DensePoly { coeffs : seq F }.

(** [ark_poly::Radix2EvaluationDomain]: the two fields the crate uses. *)
Record Radix2EvaluationDomain (F : Type) :=
  Radix2Domain { domain_size : nat; group_gen : F }.

Arguments coeffs {F} _.
Arguments domain_size {F} _.
Arguments group_gen {F} _.

(** A prime-order group in either coordinate system.  Group elements are
    modelled up to coordinates, so [into_affine] and [into_group] are the
    identity. *)
Record Group (F : fieldType) (SE : Type) := GroupOps {
  carrier :> lmodType F;
  generator : carrier;
  (** [VariableBaseMSM::msm_unchecked], [msm] and [msm_bigint] *)
  msm_unchecked : seq carrier -> seq F -> carrier;
  msm : seq carrier -> seq F -> nat + carrier;
  msm_bigint : seq carrier -> seq nat -> carrier;
  (** [ScalarMul::batch_mul] *)
  batch_mul : carrier -> seq F -> seq carrier;
  serialize_compressed : carrier -> SE + bytes;
  serialize_uncompressed : carrier -> SE + bytes
}.

Class Engine := {
  (** [ark_serialize::SerializationError], [ark_ec::hashing::HashToCurveError] *)
  SerializationError : Type;
  HashToCurveError : Type;
  (** [ark_bls12_381::Fr] *)
  F : fieldType;
  MODULUS : nat;
  into_bigint : F -> nat;
  serialize_F : F -> SerializationError + bytes;
  serialize_usize : nat -> SerializationError + bytes;
  from_le_bytes_mod_order : bytes -> F;
  (** the curve groups, the target group and the pairing *)
  G1 : Group F SerializationError;
  G2 : Group F SerializationError;
  GT : lmodType F;
  pairing : G1 -> G2 -> GT;
  (** [ark_poly] *)
  from_coefficients_vec : seq F -> DensePolynomial F;
  poly_add : DensePolynomial F -> DensePolynomial F -> DensePolynomial F;
  poly_sub : DensePolynomial F -> DensePolynomial F -> DensePolynomial F;
  poly_mul : DensePolynomial F -> DensePolynomial F -> DensePolynomial F;
  poly_div : DensePolynomial F -> DensePolynomial F -> DensePolynomial F;
  evaluate : DensePolynomial F -> F -> F;
  degree : DensePolynomial F -> nat;
  TWO_ADICITY : nat;
  domain_new : nat -> option (Radix2EvaluationDomain F);
  (** [Evaluations::from_vec_and_domain(evals, d).interpolate()] *)
  interpolate_evals : seq F -> Radix2EvaluationDomain F -> DensePolynomial F;
  divide_by_vanishing_poly :
    DensePolynomial F -> Radix2EvaluationDomain F ->
    DensePolynomial F * DensePolynomial F;
  (** [DefaultFieldHasher<Sha256>::new(dst).hash_to_field::<1>(msg)[0]] *)
  hash_to_field : bytes -> bytes -> F;
  (** [MapToCurveBasedHasher::new(dst)] and its [hash] *)
  CurveHasher : Type;
  curve_hasher_new : bytes -> HashToCurveError + CurveHasher;
  curve_hash : CurveHasher -> bytes -> HashToCurveError + G2;
  (** [sha2::Sha256] over a whole input *)
  sha256 : bytes -> bytes;
  (** [rand_chacha::ChaCha8Rng] *)
  Rng : Type;
  from_seed : bytes -> Rng;
  fill_bytes : nat -> Rng -> bytes * Rng;
  rand_F : Rng -> F * Rng;
  rand_G1 : Rng -> G1 * Rng;
  rand_G2 : Rng -> G2 * Rng
}.

Abbreviation Poly_F := (DensePolynomial F).
Abbreviation Domain_F := (Radix2EvaluationDomain F).

(** The polynomial a coefficient vector denotes. *)
Definition polyOf {R : nzRingType} (p : DensePolynomial R) : {poly R} := Poly (coeffs p).

(** arkworks' representation invariant: a polynomial that is not identically zero
    has a nonzero last coefficient.  [degree] is only meaningful under it. *)
Definition regular {R : nzRingType} (p : DensePolynomial R) : bool :=
  (last 1 (coeffs p) != 0) || all (eq_op^~ 0) (coeffs p).

(** The multi-scalar multiplication the [msm] family computes. *)
Definition msm_spec (R : fieldType) (V : lmodType R) (bs : seq V) (ks : seq R) : V :=
  \sum_(x <- zip bs ks) x.2 *: x.1.

Class GroupLaws (R : fieldType) (SE : Type) (G : Group R SE) : Prop := {
  generator_neq0 : generator G != 0;
  (** prime order: the generator spans the group *)
  generator_spans : forall P : G, exists x : R, P = x *: generator G;
  msm_uncheckedE : forall (bs : seq G) ks, msm_unchecked bs ks = msm_spec bs ks;
  msmE : forall (bs : seq G) ks,
    size bs = size ks -> msm bs ks = inr (msm_spec bs ks);
  msm_bigintE : forall (bs : seq G) ks,
    msm_bigint bs ks = msm_spec bs [seq k%:R | k <- ks];
  batch_mulE : forall (g : G) ks, batch_mul g ks = [seq k *: g | k <- ks];
  (** serialization into a growable vector does not fail *)
  ser_compressed_ok : forall P : G, exists b, serialize_compressed P = inr b;
  ser_uncompressed_ok : forall P : G, exists b, serialize_uncompressed P = inr b
}.

Class EngineLaws (E : Engine) : Prop := {
  MODULUS_char : MODULUS \in [pchar F];
  into_bigintK : forall x : F, (into_bigint x)%:R = x;
  into_bigint_lt : forall x : F, (into_bigint x < MODULUS)%N;
  ser_F_ok : forall x : F, exists b, serialize_F x = inr b;
  ser_usize_ok : forall n : nat, exists b, serialize_usize n = inr b;
  G1_laws :: GroupLaws G1;
  G2_laws :: GroupLaws G2;
  pairingDl : forall (P P' : G1) (Q : G2),
    pairing (P + P') Q = pairing P Q + pairing P' Q;
  pairingDr : forall (P : G1) (Q Q' : G2),
    pairing P (Q + Q') = pairing P Q + pairing P Q';
  pairingZl : forall (a : F) (P : G1) (Q : G2), pairing (a *: P) Q = a *: pairing P Q;
  pairingZr : forall (a : F) (P : G1) (Q : G2), pairing P (a *: Q) = a *: pairing P Q;
  pairing_nondegenerate : pairing (generator G1) (generator G2) != 0;
  from_coefficients_vecE : forall s : seq F, polyOf (from_coefficients_vec s) = Poly s;
  from_coefficients_vec_reg : forall s : seq F, regular (from_coefficients_vec s);
  poly_addE : forall p q : Poly_F, regular p -> regular q ->
    polyOf (poly_add p q) = polyOf p + polyOf q;
  poly_add_reg : forall p q : Poly_F, regular p -> regular q -> regular (poly_add p q);
  poly_subE : forall p q : Poly_F, regular p -> regular q ->
    polyOf (poly_sub p q) = polyOf p - polyOf q;
  poly_sub_reg : forall p q : Poly_F, regular p -> regular q -> regular (poly_sub p q);
  poly_mulE : forall p q : Poly_F, regular p -> regular q ->
    polyOf (poly_mul p q) = polyOf p * polyOf q;
  poly_mul_reg : forall p q : Poly_F, regular p -> regular q -> regular (poly_mul p q);
  poly_divE : forall p q : Poly_F, regular p -> regular q -> polyOf q != 0 ->
    polyOf (poly_div p q) = polyOf p %/ polyOf q;
  poly_div_reg : forall p q : Poly_F, regular p -> regular q -> polyOf q != 0 ->
    regular (poly_div p q);
  evaluateE : forall (p : Poly_F) x, evaluate p x = (polyOf p).[x];
  degreeE : forall p : Poly_F, regular p -> degree p = (size (polyOf p)).-1;
  domain_newP : forall k d, domain_new (2 ^ k) = Some d ->
    domain_size d = (2 ^ k)%N /\ (2 ^ k).-primitive_root (group_gen d);
  TWO_ADICITY_gt0 : (0 < TWO_ADICITY)%N;
  domain_new_ok : forall k, (k <= TWO_ADICITY)%N -> exists d, domain_new (2 ^ k) = Some d;
  interpolate_evalsP : forall evals (d : Domain_F), size evals = domain_size d ->
    (domain_size d).-primitive_root (group_gen d) ->
    [/\ regular (interpolate_evals evals d),
        (size (polyOf (interpolate_evals evals d)) <= domain_size d)%N &
        forall i, (i < domain_size d)%N ->
          (polyOf (interpolate_evals evals d)).[group_gen d ^+ i] = evals`_i];
  divide_by_vanishing_polyP : forall p (d : Domain_F), regular p -> (0 < domain_size d)%N ->
    let: (q, r) := divide_by_vanishing_poly p d in
    [/\ polyOf q = polyOf p %/ ('X^(domain_size d) - 1),
        polyOf r = polyOf p %% ('X^(domain_size d) - 1),
        regular q & regular r]
}.

(** [a / b] in the scalar field: arkworks panics on a zero divisor. *)
Definition field_div {Error : Type} {R : fieldType} (a b : R) : outcome Error R :=
  if b == 0 then Panic else Ok (a / b).

Lemma field_div_ok {Error : Type} {R : fieldType} (a b : R) :
  b != 0 -> field_div a b = Ok (a / b) :> outcome Error R.
Proof. by rewrite /field_div => /negbTE ->. Qed.

(** ** Consequences of the laws *)
Section Consequences.
Context {E : Engine} {L : EngineLaws E}.

Lemma pairing0l (Q : G2) : pairing 0 Q = 0.
Proof. by rewrite -(scale0r (0 : G1)) pairingZl scale0r. Qed.

Lemma pairing0r (P : G1) : pairing P 0 = 0.
Proof. by rewrite -(scale0r (0 : G2)) pairingZr scale0r. Qed.

Lemma pairingBl (P P' : G1) (Q : G2) : pairing (P - P') Q = pairing P Q - pairing P' Q.
Proof. by rewrite pairingDl -scaleN1r pairingZl scaleN1r. Qed.

Lemma pairingBr (P : G1) (Q Q' : G2) : pairing P (Q - Q') = pairing P Q - pairing P Q'.
Proof. by rewrite pairingDr -scaleN1r pairingZr scaleN1r. Qed.

Lemma pairing_suml (I : Type) (r : seq I) (f : I -> G1) (Q : G2) :
  pairing (\sum_(i <- r) f i) Q = \sum_(i <- r) pairing (f i) Q.
Proof.
by elim/big_rec2: _ => [|i P Q' _ IH]; rewrite ?pairing0l // pairingDl IH.
Qed.

(** The pairing of two multiples of the generators sees only the product of the
    exponents. *)
Lemma pairing_exp (a b : F) :
  pairing (a *: generator G1) (b *: generator G2) =
  (a * b) *: pairing (generator G1) (generator G2).
Proof. by rewrite pairingZl pairingZr scalerA. Qed.

Lemma scaler_injr (V : lmodType F) (v : V) (a b : F) :
  v != 0 -> a *: v = b *: v -> a = b.
Proof.
move=> v0 /eqP; rewrite -subr_eq0 -scalerBl scaler_eq0 (negbTE v0) orbF subr_eq0.
by move/eqP.
Qed.

Lemma pairing_exp_inj (a b a' b' : F) :
  pairing (a *: generator G1) (b *: generator G2) =
  pairing (a' *: generator G1) (b' *: generator G2) <-> a * b = a' * b'.
Proof.
rewrite !pairing_exp; split=> [|-> //].
exact: scaler_injr pairing_nondegenerate.
Qed.

Lemma pairing_inj_l (P P' : G1) :
  pairing P (generator G2) = pairing P' (generator G2) -> P = P'.
Proof.
have [x ->] := generator_spans P; have [y ->] := generator_spans P'.
rewrite !pairingZl => /(scaler_injr pairing_nondegenerate) -> //.
Qed.

Lemma pairing_inj_r (Q Q' : G2) :
  pairing (generator G1) Q = pairing (generator G1) Q' -> Q = Q'.
Proof.
have [x ->] := generator_spans Q; have [y ->] := generator_spans Q'.
rewrite !pairingZr => /(scaler_injr pairing_nondegenerate) -> //.
Qed.

(** Distinct canonical representatives denote distinct field elements. *)
Lemma natr_inj_lt (a b : nat) :
  (a < MODULUS)%N -> (b < MODULUS)%N -> a%:R = b%:R :> F -> a = b.
Proof.
have pP := @MODULUS_char E L.
wlog le : a b / (a <= b)%N => [W ap bp ab|_ bp ab].
  by case/orP: (leq_total a b) => [/W|/W] H; [|symmetry]; apply: H.
apply/eqP; rewrite eqn_leq le -subn_eq0 /=.
have := dvdn_pcharf pP (b - a); rewrite natrB // ab subrr eqxx.
case: (posnP (b - a)) => [-> //|pos]; rewrite gtnNdvd //.
exact: leq_ltn_trans (leq_subr _ _) bp.
Qed.

(** [F::from(n)] has the representative [n mod r]. *)
Lemma into_bigint_nat (n : nat) : into_bigint (n%:R : F) = (n %% MODULUS)%N.
Proof.
have pP := @MODULUS_char E L.
apply: natr_inj_lt; rewrite ?into_bigint_lt ?ltn_mod ?prime_gt0 ?(pcharf_prime pP) //.
by rewrite into_bigintK GRing.natr_mod_pchar.
Qed.

Lemma into_bigint_small (n : nat) : (n < MODULUS)%N -> into_bigint (n%:R : F) = n.
Proof. by move=> lt; rewrite into_bigint_nat modn_small. Qed.
End Consequences.
