(* ===== verification/DenseOps.v ===== *)
(** * Executable dense polynomials

    Schoolbook operations on coefficient vectors, proved against MathComp's
    [{poly K}].  They instantiate the arkworks polynomial interface in
    [ToyEngine], so that every definition of the development evaluates. *)
From S2P Require Import Prelude Engine PolyFacts.
From mathcomp Require Import ssreflect ssrfun ssrbool eqtype ssrnat seq div.
From mathcomp Require Import fintype bigop ssralg poly polydiv.
Import GRing.Theory.
Set Warnings "-rewrite-rw".
Set Implicit Arguments.
Unset Strict Implicit.
Unset Printing Implicit Defensive.
Local Open Scope ring_scope.

Section Dense.
Variable K : fieldType.
Implicit Types (s t : seq K).

(** Drops the zero leading coefficients. *)
Fixpoint trim s : seq K :=
  if s is x :: s' then
    let t := trim s' in if nilp t && (x == 0) then [::] else x :: t
  else [::].

Lemma Poly_trim s : Poly (trim s) = Poly s.
Proof.
elim: s => [|x s IH] //=; case: ifP => [/andP [/nilP tn /eqP ->]|_] /=; last by rewrite IH.
by rewrite -IH tn /= cons_poly_def mul0r add0r.
Qed.

Lemma last_trim s : last 1 (trim s) != 0.
Proof.
elim: s => [|x s IH] /=; first exact: oner_neq0.
case: (trim s) IH => [|y t] IH //=.
by have [_|] := eqVneq x 0; rewrite ?oner_neq0.
Qed.

Lemma size_trim s : size (Poly s) = size (trim s).
Proof. by rewrite -Poly_trim -[in LHS](PolyK (last_trim s)) polyseqK (PolyK (last_trim s)). Qed.

Fixpoint add_coeffs s t : seq K :=
  match s, t with
  | [::], _ => t
  | _, [::] => s
  | x :: s', y :: t' => (x + y) :: add_coeffs s' t'
  end.

Lemma Poly_add s t : Poly (add_coeffs s t) = Poly s + Poly t.
Proof.
elim: s t => [|x s IH] [|y t] /=; rewrite ?add0r ?addr0 //.
by rewrite !cons_poly_def IH mulrDl polyCD addrACA.
Qed.

Definition scale_coeffs (c : K) s : seq K := [seq c * x | x <- s].

Lemma Poly_scale c s : Poly (scale_coeffs c s) = c *: Poly s.
Proof.
elim: s => [|x s IH] /=; first by rewrite scaler0.
by rewrite !cons_poly_def IH scalerDr -scalerAl polyCM mul_polyC.
Qed.

Fixpoint mul_coeffs s t : seq K :=
  if s is x :: s' then add_coeffs (scale_coeffs x t) (0 :: mul_coeffs s' t) else [::].

Lemma Poly_mul s t : Poly (mul_coeffs s t) = Poly s * Poly t.
Proof.
elim: s => [|x s IH] /=; first by rewrite mul0r.
rewrite Poly_add Poly_scale /= !cons_poly_def IH addr0 mulrDl -mul_polyC.
by rewrite addrC mulrAC.
Qed.

(** Long division of a trimmed dividend by a trimmed nonzero divisor. *)
Fixpoint divmod (fuel : nat) q r t : seq K * seq K :=
  if fuel is fuel'.+1 then
    if (size r < size t)%N then (q, r)
    else
      let c := last 0 r / last 0 t in
      let k := (size r - size t)%N in
      let q' := add_coeffs q (nseq k 0 ++ [:: c]) in
      let r' := trim (add_coeffs r (scale_coeffs (- c) (nseq k 0 ++ t))) in
      divmod fuel' q' r' t
  else (q, r).

Lemma Poly_shift k s : Poly (nseq k 0 ++ s) = 'X^k * Poly s.
Proof.
elim: k => [|k IH] /=; first by rewrite mul1r.
by rewrite cons_poly_def polyC0 addr0 IH mulrC mulrA -exprS.
Qed.

Lemma lead_trim s : last 0 (trim s) = lead_coef (Poly s).
Proof.
rewrite lead_coefE size_trim -Poly_trim (PolyK (last_trim s)).
by rewrite nth_last.
Qed.

Lemma divmodP fuel q r t : last 1 r != 0 -> last 1 t != 0 -> t != [::] ->
  (size r <= fuel + (size t).-1)%N ->
  let: (q', r') := divmod fuel q r t in
  [/\ Poly q' * Poly t + Poly r' = Poly q * Poly t + Poly r,
      (size r' < size t)%N & last 1 r' != 0].
Proof.
move=> + tl tn; have t0 : (0 < size t)%N by case: (t) tn.
elim: fuel q r => [|fuel IH] q r rl le /=.
  by split=> //; rewrite -[size t]prednK // ltnS.
case: ltnP => [lt|ge]; first by [].
set c := _ / _; set k := (_ - _)%N; set q' := add_coeffs _ _; set r' := trim _.
have r'E : Poly r' = Poly r - c *: ('X^k * Poly t).
  by rewrite Poly_trim Poly_add Poly_scale Poly_shift scaleNr.
have szr : size (Poly r) = size r by rewrite (PolyK rl).
have szt : size (Poly t) = size t by rewrite (PolyK tl).
have r0 : (0 < size r)%N by exact: leq_trans t0 ge.
have rk : ((size r).-1 = k + (size t).-1)%N by rewrite -subn1 -(subnK ge) -/k -[size t]prednK // addnS subn1.
have lt0 : last 0 t != 0 by case: (t) tn tl.
have lr' : last 1 r' != 0 by exact: last_trim.
have le' : (size r' <= fuel + (size t).-1)%N.
  suff: (size r' <= (size r).-1)%N.
    by move/leq_trans; apply; rewrite -ltnS prednK // (leq_trans le) // addSn.
  rewrite -(PolyK lr') r'E; apply/leq_sizeP => j lej.
  rewrite coefB coefZ coefXnM !coef_Poly.
  move: lej; rewrite leq_eqVlt => /orP [/eqP <-|ltj].
    rewrite rk ltnNge leq_addr /= addKn -rk !nth_last /c divfK //.
    by rewrite subrr.
  have gej : (size r <= j)%N by rewrite -[size r]prednK.
  rewrite [r`_j]nth_default //; case: ifP => _; rewrite ?mulr0 ?subr0 //.
  have kj : (k <= j)%N by exact: leq_trans (leq_subr _ _) gej.
  by rewrite nth_default ?mulr0 ?subr0 // leq_subRL // subnK.
have := IH q' r' lr' le'; case: (divmod _ _ _ _) => q'' r'' [E1 E2 E3]; split=> //.
rewrite E1 r'E Poly_add Poly_shift /= cons_poly_def mul0r add0r mulrDl -addrA; congr (_ + _).
by rewrite -mulrA [c%:P * _]mul_polyC -scalerAr addrCA addrN addr0.
Qed.

Definition div_coeffs s t : seq K * seq K :=
  let r := trim s in divmod (size r).+1 [::] r (trim t).

Lemma div_coeffsP s t : Poly t != 0 ->
  [/\ Poly (div_coeffs s t).1 = Poly s %/ Poly t &
      Poly (div_coeffs s t).2 = Poly s %% Poly t].
Proof.
move=> t0; rewrite /div_coeffs.
have tn : trim t != [::] by rewrite -size_eq0 -size_trim size_poly_eq0.
have := @divmodP (size (trim s)).+1 [::] (trim s) (trim t) (last_trim s) (last_trim t) tn.
rewrite (leq_trans (leqnSn _) (leq_addr _ _)) => /(_ isT).
case: (divmod _ _ _ _) => q r /= []; rewrite !Poly_trim mul0r add0r => <- lt _.
have lt' : (size (Poly r) < size (Poly t))%N.
  by apply: leq_ltn_trans (size_Poly _) _; rewrite size_trim.
by rewrite divp_addl_mul_small // modp_addl_mul_small.
Qed.

(** ** The operations of the [DensePolynomial] interface *)
Definition dense (s : seq K) : DensePolynomial K := DensePoly (trim s).

Lemma dense_reg s : regular (dense s).
Proof. by rewrite /regular /= last_trim. Qed.

Lemma polyOf_dense s : polyOf (dense s) = Poly s.
Proof. exact: Poly_trim. Qed.

Definition dense_add (p q : DensePolynomial K) := dense (add_coeffs (coeffs p) (coeffs q)).
Definition dense_sub (p q : DensePolynomial K) :=
  dense (add_coeffs (coeffs p) (scale_coeffs (-1) (coeffs q))).
Definition dense_mul (p q : DensePolynomial K) := dense (mul_coeffs (coeffs p) (coeffs q)).
Definition dense_div (p q : DensePolynomial K) := dense (div_coeffs (coeffs p) (coeffs q)).1.
Definition dense_eval (p : DensePolynomial K) (x : K) : K :=
  foldr (fun c acc => acc * x + c) 0 (coeffs p).
Definition dense_degree (p : DensePolynomial K) : nat := (size (trim (coeffs p))).-1.

Lemma dense_addE p q : polyOf (dense_add p q) = polyOf p + polyOf q.
Proof. by rewrite polyOf_dense Poly_add. Qed.

Lemma dense_subE p q : polyOf (dense_sub p q) = polyOf p - polyOf q.
Proof. by rewrite polyOf_dense Poly_add Poly_scale scaleN1r. Qed.

Lemma dense_mulE p q : polyOf (dense_mul p q) = polyOf p * polyOf q.
Proof. by rewrite polyOf_dense Poly_mul. Qed.

Lemma dense_divE p q : polyOf q != 0 -> polyOf (dense_div p q) = polyOf p %/ polyOf q.
Proof. by move=> q0; rewrite polyOf_dense; case: (div_coeffsP (coeffs p) q0). Qed.

Lemma dense_evalE p x : dense_eval p x = (polyOf p).[x].
Proof.
rewrite /dense_eval /polyOf; elim: (coeffs p) => [|c s IH] /=; first by rewrite horner0.
by rewrite horner_cons IH.
Qed.

Lemma dense_degreeE p : dense_degree p = (size (polyOf p)).-1.
Proof. by rewrite /dense_degree -size_trim. Qed.

Definition vanishing_coeffs (n : nat) : seq K := -1 :: rcons (nseq n.-1 0) 1.

Lemma Poly_vanishing n : (0 < n)%N -> Poly (vanishing_coeffs n) = Zn K n.
Proof.
case: n => [//|n] _; rewrite /vanishing_coeffs /= cons_poly_def -cats1 Poly_shift /=.
by rewrite cons_poly_def mul0r add0r mulr1 -exprSr polyCN.
Qed.

Definition dense_divide_by_vanishing_poly (p : DensePolynomial K)
    (d : Radix2EvaluationDomain K) : DensePolynomial K * DensePolynomial K :=
  let: (q, r) := div_coeffs (coeffs p) (vanishing_coeffs (domain_size d)) in
  (dense q, dense r).

Lemma dense_divide_by_vanishing_polyP p d : (0 < domain_size d)%N ->
  let: (q, r) := dense_divide_by_vanishing_poly p d in
  [/\ polyOf q = polyOf p %/ ('X^(domain_size d) - 1),
      polyOf r = polyOf p %% ('X^(domain_size d) - 1), regular q & regular r].
Proof.
move=> d0; have vE := Poly_vanishing d0.
have v0 : Poly (vanishing_coeffs (domain_size d)) != 0.
  by rewrite vE -size_poly_eq0 size_XnsubC.
have := div_coeffsP (coeffs p) v0; rewrite /dense_divide_by_vanishing_poly.
by case: (div_coeffs _ _) => q r; rewrite vE !polyOf_dense !dense_reg => -[].
Qed.

(** Interpolation as the sum of scaled Lagrange polynomials. *)
Definition lagrange_coeffs (n : nat) (w : K) (i : nat) : seq K :=
  scale_coeffs (w ^+ i / n%:R) (div_coeffs (vanishing_coeffs n) [:: - w ^+ i; 1]).1.

Definition dense_interpolate (evals : seq K) (d : Radix2EvaluationDomain K) :=
  let n := domain_size d in
  dense (foldr (fun i acc =>
                  add_coeffs (scale_coeffs evals`_i (lagrange_coeffs n (group_gen d) i)) acc)
               [::] (iota 0 n)).

Lemma Poly_lagrange n w i : n.-primitive_root w ->
  Poly (lagrange_coeffs n w i) = Lag n w i.
Proof.
move=> wP; have lE : Poly [:: - w ^+ i; 1] = 'X - (w ^+ i)%:P.
  by rewrite /= !cons_poly_def mul0r add0r mul1r polyCN.
rewrite Poly_scale /Lag; congr (_ *: _).
have l0 : Poly [:: - w ^+ i; 1] != 0 by rewrite lE polyXsubC_eq0.
have [-> _] := div_coeffsP (vanishing_coeffs n) l0.
by rewrite lE Poly_vanishing ?(prim_order_gt0 wP).
Qed.

Lemma dense_interpolateP evals d : (domain_size d).-primitive_root (group_gen d) ->
  [/\ regular (dense_interpolate evals d),
      (size (polyOf (dense_interpolate evals d)) <= domain_size d)%N &
      forall i, (i < domain_size d)%N ->
        (polyOf (dense_interpolate evals d)).[group_gen d ^+ i] = evals`_i].
Proof.
move=> wP; set n := domain_size d; set w := group_gen d.
have E : polyOf (dense_interpolate evals d) = interp n w (nth 0 evals).
  rewrite polyOf_dense /interp -(big_mkord xpredT (fun i => evals`_i *: Lag n w i)).
  rewrite /index_iota subn0 -/n.
  elim: (iota 0 n) => [|i s IH]; first by rewrite big_nil.
  by rewrite big_cons /= Poly_add IH Poly_scale Poly_lagrange.
rewrite E; split; [exact: dense_reg | exact: size_interp | exact: interp_domain].
Qed.
End Dense.
