(* ===== verification/ToyEngine.v ===== *)
(** * A concrete engine

    The interface of [Engine] at the field of 97 elements, with both source
    groups and the target group equal to the field's additive group and the
    pairing equal to multiplication: group elements are their own discrete
    logarithms.  It is of no cryptographic value; it shows that [EngineLaws] can
    hold, and makes every definition of the development evaluate. *)
From Stdlib Require Import Strings.Byte.
From S2P Require Import Prelude Engine PolyFacts DenseOps.
From mathcomp Require Import ssreflect ssrfun ssrbool eqtype ssrnat seq div prime.
From mathcomp Require Import fintype bigop ssralg poly polydiv zmodp.
Import GRing.Theory.
Set Warnings "-rewrite-rw".
Set Implicit Arguments.
Unset Strict Implicit.
Unset Printing Implicit Defensive.
Local Open Scope ring_scope.

Definition toy_F : fieldType := 'F_97.
Definition toy_G : lmodType toy_F := (toy_F^o)%type.

Definition byte_of (n : nat) : byte :=
  if Byte.of_nat (n %% 256) is Some b then b else x00.

Definition toy_ser (x : toy_F) : unit + bytes := inr [:: byte_of (val x)].

Fixpoint toy_msm (bs : seq toy_G) (ks : seq toy_F) : toy_G :=
  match bs, ks with
  | b :: bs', k :: ks' => k *: b + toy_msm bs' ks'
  | _, _ => 0
  end.

Definition toy_group : Group toy_F unit := {|
  carrier := toy_G;
  generator := (1 : toy_F);
  msm_unchecked := toy_msm;
  msm := fun bs ks =>
    if size bs == size ks then inr (toy_msm bs ks) else inl (minn (size bs) (size ks));
  msm_bigint := fun bs ks => toy_msm bs [seq k%:R | k <- ks];
  batch_mul := fun g ks => [seq k *: g | k <- ks];
  serialize_compressed := toy_ser;
  serialize_uncompressed := toy_ser
|}.

Definition toy_hash (b : bytes) : toy_F :=
  foldl (fun acc c => acc * 31%:R + (Byte.to_nat c)%:R + 11%:R) 7%:R b.

(** 28 has order 32 in the multiplicative group. *)
Definition toy_root : toy_F := 28%:R.

Definition toy_domain (n : nat) : option (Radix2EvaluationDomain toy_F) :=
  let k := find (fun k => n <= 2 ^ k)%N (iota 0 6) in
  if (k < 6)%N then Some (Radix2Domain (2 ^ k) (toy_root ^+ (2 ^ (5 - k)))) else None.

#[export] Instance toy : Engine := {|
  SerializationError := unit;
  HashToCurveError := unit;
  F := toy_F;
  MODULUS := 97;
  into_bigint := fun x : toy_F => nat_of_ord x;
  serialize_F := toy_ser;
  serialize_usize := fun n => inr [:: byte_of n; byte_of (n %/ 256)];
  from_le_bytes_mod_order := toy_hash;
  G1 := toy_group;
  G2 := toy_group;
  GT := toy_G;
  pairing := fun a b : toy_F => a * b;
  from_coefficients_vec := fun s => dense s;
  poly_add := @dense_add toy_F;
  poly_sub := @dense_sub toy_F;
  poly_mul := @dense_mul toy_F;
  poly_div := @dense_div toy_F;
  evaluate := @dense_eval toy_F;
  degree := @dense_degree toy_F;
  TWO_ADICITY := 5;
  domain_new := toy_domain;
  interpolate_evals := @dense_interpolate toy_F;
  divide_by_vanishing_poly := @dense_divide_by_vanishing_poly toy_F;
  hash_to_field := fun dst msg => toy_hash (dst ++ msg);
  CurveHasher := bytes;
  curve_hasher_new := fun dst => inr dst;
  curve_hash := fun h msg => inr (toy_hash (h ++ msg));
  sha256 := fun b => [:: byte_of (val (toy_hash b))];
  Rng := nat;
  from_seed := fun b => nat_of_ord (toy_hash b);
  fill_bytes := fun n r => (mkseq (fun i => byte_of (r * 7 + i)) n, r + 1)%N;
  rand_F := fun r => ((r * 5 + 3)%:R, r + 1)%N;
  rand_G1 := fun r => ((r * 5 + 4)%:R : toy_F, r + 1)%N;
  rand_G2 := fun r => ((r * 5 + 6)%:R : toy_F, r + 1)%N
|}.

Lemma toy_msmE (bs : seq toy_G) ks : toy_msm bs ks = msm_spec bs ks.
Proof.
rewrite /msm_spec; elim: bs ks => [|b bs IH] [|k ks] /=; rewrite ?big_nil //.
by rewrite big_cons IH.
Qed.

Lemma toy_group_laws : GroupLaws toy_group.
Proof.
split=> //=.
- by move=> P; exists P; rewrite /GRing.scale /= mulr1.
- exact: toy_msmE.
- by move=> bs ks ->; rewrite eqxx toy_msmE.
- by move=> bs ks; rewrite toy_msmE.
- by move=> P; eexists.
- by move=> P; eexists.
Qed.

Lemma toy_root_prim : 32.-primitive_root toy_root.
Proof.
have r32 : toy_root ^+ 32 = 1 by apply/eqP; vm_compute.
have [m mP mdvd] := @prim_order_exists toy_F 32 toy_root isT r32.
have [k le mE] := elimT (@dvdn_pfactor 2 m 5 isT) mdvd.
case: (ltnP k 5) => [lt|ge]; last first.
  have k5 : k = 5%N by apply/eqP; rewrite eqn_leq le ge.
  have m32 : m = 32%N by rewrite mE k5.
  by rewrite m32 in mP.
have := prim_expr_order mP; rewrite mE => /(congr1 (fun x => x ^+ (2 ^ (4 - k)))).
have le4 : (k <= 4)%N := lt.
rewrite -exprM -expnD (subnKC le4) expr1n => H.
have ne : (toy_root ^+ (2 ^ 4) == 1) = false by vm_compute.
by rewrite H eqxx in ne.
Qed.

Lemma toy_domainE k : toy_domain (2 ^ k) =
  if (k <= 5)%N then Some (Radix2Domain (2 ^ k) (toy_root ^+ (2 ^ (5 - k)))) else None.
Proof.
case: (leqP k 5) => [|gt]; first by case: k => [|[|[|[|[|[|]]]]]].
rewrite /toy_domain; case: ltnP => // lt.
have := nth_find 0%N (s := iota 0 6) (a := fun j => 2 ^ k <= 2 ^ j)%N.
rewrite has_find size_iota lt => /(_ isT).
by rewrite nth_iota // add0n leq_exp2l // leqNgt (leq_trans lt gt).
Qed.

Lemma toy_domain_prim k : (k <= 5)%N ->
  (2 ^ k).-primitive_root (toy_root ^+ (2 ^ (5 - k))).
Proof.
move=> le; have := exp_prim_root toy_root_prim (2 ^ (5 - k)).
rewrite (_ : 32 %/ gcdn (2 ^ (5 - k)) 32 = 2 ^ k)%N //.
by case: k le => [|[|[|[|[|[|]]]]]].
Qed.

#[export] Instance toy_laws : EngineLaws toy.
Proof.
split=> /=.
- by rewrite pchar_Fp.
- by move=> x; rewrite natr_Zp.
- by move=> x; apply: leq_trans (ltn_ord x) _.
- by move=> x; eexists.
- by move=> n; eexists.
- exact: toy_group_laws.
- exact: toy_group_laws.
- by move=> P P' Q; rewrite mulrDl.
- by move=> P Q Q'; rewrite mulrDr.
- by move=> a P Q; rewrite /GRing.scale /= mulrA.
- by move=> a P Q; rewrite /GRing.scale /= mulrCA.
- by vm_compute.
- exact: polyOf_dense.
- exact: dense_reg.
- by move=> p q _ _; rewrite dense_addE.
- by move=> *; exact: dense_reg.
- by move=> p q _ _; rewrite dense_subE.
- by move=> *; exact: dense_reg.
- by move=> p q _ _; rewrite dense_mulE.
- by move=> *; exact: dense_reg.
- by move=> p q _ _; apply: dense_divE.
- by move=> *; exact: dense_reg.
- exact: dense_evalE.
- by move=> p _; rewrite dense_degreeE.
- by move=> k d; rewrite toy_domainE; case: leqP => // le [<-]; split=> //; apply: toy_domain_prim.
- by [].
- by move=> k le; rewrite toy_domainE le; eexists.
- by move=> evals d _; apply: dense_interpolateP.
- by move=> p d _; apply: dense_divide_by_vanishing_polyP.
Qed.
