(* ===== verification/Utils.v ===== *)
(** * [utils.rs]: polynomials over a multiplicative subgroup *)
From Stdlib Require Import PeanoNat Lia.
From S2P Require Import Prelude Errors Engine PolyFacts SeqFacts.
From mathcomp Require Import ssreflect ssrfun ssrbool eqtype ssrnat seq div.
From mathcomp Require Import fintype bigop ssralg poly polydiv.
Import GRing.Theory.
Set Warnings "-rewrite-rw".
Set Implicit Arguments.
Unset Strict Implicit.
Unset Printing Implicit Defensive.
Local Open Scope ring_scope.

Section Definitions.
Context {E : Engine} {Error : Type}.

(** [compute_vanishing_poly]: X^n - 1 as a coefficient vector. *)
Definition compute_vanishing_poly (n : nat) : Poly_F :=
  DensePoly
    [seq (if i == 0%N then 0%:R - 1%:R
          else if (i < n)%N then 0%:R
          else 1%:R : F)
    | i <- iota 0 (n + 1)].

(** [poly_eval_mult_c] *)
Definition poly_eval_mult_c (f : Poly_F) (c : F) : Poly_F :=
  if nilp (coeffs f) then f
  else DensePoly [seq a * c | a <- coeffs f].

(** [nth_root_of_unity] *)
Definition nth_root_of_unity (n : nat) : option F := omap group_gen (domain_new n).

(** [interpolate_poly_over_mult_subgroup] *)
Definition interpolate_poly_over_mult_subgroup (evals : seq F) : option Poly_F :=
  omap (fun d => interpolate_evals evals d) (domain_new (size evals)).

(** [lagrange_poly]; the division of field elements is the only panic site. *)
Definition lagrange_poly (n i : nat) : outcome Error (option Poly_F) :=
  match nth_root_of_unity n with
  | None => Ok None
  | Some w =>
      let* factor := field_div (w ^+ i) n%:R in
      let numerator := compute_vanishing_poly n in
      let denominator := DensePoly [:: 0%:R - w ^+ i; 1%:R] in
      Ok (Some (poly_div (poly_eval_mult_c numerator factor) denominator))
  end.

(** [compute_x_monomial], [compute_constant_poly] *)
Definition compute_x_monomial : Poly_F := DensePoly [:: 0%:R; 1%:R].
Definition compute_constant_poly (c : F) : Poly_F := DensePoly [:: c].

(** [poly_domain_mult_ω]: multiplies the coefficients in place, from index 1 up to
    the degree. *)
Definition poly_domain_mult_omega (f : Poly_F) (w : F) : outcome Error Poly_F :=
  let* cs := foldM
    (fun cs i =>
       let* c := vec_get cs i in
       vec_set cs i (c * w ^+ i))
    (coeffs f) (iota 1 (degree f)) in
  Ok (DensePoly cs).

(** [is_n_valid]: at least 2 and a power of 2. *)
Definition is_n_valid (n : nat) : bool :=
  (1 < n)%N && (Nat.land n (n - 1) == 0%N).

End Definitions.

(** ** Network sizes *)

(** [is_n_valid] accepts exactly the powers of two from 2 on. *)
Lemma is_n_valid_pow2 (n : nat) :
  reflect (exists2 k, (0 < k)%N & n = (2 ^ k)%N) (is_n_valid n).
Proof.
have pow_eq k : Nat.pow 2 k = (2 ^ k)%N by elim: k => // k IH; rewrite Nat.pow_succ_r' IH expnS -multE.
apply: (iffP andP) => [[n1 /eqP H]|[k k0 ->]].
  have [|H1 _] := @land_pred_pow2 n; first by apply/ltP/ltnW.
  have [k Hk] := H1 H; exists k; last by rewrite Hk pow_eq.
  by move: n1; rewrite Hk pow_eq; case: k {Hk}.
split; first by rewrite -{1}(expn0 2) ltn_exp2l.
apply/eqP; have [|_ H] := @land_pred_pow2 (2 ^ k); first by apply/ltP; rewrite expn_gt0.
by apply: H; exists k; rewrite pow_eq.
Qed.

Section Facts.
Context {E : Engine} {L : EngineLaws E} {Error : Type}.

Lemma is_n_valid_domain n d : is_n_valid n -> domain_new n = Some d ->
  domain_size d = n /\ n.-primitive_root (group_gen d).
Proof. by move=> /is_n_valid_pow2 [k _ ->]; apply: domain_newP. Qed.

Lemma compute_vanishing_polyE n : (0 < n)%N ->
  polyOf (compute_vanishing_poly n) = Zn F n.
Proof.
move=> n0; apply/polyP => i; rewrite coef_Poly /= coefB coefXn coefC.
case: (ltnP i (n + 1)) => lt; last first.
  rewrite nth_default ?size_map ?size_iota //.
  by rewrite addn1 in lt; rewrite (gtn_eqF lt) -[i]prednK ?subr0 // (leq_trans _ lt).
rewrite (nth_map 0%N) ?size_iota // nth_iota // add0n.
case: eqP => [->|/eqP i0]; first by rewrite eq_sym (gtn_eqF n0).
rewrite subr0; move: lt; rewrite addn1 ltnS leq_eqVlt => /orP [/eqP ->|lt].
  by rewrite ltnn eqxx.
by rewrite lt (ltn_eqF lt).
Qed.

Lemma compute_vanishing_poly_reg n : regular (compute_vanishing_poly n).
Proof.
rewrite /regular /= addn1 -[n.+1]addn1 iotaD add0n map_cat last_cat /=.
by have [->|_] := eqVneq n 0%N; rewrite ?ltnn ?oner_neq0 // sub0r oppr_eq0 oner_neq0.
Qed.

Lemma poly_eval_mult_cE (f : Poly_F) (c : F) :
  polyOf (poly_eval_mult_c f c) = c *: polyOf f.
Proof.
rewrite /poly_eval_mult_c /polyOf; case: nilP => [->|_] /=; first by rewrite scaler0.
apply/polyP => i; rewrite coef_Poly coefZ coef_Poly mulrC.
case: (ltnP i (size (coeffs f))) => lt; first by rewrite (nth_map 0).
by rewrite !nth_default ?size_map // mul0r.
Qed.

Lemma poly_eval_mult_c_reg (f : Poly_F) (c : F) :
  regular f -> regular (poly_eval_mult_c f c).
Proof.
rewrite /regular /poly_eval_mult_c; case: nilP => [->|/eqP] //=.
case: (coeffs f) => [//|a s] _; rewrite /= (last_map (fun x => x * c)) all_map.
have [->|c0] := eqVneq c 0.
  move=> _; rewrite !mulr0 eqxx /=; apply/allP => x _ /=.
  by rewrite mulr0.
case/orP => [nz|z]; first by rewrite mulf_neq0.
apply/orP; right; case/andP: z => /eqP -> /allP z; rewrite mul0r eqxx /=.
by apply/allP => x /z /= /eqP ->; rewrite mul0r.
Qed.

Lemma regular_linear (a : F) : regular (DensePoly [:: a; 1%:R] : Poly_F).
Proof. by rewrite /regular /= oner_neq0. Qed.

Lemma polyOf_linear (a : F) : polyOf (DensePoly [:: a; 1%:R] : Poly_F) = 'X + a%:P.
Proof. by rewrite /polyOf /= !cons_poly_def mul0r add0r polyC1 mul1r. Qed.

Lemma compute_x_monomialE : polyOf compute_x_monomial = 'X.
Proof. by rewrite polyOf_linear addr0. Qed.

Lemma compute_constant_polyE (c : F) : polyOf (compute_constant_poly c) = c%:P.
Proof. by rewrite /polyOf /= cons_poly_def mul0r add0r. Qed.

Lemma compute_constant_poly_reg (c : F) : regular (compute_constant_poly c).
Proof. by rewrite /regular /= andbT orNb. Qed.

(** The Lagrange polynomial: total on valid sizes, and equal to L_i. *)
Lemma lagrange_polyE n i d : is_n_valid n -> domain_new n = Some d ->
  exists p, [/\ lagrange_poly n i = Ok (Some p) :> outcome Error _, regular p &
                polyOf p = Lag n (group_gen d) i].
Proof.
move=> nv dn; have [_ wP] := is_n_valid_domain nv dn.
rewrite /lagrange_poly /nth_root_of_unity dn /= field_div_ok ?(prim_root_natf_neq0 wP) //=.
set f := poly_eval_mult_c _ _; set g := DensePoly _.
have g_reg : regular g by exact: regular_linear.
have gE : polyOf g = 'X - (group_gen d ^+ i)%:P.
  by rewrite polyOf_linear sub0r polyCN.
have g0 : polyOf g != 0 by rewrite gE polyXsubC_eq0.
have f_reg : regular f by apply/poly_eval_mult_c_reg/compute_vanishing_poly_reg.
exists (poly_div f g); split; rewrite ?poly_div_reg ?poly_divE //.
rewrite gE poly_eval_mult_cE compute_vanishing_polyE ?(prim_order_gt0 wP) //.
by rewrite divpZl.
Qed.

Lemma lagrange_poly_None n i : domain_new n = None ->
  lagrange_poly n i = Ok None :> outcome Error _.
Proof. by rewrite /lagrange_poly /nth_root_of_unity => ->. Qed.

(** Interpolation through [n] values. *)
Lemma interpolate_polyE n evals d : is_n_valid n -> size evals = n -> domain_new n = Some d ->
  exists p, [/\ interpolate_poly_over_mult_subgroup evals = Some p, regular p &
                polyOf p = interp n (group_gen d) (nth 0 evals)].
Proof.
move=> nv sz dn; have [ds wP] := is_n_valid_domain nv dn.
rewrite /interpolate_poly_over_mult_subgroup sz dn /=.
have sd : size evals = domain_size d by rewrite sz ds.
rewrite -ds in wP; have [r s H] := interpolate_evalsP sd wP.
exists (interpolate_evals evals d); split=> //; rewrite -ds.
exact: interpE.
Qed.

Lemma mult_omega_loop (cs : seq F) (w : F) k : (k <= (size cs).-1)%N ->
  foldM (fun cs i => let* c := vec_get cs i in vec_set cs i (c * w ^+ i)) cs (iota 1 k) =
  Ok (mkseq (fun i => cs`_i * (if (i <= k)%N then w ^+ i else 1)) (size cs))
    :> outcome Error _.
Proof.
elim: k => [|k IH] le.
  rewrite -[in LHS](mkseq_nth 0 cs); congr Ok; apply: eq_mkseq => -[|i] //=;
  by rewrite mulr1.
have lt : (k.+1 < size cs)%N by case: (size cs) le.
have -> : iota 1 k.+1 = iota 1 k ++ [:: k.+1] by rewrite -{1}[k.+1]addn1 iotaD add1n.
rewrite foldM_cat IH ?(leq_trans _ le) ?leqnSn //=.
rewrite (vec_get_lt _ 0) ?size_mkseq //= nth_mkseq // ltnn mulr1.
rewrite (vec_set_lt _ 0) ?size_mkseq //=; congr Ok; apply: (@eq_from_nth _ 0).
  by rewrite size_set_nth_lt !size_mkseq.
move=> i; rewrite size_set_nth_lt ?size_mkseq // => lti.
rewrite nth_set_nth /= !nth_mkseq //; case: eqP => [->|/eqP ne]; first by rewrite leqnn.
by rewrite [(i <= k.+1)%N]leq_eqVlt (negbTE ne) ltnS.
Qed.

(** [poly_domain_mult_omega] computes f(wX), without panicking. *)
Lemma poly_domain_mult_omegaE (f : Poly_F) (w : F) : regular f ->
  exists p, [/\ poly_domain_mult_omega f w = Ok p :> outcome Error _,
                polyOf p = polyOf f \Po (w *: 'X) &
                w != 0 -> regular p].
Proof.
move=> fr; have dE := degreeE fr.
have le : (degree f <= (size (coeffs f)).-1)%N.
  by rewrite dE -!subn1 leq_sub2r // size_Poly.
rewrite /poly_domain_mult_omega mult_omega_loop //=; eexists; split; first by [].
- apply/polyP => i; rewrite coef_Poly coef_comp_scaleX coef_Poly.
  case: (ltnP i (size (coeffs f))) => lt; last by rewrite !nth_default ?size_mkseq // mul0r.
  rewrite nth_mkseq //; case: leqP => // ltd; rewrite -coef_Poly nth_default ?mul0r //.
  by move: ltd; rewrite dE /polyOf; case: (size (Poly _)).
- move=> w0; case/orP: fr => [nz|/allP z]; rewrite /regular /=; apply/orP; [left|right].
    case/lastP: (coeffs f) nz => [|s x]; first by rewrite /= oner_neq0.
    rewrite size_rcons mkseqS !last_rcons nth_rcons ltnn eqxx => x0; apply: mulf_neq0 => //.
    by case: ifP; rewrite ?oner_neq0 // expf_neq0.
  apply/allP => x /mapP [i]; rewrite mem_iota add0n => lt ->.
  have /eqP -> : (coeffs f)`_i == 0 by apply/z/mem_nth.
  by rewrite mul0r.
Qed.

End Facts.
