(* ===== verification/Kzg.v ===== *)
(** * [kzg.rs]: the KZG polynomial commitment scheme *)
From S2P Require Import Prelude Errors Engine PolyFacts SeqFacts Utils.
From mathcomp Require Import ssreflect ssrfun ssrbool eqtype ssrnat seq div.
From mathcomp Require Import fintype bigop ssralg poly polydiv.
Import GRing.Theory.
Set Warnings "-rewrite-rw".
Set Implicit Arguments.
Unset Strict Implicit.
Unset Printing Implicit Defensive.
Local Open Scope ring_scope.

(** The crate's error type at the engine's wrapped errors. *)
Abbreviation HError := (HinTSError SerializationError HashToCurveError).

(** [UniversalParams]: the powers of the secret point in both groups. *)
Record UniversalParams {E : Engine} := MkParams {
  powers_of_g : seq G1;
  powers_of_h : seq G2
}.

Module KZG10.
Section Definitions.
Context {E : Engine}.

Definition convert_to_bigints (p : seq F) : seq nat := [seq into_bigint s | s <- p].

(** The [while] loop that counts the zero coefficients at the front. *)
Definition skip_leading_zeros_and_convert_to_bigints (p : Poly_F) : nat * seq nat :=
  let num_leading_zeros := find (fun c => c != 0) (coeffs p) in
  (num_leading_zeros, convert_to_bigints (drop num_leading_zeros (coeffs p))).

(** [setup]: the loop pushes [cur] and multiplies it by [beta], [max_degree] times. *)
Definition setup_powers (beta : F) (max_degree : nat) : seq F :=
  (iteri max_degree
     (fun _ '(powers_of_beta, cur) => (rcons powers_of_beta cur, cur * beta))
     ([:: 1], beta)).1.

Definition setup (max_degree : nat) (rng : Rng) : UniversalParams :=
  let: (beta, rng) := rand_F rng in
  let: (g, rng) := rand_G1 rng in
  let: (h, rng) := rand_G2 rng in
  let powers_of_beta := setup_powers beta max_degree in
  {| powers_of_g := batch_mul g powers_of_beta;
     powers_of_h := batch_mul h powers_of_beta |}.

Definition commit_g1 (params : UniversalParams) (polynomial : Poly_F) : outcome HError G1 :=
  let d := degree polynomial in
  fail_if (size (powers_of_g params) <= d)%N with InsufficientCRS d;;
  let plain_coeffs := convert_to_bigints (coeffs polynomial) in
  let bases := take d.+1 (powers_of_g params) in
  Ok (msm_bigint bases plain_coeffs).

Definition commit_g2 (params : UniversalParams) (polynomial : Poly_F) : outcome HError G2 :=
  let d := degree polynomial in
  fail_if (size (powers_of_h params) <= d)%N with InsufficientCRS d;;
  let plain_coeffs := convert_to_bigints (coeffs polynomial) in
  let bases := take d.+1 (powers_of_h params) in
  Ok (msm_bigint bases plain_coeffs).

Definition compute_opening_proof
    (params : UniversalParams) (polynomial : Poly_F) (point : F) : outcome HError G1 :=
  let eval := evaluate polynomial point in
  let eval_as_poly := from_coefficients_vec [:: eval] in
  let numerator := poly_sub polynomial eval_as_poly in
  let divisor := from_coefficients_vec [:: 0 - point; 1] in
  let witness_polynomial := poly_div numerator divisor in
  commit_g1 params witness_polynomial.

End Definitions.
End KZG10.

(** A reference string for the secret point [tau]: the invariant every honest
    ceremony maintains. *)
Definition wf_crs {E : Engine} (tau : F) (m : nat) (crs : UniversalParams) : Prop :=
  powers_of_g crs = mkseq (fun i => tau ^+ i *: generator G1) m /\
  powers_of_h crs = mkseq (fun i => tau ^+ i *: generator G2) m.

Section Msm.
Variables (K : fieldType) (V : lmodType K).

Lemma msm_spec_cat (bs bs' : seq V) ks ks' : size bs = size ks ->
  msm_spec (bs ++ bs') (ks ++ ks') = msm_spec bs ks + msm_spec bs' ks'.
Proof. by move=> sz; rewrite /msm_spec zip_cat // big_cat. Qed.

Lemma msm_spec_nth (bs : seq V) ks :
  msm_spec bs ks = \sum_(i < size bs) ks`_i *: bs`_i.
Proof.
rewrite /msm_spec; elim: bs ks => [|b bs IH] ks; first by case: ks => [|? ?]; rewrite big_nil big_ord0.
case: ks => [|k ks].
  by rewrite big_nil big1 // => i _; rewrite nth_nil scale0r.
by rewrite big_cons IH big_ord_recl.
Qed.

(** An inner product with the powers of a point evaluates the polynomial. *)
Lemma msm_powers (g : V) (tau : K) m ks : (size (Poly ks) <= m)%N ->
  msm_spec (mkseq (fun i => tau ^+ i *: g) m) ks = (Poly ks).[tau] *: g.
Proof.
move=> le; rewrite msm_spec_nth size_mkseq (horner_coef_wide _ le) scaler_suml.
by apply: eq_bigr => i _; rewrite nth_mkseq // coef_Poly scalerA.
Qed.
End Msm.

Section Facts.
Context {E : Engine} {L : EngineLaws E}.
Variables (tau : F) (m : nat) (crs : UniversalParams).
Hypothesis crsP : wf_crs tau m crs.

Lemma bigints_roundtrip (s : seq F) :
  [seq k%:R | k <- KZG10.convert_to_bigints s] = s.
Proof. by rewrite -map_comp map_id_in // => x _ /=; rewrite into_bigintK. Qed.

Lemma degree_lt (p : Poly_F) k :
  regular p -> (0 < k)%N -> (size (polyOf p) <= k)%N -> (degree p < k)%N.
Proof. by move=> pr k0; rewrite degreeE //; case: (size _). Qed.

Lemma size_le_degree (p : Poly_F) : regular p -> (size (polyOf p) <= (degree p).+1)%N.
Proof. by move=> pr; rewrite degreeE // leqSpred. Qed.

(** Committing evaluates in the exponent. *)
Lemma commit_g1E p : regular p -> (0 < m)%N -> (size (polyOf p) <= m)%N ->
  KZG10.commit_g1 crs p = Ok ((polyOf p).[tau] *: generator G1).
Proof.
move=> pr m0 le; case: crsP => gE _; have lt := degree_lt pr m0 le.
rewrite /KZG10.commit_g1 gE size_mkseq leqNgt lt /= msm_bigintE bigints_roundtrip.
rewrite /mkseq -map_take take_iota (minn_idPl lt) -/(mkseq _ _) msm_powers //.
exact: size_le_degree.
Qed.

Lemma commit_g2E p : regular p -> (0 < m)%N -> (size (polyOf p) <= m)%N ->
  KZG10.commit_g2 crs p = Ok ((polyOf p).[tau] *: generator G2).
Proof.
move=> pr m0 le; case: crsP => _ hE; have lt := degree_lt pr m0 le.
rewrite /KZG10.commit_g2 hE size_mkseq leqNgt lt /= msm_bigintE bigints_roundtrip.
rewrite /mkseq -map_take take_iota (minn_idPl lt) -/(mkseq _ _) msm_powers //.
exact: size_le_degree.
Qed.

(** The opening proof commits to the exact quotient (p - p(z)) / (X - z). *)
Lemma compute_opening_proofE p z : regular p -> (0 < m)%N -> (size (polyOf p) <= m)%N ->
  exists q, [/\ KZG10.compute_opening_proof crs p z = Ok (q *: generator G1) &
                (polyOf p).[tau] - (polyOf p).[z] = q * (tau - z)].
Proof.
move=> pr m0 le; rewrite /KZG10.compute_opening_proof.
set e := from_coefficients_vec _; set d := from_coefficients_vec [:: 0 - z; 1].
have er : regular e by exact: from_coefficients_vec_reg.
have dr : regular d by exact: from_coefficients_vec_reg.
have eE : polyOf e = ((polyOf p).[z])%:P.
  by rewrite from_coefficients_vecE /= evaluateE cons_poly_def mul0r add0r.
have dE : polyOf d = 'X - z%:P.
  by rewrite from_coefficients_vecE -[Poly _]/(polyOf (DensePoly [:: 0 - z; 1%:R]))
             polyOf_linear sub0r polyCN.
have d0 : polyOf d != 0 by rewrite dE polyXsubC_eq0.
have nr : regular (poly_sub p e) by exact: poly_sub_reg.
have qE : polyOf (poly_div (poly_sub p e) d) =
    (polyOf p - ((polyOf p).[z])%:P) %/ ('X - z%:P).
  by rewrite poly_divE // poly_subE // eE dE.
have dvd : 'X - z%:P %| polyOf p - ((polyOf p).[z])%:P.
  by rewrite dvdp_XsubCl /root hornerD hornerN hornerC subrr.
exists ((polyOf p - ((polyOf p).[z])%:P) %/ ('X - z%:P)).[tau]; split.
  rewrite commit_g1E ?qE ?poly_div_reg //.
  rewrite size_divp ?polyXsubC_eq0 // size_XsubC; apply: leq_trans (leq_subr _ _) _.
  apply: leq_trans (size_polyD _ _) _; rewrite size_polyN geq_max le /=.
  exact: leq_trans (size_polyC_leq1 _) m0.
have := congr1 (horner^~ tau) (divpK dvd).
by rewrite hornerM hornerXsubC => ->; rewrite hornerD hornerN hornerC.
Qed.

End Facts.

(** ** Errors *)
Section Errors.
Context {E : Engine}.

Lemma commit_g1_too_small crs p : (size (powers_of_g crs) <= degree p)%N ->
  KZG10.commit_g1 crs p = Err (InsufficientCRS (degree p)).
Proof. by rewrite /KZG10.commit_g1 => ->. Qed.

Lemma commit_g1_no_panic crs p : never_panics (KZG10.commit_g1 crs p).
Proof. by rewrite /KZG10.commit_g1; case: ifP. Qed.

Lemma commit_g2_no_panic crs p : never_panics (KZG10.commit_g2 crs p).
Proof. by rewrite /KZG10.commit_g2; case: ifP. Qed.

End Errors.
