(* ===== verification/Transcript.v ===== *)
(** * [transcript.rs]: the Fiat-Shamir transcript *)
From S2P Require Import Prelude Errors Engine SeqFacts Kzg.
From mathcomp Require Import ssreflect ssrfun ssrbool eqtype ssrnat seq.
From mathcomp Require Import ssralg.
Set Warnings "-rewrite-rw".
Set Implicit Arguments.
Unset Strict Implicit.
Unset Printing Implicit Defensive.

(** [CanonicalSerialize::serialize_compressed], per type. *)
Class CanonicalSerialize {E : Engine} (T : Type) :=
  compressed : T -> SerializationError + bytes.

#[export] Instance serialize_F_instance {E : Engine} : CanonicalSerialize F := serialize_F.
#[export] Instance serialize_G1_instance {E : Engine} : CanonicalSerialize G1 :=
  @serialize_compressed _ _ G1.
#[export] Instance serialize_G2_instance {E : Engine} : CanonicalSerialize G2 :=
  @serialize_compressed _ _ G2.
#[export] Instance serialize_usize_instance {E : Engine} : CanonicalSerialize nat :=
  serialize_usize.

(** The encodings of the fields of a struct, one after the other: what
    [#[derive(CanonicalSerialize)]] generates. *)
Definition ser_append {SE : Type} (a b : SE + bytes) : SE + bytes :=
  match a with
  | inl e => inl e
  | inr x => match b with inl e => inl e | inr y => inr (x ++ y) end
  end.

(** The encoding of a [Vec]: its length, then its elements. *)
Definition ser_vec {E : Engine} {T : Type} (ser : T -> SerializationError + bytes)
    (v : seq T) : SerializationError + bytes :=
  ser_append (serialize_usize (size v)) (foldr (fun x => ser_append (ser x)) (inr [::]) v).

Record Transcript : Type := MkTranscript { transcript_bytes : bytes }.

Module Tr.
Section Definitions.
Context {E : Engine}.

(** [Transcript::new] *)
Definition new : Transcript := MkTranscript [::].

(** [Transcript::absorb]: the mutated transcript is the result. *)
Definition absorb {T : Type} {S : CanonicalSerialize T}
    (transcript : Transcript) (item : T) : outcome HError Transcript :=
  let* b := lift_encoding (compressed item) in
  Ok (MkTranscript (transcript_bytes transcript ++ b)).

(** [Transcript::challenge] *)
Definition challenge (transcript : Transcript) (dst : bytes) : F :=
  hash_to_field dst (transcript_bytes transcript).

End Definitions.
End Tr.

(** ** Fixed-width encodings

    A type whose encodings all have the same length and determine the value, on
    the values satisfying [dom].  Concatenations of such encodings can be parsed
    back, which is what makes a transcript bind its items. *)
Class FixedWidth {E : Engine} (T : Type) {S : CanonicalSerialize T} (dom : T -> Prop)
    (width : nat) : Prop := {
  fixed_width : forall x b, compressed x = inr b -> size b = width;
  encoding_inj : forall x y b, dom x -> dom y ->
    compressed x = inr b -> compressed y = inr b -> x = y
}.

Section Facts.
Context {E : Engine}.

Lemma ser_append_inr {SE : Type} (a b : SE + bytes) c :
  ser_append a b = inr c -> exists x y, [/\ a = inr x, b = inr y & c = x ++ y].
Proof. by case: a b => [//|x] [//|y] /= [<-]; exists x, y. Qed.

Lemma absorbE {T : Type} {S : CanonicalSerialize T} t (x : T) b :
  compressed x = inr b -> Tr.absorb t x = Ok (MkTranscript (transcript_bytes t ++ b)).
Proof. by rewrite /Tr.absorb => ->. Qed.

Lemma absorb_Ok_inv {T : Type} {S : CanonicalSerialize T} t (x : T) t' :
  Tr.absorb t x = Ok t' ->
  exists2 b, compressed x = inr b & t' = MkTranscript (transcript_bytes t ++ b).
Proof. by rewrite /Tr.absorb; case: (compressed x) => [//|b] /= [<-]; exists b. Qed.

Lemma absorb_no_panic {T : Type} {S : CanonicalSerialize T} t (x : T) :
  never_panics (Tr.absorb t x).
Proof. by rewrite /Tr.absorb; case: (compressed x). Qed.

(** Absorbing items of one fixed-width type into equal-length transcripts is
    injective in both the transcript and the item. *)
Lemma absorb_inj {T : Type} {S : CanonicalSerialize T} (dom : T -> Prop) w
    {FW : @FixedWidth E T S dom w} t1 t2 (x1 x2 : T) t :
  dom x1 -> dom x2 -> Tr.absorb t1 x1 = Ok t -> Tr.absorb t2 x2 = Ok t ->
  t1 = t2 /\ x1 = x2.
Proof.
move=> d1 d2 h1 h2; have [b1 e1 t1E] := absorb_Ok_inv h1.
have [b2 e2] := absorb_Ok_inv h2; rewrite t1E => -[E12].
have s12 : size b1 = size b2 by rewrite (@fixed_width _ _ _ _ _ FW _ _ e1) (@fixed_width _ _ _ _ _ FW _ _ e2).
have s12' : size (transcript_bytes t1) = size (transcript_bytes t2).
  have := congr1 size E12; rewrite !size_cat s12 => /eqP.
  by rewrite eqn_add2r => /eqP.
have [tE bE] : transcript_bytes t1 = transcript_bytes t2 /\ b1 = b2.
  have := congr1 (take (size (transcript_bytes t1))) E12.
  have := congr1 (drop (size (transcript_bytes t1))) E12.
  by rewrite take_size_cat // drop_size_cat // s12' take_size_cat // drop_size_cat.
split; first by move: tE; clear; case: t1 t2 => [?] [?] /= ->.
by apply: (@encoding_inj _ _ _ _ _ FW _ _ b1 d1 d2 e1); rewrite bE.
Qed.

End Facts.
