(* ===== verification/Setup.v ===== *)
(** * [setup.rs]: the powers-of-tau ceremony *)
From Stdlib Require Import Strings.Byte Strings.String.
From S2P Require Import Prelude Errors Engine PolyFacts SeqFacts Utils Kzg Transcript.
From mathcomp Require Import ssreflect ssrfun ssrbool eqtype ssrnat seq div.
From mathcomp Require Import fintype bigop ssralg poly polydiv ring_tactic.
Import GRing.Theory.
Set Warnings "-rewrite-rw".
Set Implicit Arguments.
Unset Strict Implicit.
Unset Printing Implicit Defensive.
Local Open Scope ring_scope.

Abbreviation CRS := UniversalParams.

(** [ContributionProof]: a Schnorr proof of knowledge. *)
Record ContributionProof {E : Engine} := MkContributionProof {
  p1_mul_z : G1;
  z_plus_hr : F
}.

(** [&v[a..=b]]: an inclusive range past the end panics. *)
Definition slice_incl {Error A : Type} (v : seq A) (a b : nat) : outcome Error (seq A) :=
  if (a <= b.+1)%N && (b < size v)%N then Ok (take (b.+1 - a) (drop a v)) else Panic.

(** [.is_err()] of a result that is not a panic; an error read as [false]. *)
Definition ok_or_false {Error Error' : Type} (m : outcome Error bool) : outcome Error' bool :=
  match m with Ok c => Ok c | Err _ => Ok false | Panic => Panic end.

Section Definitions.
Context {E : Engine}.

Definition validate_crs_tower_lengths (prev_crs next_crs : CRS) : outcome HError nat :=
  let prev_powers_of_g_len := size (powers_of_g prev_crs) in
  let prev_powers_of_h_len := size (powers_of_h prev_crs) in
  let next_powers_of_g_len := size (powers_of_g next_crs) in
  let next_powers_of_h_len := size (powers_of_h next_crs) in
  fail_if (prev_powers_of_g_len < 3)%N with InsufficientCRS prev_powers_of_g_len;;
  fail_if [|| prev_powers_of_g_len != next_powers_of_g_len,
              prev_powers_of_h_len != next_powers_of_h_len
            | prev_powers_of_g_len != prev_powers_of_h_len]
    with InvalidInput (Msg "CRS tower lengths are inconsistent: previous G1 = {}, previous G2 = {}, next G1 = {}, next G2 = {}"
           [:: prev_powers_of_g_len; prev_powers_of_h_len;
               next_powers_of_g_len; next_powers_of_h_len]);;
  Ok prev_powers_of_g_len.

(** The random oracle of the contribution's Schnorr proof. *)
Definition random_oracle (prev_p1 next_p1 prev_p1_mul_z : G1) : outcome HError F :=
  let* b1 := lift_encoding (compressed prev_p1) in
  let* b2 := lift_encoding (compressed next_p1) in
  let* b3 := lift_encoding (compressed prev_p1_mul_z) in
  let serialized_data := b1 ++ b2 ++ b3 in
  Ok (hash_to_field (byte_string "HINTS_POWERS_OF_TAU_BLS12381:FIAT_SHAMIR") serialized_data).

(** Schnorr prover for the discrete logarithm of [next_p1] to the base [prev_p1]. *)
Definition schnorr_nizk (prev_p1 next_p1 : G1) (r : F) (rng : Rng)
    : outcome HError ContributionProof :=
  let: (z, _) := rand_F rng in
  let prev_p1_mul_z := z *: prev_p1 in
  let* h := random_oracle prev_p1 next_p1 prev_p1_mul_z in
  let z_plus_hr := z + h * r in
  Ok {| p1_mul_z := prev_p1_mul_z; z_plus_hr := z_plus_hr |}.

(** Schnorr verifier. *)
Definition check1 (prev_p1 next_p1 : G1) (proof : ContributionProof) : outcome HError bool :=
  let* h := random_oracle prev_p1 next_p1 (p1_mul_z proof) in
  let lhs := z_plus_hr proof *: prev_p1 in
  let rhs := p1_mul_z proof + h *: next_p1 in
  Ok (lhs == rhs).

(** [_check2_unoptimized]: compiled but not called. *)
Definition check2_unoptimized (crs : CRS) : outcome HError bool :=
  let* n := usize_sub (size (powers_of_g crs)) 1 in
  allM (fun i =>
    let* g_i := vec_get (powers_of_g crs) i in
    let* h_i1 := vec_get (powers_of_h crs) i.+1 in
    let lhs := pairing g_i h_i1 in
    let* g_i1 := vec_get (powers_of_g crs) i.+1 in
    let* h_i := vec_get (powers_of_h crs) i in
    let rhs := pairing g_i1 h_i in
    Ok (lhs == rhs)) (iota 0 n).

(** [compute_sha256] *)
Definition compute_sha256 (inputs : seq bytes) : bytes := sha256 (flatten inputs).

(** The derived serialization of [UniversalParams], uncompressed. *)
Definition serialize_crs_uncompressed (crs : CRS) : SerializationError + bytes :=
  ser_append (ser_vec (@serialize_uncompressed _ _ G1) (powers_of_g crs))
             (ser_vec (@serialize_uncompressed _ _ G2) (powers_of_h crs)).

(** [VariableBaseMSM::msm(...)?] inside [check2]. *)
Definition msm_q (G : Group F SerializationError) (bs : seq G) (ks : seq F) : outcome nat G :=
  of_sum (msm bs ks).

(** Equation 4.3 at the two challenges. *)
Definition check2_equation (crs : CRS) (n : nat) (rho1 rho2 : F) : outcome nat bool :=
  let* n1 := usize_sub n 1 in
  let* g_1_n := slice_incl (powers_of_g crs) 1 n in
  let* lhs_lhs := msm_q g_1_n [seq rho1 ^+ i | i <- iota 0 n] in
  let* h_1_n1 := slice_incl (powers_of_h crs) 1 n1 in
  let* m1 := msm_q h_1_n1 [seq rho2 ^+ i | i <- iota 1 n1] in
  let* h_0 := vec_get (powers_of_h crs) 0 in
  let lhs_rhs := m1 + h_0 in
  let* g_1_n1 := slice_incl (powers_of_g crs) 1 n1 in
  let* m2 := msm_q g_1_n1 [seq rho1 ^+ i | i <- iota 1 n1] in
  let* g_0 := vec_get (powers_of_g crs) 0 in
  let rhs_lhs := m2 + g_0 in
  let* h_1_n := slice_incl (powers_of_h crs) 1 n in
  let* rhs_rhs := msm_q h_1_n [seq rho2 ^+ i | i <- iota 0 n] in
  let lhs := pairing lhs_lhs lhs_rhs in
  let rhs := pairing rhs_lhs rhs_rhs in
  Ok (lhs == rhs).

Definition check2 (crs : CRS) : outcome nat bool :=
  let* n := usize_sub (size (powers_of_g crs)) 1 in
  match serialize_crs_uncompressed crs with
  | inl _ => Err 0%N
  | inr crs_bytes =>
      let rho1 := from_le_bytes_mod_order (compute_sha256 [:: crs_bytes; [:: x01]]) in
      let rho2 := from_le_bytes_mod_order (compute_sha256 [:: crs_bytes; [:: x02]]) in
      check2_equation crs n rho1 rho2
  end.

(** Equation 4.4: the generators are in place and tau is not zero. *)
Definition check3 (crs : CRS) : outcome HError bool :=
  let* g_0 := vec_get (powers_of_g crs) 0 in
  let* h_0 := vec_get (powers_of_h crs) 0 in
  let c1 := (g_0 == generator G1) && (h_0 == generator G2) in
  let* g_1 := vec_get (powers_of_g crs) 1 in
  let* h_1 := vec_get (powers_of_h crs) 1 in
  let c2 := (g_1 != 0) && (h_1 != 0) in
  Ok (c1 && c2).

End Definitions.

Module PowersOfTauProtocol.
Section Definitions.
Context {E : Engine}.

(** The towers of [init], [len] generators each. *)
Definition towers (len : nat) : CRS := {|
  powers_of_g := nseq len (generator G1);
  powers_of_h := nseq len (generator G2)
|}.

(** A degree whose successor is a length that memory can hold. *)
Definition init (degree : nat) : CRS := towers (degree + 1).

Definition prune_crs (crs : CRS) (new_degree : nat) : outcome HError CRS :=
  let* crs_len := validate_crs_tower_lengths crs crs in
  fail_if (crs_len <= new_degree)%N with InsufficientCRS new_degree;;
  let* g := slice_incl (powers_of_g crs) 0 new_degree in
  let* h := slice_incl (powers_of_h crs) 0 new_degree in
  Ok {| powers_of_g := g; powers_of_h := h |}.

Definition contribute (crs : CRS) (seed : bytes) : outcome HError (CRS * ContributionProof) :=
  let rng := from_seed seed in
  let: (r, rng) := rand_F rng in
  let* crs_len := validate_crs_tower_lengths crs crs in
  let degree := (crs_len - 1)%N in
  let powers_of_r := [seq r ^+ i | i <- iota 0 (degree + 1)] in
  let next_crs := {|
    powers_of_g := [seq x.2 *: x.1 | x <- zip (powers_of_g crs) powers_of_r];
    powers_of_h := [seq x.2 *: x.1 | x <- zip (powers_of_h crs) powers_of_r] |} in
  let* prev_p1 := vec_get (powers_of_g crs) 1 in
  let* next_p1 := vec_get (powers_of_g next_crs) 1 in
  let* proof := schnorr_nizk prev_p1 next_p1 r rng in
  Ok (next_crs, proof).

Definition verify_contribution (prev_crs next_crs : CRS) (proof : ContributionProof)
    : outcome HError bool :=
  if ~~ is_ok (validate_crs_tower_lengths prev_crs next_crs) then Ok false else
  let* prev_p1 := vec_get (powers_of_g prev_crs) 1 in
  let* next_p1 := vec_get (powers_of_g next_crs) 1 in
  let* c1 := ok_or_false (check1 prev_p1 next_p1 proof) in
  let* c2 := ok_or_false (check2 next_crs) in
  let* c3 := check3 next_crs in
  Ok [&& c1, c2 & c3].

End Definitions.
End PowersOfTauProtocol.
