(* ===== verification/Ceremony.v ===== *)
(** * The powers-of-tau ceremony: honest contributions, soundness of the checks *)
From S2P Require Import Prelude Errors Engine PolyFacts SeqFacts Utils Kzg Transcript Setup.
From S2P Require Import DenseOps ToyEngine.
From mathcomp Require Import ssreflect ssrfun ssrbool eqtype ssrnat seq div.
From mathcomp Require Import fintype bigop ssralg poly polydiv ring_tactic.
Import GRing.Theory.
Set Warnings "-rewrite-rw".
Set Implicit Arguments.
Unset Strict Implicit.
Unset Printing Implicit Defensive.
Local Open Scope ring_scope.

(** ** Generic facts *)
#[local] Arguments slice_incl : simpl never.

Lemma map_zip_mkseq (A B C : Type) (h : A * B -> C) (f : nat -> A) (g : nat -> B) m :
  [seq h x | x <- zip (mkseq f m) (mkseq g m)] = mkseq (fun i => h (f i, g i)) m.
Proof. by rewrite /mkseq zip_map -map_comp. Qed.

Lemma slice_inclE {Error A : Type} (v : seq A) a b :
  (a <= b.+1)%N -> (b < size v)%N ->
  slice_incl v a b = Ok (take (b.+1 - a) (drop a v)) :> outcome Error (seq A).
Proof. by rewrite /slice_incl => -> ->. Qed.

Lemma usize_subE {Error : Type} a b : (b <= a)%N -> usize_sub a b = Ok (a - b)%N :> outcome Error nat.
Proof. by move=> /leP le; rewrite /usize_sub (proj2 (PeanoNat.Nat.leb_le b a) le). Qed.

(** A multi-scalar product of multiples of [g] with consecutive powers. *)
Lemma msm_exponents (K : fieldType) (V : lmodType K) (g : V) (rho : K) (s : seq K) k :
  msm_spec [seq x *: g | x <- s] [seq rho ^+ i | i <- iota k (size s)] =
  (rho ^+ k * (Poly s).[rho]) *: g.
Proof.
rewrite /msm_spec; elim: s k => [|x s IH] k /=.
  by rewrite big_nil horner0 mulr0 scale0r.
rewrite big_cons IH /= scalerA -scalerDl horner_cons exprS; congr (_ *: _).
by ring.
Qed.

(** Two products of one-variable polynomials that agree on a large enough grid
    have the same coefficients. *)
Lemma grid_coefs (K : fieldType) (A B C D : {poly K}) n (R1 R2 : seq K) :
  uniq R1 -> uniq R2 -> size R1 = n -> size R2 = n ->
  (size A <= n)%N -> (size B <= n)%N -> (size C <= n)%N -> (size D <= n)%N ->
  (forall x y, x \in R1 -> y \in R2 -> A.[x] * B.[y] = C.[x] * D.[y]) ->
  forall i j, A`_i * B`_j = C`_i * D`_j.
Proof.
move=> U1 U2 s1 s2 sA sB sC sD H i j.
have Hy y : y \in R2 -> A`_i * B.[y] = C`_i * D.[y].
  move=> yR; have /(congr1 (fun p : {poly K} => p`_i)) : B.[y] *: A = D.[y] *: C.
    apply: poly_ext_roots U1 _ _ _; rewrite ?s1.
    - exact: leq_trans (size_scale_leq _ _) sA.
    - exact: leq_trans (size_scale_leq _ _) sC.
    - by move=> x xR; rewrite !hornerZ mulrC H // mulrC.
  by rewrite !coefZ mulrC => ->; rewrite mulrC.
have /(congr1 (fun p : {poly K} => p`_j)) : A`_i *: B = C`_i *: D.
  apply: poly_ext_roots U2 _ _ _; rewrite ?s2.
  - exact: leq_trans (size_scale_leq _ _) sB.
  - exact: leq_trans (size_scale_leq _ _) sD.
  - by move=> y yR; rewrite !hornerZ Hy.
by rewrite !coefZ.
Qed.

Section Facts.
Context {E : Engine} {L : EngineLaws E}.

(** Every vector of group elements is a vector of multiples of the generator. *)
Lemma exponents (G : Group F SerializationError) {GL : GroupLaws G} (v : seq G) :
  exists s : seq F, v = [seq x *: generator G | x <- s].
Proof.
elim: v => [|P v [s ->]]; first by exists [::].
by have [x ->] := generator_spans P; exists (x :: s).
Qed.

(** Equation 4.3 in the exponents. *)
Lemma check2_equationE (p q : F) (ps qs : seq F) n rho1 rho2 :
  size ps = n -> size qs = n -> (0 < n)%N ->
  check2_equation {| powers_of_g := [seq x *: generator G1 | x <- p :: ps];
                     powers_of_h := [seq x *: generator G2 | x <- q :: qs] |} n rho1 rho2 =
  Ok ((Poly ps).[rho1] * (Poly (take n (q :: qs))).[rho2] ==
      (Poly (take n (p :: ps))).[rho1] * (Poly qs).[rho2]).
Proof.
case: n => // n sp sq _; rewrite /check2_equation usize_subE // subn1 /=.
rewrite /slice_incl /= !drop0 !size_map sp sq !ltnS leqnn leqnSn /= !subn1 /=.
have full (V : lmodType F) (g : V) (s : seq F) :
    size s = n.+1 -> take n.+1 [seq x *: g | x <- s] = [seq x *: g | x <- s].
  by move=> sz; rewrite take_oversize // size_map sz.
rewrite !full // -!map_take.
have szt (s : seq F) : size s = n.+1 -> size (take n s) = n.
  by move=> sz; rewrite size_take sz ltnSn.
rewrite /msm_q !msmE /= ?size_map ?size_iota ?szt ?sp ?sq //=.
have one (V : lmodType F) (g : V) (s : seq F) rho : size s = n.+1 ->
    msm_spec [seq x *: g | x <- s] [seq rho ^+ i | i <- 0%N :: iota 1 n] =
    (Poly s).[rho] *: g.
  by move=> sz; rewrite -(mul1r (Poly s).[rho]) -[1 in RHS](expr0 rho) -msm_exponents sz.
have two (V : lmodType F) (g : V) (s : seq F) rho x : size s = n.+1 ->
    msm_spec [seq x *: g | x <- take n s] [seq rho ^+ i | i <- iota 1 n] + x *: g =
    (Poly (x :: take n s)).[rho] *: g.
  move=> sz; rewrite -{2}(szt _ sz) msm_exponents expr1 -scalerDl /= horner_cons.
  by rewrite mulrC.
move: (one _ (generator G1) ps rho1 sp) (one _ (generator G2) qs rho2 sq) => /= -> ->.
rewrite !two //; congr Ok; apply/eqP/eqP => [/pairing_exp_inj //|H].
exact/pairing_exp_inj.
Qed.

(** ** Honest steps *)

Lemma init_wf d : wf_crs 1 d.+1 (PowersOfTauProtocol.init d).
Proof.
have H (V : lmodType F) (g : V) : nseq (d + 1) g = mkseq (fun i => 1 ^+ i *: g) d.+1.
  apply: (@eq_from_nth _ 0); rewrite size_nseq ?size_mkseq addn1 // => i lt.
  by rewrite nth_nseq lt nth_mkseq // expr1n scale1r.
by split; rewrite /= H.
Qed.

Lemma validate_same tau m crs : wf_crs tau m crs -> (2 < m)%N ->
  validate_crs_tower_lengths crs crs = Ok m.
Proof.
move=> [gE hE] m3; rewrite /validate_crs_tower_lengths gE hE !size_mkseq eqxx /=.
by rewrite ltnNge m3.
Qed.

Lemma prune_wf tau m crs d : wf_crs tau m crs -> (2 < m)%N -> (d < m)%N ->
  exists2 crs', PowersOfTauProtocol.prune_crs crs d = Ok crs' & wf_crs tau d.+1 crs'.
Proof.
move=> wf m3 dm; rewrite /PowersOfTauProtocol.prune_crs (validate_same wf m3) /=.
case: wf => gE hE; rewrite leqNgt dm gE hE /= !slice_inclE ?size_mkseq //=.
eexists; first by [].
by split; rewrite /= subn0 drop0 /mkseq -map_take take_iota (minn_idPl dm).
Qed.

Lemma check2_wf tau m crs rho1 rho2 : wf_crs tau m crs -> (2 < m)%N ->
  check2_equation crs (m - 1) rho1 rho2 = Ok true.
Proof.
case: m => // n [gE hE]; rewrite ltnS subn1 /= => n0.
pose pows := [seq tau ^+ i | i <- iota 1 n].
have H (V : lmodType F) (g : V) :
    mkseq (fun i => tau ^+ i *: g) n.+1 = [seq x *: g | x <- tau ^+ 0 :: pows].
  by rewrite /pows -(map_cons (fun i => tau ^+ i) 0%N) -map_comp.
case: crs gE hE => g h /= -> ->; rewrite !H.
rewrite check2_equationE ?size_map ?size_iota ?(ltnW n0) //.
have -> : take n (tau ^+ 0 :: pows) = [seq tau ^+ i | i <- iota 0 n].
  rewrite /pows -(map_cons (fun i => tau ^+ i) 0%N) -map_take -[0%N :: _]/(iota 0 n.+1).
  by rewrite take_iota (minn_idPl (leqnSn n)).
have -> : Poly pows = tau *: Poly [seq tau ^+ i | i <- iota 0 n].
  rewrite /pows (iotaDl 1) -map_comp; elim: (iota 0 n) => [|i s IH] /=; first by rewrite scaler0.
  by rewrite IH !cons_poly_def add1n exprS scalerDr scalerAl scale_polyC.
by congr Ok; apply/eqP; rewrite !hornerZ; ring.
Qed.

Lemma check2_ok tau m crs : wf_crs tau m crs -> (2 < m)%N -> check2 crs = Ok true.
Proof.
move=> wf m3; rewrite /check2; have [gE hE] := wf; rewrite {1}gE size_mkseq.
rewrite usize_subE ?(ltnW (ltnW m3)) //=.
have ser (G : Group F SerializationError) (GL : GroupLaws G) (v : seq G) :
    exists b, ser_vec (@serialize_uncompressed _ _ G) v = inr b.
  rewrite /ser_vec; have [b ->] := ser_usize_ok (size v).
  have [c -> /=] : exists c, foldr (fun x => ser_append (serialize_uncompressed x)) (inr [::]) v = inr c.
    elim: v => [|x v [c IH]] /=; first by exists [::].
    by have [d dE] := ser_uncompressed_ok x; exists (d ++ c); rewrite IH dE.
  by exists (b ++ c).
rewrite /serialize_crs_uncompressed; have [b ->] := ser G1 G1_laws (powers_of_g crs).
have [c -> /=] := ser G2 G2_laws (powers_of_h crs).
exact: (check2_wf _ _ wf m3).
Qed.

Lemma random_oracle_ok (a b c : G1) : exists h, random_oracle a b c = Ok h.
Proof.
rewrite /random_oracle /compressed /serialize_G1_instance.
have [x ->] := ser_compressed_ok a; have [y ->] := ser_compressed_ok b.
by have [z ->] := ser_compressed_ok c; eexists.
Qed.

(** The Schnorr proof of an honest contribution is accepted. *)
Lemma schnorr_complete (P Q : G1) (r : F) rng : Q = r *: P ->
  exists2 proof, schnorr_nizk P Q r rng = Ok proof & check1 P Q proof = Ok true.
Proof.
move=> QE; rewrite /schnorr_nizk /check1; case: (rand_F rng) => z rng'.
have [h hE] := random_oracle_ok P Q (z *: P); rewrite hE /=.
eexists; first by []; rewrite /= hE /=; congr Ok; apply/eqP.
by rewrite QE scalerDl scalerA.
Qed.

(** The scalar a participant draws. *)
Definition contribution (seed : bytes) : F := (rand_F (from_seed seed)).1.

Lemma contribute_wf tau m crs seed : wf_crs tau m crs -> (2 < m)%N ->
  exists next proof, [/\ PowersOfTauProtocol.contribute crs seed = Ok (next, proof),
    wf_crs (tau * contribution seed) m next &
    check1 (tau *: generator G1) ((tau * contribution seed) *: generator G1) proof = Ok true].
Proof.
move=> wf m3; rewrite /PowersOfTauProtocol.contribute /contribution.
case: (rand_F _) => r rng; rewrite (validate_same wf m3) /=.
case: wf => gE hE; rewrite gE hE subnK ?(ltnW (ltnW m3)) // -/(mkseq _ _) !map_zip_mkseq /=.
rewrite !(vec_get_lt _ 0) ?size_mkseq ?(ltnW m3) //= !nth_mkseq ?(ltnW m3) // !expr1.
have QE : r *: (tau *: generator G1) = r *: (tau *: generator G1) by [].
have [proof -> c1] := schnorr_complete rng QE.
do 2 eexists; split=> //=; last by rewrite mulrC -scalerA.
by split; apply: eq_mkseq => i /=; rewrite scalerA exprMn mulrC.
Qed.

Lemma check3_wf tau m crs : wf_crs tau m crs -> (2 < m)%N -> check3 crs = Ok (tau != 0).
Proof.
move=> [gE hE] m3; rewrite /check3 gE hE.
rewrite !(vec_get_lt _ 0) ?size_mkseq ?(ltnW m3) ?(ltnW (ltnW m3)) //=.
rewrite !nth_mkseq ?(ltnW m3) ?(ltnW (ltnW m3)) // !expr1 !expr0 !scale1r !eqxx /=.
by rewrite !scaler_eq0 !(negbTE generator_neq0) !orbF andbb.
Qed.

(** C37: an honest contribution to a well-formed reference string of at least
    three powers succeeds; its result is the well-formed string whose secret is
    the product of the old secret and the participant's scalar, and
    [verify_contribution] accepts it exactly when that product is not zero. *)
Theorem contribute_verifies tau m crs seed : wf_crs tau m crs -> (2 < m)%N ->
  exists next proof,
    [/\ PowersOfTauProtocol.contribute crs seed = Ok (next, proof),
        wf_crs (tau * contribution seed) m next &
        PowersOfTauProtocol.verify_contribution crs next proof =
          Ok (tau * contribution seed != 0)].
Proof.
move=> wf m3; have [next [proof [cE wf' c1]]] := contribute_wf seed wf m3.
exists next, proof; split=> //; rewrite /PowersOfTauProtocol.verify_contribution.
have [gE hE] := wf; have [gE' hE'] := wf'.
rewrite /validate_crs_tower_lengths gE hE gE' hE' !size_mkseq eqxx /= ltnNge m3 /=.
rewrite !(vec_get_lt _ 0) ?size_mkseq ?(ltnW m3) //= !nth_mkseq ?(ltnW m3) // !expr1 c1 /=.
by rewrite (check2_ok wf' m3) /= (check3_wf wf' m3).
Qed.

(** ** The ceremony as a state machine

    The strings an honest ceremony can produce, with the seeds contributed so
    far, the latest first. *)
Inductive ceremony : seq bytes -> CRS -> Prop :=
| ceremony_init d : ceremony [::] (PowersOfTauProtocol.init d)
| ceremony_contribute seeds crs seed next proof :
    ceremony seeds crs ->
    PowersOfTauProtocol.contribute crs seed = Ok (next, proof) ->
    ceremony (seed :: seeds) next
| ceremony_prune seeds crs d crs' :
    ceremony seeds crs ->
    PowersOfTauProtocol.prune_crs crs d = Ok crs' ->
    ceremony seeds crs'.

Lemma validate_same_inv tau m crs k : wf_crs tau m crs ->
  validate_crs_tower_lengths crs crs = Ok k -> (2 < m)%N.
Proof.
by move=> [gE _]; rewrite /validate_crs_tower_lengths gE size_mkseq; case: ltnP.
Qed.

(** C38: every reference string the ceremony reaches, by any sequence of
    contributions and prunings, is well formed, and its secret is the product of
    all the contributed scalars. *)
Theorem ceremony_invariant seeds crs : ceremony seeds crs ->
  exists m, wf_crs (\prod_(s <- seeds) contribution s) m crs.
Proof.
elim=> {seeds crs} [d|seeds crs seed next proof _ [m wf] cE|seeds crs d crs' _ [m wf] pE].
- by exists d.+1; rewrite big_nil; exact: init_wf.
- have m3 : (2 < m)%N.
    move: cE; rewrite /PowersOfTauProtocol.contribute; case: (rand_F _) => r rng.
    by case vE: validate_crs_tower_lengths => [k| |] // _; apply: validate_same_inv wf vE.
  have [next' [proof' [cE' wf' _]]] := contribute_wf seed wf m3.
  exists m; move: cE; rewrite cE' => -[<- _].
  by rewrite big_cons mulrC.
- move: pE; rewrite /PowersOfTauProtocol.prune_crs.
  case vE: validate_crs_tower_lengths => [k| |] //=; have m3 := validate_same_inv wf vE.
  move: vE; rewrite (validate_same wf m3) => -[<-]; case: leqP => // dm.
  have [crs2 pE wf2] := prune_wf wf m3 dm; move: pE.
  rewrite /PowersOfTauProtocol.prune_crs (validate_same wf m3) /= leqNgt dm /= => -> [<-].
  by exists d.+1.
Qed.

(** ** Soundness of the checks *)

(** Powers in both groups that satisfy all the cross equations come from one
    secret. *)
Lemma cross_powers (ps qs : seq F) n : size ps = n -> size qs = n -> (0 < n)%N ->
  (forall i j, ps`_i * (take n (1 :: qs))`_j = (take n (1 :: ps))`_i * qs`_j) ->
  forall i, (i < n.+1)%N -> (1 :: ps)`_i = ps`_0 ^+ i /\ (1 :: qs)`_i = ps`_0 ^+ i.
Proof.
case: n => // n sp sq _ H.
have tk (s : seq F) i : (i <= n)%N -> (take n.+1 (1 :: s))`_i = (1 :: s)`_i.
  by move=> le; rewrite nth_take.
have q0 : qs`_0 = ps`_0.
  by have := H 0%N 0%N; rewrite !tk //= mulr1 mul1r.
elim=> [|i IH] lt; first by rewrite expr0.
have [IHp IHq] := IH (ltnW lt); rewrite /= exprS; split.
  by have := H i 0%N; rewrite !tk //= mulr1 q0 mulrC => ->; rewrite -IHp.
by have := H 0%N i; rewrite !tk //= mul1r => <-; rewrite -IHq.
Qed.

(** C39: equation 4.3 is a sound test of well-formedness.  If a string of n+1
    powers with the generators in place passes it at every pair of challenges of
    an n-by-n grid of distinct values, then it is the string of one secret tau;
    so a malformed string fails on any such grid. *)
Theorem check2_sound crs n (R1 R2 : seq F) :
  (0 < n)%N -> size (powers_of_g crs) = n.+1 -> size (powers_of_h crs) = n.+1 ->
  check3 crs = Ok true ->
  uniq R1 -> uniq R2 -> size R1 = n -> size R2 = n ->
  (forall rho1 rho2, rho1 \in R1 -> rho2 \in R2 ->
     check2_equation crs n rho1 rho2 = Ok true) ->
  exists2 tau, tau != 0 & wf_crs tau n.+1 crs.
Proof.
move=> n0 sg sh c3 U1 U2 s1 s2 H.
have [ps gE] := exponents (powers_of_g crs); have [qs hE] := exponents (powers_of_h crs).
case: crs gE hE sg sh c3 H => g h /= -> ->; rewrite !size_map.
case: ps => // p ps [sp]; case: qs => // q qs [sq] /= c3 H.
move: c3; rewrite /check3 /= !(vec_get_lt _ 0) /= ?ltnS ?size_map ?sp ?sq //= => -[/andP[/andP[]]].
rewrite -[X in _ == X]scale1r => /eqP/(scaler_injr generator_neq0) p1.
rewrite -[X in _ == X]scale1r => /eqP/(scaler_injr generator_neq0) q1.
rewrite {}p1 {}q1 in H *; rewrite !(nth_map 0) ?sp ?sq // scaler_eq0 (negbTE generator_neq0).
rewrite orbF => /andP[t0 _]; exists ps`_0 => //.
have cross : forall i j, ps`_i * (take n (1 :: qs))`_j = (take n (1 :: ps))`_i * qs`_j.
  move=> i j; have szP (s : seq F) : (size (Poly (take n s)) <= n)%N.
    by apply: leq_trans (size_Poly _) _; rewrite size_take; case: ltnP.
  have := @grid_coefs _ (Poly ps) (Poly (take n (1 :: qs))) (Poly (take n (1 :: ps))) (Poly qs)
    n R1 R2 U1 U2 s1 s2 _ (szP _) (szP _) _ _ i j.
  rewrite !coef_Poly; apply; rewrite -?[X in (_ <= X)%N]sp -?[X in (_ <= X)%N]sq ?size_Poly //.
  by rewrite sp -sq size_Poly.
  move=> x y xR yR; have := H x y xR yR.
  by have := check2_equationE 1 1 x y sp sq n0 => /= -> [/eqP].
have pw := cross_powers sp sq n0 cross.
split; rewrite /=; apply: (@eq_from_nth _ 0); rewrite /= ?size_map ?size_iota ?sp ?sq // => i lt.
  rewrite nth_mkseq // -(proj1 (pw i lt)); case: i lt => [|i] //= lt.
  by rewrite (nth_map 0) ?sp.
rewrite nth_mkseq // -(proj2 (pw i lt)); case: i lt => [|i] //= lt.
by rewrite (nth_map 0) ?sq.
Qed.

(** ** The unoptimised check *)

Definition string_of (ps qs : seq F) : CRS := {|
  powers_of_g := [seq x *: generator G1 | x <- ps];
  powers_of_h := [seq x *: generator G2 | x <- qs] |}.

(** Consecutive equal ratios from equal first entries mean equal towers. *)
Lemma same_ratios (ps qs : seq F) : size ps = size qs -> 0 \notin ps ->
  all (fun i => (1 :: ps)`_i * qs`_i == ps`_i * (1 :: qs)`_i) (iota 0 (size ps)) = (ps == qs).
Proof.
move=> sz nz; apply/allP/eqP => [H|<- i _]; last by rewrite mulrC.
apply: (@eq_from_nth _ 0) => // i; elim: i => [|i IH] lt.
  by move: (H 0%N); rewrite mem_iota /= mul1r mulr1 => /(_ lt)/eqP ->.
move: (H i.+1); rewrite mem_iota /= -IH ?(ltnW lt) // => /(_ lt)/eqP e.
apply: (mulfI (_ : ps`_i != 0)); last by rewrite e mulrC.
by apply: contraNneq nz => <-; rewrite mem_nth // ltnW.
Qed.

(** The strings of one secret are the powers of their second entry. *)
Lemma string_of_wf (ps qs : seq F) : size ps = size qs ->
  (exists tau m, wf_crs tau m (string_of (1 :: ps) (1 :: qs))) <->
  ps = qs /\ forall i, (i < size ps)%N -> ps`_i = ps`_0 ^+ i.+1.
Proof.
move=> sz; split=> [[tau [m [gE hE]]]|[<- pw]].
  have exps (V : lmodType F) (g : V) (xs : seq F) : g != 0 ->
      [seq x *: g | x <- xs] = mkseq (fun i => tau ^+ i *: g) m -> xs = mkseq (fun i => tau ^+ i) m.
    move=> gn0; have -> : mkseq (fun i => tau ^+ i *: g) m =
        [seq x *: g | x <- mkseq (fun i => tau ^+ i) m] by rewrite /mkseq -map_comp.
    by apply: inj_map => x y; exact: scaler_injr.
  have pE : 1 :: ps = mkseq (fun i => tau ^+ i) m by exact: exps generator_neq0 gE.
  have qE : 1 :: qs = mkseq (fun i => tau ^+ i) m by exact: exps generator_neq0 hE.
  case: m pE qE {gE hE exps} => // m [pE] [qE]; split; first by rewrite pE qE.
  by rewrite pE size_map size_iota => i lt; rewrite !(nth_map 0%N) ?size_iota ?nth_iota //; case: m lt {pE qE}.
exists ps`_0, (size ps).+1; split; apply: (@eq_from_nth _ 0);
  rewrite ?size_map ?size_iota // => i lt; rewrite (nth_map 0) // nth_mkseq //;
  by case: i lt => [|i] lt; rewrite ?expr0 //= pw.
Qed.

(** What [_check2_unoptimized] decides.  Unlike equation 4.3 it relates only equal
    indices of the two groups: on towers that start with the generators and hold no
    identity, it accepts exactly those with the same exponents in both groups, powers
    of one secret or not; while the string is well formed only for the powers of its
    second entry. *)
Theorem check2_unoptimized_spec (ps qs : seq F) : size ps = size qs -> 0 \notin ps ->
  check2_unoptimized (string_of (1 :: ps) (1 :: qs)) = Ok (ps == qs) /\
  ((exists tau m, wf_crs tau m (string_of (1 :: ps) (1 :: qs))) <->
   ps = qs /\ forall i, (i < size ps)%N -> ps`_i = ps`_0 ^+ i.+1).
Proof.
move=> sz nz; have get (V : lmodType F) (g : V) (xs : seq F) i : (i < (size xs).+1)%N ->
    vec_get (1 *: g :: [seq x *: g | x <- xs]) i = Ok ((1 :: xs)`_i *: g) :> outcome HError V.
  by move=> lt; rewrite -[_ :: _]/[seq x *: g | x <- 1 :: xs] (vec_get_lt _ 0) ?size_map // (nth_map 0).
split; last exact: string_of_wf.
rewrite /check2_unoptimized size_map usize_subE // [bind _ _]/= [size _]/= subSS subn0.
rewrite (allM_ok (g := fun i => (1 :: ps)`_i * qs`_i == ps`_i * (1 :: qs)`_i)) => [i|].
  rewrite mem_iota add0n => /andP[_ lt].
  rewrite !get -?sz ?ltnS ?(ltnW lt) //; congr Ok.
  by apply/eqP/eqP => [/pairing_exp_inj|H]; last exact/pairing_exp_inj.
by rewrite same_ratios.
Qed.

End Facts.

(** ** Totality *)
Section Totality.
Context {E : Engine}.

Lemma check2_no_panic crs : size (powers_of_g crs) = size (powers_of_h crs) ->
  (2 < size (powers_of_g crs))%N -> never_panics (check2 crs).
Proof.
move=> sgh; case sE: (size _) => [|n] // n2; rewrite /check2 sE usize_subE //= subn1 /=.
have n0 : (0 < n)%N := ltnW n2.
case: serialize_crs_uncompressed => // b; rewrite /check2_equation usize_subE //=.
have sl (T : Type) (v : seq T) k : size v = n.+1 -> (0 < k)%N -> (k <= n)%N ->
    slice_incl v 1 k = Ok (take k (drop 1 v)) :> outcome nat _.
  by move=> sv k0 kn; rewrite slice_inclE ?sv ?ltnS //; congr Ok; rewrite subn1.
have n1 : (0 < n - 1)%N by rewrite subn_gt0.
have n1n : (n - 1 <= n)%N by rewrite leq_subr.
have hE : size (powers_of_h crs) = n.+1 by rewrite -sgh.
rewrite !sl //= !(vec_get_lt _ 0) ?sE ?hE //= /msm_q.
by do 4 (case: (msm _ _) => //= ?).
Qed.

(** [verify_contribution] returns a verdict on every pair of strings and every
    proof, of whatever lengths: it never panics.  A positive verdict implies
    that the towers have one common length of at least three, that the new
    string starts with the generators and that its first power is not zero. *)
Theorem verify_contribution_total prev_crs next_crs proof :
  exists2 b, PowersOfTauProtocol.verify_contribution prev_crs next_crs proof = Ok b &
    b -> [/\ (2 < size (powers_of_g next_crs))%N,
             size (powers_of_g next_crs) = size (powers_of_g prev_crs),
             size (powers_of_h next_crs) = size (powers_of_g next_crs) &
             check3 next_crs = Ok true].
Proof.
rewrite /PowersOfTauProtocol.verify_contribution /validate_crs_tower_lengths.
case: ltnP => [_|m3] /=; first by exists false.
case C: [|| _, _ | _] => /=; first by exists false.
move: C => /negbT/norP[/negPn/eqP gg /norP[/negPn/eqP hh /negPn/eqP gh]].
have m3' : (2 < size (powers_of_g next_crs))%N by rewrite -gg.
rewrite !(vec_get_lt _ 0) ?(ltnW m3) ?(ltnW m3') //=.
have [c1 ->] : exists c1, @ok_or_false _ HError (check1 (powers_of_g prev_crs)`_1
    (powers_of_g next_crs)`_1 proof) = Ok c1.
  rewrite /check1 /random_oracle; case: (compressed _) => [e|b] /=; first by exists false.
  case: (compressed _) => [e|b'] /=; first by exists false.
  by case: (compressed _) => [e|b''] /=; eexists.
have [c2 ->] : exists c2, @ok_or_false _ HError (check2 next_crs) = Ok c2.
  have := check2_no_panic (etrans (esym gg) (etrans gh hh)) m3'.
  by case: check2 => [c|e|] // _; [exists c|exists false].
have [c3 c3E] : exists c3, check3 next_crs = Ok c3.
  rewrite /check3 !(vec_get_lt _ 0) -?hh -?gh ?(ltnW m3) ?(ltnW m3') ?(ltnW (ltnW m3)) //=;
    by [eexists|rewrite (ltnW (ltnW m3'))].
rewrite c3E /=; eexists; first by [].
by case/and3P=> _ _ c3T; split; rewrite // ?c3T // -?hh -?gg.
Qed.

End Totality.

(** ** Witnesses *)

Definition toy_crs (tau : @F toy) (m : nat) : @UniversalParams toy :=
  {| powers_of_g := mkseq (fun i => tau ^+ i *: generator G1) m;
     powers_of_h := mkseq (fun i => tau ^+ i *: generator G2) m |}.

Lemma toy_crs_wf tau m : wf_crs tau m (toy_crs tau m).
Proof. by []. Qed.

Lemma contribute_verifies_witness : exists next proof,
  [/\ PowersOfTauProtocol.contribute (toy_crs 5%:R 4) [::] = Ok (next, proof),
      wf_crs (5%:R * @contribution toy [::]) 4 next &
      PowersOfTauProtocol.verify_contribution (toy_crs 5%:R 4) next proof =
        Ok (5%:R * @contribution toy [::] != 0)].
Proof. exact: (@contribute_verifies toy toy_laws _ _ _ _ (toy_crs_wf 5%:R 4)). Defined.

Definition toy_next (crs : @UniversalParams toy) (seed : bytes) : UniversalParams :=
  if PowersOfTauProtocol.contribute crs seed is Ok (next, _) then next else crs.

Lemma ceremony_invariant_witness : exists m,
  wf_crs (\prod_(s <- [:: [::]]) @contribution toy s) m
    (toy_next (PowersOfTauProtocol.init 3) [::]).
Proof.
apply: (@ceremony_invariant toy toy_laws).
have [next [proof [cE _ _]]] := contribute_wf [::] (@init_wf toy 3) isT.
by rewrite /toy_next cE; apply: (ceremony_contribute (ceremony_init 3) cE).
Defined.

Lemma check2_sound_witness :
  exists2 tau : @F toy, tau != 0 & wf_crs tau 3 (toy_crs 5%:R 3).
Proof.
apply: (@check2_sound toy toy_laws (toy_crs 5%:R 3) 2 [:: 0; 1] [:: 0; 1]) => //.
by move=> rho1 rho2 _ _; apply: (@check2_wf toy toy_laws 5%:R 3).
Defined.

(** Exponents 1, 2, 5 are no powers, yet [_check2_unoptimized] accepts them. *)
Lemma check2_unoptimized_spec_witness : let ps : seq (@F toy) := [:: 2%:R; 5%:R] in
  check2_unoptimized (string_of (1 :: ps) (1 :: ps)) = Ok true /\
  ~ exists tau m, wf_crs tau m (string_of (1 :: ps) (1 :: ps)).
Proof.
set ps : seq (@F toy) := [:: 2%:R; 5%:R].
have nz : 0 \notin ps by vm_compute.
have [cE wfE] := @check2_unoptimized_spec toy toy_laws ps ps erefl nz.
split; first by rewrite cE eqxx.
by move/wfE => [_ /(_ 1%N isT)/eqP]; vm_compute.
Defined.
