(* ===== verification/Hints.v ===== *)
(** * [hints.rs]: the hinTS threshold signature scheme

    The definitions of the scheme, in the order of the source.  A [HashMap] is the
    list of its entries in iteration order, with distinct keys.  The operating
    system's randomness in [partial_verify_batch] is an argument. *)
From Stdlib Require Import Strings.Byte Strings.String.
From S2P Require Import Prelude Errors Engine Utils Kzg Transcript.
From mathcomp Require Import ssreflect ssrfun ssrbool eqtype ssrnat seq path.
From mathcomp Require Import ssralg.
Import GRing.Theory.
Set Warnings "-rewrite-rw".
Set Implicit Arguments.
Unset Strict Implicit.
Unset Printing Implicit Defensive.
Local Open Scope ring_scope.

Definition RANDOM_SIZE : nat := 32.

Abbreviation CRS := UniversalParams.
Abbreviation PartialSignature := (carrier G2).
Abbreviation PublicKey := (carrier G1).
Abbreviation Weight := F.

Record ProofOfPossesion {E : Engine} := MkProofOfPossesion {
  commitment : G1;
  challenge : F;
  response : F
}.

Record SecretKey {E : Engine} := MkSecretKey {
  secret : F;
  pop : ProofOfPossesion
}.

Record ThresholdSignature {E : Engine} := MkThresholdSignature {
  agg_pk : G1;
  agg_weight : Weight;
  agg_sig : G2;
  b_of_tau_com : G1;
  qx_of_tau_com : G1;
  qx_of_tau_mul_tau_com : G1;
  qz_of_tau_com : G1;
  parsum_of_tau_com : G1;
  q_mrg_of_tau_com : G1;
  opening_proof_r : G1;
  opening_proof_r_div_omega : G1;
  parsum_of_r : F;
  parsum_of_r_div_omega : F;
  w_of_r : F;
  b_of_r : F;
  q_mrg_of_r : F
}.

Record ExtendedPublicKey {E : Engine} := MkExtendedPublicKey {
  epk_i : nat;
  epk_n : nat;
  pk_i : PublicKey;
  pok_i : ProofOfPossesion;
  sk_i_l_i_of_tau_com_1 : G1;
  sk_i_l_i_of_tau_com_2 : G2;
  qz_i_terms : seq G1;
  qx_i_term : G1;
  qx_i_term_mul_tau : G1
}.

Record AggregationKey {E : Engine} := MkAggregationKey {
  ak_n : nat;
  weights : seq Weight;
  pks : seq PublicKey;
  qz_terms : seq G1;
  qx_terms : seq G1;
  qx_mul_tau_terms : seq G1
}.

Record VerificationKey {E : Engine} := MkVerificationKey {
  vk_n : nat;
  total_weight : Weight;
  g_0 : G1;
  h_0 : G2;
  h_1 : G2;
  l_n_minus_1_of_tau_com : G1;
  w_of_tau_com : G1;
  sk_of_tau_com : G2;
  z_of_tau_com : G2
}.

(** The witness of the aggregator, [Witness] in the source. *)
Record Witness {E : Engine} := MkWitness {
  wit_bitmap : seq F;
  wit_parsum : seq F;
  wit_agg_weight : F;
  wit_agg_pk : G1;
  wit_agg_sig : G2;
  wit_qz_of_tau_com : G1;
  wit_qx_of_tau_com : G1;
  wit_qx_of_tau_mul_tau_com : G1
}.

(** [#[derive(CanonicalSerialize)]] for [VerificationKey]. *)
#[export] Instance serialize_vk {E : Engine} : CanonicalSerialize VerificationKey := fun vk =>
  ser_append (compressed (vk_n vk))
  (ser_append (compressed (total_weight vk))
  (ser_append (compressed (g_0 vk))
  (ser_append (compressed (h_0 vk))
  (ser_append (compressed (h_1 vk))
  (ser_append (compressed (l_n_minus_1_of_tau_com vk))
  (ser_append (compressed (w_of_tau_com vk))
  (ser_append (compressed (sk_of_tau_com vk))
              (compressed (z_of_tau_com vk))))))))).

Definition DST_QUOTIENT_MERGE : bytes :=
  byte_string "HINTS_SIG_BLS12381:FIAT_SHAMIR_V2_QUOTIENT_MERGE".
Definition DST_EVALUATION_POINT : bytes :=
  byte_string "HINTS_SIG_BLS12381:FIAT_SHAMIR_V2_EVALUATION_POINT".
Definition DST_OPENING_BATCH : bytes :=
  byte_string "HINTS_SIG_BLS12381:FIAT_SHAMIR_V2_OPENING_BATCH".
Definition POP_DST : bytes := byte_string "HINTS_SIG_BLS12381:FIAT_SHAMIR_POP".
Definition DST_G2 : bytes := byte_string "BLS_SIG_BLS12381G2_XMD:SHA-256_SSWU_RO_POP_".

(** ** Helpers *)
Section Helpers.
Context {E : Engine}.

Definition crs_supports (crs : CRS) (n : nat) : bool :=
  (n < size (powers_of_g crs))%N && (n < size (powers_of_h crs))%N.

Definition aggregation_key_is_well_formed (ak : AggregationKey) : bool :=
  [&& size (weights ak) == ak_n ak, size (pks ak) == ak_n ak,
      size (qz_terms ak) == ak_n ak, size (qx_terms ak) == ak_n ak
    & size (qx_mul_tau_terms ak) == ak_n ak].

(** [utils::lagrange_poly(n, i).ok_or(CryptographyCatastrophe(format!(...)))?] *)
Definition lagrange_or_err (tmpl : string) (n i : nat) : outcome HError Poly_F :=
  let* o := lagrange_poly n i in
  ok_or (CryptographyCatastrophe (Msg tmpl [:: i; n])) o.

Definition lagrange_i : nat -> nat -> outcome HError Poly_F :=
  lagrange_or_err "Unable to compute Lagrange<n,i>(x) for i = {}, n = {}".
Definition lagrange_j : nat -> nat -> outcome HError Poly_F :=
  lagrange_or_err "Unable to compute Lagrange<n,j>(x) for j = {}, n = {}".

Definition interpolate (evals : seq F) : outcome HError Poly_F :=
  ok_or (CryptographyCatastrophe
           (Msg "Unable to construct Radix2EvaluationDomain for n = {}" [:: size evals]))
        (interpolate_poly_over_mult_subgroup evals).

Definition running_sums (ws bitmap : seq F) : seq F :=
  scanl (fun sum wb => sum + wb.2 * wb.1) 0%:R (zip ws bitmap).

Definition merge_polys (polys : seq Poly_F) (chi : F) : Poly_F :=
  foldl (fun acc p => poly_add (poly_eval_mult_c acc chi) p) (DensePoly [::]) (rev polys).

Definition merge_scalars (values : seq F) (chi : F) : F :=
  foldl (fun acc v => acc * chi + v) 0%:R (rev values).

Definition merge_points (points : seq G1) (chi : F) : G1 :=
  foldl (fun acc p => chi *: acc + p) 0 (rev points).

Definition inner_product (V : lmodType F) (elements : seq V) (bitmap : seq F) : V :=
  foldl +%R 0 [seq x.1 | x <- [seq x <- zip elements bitmap | x.2 == 1%:R]].

Definition add (V : lmodType F) (elements : seq V) : V := foldl +%R 0 elements.

Definition hash_to_g2 (msg : bytes) : outcome HError G2 :=
  let* g2_mapper := lift_hashing (curve_hasher_new DST_G2) in
  lift_hashing (curve_hash g2_mapper msg).

Definition preprocess_qz_contributions (q1_contributions : seq (seq G1))
    : outcome HError (seq G1) :=
  let n := size q1_contributions in
  mapM (fun i =>
    let* row_i := vec_get q1_contributions i in
    let* party_i_q1_com := vec_get row_i i in
    foldM (fun party_i_q1_com j =>
      if i != j then
        let* row_j := vec_get q1_contributions j in
        let* party_j_contribution := vec_get row_j i in
        Ok (party_i_q1_com + party_j_contribution)
      else Ok party_i_q1_com) party_i_q1_com (iota 0 n)) (iota 0 n).

(** ** Proof of possession *)

Definition proof_of_knowledge_random_oracle (g statement commitment : G1) : outcome HError F :=
  let* b1 := lift_encoding (compressed g) in
  let* b2 := lift_encoding (compressed statement) in
  let* b3 := lift_encoding (compressed commitment) in
  Ok (hash_to_field POP_DST (b1 ++ b2 ++ b3)).

Definition generate_proof_of_knowledge (x : F) (seed : bytes) : outcome HError ProofOfPossesion :=
  let g := generator G1 in
  let statement := x *: g in
  let r := (rand_F (from_seed seed)).1 in
  let commitment := r *: g in
  let* challenge := proof_of_knowledge_random_oracle g statement commitment in
  let response := r + challenge * x in
  Ok (MkProofOfPossesion commitment challenge response).

Definition verify_proof_of_knowledge (pok : ProofOfPossesion) (pubkey : PublicKey)
    : outcome HError bool :=
  let g := generator G1 in
  let* ch := proof_of_knowledge_random_oracle g pubkey (commitment pok) in
  let lhs := response pok *: g in
  let rhs := commitment pok + challenge pok *: pubkey in
  Ok ((lhs == rhs) && (ch == challenge pok)).

(** ** Transcript rounds *)

Definition absorb_round_1 (t : Transcript) (vk : VerificationKey) (agg_pk : G1) (agg_weight : F)
    (b_of_tau_com parsum_of_tau_com qx_of_tau_com qz_of_tau_com qx_of_tau_mul_tau_com : G1)
    : outcome HError Transcript :=
  let* t := Tr.absorb t vk in
  let* t := Tr.absorb t agg_pk in
  let* t := Tr.absorb t agg_weight in
  let* t := Tr.absorb t b_of_tau_com in
  let* t := Tr.absorb t parsum_of_tau_com in
  let* t := Tr.absorb t qx_of_tau_com in
  let* t := Tr.absorb t qz_of_tau_com in
  Tr.absorb t qx_of_tau_mul_tau_com.

Definition absorb_round_2 (t : Transcript) (q_mrg_of_tau_com : G1) : outcome HError Transcript :=
  Tr.absorb t q_mrg_of_tau_com.

Definition absorb_round_3 (t : Transcript)
    (parsum_of_r parsum_of_r_div_omega w_of_r b_of_r q_mrg_of_r : F) : outcome HError Transcript :=
  let* t := Tr.absorb t parsum_of_r in
  let* t := Tr.absorb t parsum_of_r_div_omega in
  let* t := Tr.absorb t w_of_r in
  let* t := Tr.absorb t b_of_r in
  Tr.absorb t q_mrg_of_r.

Definition derive_challenges (vk : VerificationKey) (pi : ThresholdSignature)
    : outcome HError (F * F * F) :=
  let* t := absorb_round_1 Tr.new vk (agg_pk pi) (agg_weight pi) (b_of_tau_com pi)
    (parsum_of_tau_com pi) (qx_of_tau_com pi) (qz_of_tau_com pi) (qx_of_tau_mul_tau_com pi) in
  let chi_q := Tr.challenge t DST_QUOTIENT_MERGE in
  let* t := absorb_round_2 t (q_mrg_of_tau_com pi) in
  let r := Tr.challenge t DST_EVALUATION_POINT in
  let* t := absorb_round_3 t (parsum_of_r pi) (parsum_of_r_div_omega pi) (w_of_r pi)
    (b_of_r pi) (q_mrg_of_r pi) in
  let chi_op := Tr.challenge t DST_OPENING_BATCH in
  Ok (chi_q, r, chi_op).

(** ** The verifier's checks *)

Definition verify_opening (vp : VerificationKey) (commitment : G1) (point evaluation : F)
    (opening_proof : G1) : bool :=
  let eval_com := evaluation *: g_0 vp in
  let point_com := point *: h_0 vp in
  let lhs := pairing (commitment - eval_com) (h_0 vp) in
  let rhs := pairing opening_proof (h_1 vp - point_com) in
  lhs == rhs.

Definition bls_check (msg : bytes) (vk : VerificationKey) (pi : ThresholdSignature)
    : outcome HError bool :=
  let* h := hash_to_g2 msg in
  let lhs := pairing (agg_pk pi) h in
  let rhs := pairing (g_0 vk) (agg_sig pi) in
  Ok (lhs == rhs).

Definition merged_relation_check (vk : VerificationKey) (pi : ThresholdSignature)
    (omega chi_q r : F) : outcome HError bool :=
  let vanishing_of_r := r ^+ vk_n vk - 1%:R in
  if vanishing_of_r == 0%:R then Ok false else
  let omega_pow_n_minus_1 := omega ^+ (vk_n vk - 1) in
  let* a := field_div omega_pow_n_minus_1 (vk_n vk)%:R in
  let* b := field_div vanishing_of_r (r - omega_pow_n_minus_1) in
  let l_n_minus_1_of_r := a * b in
  let p1 := parsum_of_r pi - parsum_of_r_div_omega pi
            - (w_of_r pi - agg_weight pi * l_n_minus_1_of_r) * b_of_r pi in
  let p2 := b_of_r pi * b_of_r pi - b_of_r pi in
  let p3 := l_n_minus_1_of_r * parsum_of_r pi in
  let p4 := l_n_minus_1_of_r * (b_of_r pi - 1%:R) in
  Ok (merge_scalars [:: p1; p2; p3; p4] chi_q == q_mrg_of_r pi * vanishing_of_r).

Definition opening_at_r_check (vk : VerificationKey) (pi : ThresholdSignature) (r chi_op : F)
    : bool :=
  let q_of_tau_com := merge_points
    [:: q_mrg_of_tau_com pi; parsum_of_tau_com pi; b_of_tau_com pi; w_of_tau_com vk] chi_op in
  let q_of_r := merge_scalars [:: q_mrg_of_r pi; parsum_of_r pi; b_of_r pi; w_of_r pi] chi_op in
  verify_opening vk q_of_tau_com r q_of_r (opening_proof_r pi).

Definition opening_at_r_div_omega_check (vk : VerificationKey) (pi : ThresholdSignature)
    (r_div_omega : F) : bool :=
  verify_opening vk (parsum_of_tau_com pi) r_div_omega (parsum_of_r_div_omega pi)
    (opening_proof_r_div_omega pi).

Definition sumcheck_check (vk : VerificationKey) (pi : ThresholdSignature) (e_qx_tau : GT) : bool :=
  let lhs := pairing (b_of_tau_com pi) (sk_of_tau_com vk) in
  let x1 := pairing (qz_of_tau_com pi) (z_of_tau_com vk) in
  let x3 := pairing (agg_pk pi) (h_0 vk) in
  lhs == x1 + e_qx_tau + x3.

Definition degree_check (vk : VerificationKey) (pi : ThresholdSignature) (e_qx_tau : GT) : bool :=
  e_qx_tau == pairing (qx_of_tau_mul_tau_com pi) (h_0 vk).

(** [a > b] on the scalar field compares canonical representatives. *)
Definition field_gt (a b : F) : bool := (into_bigint b < into_bigint a)%N.

End Helpers.

(** ** Witness and proof of the aggregator *)
Section Aggregator.
Context {E : Engine}.

(** The body of the loop of [assemble_witness] over the partial signatures. *)
Definition set_bit (n : nat) (bitmap : seq F) (entry : nat * PartialSignature)
    : outcome HError (seq F) :=
  let: (i, _) := entry in
  let* n_2 := usize_sub n 2 in
  fail_if (n_2 < i)%N
    with InvalidInput (Msg "Invalid party ID {}: must be <= n - 2 ({})" [:: i; n_2]);;
  vec_set bitmap i 1%:R.

Definition assemble_witness (ak : AggregationKey)
    (partial_signatures : seq (nat * PartialSignature)) : outcome HError Witness :=
  let n := ak_n ak in
  let* n_inv := field_div 1%:R n%:R in
  let* bitmap := foldM (set_bit n) (nseq n 0%:R) partial_signatures in
  let agg_weight := foldl (fun acc bw => acc + bw.1 * bw.2) 0%:R (zip bitmap (weights ak)) in
  let* n_1 := usize_sub n 1 in
  let* bitmap := vec_set bitmap n_1 1%:R in
  let* ws := vec_set (weights ak) n_1 (0%:R - agg_weight) in
  let parsum := running_sums ws bitmap in
  let agg_pk := n_inv *: inner_product (pks ak) bitmap in
  let agg_sig := n_inv *: add [seq entry.2 | entry <- partial_signatures] in
  let qz_of_tau_com := inner_product (qz_terms ak) bitmap in
  let qx_of_tau_com := inner_product (qx_terms ak) bitmap in
  let qx_of_tau_mul_tau_com := inner_product (qx_mul_tau_terms ak) bitmap in
  Ok {| wit_bitmap := bitmap; wit_parsum := parsum; wit_agg_weight := agg_weight;
        wit_agg_pk := agg_pk; wit_agg_sig := agg_sig; wit_qz_of_tau_com := qz_of_tau_com;
        wit_qx_of_tau_com := qx_of_tau_com;
        wit_qx_of_tau_mul_tau_com := qx_of_tau_mul_tau_com |}.

(** The four relations P1..P4 of [prove], as polynomials. *)
Definition relations (b_of_x psw_of_x w_of_x l_n_minus_1_of_x : Poly_F) (omega agg_weight : F)
    : outcome HError (seq Poly_F) :=
  let* omega_inv := field_div 1%:R omega in
  let* psw_of_x_div_omega := poly_domain_mult_omega psw_of_x omega_inv in
  let w_adj_of_x := poly_sub w_of_x (poly_eval_mult_c l_n_minus_1_of_x agg_weight) in
  let one := compute_constant_poly 1%:R in
  let p1_of_x := poly_sub (poly_sub psw_of_x psw_of_x_div_omega) (poly_mul w_adj_of_x b_of_x) in
  let p2_of_x := poly_sub (poly_mul b_of_x b_of_x) b_of_x in
  let p3_of_x := poly_mul l_n_minus_1_of_x psw_of_x in
  let p4_of_x := poly_mul l_n_minus_1_of_x (poly_sub b_of_x one) in
  Ok [:: p1_of_x; p2_of_x; p3_of_x; p4_of_x].

Definition prove (crs : CRS) (ak : AggregationKey) (vk : VerificationKey) (witness : Witness)
    : outcome HError (ThresholdSignature * bool) :=
  let n := ak_n ak in
  let* domain := ok_or (CryptographyCatastrophe
      (Msg "Unable to construct Radix2EvaluationDomain for n = {}" [:: n])) (domain_new n) in
  let omega := group_gen domain in
  let* b_of_x := interpolate (wit_bitmap witness) in
  let* psw_of_x := interpolate (wit_parsum witness) in
  let* w_of_x := interpolate (weights ak) in
  let* n_1 := usize_sub n 1 in
  let* l_n_minus_1_of_x := lagrange_i n n_1 in
  let* b_of_tau_com := KZG10.commit_g1 crs b_of_x in
  let* parsum_of_tau_com := KZG10.commit_g1 crs psw_of_x in
  let* t := absorb_round_1 Tr.new vk (wit_agg_pk witness) (wit_agg_weight witness) b_of_tau_com
    parsum_of_tau_com (wit_qx_of_tau_com witness) (wit_qz_of_tau_com witness)
    (wit_qx_of_tau_mul_tau_com witness) in
  let chi_q := Tr.challenge t DST_QUOTIENT_MERGE in
  let* ps := relations b_of_x psw_of_x w_of_x l_n_minus_1_of_x omega (wit_agg_weight witness) in
  let p_mrg_of_x := merge_polys ps chi_q in
  let: (q_mrg_of_x, remainder) := divide_by_vanishing_poly p_mrg_of_x domain in
  let exact := all (fun c => c == 0%:R) (coeffs remainder) in
  let* q_mrg_of_tau_com := KZG10.commit_g1 crs q_mrg_of_x in
  let* t := absorb_round_2 t q_mrg_of_tau_com in
  let r := Tr.challenge t DST_EVALUATION_POINT in
  let* r_div_omega := field_div r omega in
  let parsum_of_r := evaluate psw_of_x r in
  let parsum_of_r_div_omega := evaluate psw_of_x r_div_omega in
  let w_of_r := evaluate w_of_x r in
  let b_of_r := evaluate b_of_x r in
  let q_mrg_of_r := evaluate q_mrg_of_x r in
  let* t := absorb_round_3 t parsum_of_r parsum_of_r_div_omega w_of_r b_of_r q_mrg_of_r in
  let chi_op := Tr.challenge t DST_OPENING_BATCH in
  let q_of_x := merge_polys [:: q_mrg_of_x; psw_of_x; b_of_x; w_of_x] chi_op in
  let* opening_proof_r := KZG10.compute_opening_proof crs q_of_x r in
  let* opening_proof_r_div_omega := KZG10.compute_opening_proof crs psw_of_x r_div_omega in
  Ok ({| agg_pk := wit_agg_pk witness;
         agg_weight := wit_agg_weight witness;
         agg_sig := wit_agg_sig witness;
         b_of_tau_com := b_of_tau_com;
         qx_of_tau_com := wit_qx_of_tau_com witness;
         qx_of_tau_mul_tau_com := wit_qx_of_tau_mul_tau_com witness;
         qz_of_tau_com := wit_qz_of_tau_com witness;
         parsum_of_tau_com := parsum_of_tau_com;
         q_mrg_of_tau_com := q_mrg_of_tau_com;
         opening_proof_r := opening_proof_r;
         opening_proof_r_div_omega := opening_proof_r_div_omega;
         parsum_of_r := parsum_of_r;
         parsum_of_r_div_omega := parsum_of_r_div_omega;
         w_of_r := w_of_r;
         b_of_r := b_of_r;
         q_mrg_of_r := q_mrg_of_r |}, exact).

End Aggregator.

(** ** The public operations *)
Module HinTS.
Section Definitions.
Context {E : Engine}.

Definition keygen (seed : bytes) : outcome HError SecretKey :=
  let rng := from_seed seed in
  let: (secret_seed, rng) := fill_bytes 32 rng in
  let: (proof_seed, rng) := fill_bytes 32 rng in
  let secret := (rand_F (from_seed secret_seed)).1 in
  let* pop := generate_proof_of_knowledge secret proof_seed in
  Ok (MkSecretKey secret pop).

(** The numerator of the [j]-th Q_z term of party [i], before the division by Z. *)
Definition qz_numerator (n i : nat) (l_i_of_x : Poly_F) (j : nat) : outcome HError Poly_F :=
  if i == j then Ok (poly_sub (poly_mul l_i_of_x l_i_of_x) l_i_of_x)
  else let* l_j_of_x := lagrange_j n j in Ok (poly_mul l_j_of_x l_i_of_x).

Definition hint_gen (crs : CRS) (n i : nat) (sk_with_pop : SecretKey)
    : outcome HError ExtendedPublicKey :=
  fail_if ~~ is_n_valid n with InvalidNetworkSize n;;
  fail_if (n <= i)%N with InvalidInput (Msg "Invalid index i = {} greater than n = {}" [:: i; n]);;
  fail_if ~~ crs_supports crs n with InsufficientCRS n;;
  let sk := secret sk_with_pop in
  let* l_i_of_x := lagrange_i n i in
  let z_of_x := compute_vanishing_poly n in
  let* qz_terms := mapM (fun j =>
      let* num := qz_numerator n i l_i_of_x j in
      let f := poly_div num z_of_x in
      let sk_times_f := poly_eval_mult_c f sk in
      KZG10.commit_g1 crs sk_times_f) (iota 0 n) in
  let l_i_of_0 := evaluate l_i_of_x 0%:R in
  let l_i_of_0_poly := compute_constant_poly l_i_of_0 in
  let num := poly_sub l_i_of_x l_i_of_0_poly in
  let den := compute_x_monomial in
  let qx_term := poly_eval_mult_c (poly_div num den) sk in
  let qx_term_mul_tau := poly_eval_mult_c num sk in
  let* qx_term_com := KZG10.commit_g1 crs qx_term in
  let* qx_term_mul_tau_com := KZG10.commit_g1 crs qx_term_mul_tau in
  let sk_as_poly := compute_constant_poly sk in
  let* pk := KZG10.commit_g1 crs sk_as_poly in
  let sk_times_l_i_of_x := poly_eval_mult_c l_i_of_x sk in
  let* com_sk_l_i_g1 := KZG10.commit_g1 crs sk_times_l_i_of_x in
  let* com_sk_l_i_g2 := KZG10.commit_g2 crs sk_times_l_i_of_x in
  Ok {| epk_i := i; epk_n := n; pk_i := pk; pok_i := pop sk_with_pop;
        sk_i_l_i_of_tau_com_1 := com_sk_l_i_g1; sk_i_l_i_of_tau_com_2 := com_sk_l_i_g2;
        qz_i_terms := qz_terms; qx_i_term := qx_term_com;
        qx_i_term_mul_tau := qx_term_mul_tau_com |}.

Definition verify_hint (crs : CRS) (n i : nat) (hint : ExtendedPublicKey) : outcome HError bool :=
  fail_if ~~ is_n_valid n with InvalidNetworkSize n;;
  fail_if (n <= i)%N with InvalidInput (Msg "Invalid index i = {} greater than n = {}" [:: i; n]);;
  fail_if ~~ crs_supports crs n with InsufficientCRS n;;
  check epk_i hint == i;;
  check epk_n hint == n;;
  check n == size (qz_i_terms hint);;
  check pk_i hint != 0;;
  check sk_i_l_i_of_tau_com_1 hint != 0;;
  check sk_i_l_i_of_tau_com_2 hint != 0;;
  check qx_i_term hint != 0;;
  check qx_i_term_mul_tau hint != 0;;
  check all (fun point => point != 0) (qz_i_terms hint);;
  let* pok_ok := verify_proof_of_knowledge (pok_i hint) (pk_i hint) in
  check pok_ok;;
  let* l_i_of_x := lagrange_i n i in
  let z_of_x := compute_vanishing_poly n in
  let* l_i_of_tau_com := KZG10.commit_g2 crs l_i_of_x in
  let* h0 := vec_get (powers_of_h crs) 0 in
  let lhs := pairing (sk_i_l_i_of_tau_com_1 hint) h0 in
  let rhs := pairing (pk_i hint) l_i_of_tau_com in
  check lhs == rhs;;
  let* g0 := vec_get (powers_of_g crs) 0 in
  let lhs2 := pairing g0 (sk_i_l_i_of_tau_com_2 hint) in
  check lhs2 == rhs;;
  let* terms_ok := allM (fun j =>
      let* num := qz_numerator n i l_i_of_x j in
      let f := poly_div num z_of_x in
      let* f_com := KZG10.commit_g2 crs f in
      let* term := vec_get (qz_i_terms hint) j in
      let* h0 := vec_get (powers_of_h crs) 0 in
      let lhs := pairing term h0 in
      let rhs := pairing (pk_i hint) f_com in
      Ok (lhs == rhs)) (iota 0 n) in
  check terms_ok;;
  let l_i_of_0 := evaluate l_i_of_x 0%:R in
  let l_i_of_0_poly := compute_constant_poly l_i_of_0 in
  let num := poly_sub l_i_of_x l_i_of_0_poly in
  let den := compute_x_monomial in
  let qx_term := poly_div num den in
  let* qx_term_com := KZG10.commit_g2 crs qx_term in
  let lhs := pairing (qx_i_term hint) h0 in
  let rhs := pairing (pk_i hint) qx_term_com in
  check lhs == rhs;;
  let qx_term_mul_tau := num in
  let* qx_term_mul_tau_com := KZG10.commit_g2 crs qx_term_mul_tau in
  let lhs := pairing (qx_i_term_mul_tau hint) h0 in
  let rhs := pairing (pk_i hint) qx_term_mul_tau_com in
  check lhs == rhs;;
  Ok true.

(** [signer_info.get(&i)] *)
Definition hashmap_get (V : Type) (m : seq (nat * V)) (i : nat) : option V :=
  omap snd (ohead [seq kv <- m | kv.1 == i]).

(** The body of the loop of [preprocess] that collects weights and hints. *)
Definition preprocess_slot (n : nat) (crs : CRS)
    (signer_info : seq (nat * (Weight * ExtendedPublicKey))) (i : nat)
    : outcome HError (Weight * ExtendedPublicKey) :=
  match hashmap_get signer_info i with
  | Some (weight, hint) =>
      fail_if epk_n hint != n
        with InvalidInput (Msg "Invalid hint: got hint.n = {}, expected n = {}" [:: epk_n hint; n]);;
      let* ok := verify_hint crs n i hint in
      fail_if ~~ ok
        with InvalidInput (Msg "Invalid hint: hint verification failed for i = {}" [:: i]);;
      Ok (weight, hint)
  | None =>
      let zero := 0%:R in
      let* pop := generate_proof_of_knowledge zero (nseq RANDOM_SIZE x00) in
      let zero_sk := MkSecretKey zero pop in
      let* hint := hint_gen crs n i zero_sk in
      Ok (0%:R, hint)
  end.

(** The vectors [preprocess] scatters the hints into, by their index. *)
Record Contributions := MkContributions {
  qz_contributions : seq (seq G1);
  qx_contributions : seq G1;
  qx_mul_tau_contributions : seq G1;
  c_pks : seq G1;
  sk_l_of_tau_coms : seq G2
}.

Definition scatter (c : Contributions) (hint : ExtendedPublicKey) : outcome HError Contributions :=
  let* qz := vec_set (qz_contributions c) (epk_i hint) (qz_i_terms hint) in
  let* qx := vec_set (qx_contributions c) (epk_i hint) (qx_i_term hint) in
  let* qxt := vec_set (qx_mul_tau_contributions c) (epk_i hint) (qx_i_term_mul_tau hint) in
  let* pks := vec_set (c_pks c) (epk_i hint) (pk_i hint) in
  let* skl := vec_set (sk_l_of_tau_coms c) (epk_i hint) (sk_i_l_i_of_tau_com_2 hint) in
  Ok (MkContributions qz qx qxt pks skl).

Definition preprocess (n : nat) (crs : CRS)
    (signer_info : seq (nat * (Weight * ExtendedPublicKey)))
    : outcome HError (VerificationKey * AggregationKey) :=
  fail_if ~~ is_n_valid n with InvalidNetworkSize n;;
  fail_if (n < size signer_info + 1)%N with InvalidNetworkSize n;;
  match ohead [seq i <- [seq kv.1 | kv <- signer_info] | (n - 1 <= i)%N] with
  | Some party_id =>
      Err (InvalidInput (Msg "party index {} is not below the reserved index {}"
                             [:: party_id; (n - 1)%N]))
  | None =>
      fail_if ~~ crs_supports crs n with InsufficientCRS n;;
      let* slots := mapM (preprocess_slot n crs signer_info) (iota 0 n) in
      let ws := [seq s.1 | s <- slots] in
      let epks := [seq s.2 | s <- slots] in
      let* w_of_x := ok_or (CryptographyCatastrophe
          (Msg "Unable to construct Radix2EvaluationDomain for n = {}" [:: size ws]))
        (interpolate_poly_over_mult_subgroup ws) in
      let* c := foldM scatter (MkContributions (nseq n [::]) (nseq n 0) (nseq n 0) (nseq n 0)
                                               (nseq n 0)) epks in
      let z_of_x := compute_vanishing_poly n in
      let* l_n_minus_1_of_x := lagrange_i n (n - 1) in
      let total_weight := foldl +%R 0%:R ws in
      let* g_0 := vec_get (powers_of_g crs) 0 in
      let* h_0 := vec_get (powers_of_h crs) 0 in
      let* h_1 := vec_get (powers_of_h crs) 1 in
      let* l_com := KZG10.commit_g1 crs l_n_minus_1_of_x in
      let* w_com := KZG10.commit_g1 crs w_of_x in
      let sk_com := add (sk_l_of_tau_coms c) in
      let* z_com := KZG10.commit_g2 crs z_of_x in
      let vk := {| vk_n := n; total_weight := total_weight; g_0 := g_0; h_0 := h_0; h_1 := h_1;
                   l_n_minus_1_of_tau_com := l_com; w_of_tau_com := w_com;
                   sk_of_tau_com := sk_com; z_of_tau_com := z_com |} in
      let* qz := preprocess_qz_contributions (qz_contributions c) in
      let ak := {| ak_n := n; weights := ws; pks := c_pks c; qz_terms := qz;
                   qx_terms := qx_contributions c;
                   qx_mul_tau_terms := qx_mul_tau_contributions c |} in
      fail_if ~~ aggregation_key_is_well_formed ak
        with CryptographyCatastrophe
          (Msg "preprocess produced an inconsistent aggregation key for n = {}" [:: n]);;
      Ok (vk, ak)
  end.

Definition sign (msg : bytes) (sk : SecretKey) : outcome HError PartialSignature :=
  let* h := hash_to_g2 msg in
  Ok (secret sk *: h).

Definition partial_verify (msg : bytes) (ak : AggregationKey) (party_id : nat)
    (sig : PartialSignature) : outcome HError bool :=
  fail_if ~~ is_n_valid (ak_n ak) with InvalidNetworkSize (ak_n ak);;
  fail_if ~~ aggregation_key_is_well_formed ak
    with InvalidInput (Msg "malformed aggregation key: n = {}" [:: ak_n ak]);;
  fail_if (ak_n ak - 1 <= party_id)%N
    with InvalidInput (Msg "signer_id {} out of range" [:: party_id]);;
  let* pk := vec_get (pks ak) party_id in
  check pk != 0;;
  check sig != 0;;
  let* h := hash_to_g2 msg in
  let lhs := pairing pk h in
  let rhs := pairing (generator G1) sig in
  Ok (lhs == rhs).

Definition partial_verify_batch (r : F) (msg : bytes) (ak : AggregationKey)
    (signer_ids : seq nat) (signatures : seq PartialSignature) : outcome HError bool :=
  fail_if ~~ is_n_valid (ak_n ak) with InvalidNetworkSize (ak_n ak);;
  fail_if ~~ aggregation_key_is_well_formed ak
    with InvalidInput (Msg "malformed aggregation key: n = {}" [:: ak_n ak]);;
  fail_if size signer_ids != size signatures
    with InvalidInput (Msg "signer_ids and signatures must be of the same size" [::]);;
  fail_if nilp signer_ids with InvalidInput (Msg "signer_ids must not be empty" [::]);;
  fail_if has (fun id => ak_n ak - 1 <= id)%N signer_ids
    with InvalidInput (Msg "One or more signer_ids are out of range" [::]);;
  let* pks_ok := allM (fun id => let* pk := vec_get (pks ak) id in Ok (pk != 0)) signer_ids in
  check pks_ok;;
  check all (fun sig => sig != 0) signatures;;
  let coefficients := traject (fun c => c * r) 1%:R (size signatures) in
  let* pks := mapM (fun x => vec_get (pks ak) x) signer_ids in
  let apk := msm_unchecked pks coefficients in
  let agg_sig := msm_unchecked signatures coefficients in
  let* h := hash_to_g2 msg in
  let lhs := pairing apk h in
  let rhs := pairing (generator G1) agg_sig in
  Ok (lhs == rhs).

Definition aggregate (crs : CRS) (ak : AggregationKey) (vk : VerificationKey)
    (partial_signatures : seq (nat * PartialSignature)) : outcome HError ThresholdSignature :=
  let n := ak_n ak in
  fail_if ~~ aggregation_key_is_well_formed ak
    with InvalidInput (Msg "malformed aggregation key: n = {}" [:: n]);;
  fail_if ~~ crs_supports crs n with InsufficientCRS n;;
  fail_if ~~ is_n_valid n with InvalidNetworkSize n;;
  let* witness := assemble_witness ak partial_signatures in
  let* (pi, exact) := prove crs ak vk witness in
  fail_if ~~ exact
    with InvalidInput (Msg "aggregation inputs do not satisfy the hinTS relations" [::]);;
  Ok pi.

Definition verify (msg : bytes) (vk : VerificationKey) (pi : ThresholdSignature)
    (fraction : F * F) : outcome HError bool :=
  check is_n_valid (vk_n vk);;
  check agg_pk pi != 0;;
  check agg_sig pi != 0;;
  let: (numerator, denominator) := fraction in
  check field_gt (denominator * agg_weight pi) (numerator * total_weight vk);;
  let* bls := bls_check msg vk pi in
  check bls;;
  let* omega := ok_or (CryptographyCatastrophe
      (Msg "Unable to construct Radix2EvaluationDomain for n = {}" [:: vk_n vk]))
    (nth_root_of_unity (vk_n vk)) in
  let* (chi_q, r, chi_op) := derive_challenges vk pi in
  let* mrc := merged_relation_check vk pi omega chi_q r in
  check mrc;;
  check opening_at_r_check vk pi r chi_op;;
  let* r_div_omega := field_div r omega in
  check opening_at_r_div_omega_check vk pi r_div_omega;;
  let e_qx_tau := pairing (qx_of_tau_com pi) (h_1 vk) in
  check sumcheck_check vk pi e_qx_tau;;
  check degree_check vk pi e_qx_tau;;
  Ok true.

End Definitions.
End HinTS.
