(* ===== verification/HintSound.v ===== *)
(** * Hints: what [hint_gen] produces and what [verify_hint] accepts *)
From S2P Require Import Prelude Errors Engine PolyFacts SeqFacts Utils Kzg Transcript Hints.
From S2P Require Import ToyEngine Ceremony.
From mathcomp Require Import ssreflect ssrfun ssrbool eqtype ssrnat seq div.
From mathcomp Require Import fintype bigop ssralg poly polydiv ring_tactic.
Import GRing.Theory.
Set Warnings "-rewrite-rw".
Set Implicit Arguments.
Unset Strict Implicit.
Unset Printing Implicit Defensive.
Local Open Scope ring_scope.

(** ** The hint in the exponent *)
Section Spec.
Variables (K : fieldType) (n : nat) (w : K).

(** (L_i^2 - L_i) / Z and L_j L_i / Z *)
Definition QZ (i j : nat) : {poly K} :=
  (if i == j then Lag n w i * Lag n w i - Lag n w i else Lag n w j * Lag n w i) %/ Zn K n.

(** (L_i - L_i(0)) / X *)
Definition QX (i : nat) : {poly K} := (Lag n w i - ((Lag n w i).[0])%:P) %/ 'X.

Hypothesis w_prim : n.-primitive_root w.

Lemma QZ_mul i j : (i < n)%N -> (j < n)%N ->
  QZ i j * Zn K n = Lag n w i * Lag n w j - (i == j)%:R *: Lag n w i.
Proof.
move=> lti ltj; rewrite /QZ; case: eqP => [<-|/eqP ne].
  by rewrite divpK ?dvd_Lag_sqr // scale1r.
by rewrite divpK ?dvd_Lag_mul // scale0r subr0 mulrC.
Qed.

Lemma QX_mul i : QX i * 'X = Lag n w i - (n%:R^-1)%:P.
Proof. by rewrite /QX divpK ?dvd_X_Lag // Lag_at0. Qed.

Lemma size_num_le i j :
  (size (if i == j then Lag n w i * Lag n w i - Lag n w i else Lag n w j * Lag n w i)%R
    <= (n + n).-1)%N.
Proof.
have n0 := prim_order_gt0 w_prim.
have H k l : (size (Lag n w k * Lag n w l)%R <= (n + n).-1)%N.
  by apply: leq_trans (size_polyMleq _ _) _; rewrite !size_Lag.
case: eqP => // _; apply: leq_trans (size_polyD _ _) _; rewrite geq_max H /= size_polyN size_Lag //.
by case: n n0 => // k _; rewrite addSn /= leq_addl.
Qed.

Lemma size_QZ i j : (size (QZ i j) <= n)%N.
Proof.
have n0 := prim_order_gt0 w_prim.
rewrite /QZ size_divp ?(Zn_neq0 w_prim) // (size_Zn w_prim) leq_subLR /=.
apply: leq_trans (size_num_le i j) _.
exact: leq_pred.
Qed.

Lemma size_Lag_sub i (c : K) : (size (Lag n w i - c%:P)%R <= n)%N.
Proof.
have n0 := prim_order_gt0 w_prim.
apply: leq_trans (size_polyD _ _) _; rewrite geq_max size_Lag // leqnn /= size_polyN.
exact: leq_trans (size_polyC_leq1 _) n0.
Qed.

Lemma size_QX i : (size (QX i) <= n)%N.
Proof.
rewrite /QX size_divp ?polyX_eq0 // size_polyX; apply: leq_trans (leq_subr _ _) _.
exact: size_Lag_sub.
Qed.

End Spec.

(** The hint of the secret [sk] at slot [i]. *)
Definition honest_hint {E : Engine} (tau : F) (n : nat) (w : F) (i : nat) (sk : F)
    (pop : ProofOfPossesion) : ExtendedPublicKey := {|
  epk_i := i;
  epk_n := n;
  pk_i := sk *: generator G1;
  pok_i := pop;
  sk_i_l_i_of_tau_com_1 := (sk * (Lag n w i).[tau]) *: generator G1;
  sk_i_l_i_of_tau_com_2 := (sk * (Lag n w i).[tau]) *: generator G2;
  qz_i_terms := mkseq (fun j => (sk * (QZ n w i j).[tau]) *: generator G1) n;
  qx_i_term := (sk * (QX n w i).[tau]) *: generator G1;
  qx_i_term_mul_tau := (sk * ((Lag n w i).[tau] - (Lag n w i).[0])) *: generator G1
|}.

(** A well-formed string that supports a universe of [n] slots. *)
Record universe {E : Engine} (tau : F) (crs : CRS) (n : nat) (d : Domain_F) : Prop := {
  u_crs : exists2 m, wf_crs tau m crs & (n < m)%N;
  u_valid : is_n_valid n;
  u_domain : domain_new n = Some d
}.

(** The degeneracy checks of [verify_hint]. *)
Definition nonzero_terms {E : Engine} (hint : ExtendedPublicKey) : bool :=
  [&& pk_i hint != 0, sk_i_l_i_of_tau_com_1 hint != 0, sk_i_l_i_of_tau_com_2 hint != 0,
      qx_i_term hint != 0, qx_i_term_mul_tau hint != 0
    & all (fun point => point != 0) (qz_i_terms hint)].

Section Facts.
Context {E : Engine} {L : EngineLaws E}.
Variables (tau : F) (crs : CRS) (n : nat) (d : Domain_F).
Hypothesis U : universe tau crs n d.

Abbreviation w := (group_gen d).

Lemma u_prim : n.-primitive_root w.
Proof. by have [] := is_n_valid_domain (u_valid U) (u_domain U). Qed.

Lemma u_gt1 : (1 < n)%N.
Proof. by have /andP[] := u_valid U. Qed.

Lemma u_gt0 : (0 < n)%N.
Proof. exact: ltnW u_gt1. Qed.

Lemma u_supports : crs_supports crs n.
Proof.
by case: (u_crs U) => m [gE hE] lt; rewrite /crs_supports gE hE !size_mkseq lt.
Qed.

Lemma u_commit_g1 p : regular p -> (size (polyOf p) <= n)%N ->
  KZG10.commit_g1 crs p = Ok ((polyOf p).[tau] *: generator G1).
Proof.
case: (u_crs U) => m wf lt pr le; apply: (commit_g1E wf) => //.
  exact: leq_trans lt.
exact: leq_trans le (ltnW lt).
Qed.

Lemma u_commit_g2 p : regular p -> (size (polyOf p) <= n.+1)%N ->
  KZG10.commit_g2 crs p = Ok ((polyOf p).[tau] *: generator G2).
Proof.
case: (u_crs U) => m wf lt pr le; apply: (commit_g2E wf) => //.
  exact: leq_trans lt.
exact: leq_trans le lt.
Qed.

Lemma u_g0 : vec_get (powers_of_g crs) 0 = Ok (generator G1) :> outcome HError _.
Proof.
case: (u_crs U) => -[|m] [gE _] lt //; rewrite gE (vec_get_lt _ 0) ?size_mkseq //.
by rewrite nth_mkseq // expr0 scale1r.
Qed.

Lemma u_h0 : vec_get (powers_of_h crs) 0 = Ok (generator G2) :> outcome HError _.
Proof.
case: (u_crs U) => -[|m] [_ hE] lt //; rewrite hE (vec_get_lt _ 0) ?size_mkseq //.
by rewrite nth_mkseq // expr0 scale1r.
Qed.

Lemma u_h1 : vec_get (powers_of_h crs) 1 = Ok (tau *: generator G2) :> outcome HError _.
Proof.
case: (u_crs U) => m [_ hE] lt; have lt1 := ltn_trans u_gt1 lt.
by rewrite hE (vec_get_lt _ 0) ?size_mkseq // nth_mkseq.
Qed.

Lemma lagrange_or_errE tmpl i : exists p, [/\ lagrange_or_err tmpl n i = Ok p, regular p &
  polyOf p = Lag n w i].
Proof.
rewrite /lagrange_or_err.
by have [p [-> pr pE]] := @lagrange_polyE E L HError n i d (u_valid U) (u_domain U); exists p.
Qed.

Lemma lagrange_iE i : exists p, [/\ lagrange_i n i = Ok p, regular p & polyOf p = Lag n w i].
Proof. exact: lagrange_or_errE. Qed.

Lemma lagrange_jE i : exists p, [/\ lagrange_j n i = Ok p, regular p & polyOf p = Lag n w i].
Proof. exact: lagrange_or_errE. Qed.

Lemma qz_numeratorE i j l_i : regular l_i -> polyOf l_i = Lag n w i ->
  exists f, [/\ HinTS.qz_numerator n i l_i j = Ok f, regular f &
    polyOf f = if i == j then Lag n w i * Lag n w i - Lag n w i else Lag n w j * Lag n w i].
Proof.
move=> lr lE; rewrite /HinTS.qz_numerator; case: eqP => _.
  have mr : regular (poly_mul l_i l_i) by exact: poly_mul_reg.
  by eexists; split; [by []|exact: poly_sub_reg|rewrite poly_subE // poly_mulE // lE].
have [p [-> pr pE]] := lagrange_jE j.
by eexists; split; [by []|exact: poly_mul_reg|rewrite poly_mulE // pE lE].
Qed.

(** The quotient of a Q_z numerator. *)
Lemma qz_quotientE i j l_i : regular l_i -> polyOf l_i = Lag n w i ->
  exists num, [/\ HinTS.qz_numerator n i l_i j = Ok num,
    regular (poly_div num (compute_vanishing_poly n)) &
    polyOf (poly_div num (compute_vanishing_poly n)) = QZ n w i j].
Proof.
move=> lr lE; have [f [-> fr fE]] := qz_numeratorE j lr lE; exists f.
have zE := compute_vanishing_polyE u_gt0; have zr := compute_vanishing_poly_reg n.
have z0 : polyOf (compute_vanishing_poly n) != 0 by rewrite zE (Zn_neq0 u_prim).
by split; [by []|exact: poly_div_reg|rewrite poly_divE // zE fE].
Qed.

(** The numerator and the quotient of the Q_x term. *)
Lemma qx_numeratorE i l_i : regular l_i -> polyOf l_i = Lag n w i ->
  let num := poly_sub l_i (compute_constant_poly (evaluate l_i 0%:R)) in
  [/\ regular num, polyOf num = Lag n w i - ((Lag n w i).[0])%:P,
      regular (poly_div num compute_x_monomial) &
      polyOf (poly_div num compute_x_monomial) = QX n w i].
Proof.
move=> lr lE num.
have nr : regular num by apply: poly_sub_reg => //; exact: compute_constant_poly_reg.
have nE : polyOf num = Lag n w i - ((Lag n w i).[0])%:P.
  by rewrite poly_subE ?compute_constant_poly_reg // compute_constant_polyE evaluateE lE.
have xr : regular compute_x_monomial by exact: regular_linear.
have x0 : polyOf compute_x_monomial != 0 by rewrite compute_x_monomialE polyX_eq0.
by split=> //; [exact: poly_div_reg|rewrite poly_divE // nE compute_x_monomialE].
Qed.


Lemma u_commit_scaled p k : regular p -> (size (polyOf p) <= n)%N ->
  KZG10.commit_g1 crs (poly_eval_mult_c p k) = Ok ((k * (polyOf p).[tau]) *: generator G1).
Proof.
move=> pr le; rewrite u_commit_g1 ?poly_eval_mult_c_reg ?poly_eval_mult_cE ?hornerZ //.
exact: leq_trans (size_scale_leq _ _) le.
Qed.

Lemma hint_genE i sk : (i < n)%N ->
  HinTS.hint_gen crs n i sk = Ok (honest_hint tau n w i (secret sk) (pop sk)).
Proof.
move=> lti; have w_prim := u_prim; have n0 := u_gt0.
rewrite /HinTS.hint_gen (u_valid U) leqNgt lti u_supports /=.
have [l [-> lr lE]] := lagrange_iE i; have lsz : (size (polyOf l) <= n)%N by rewrite lE size_Lag.
rewrite [bind (Ok l) _]/=.
rewrite (mapM_ok (g := fun j => (secret sk * (QZ n w i j).[tau]) *: generator G1)) /=.
  move=> j; rewrite mem_iota add0n /= => ltj.
  have [num [-> qr qE]] := qz_quotientE j lr lE; rewrite /= u_commit_scaled ?qE //.
  exact: size_QZ.
have [nr nE qr qE] := qx_numeratorE lr lE.
rewrite !u_commit_scaled ?qE ?nE ?size_QX ?size_Lag_sub //=.
rewrite u_commit_g1 ?compute_constant_poly_reg ?compute_constant_polyE //=.
  exact: leq_trans (size_polyC_leq1 _) n0.
rewrite u_commit_g2 ?poly_eval_mult_c_reg ?poly_eval_mult_cE //=.
  exact: leq_trans (size_scale_leq _ _) (leqW lsz).
by rewrite lE hornerC hornerZ hornerD hornerN hornerC.
Qed.

(** Equality of pairings against the generators is equality of exponents. *)
Lemma pairing_term (P : G1) (s x : F) :
  (pairing P (generator G2) == pairing (s *: generator G1) (x *: generator G2)) =
  (P == (s * x) *: generator G1).
Proof.
have -> : pairing (s *: generator G1) (x *: generator G2) =
    pairing ((s * x) *: generator G1) (generator G2) by rewrite !pairingZl pairingZr scalerA.
by apply/eqP/eqP => [/pairing_inj_l|->].
Qed.

Lemma pairing_term2 (Q : G2) (s x : F) :
  (pairing (generator G1) Q == pairing (s *: generator G1) (x *: generator G2)) =
  (Q == (s * x) *: generator G2).
Proof.
have -> : pairing (s *: generator G1) (x *: generator G2) =
    pairing (generator G1) ((s * x) *: generator G2) by rewrite pairingZl !pairingZr scalerA.
by apply/eqP/eqP => [/pairing_inj_r|->].
Qed.

Lemma verify_hintE i hint sk pok_ok : (i < n)%N -> pk_i hint = sk *: generator G1 ->
  verify_proof_of_knowledge (pok_i hint) (pk_i hint) = Ok pok_ok ->
  HinTS.verify_hint crs n i hint =
  Ok [&& epk_i hint == i, epk_n hint == n, n == size (qz_i_terms hint), nonzero_terms hint,
         pok_ok,
         sk_i_l_i_of_tau_com_1 hint == (sk * (Lag n w i).[tau]) *: generator G1,
         sk_i_l_i_of_tau_com_2 hint == (sk * (Lag n w i).[tau]) *: generator G2,
         all (fun j => (qz_i_terms hint)`_j == (sk * (QZ n w i j).[tau]) *: generator G1)
           (iota 0 n),
         qx_i_term hint == (sk * (QX n w i).[tau]) *: generator G1
       & qx_i_term_mul_tau hint ==
           (sk * ((Lag n w i).[tau] - (Lag n w i).[0])) *: generator G1].
Proof.
move=> lti pkE pokE; have w_prim := u_prim; have n0 := u_gt0.
rewrite /HinTS.verify_hint (u_valid U) leqNgt lti u_supports /nonzero_terms pokE /=.
case: (_ == i) => //=; case: (_ == n) => //=; have [szq|] //= := eqVneq n (size _).
do 5 (case: (_ != 0) => //=); case: (all _ (qz_i_terms _)) => //=; case: pok_ok pokE => //= _.
have [l [-> lr lE]] := lagrange_iE i; have lsz : (size (polyOf l) <= n)%N by rewrite lE size_Lag.
rewrite /= u_commit_g2 ?(leqW lsz) //= u_h0 u_g0 /= lE pkE pairing_term; case: (_ == _) => //=.
rewrite pairing_term2; case: (_ == _) => //=.
rewrite (allM_ok (g := fun j =>
  (qz_i_terms hint)`_j == (sk * (QZ n w i j).[tau]) *: generator G1)).
  move=> j; rewrite mem_iota add0n /= => ltj.
  have [num [-> qr qE]] := qz_quotientE j lr lE.
  rewrite /= u_commit_g2 ?qE //=; first exact: leqW (size_QZ w_prim _ _).
  by rewrite (vec_get_lt _ 0) -?szq //= pairing_term.
rewrite /=; case: (all _ _) => //=; have [nr nE qr qE] := qx_numeratorE lr lE.
rewrite u_commit_g2 ?qE //=; first exact: leqW (size_QX w_prim _).
rewrite pairing_term; case: (_ == _) => //=.
rewrite u_commit_g2 ?nE //=; first exact: leqW (size_Lag_sub w_prim _ _).
by rewrite pairing_term hornerD hornerN hornerC; case: (_ == _).
Qed.

End Facts.

(** ** Proofs of possession *)
Section Possession.
Context {E : Engine} {L : EngineLaws E}.

Lemma pok_oracle_ok (a b c : G1) : exists h, proof_of_knowledge_random_oracle a b c = Ok h.
Proof.
rewrite /proof_of_knowledge_random_oracle /compressed /serialize_G1_instance.
have [x ->] := ser_compressed_ok a; have [y ->] := ser_compressed_ok b.
by have [z ->] := ser_compressed_ok c; eexists.
Qed.

Lemma generate_pok_ok x seed : exists2 pok, generate_proof_of_knowledge x seed = Ok pok &
  verify_proof_of_knowledge pok (x *: generator G1) = Ok true.
Proof.
rewrite /generate_proof_of_knowledge /verify_proof_of_knowledge.
set r := (rand_F _).1.
have [h hE] := pok_oracle_ok (generator G1) (x *: generator G1) (r *: generator G1).
rewrite hE /=; eexists; first by []; rewrite /= hE /= eqxx andbT.
by rewrite scalerDl scalerA eqxx.
Qed.

Lemma verify_pok_ok pok pk : exists b, verify_proof_of_knowledge pok pk = Ok b.
Proof.
rewrite /verify_proof_of_knowledge.
by have [h ->] := pok_oracle_ok (generator G1) pk (commitment pok); eexists.
Qed.

Lemma keygen_ok seed : exists2 sk, HinTS.keygen seed = Ok sk &
  verify_proof_of_knowledge (pop sk) (secret sk *: generator G1) = Ok true.
Proof.
rewrite /HinTS.keygen; case: (fill_bytes _ _) => s1 rng; case: (fill_bytes _ _) => s2 rng'.
have [pok -> pokE] := generate_pok_ok (rand_F (from_seed s1)).1 s2.
by eexists.
Qed.
End Possession.

(** ** Theorems *)
Section Theorems.
Context {E : Engine} {L : EngineLaws E}.

Lemma verify_hint_bound crs n i hint b : HinTS.verify_hint crs n i hint = Ok b -> (i < n)%N.
Proof. by rewrite /HinTS.verify_hint; case: (is_n_valid n) => //=; case: ltnP. Qed.

Lemma verify_hint_inv tau crs n d i hint : universe tau crs n d ->
  HinTS.verify_hint crs n i hint = Ok true ->
  exists sk, hint = honest_hint tau n (group_gen d) i sk (pok_i hint).
Proof.
move=> U acc; have lti := verify_hint_bound acc.
have [sk pkE] := generator_spans (pk_i hint); exists sk.
have [b bE] := verify_pok_ok (pok_i hint) (pk_i hint).
move: acc; rewrite (verify_hintE U lti pkE bE) => -[].
case/and5P=> /eqP iE /eqP nE /eqP sE _ /andP[_ /and5P[/eqP c1 /eqP c2 /allP qz /eqP qx /eqP qxt]].
case: hint iE nE pkE sE c1 c2 qz qx qxt {bE} => hi hn hp hpok h1 h2 hqz hx hxt /= -> -> -> sE
  -> -> qz -> ->.
rewrite /honest_hint; congr MkExtendedPublicKey; apply: (@eq_from_nth _ 0).
  by rewrite size_mkseq.
move=> j; rewrite -sE => ltj; rewrite nth_mkseq //; apply/eqP/qz.
by rewrite mem_iota.
Qed.

(** C22: soundness of hint verification.  An extended public key that
    [verify_hint] accepts at slot [i] is, in every component, the hint of some
    secret key at that slot: the public key determines all the other terms. *)
Theorem verify_hint_sound tau crs n d i hint : universe tau crs n d ->
  HinTS.verify_hint crs n i hint = Ok true ->
  (i < n)%N /\ exists sk, hint = honest_hint tau n (group_gen d) i sk (pok_i hint).
Proof.
move=> U acc; split; [exact: verify_hint_bound acc|exact: verify_hint_inv U acc].
Qed.

(** C23: completeness of hint verification.  Every key [keygen] produces has a hint
    at every slot, computed without error, and [verify_hint] accepts it exactly
    when none of its points is the identity. *)
Theorem hint_gen_verifies tau crs n d i seed : universe tau crs n d -> (i < n)%N ->
  exists sk hint, [/\ HinTS.keygen seed = Ok sk, HinTS.hint_gen crs n i sk = Ok hint &
    HinTS.verify_hint crs n i hint = Ok (nonzero_terms hint)].
Proof.
move=> U lti; have [sk skE pokE] := keygen_ok seed.
pose hint := honest_hint tau n (group_gen d) i (secret sk) (pop sk).
exists sk, hint; split=> //; first exact: hint_genE.
have pkE : pk_i hint = secret sk *: generator G1 by [].
have pokE' : verify_proof_of_knowledge (pok_i hint) (pk_i hint) = Ok true by [].
rewrite (verify_hintE U lti pkE pokE') /= !eqxx size_mkseq eqxx /=.
rewrite (_ : all _ (iota 0 n)) ?andbT //; apply/allP => j; rewrite mem_iota add0n => ltj.
by rewrite nth_mkseq.
Qed.

End Theorems.

(** ** Witnesses *)

Definition toy_domain4 : Radix2EvaluationDomain (@F toy) := Radix2Domain 4 (toy_root ^+ 8).

Lemma toy_universe : universe (5%:R : @F toy) (toy_crs 5%:R 5) 4 toy_domain4.
Proof. by split=> //; exists 5%N. Qed.

Lemma hint_gen_verifies_witness : exists sk hint,
  [/\ @HinTS.keygen toy [::] = Ok sk, HinTS.hint_gen (toy_crs 5%:R 5) 4 1 sk = Ok hint &
      HinTS.verify_hint (toy_crs 5%:R 5) 4 1 hint = Ok (nonzero_terms hint)].
Proof. exact: (@hint_gen_verifies toy toy_laws _ _ _ _ 1 [::] toy_universe). Defined.

Definition toy_sk (i : nat) : SecretKey :=
  if @HinTS.keygen toy (nseq i.+1 Byte.x03) is Ok sk then sk
  else MkSecretKey 0 (MkProofOfPossesion 0 0 0).

Definition toy_hint (i : nat) : ExtendedPublicKey :=
  if HinTS.hint_gen (toy_crs 5%:R 5) 4 i (toy_sk i) is Ok h then h
  else MkExtendedPublicKey 0 0 0 (pop (toy_sk i)) 0 0 [::] 0 0.

Lemma toy_hint_accepted i : (i < 2)%N ->
  HinTS.verify_hint (toy_crs 5%:R 5) 4 i (toy_hint i) = Ok true.
Proof. by case: i => [|[|]] // _; vm_compute. Qed.

Lemma verify_hint_sound_witness : (1 < 4)%N /\ exists sk,
  toy_hint 1 = honest_hint (5%:R : @F toy) 4 (group_gen toy_domain4) 1 sk (pok_i (toy_hint 1)).
Proof.
exact: (@verify_hint_sound toy toy_laws _ _ _ _ 1 _ toy_universe (toy_hint_accepted (i := 1) isT)).
Defined.
