(* ===== verification/Keys.v ===== *)
(** * Key generation for a network: what [preprocess] computes

    The keys are specified in the exponent, by the parties' secrets and weights;
    [preprocess] is shown to produce exactly these keys from any collection of
    hints that it accepts. *)
From S2P Require Import Prelude Errors Engine PolyFacts SeqFacts Utils Kzg Transcript Hints.
From S2P Require Import ToyEngine Ceremony HintSound.
From mathcomp Require Import ssreflect ssrfun ssrbool eqtype ssrnat seq div.
From mathcomp Require Import fintype bigop ssralg poly polydiv ring_tactic.
Import GRing.Theory.
Set Warnings "-rewrite-rw".
Set Implicit Arguments.
Unset Strict Implicit.
Unset Printing Implicit Defensive.
Local Open Scope ring_scope.

(** ** The keys in the exponent *)
Section Spec.
Context {E : Engine}.
Variables (tau : F) (n : nat) (w : F) (wt sks : nat -> F).

Definition spec_vk : VerificationKey := {|
  vk_n := n;
  total_weight := \sum_(i < n) wt i;
  g_0 := generator G1;
  h_0 := generator G2;
  h_1 := tau *: generator G2;
  l_n_minus_1_of_tau_com := (Lag n w (n - 1)).[tau] *: generator G1;
  w_of_tau_com := (interp n w wt).[tau] *: generator G1;
  sk_of_tau_com := (interp n w sks).[tau] *: generator G2;
  z_of_tau_com := (Zn F n).[tau] *: generator G2
|}.

Definition spec_ak : AggregationKey := {|
  ak_n := n;
  weights := mkseq wt n;
  pks := mkseq (fun i => sks i *: generator G1) n;
  qz_terms := mkseq (fun i => (\sum_(j < n) sks j * (QZ n w j i).[tau]) *: generator G1) n;
  qx_terms := mkseq (fun i => (sks i * (QX n w i).[tau]) *: generator G1) n;
  qx_mul_tau_terms :=
    mkseq (fun i => (sks i * ((Lag n w i).[tau] - (Lag n w i).[0])) *: generator G1) n
|}.

(** The contract of [preprocess]: both keys are those of the weights and secrets,
    and the reserved slot has neither. *)
Record keys_for (vk : VerificationKey) (ak : AggregationKey) : Prop := {
  keys_vk : vk = spec_vk;
  keys_ak : ak = spec_ak;
  keys_reserved_weight : wt (n - 1) = 0;
  keys_reserved_secret : sks (n - 1) = 0
}.
End Spec.

(** The weight registered for a slot. *)
Definition registered_weight {E : Engine} (info : seq (nat * (Weight * ExtendedPublicKey)))
    (i : nat) : F :=
  if HinTS.hashmap_get info i is Some (x, _) then x else 0.

(** ** Loops *)

Lemma foldl_addr (V : zmodType) (a : V) (s : seq V) : foldl +%R a s = a + \sum_(x <- s) x.
Proof.
elim: s a => [|x s IH] a /=; first by rewrite big_nil addr0.
by rewrite IH big_cons addrA.
Qed.

Lemma sum_mkseq (V : zmodType) (f : nat -> V) n : \sum_(x <- mkseq f n) x = \sum_(i < n) f i.
Proof. by rewrite big_map -(big_mkord xpredT f) /index_iota subn0. Qed.

Lemma vec_set_cat {Error A : Type} (s t : seq A) x a :
  vec_set (s ++ x :: t) (size s) a = Ok (rcons s a ++ t) :> outcome Error (seq A).
Proof.
rewrite (vec_set_lt _ x) ?size_cat /= ?addnS ?ltnS ?leq_addr //; congr Ok.
by elim: s => //= y s ->.
Qed.

Section Loops.
Context {E : Engine}.

Lemma scatter_loop (pre hs : seq ExtendedPublicKey) :
  (forall k, (k < size hs)%N -> nth 0%N (map epk_i hs) k = (size pre + k)%N) ->
  foldM HinTS.scatter (HinTS.MkContributions
    (map qz_i_terms pre ++ nseq (size hs) [::]) (map qx_i_term pre ++ nseq (size hs) 0)
    (map qx_i_term_mul_tau pre ++ nseq (size hs) 0) (map pk_i pre ++ nseq (size hs) 0)
    (map sk_i_l_i_of_tau_com_2 pre ++ nseq (size hs) 0)) hs =
  Ok (HinTS.MkContributions (map qz_i_terms (pre ++ hs)) (map qx_i_term (pre ++ hs))
    (map qx_i_term_mul_tau (pre ++ hs)) (map pk_i (pre ++ hs))
    (map sk_i_l_i_of_tau_com_2 (pre ++ hs))).
Proof.
elim: hs pre => [|h hs IH] pre H /=; first by rewrite !cats0.
have hE : epk_i h = size pre by have := H 0%N isT; rewrite addn0.
have put T (f : ExtendedPublicKey -> T) (x : T) :
    vec_set (map f pre ++ x :: nseq (size hs) x) (size pre) (f h) =
    Ok (map f (rcons pre h) ++ nseq (size hs) x) :> outcome HError _.
  by rewrite -(size_map f pre) vec_set_cat map_rcons.
rewrite /HinTS.scatter /= hE !put /= IH ?cat_rcons // => k lt.
by rewrite size_rcons addSnnS -(H k.+1).
Qed.

Lemma preprocess_qzE n (t : nat -> nat -> G1) :
  preprocess_qz_contributions (mkseq (fun i => mkseq (t i) n) n) =
  Ok (mkseq (fun i => \sum_(j < n) t j i) n).
Proof.
rewrite /preprocess_qz_contributions size_mkseq; apply: mapM_ok => i.
rewrite mem_iota add0n /= => lti.
have row j k : (j < n)%N -> (k < n)%N ->
    (let* r := vec_get (mkseq (fun i => mkseq (t i) n) n) j in vec_get r k) = Ok (t j k)
    :> outcome HError _.
  move=> ltj ltk; rewrite (vec_get_lt _ [::]) ?size_mkseq //= nth_mkseq //.
  by rewrite (vec_get_lt _ 0) ?size_mkseq // nth_mkseq.
have := row i i lti lti; rewrite (vec_get_lt _ [::]) ?size_mkseq //= => -> /=.
have -> : \sum_(j < n) t j i = t i i + \sum_(j <- iota 0 n | i != j) t j i.
  rewrite (bigD1 (Ordinal lti)) //=; congr (_ + _).
  transitivity (\sum_(j < n | i != j) t j i); first by apply: eq_bigl => j; rewrite eq_sym.
  by rewrite -(big_mkord (fun j => i != j) (fun j => t j i)) /index_iota subn0.
have sub : all (fun j => (j < n)%N) (iota 0 n).
  by apply/allP => j; rewrite mem_iota.
elim: (iota 0 n) (t i i) sub => [|j l IH] a /=; first by rewrite big_nil addr0.
case/andP=> ltj sub; rewrite big_cons; case: (i =P j) => [_|_] /=; first exact: IH.
have := row j i ltj lti; rewrite (vec_get_lt _ [::]) ?size_mkseq //= => -> /=.
by rewrite IH // addrA.
Qed.

End Loops.

Section Preprocess.
Context {E : Engine} {L : EngineLaws E}.
Variables (tau : F) (crs : CRS) (n : nat) (d : Domain_F).
Hypothesis U : universe tau crs n d.
Abbreviation w := (group_gen d).
Implicit Types (info : seq (nat * (Weight * ExtendedPublicKey))) (wt sks : nat -> F).

Lemma eq_interp (f g : nat -> F) : (forall i, (i < n)%N -> f i = g i) ->
  interp n w f = interp n w g.
Proof. by move=> H; apply: eq_bigr => i _; rewrite H. Qed.

Lemma horner_interp (f : nat -> F) x : (interp n w f).[x] = \sum_(i < n) f i * (Lag n w i).[x].
Proof. by rewrite horner_sum; apply: eq_bigr => i _; rewrite hornerZ. Qed.

Lemma interpolate_mkseq (f : nat -> F) : exists p,
  [/\ interpolate_poly_over_mult_subgroup (mkseq f n) = Some p, regular p &
      polyOf p = interp n w f].
Proof.
have [p [pE pr qE]] := interpolate_polyE (u_valid U) (size_mkseq f n) (u_domain U).
by exists p; split=> //; rewrite qE; apply: eq_interp => i lt; rewrite nth_mkseq.
Qed.

(** Once the slots are collected, [preprocess] returns the specified keys. *)
Lemma preprocess_slotsE info wt sks (pops : nat -> ProofOfPossesion) :
  (size info < n)%N -> all (fun kv => kv.1 < n - 1)%N info ->
  mapM (HinTS.preprocess_slot n crs info) (iota 0 n) =
    Ok (mkseq (fun i => (wt i, honest_hint tau n w i (sks i) (pops i))) n) ->
  HinTS.preprocess n crs info = Ok (spec_vk tau n w wt sks, spec_ak tau n w wt sks).
Proof.
move=> sz keys slotsE; have w_prim : n.-primitive_root w by exact: u_prim U.
have n1 := u_gt1 U; have n0 := u_gt0 U.
rewrite /HinTS.preprocess (u_valid U) addn1 ltnNge sz /=.
have -> : [seq i <- [seq kv.1 | kv <- info] | (n - 1 <= i)%N] = [::].
  by apply/eqP; rewrite -[_ == _]negbK -has_filter has_map -all_predC;
     apply: sub_all keys => kv /=; rewrite -ltnNge.
rewrite /= (u_supports U) slotsE /= /mkseq -!map_comp /= -/(mkseq _ _).
have [p [-> pr pE]] := interpolate_mkseq wt.
set hs := [seq _ | i <- iota 0 n] in |- *.
have hsz : size hs = n by rewrite size_map size_iota.
have := @scatter_loop E [::] hs; rewrite hsz /= => -> /=.
  by move=> k lt; rewrite -map_comp (nth_map 0%N) ?size_iota // nth_iota.
have [l [-> lr lE]] := lagrange_iE U (n - 1).
rewrite /= (u_g0 U) (u_h0 U) (u_h1 U) /= !(u_commit_g1 U) ?lE ?pE ?(size_Lag w_prim) ?(size_interp w_prim) //=.
rewrite (u_commit_g2 U) ?compute_vanishing_poly_reg ?compute_vanishing_polyE //.
  by rewrite (size_Zn w_prim).
have -> : [seq qz_i_terms i | i <- hs] =
    mkseq (fun i => mkseq (fun j => (sks i * (QZ n w i j).[tau]) *: generator G1) n) n.
  by rewrite -map_comp.
rewrite preprocess_qzE /aggregation_key_is_well_formed /= !size_map !size_iota eqxx /=.
rewrite /spec_vk /spec_ak /add !foldl_addr !add0r -!map_comp sum_mkseq.
congr (Ok (_, _)).
  congr MkVerificationKey; rewrite -/(mkseq _ _) sum_mkseq horner_interp scaler_suml.
  by apply: eq_bigr.
congr MkAggregationKey; apply: eq_mkseq => i /=.
by rewrite scaler_suml.
Qed.

Lemma hashmap_get_None (V : Type) (m : seq (nat * V)) k :
  all (fun kv => kv.1 < k)%N m -> HinTS.hashmap_get m k = None.
Proof.
move=> lt; rewrite /HinTS.hashmap_get (_ : [seq kv <- m | kv.1 == k] = [::]) //.
elim: m lt => //= kv m IH /andP[lt /IH ->].
by rewrite (ltn_eqF lt).
Qed.

(** A slot is collected exactly when it is empty or its hint is accepted. *)
Lemma preprocess_slot_inv info i s : (i < n)%N -> HinTS.preprocess_slot n crs info i = Ok s ->
  s.1 = registered_weight info i /\
  exists sk, [/\ s.2 = honest_hint tau n w i sk (pok_i s.2),
    HinTS.hashmap_get info i = None -> sk = 0 &
    forall x h, HinTS.hashmap_get info i = Some (x, h) -> s.2 = h].
Proof.
move=> lti; rewrite /HinTS.preprocess_slot /registered_weight.
case: (HinTS.hashmap_get info i) => [[x h]|]; last first.
  have [pok -> _ /=] := generate_pok_ok 0%:R (nseq RANDOM_SIZE Byte.x00).
  by rewrite (hint_genE U _ lti) => -[<-]; split=> //; exists 0.
case: eqP => //= _; case acc: HinTS.verify_hint => [b| |] //=; case: b acc => //= acc [<-].
split=> //; have [sk skE] := verify_hint_inv U acc.
by exists sk; split=> // y h' [_ <-].
Qed.

Lemma preprocess_slot_ok info i : (i < n)%N ->
  (forall x h, HinTS.hashmap_get info i = Some (x, h) ->
     HinTS.verify_hint crs n i h = Ok true) ->
  exists s, HinTS.preprocess_slot n crs info i = Ok s.
Proof.
move=> lti H; rewrite /HinTS.preprocess_slot.
case: (HinTS.hashmap_get info i) H => [[x h]|] H; last first.
  have [pok -> _ /=] := generate_pok_ok 0%:R (nseq RANDOM_SIZE Byte.x00).
  by rewrite (hint_genE U _ lti); eexists.
have acc := H x h erefl; have [sk hE] := verify_hint_inv U acc.
have nE : epk_n h = n by rewrite hE.
by rewrite nE eqxx /= acc; eexists.
Qed.

(** The secrets behind a vector of collected slots. *)
Lemma slots_spec info slots : mapM (HinTS.preprocess_slot n crs info) (iota 0 n) = Ok slots ->
  exists sks pops, slots =
      mkseq (fun i => (registered_weight info i, honest_hint tau n w i (sks i) (pops i))) n /\
    forall i, (i < n)%N -> (HinTS.hashmap_get info i = None -> sks i = 0) /\
      forall x h, HinTS.hashmap_get info i = Some (x, h) -> pk_i h = sks i *: generator G1.
Proof.
move=> mE; have sz := size_mapM mE; rewrite size_iota in sz.
have [ks ksE] := exponents (map (fun s => pk_i s.2) slots).
pose s0 := (tau, honest_hint tau n w 0 0 (MkProofOfPossesion 0 0 0)).
have slotE i : (i < n)%N -> HinTS.preprocess_slot n crs info i = Ok (nth s0 slots i).
  move=> lt; have := nth_mapM 0%N s0 mE (i := i); rewrite size_iota nth_iota //; exact.
have kE i : (i < n)%N -> pk_i (nth s0 slots i).2 = ks`_i *: generator G1.
  move=> lt; rewrite -(nth_map s0 0 (fun s => pk_i s.2)) ?sz // ksE (nth_map 0) //.
  by rewrite -(size_map (fun x => x *: generator G1) ks) -ksE size_map sz.
exists (nth 0 ks), (fun i => pok_i (nth s0 slots i).2); split; last first.
  move=> i lt; have [_ [sk [sE sN sS]]] := preprocess_slot_inv lt (slotE i lt).
  have := kE i lt; rewrite {1}sE /= => /(scaler_injr generator_neq0) <-.
  by split=> // x h /sS <-; rewrite sE.
apply: (@eq_from_nth _ s0); rewrite ?size_mkseq // sz => i lt; rewrite nth_mkseq //.
have [wE [sk [sE _ _]]] := preprocess_slot_inv lt (slotE i lt).
have := kE i lt; rewrite {1}sE /= => /(scaler_injr generator_neq0) <-.
by rewrite -sE -wE -surjective_pairing.
Qed.

Lemma keys_below (V : Type) (m : seq (nat * V)) k :
  all (fun kv => kv.1 < k)%N m = ~~ has (fun i => k <= i)%N [seq kv.1 | kv <- m].
Proof. by rewrite has_map -all_predC; apply: eq_all => kv /=; rewrite -ltnNge. Qed.

Lemma preprocess_Ok_inv info keys : HinTS.preprocess n crs info = Ok keys ->
  [/\ (size info < n)%N, all (fun kv => kv.1 < n - 1)%N info &
      exists slots, mapM (HinTS.preprocess_slot n crs info) (iota 0 n) = Ok slots].
Proof.
rewrite /HinTS.preprocess (u_valid U) addn1 /=; case: leqP => //= sz.
case kE: (ohead _) => [//|]; rewrite (u_supports U) /=.
case mE: (mapM _ _) => [slots| |] //= _; split=> //; last by exists slots.
rewrite keys_below has_filter; case: [seq i <- _ | _] kE => //.
Qed.

Lemma preprocess_inv info vk ak : HinTS.preprocess n crs info = Ok (vk, ak) ->
  exists sks, keys_for tau n w (registered_weight info) sks vk ak /\
    forall i, (i < n)%N -> (HinTS.hashmap_get info i = None -> sks i = 0) /\
      forall x h, HinTS.hashmap_get info i = Some (x, h) -> pk_i h = sks i *: generator G1.
Proof.
move=> pE; have [sz keys [slots mE]] := preprocess_Ok_inv pE; have n0 := u_gt0 U.
have [sks [pops [slotsE sksP]]] := slots_spec mE; rewrite slotsE in mE.
exists sks; split=> //; have := preprocess_slotsE sz keys mE; rewrite pE => -[-> ->].
have none := hashmap_get_None keys; split=> //; first by rewrite /registered_weight none.
by have [|-> //] := sksP (n - 1)%N; rewrite ?ltn_subrL ?n0.
Qed.

End Preprocess.

(** ** Theorems *)
Section Theorems.
Context {E : Engine} {L : EngineLaws E}.

Lemma preprocess_total tau crs n d info : universe tau crs n d ->
  uniq [seq kv.1 | kv <- info] -> all (fun kv => kv.1 < n - 1)%N info ->
  (forall i x h, HinTS.hashmap_get info i = Some (x, h) ->
     HinTS.verify_hint crs n i h = Ok true) ->
  exists vk ak, HinTS.preprocess n crs info = Ok (vk, ak).
Proof.
move=> U un keys acc; have n0 := u_gt0 U.
have sz : (size info < n)%N.
  rewrite -(size_map fst) -[n]prednK // ltnS -subn1 -[X in (_ <= X)%N](size_iota 0).
  apply: uniq_leq_size un _ => i; rewrite mem_iota add0n /= => ik.
  have := keys; rewrite -(all_map fst (fun i => i < n - 1)%N) => /allP; exact.
have [slots mE] : exists slots, mapM (HinTS.preprocess_slot n crs info) (iota 0 n) = Ok slots.
  have : all (fun i => i < n)%N (iota 0 n) by apply/allP => i; rewrite mem_iota.
  elim: (iota 0 n) => [|i l IH] /=; first by exists [::].
  case/andP=> lt /IH [ss ->]; have [s ->] := preprocess_slot_ok U lt (acc i).
  by eexists.
have [sks [pops [slotsE _]]] := slots_spec U mE; rewrite slotsE in mE.
by do 2 eexists; exact: (preprocess_slotsE U sz keys mE).
Qed.

(** C6: refinement of [preprocess].  Whenever it returns keys, they are the keys
    specified in the exponent: there are secrets, one per slot, behind the
    registered public keys and zero for empty slots, such that every commitment
    of the verification key and every pre-processed term of the aggregation key
    is the one of these secrets and of the registered weights; the reserved slot
    has neither secret nor weight. *)
Theorem preprocess_refines tau crs n d info vk ak : universe tau crs n d ->
  HinTS.preprocess n crs info = Ok (vk, ak) ->
  exists sks, keys_for tau n (group_gen d) (registered_weight info) sks vk ak /\
    forall i, (i < n)%N -> (HinTS.hashmap_get info i = None -> sks i = 0) /\
      forall x h, HinTS.hashmap_get info i = Some (x, h) -> pk_i h = sks i *: generator G1.
Proof. by move=> U; apply: preprocess_inv. Qed.

(** C24: [preprocess] succeeds on every address book of distinct slots below the
    reserved one whose hints [verify_hint] accepts. *)
Theorem preprocess_complete tau crs n d info : universe tau crs n d ->
  uniq [seq kv.1 | kv <- info] -> all (fun kv => kv.1 < n - 1)%N info ->
  (forall i x h, HinTS.hashmap_get info i = Some (x, h) ->
     HinTS.verify_hint crs n i h = Ok true) ->
  exists vk ak, HinTS.preprocess n crs info = Ok (vk, ak).
Proof. exact: preprocess_total. Qed.

End Theorems.

(** ** Witnesses *)

Definition toy_info : seq (nat * (@F toy * ExtendedPublicKey)) :=
  [:: (1%N, (3%:R, toy_hint 1)); (0%N, (2%:R, toy_hint 0))].

Lemma hashmap_get_two (A B : Type) (P : nat -> B -> Prop) (x y : A) (b b' : B) i z h :
  P 1%N b -> P 0%N b' ->
  HinTS.hashmap_get [:: (1%N, (x, b)); (0%N, (y, b'))] i = Some (z, h) -> P i h.
Proof. by move=> pb pb'; case: i => [|[|i]] //= [_ <-]. Qed.

Lemma toy_info_accepted i x h : HinTS.hashmap_get toy_info i = Some (x, h) ->
  HinTS.verify_hint (toy_crs 5%:R 5) 4 i h = Ok true.
Proof.
exact: (@hashmap_get_two _ _ (fun i h => HinTS.verify_hint (toy_crs 5%:R 5) 4 i h = Ok true)
  _ _ _ _ _ _ _ (@toy_hint_accepted 1 isT) (@toy_hint_accepted 0 isT)).
Qed.

Definition toy_keys : @VerificationKey toy * AggregationKey :=
  if HinTS.preprocess 4 (toy_crs 5%:R 5) toy_info is Ok keys then keys
  else (MkVerificationKey 0 0 0 0 0 0 0 0 0, MkAggregationKey 0 [::] [::] [::] [::] [::]).
Definition toy_vk : VerificationKey := toy_keys.1.
Definition toy_ak : AggregationKey := toy_keys.2.

Lemma toy_preprocess : HinTS.preprocess 4 (toy_crs 5%:R 5) toy_info = Ok (toy_vk, toy_ak).
Proof.
have : is_ok (HinTS.preprocess 4 (toy_crs 5%:R 5) toy_info) by vm_compute.
by rewrite /toy_vk /toy_ak /toy_keys; case: HinTS.preprocess => // -[].
Qed.

Lemma preprocess_complete_witness : exists vk ak,
  HinTS.preprocess 4 (toy_crs 5%:R 5) toy_info = Ok (vk, ak).
Proof.
exact: (@preprocess_complete toy toy_laws _ _ _ _ _ toy_universe _ _ toy_info_accepted).
Defined.

Lemma preprocess_refines_witness : exists sks,
  keys_for (5%:R : @F toy) 4 (group_gen toy_domain4) (registered_weight toy_info) sks
    toy_vk toy_ak /\
  forall i, (i < 4)%N -> (HinTS.hashmap_get toy_info i = None -> sks i = 0) /\
    forall x h, HinTS.hashmap_get toy_info i = Some (x, h) -> pk_i h = sks i *: generator G1.
Proof. exact: (@preprocess_refines toy toy_laws _ _ _ _ _ _ _ toy_universe toy_preprocess). Defined.
