(* ===== verification/Aggregation.v ===== *)
(** * Aggregation: the witness, the relations it satisfies and the proof *)
From S2P Require Import Prelude Errors Engine PolyFacts SeqFacts Utils Kzg Transcript Hints.
From S2P Require Import HintSound Keys Ceremony.
From mathcomp Require Import ssreflect ssrfun ssrbool eqtype ssrnat seq div.
From mathcomp Require Import fintype bigop ssralg poly polydiv ring_tactic.
Import GRing.Theory.
Set Warnings "-rewrite-rw".
Set Implicit Arguments.
Unset Strict Implicit.
Unset Printing Implicit Defensive.
Local Open Scope ring_scope.

(** ** Folds of the aggregator *)

Lemma foldl_sum (V : zmodType) (T : Type) (f : T -> V) a (s : seq T) :
  foldl (fun acc x => acc + f x) a s = a + \sum_(x <- s) f x.
Proof.
elim: s a => [|x s IH] a /=; first by rewrite big_nil addr0.
by rewrite IH big_cons addrA.
Qed.

Lemma zip_mkseq (A B : Type) (f : nat -> A) (g : nat -> B) n :
  zip (mkseq f n) (mkseq g n) = mkseq (fun i => (f i, g i)) n.
Proof. by rewrite /mkseq zip_map. Qed.

Lemma sum_map_mkseq (V : zmodType) (A : Type) (h : A -> V) (f : nat -> A) n :
  \sum_(x <- mkseq f n) h x = \sum_(i < n) h (f i).
Proof. by rewrite big_map -(big_mkord xpredT (fun i => h (f i))) /index_iota subn0. Qed.

Lemma take_mkseq (A : Type) (f : nat -> A) k n : (k <= n)%N -> take k (mkseq f n) = mkseq f k.
Proof. by move=> le; rewrite /mkseq -map_take take_iota (minn_idPl le). Qed.

Section Folds.
Context {E : Engine}.

(** Inclusive running sums. *)
Lemma running_sumsE (ws bs : nat -> F) n :
  running_sums (mkseq ws n) (mkseq bs n) = mkseq (fun i => \sum_(j < i.+1) bs j * ws j) n.
Proof.
rewrite /running_sums zip_mkseq.
apply: (@eq_from_nth _ 0); rewrite size_scanl size_mkseq ?size_mkseq // => i lt.
rewrite nth_scanl ?size_mkseq // nth_mkseq // take_mkseq //.
by rewrite (foldl_sum (fun wb => wb.2 * wb.1)) add0r sum_map_mkseq.
Qed.

(** The inner product with a bitmap sums the selected elements. *)
Lemma inner_productE (V : lmodType F) (f : nat -> V) (p : nat -> bool) n :
  inner_product (mkseq f n) (mkseq (fun i => (p i)%:R) n) = \sum_(i < n) (p i)%:R *: f i.
Proof.
rewrite /inner_product foldl_addr add0r big_map big_filter zip_mkseq big_mkcond /=.
rewrite (sum_map_mkseq (fun x => if x.2 == 1%:R then x.1 else 0)); apply: eq_bigr => i _ /=.
by case: (p i); rewrite ?eqxx ?scale1r // eq_sym oner_eq0 scale0r.
Qed.

(** Setting bits in a loop. *)
Lemma bitmap_loop n (pre : seq nat) (sigs : seq (nat * G2)) : (1 < n)%N ->
  all (fun s => s.1 < n - 1)%N sigs ->
  foldM (set_bit n) (mkseq (fun i => (i \in pre)%:R) n) sigs =
  Ok (mkseq (fun i => (i \in pre ++ [seq s.1 | s <- sigs])%:R) n).
Proof.
move=> n1; elim: sigs pre => [|[i s] sigs IH] pre; first by rewrite cats0.
case/andP=> lt all_lt; have ltn : (i < n)%N by apply: leq_trans lt (leq_subr _ _).
rewrite -[foldM _ _ _]/(bind (set_bit n (mkseq (fun i => (i \in pre)%:R) n) (i, s)) _).
have -> : set_bit n (mkseq (fun i => (i \in pre)%:R) n) (i, s) =
    Ok (mkseq (fun k => (k \in rcons pre i)%:R) n).
  rewrite /set_bit usize_subE //= ltnNge.
  have -> : (i <= n - 2)%N by rewrite -ltnS -subSn // subSS.
  rewrite /= (vec_set_lt _ 0) ?size_mkseq //=; congr Ok.
  apply: (@eq_from_nth _ 0); first by rewrite size_set_nth_lt !size_mkseq.
  move=> j; rewrite size_set_nth_lt ?size_mkseq // => ltj.
  by rewrite nth_set_nth /= !nth_mkseq // mem_rcons in_cons; case: eqP.
by rewrite map_cons -cat_rcons; apply: IH.
Qed.

End Folds.

(** ** The honest witness in the exponent *)
Section Spec.
Context {E : Engine}.
Variables (tau : F) (n : nat) (w : F) (wt sks : nat -> F) (ids : seq nat).

(** The bitmap with the reserved slot set, the aggregate weight, the adjusted
    weights and their running sums. *)
Definition selected (i : nat) : bool := (i \in ids) || (i == n - 1)%N.
Definition bit (i : nat) : F := (selected i)%:R.
Definition aggw : F := \sum_(i < n) (val i \in ids)%:R * wt i.
Definition wadj (i : nat) : F := if i == (n - 1)%N then - aggw else wt i.
Definition psum (i : nat) : F := \sum_(j < i.+1) bit j * wadj j.

Definition spec_witness (sig : G2) : Witness := {|
  wit_bitmap := mkseq bit n;
  wit_parsum := mkseq psum n;
  wit_agg_weight := aggw;
  wit_agg_pk := (n%:R^-1 * \sum_(i < n) bit i * sks i) *: generator G1;
  wit_agg_sig := n%:R^-1 *: sig;
  wit_qz_of_tau_com :=
    (\sum_(i < n) bit i * \sum_(j < n) sks j * (QZ n w j i).[tau]) *: generator G1;
  wit_qx_of_tau_com := (\sum_(i < n) bit i * (sks i * (QX n w i).[tau])) *: generator G1;
  wit_qx_of_tau_mul_tau_com :=
    (\sum_(i < n) bit i * (sks i * ((Lag n w i).[tau] - (Lag n w i).[0]))) *: generator G1
|}.

Lemma inner_product_exp (V : lmodType F) (g : V) (f : nat -> F) :
  inner_product (mkseq (fun i => f i *: g) n) (mkseq bit n) = (\sum_(i < n) bit i * f i) *: g.
Proof.
by rewrite inner_productE scaler_suml; apply: eq_bigr => i _; rewrite scalerA.
Qed.

Lemma assemble_witnessE (sigs : seq (nat * G2)) : (1 < n)%N -> n%:R != 0 :> F ->
  ids = [seq s.1 | s <- sigs] -> all (fun s => s.1 < n - 1)%N sigs ->
  assemble_witness (spec_ak tau n w wt sks) sigs =
  Ok (spec_witness (\sum_(s <- sigs) s.2)).
Proof.
move=> n1 nz idsE lt; have n0 := ltnW n1.
rewrite /assemble_witness /= field_div_ok //= div1r.
have -> : nseq n 0%:R = mkseq (fun i => (i \in [::])%:R) n :> seq F.
  apply: (@eq_from_nth _ 0); rewrite size_nseq ?size_mkseq // => i lti.
  by rewrite nth_nseq lti nth_mkseq.
rewrite bitmap_loop // -idsE usize_subE //=.
have ln : (n - 1 < n)%N by rewrite ltn_subrL.
rewrite !(vec_set_lt _ 0) ?size_mkseq //=.
have -> : set_nth 0 (mkseq (fun i => (i \in ids)%:R) n) (n - 1) 1 = mkseq bit n.
  apply: (@eq_from_nth _ 0); rewrite size_set_nth_lt !size_mkseq // => i lti.
  by rewrite nth_set_nth /= !nth_mkseq // /bit /selected; case: eqP; rewrite ?orbT ?orbF.
rewrite sub0r zip_mkseq (foldl_sum (fun bw => bw.1 * bw.2)) sum_map_mkseq !add0r -[\sum_(i < n) _]/aggw.
have -> : set_nth 0 (mkseq wt n) (n - 1) (- aggw) = mkseq wadj n.
  apply: (@eq_from_nth _ 0); rewrite size_set_nth_lt !size_mkseq // => i lti.
  by rewrite nth_set_nth /= !nth_mkseq // /wadj; case: eqP.
rewrite running_sumsE !inner_product_exp scalerA /add foldl_addr add0r big_map.
by [].
Qed.
End Spec.

(** ** The four relations as polynomials *)
Section Relations.
Variables (K : fieldType) (n : nat) (w : K).
Implicit Types (PS W B : {poly K}) (aw chi : K).

Definition P1 PS W B aw : {poly K} :=
  PS - (PS \Po (w^-1 *: 'X)) - (W - aw *: Lag n w (n - 1)) * B.
Definition P2 B : {poly K} := B * B - B.
Definition P3 PS : {poly K} := Lag n w (n - 1) * PS.
Definition P4 B : {poly K} := Lag n w (n - 1) * (B - 1).

(** a_0 + chi a_1 + chi^2 a_2 + ... *)
Definition combine (V : lmodType K) (vs : seq V) chi : V :=
  foldr (fun v acc => v + chi *: acc) 0 vs.

Definition Pmrg PS W B aw chi : {poly K} :=
  combine [:: P1 PS W B aw; P2 B; P3 PS; P4 B] chi.

Lemma horner_combine (ps : seq {poly K}) chi x :
  (combine ps chi).[x] = @combine K^o [seq p.[x] | p <- ps] chi.
Proof.
by elim: ps => [|p ps IH] /=; rewrite ?horner0 // hornerD hornerZ IH.
Qed.

Lemma combine_scale (V : lmodType K) (g : V) (xs : seq K) chi :
  combine [seq x *: g | x <- xs] chi = @combine K^o xs chi *: g.
Proof.
elim: xs => [|x xs IH] /=; first by rewrite scale0r.
by rewrite IH scalerA scalerDl.
Qed.

Lemma dvd_combine (d : {poly K}) ps chi : all (fun p => d %| p) ps -> d %| combine ps chi.
Proof.
elim: ps => [|p ps IH] /=; first by rewrite dvdp0.
by case/andP=> dp /IH dps; rewrite dvdp_add // -mul_polyC dvdp_mull.
Qed.

Lemma size_combine ps chi m : all (fun p : {poly K} => size p <= m)%N ps ->
  (size (combine ps chi) <= m)%N.
Proof.
elim: ps => [|p ps IH] /=; first by rewrite size_poly0.
case/andP=> sp /IH sps; apply: leq_trans (size_polyD _ _) _; rewrite geq_max sp /=.
exact: leq_trans (size_scale_leq _ _) sps.
Qed.

End Relations.

Section Merge.
Context {E : Engine} {L : EngineLaws E}.

Lemma merge_polysE (ps : seq Poly_F) chi : all regular ps ->
  regular (merge_polys ps chi) /\ polyOf (merge_polys ps chi) = combine (map polyOf ps) chi.
Proof.
rewrite /merge_polys foldl_rev; elim: ps => [|p ps IH] /=; first by rewrite /regular /= orbT.
case/andP=> pr /IH [mr mE].
have sr : regular (poly_eval_mult_c (foldr (fun x z => poly_add (poly_eval_mult_c z chi) x)
    (DensePoly [::]) ps) chi) by exact: poly_eval_mult_c_reg.
by split; [exact: poly_add_reg|rewrite poly_addE // poly_eval_mult_cE mE addrC].
Qed.

Lemma merge_scalarsE vs chi : merge_scalars vs chi = @combine F F^o vs chi.
Proof.
by rewrite /merge_scalars foldl_rev; elim: vs => //= v vs ->; rewrite addrC mulrC.
Qed.

Lemma merge_pointsE (ps : seq G1) chi : merge_points ps chi = combine ps chi.
Proof. by rewrite /merge_points foldl_rev; elim: ps => //= v vs ->; rewrite addrC. Qed.

End Merge.

Section RelationFacts.
Variables (K : fieldType) (n : nat) (w : K).
Hypothesis w_prim : n.-primitive_root w.
Implicit Types (PS W B : {poly K}) (aw chi : K).

Lemma size_comp_scaleX (p : {poly K}) c m : (size p <= m)%N -> (size (p \Po (c *: 'X)) <= m)%N.
Proof.
move=> le; apply/leq_sizeP => i mi; rewrite coef_comp_scaleX.
by rewrite (leq_sizeP _ _ le) // mul0r.
Qed.

Lemma size_Pmrg PS W B aw chi :
  (size PS <= n)%N -> (size W <= n)%N -> (size B <= n)%N ->
  (size (Pmrg n w PS W B aw chi) <= (n + n).-1)%N.
Proof.
move=> sPS sW sB; have n0 := prim_order_gt0 w_prim.
have nn : (n <= (n + n).-1)%N by case: n n0 => // k _; rewrite addSn /= leq_addl.
have sL := eq_leq (size_Lag w_prim (n - 1)).
have mul (p q : {poly K}) : (size p <= n)%N -> (size q <= n)%N ->
    (size (p * q)%R <= (n + n).-1)%N.
  move=> sp sq; apply: leq_trans (size_polyMleq _ _) _.
  by rewrite -!subn1 leq_sub2r // leq_add.
have sub (p q : {poly K}) m : (size p <= m)%N -> (size q <= m)%N -> (size (p - q)%R <= m)%N.
  by move=> sp sq; apply: leq_trans (size_polyD _ _) _; rewrite size_polyN geq_max sp.
apply: size_combine; rewrite /= andbT; apply/and4P; split.
- apply: (sub); last by apply: mul => //; apply: sub => //; apply: leq_trans (size_scale_leq _ _) _.
  by apply: leq_trans nn; apply: sub => //; apply: size_comp_scaleX.
- by apply: (sub) (mul _ _ sB sB) _; apply: leq_trans nn.
- exact: mul.
- by apply: mul => //; apply: sub => //; rewrite size_poly1.
Qed.

Lemma size_Qmrg PS W B aw chi :
  (size PS <= n)%N -> (size W <= n)%N -> (size B <= n)%N ->
  (size (Pmrg n w PS W B aw chi %/ Zn K n)%R <= n)%N.
Proof.
move=> sPS sW sB; rewrite size_divp ?(Zn_neq0 w_prim) // (size_Zn w_prim) leq_subLR /=.
exact: leq_trans (size_Pmrg _ _ sPS sW sB) (leq_pred _).
Qed.

(** The relations on the domain. *)
Lemma P1_domain PS W B aw i : (i < n)%N ->
  (P1 n w PS W B aw).[w ^+ i] =
  PS.[w ^+ i] - PS.[w ^+ (if i is i'.+1 then i' else n.-1)]
  - (W.[w ^+ i] - aw * (i == n - 1)%N%:R) * B.[w ^+ i].
Proof.
move=> lt; have n0 := prim_order_gt0 w_prim.
have ln : (n - 1 < n)%N by rewrite ltn_subrL n0.
have := Lag_domain w_prim ln lt; rewrite /P1 eq_sym; move: (Lag n w (n - 1)) => l lE.
rewrite !(hornerD, hornerN, hornerM, hornerZ) horner_comp hornerZ hornerX.
by rewrite (mulrC w^-1) (domain_pred w_prim) // lE.
Qed.

Lemma P2_domain B x : (P2 B).[x] = B.[x] * B.[x] - B.[x].
Proof. by rewrite /P2 hornerD hornerN hornerM. Qed.

Lemma P3_domain PS i : (i < n)%N ->
  (P3 n w PS).[w ^+ i] = (i == n - 1)%N%:R * PS.[w ^+ i].
Proof.
move=> lt; have n0 := prim_order_gt0 w_prim.
by rewrite /P3 hornerM (Lag_domain w_prim) // ?ltn_subrL ?n0 // eq_sym.
Qed.

Lemma P4_domain B i : (i < n)%N ->
  (P4 n w B).[w ^+ i] = (i == n - 1)%N%:R * (B.[w ^+ i] - 1).
Proof.
move=> lt; have n0 := prim_order_gt0 w_prim.
by rewrite /P4 hornerM hornerD hornerN hornerC (Lag_domain w_prim) // ?ltn_subrL ?n0 // eq_sym.
Qed.

End RelationFacts.

(** ** The honest witness satisfies the relations *)
Section Honest.
Context {E : Engine}.
Variables (n : nat) (w : F) (wt : nat -> F) (ids : seq nat).
Hypothesis w_prim : n.-primitive_root w.
Hypothesis wt_reserved : wt (n - 1) = 0.

Abbreviation bit := (bit n ids).
Abbreviation aggw := (aggw n wt ids).
Abbreviation psum := (psum n wt ids).
Abbreviation wadj := (wadj n wt ids).

Lemma psum_last : psum (n - 1) = 0.
Proof.
have n0 := prim_order_gt0 w_prim.
have -> : psum (n - 1) = \sum_(j < (n - 1).+1) bit j * wadj j by [].
rewrite big_ord_recr /= /wadj eqxx /bit /selected eqxx orbT mul1r.
have -> : aggw = \sum_(j < (n - 1).+1) (val j \in ids)%:R * wt j.
  by rewrite /aggw subn1 prednK.
rewrite big_ord_recr /= wt_reserved mulr0 addr0; apply/eqP; rewrite subr_eq0; apply/eqP.
by apply: eq_bigr => j _ /=; rewrite (ltn_eqF (ltn_ord j)) orbF.
Qed.

Lemma psum_step i : (i < n)%N ->
  psum i - psum (if i is i'.+1 then i' else n.-1) = bit i * wadj i.
Proof.
case: i => [|i] lt.
  by rewrite -subn1 psum_last subr0 /psum big_ord_recr /= big_ord0 add0r.
by rewrite /psum big_ord_recr /= addrAC subrr add0r.
Qed.

Lemma honest_relations chi :
  Zn F n %| Pmrg n w (interp n w psum) (interp n w wt) (interp n w bit) aggw chi.
Proof.
have n0 := prim_order_gt0 w_prim.
apply: dvd_combine => /=; rewrite andbT; apply/and4P; split; apply/(dvd_ZnP w_prim) => i lt.
- rewrite (P1_domain w_prim) // !(interp_domain w_prim) //; first by case: i lt => [|i] lt;
    [rewrite ltn_predL|exact: ltnW].
  rewrite psum_step // /wadj; case: eqP => [->|_]; last by rewrite mulr0 subr0 mulrC subrr.
  by rewrite wt_reserved mulr1 sub0r mulrC subrr.
- rewrite P2_domain (interp_domain w_prim) // /bit.
  by case: (selected _ _ _); rewrite ?mulr1 ?mulr0 subrr.
- rewrite (P3_domain w_prim) // (interp_domain w_prim) //.
  by case: eqP => [->|_]; rewrite ?psum_last ?mulr0 ?mul0r.
- rewrite (P4_domain w_prim) // (interp_domain w_prim) // /bit /selected.
  by case: eqP => [->|_]; rewrite ?orbT ?subrr ?mulr0 ?mul0r.
Qed.

End Honest.
