(* ===== verification/Proving.v ===== *)
(** * [prove]: the signature it computes for any witness *)
From S2P Require Import Prelude Errors Engine PolyFacts SeqFacts Utils Kzg Transcript Hints.
From S2P Require Import HintSound Keys Ceremony Aggregation.
From mathcomp Require Import ssreflect ssrfun ssrbool eqtype ssrnat seq div.
From mathcomp Require Import fintype bigop ssralg poly polydiv ring_tactic.
Import GRing.Theory.
Set Warnings "-rewrite-rw".
Set Implicit Arguments.
Unset Strict Implicit.
Unset Printing Implicit Defensive.
Local Open Scope ring_scope.

(** ** Transcript rounds always succeed *)
Section Rounds.
Context {E : Engine} {L : EngineLaws E}.

Lemma absorb_F t (x : F) : exists t', Tr.absorb t x = Ok t'.
Proof. by rewrite /Tr.absorb /compressed /serialize_F_instance; have [b ->] := ser_F_ok x; eexists. Qed.

Lemma absorb_G1 t (x : G1) : exists t', Tr.absorb t x = Ok t'.
Proof.
rewrite /Tr.absorb /compressed /serialize_G1_instance.
by have [b ->] := ser_compressed_ok x; eexists.
Qed.

Lemma absorb_vk t (vk : VerificationKey) : exists t', Tr.absorb t vk = Ok t'.
Proof.
rewrite /Tr.absorb /compressed /serialize_vk /compressed /serialize_usize_instance.
rewrite /serialize_F_instance /serialize_G1_instance /serialize_G2_instance.
have [? ->] := ser_usize_ok (vk_n vk); have [? ->] := ser_F_ok (total_weight vk).
have [? ->] := ser_compressed_ok (g_0 vk); have [? ->] := ser_compressed_ok (h_0 vk).
have [? ->] := ser_compressed_ok (h_1 vk).
have [? ->] := ser_compressed_ok (l_n_minus_1_of_tau_com vk).
have [? ->] := ser_compressed_ok (w_of_tau_com vk).
have [? ->] := ser_compressed_ok (sk_of_tau_com vk).
by have [? ->] := ser_compressed_ok (z_of_tau_com vk); eexists.
Qed.

Lemma round_1_ok t vk a aw b c x y z : exists t', absorb_round_1 t vk a aw b c x y z = Ok t'.
Proof.
rewrite /absorb_round_1; have [t1 -> /=] := absorb_vk t vk.
have [t2 -> /=] := absorb_G1 t1 a; have [t3 -> /=] := absorb_F t2 aw.
have [t4 -> /=] := absorb_G1 t3 b; have [t5 -> /=] := absorb_G1 t4 c.
have [t6 -> /=] := absorb_G1 t5 x; have [t7 -> /=] := absorb_G1 t6 y.
exact: absorb_G1.
Qed.

Lemma round_3_ok t a b c x y : exists t', absorb_round_3 t a b c x y = Ok t'.
Proof.
rewrite /absorb_round_3; have [t1 -> /=] := absorb_F t a.
have [t2 -> /=] := absorb_F t1 b; have [t3 -> /=] := absorb_F t2 c.
have [t4 -> /=] := absorb_F t3 x.
exact: absorb_F.
Qed.

(** The challenges can be derived from any signature. *)
Lemma derive_challenges_ok vk pi : exists c, derive_challenges vk pi = Ok c.
Proof.
rewrite /derive_challenges.
have [t -> /=] := round_1_ok Tr.new vk (agg_pk pi) (agg_weight pi) (b_of_tau_com pi)
  (parsum_of_tau_com pi) (qx_of_tau_com pi) (qz_of_tau_com pi) (qx_of_tau_mul_tau_com pi).
rewrite /absorb_round_2; have [t2 -> /=] := absorb_G1 t (q_mrg_of_tau_com pi).
have [t3 -> /=] := round_3_ok t2 (parsum_of_r pi) (parsum_of_r_div_omega pi) (w_of_r pi)
  (b_of_r pi) (q_mrg_of_r pi).
by eexists.
Qed.
End Rounds.

(** ** What a proof contains *)
Section Spec.
Context {E : Engine}.
Variables (tau : F) (n : nat) (w : F) (vk : VerificationKey) (wt b ps : nat -> F).
Variables (wit : Witness) (pi : ThresholdSignature) (chi_q r chi_op : F).

Let B := interp n w b.
Let PS := interp n w ps.
Let W := interp n w wt.
Let Q := Pmrg n w PS W B (wit_agg_weight wit) chi_q %/ Zn F n.

Record proof_of : Prop := {
  po_challenges : derive_challenges vk pi = Ok (chi_q, r, chi_op);
  po_agg_pk : agg_pk pi = wit_agg_pk wit;
  po_agg_weight : agg_weight pi = wit_agg_weight wit;
  po_agg_sig : agg_sig pi = wit_agg_sig wit;
  po_qx : qx_of_tau_com pi = wit_qx_of_tau_com wit;
  po_qxt : qx_of_tau_mul_tau_com pi = wit_qx_of_tau_mul_tau_com wit;
  po_qz : qz_of_tau_com pi = wit_qz_of_tau_com wit;
  po_b : b_of_tau_com pi = B.[tau] *: generator G1;
  po_ps : parsum_of_tau_com pi = PS.[tau] *: generator G1;
  po_q : q_mrg_of_tau_com pi = Q.[tau] *: generator G1;
  po_evals : [/\ parsum_of_r pi = PS.[r], parsum_of_r_div_omega pi = PS.[r / w],
                 w_of_r pi = W.[r], b_of_r pi = B.[r] & q_mrg_of_r pi = Q.[r]];
  po_open_r : exists2 q, opening_proof_r pi = q *: generator G1 &
    (combine [:: Q; PS; B; W] chi_op).[tau] - (combine [:: Q; PS; B; W] chi_op).[r] =
    q * (tau - r);
  po_open_r_div_omega : exists2 q, opening_proof_r_div_omega pi = q *: generator G1 &
    PS.[tau] - PS.[r / w] = q * (tau - r / w)
}.
End Spec.

Lemma Poly_eq0 (R : nzRingType) (s : seq R) : (Poly s == 0) = all (fun c => c == 0) s.
Proof.
apply/eqP/allP => [P0 x xs|z].
  by rewrite -(nth_index 0 xs) -coef_Poly P0 coef0.
apply/polyP => i; rewrite coef_Poly coef0; case: (ltnP i (size s)) => lt.
  exact/eqP/z/mem_nth.
by rewrite nth_default.
Qed.

Section Prove.
Context {E : Engine} {L : EngineLaws E}.
Variables (tau : F) (crs : CRS) (n : nat) (d : Domain_F).
Hypothesis U : universe tau crs n d.
Abbreviation w := (group_gen d).

Lemma interpolateE (f : nat -> F) : exists p,
  [/\ interpolate (mkseq f n) = Ok p, regular p & polyOf p = interp n w f].
Proof. by rewrite /interpolate; have [p [-> pr pE]] := interpolate_mkseq U f; exists p. Qed.

Lemma relationsE b psw wx l aw : regular b -> regular psw -> regular wx -> regular l ->
  polyOf l = Lag n w (n - 1) ->
  exists rs, [/\ relations b psw wx l w aw = Ok rs, all regular rs &
    map polyOf rs = [:: P1 n w (polyOf psw) (polyOf wx) (polyOf b) aw; P2 (polyOf b);
                        P3 n w (polyOf psw); P4 n w (polyOf b)]].
Proof.
move=> br pr wr lr lE; have w_prim : n.-primitive_root w by exact: u_prim U.
have w0 := w_neq0 w_prim; rewrite /relations field_div_ok //= div1r.
have [p' [-> pE' pr']] := @poly_domain_mult_omegaE E L HError psw w^-1 pr.
have {}pr' : regular p' by apply: pr'; rewrite invr_eq0.
have sub_reg p q : regular p -> regular q -> regular (poly_sub p q) by exact: poly_sub_reg.
have mul_reg p q : regular p -> regular q -> regular (poly_mul p q) by exact: poly_mul_reg.
have cr : regular (compute_constant_poly 1%:R) by exact: compute_constant_poly_reg.
have sr := poly_eval_mult_c_reg aw lr.
have w'r := sub_reg _ _ wr sr; have m1 := mul_reg _ _ w'r br; have m2 := mul_reg _ _ br br.
have d1 := sub_reg _ _ pr pr'; have d2 := sub_reg _ _ br cr.
rewrite /=; eexists; split; [by []| |].
  by rewrite /= !sub_reg ?mul_reg.
rewrite /= !poly_mulE // !poly_subE // !poly_mulE // !poly_subE // poly_eval_mult_cE pE' lE.
by rewrite compute_constant_polyE.
Qed.

Lemma openE p z : regular p -> (size (polyOf p) <= n)%N ->
  exists2 q, KZG10.compute_opening_proof crs p z = Ok (q *: generator G1) &
    (polyOf p).[tau] - (polyOf p).[z] = q * (tau - z).
Proof.
case: (u_crs U) => m wf lt pr le.
have [] := compute_opening_proofE wf z pr (leq_trans _ lt) (leq_trans le (ltnW lt)) => //.
by move=> q [oE qE]; exists q.
Qed.

(** [prove] succeeds on every witness of the right lengths; its flag says whether
    the merged relation is divisible by the vanishing polynomial. *)
Lemma proveE ak vk wit (wt b ps : nat -> F) :
  ak_n ak = n -> weights ak = mkseq wt n ->
  wit_bitmap wit = mkseq b n -> wit_parsum wit = mkseq ps n ->
  exists pi chi_q r chi_op,
    prove crs ak vk wit = Ok (pi, Zn F n %| Pmrg n w (interp n w ps) (interp n w wt)
      (interp n w b) (wit_agg_weight wit) chi_q) /\
    proof_of tau n w vk wt b ps wit pi chi_q r chi_op.
Proof.
move=> nE wE bE psE; have w_prim : n.-primitive_root w by exact: u_prim U.
have w0 := w_neq0 w_prim; have n0 := u_gt0 U.
have sz f := size_interp w_prim f.
rewrite /prove nE wE bE psE (u_domain U) /=.
have [pb [-> br pbE]] := interpolateE b; have [pp [-> pr ppE]] := interpolateE ps.
have [pw [-> wr pwE]] := interpolateE wt; rewrite /= usize_subE //=.
have [l [-> lr lE]] := lagrange_iE U (n - 1).
rewrite /= !(u_commit_g1 U) ?pbE ?ppE ?sz //=.
set bc := _ *: generator G1; set pc := _ *: generator G1.
have [t tE] := round_1_ok Tr.new vk (wit_agg_pk wit) (wit_agg_weight wit) bc pc
  (wit_qx_of_tau_com wit) (wit_qz_of_tau_com wit) (wit_qx_of_tau_mul_tau_com wit).
rewrite tE /=; set chi_q := Tr.challenge t _.
have [rs [-> rsr rsE]] := relationsE (wit_agg_weight wit) br pr wr lr lE; rewrite [bind (Ok rs) _]/=.
have [mr mE] := merge_polysE chi_q rsr; rewrite rsE pbE ppE pwE in mE.
have [dsz _] := is_n_valid_domain (u_valid U) (u_domain U).
have := @divide_by_vanishing_polyP E L _ d mr; rewrite dsz mE => /(_ n0).
case: divide_by_vanishing_poly => q rem [qE remE qr _].
have sq : (size (polyOf q) <= n)%N by rewrite qE; apply: size_Qmrg => //; exact: sz.
rewrite (u_commit_g1 U) //=; set qc := _ *: generator G1.
have [t2 t2E] := absorb_G1 t qc; rewrite /absorb_round_2 t2E /=.
set r := Tr.challenge t2 _; rewrite field_div_ok //=.
have [t3 t3E] := round_3_ok t2 (evaluate pp r) (evaluate pp (r / w)) (evaluate pw r)
  (evaluate pb r) (evaluate q r).
rewrite t3E /=; set chi_op := Tr.challenge t3 _.
have [] := @merge_polysE E L [:: q; pp; pb; pw] chi_op; first by rewrite /= qr pr br wr.
set m := merge_polys _ chi_op => mr' mE'; rewrite [map polyOf _]/= ppE pbE pwE qE in mE'.
have sm : (size (polyOf m) <= n)%N.
  by rewrite mE'; apply: size_combine; rewrite /= !sz -qE sq.
have [o1 -> o1E] := openE r mr' sm; have [|o2 -> o2E] := openE (r / w) pr.
  by rewrite ppE sz.
rewrite /=; do 4 eexists; split.
  by congr (Ok (_, _)); rewrite -Poly_eq0 -/(polyOf rem) remE.
split; first by rewrite /derive_challenges /= -/bc -/pc tE /= /absorb_round_2 -/qc t2E /= t3E.
all: rewrite /= ?evaluateE ?ppE ?pbE ?pwE ?qE //.
- by rewrite /qc qE.
- by exists o1 => //; move: o1E; rewrite mE'.
- by exists o2 => //; move: o2E; rewrite ppE.
Qed.

End Prove.
