(* ===== verification/Completeness.v ===== *)
(** * Completeness: an aggregate of valid partial signatures verifies *)
From S2P Require Import Prelude Errors Engine PolyFacts SeqFacts Utils Kzg Transcript Hints.
From S2P Require Import ToyEngine HintSound Keys Ceremony Aggregation Proving.
From mathcomp Require Import ssreflect ssrfun ssrbool eqtype ssrnat seq div path.
From mathcomp Require Import fintype bigop ssralg poly polydiv ring_tactic.
Import GRing.Theory.
Set Warnings "-rewrite-rw".
Set Implicit Arguments.
Unset Strict Implicit.
Unset Printing Implicit Defensive.
Local Open Scope ring_scope.

(** ** The verifier's checks in the exponent *)
Section Checks.
Context {E : Engine} {L : EngineLaws E}.

(** P1..P4 on claimed evaluations, given L_{n-1}(r). *)
Definition scalar_relations (pi : ThresholdSignature) (l : F) : seq F :=
  [:: parsum_of_r pi - parsum_of_r_div_omega pi - (w_of_r pi - agg_weight pi * l) * b_of_r pi;
      b_of_r pi * b_of_r pi - b_of_r pi; l * parsum_of_r pi; l * (b_of_r pi - 1)].

Lemma merged_relation_checkE n w vk pi chi_q r : n.-primitive_root w -> vk_n vk = n ->
  merged_relation_check vk pi w chi_q r =
  Ok ((r ^+ n != 1) &&
      (@combine F F^o (scalar_relations pi (Lag n w (n - 1)).[r]) chi_q ==
       q_mrg_of_r pi * (r ^+ n - 1))).
Proof.
move=> w_prim nE; rewrite /merged_relation_check nE subr_eq0; case: eqVneq => //= rn.
rewrite field_div_ok ?(prim_root_natf_neq0 w_prim) //=.
have ne : r != w ^+ (n - 1).
  apply: contraNneq rn => ->; rewrite -exprM mulnC exprM (prim_expr_order w_prim).
  by rewrite expr1n.
by rewrite field_div_ok ?subr_eq0 //= merge_scalarsE (Lag_off_domain w_prim).
Qed.

Lemma horner_Pmrg n w (PS W B : {poly F}) aw chi r :
  (Pmrg n w PS W B aw chi).[r] =
  @combine F F^o [:: PS.[r] - PS.[r / w] - (W.[r] - aw * (Lag n w (n - 1)).[r]) * B.[r];
    B.[r] * B.[r] - B.[r]; (Lag n w (n - 1)).[r] * PS.[r];
    (Lag n w (n - 1)).[r] * (B.[r] - 1)] chi.
Proof.
rewrite /Pmrg horner_combine /P1 /P2 /P3 /P4; move: (Lag n w (n - 1)) => l /=.
rewrite !(hornerD, hornerN, hornerM, hornerZ, hornerC) horner_comp hornerZ hornerX.
by rewrite (mulrC w^-1).
Qed.

Variables (tau : F) (n : nat) (w : F) (wt sks : nat -> F).
Hypothesis w_prim : n.-primitive_root w.
Abbreviation vk := (spec_vk tau n w wt sks).

Lemma verify_openingE c z e q :
  verify_opening vk (c *: generator G1) z e (q *: generator G1) = (c - e == q * (tau - z)).
Proof.
rewrite /verify_opening /= -!scalerBl -[X in pairing _ X == _]scale1r.
apply/eqP/eqP => [/pairing_exp_inj|H]; first by rewrite mulr1.
by apply/pairing_exp_inj; rewrite mulr1.
Qed.

(** The generalized sumcheck identity B SK = Q_z Z + Q_x X + sum_i b_i sk_i / n. *)
Lemma sumcheck_identity (b : nat -> F) :
  interp n w b * interp n w sks =
  (\sum_(i < n) b i *: \sum_(j < n) sks j *: QZ n w j i) * Zn F n +
  (\sum_(i < n) b i *: (sks i *: QX n w i)) * 'X +
  (n%:R^-1 * \sum_(i < n) b i * sks i)%:P.
Proof.
have expand : interp n w b * interp n w sks =
    \sum_(i < n) \sum_(j < n) (b i * sks j) *: (Lag n w i * Lag n w j).
  rewrite /interp mulr_suml; apply: eq_bigr => i _; rewrite mulr_sumr; apply: eq_bigr => j _.
  by rewrite -scalerAl -scalerAr scalerA.
have split i j : (i < n)%N -> (j < n)%N -> Lag n w i * Lag n w j =
    QZ n w j i * Zn F n + (j == i)%:R *: Lag n w j.
  by move=> li lj; rewrite (QZ_mul w_prim) // mulrC subrK.
rewrite expand !mulr_suml -addrA.
have -> : (n%:R^-1 * \sum_(i < n) b i * sks i)%:P =
    \sum_(i < n) (b i * sks i) *: (n%:R^-1)%:P.
  by rewrite mulr_sumr rmorph_sum; apply: eq_bigr => i _; rewrite scale_polyC mulrC.
rewrite -!big_split; apply: eq_bigr => i _ /=.
transitivity (\sum_(j < n) ((b i * sks j) *: (QZ n w j i * Zn F n) +
    (b i * sks j) *: ((j == i)%:R *: Lag n w j))).
  by apply: eq_bigr => j _; rewrite split // scalerDr.
rewrite big_split /=; congr (_ + _).
  rewrite -scalerAl mulr_suml scaler_sumr; apply: eq_bigr => j _.
  by rewrite -scalerAl scalerA.
rewrite (bigD1 i) //= eqxx scale1r big1 => [j /negbTE ->|].
  by rewrite scale0r scaler0.
rewrite addr0 scalerA -scalerAl -scalerDr; congr (_ *: _).
by rewrite (QX_mul w_prim) subrK.
Qed.

Lemma sumcheck_at (b : nat -> F) x :
  (interp n w b).[x] * (interp n w sks).[x] =
  (\sum_(i < n) b i * \sum_(j < n) sks j * (QZ n w j i).[x]) * (Zn F n).[x] +
  (\sum_(i < n) b i * (sks i * (QX n w i).[x])) * x + n%:R^-1 * \sum_(i < n) b i * sks i.
Proof.
rewrite -hornerM sumcheck_identity; move: (Zn F n) => z.
rewrite !(hornerD, hornerM, hornerX, hornerC) !horner_sum.
congr (_ * _ + _ * _ + _); apply: eq_bigr => i _; rewrite !hornerZ ?horner_sum //.
by congr (_ * _); apply: eq_bigr => j _; rewrite hornerZ.
Qed.

Variables (ids : seq nat) (sig : G2) (pi : ThresholdSignature) (chi_q r chi_op : F).
Hypothesis wt_reserved : wt (n - 1) = 0.
Hypothesis proof : proof_of tau n w vk wt (bit n ids) (psum n wt ids)
  (spec_witness tau n w wt sks ids sig) pi chi_q r chi_op.

Lemma honest_merged : merged_relation_check vk pi w chi_q r = Ok (r ^+ n != 1).
Proof.
rewrite (@merged_relation_checkE n w vk pi chi_q r w_prim erefl) /scalar_relations.
case: (po_evals proof) => -> -> -> -> ->; rewrite (po_agg_weight proof).
have := @honest_relations E n w wt ids w_prim wt_reserved chi_q => /divpK /(congr1 (horner^~ r)).
by rewrite hornerM horner_Pmrg horner_Zn => ->; rewrite eqxx andbT.
Qed.

Lemma honest_opening_r : opening_at_r_check vk pi r chi_op.
Proof.
case: (po_open_r proof) => q qE qr.
rewrite /opening_at_r_check merge_pointsE merge_scalarsE (po_q proof) (po_ps proof) (po_b proof).
case: (po_evals proof) => -> _ -> -> ->; rewrite qE.
set Q := Pmrg _ _ _ _ _ _ _ %/ _.
pose ps := [:: Q; interp n w (psum n wt ids); interp n w (bit n ids); interp n w wt].
have -> : @combine F F^o [:: Q.[r]; (interp n w (psum n wt ids)).[r];
    (interp n w (bit n ids)).[r]; (interp n w wt).[r]] chi_op = (combine ps chi_op).[r].
  by rewrite horner_combine.
have -> : combine [:: Q.[tau] *: generator G1; (interp n w (psum n wt ids)).[tau] *: generator G1;
    (interp n w (bit n ids)).[tau] *: generator G1; w_of_tau_com vk] chi_op =
    (combine ps chi_op).[tau] *: generator G1.
  by rewrite horner_combine -combine_scale.
by rewrite verify_openingE qr.
Qed.

Lemma honest_opening_r_div : opening_at_r_div_omega_check vk pi (r / w).
Proof.
case: (po_open_r_div_omega proof) => q qE qr.
rewrite /opening_at_r_div_omega_check (po_ps proof) qE.
by case: (po_evals proof) => _ -> _ _ _; rewrite verify_openingE qr.
Qed.

Lemma honest_sumcheck : sumcheck_check vk pi (pairing (qx_of_tau_com pi) (h_1 vk)).
Proof.
rewrite /sumcheck_check (po_b proof) (po_qx proof) (po_qz proof) (po_agg_pk proof) /=.
rewrite -[X in _ + pairing _ X]scale1r !pairing_exp -!scalerDl; apply/eqP; congr (_ *: _).
by rewrite sumcheck_at mulr1.
Qed.

Lemma honest_degree : degree_check vk pi (pairing (qx_of_tau_com pi) (h_1 vk)).
Proof.
rewrite /degree_check (po_qx proof) (po_qxt proof) /= -[X in _ == pairing _ X]scale1r.
rewrite !pairing_exp; apply/eqP; congr (_ *: _); rewrite mulr1 mulr_suml; apply: eq_bigr => i _.
rewrite -!mulrA; congr (_ * (_ * _)).
by rewrite -[X in _ * X](hornerX tau) -hornerM (QX_mul w_prim) hornerD hornerN hornerC Lag_at0.
Qed.

End Checks.

(** ** Valid partial signatures *)
Section Signatures.
Context {E : Engine} {L : EngineLaws E}.

Lemma sum_ids (V : lmodType F) (ids : seq nat) (f : nat -> V) n :
  uniq ids -> all (fun i => i < n)%N ids ->
  \sum_(i <- ids) f i = \sum_(i < n) (val i \in ids)%:R *: f i.
Proof.
move=> un /allP lt.
have pe : perm_eq ids [seq i <- iota 0 n | i \in ids].
  apply: uniq_perm => //; first by rewrite filter_uniq // iota_uniq.
  by move=> i; rewrite mem_filter mem_iota add0n /=; case iin: (i \in ids) => //; rewrite lt.
rewrite (perm_big _ pe) /= big_filter big_mkcond /=.
rewrite -(big_mkord xpredT (fun i => (i \in ids)%:R *: f i)) /index_iota subn0.
by apply: eq_bigr => i _; case: (i \in ids); rewrite ?scale1r ?scale0r.
Qed.

Variables (tau : F) (n : nat) (w : F) (wt sks : nat -> F).
Hypothesis n_valid : is_n_valid n.
Abbreviation ak := (spec_ak tau n w wt sks).

Lemma spec_ak_wf : aggregation_key_is_well_formed ak.
Proof. by rewrite /aggregation_key_is_well_formed /= !size_mkseq eqxx. Qed.

(** What [partial_verify] decides: the signature is the secret times the hash. *)
Lemma partial_verifyE msg h i s : hash_to_g2 msg = Ok h -> (i < n - 1)%N ->
  HinTS.partial_verify msg ak i s = Ok [&& sks i != 0, s != 0 & s == sks i *: h].
Proof.
move=> hE lt; have ltn : (i < n)%N by apply: leq_trans lt (leq_subr _ _).
rewrite /HinTS.partial_verify spec_ak_wf /= n_valid /= leqNgt lt /=.
rewrite (vec_get_lt _ 0) ?size_mkseq //= nth_mkseq // scaler_eq0 (negbTE generator_neq0) orbF.
case: (_ != 0) => //=; case: (_ != 0) => //=; rewrite hE /=; congr Ok.
by rewrite pairingZl -pairingZr; apply/eqP/eqP => [/pairing_inj_r ->|->].
Qed.

Lemma partial_verify_inv msg i s : HinTS.partial_verify msg ak i s = Ok true ->
  (i < n - 1)%N /\ exists2 h, hash_to_g2 msg = Ok h & s = sks i *: h.
Proof.
have [lt|ge] := ltnP i (n - 1); last first.
  by rewrite /HinTS.partial_verify spec_ak_wf /= n_valid /= ge.
case hE: (hash_to_g2 msg) => [h| |].
- by rewrite (partial_verifyE _ hE lt) => -[/and3P[_ _ /eqP ->]]; split=> //; exists h.
- rewrite /HinTS.partial_verify spec_ak_wf /= n_valid /= leqNgt lt /= hE.
  by case: (vec_get _ _) => [pk| |] //=; case: (_ != 0) => //=; case: (_ != 0).
- rewrite /HinTS.partial_verify spec_ak_wf /= n_valid /= leqNgt lt /= hE.
  by case: (vec_get _ _) => [pk| |] //=; case: (_ != 0) => //=; case: (_ != 0).
Qed.

(** The sum of valid signatures is the hash times the sum of the signers' secrets. *)
Lemma signatures_sum msg (sigs : seq (nat * G2)) h : hash_to_g2 msg = Ok h ->
  uniq [seq s.1 | s <- sigs] -> sks (n - 1) = 0 ->
  (forall i s, (i, s) \in sigs -> HinTS.partial_verify msg ak i s = Ok true) ->
  \sum_(s <- sigs) s.2 = (\sum_(i < n) bit n [seq s.1 | s <- sigs] i * sks i) *: h.
Proof.
move=> hE un sk0 ok.
have inv i s : (i, s) \in sigs -> (i < n - 1)%N /\ s = sks i *: h.
  by move=> /ok /partial_verify_inv [lt [h']]; rewrite hE => -[<-].
have -> : \sum_(s <- sigs) s.2 = \sum_(i <- [seq s.1 | s <- sigs]) sks i *: h.
  rewrite big_map big_seq [RHS]big_seq; apply: eq_bigr => -[i s] /inv [_ ->] //.
rewrite (@sum_ids _ _ _ n) //.
  apply/allP => i /mapP [[j s] /inv [lt _] ->]; exact: leq_trans lt (leq_subr _ _).
rewrite scaler_suml; apply: eq_bigr => i _; rewrite scalerA /bit /selected.
by case: eqP => [->|_]; rewrite ?sk0 ?mulr0 ?orbF.
Qed.

End Signatures.

Section Main.
Context {E : Engine} {L : EngineLaws E}.
Variables (tau : F) (crs : CRS) (n : nat) (d : Domain_F).
Hypothesis U : universe tau crs n d.
Abbreviation w := (group_gen d).

(** [aggregate] succeeds on any set of slots below the reserved one: the honest
    witness satisfies the relations whatever the signatures are. *)
Lemma aggregateE wt sks vk ak (sigs : seq (nat * G2)) :
  keys_for tau n w wt sks vk ak -> all (fun s => s.1 < n - 1)%N sigs ->
  let ids := [seq s.1 | s <- sigs] in
  exists pi chi_q r chi_op, HinTS.aggregate crs ak vk sigs = Ok pi /\
    proof_of tau n w vk wt (bit n ids) (psum n wt ids)
      (spec_witness tau n w wt sks ids (\sum_(s <- sigs) s.2)) pi chi_q r chi_op.
Proof.
move=> [-> -> w0 s0] lt ids; have w_prim : n.-primitive_root w by exact: u_prim U.
rewrite /HinTS.aggregate spec_ak_wf /= (u_supports U) (u_valid U) /=.
rewrite (@assemble_witnessE E tau n w wt sks ids) ?(u_gt1 U) ?(prim_root_natf_neq0 w_prim) //=.
set wit := spec_witness _ _ _ _ _ _ _.
have [] := @proveE E L tau crs n d U (spec_ak tau n w wt sks) (spec_vk tau n w wt sks) wit wt
  (bit n ids) (psum n wt ids) erefl erefl erefl erefl.
move=> pi [chi_q [r [chi_op [-> po]]]]; exists pi, chi_q, r, chi_op; split=> //=.
by rewrite (honest_relations ids w_prim w0 chi_q).
Qed.

Lemma aggregate_verify_lemma wt sks vk ak msg (sigs : seq (nat * G2)) :
  keys_for tau n w wt sks vk ak -> uniq [seq s.1 | s <- sigs] ->
  (forall i s, (i, s) \in sigs -> HinTS.partial_verify msg ak i s = Ok true) ->
  exists pi chi_q r chi_op,
    [/\ HinTS.aggregate crs ak vk sigs = Ok pi,
        agg_weight pi = \sum_(s <- sigs) wt s.1,
        derive_challenges vk pi = Ok (chi_q, r, chi_op) &
        forall fraction, HinTS.verify msg vk pi fraction =
          Ok [&& agg_pk pi != 0, agg_sig pi != 0,
                 field_gt (fraction.2 * agg_weight pi) (fraction.1 * total_weight vk)
               & r ^+ n != 1]].
Proof.
move=> K un ok; have w_prim : n.-primitive_root w by exact: u_prim U.
have := K => -[vkE akE wt0 sk0]; rewrite akE in ok.
have lt : all (fun s => s.1 < n - 1)%N sigs.
  by apply/allP => -[i s] /ok /(partial_verify_inv (u_valid U)) [].
have [pi [chi_q [r [chi_op [aE po]]]]] := aggregateE K lt.
exists pi, chi_q, r, chi_op; split=> //; first 1 last.
- exact: po_challenges po.
- case=> num den /=; rewrite /HinTS.verify vkE /= (u_valid U) /=.
  case: (eqVneq (agg_pk pi) 0) => //= pk0; case: (_ != 0) => //=; case: (field_gt _ _) => //=.
  have [h hE] : exists h, hash_to_g2 msg = Ok h.
    case: sigs ok po {un lt aE K} => [|[i s] sigs] ok po; last first.
      by have [] := partial_verify_inv (u_valid U) (ok i s (mem_head _ _)) => _ [h hE _]; exists h.
    move: pk0; rewrite (po_agg_pk po) /= big1 ?mulr0 ?scale0r ?eqxx // => i _.
    by rewrite /bit /selected in_nil /=; case: eqP => [->|_]; rewrite ?sk0 ?mulr0 ?mul0r.
  have -> : bls_check msg (spec_vk tau n w wt sks) pi = Ok true.
    rewrite /bls_check hE /= (po_agg_pk po) (po_agg_sig po) /=.
    rewrite (signatures_sum (u_valid U) hE un sk0 ok) scalerA.
    by rewrite pairingZl pairingZr eqxx.
  rewrite /= /nth_root_of_unity (u_domain U) /= -vkE (po_challenges po) /= vkE.
  rewrite vkE in po; rewrite (honest_merged w_prim wt0 po) /=; case: (_ != 1) => //=.
  rewrite (honest_opening_r po) field_div_ok ?(w_neq0 w_prim) //= (honest_opening_r_div po) /=.
  by rewrite (honest_sumcheck w_prim po) (honest_degree w_prim po).
- rewrite (po_agg_weight po) /= -(big_map fst xpredT wt) (@sum_ids E F^o _ wt n) //.
  by rewrite all_map; apply: sub_all lt => s /= lt; apply: leq_trans lt (leq_subr _ _).
Qed.

End Main.

(** ** Theorems *)
Section Theorems.
Context {E : Engine} {L : EngineLaws E}.

(** C3: end-to-end completeness.  For keys produced by [preprocess] and any set of
    distinct signers whose partial signatures [partial_verify] accepts,
    [aggregate] succeeds, the aggregate weight it claims is the sum of the
    signers' registered weights, and [verify] answers without error: it accepts
    exactly when the aggregate key and signature are not the identity, the
    strict threshold comparison holds, and the challenge point is outside the
    evaluation domain. *)
Theorem aggregate_verifies tau crs n d info vk ak msg (sigs : seq (nat * G2)) :
  universe tau crs n d -> HinTS.preprocess n crs info = Ok (vk, ak) ->
  uniq [seq s.1 | s <- sigs] ->
  (forall i s, (i, s) \in sigs -> HinTS.partial_verify msg ak i s = Ok true) ->
  exists pi chi_q r chi_op,
    [/\ HinTS.aggregate crs ak vk sigs = Ok pi,
        agg_weight pi = \sum_(s <- sigs) registered_weight info s.1,
        derive_challenges vk pi = Ok (chi_q, r, chi_op) &
        forall fraction, HinTS.verify msg vk pi fraction =
          Ok [&& agg_pk pi != 0, agg_sig pi != 0,
                 field_gt (fraction.2 * agg_weight pi) (fraction.1 * total_weight vk)
               & r ^+ n != 1]].
Proof.
move=> U pE un ok; have [sks [K _]] := preprocess_inv U pE.
exact: (aggregate_verify_lemma U K un ok).
Qed.

(** The bits set by the loop do not depend on the order of the entries. *)
Lemma assemble_witness_perm ak (sigs sigs' : seq (nat * G2)) :
  is_n_valid (ak_n ak) -> all (fun s => s.1 < ak_n ak - 1)%N sigs -> perm_eq sigs sigs' ->
  assemble_witness ak sigs = assemble_witness ak sigs'.
Proof.
move=> nv lt pe; have n1 : (1 < ak_n ak)%N by case/andP: nv.
have lt' : all (fun s => s.1 < ak_n ak - 1)%N sigs' by rewrite -(perm_all _ pe).
rewrite /assemble_witness; case: field_div => //= n_inv.
have -> : nseq (ak_n ak) 0%:R = mkseq (fun i => (i \in [::])%:R) (ak_n ak) :> seq F.
  apply: (@eq_from_nth _ 0); rewrite size_nseq ?size_mkseq // => i lti.
  by rewrite nth_nseq lti nth_mkseq.
rewrite !bitmap_loop //=.
have -> : mkseq (fun i => (i \in [seq s.1 | s <- sigs])%:R) (ak_n ak) =
    mkseq (fun i => (i \in [seq s.1 | s <- sigs'])%:R) (ak_n ak) :> seq F.
  by apply: eq_mkseq => i; rewrite (perm_mem (perm_map fst pe)).
by rewrite /add !foldl_addr !big_map (perm_big _ pe).
Qed.

(** [aggregate] does not depend on the iteration order of its hash map: two
    enumerations of the same partial signatures give the same outcome. *)
Theorem aggregate_order_independent crs ak vk (sigs sigs' : seq (nat * G2)) :
  all (fun s => s.1 < ak_n ak - 1)%N sigs -> perm_eq sigs sigs' ->
  HinTS.aggregate crs ak vk sigs = HinTS.aggregate crs ak vk sigs'.
Proof.
move=> lt pe; rewrite /HinTS.aggregate; case: aggregation_key_is_well_formed => //=.
case: crs_supports => //=; case nv: is_n_valid => //=.
by rewrite (assemble_witness_perm nv lt pe).
Qed.

End Theorems.

(** ** Witnesses *)

Definition toy_msg : bytes := [:: Byte.x01].

Definition toy_sig (i : nat) : @G2 toy :=
  if HinTS.sign toy_msg (toy_sk i) is Ok s then s else 0.

Definition toy_sigs : seq (nat * @G2 toy) := [:: (0%N, toy_sig 0); (1%N, toy_sig 1)].

Lemma toy_sigs_valid i s : (i, s) \in toy_sigs ->
  HinTS.partial_verify toy_msg toy_ak i s = Ok true.
Proof. by rewrite !in_cons in_nil orbF => /orP[] /eqP[-> ->]; vm_compute. Qed.

Lemma aggregate_verifies_witness : exists pi chi_q r chi_op,
  [/\ HinTS.aggregate (toy_crs 5%:R 5) toy_ak toy_vk toy_sigs = Ok pi,
      agg_weight pi = \sum_(s <- toy_sigs) registered_weight toy_info s.1,
      derive_challenges toy_vk pi = Ok (chi_q, r, chi_op) &
      forall fraction, HinTS.verify toy_msg toy_vk pi fraction =
        Ok [&& agg_pk pi != 0, agg_sig pi != 0,
               field_gt (fraction.2 * agg_weight pi) (fraction.1 * total_weight toy_vk)
             & r ^+ 4 != 1]].
Proof.
exact: (@aggregate_verifies toy toy_laws _ _ _ _ _ _ _ _ _ toy_universe toy_preprocess _
  toy_sigs_valid).
Defined.

Lemma aggregate_order_independent_witness :
  HinTS.aggregate (toy_crs 5%:R 5) toy_ak toy_vk toy_sigs =
  HinTS.aggregate (toy_crs 5%:R 5) toy_ak toy_vk (rev toy_sigs).
Proof.
apply: (@aggregate_order_independent toy); first by vm_compute.
by rewrite perm_sym perm_rev.
Defined.
