(* ===== verification/Safety.v ===== *)
(** * Panic freedom: no operation of the scheme panics, on any input

    None of the statements assumes a well-formed reference string, key, hint or
    signature: the inputs are arbitrary values of their types, as after
    deserialization of hostile bytes. *)
From S2P Require Import Prelude Errors Engine PolyFacts SeqFacts Utils Kzg Transcript Hints.
From S2P Require Import HintSound Keys Ceremony Aggregation Proving Completeness.
From mathcomp Require Import ssreflect ssrfun ssrbool eqtype ssrnat seq div path.
From mathcomp Require Import fintype bigop ssralg poly polydiv ring_tactic.
Import GRing.Theory.
Set Warnings "-rewrite-rw".
Set Implicit Arguments.
Unset Strict Implicit.
Unset Printing Implicit Defensive.
Local Open Scope ring_scope.

Create HintDb safety.
#[export] Hint Resolve commit_g1_no_panic commit_g2_no_panic lift_hashing_no_panic
  lift_encoding_no_panic ok_or_no_panic absorb_no_panic : safety.
#[export] Hint Extern 1 (never_panics (Ok _)) => discriminate : safety.
#[export] Hint Extern 1 (never_panics (Err _)) => discriminate : safety.

(** Decomposes a sequence of binds, guards and checks. *)
Ltac no_panic_step :=
  match goal with
  | |- never_panics (bind _ _) => apply: bind_no_panic; [|intros ? ?]
  | |- never_panics (if _ then _ else _) => apply: if_no_panic; intros ?
  | |- never_panics (let: _ := _ in _) => progress simpl
  end.
Ltac no_panic := repeat (no_panic_step || solve [eauto with safety]).

Section Facts.
Context {E : Engine} {L : EngineLaws E}.

(** Powers of two are invertible in the scalar field. *)
Lemma pow2_neq0 n : is_n_valid n -> n%:R != 0 :> F.
Proof.
move=> /is_n_valid_pow2 [k _ ->]; rewrite natrX expf_neq0 //.
have [d dE] := @domain_new_ok E L 1 TWO_ADICITY_gt0.
by have [_ /prim_root_natf_neq0] := @domain_newP E L 1 d dE.
Qed.

Lemma lagrange_no_panic tmpl n i : is_n_valid n -> never_panics (lagrange_or_err tmpl n i).
Proof.
move=> nv; rewrite /lagrange_or_err /lagrange_poly; case: nth_root_of_unity => [w|] //=.
by rewrite field_div_ok ?pow2_neq0.
Qed.

Lemma lagrange_i_no_panic n i : is_n_valid n -> never_panics (lagrange_i n i).
Proof. exact: lagrange_no_panic. Qed.

Lemma qz_numerator_no_panic n i l j : is_n_valid n -> never_panics (HinTS.qz_numerator n i l j).
Proof.
move=> nv; rewrite /HinTS.qz_numerator; no_panic; exact: lagrange_no_panic.
Qed.

Lemma hash_to_g2_no_panic msg : never_panics (hash_to_g2 msg).
Proof. by rewrite /hash_to_g2; no_panic. Qed.

Lemma pok_oracle_no_panic a b c : never_panics (proof_of_knowledge_random_oracle a b c).
Proof. by have [h ->] := pok_oracle_ok a b c. Qed.

Lemma generate_pok_no_panic x seed : never_panics (generate_proof_of_knowledge x seed).
Proof. by have [p ->] := generate_pok_ok x seed. Qed.

Lemma verify_pok_no_panic p pk : never_panics (verify_proof_of_knowledge p pk).
Proof. by have [b ->] := verify_pok_ok p pk. Qed.

Lemma vec_get_no_panic (A : Type) (v : seq A) i : (i < size v)%N ->
  never_panics (vec_get v i : outcome HError A).
Proof. by rewrite /vec_get; elim: v i => [|x v IH] [|i] //= lt; apply: IH. Qed.

Lemma supports_g crs n i : crs_supports crs n -> (i <= n)%N ->
  never_panics (vec_get (powers_of_g crs) i : outcome HError G1).
Proof. by move=> /andP[lt _] le; apply/vec_get_no_panic/leq_ltn_trans/lt. Qed.

Lemma supports_h crs n i : crs_supports crs n -> (i <= n)%N ->
  never_panics (vec_get (powers_of_h crs) i : outcome HError G2).
Proof. by move=> /andP[_ lt] le; apply/vec_get_no_panic/leq_ltn_trans/lt. Qed.

End Facts.

#[export] Hint Resolve lagrange_no_panic lagrange_i_no_panic qz_numerator_no_panic
  hash_to_g2_no_panic generate_pok_no_panic verify_pok_no_panic : safety.

Section Operations.
Context {E : Engine} {L : EngineLaws E}.

Lemma hint_gen_safe crs n i sk : never_panics (HinTS.hint_gen crs n i sk).
Proof.
rewrite /HinTS.hint_gen; case nv: (is_n_valid n) => //=; case: leqP => //= lti.
case: (crs_supports crs n) => //=; no_panic.
by apply: mapM_no_panic_in => j _; no_panic.
Qed.

Lemma verify_hint_safe crs n i hint : never_panics (HinTS.verify_hint crs n i hint).
Proof.
rewrite /HinTS.verify_hint; case nv: (is_n_valid n) => //=; case: leqP => //= lti.
case sup: (crs_supports crs n) => //=; no_panic; try exact: supports_h sup _;
  try exact: supports_g sup _.
apply: allM_no_panic_in => j; rewrite mem_iota add0n /= => ltj; no_panic.
- apply: vec_get_no_panic.
  by match goal with H : is_true (n == _) |- _ => rewrite -(eqP H) end.
- exact: supports_h sup _.
Qed.

(** The shape of the hints that [preprocess] collects. *)
Lemma verify_hint_shape crs n i hint : HinTS.verify_hint crs n i hint = Ok true ->
  epk_i hint = i /\ size (qz_i_terms hint) = n.
Proof.
rewrite /HinTS.verify_hint; case: (is_n_valid n) => //=; case: leqP => //= _.
case: (crs_supports crs n) => //=; case: eqP => //= iE; case: eqP => //= _.
by case: eqP => //= nE.
Qed.

Lemma hint_gen_shape crs n i sk hint : HinTS.hint_gen crs n i sk = Ok hint ->
  epk_i hint = i /\ size (qz_i_terms hint) = n.
Proof.
rewrite /HinTS.hint_gen; case: (is_n_valid n) => //=; case: leqP => //= _.
case: (crs_supports crs n) => //=; case: lagrange_i => //= l.
case mE: (mapM _ _) => [qz| |] //= H; have := size_mapM mE; rewrite size_iota => sz.
by do 5 (apply bind_Ok_inv in H as [? [_ H]]); case: H => <-.
Qed.

Lemma preprocess_slot_shape n crs info i s : HinTS.preprocess_slot n crs info i = Ok s ->
  epk_i s.2 = i /\ size (qz_i_terms s.2) = n.
Proof.
rewrite /HinTS.preprocess_slot; case: HinTS.hashmap_get => [[x h]|].
  case: eqP => //= _; case acc: HinTS.verify_hint => [b| |] //=; case: b acc => //= acc [<-].
  exact: verify_hint_shape acc.
case: generate_proof_of_knowledge => [pop| |] //=; case gE: HinTS.hint_gen => [h| |] //= [<-].
exact: hint_gen_shape gE.
Qed.

Lemma preprocess_slot_safe n crs info i : never_panics (HinTS.preprocess_slot n crs info i).
Proof.
rewrite /HinTS.preprocess_slot; case: HinTS.hashmap_get => [[x h]|]; no_panic.
  exact: verify_hint_safe.
exact: hint_gen_safe.
Qed.

(** The rows collected by [preprocess] form a square. *)
Lemma qz_square_safe n (rows : seq (seq G1)) :
  size rows = n -> all (fun r => size r == n) rows ->
  exists2 v, preprocess_qz_contributions rows = Ok v & size v = n.
Proof.
move=> sz /allP sq.
have -> : rows = mkseq (fun i => mkseq (nth 0 (nth [::] rows i)) n) n.
  apply: (@eq_from_nth _ [::]); rewrite ?size_mkseq ?sz // => i lt; rewrite nth_mkseq //.
  have /eqP <- : size (nth [::] rows i) == n by apply/sq/mem_nth; rewrite sz.
  by rewrite mkseq_nth.
by rewrite preprocess_qzE; eexists; [by []|rewrite size_mkseq].
Qed.

Lemma preprocess_safe n crs info : never_panics (HinTS.preprocess n crs info).
Proof.
rewrite /HinTS.preprocess; case nv: (is_n_valid n) => //=; case: ifP => // _.
case: ohead => [//|]; case sup: (crs_supports crs n) => //=.
have n1 : (1 < n)%N by case/andP: nv.
case mE: (mapM _ _) => [slots| |] //=; last first.
  have : never_panics (mapM (HinTS.preprocess_slot n crs info) (iota 0 n)).
    by apply: mapM_no_panic => i; apply: preprocess_slot_safe.
  by rewrite mE.
have sz := size_mapM mE; rewrite size_iota in sz.
pose s0 := (0 : @F E, @MkExtendedPublicKey E 0 0 0 (@MkProofOfPossesion E 0 0 0) 0 0 [::] 0 0).
have shape i : (i < n)%N -> epk_i (nth s0 slots i).2 = i /\ size (qz_i_terms (nth s0 slots i).2) = n.
  move=> lt; apply: (@preprocess_slot_shape n crs info).
  by have := nth_mapM 0%N s0 mE (i := i); rewrite size_iota nth_iota //; apply.
have szm : size [seq s.2 | s <- slots] = n by rewrite size_map.
have := @scatter_loop E [::] [seq s.2 | s <- slots]; rewrite szm /= => ->.
  by move=> k lt; rewrite -map_comp (nth_map s0) ?sz //= (proj1 (shape k lt)).
rewrite /=; no_panic; try exact: supports_h sup _; try exact: supports_g sup _.
- exact: supports_h sup (ltnW n1).
- have [] := @qz_square_safe n (map qz_i_terms [seq s.2 | s <- slots]) => [||v -> _] //.
    by rewrite size_map szm.
  apply/(all_nthP [::]) => i; rewrite !size_map sz => lt; rewrite -map_comp (nth_map s0) ?sz //=.
  by rewrite (proj2 (shape i lt)).
Qed.

Lemma partial_verify_safe msg ak i s : never_panics (HinTS.partial_verify msg ak i s).
Proof.
rewrite /HinTS.partial_verify; case nv: (is_n_valid _) => //=.
case wf: (aggregation_key_is_well_formed ak) => //=; case: leqP => //= lt; no_panic.
apply: vec_get_no_panic; case/and5P: wf => _ /eqP -> _ _ _.
exact: leq_trans lt (leq_subr _ _).
Qed.

Lemma partial_verify_batch_safe r msg ak ids sigs :
  never_panics (HinTS.partial_verify_batch r msg ak ids sigs).
Proof.
rewrite /HinTS.partial_verify_batch; case nv: (is_n_valid _) => //=.
case wf: (aggregation_key_is_well_formed ak) => //=; case: eqP => //= _; case: nilp => //=.
case bad: (has _ _) => //=.
have get i : i \in ids -> never_panics (vec_get (pks ak) i : outcome HError G1).
  move=> iin; apply: vec_get_no_panic; case/and5P: wf => _ /eqP -> _ _ _.
  move/negbT: bad; rewrite -all_predC => /allP /(_ i iin) /=; rewrite -ltnNge => lt.
  exact: leq_trans lt (leq_subr _ _).
no_panic; first by apply: allM_no_panic_in => i iin; no_panic; apply: get.
by apply: mapM_no_panic_in => i iin; apply: get.
Qed.

Lemma vec_set_size (A : Type) (v : seq A) i x v' :
  vec_set v i x = Ok v' :> outcome HError _ -> size v' = size v.
Proof.
rewrite /vec_set; case: PeanoNat.Nat.ltb => // -[<-].
exact: update_length.
Qed.

Lemma vec_set_no_panic (A : Type) (v : seq A) i x : (i < size v)%N ->
  never_panics (vec_set v i x : outcome HError _).
Proof. by move=> lt; rewrite (vec_set_lt _ x). Qed.

(** The loop that sets the bits: an out-of-range party is an error, never a panic. *)
Lemma bitmap_safe n (sigs : seq (nat * G2)) (bm : seq F) : (1 < n)%N -> size bm = n ->
  never_panics (foldM (set_bit n) bm sigs) /\
  forall bm', foldM (set_bit n) bm sigs = Ok bm' -> size bm' = n.
Proof.
move=> n1; elim: sigs bm => [|[i s] sigs IH] bm sz; first by split=> // bm' [<-].
rewrite -[foldM _ _ _]/(bind (set_bit n bm (i, s)) _).
have [lt|ge] := ltnP i (n - 1); last first.
  rewrite /set_bit usize_subE //=.
  by have -> : (n - 2 < i)%N by apply: leq_trans ge; rewrite ltn_sub2l.
have ltn : (i < size bm)%N by rewrite sz; apply: leq_trans lt (leq_subr _ _).
have -> : set_bit n bm (i, s) = vec_set bm i 1%:R.
  rewrite /set_bit usize_subE //= ltnNge.
  by have -> : (i <= n - 2)%N by rewrite -ltnS -subSn // subSS.
have := @vec_set_no_panic _ bm i 1%:R ltn; case vE: (vec_set _ _ _) => [bm'| |] //= _.
by apply: IH; rewrite (vec_set_size vE).
Qed.

Lemma assemble_witness_safe ak sigs : is_n_valid (ak_n ak) ->
  aggregation_key_is_well_formed ak -> never_panics (assemble_witness ak sigs) /\
  forall wit, assemble_witness ak sigs = Ok wit ->
    size (wit_bitmap wit) = ak_n ak /\ size (wit_parsum wit) = ak_n ak.
Proof.
move=> nv /and5P[/eqP szw _ _ _ _]; have n1 : (1 < ak_n ak)%N by case/andP: nv.
have n0 := ltnW n1; have ln : (ak_n ak - 1 < ak_n ak)%N by rewrite ltn_subrL.
rewrite /assemble_witness field_div_ok ?pow2_neq0 //=.
have [] := @bitmap_safe (ak_n ak) sigs _ n1 (size_nseq (ak_n ak) 0%:R).
case: foldM => [bm| |] //= _ /(_ _ erefl) szb.
rewrite usize_subE //= !(vec_set_lt _ 0) ?szb ?szw //=; split=> // wit [<-] /=.
by rewrite /running_sums size_scanl size_zip !size_set_nth_lt ?szb ?szw // minnn.
Qed.

Lemma interpolate_regular n d evals p : is_n_valid n -> domain_new n = Some d ->
  size evals = n -> interpolate evals = Ok p -> regular p.
Proof.
move=> nv dn sz; have [p' [pE pr _]] := interpolate_polyE nv sz dn.
by rewrite /interpolate pE => -[<-].
Qed.

Lemma absorb_round_1_safe t vk a aw b c x y z :
  never_panics (absorb_round_1 t vk a aw b c x y z).
Proof. by have [t' ->] := round_1_ok t vk a aw b c x y z. Qed.

Lemma absorb_round_3_safe t a b c x y : never_panics (absorb_round_3 t a b c x y).
Proof. by have [t' ->] := round_3_ok t a b c x y. Qed.

Lemma prove_safe crs ak vk wit : is_n_valid (ak_n ak) ->
  size (wit_parsum wit) = ak_n ak -> never_panics (prove crs ak vk wit).
Proof.
move=> nv szp; have n1 : (1 < ak_n ak)%N by case/andP: nv.
rewrite /prove; case dn: (domain_new _) => [d|] //=.
have [_ w_prim] := is_n_valid_domain nv dn; have w0 := w_neq0 w_prim.
apply: bind_no_panic => [|b _]; first by rewrite /interpolate; no_panic.
apply: bind_no_panic => [|ps psE]; first by rewrite /interpolate; no_panic.
have psr := interpolate_regular nv dn szp psE.
apply: bind_no_panic => [|wx _]; first by rewrite /interpolate; no_panic.
rewrite usize_subE ?(ltnW n1) //=; apply: bind_no_panic => [|l _]; first by no_panic.
do 2 (apply: bind_no_panic => [|? _]; first by no_panic).
apply: bind_no_panic => [|t _]; first exact: absorb_round_1_safe.
apply: bind_no_panic => [|rs _].
  rewrite /relations field_div_ok //=.
  by have [p' [-> _ _]] := @poly_domain_mult_omegaE E L HError ps (1 / group_gen d) psr.
case: divide_by_vanishing_poly => q rem; rewrite /absorb_round_2.
do 2 (apply: bind_no_panic => [|? _]; first by no_panic).
rewrite field_div_ok //=; apply: bind_no_panic => [|? _]; first exact: absorb_round_3_safe.
by rewrite /KZG10.compute_opening_proof; no_panic.
Qed.

Lemma aggregate_safe crs ak vk sigs : never_panics (HinTS.aggregate crs ak vk sigs).
Proof.
rewrite /HinTS.aggregate; case wf: aggregation_key_is_well_formed => //=.
case: crs_supports => //=; case nv: is_n_valid => //=.
have [safe sizes] := assemble_witness_safe sigs nv wf.
apply: bind_no_panic => // wit /sizes [_ szp].
by apply: bind_no_panic => [|[pi exact] _]; [exact: prove_safe|no_panic].
Qed.

Lemma verify_safe msg vk pi fraction : never_panics (HinTS.verify msg vk pi fraction).
Proof.
rewrite /HinTS.verify; case nv: is_n_valid => //=; do 2 (case: (_ != 0) => //=).
case: fraction => num den; case: field_gt => //=.
apply: bind_no_panic => [|bls _]; first by rewrite /bls_check; no_panic.
case: bls => //=; rewrite /nth_root_of_unity; case dn: domain_new => [d|] //=.
have [_ w_prim] := is_n_valid_domain nv dn.
have [[[chi_q r] chi_op] ->] := derive_challenges_ok vk pi.
rewrite /= (merged_relation_checkE _ _ _ w_prim) //=; case: (_ && _) => //=.
by case: opening_at_r_check => //=; rewrite field_div_ok ?(w_neq0 w_prim) //=; no_panic.
Qed.

End Operations.

(** ** Theorems *)
Section Theorems.
Context {E : Engine} {L : EngineLaws E}.

(** The verifier and the aggregator do not panic, whatever keys, signatures,
    reference strings, party indices, messages and thresholds they are given:
    each call of [verify], [aggregate], [partial_verify] and
    [partial_verify_batch] returns a verdict, a signature or an error. *)
Theorem signing_never_panics crs ak vk msg party_id sig (sigs : seq (nat * G2)) r ids batch pi
    fraction :
  [/\ never_panics (HinTS.verify msg vk pi fraction),
      never_panics (HinTS.aggregate crs ak vk sigs),
      never_panics (HinTS.partial_verify msg ak party_id sig) &
      never_panics (HinTS.partial_verify_batch r msg ak ids batch)].
Proof.
split; [exact: verify_safe|exact: aggregate_safe|exact: partial_verify_safe|].
exact: partial_verify_batch_safe.
Qed.

(** The set-up operations do not panic either: [hint_gen], [verify_hint] and
    [preprocess] return a value or an error for every reference string, well
    formed or not, every size and index, every hint and every address book. *)
Theorem setup_never_panics crs n i sk hint info :
  [/\ never_panics (HinTS.hint_gen crs n i sk),
      never_panics (HinTS.verify_hint crs n i hint) &
      never_panics (HinTS.preprocess n crs info)].
Proof. by split; [exact: hint_gen_safe|exact: verify_hint_safe|exact: preprocess_safe]. Qed.

End Theorems.
