(* ===== verification/Soundness.v ===== *)
(** * Soundness of the verifier's relations and of batch verification

    The statements are about the algebraic content of the checks: a prover that
    commits to polynomials and passes a check at sufficiently many values of the
    challenge has told the truth.  The number of challenges is the degree bound of
    the Schwartz-Zippel argument the scheme relies on. *)
From S2P Require Import Prelude Errors Engine PolyFacts SeqFacts Utils Kzg Transcript Hints.
From S2P Require Import ToyEngine HintSound Keys Ceremony Aggregation Proving Completeness Safety.
From mathcomp Require Import ssreflect ssrfun ssrbool eqtype ssrnat seq div path.
From mathcomp Require Import fintype bigop ssralg poly polydiv ring_tactic.
Import GRing.Theory.
Set Warnings "-rewrite-rw".
Set Implicit Arguments.
Unset Strict Implicit.
Unset Printing Implicit Defensive.
Local Open Scope ring_scope.

Section Algebra.
Variables (K : fieldType) (n : nat) (w : K).
Hypothesis w_prim : n.-primitive_root w.
Implicit Types (PS W B : {poly K}) (aw chi : K).

(** A combination is a polynomial in its coefficient. *)
Lemma combine_horner (vs : seq K) chi : @combine K K^o vs chi = (Poly vs).[chi].
Proof.
by elim: vs => [|v vs IH] /=; rewrite ?horner0 // horner_cons IH addrC mulrC.
Qed.

(** A combination that vanishes for as many distinct coefficients as it has terms
    has only zero terms. *)
Lemma combine_separates (vs : seq K) (X : seq K) :
  uniq X -> (size vs <= size X)%N ->
  (forall chi, chi \in X -> @combine K K^o vs chi = 0) -> forall i, vs`_i = 0.
Proof.
move=> un le H i; rewrite -coef_Poly (@poly_eq0_roots _ (Poly vs) X) ?coef0 //.
  by move=> chi /H; rewrite combine_horner.
exact: leq_trans (size_Poly _) le.
Qed.

(** The sum of the cyclic differences is zero. *)
Lemma cyclic_sum (f : nat -> K) : (0 < n)%N ->
  \sum_(i < n) f (if val i is i'.+1 then i' else n.-1) = \sum_(i < n) f i.
Proof. by case: n => // k _; rewrite big_ord_recl big_ord_recr /= addrC. Qed.

(** If the four relations vanish on the domain, the bitmap is binary with the
    reserved bit set and the claimed weight is the weight of the bitmap. *)
Lemma relations_weight PS B (wt : nat -> K) aw : wt (n - 1)%N = 0 ->
  (forall i, (i < n)%N ->
     [/\ (P1 n w PS (interp n w wt) B aw).[w ^+ i] = 0, (P2 B).[w ^+ i] = 0 &
         (P4 n w B).[w ^+ i] = 0]) ->
  exists S : nat -> bool,
    [/\ forall i, (i < n)%N -> B.[w ^+ i] = (S i)%:R, S (n - 1)%N &
        aw = \sum_(i < n) (S i)%:R * wt i].
Proof.
move=> wt0 H; have n0 := prim_order_gt0 w_prim.
have ln : (n - 1 < n)%N by rewrite ltn_subrL n0.
exists (fun i => B.[w ^+ i] == 1).
have bin i : (i < n)%N -> B.[w ^+ i] = (B.[w ^+ i] == 1)%:R.
  move=> lt; have [_ + _] := H i lt; rewrite P2_domain; move: B.[_] => b /eqP.
  have -> : b * b - b = b * (b - 1) by rewrite mulrBr mulr1.
  rewrite mulf_eq0 subr_eq0 => /orP[/eqP ->|/eqP ->].
    by rewrite eq_sym oner_eq0.
  by rewrite eqxx.
have last1 : B.[w ^+ (n - 1)] = 1.
  have [_ _] := H _ ln; rewrite (P4_domain w_prim) // eqxx mul1r => /eqP.
  by rewrite subr_eq0 => /eqP.
split=> //; first by rewrite last1.
have sum0 : \sum_(i < n) (P1 n w PS (interp n w wt) B aw).[w ^+ i] = 0.
  by apply: big1 => i _; have [-> _ _] := H i (ltn_ord i).
move: sum0; under eq_bigr => i _ do rewrite (P1_domain w_prim) // (interp_domain w_prim) //.
rewrite !big_split /= sumrN (cyclic_sum (fun i => PS.[w ^+ i])) // subrr add0r sumrN.
move/eqP; rewrite oppr_eq0; under eq_bigr => i _ do rewrite mulrBl.
rewrite big_split /= sumrN subr_eq0 => /eqP; rewrite (bigD1 (Ordinal ln)) //=.
rewrite [X in _ = X -> _](bigD1 (Ordinal ln)) //= wt0 mul0r add0r eqxx mulr1 last1 mulr1.
rewrite [X in _ = aw + X -> _]big1 => [i ne|].
  have -> : (val i == n - 1)%N = false.
    by apply/negbTE; apply: contraNneq ne => iE; apply/eqP/val_inj.
  by rewrite mulr0 mul0r.
rewrite addr0 => <-; rewrite [RHS](bigD1 (Ordinal ln)) //= wt0 mulr0 add0r.
by apply: eq_bigr => i _; rewrite mulrC; congr (_ * _); apply: bin.
Qed.

(** Degree bound for the merged relation with polynomials of size [m]. *)
Lemma size_Pmrg_wide PS W B aw chi m : (n <= m)%N ->
  (size PS <= m)%N -> (size W <= m)%N -> (size B <= m)%N ->
  (size (Pmrg n w PS W B aw chi) <= m + m)%N.
Proof.
move=> nm sPS sW sB.
have sL : (size (Lag n w (n - 1)) <= m)%N by rewrite (size_Lag w_prim).
have mul (p q : {poly K}) : (size p <= m)%N -> (size q <= m)%N -> (size (p * q)%R <= m + m)%N.
  move=> sp sq; apply: leq_trans (size_polyMleq _ _) _; apply: leq_trans (leq_pred _) _.
  exact: leq_add.
have sub (p q : {poly K}) k : (size p <= k)%N -> (size q <= k)%N -> (size (p - q)%R <= k)%N.
  by move=> sp sq; apply: leq_trans (size_polyD _ _) _; rewrite size_polyN geq_max sp.
have mm : (m <= m + m)%N by rewrite leq_addr.
apply: size_combine; rewrite /= andbT; apply/and4P; split.
- apply: (sub); last by apply: mul => //; apply: sub => //; apply: leq_trans (size_scale_leq _ _) _.
  by apply: leq_trans mm; apply: sub => //; apply: size_comp_scaleX.
- by apply: (sub) (mul _ _ sB sB) _; apply: leq_trans mm.
- exact: mul.
- apply: mul => //; apply: sub => //; rewrite size_poly1.
  exact: leq_trans (prim_order_gt0 w_prim) nm.
Qed.

End Algebra.

(** The evaluations a signature claims are those of the given polynomials. *)
Definition evaluates {E : Engine} (pi : ThresholdSignature) (w r : F) (PS W B Q : {poly F}) : Prop :=
  [/\ parsum_of_r pi = PS.[r], parsum_of_r_div_omega pi = PS.[r / w], w_of_r pi = W.[r],
      b_of_r pi = B.[r] & q_mrg_of_r pi = Q.[r]].

Section Relations.
Context {E : Engine} {L : EngineLaws E}.
Variables (n : nat) (w : F) (m : nat).
Hypotheses (w_prim : n.-primitive_root w) (nm : (n <= m)%N).

(** Passing the merged relation check at 2m points proves divisibility. *)
Lemma merged_check_divides vk (PS W B Q : {poly F}) aw chi (R : seq F) :
  vk_n vk = n ->
  (size PS <= m)%N -> (size W <= m)%N -> (size B <= m)%N -> (size Q <= m)%N ->
  uniq R -> (m + m <= size R)%N ->
  (forall r, r \in R -> exists2 pi, evaluates pi w r PS W B Q /\ agg_weight pi = aw &
     merged_relation_check vk pi w chi r = Ok true) ->
  Pmrg n w PS W B aw chi = Q * Zn F n.
Proof.
move=> nE sPS sW sB sQ un le H; apply: poly_ext_roots un _ _ _.
- exact: leq_trans (size_Pmrg_wide w_prim _ _ nm sPS sW sB) le.
- apply: leq_trans (size_polyMleq _ _) _; rewrite (size_Zn w_prim) addnS /=.
  by apply: leq_trans le; apply: leq_add.
move=> r /H [pi [[e1 e2 e3 e4 e5] awE]].
rewrite (merged_relation_checkE _ _ _ w_prim nE) /scalar_relations => -[/andP[_ /eqP]].
by rewrite e1 e2 e3 e4 e5 awE hornerM horner_Zn horner_Pmrg.
Qed.

Lemma merged_weight vk (PS B : {poly F}) (Q : F -> {poly F}) (wt : nat -> F) aw (X R : seq F) :
  vk_n vk = n -> wt (n - 1)%N = 0 ->
  (size PS <= m)%N -> (size B <= m)%N -> (forall chi, size (Q chi) <= m)%N ->
  uniq X -> (3 < size X)%N -> uniq R -> (m + m <= size R)%N ->
  (forall chi r, chi \in X -> r \in R ->
     exists2 pi, evaluates pi w r PS (interp n w wt) B (Q chi) /\ agg_weight pi = aw &
       merged_relation_check vk pi w chi r = Ok true) ->
  exists S : nat -> bool,
    [/\ forall i, (i < n)%N -> B.[w ^+ i] = (S i)%:R, S (n - 1)%N &
        aw = \sum_(i < n) (S i)%:R * wt i].
Proof.
move=> nE wt0 sPS sB sQ unX sX unR sR H; apply: (@relations_weight _ _ _ w_prim PS) => // i lt.
have sW : (size (interp n w wt) <= m)%N by apply: leq_trans (size_interp w_prim _) nm.
pose vs := [seq p.[w ^+ i] | p <- [:: P1 n w PS (interp n w wt) B aw; P2 B; P3 n w PS; P4 n w B]].
have zero k : vs`_k = 0.
  apply: (combine_separates unX) => // chi chiX; rewrite -horner_combine.
  have := merged_check_divides nE sPS sW sB (sQ chi) unR sR (H chi ^~ chiX).
  by rewrite /Pmrg => ->; rewrite hornerM (Zn_root w_prim) mulr0.
by split; [exact: (zero 0%N)|exact: (zero 1%N)|exact: (zero 3%N)].
Qed.

(** C8: soundness of the merged relation check.  Suppose a prover fixes a bitmap
    polynomial, a running-sum polynomial and, for each merging challenge, a
    quotient polynomial, and [merged_relation_check] accepts their evaluations
    for four merging challenges and 2m evaluation points (m bounding the number
    of coefficients).  Then the bitmap is binary on the slots, the reserved slot
    is set, and the claimed aggregate weight is exactly the sum of the weights
    of the slots in the bitmap. *)
Theorem merged_check_weight_sound vk (PS B : {poly F}) (Q : F -> {poly F}) (wt : nat -> F) aw
    (X R : seq F) :
  vk_n vk = n -> wt (n - 1)%N = 0 ->
  (size PS <= m)%N -> (size B <= m)%N -> (forall chi, size (Q chi) <= m)%N ->
  uniq X -> (3 < size X)%N -> uniq R -> (m + m <= size R)%N ->
  (forall chi r, chi \in X -> r \in R ->
     exists2 pi, evaluates pi w r PS (interp n w wt) B (Q chi) /\ agg_weight pi = aw &
       merged_relation_check vk pi w chi r = Ok true) ->
  exists S : nat -> bool,
    [/\ forall i, (i < n)%N -> B.[w ^+ i] = (S i)%:R, S (n - 1)%N &
        aw = \sum_(i < n) (S i)%:R * wt i].
Proof. exact: merged_weight. Qed.

End Relations.

(** ** Batch verification *)
Section Batch.
Context {E : Engine} {L : EngineLaws E}.

Lemma msm_powers_traject (V : lmodType F) (vs : seq V) (r : F) :
  msm_spec vs (traject (fun c => c * r) 1 (size vs)) = combine vs r.
Proof.
have H c : msm_spec vs (traject (fun c => c * r) c (size vs)) = c *: combine vs r.
  rewrite /msm_spec; elim: vs c => [|v vs IH] c /=; first by rewrite big_nil scaler0.
  by rewrite big_cons IH /= scalerDr scalerA.
by rewrite H scale1r.
Qed.

Lemma pairing_combine_l (Ps : seq G1) (Q : G2) r :
  pairing (combine Ps r) Q = combine [seq pairing P Q | P <- Ps] r.
Proof.
by elim: Ps => [|P Ps IH] /=; rewrite ?pairing0l // pairingDl pairingZl IH.
Qed.

Lemma pairing_combine_r (P : G1) (Qs : seq G2) r :
  pairing P (combine Qs r) = combine [seq pairing P Q | Q <- Qs] r.
Proof.
by elim: Qs => [|Q Qs IH] /=; rewrite ?pairing0r // pairingDr pairingZr IH.
Qed.

(** The entry checks of a batch. *)
Definition batch_entry (h : G2) (pk : G1) (sig : G2) : bool :=
  pairing pk h == pairing (generator G1) sig.

Variables (msg : bytes) (ak : AggregationKey) (h : G2).
Hypotheses (hE : hash_to_g2 msg = Ok h) (nv : is_n_valid (ak_n ak))
  (wf : aggregation_key_is_well_formed ak).

Lemma pks_get i : (i < ak_n ak - 1)%N ->
  vec_get (pks ak) i = Ok (pks ak)`_i :> outcome HError _.
Proof.
move=> lt; case/and5P: wf => _ /eqP sz _ _ _.
by rewrite (vec_get_lt _ 0) // sz; apply: leq_trans lt (leq_subr _ _).
Qed.

Lemma partial_verify_entry i sig : (i < ak_n ak - 1)%N ->
  HinTS.partial_verify msg ak i sig =
  Ok [&& (pks ak)`_i != 0, sig != 0 & batch_entry h (pks ak)`_i sig].
Proof.
move=> lt; rewrite /HinTS.partial_verify nv wf /= leqNgt lt /= pks_get //=.
by case: (_ != 0) => //=; case: (_ != 0) => //=; rewrite hE.
Qed.

Lemma batchE r ids (sigs : seq G2) : size ids = size sigs -> (0 < size ids)%N ->
  all (fun i => i < ak_n ak - 1)%N ids ->
  HinTS.partial_verify_batch r msg ak ids sigs =
  Ok [&& all (fun i => (pks ak)`_i != 0) ids, all (fun s => s != 0) sigs &
         combine [seq pairing (pks ak)`_i h | i <- ids] r ==
         combine [seq pairing (generator G1) s | s <- sigs] r].
Proof.
move=> sz pos /allP lt; rewrite /HinTS.partial_verify_batch nv wf /= sz eqxx /=.
have -> : nilp ids = false by case: ids pos {sz lt}.
have -> : has (fun id => ak_n ak - 1 <= id)%N ids = false.
  by apply/negbTE/hasPn => i /lt; rewrite -ltnNge.
rewrite (allM_ok (g := fun i => (pks ak)`_i != 0)) => [i /lt lti|]; first by rewrite pks_get.
rewrite /=; case: (all _ ids) => //=; case: (all _ sigs) => //=.
rewrite (mapM_ok (g := fun i => (pks ak)`_i)) => [i /lt lti|]; first by rewrite pks_get.
rewrite /= hE /= !msm_uncheckedE -{1}sz -(size_map (nth 0 (pks ak)) ids) !msm_powers_traject.
by rewrite pairing_combine_l pairing_combine_r -map_comp.
Qed.

(** Vectors of target-group elements that combine equally for as many distinct
    coefficients as they have entries are equal. *)
Lemma combine_inj_GT (us vs : seq F) (R : seq F) (e : GT) : e != 0 ->
  size us = size vs -> uniq R -> (size us <= size R)%N ->
  (forall r, r \in R -> combine [seq u *: e | u <- us] r = combine [seq v *: e | v <- vs] r) ->
  us = vs.
Proof.
move=> e0 sz un le H.
have : Poly us = Poly vs.
  apply: poly_ext_roots un _ _ _; try exact: leq_trans (size_Poly _) _; rewrite -?sz //.
    by apply: leq_trans (size_Poly _) _; rewrite -sz.
  by move=> r /H; rewrite !combine_scale => /(scaler_injr e0); rewrite !combine_horner.
move=> PE; apply: (@eq_from_nth _ 0) => // i _.
by have := congr1 (fun p : {poly F} => p`_i) PE; rewrite !coef_Poly.
Qed.

Lemma pairing_log (P : G1) (Q : G2) :
  exists x : F, pairing P Q = x *: pairing (generator G1) (generator G2).
Proof.
have [a ->] := generator_spans P; have [b ->] := generator_spans Q.
by exists (a * b); rewrite pairing_exp.
Qed.

Lemma GT_logs (T : Type) (f : T -> GT) (s : seq T) :
  (forall t, exists x : F, f t = x *: pairing (generator G1) (generator G2)) ->
  exists xs : seq F, map f s = [seq x *: pairing (generator G1) (generator G2) | x <- xs].
Proof.
move=> H; elim: s => [|t s [xs IH]]; first by exists [::].
by have [x xE] := H t; exists (x :: xs); rewrite /= xE IH.
Qed.

Lemma batch_entries (R : seq F) ids (sigs : seq G2) : size ids = size sigs -> (0 < size ids)%N ->
  all (fun i => i < ak_n ak - 1)%N ids -> uniq R -> (size ids <= size R)%N -> (0 < size R)%N ->
  (forall r, r \in R -> HinTS.partial_verify_batch r msg ak ids sigs = Ok true) ->
  forall k, (k < size ids)%N -> HinTS.partial_verify msg ak ids`_k sigs`_k = Ok true.
Proof.
move=> sz pos lt un le R0 H k ltk; have bE r := batchE r sz pos lt.
have [r0 r0R] : exists r0, r0 \in R by case: R R0 {un le H} => // r R _; exists r; rewrite mem_head.
have := H r0 r0R; rewrite bE => -[/and3P[/allP pk0 /allP sig0 _]].
have lt' : (ids`_k < ak_n ak - 1)%N by apply: (allP lt); apply: mem_nth.
rewrite partial_verify_entry // pk0 ?mem_nth // sig0 ?mem_nth -?sz //= /batch_entry.
have [us usE] := GT_logs ids (fun i => pairing_log (pks ak)`_i h).
have [vs vsE] := GT_logs sigs (pairing_log (generator G1)).
have szu : size us = size ids by have := congr1 size usE; rewrite !size_map.
have szv : size vs = size sigs by have := congr1 size vsE; rewrite !size_map.
have uv : us = vs.
  apply: (combine_inj_GT pairing_nondegenerate) un _ _; rewrite ?szu ?szv //.
  by move=> r rR; have := H r rR; rewrite bE => -[/and3P[_ _ /eqP]]; rewrite usE vsE.
have := congr1 (nth 0 ^~ k) (etrans usE (etrans (congr1 _ uv) (esym vsE))).
rewrite (nth_map 0%N) // (nth_map 0) -?sz // => ->.
by rewrite eqxx.
Qed.

End Batch.

Section BatchTheorems.
Context {E : Engine} {L : EngineLaws E}.

(** C30: soundness of batch verification.  If [partial_verify_batch] accepts a batch
    of k entries for at least k distinct values of its random coefficient, then
    every single entry passes [partial_verify]; so a batch with an invalid entry
    is accepted for fewer than k coefficients. *)
Theorem batch_sound msg ak h (R : seq F) ids (sigs : seq G2) :
  hash_to_g2 msg = Ok h -> is_n_valid (ak_n ak) -> aggregation_key_is_well_formed ak ->
  size ids = size sigs -> (0 < size ids)%N -> all (fun i => i < ak_n ak - 1)%N ids ->
  uniq R -> (size ids <= size R)%N ->
  (forall r, r \in R -> HinTS.partial_verify_batch r msg ak ids sigs = Ok true) ->
  forall k, (k < size ids)%N -> HinTS.partial_verify msg ak ids`_k sigs`_k = Ok true.
Proof.
move=> hE nv wf sz pos lt un le; apply: (batch_entries hE nv wf sz pos lt un le).
exact: leq_trans pos le.
Qed.

(** Completeness of batch verification.  A non-empty batch of entries that pass
    [partial_verify] one by one is accepted whatever the random coefficient is. *)
Theorem batch_complete r msg ak ids (sigs : seq G2) :
  size ids = size sigs -> (0 < size ids)%N ->
  (forall k, (k < size ids)%N -> HinTS.partial_verify msg ak ids`_k sigs`_k = Ok true) ->
  HinTS.partial_verify_batch r msg ak ids sigs = Ok true.
Proof.
move=> sz pos ok; have := ok 0%N pos; rewrite /HinTS.partial_verify.
case nv: (is_n_valid (ak_n ak)) => //=; case wf: aggregation_key_is_well_formed => //= first_ok.
have hE : exists h, hash_to_g2 msg = Ok h.
  move: first_ok; case: leqP => //= _; case: (vec_get _ _) => [pk| |] //=.
  case: (_ != 0) => //=; case: (_ != 0) => //=.
  by case: (hash_to_g2 msg) => [h| |] //= _; exists h.
case: hE => h hE.
have lt : all (fun i => i < ak_n ak - 1)%N ids.
  apply/(all_nthP 0%N) => k ltk; have := ok k ltk.
  by rewrite /HinTS.partial_verify nv wf /=; case: leqP.
have entry k : (k < size ids)%N ->
    [&& (pks ak)`_(ids`_k) != 0, sigs`_k != 0 & batch_entry h (pks ak)`_(ids`_k) sigs`_k].
  move=> ltk; have := ok k ltk; rewrite (partial_verify_entry hE nv wf) => [|[]] //.
  by apply: (allP lt); apply: mem_nth.
rewrite (batchE hE nv wf) //; congr Ok; apply/and3P; split.
- by apply/(all_nthP 0%N) => k /entry /and3P[].
- by apply/(all_nthP 0) => k; rewrite -sz => /entry /and3P[].
- have -> : [seq pairing (pks ak)`_i h | i <- ids] = [seq pairing (generator G1) s | s <- sigs].
    apply: (@eq_from_nth _ 0); rewrite ?size_map // => k ltk.
    rewrite (nth_map 0%N) // (nth_map 0) -?sz //.
    by case/and3P: (entry k ltk) => _ _ /eqP.
  by rewrite eqxx.
Qed.

(** The threshold test is the strict integer comparison.  For weights and a
    fraction given as integers whose products stay below the field modulus, an
    accepted signature has den * weight > num * total over the integers, so with
    the threshold 1/2 two disjoint halves cannot both be accepted. *)
Theorem threshold_is_strict msg vk pi num den a t :
  agg_weight pi = a%:R -> total_weight vk = t%:R ->
  (den * a < MODULUS)%N -> (num * t < MODULUS)%N ->
  HinTS.verify msg vk pi (num%:R, den%:R) = Ok true -> (num * t < den * a)%N.
Proof.
move=> aE tE lta ltt; rewrite /HinTS.verify; case: is_n_valid => //=.
do 2 (case: (_ != 0) => //=); rewrite aE tE -!natrM /field_gt !into_bigint_small //.
by case: ltnP.
Qed.

End BatchTheorems.

(** ** Witnesses *)
Section HonestPoints.
Context {E : Engine} {L : EngineLaws E}.

(** The honest polynomials pass the merged relation check at every point outside
    the domain. *)
Lemma honest_points n w (wt : nat -> F) ids vk chi r :
  n.-primitive_root w -> vk_n vk = n -> wt (n - 1)%N = 0 -> r ^+ n != 1 ->
  exists2 pi, evaluates pi w r (interp n w (psum n wt ids)) (interp n w wt)
      (interp n w (bit n ids))
      (Pmrg n w (interp n w (psum n wt ids)) (interp n w wt) (interp n w (bit n ids))
         (aggw n wt ids) chi %/ Zn F n) /\ agg_weight pi = aggw n wt ids &
    merged_relation_check vk pi w chi r = Ok true.
Proof.
move=> w_prim nE wt0 rn; set PS := interp n w (psum n wt ids); set W := interp n w wt.
set B := interp n w (bit n ids); set Q := _ %/ _.
exists (MkThresholdSignature 0 (aggw n wt ids) 0 0 0 0 0 0 0 0 0 PS.[r] PS.[r / w] W.[r] B.[r]
  Q.[r]) => //.
rewrite (merged_relation_checkE _ _ _ w_prim nE) rn /=; congr Ok; apply/eqP.
have := honest_relations ids w_prim wt0 chi => /divpK /(congr1 (horner^~ r)).
by rewrite hornerM horner_Pmrg horner_Zn.
Qed.
End HonestPoints.

Definition toy_w : @F toy := group_gen toy_domain4.
Definition toy_wt (i : nat) : @F toy := nth 0 [:: 2%:R; 3%:R; 4%:R] i.
Definition toy_points (k : nat) : seq (@F toy) := [seq i%:R | i <- iota 2 k].

Lemma toy_prim : 4.-primitive_root toy_w.
Proof. exact: (u_prim toy_universe). Qed.

Lemma merged_check_weight_sound_witness : exists S : nat -> bool,
  [/\ forall i, (i < 4)%N ->
        (interp 4 toy_w (bit 4 [:: 0%N; 2%N])).[toy_w ^+ i] = (S i)%:R,
      S (4 - 1)%N & aggw 4 toy_wt [:: 0%N; 2%N] = \sum_(i < 4) (S i)%:R * toy_wt i].
Proof.
have sQ (PS W B : {poly @F toy}) aw chi : (size PS <= 4)%N -> (size W <= 4)%N -> (size B <= 4)%N ->
    (size (Pmrg 4 toy_w PS W B aw chi %/ Zn _ 4)%R <= 4)%N := size_Qmrg toy_prim aw chi.
have sI f : (size (interp 4 toy_w f) <= 4)%N := size_interp toy_prim f.
apply: (@merged_check_weight_sound toy 4 toy_w 4 toy_prim isT toy_vk
  (interp 4 toy_w (psum 4 toy_wt [:: 0%N; 2%N])) (interp 4 toy_w (bit 4 [:: 0%N; 2%N]))
  (fun chi => Pmrg 4 toy_w (interp 4 toy_w (psum 4 toy_wt [:: 0%N; 2%N]))
    (interp 4 toy_w toy_wt) (interp 4 toy_w (bit 4 [:: 0%N; 2%N]))
    (aggw 4 toy_wt [:: 0%N; 2%N]) chi %/ Zn _ 4)
  toy_wt _ (toy_points 4) (toy_points 8)) => //; [by move=> chi; apply: sQ|].
move=> chi r _ rR; apply: honest_points toy_prim _ _ _ => //.
by move: r rR; apply/allP; vm_compute.
Defined.

Definition toy_h : @G2 toy := if hash_to_g2 toy_msg is Ok h then h else 0.

Lemma batch_sound_witness :
  HinTS.partial_verify toy_msg toy_ak [:: 0%N; 1%N]`_1 [:: toy_sig 0; toy_sig 1]`_1 = Ok true.
Proof.
apply: (@batch_sound toy toy_laws toy_msg toy_ak toy_h (toy_points 2)
  [:: 0%N; 1%N] [:: toy_sig 0; toy_sig 1]); try by vm_compute.
by move=> r; rewrite /toy_points /= !in_cons in_nil orbF => /orP[] /eqP ->; vm_compute.
Defined.

Lemma batch_complete_witness :
  HinTS.partial_verify_batch 9%:R toy_msg toy_ak [:: 0%N; 1%N] [:: toy_sig 0; toy_sig 1] = Ok true.
Proof.
apply: (@batch_complete toy toy_laws); [by []|by []|].
by case=> [|[|k]] lt; [vm_compute|vm_compute|discriminate lt].
Defined.

Definition toy_pi : @ThresholdSignature toy :=
  if HinTS.aggregate (toy_crs 5%:R 5) toy_ak toy_vk toy_sigs is Ok pi then pi
  else MkThresholdSignature 0 0 0 0 0 0 0 0 0 0 0 0 0 0 0 0.

Lemma threshold_is_strict_witness : (1 * 5 < 2 * 5)%N.
Proof.
apply: (@threshold_is_strict toy toy_laws toy_msg toy_vk toy_pi 1 2 5 5).
- by apply/eqP; vm_compute.
- by apply/eqP; vm_compute.
- by [].
- by [].
- by vm_compute.
Defined.

(** The panic-freedom theorems, at a truncated reference string and key and at a
    signer index out of range. *)
Lemma signing_never_panics_witness :
  [/\ never_panics (HinTS.verify toy_msg toy_vk toy_pi (1, 2%:R)),
      never_panics (HinTS.aggregate (toy_crs 5%:R 1) toy_ak toy_vk [:: (9%N, 0)]),
      never_panics (HinTS.partial_verify toy_msg toy_ak 9 0) &
      never_panics (HinTS.partial_verify_batch 1 toy_msg toy_ak [:: 9%N] [:: 0])].
Proof. exact: (@signing_never_panics toy toy_laws). Defined.

Lemma setup_never_panics_witness :
  [/\ never_panics (HinTS.hint_gen (toy_crs 5%:R 1) 4 9 (toy_sk 0)),
      never_panics (HinTS.verify_hint (toy_crs 5%:R 1) 4 9 (toy_hint 0)) &
      never_panics (HinTS.preprocess 4 (toy_crs 5%:R 1) toy_info)].
Proof. exact: (@setup_never_panics toy toy_laws). Defined.
