(* ===== verification/Binding.v ===== *)
(** * What the openings, the sumcheck and the degree check bind

    As in [Soundness], commitments are those of polynomials, and a check that is
    passed for enough values of the secret point and of its challenge is an
    identity of polynomials. *)
From S2P Require Import Prelude Errors Engine PolyFacts SeqFacts Utils Kzg Transcript Hints.
From S2P Require Import ToyEngine HintSound Keys Ceremony Aggregation Proving Completeness Soundness.
From mathcomp Require Import ssreflect ssrfun ssrbool eqtype ssrnat seq div path.
From mathcomp Require Import fintype bigop ssralg poly polydiv ring_tactic.
Import GRing.Theory.
Set Warnings "-rewrite-rw".
Set Implicit Arguments.
Unset Strict Implicit.
Unset Printing Implicit Defensive.
Local Open Scope ring_scope.

Section Openings.
Context {E : Engine} {L : EngineLaws E}.
Variables (n : nat) (w : F) (wt sks : nat -> F) (m : nat).

(** An opening accepted for more secret points than the degree is an identity. *)
Lemma opening_identity (P H : {poly F}) z e (T : seq F) :
  (0 < m)%N -> (size P <= m)%N -> (size H <= m)%N -> uniq T -> (m < size T)%N ->
  (forall tau, tau \in T -> verify_opening (spec_vk tau n w wt sks) (P.[tau] *: generator G1)
     z e (H.[tau] *: generator G1)) ->
  e = P.[z].
Proof.
move=> m0 sP sH un le ok.
have : P - e%:P = H * ('X - z%:P).
  apply: poly_ext_roots un _ _ _.
  - apply: leq_trans (size_polyD _ _) _; rewrite size_polyN geq_max (leq_trans sP) ?(ltnW le) //=.
    exact: leq_trans (size_polyC_leq1 _) (leq_trans m0 (ltnW le)).
  - apply: leq_trans (size_polyMleq _ _) _; rewrite size_XsubC addn2 /=.
    exact: leq_ltn_trans sH le.
  move=> tau /ok; rewrite (verify_openingE tau n w wt sks) => /eqP.
  by rewrite hornerM hornerD hornerN hornerC hornerXsubC.
move/(congr1 (horner^~ z)); rewrite hornerM hornerD hornerN hornerC hornerXsubC subrr mulr0.
by move/eqP; rewrite subr_eq0 => /eqP ->.
Qed.

Lemma combine_claims (ps : seq {poly F}) (es : seq F) z (X : seq F) :
  size ps = size es -> uniq X -> (size ps <= size X)%N ->
  (forall chi, chi \in X -> @combine F F^o es chi = (combine ps chi).[z]) ->
  es = [seq p.[z] | p <- ps].
Proof.
move=> sz un le H.
have PE : Poly es = Poly [seq p.[z] | p <- ps].
  apply: poly_ext_roots un _ _ _; try by apply: leq_trans (size_Poly _) _; rewrite ?size_map -?sz.
  by move=> chi /H; rewrite horner_combine !combine_horner.
apply: (@eq_from_nth _ 0); rewrite ?size_map // => i _.
by have := congr1 (fun p : {poly F} => p`_i) PE; rewrite !coef_Poly.
Qed.

(** C32: the single batched opening binds all four claimed evaluations.  If
    [opening_at_r_check] accepts, for four batching challenges and m+1 secret
    points, a signature whose commitments are those of polynomials with at most m
    coefficients (the weight commitment being the verification key's own), then
    each claimed evaluation is the evaluation of its polynomial at r. *)
Theorem opening_at_r_binds (Q PS B : {poly F}) (H : F -> {poly F}) r q ps b wv (X T : seq F) :
  (0 < m)%N -> (size Q <= m)%N -> (size PS <= m)%N -> (size B <= m)%N ->
  (size (interp n w wt) <= m)%N -> (forall chi, size (H chi) <= m)%N ->
  uniq X -> (3 < size X)%N -> uniq T -> (m < size T)%N ->
  (forall chi tau, chi \in X -> tau \in T -> exists2 pi,
     [/\ q_mrg_of_tau_com pi = Q.[tau] *: generator G1,
         parsum_of_tau_com pi = PS.[tau] *: generator G1,
         b_of_tau_com pi = B.[tau] *: generator G1,
         opening_proof_r pi = (H chi).[tau] *: generator G1 &
         [/\ q_mrg_of_r pi = q, parsum_of_r pi = ps, b_of_r pi = b & w_of_r pi = wv]] &
     opening_at_r_check (spec_vk tau n w wt sks) pi r chi) ->
  [/\ q = Q.[r], ps = PS.[r], b = B.[r] & wv = (interp n w wt).[r]].
Proof.
move=> m0 sQ sPS sB sW sH unX sX unT sT ok.
pose Ps := [:: Q; PS; B; interp n w wt].
have : [:: q; ps; b; wv] = [seq p.[r] | p <- Ps]; last by case.
apply: (combine_claims (X := X)) => // chi chiX.
apply: (opening_identity m0 _ (sH chi) unT sT) => [|tau tauT].
  by apply: size_combine; rewrite /= sQ sPS sB sW.
have [pi [cq cp cb co [eq ep eb ew]]] := ok chi tau chiX tauT.
rewrite /opening_at_r_check merge_pointsE merge_scalarsE cq cp cb co eq ep eb ew.
by rewrite horner_combine -combine_scale.
Qed.

End Openings.

Section AggregateKey.
Context {E : Engine} {L : EngineLaws E}.
Variables (n : nat) (w : F) (wt sks : nat -> F).
Hypothesis w_prim : n.-primitive_root w.

(** The sumcheck determines the constant term, provided Q_x has degree at most n-2. *)
Lemma sumcheck_constant (B Qz Qx : {poly F}) (a : F) : (size Qx < n)%N ->
  B * interp n w sks = Qz * Zn F n + Qx * 'X + a%:P ->
  a = n%:R^-1 * \sum_(i < n) B.[w ^+ i] * sks i.
Proof.
move=> sQ id; have n0 := prim_order_gt0 w_prim.
have nz := prim_root_natf_neq0 w_prim.
have R : Qx * 'X + a%:P = interp n w (fun i => B.[w ^+ i] * sks i).
  apply: (interpE w_prim) => [|i lt].
    apply: leq_trans (size_polyD _ _) _; rewrite geq_max; apply/andP; split.
      apply: leq_trans (size_polyMleq _ _) _; rewrite size_polyX addn2 /=; exact: sQ.
    exact: leq_trans (size_polyC_leq1 _) n0.
  rewrite -(interp_domain w_prim sks lt) -hornerM id.
  by rewrite !hornerD [in RHS]hornerM (Zn_root w_prim) mulr0 add0r.
have /(congr1 (horner^~ 0)) := R.
rewrite hornerD hornerM hornerX mulr0 add0r hornerC /interp horner_sum => ->.
rewrite mulr_sumr; apply: eq_bigr => i _.
by rewrite hornerZ (Lag_at0 w_prim) mulrC.
Qed.

(** C33: soundness of the aggregate key.  If [sumcheck_check] accepts, for m+n secret
    points, a signature whose commitments are those of polynomials with at most m
    coefficients, Q_x having degree at most n-2, then the aggregate public key is
    the sum of the public keys weighted by the bitmap's values, divided by n.  The bound
    on Q_x is a hypothesis that the degree check cannot enforce: see
    [aggregate_key_shift]. *)
Theorem aggregate_key_sound m (B Qz Qx : {poly F}) (a : F) (T : seq F) :
  (0 < m)%N -> (size B <= m)%N -> (size Qz <= m)%N -> (size Qx < n)%N ->
  uniq T -> (m + n <= size T)%N ->
  (forall tau, tau \in T -> exists2 pi,
     [/\ b_of_tau_com pi = B.[tau] *: generator G1,
         qz_of_tau_com pi = Qz.[tau] *: generator G1,
         qx_of_tau_com pi = Qx.[tau] *: generator G1 & agg_pk pi = a *: generator G1] &
     sumcheck_check (spec_vk tau n w wt sks) pi
       (pairing (qx_of_tau_com pi) (h_1 (spec_vk tau n w wt sks)))) ->
  a = n%:R^-1 * \sum_(i < n) B.[w ^+ i] * sks i.
Proof.
move=> m0 sB sQz sQx un le ok; have n0 := prim_order_gt0 w_prim.
apply: (sumcheck_constant sQx (B := B) (Qz := Qz)); apply: poly_ext_roots un _ _ _.
- apply: leq_trans (size_polyMleq _ _) _; apply: leq_trans (leq_pred _) _.
  exact: leq_trans (leq_add sB (size_interp w_prim _)) le.
- apply: leq_trans le; apply: leq_trans (size_polyD _ _) _; rewrite geq_max.
  apply/andP; split; last exact: leq_trans (size_polyC_leq1 _) (leq_trans m0 (leq_addr _ _)).
  apply: leq_trans (size_polyD _ _) _; rewrite geq_max; apply/andP; split.
    apply: leq_trans (size_polyMleq _ _) _; rewrite (size_Zn w_prim) addnS /= leq_add2r.
    exact: sQz.
  apply: leq_trans (size_polyMleq _ _) _; rewrite size_polyX addn2 /=.
  exact: leq_trans sQx (leq_addl _ _).
move=> tau /ok [pi [cb cz cx ca]].
rewrite /sumcheck_check cb cz cx ca /= -[X in _ + pairing _ X]scale1r !pairing_exp -!scalerDl.
move/eqP/(scaler_injr pairing_nondegenerate); rewrite mulr1.
by move: (Zn F n) => z zE; rewrite !hornerD !hornerM hornerX hornerC.
Qed.

End AggregateKey.

(** ** The aggregate key can be shifted by a known scalar

    The bound on the degree of Q_x in [aggregate_key_sound] is not something the
    degree check can enforce with a string of n+1 powers: an aggregator may add
    c X^(n-1) to Q_x, subtract c from Q_z and obtain the aggregate key shifted by
    c.  Since c is a scalar the aggregator knows, such a key only stands for the
    same signers' secrets. *)
Definition shift_key {E : Engine} (tau : F) (n : nat) (c : F) (pi : ThresholdSignature)
    : ThresholdSignature := {|
  agg_pk := agg_pk pi - c *: generator G1;
  agg_weight := agg_weight pi;
  agg_sig := agg_sig pi;
  b_of_tau_com := b_of_tau_com pi;
  qx_of_tau_com := qx_of_tau_com pi + (c * tau ^+ (n - 1)) *: generator G1;
  qx_of_tau_mul_tau_com := qx_of_tau_mul_tau_com pi + (c * tau ^+ n) *: generator G1;
  qz_of_tau_com := qz_of_tau_com pi - c *: generator G1;
  parsum_of_tau_com := parsum_of_tau_com pi;
  q_mrg_of_tau_com := q_mrg_of_tau_com pi;
  opening_proof_r := opening_proof_r pi;
  opening_proof_r_div_omega := opening_proof_r_div_omega pi;
  parsum_of_r := parsum_of_r pi;
  parsum_of_r_div_omega := parsum_of_r_div_omega pi;
  w_of_r := w_of_r pi;
  b_of_r := b_of_r pi;
  q_mrg_of_r := q_mrg_of_r pi
|}.

Section Shift.
Context {E : Engine} {L : EngineLaws E}.

(** The sumcheck and the degree check accept a signature exactly when they
    accept it with its aggregate key shifted by any multiple of the generator and
    Q_x, Q_x X and Q_z adjusted by the powers n-1, n and 0 of the reference
    string: the two checks determine the key only up to a scalar the aggregator
    chooses. *)
Theorem aggregate_key_shift tau n w wt sks pi c : (0 < n)%N ->
  let vk := spec_vk tau n w wt sks in
  let pi' := shift_key tau n c pi in
  sumcheck_check vk pi' (pairing (qx_of_tau_com pi') (h_1 vk)) =
    sumcheck_check vk pi (pairing (qx_of_tau_com pi) (h_1 vk)) /\
  degree_check vk pi' (pairing (qx_of_tau_com pi') (h_1 vk)) =
    degree_check vk pi (pairing (qx_of_tau_com pi) (h_1 vk)).
Proof.
move=> n0; rewrite /sumcheck_check /degree_check /=; set e := pairing (generator G1) (generator G2).
have eX : pairing ((c * tau ^+ (n - 1)) *: generator G1) (tau *: generator G2) = (c * tau ^+ n) *: e.
  by rewrite pairing_exp -mulrA -exprSr subn1 prednK.
have eZ : pairing (c *: generator G1) ((Zn F n).[tau] *: generator G2) =
    (c * tau ^+ n) *: e - c *: e.
  by rewrite pairing_exp horner_Zn mulrBr mulr1 scalerBl.
have e1 k : pairing (k *: generator G1) (generator G2) = k *: e by rewrite pairingZl.
rewrite !pairingBl !pairingDl eX eZ !e1 opprB; split; last by rewrite (inj_eq (addIr _)).
by congr (_ == _); rewrite [X in X + _]addrACA subrK addrACA subrr addr0.
Qed.

End Shift.

(** ** Witnesses *)
Section HonestOpenings.
Context {E : Engine} {L : EngineLaws E}.

(** The quotient by X - z opens a polynomial at every secret point. *)
Lemma honest_quotient (P : {poly F}) z tau n w wt sks :
  verify_opening (spec_vk tau n w wt sks) (P.[tau] *: generator G1) z P.[z]
    (((P - P.[z]%:P) %/ ('X - z%:P)).[tau] *: generator G1).
Proof.
rewrite (verify_openingE tau n w wt sks).
have dvd : 'X - z%:P %| P - (P.[z])%:P by rewrite dvdp_XsubCl /root hornerD hornerN hornerC subrr.
have := congr1 (horner^~ tau) (divpK dvd); rewrite hornerM hornerXsubC => ->.
by rewrite hornerD hornerN hornerC.
Qed.

(** A signature with honest openings. *)
Lemma honest_openings (Q PS B : {poly F}) n w wt sks r chi tau :
  let P := combine [:: Q; PS; B; interp n w wt] chi in
  exists2 pi,
    [/\ q_mrg_of_tau_com pi = Q.[tau] *: generator G1,
        parsum_of_tau_com pi = PS.[tau] *: generator G1,
        b_of_tau_com pi = B.[tau] *: generator G1,
        opening_proof_r pi = ((P - P.[r]%:P) %/ ('X - r%:P)).[tau] *: generator G1 &
        [/\ q_mrg_of_r pi = Q.[r], parsum_of_r pi = PS.[r], b_of_r pi = B.[r] &
            w_of_r pi = (interp n w wt).[r]]] &
    opening_at_r_check (spec_vk tau n w wt sks) pi r chi.
Proof.
move=> P; set H := _ %/ _.
exists (MkThresholdSignature 0 0 0 (B.[tau] *: generator G1) 0 0 0 (PS.[tau] *: generator G1)
  (Q.[tau] *: generator G1) (H.[tau] *: generator G1) 0 PS.[r] 0 (interp n w wt).[r] B.[r] Q.[r]).
  by split.
have := honest_quotient P r tau n w wt sks; rewrite -/H.
have -> : P.[tau] *: generator G1 = combine [:: Q.[tau] *: generator G1; PS.[tau] *: generator G1;
    B.[tau] *: generator G1; (interp n w wt).[tau] *: generator G1] chi.
  by rewrite /P horner_combine -combine_scale.
have -> : P.[r] = @combine _ F^o [:: Q.[r]; PS.[r]; B.[r]; (interp n w wt).[r]] chi.
  by rewrite /P horner_combine.
by rewrite /opening_at_r_check merge_pointsE merge_scalarsE.
Qed.

(** A signature for a sumcheck identity. *)
Lemma honest_sumcheck_point n w wt sks (B Qz Qx : {poly F}) a tau :
  B * interp n w sks = Qz * Zn F n + Qx * 'X + a%:P ->
  exists2 pi,
    [/\ b_of_tau_com pi = B.[tau] *: generator G1, qz_of_tau_com pi = Qz.[tau] *: generator G1,
        qx_of_tau_com pi = Qx.[tau] *: generator G1 & agg_pk pi = a *: generator G1] &
    sumcheck_check (spec_vk tau n w wt sks) pi
      (pairing (qx_of_tau_com pi) (h_1 (spec_vk tau n w wt sks))).
Proof.
move=> id; exists (MkThresholdSignature (a *: generator G1) 0 0 (B.[tau] *: generator G1)
  (Qx.[tau] *: generator G1) 0 (Qz.[tau] *: generator G1) 0 0 0 0 0 0 0 0 0); first by split.
rewrite /sumcheck_check /= -[X in _ + pairing _ X]scale1r !pairing_exp -!scalerDl mulr1 -hornerM id.
by move: (Zn F n) => z; rewrite !hornerD !hornerM hornerX hornerC.
Qed.

Lemma size_quotient (P : {poly F}) z m : (0 < m)%N -> (size P <= m)%N ->
  (size ((P - P.[z]%:P) %/ ('X - z%:P))%R <= m)%N.
Proof.
move=> m0 le; rewrite size_divp ?polyXsubC_eq0 // size_XsubC; apply: leq_trans (leq_subr _ _) _.
apply: leq_trans (size_polyD _ _) _; rewrite size_polyN geq_max le /=.
exact: leq_trans (size_polyC_leq1 _) m0.
Qed.

End HonestOpenings.

Lemma opening_at_r_binds_witness :
  let W := interp 4 toy_w toy_wt in
  [/\ 7%:R = ('X : {poly @F toy}).[7%:R], 7%:R = ('X : {poly @F toy}).[7%:R],
      7%:R = ('X : {poly @F toy}).[7%:R] & W.[7%:R] = W.[7%:R]].
Proof.
move=> W; have sW : (size W <= 4)%N := size_interp toy_prim toy_wt.
have sX : (size ('X : {poly @F toy}) <= 4)%N by rewrite size_polyX.
pose P chi := combine [:: 'X; 'X; 'X; W] chi.
have sP chi : (size (P chi) <= 4)%N by apply: size_combine; rewrite /= sX sW.
apply: (@opening_at_r_binds toy toy_laws 4 toy_w toy_wt toy_wt 4 'X 'X 'X
  (fun chi => (P chi - (P chi).[7%:R]%:P) %/ ('X - 7%:R%:P)) 7%:R _ _ _ _
  (toy_points 4) (toy_points 5)) => //; first by move=> chi; apply: size_quotient.
move=> chi tau _ _.
have [pi [c1 c2 c3 c4 [e1 e2 e3 e4]] acc] := @honest_openings toy toy_laws 'X 'X 'X 4 toy_w toy_wt
  toy_wt 7%:R chi tau.
by exists pi; [split; rewrite // ?e1 ?e2 ?e3 ?e4 ?hornerX|].
Defined.

Lemma aggregate_key_sound_witness :
  let sks i := (i.+1)%:R : @F toy in
  4%:R^-1 * \sum_(i < 4) (1 : @F toy) * sks i =
  4%:R^-1 * \sum_(i < 4) (interp 4 toy_w (fun=> 1)).[toy_w ^+ i] * sks i.
Proof.
move=> sks; pose Qz := \sum_(i < 4) (1 : @F toy) *: \sum_(j < 4) sks j *: QZ 4 toy_w j i.
pose Qx := \sum_(i < 4) (1 : @F toy) *: (sks i *: QX 4 toy_w i).
apply: (@aggregate_key_sound toy toy_laws 4 toy_w toy_wt sks toy_prim 4
  (interp 4 toy_w (fun=> 1)) Qz Qx _ (toy_points 8)) => //.
- exact: size_interp toy_prim _.
- apply: leq_trans (size_sum _ _ _) _; apply/bigmax_leqP => i _.
  apply: leq_trans (size_scale_leq _ _) _; apply: leq_trans (size_sum _ _ _) _.
  apply/bigmax_leqP => j _; apply: leq_trans (size_scale_leq _ _) _.
  exact: size_QZ toy_prim _ _.
- apply: leq_ltn_trans (size_sum _ _ _) _; rewrite ltnS; apply/bigmax_leqP => i _.
  do 2 (apply: leq_trans (size_scale_leq _ _) _).
  rewrite /QX size_divp ?polyX_eq0 // size_polyX leq_subLR.
  exact: size_Lag_sub toy_prim _ _.
move=> tau _; apply: (@honest_sumcheck_point toy toy_laws).
exact: (@sumcheck_identity toy 4 toy_w sks toy_prim (fun=> 1)).
Defined.

Lemma aggregate_key_shift_witness :
  let vk := spec_vk (5%:R : @F toy) 4 toy_w toy_wt toy_wt in
  let pi' := shift_key 5%:R 4 3%:R toy_pi in
  sumcheck_check vk pi' (pairing (qx_of_tau_com pi') (h_1 vk)) =
    sumcheck_check vk toy_pi (pairing (qx_of_tau_com toy_pi) (h_1 vk)) /\
  degree_check vk pi' (pairing (qx_of_tau_com pi') (h_1 vk)) =
    degree_check vk toy_pi (pairing (qx_of_tau_com toy_pi) (h_1 vk)).
Proof. by apply: (@aggregate_key_shift toy toy_laws). Defined.
