(* ===== verification/Rounds.v ===== *)
(** * The transcript binds everything the challenges depend on *)
From Stdlib Require Import Strings.Byte.
From S2P Require Import Prelude Errors Engine SeqFacts Kzg Transcript Hints ToyEngine.
From S2P Require Import HintSound Keys Completeness Soundness.
From mathcomp Require Import ssreflect ssrfun ssrbool eqtype ssrnat seq div.
From mathcomp Require Import ssralg fintype zmodp.
Set Warnings "-rewrite-rw".
Set Implicit Arguments.
Unset Strict Implicit.
Unset Printing Implicit Defensive.

(** The transcript from which the last challenge of a signature is drawn. *)
Definition transcript_of {E : Engine} (vk : VerificationKey) (pi : ThresholdSignature)
    : outcome HError Transcript :=
  let* t := absorb_round_1 Tr.new vk (agg_pk pi) (agg_weight pi) (b_of_tau_com pi)
    (parsum_of_tau_com pi) (qx_of_tau_com pi) (qz_of_tau_com pi) (qx_of_tau_mul_tau_com pi) in
  let* t := absorb_round_2 t (q_mrg_of_tau_com pi) in
  absorb_round_3 t (parsum_of_r pi) (parsum_of_r_div_omega pi) (w_of_r pi) (b_of_r pi)
    (q_mrg_of_r pi).

Lemma cat_inj (A : Type) (x x' y y' : seq A) :
  size x = size x' -> x ++ y = x' ++ y' -> x = x' /\ y = y'.
Proof.
move=> sz H; have := congr1 (take (size x)) H; have := congr1 (drop (size x)) H.
by rewrite take_size_cat // drop_size_cat // sz take_size_cat // drop_size_cat.
Qed.

Section Binding.
Context {E : Engine}.
Variables (domN : nat -> Prop) (wN wF w1 w2 : nat).
Context {FWN : @FixedWidth E nat serialize_usize_instance domN wN}.
Context {FWF : @FixedWidth E F serialize_F_instance (fun _ => True) wF}.
Context {FW1 : @FixedWidth E G1 serialize_G1_instance (fun _ => True) w1}.
Context {FW2 : @FixedWidth E G2 serialize_G2_instance (fun _ => True) w2}.

(** A field of fixed width followed by the rest of a struct. *)
Lemma ser_field_inj {T : Type} {S : CanonicalSerialize T} dom width (FW : @FixedWidth E T S dom width)
    (x y : T) (r r' : SerializationError + bytes) b :
  dom x -> dom y -> ser_append (compressed x) r = inr b -> ser_append (compressed y) r' = inr b ->
  x = y /\ exists2 c, r = inr c & r' = inr c.
Proof.
move=> dx dy /ser_append_inr [bx [c [xE rE bE]]] /ser_append_inr [by_ [c' [yE rE' bE']]].
have sz : size bx = size by_.
  by rewrite (@fixed_width _ _ _ _ _ FW _ _ xE) (@fixed_width _ _ _ _ _ FW _ _ yE).
have [bxy cc] := cat_inj sz (etrans (esym bE) bE').
split; first by apply: (@encoding_inj _ _ _ _ _ FW _ _ bx dx dy xE); rewrite bxy.
by exists c => //; rewrite rE' cc.
Qed.

Lemma ser_field_size {T : Type} {S : CanonicalSerialize T} dom width
    (FW : @FixedWidth E T S dom width) (x : T) (r : SerializationError + bytes) b :
  ser_append (compressed x) r = inr b -> exists2 c, r = inr c & size b = (width + size c)%N.
Proof.
move=> /ser_append_inr [bx [c [xE rE ->]]]; exists c => //.
by rewrite size_cat (@fixed_width _ _ _ _ _ FW _ _ xE).
Qed.

#[export] Instance vk_fixed_width : @FixedWidth E VerificationKey serialize_vk
  (fun vk => domN (vk_n vk))
  (wN + (wF + (w1 + (w2 + (w2 + (w1 + (w1 + (w2 + w2)))))))).
Proof.
split.
- move=> vk b; rewrite {1}/compressed /serialize_vk => e.
  have [c1 e1 ->] := ser_field_size FWN e; have [c2 e2 ->] := ser_field_size FWF e1.
  have [c3 e3 ->] := ser_field_size FW1 e2; have [c4 e4 ->] := ser_field_size FW2 e3.
  have [c5 e5 ->] := ser_field_size FW2 e4; have [c6 e6 ->] := ser_field_size FW1 e5.
  have [c7 e7 ->] := ser_field_size FW1 e6; have [c8 e8 ->] := ser_field_size FW2 e7.
  by rewrite (@fixed_width _ _ _ _ _ FW2 _ _ e8).
- move=> vk vk' b dn dn'; rewrite {1 2}/compressed /serialize_vk => e e'.
  have [n_ [c0 r0 q0]] := ser_field_inj FWN dn dn' e e'.
  have [t_ [c1 r1 q1]] := ser_field_inj FWF I I r0 q0.
  have [g0_ [c2 r2 q2]] := ser_field_inj FW1 I I r1 q1.
  have [h0_ [c3 r3 q3]] := ser_field_inj FW2 I I r2 q2.
  have [h1_ [c4 r4 q4]] := ser_field_inj FW2 I I r3 q3.
  have [l_ [c5 r5 q5]] := ser_field_inj FW1 I I r4 q4.
  have [w_ [c6 r6 q6]] := ser_field_inj FW1 I I r5 q5.
  have [s_ [c7 r7 q7]] := ser_field_inj FW2 I I r6 q6.
  have z_ := @encoding_inj _ _ _ _ _ FW2 _ _ _ I I r7 q7.
  move: n_ t_ g0_ h0_ h1_ l_ w_ s_ z_; clear; case: vk vk'.
  by move=> ? ? ? ? ? ? ? ? ? [? ? ? ? ? ? ? ? ?] /= -> -> -> -> -> -> -> -> ->.
Qed.

(** Recovers the last item of two equal transcripts, given the injectivity of each
    kind of item. *)
Ltac peel_item inj_F inj_G1 inj_vk :=
  match goal with
  | A : Tr.absorb ?t ?x = Ok ?u, B : Tr.absorb ?t' ?y = Ok ?u |- _ =>
      first [ destruct (inj_F _ _ _ _ _ A B) as [? ?]
            | destruct (inj_G1 _ _ _ _ _ A B) as [? ?]
            | destruct (inj_vk _ _ _ A B) as [? ?] ];
      clear A B; try subst t'
  end.

(** Items are recovered one by one from the end of the transcript. *)
Lemma transcript_inj vk vk' pi pi' t : domN (vk_n vk) -> domN (vk_n vk') ->
  transcript_of vk pi = Ok t -> transcript_of vk' pi' = Ok t ->
  vk = vk' /\ pi = MkThresholdSignature (agg_pk pi') (agg_weight pi') (agg_sig pi)
    (b_of_tau_com pi') (qx_of_tau_com pi') (qx_of_tau_mul_tau_com pi') (qz_of_tau_com pi')
    (parsum_of_tau_com pi') (q_mrg_of_tau_com pi') (opening_proof_r pi)
    (opening_proof_r_div_omega pi) (parsum_of_r pi') (parsum_of_r_div_omega pi') (w_of_r pi')
    (b_of_r pi') (q_mrg_of_r pi').
Proof.
move=> dn dn'; rewrite /transcript_of /absorb_round_1 /absorb_round_2 /absorb_round_3 => H H'.
inv_ok H; inv_ok H'.
have bind_F t1 t2 (x y : F) u := absorb_inj (FW := FWF) (t1 := t1) (t2 := t2) (x1 := x) (x2 := y)
  (t := u) I I.
have bind_G1 t1 t2 (x y : G1) u := absorb_inj (FW := FW1) (t1 := t1) (t2 := t2) (x1 := x) (x2 := y)
  (t := u) I I.
have bind_vk t1 t2 u := absorb_inj (FW := vk_fixed_width) (t1 := t1) (t2 := t2) (t := u) dn dn'.
repeat peel_item bind_F bind_G1 bind_vk.
split=> //; clear bind_F bind_G1 bind_vk dn dn'.
by destruct pi, pi'; simpl in *; subst.
Qed.

End Binding.

(** The transcript binds its inputs.  When field elements, curve points and
    sizes have injective encodings of fixed widths, two runs whose transcripts
    are the same byte string absorbed the same verification key and the same
    signature fields, in every position; only the aggregate signature and the
    opening proofs, which are not absorbed, may differ. *)
Theorem transcript_binds {E : Engine} (domN : nat -> Prop) (wN wF w1 w2 : nat)
    (FWN : @FixedWidth E nat serialize_usize_instance domN wN)
    (FWF : @FixedWidth E F serialize_F_instance (fun _ => True) wF)
    (FW1 : @FixedWidth E G1 serialize_G1_instance (fun _ => True) w1)
    (FW2 : @FixedWidth E G2 serialize_G2_instance (fun _ => True) w2) vk vk' pi pi' t :
  domN (vk_n vk) -> domN (vk_n vk') ->
  transcript_of vk pi = Ok t -> transcript_of vk' pi' = Ok t ->
  vk = vk' /\ pi = MkThresholdSignature (agg_pk pi') (agg_weight pi') (agg_sig pi)
    (b_of_tau_com pi') (qx_of_tau_com pi') (qx_of_tau_mul_tau_com pi') (qz_of_tau_com pi')
    (parsum_of_tau_com pi') (q_mrg_of_tau_com pi') (opening_proof_r pi)
    (opening_proof_r_div_omega pi) (parsum_of_r pi') (parsum_of_r_div_omega pi') (w_of_r pi')
    (b_of_r pi') (q_mrg_of_r pi').
Proof. exact: transcript_inj. Qed.

(** ** Witness *)

Lemma byte_ofK n : n < 256 -> Byte.to_nat (byte_of n) = n.
Proof.
move=> lt; rewrite /byte_of modn_small //; case bE: (Byte.of_nat n) => [b|].
  exact: Byte.to_of_nat bE.
by have /Byte.of_nat_None_iff/ltP := bE; rewrite ltnNge -ltnS lt.
Qed.

Lemma byte_of_inj n m : n < 256 -> m < 256 -> byte_of n = byte_of m -> n = m.
Proof. by move=> ln lm H; rewrite -(byte_ofK ln) H byte_ofK. Qed.

Lemma toy_ser_fixed (x : toy_F) b : toy_ser x = inr b -> size b = 1.
Proof. by case=> <-. Qed.

Lemma toy_ser_inj (x y : toy_F) b : toy_ser x = inr b -> toy_ser y = inr b -> x = y.
Proof.
move=> [<-] [H]; apply: val_inj; apply: byte_of_inj; last by rewrite H.
  exact: leq_trans (ltn_ord x) _.
exact: leq_trans (ltn_ord y) _.
Qed.

Lemma toy_FWN : @FixedWidth toy nat serialize_usize_instance (fun n => n < 256 * 256) 2.
Proof.
split=> [n b [<-] //|n m b ln lm [<-] [hi lo]].
have H k : k < 256 * 256 -> k %/ 256 < 256 by move=> lk; rewrite ltn_divLR.
have mod_ k : byte_of k = byte_of (k %% 256) by rewrite /byte_of modn_mod.
move: hi; rewrite mod_ [RHS]mod_ => /byte_of_inj; rewrite !ltn_mod => /(_ isT isT) e.
by rewrite (divn_eq n 256) (divn_eq m 256) (byte_of_inj (H m lm) (H n ln) lo) e.
Qed.

Lemma toy_FWF : @FixedWidth toy F serialize_F_instance (fun _ => True) 1.
Proof. by split=> [x b /toy_ser_fixed|x y b _ _ /toy_ser_inj]; [|apply]. Qed.

Lemma toy_FW1 : @FixedWidth toy G1 serialize_G1_instance (fun _ => True) 1.
Proof. by split=> [x b /toy_ser_fixed|x y b _ _ /toy_ser_inj]; [|apply]. Qed.

Lemma toy_FW2 : @FixedWidth toy G2 serialize_G2_instance (fun _ => True) 1.
Proof. by split=> [x b /toy_ser_fixed|x y b _ _ /toy_ser_inj]; [|apply]. Qed.

Definition toy_transcript : Transcript :=
  if transcript_of toy_vk toy_pi is Ok t then t else Tr.new.

Lemma transcript_binds_witness : toy_vk = toy_vk /\
  toy_pi = MkThresholdSignature (agg_pk toy_pi) (agg_weight toy_pi) (agg_sig toy_pi)
    (b_of_tau_com toy_pi) (qx_of_tau_com toy_pi) (qx_of_tau_mul_tau_com toy_pi)
    (qz_of_tau_com toy_pi) (parsum_of_tau_com toy_pi) (q_mrg_of_tau_com toy_pi)
    (opening_proof_r toy_pi) (opening_proof_r_div_omega toy_pi) (parsum_of_r toy_pi)
    (parsum_of_r_div_omega toy_pi) (w_of_r toy_pi) (b_of_r toy_pi) (q_mrg_of_r toy_pi).
Proof.
have tE : transcript_of toy_vk toy_pi = Ok toy_transcript.
  have : is_ok (transcript_of toy_vk toy_pi) by vm_compute.
  by rewrite /toy_transcript; case: transcript_of.
have dn : vk_n toy_vk < 256 * 256 by vm_compute.
exact: (@transcript_binds toy _ _ _ _ _ toy_FWN toy_FWF toy_FW1 toy_FW2 _ _ _ _ _ dn dn tE tE).
Defined.
