(* ===== verification/WrapsErrors.v ===== *)
(** * [error.rs], [constants.rs]: errors, sizes and domain separators of WRAPS

    The messages of [WrapsError] are kept as text, because the crate nests the
    display form of one error inside the message of another. *)
From Stdlib Require Import Strings.Byte Strings.String NArith.
From S2P Require Import Prelude.
Local Open Scope string_scope.

Inductive WrapsError : Type :=
| InvalidInput (msg : string)
| Cryptography (msg : string).

Definition invalid_input (msg : string) : WrapsError := InvalidInput msg.
Definition cryptography (msg : string) : WrapsError := Cryptography msg.

(** [impl Display for WrapsError]. *)
Definition display (e : WrapsError) : string :=
  match e with
  | InvalidInput msg => "invalid input: " ++ msg
  | Cryptography msg => "cryptography error: " ++ msg
  end.

(** A result of WRAPS code. *)
Abbreviation result := (outcome WrapsError).

(** [constants.rs] *)
Definition MAX_AB_SIZE : nat := 64.
Definition ENTROPY_SIZE : nat := 32.
Definition WEIGHT_BITS : nat := 64.
Definition DS_ADDRESS_BOOK : nat := 1.
Definition DS_CHALLENGE : nat := 3.
Definition DST_HINTS_VK : bytes := byte_string "WRAPS-hints-vk-v1".
Definition DST_POK : bytes := byte_string "WRAPS-schnorr-pok-sha256-mod-v4".
Definition DST_NONCE_COMMITMENT : bytes := byte_string "WRAPS-schnorr-nonce-commitment-v1".

(** [u64::MAX + 1], and [checked_add] on [u64]. *)
Definition U64 : N := 2 ^ 64.

Definition checked_add (a b : N) : option N :=
  if (a + b <? U64)%N then Some (a + b)%N else None.
