(* ===== verification/WrapsEngine.v ===== *)
(** * The Nova interface of the WRAPS crate

    WRAPS ([nova-wraps/src]) computes on the Grumpkin curve through the traits of
    the [nova-snark] and [ff] crates, with Poseidon, SHA-256, ChaCha20 and
    bincode.  Those crates are the parameter [CurveEngine] of the model;
    [CurveLaws] states what the code relies on.  A concrete engine that meets the
    laws is at the end of the file. *)
From Stdlib Require Import Strings.Byte Strings.String NArith.
From S2P Require Import Prelude WrapsErrors.
From HB Require Import structures.
From mathcomp Require Import ssreflect ssrfun ssrbool eqtype ssrnat seq div prime.
From mathcomp Require Import fintype bigop ssralg zmodp.
Import GRing.Theory.
Set Warnings "-rewrite-rw".
Set Implicit Arguments.
Unset Strict Implicit.
Unset Printing Implicit Defensive.
Local Open Scope ring_scope.

Lemma byte_eqP : Equality.axiom Byte.eqb.
Proof.
move=> a b; apply: (iffP idP) => [|->]; first exact: byte_dec_bl.
exact: byte_dec_lb.
Qed.
HB.instance Definition _ := hasDecEq.Build byte byte_eqP.

(** [nova_snark::frontend::gadgets::poseidon::SpongeOp]. *)
Inductive SpongeOp : Type :=
| Absorb (n : nat)
| Squeeze (n : nat).

(** [bincode::serde] for one type: [encode_to_vec] and [decode_from_slice], whose
    errors are seen through their display text.  Decoding also returns the number
    of bytes it consumed. *)
Class Bincode (T : Type) := {
  encode_to_vec : T -> string + bytes;
  decode_from_slice : bytes -> string + (T * nat)
}.

Class BincodeLaws (T : Type) (B : Bincode T) : Prop := {
  encode_decode : forall v : T, exists2 b,
    encode_to_vec v = inr b & decode_from_slice b = inr (v, size b)
}.

Class CurveEngine := {
  (** the base and the scalar field of the curve, [E::Base] and [E::Scalar] *)
  Base : fieldType;
  Scalar : fieldType;
  (** [ff::PrimeField::to_repr] and [PrimeFieldBits::to_le_bits] on [E::Base] *)
  to_repr : Base -> bytes;
  to_le_bits : Base -> seq bool;
  (** [E::Base::from] and [E::Scalar::from] on [u64] *)
  base_from : N -> Base;
  scalar_from : N -> Scalar;
  (** [nova_snark::gadgets::utils::field_switch::<E::Base, E::Scalar>] *)
  field_switch : Base -> Scalar;
  (** [nova_snark::constants::NUM_CHALLENGE_BITS] *)
  NUM_CHALLENGE_BITS : nat;
  (** [E::GE: DlogGroup] *)
  GE : lmodType Scalar;
  gen : GE;
  to_coordinates : GE -> Base * Base * bool;
  (** the Poseidon sponge with its constants: the squeezed elements of a run of
      the given pattern under a domain separator *)
  Constants : Type;
  api_constants : Constants;
  sponge : Constants -> seq SpongeOp -> nat -> seq Base -> Base;
  (** [sha2::Sha256] over a whole input *)
  sha256 : bytes -> bytes;
  (** [rand_chacha::ChaCha20Rng] and [E::Scalar::random] *)
  ChaCha20Rng : Type;
  from_seed : bytes -> ChaCha20Rng;
  random : ChaCha20Rng -> Scalar
}.

Class CurveLaws (E : CurveEngine) : Prop := {
  challenge_bits_fit : forall x : Base, (NUM_CHALLENGE_BITS <= size (to_le_bits x))%N;
  base_fromE : forall n, base_from n = (N.to_nat n)%:R;
  scalar_fromE : forall n, scalar_from n = (N.to_nat n)%:R;
  gen_neq0 : gen != 0;
  (** affine coordinates determine the point, and the flag marks the identity *)
  to_coordinates_inj : injective (to_coordinates : GE -> _);
  to_coordinates_inf : forall P : GE, (to_coordinates P).2 = (P == 0);
  (** SHA-256 digests have 32 bytes *)
  sha256_size : forall b, size (sha256 b) = 32
}.

(** A canonical representation has a fixed width and determines the element. *)
Class ReprLaws (E : CurveEngine) : Prop := {
  to_repr_width : forall x y : Base, size (to_repr x) = size (to_repr y);
  to_repr_inj : injective (to_repr : Base -> bytes)
}.

(** ** A concrete engine

    Base field of 101 elements, scalar field of 97, the group of scalars with
    generator 1: a group element is its own discrete logarithm. *)
Definition toyB : fieldType := 'F_101.
Definition toyS : fieldType := 'F_97.
Definition toyGE : lmodType toyS := (toyS^o)%type.

Definition toy_byte (n : nat) : byte :=
  if Byte.of_nat (n %% 256) is Some b then b else x00.

Definition toy_bits (x : toyB) : seq bool :=
  [seq odd (val x %/ 2 ^ i) | i <- iota 0 7].

Definition toy_digest (b : bytes) : nat :=
  N.to_nat (foldl (fun acc c => N.modulo (acc * 31 + Byte.to_N c + 11) 251)%num 7%num b).

Definition toy_sponge (ops : seq SpongeOp) (ds : nat) (xs : seq toyB) : toyB :=
  foldl (fun acc x => acc * 7%:R + x + 3%:R) (ds + size ops)%:R xs.

Definition toy_coordinates (P : toyGE) : toyB * toyB * bool :=
  ((val (P : toyS))%:R, (val (P : toyS) + 1)%:R, P == 0).

#[export] Instance toy_curve : CurveEngine := {|
  Base := toyB;
  Scalar := toyS;
  to_repr := fun x : toyB => [:: toy_byte (val x)];
  to_le_bits := toy_bits;
  base_from := fun n => (N.to_nat n)%:R;
  scalar_from := fun n => (N.to_nat n)%:R;
  field_switch := fun x : toyB => (val x)%:R;
  NUM_CHALLENGE_BITS := 5;
  GE := toyGE;
  gen := (1 : toyS);
  to_coordinates := toy_coordinates;
  Constants := unit;
  api_constants := tt;
  sponge := fun _ => toy_sponge;
  sha256 := fun b => mkseq (fun i => toy_byte (toy_digest (toy_byte i :: b))) 32;
  ChaCha20Rng := bytes;
  from_seed := id;
  random := fun r => (toy_digest r + 1)%:R
|}.

Lemma toy_byteK n : (n < 256)%N -> Byte.to_nat (toy_byte n) = n.
Proof.
move=> lt; rewrite /toy_byte modn_small //; case bE: (Byte.of_nat n) => [b|].
  exact: Byte.to_of_nat bE.
by have /Byte.of_nat_None_iff/ltP := bE; rewrite ltnNge -ltnS lt.
Qed.

Lemma toy_val_lt (x : toyB) : (val x < 101)%N.
Proof. exact: leq_trans (ltn_ord x) _. Qed.

Lemma toyS_lt (x : toyS) : (val x < 97)%N.
Proof. exact: leq_trans (ltn_ord x) _. Qed.

#[export] Instance toy_curve_laws : CurveLaws toy_curve.
Proof.
split=> //=.
- move=> P Q [H _ _]; apply: (@val_inj _ _ _ (P : toyS) (Q : toyS)).
  have lt z : (val (z : toyS) < 101)%N := ltn_trans (toyS_lt z) (isT : (97 < 101)%N).
  have valE (n : nat) : (n < 101)%N -> nat_of_ord (n%:R : 'F_101) = n.
    by move=> ltn; rewrite val_Fp_nat // modn_small.
  by rewrite -[LHS](valE _ (lt P)) -[RHS](valE _ (lt Q)); congr nat_of_ord.
Qed.

#[export] Instance toy_repr_laws : ReprLaws toy_curve.
Proof.
split=> //= x y [/(congr1 Byte.to_nat)].
have lt z := ltn_trans (toy_val_lt z) (isT : (101 < 256)%N).
by rewrite (toy_byteK (lt x)) (toy_byteK (lt y)) => /val_inj.
Qed.
