(* ===== verification/WrapsUtils.v ===== *)
(** * [utils.rs], [poseidon.rs]: bitvectors, encodings, seeds and hashing *)
From Stdlib Require Import Strings.Byte Strings.String NArith.
From S2P Require Import Prelude SeqFacts WrapsErrors WrapsEngine.
From mathcomp Require Import ssreflect ssrfun ssrbool eqtype ssrnat seq div.
From mathcomp Require Import fintype tuple bigop ssralg.
Import GRing.Theory.
Set Warnings "-rewrite-rw".
Set Implicit Arguments.
Unset Strict Implicit.
Unset Printing Implicit Defensive.
Local Open Scope ring_scope.

(** [struct BitVector([bool; MAX_AB_SIZE])]. *)
Definition BitVector : Type := MAX_AB_SIZE.-tuple bool.

(** [pad_bitvector]: [core::array::from_fn(|i| bitvector.get(i).copied().unwrap_or(false))]. *)
Definition pad_bitvector (bitvector : seq bool) : result BitVector :=
  fail_if (MAX_AB_SIZE < size bitvector)%N with
    invalid_input ("bitvector has " ++ dec (size bitvector) ++ " bits, more than the "
                   ++ dec MAX_AB_SIZE ++ " seats the circuit can take")%string;;
  Ok [tuple of [seq nth false bitvector i | i <- iota 0 MAX_AB_SIZE]].

(** [v[i..]]: a start past the end panics. *)
Definition slice_from {Error A : Type} (v : seq A) (i : nat) : outcome Error (seq A) :=
  if (i <= size v)%N then Ok (drop i v) else Panic.

(** [encode] and [decode]; decoding rejects trailing bytes. *)
Definition encode {T : Type} {B : Bincode T} (value : T) : result bytes :=
  map_err (fun e => cryptography ("serialization failed: " ++ e)%string)
    (of_sum (encode_to_vec value)).

Definition decode {T : Type} {B : Bincode T} (bs : bytes) : result T :=
  let* (value, consumed) :=
    map_err (fun e => cryptography ("deserialization failed: " ++ e)%string)
      (of_sum (decode_from_slice bs)) in
  fail_if consumed != size bs with invalid_input "trailing bytes after serialized value";;
  Ok value.

(** A zlib stream (flate2): the encoder that bincode writes into, and the decoder it
    reads from. *)
Class Zlib := {
  ZlibEncoder : Type;
  zlib_finish : ZlibEncoder -> string + bytes
}.

Class ZlibBincode (Z : Zlib) (T : Type) := {
  encode_into_std_write : T -> string + ZlibEncoder;
  decode_from_std_read : bytes -> string + T
}.

(** [_encode_compressed] and [_decode_compressed] *)
Definition _encode_compressed {Z : Zlib} {T : Type} {B : ZlibBincode Z T} (value : T) :
    result bytes :=
  let* encoder := map_err (fun e => cryptography ("serialization failed: " ++ e)%string)
    (of_sum (encode_into_std_write value)) in
  map_err (fun e => cryptography ("deflate failed: " ++ e)%string) (of_sum (zlib_finish encoder)).

Definition _decode_compressed {Z : Zlib} {T : Type} {B : ZlibBincode Z T} (bs : bytes) :
    result T :=
  map_err (fun e => cryptography ("deserialization failed: " ++ e)%string)
    (of_sum (decode_from_std_read bs)).

Section Utils.
Context {E : CurveEngine}.

(** [expand_seed]: SHA-256 of the seed followed by a one-byte counter. *)
Definition expand_seed (seed : bytes) : bytes * bytes :=
  (sha256 (seed ++ [:: x00]), sha256 (seed ++ [:: x01])).

(** [le_bits_of] on [E::Base]; [bits[i]] panics out of range. *)
Definition le_bits_of (x : Base) (num_bits : nat) : result (seq bool) :=
  mapM (vec_get (to_le_bits x)) (iota 0 num_bits).

(** [fits_in_bits], which the tests use. *)
Definition fits_in_bits (x : Base) (num_bits : nat) : bool :=
  all negb (drop num_bits (to_le_bits x)).

(** [encode_point]: affine coordinates, then the infinity flag. *)
Definition encode_point (p : GE) : seq Base :=
  let: (x, y, is_infinity) := to_coordinates p in
  [:: x; y; if is_infinity then 1 else 0].

(** [shared_constants] *)
Definition shared_constants : Constants := api_constants.

(** [n as u32] on a [usize]. *)
Definition as_u32 (n : nat) : nat := N.to_nat (N.modulo (N.of_nat n) (2 ^ 32)).

(** [poseidon_native]: one absorb of all elements, one squeezed element; the
    element count is a [u32]. *)
Definition poseidon_native (pc : Constants) (domain_sep : nat) (elements : seq Base) : Base :=
  let num_absorbs := as_u32 (size elements) in
  sponge pc [:: Absorb num_absorbs; Squeeze 1] domain_sep elements.

End Utils.

(** ** Lemmas *)

Lemma pad_bitvector_ok (bs : seq bool) : (size bs <= MAX_AB_SIZE)%N ->
  exists2 bv : BitVector, pad_bitvector bs = Ok bv &
    tval bv = bs ++ nseq (MAX_AB_SIZE - size bs) false.
Proof.
move=> le; rewrite /pad_bitvector ltnNge le /=; eexists; [by []|].
apply: (@eq_from_nth _ false); first by rewrite size_tuple size_cat size_nseq subnKC.
move=> i; rewrite size_tuple => lt; 
  rewrite -[LHS]/(nth false [seq nth false bs j | j <- iota 0 MAX_AB_SIZE] i) (nth_map 0%N) ?size_iota // nth_iota // add0n.
by rewrite nth_cat nth_nseq; case: ltnP => // ge; rewrite nth_default //; case: ifP.
Qed.

Lemma pad_bitvector_inv (bs : seq bool) (bv : BitVector) : pad_bitvector bs = Ok bv ->
  (size bs <= MAX_AB_SIZE)%N /\ tval bv = bs ++ nseq (MAX_AB_SIZE - size bs) false.
Proof.
case: (leqP (size bs) MAX_AB_SIZE) => [le|gt]; last by rewrite /pad_bitvector gt.
by have [bv' -> bvE] := pad_bitvector_ok le; case=> <-.
Qed.

(** A bitvector of full width is returned as it is. *)
Lemma pad_bitvector_id (bv : BitVector) : pad_bitvector bv = Ok bv.
Proof.
have le : (size bv <= MAX_AB_SIZE)%N by rewrite size_tuple.
have [bv' -> E] := pad_bitvector_ok le; congr Ok; apply: val_inj.
by rewrite /= E size_tuple subnn cats0.
Qed.

Lemma slice_from_ok {Error A : Type} (v : seq A) i :
  (i <= size v)%N -> slice_from v i = Ok (drop i v) :> outcome Error _.
Proof. by rewrite /slice_from => ->. Qed.

(** A summing [fold]. *)
Lemma fold_add_sum (R : nmodType) (A : Type) (f : A -> R) a (l : seq A) :
  foldl (fun acc x => acc + f x) a l = a + \sum_(x <- l) f x.
Proof.
by elim: l a => [|x l IH] a /=; rewrite ?big_nil ?addr0 // big_cons IH addrA.
Qed.

Section Encodings.
Context {T : Type} {B : Bincode T} {L : BincodeLaws B}.

Lemma encode_ok (v : T) : exists2 b, encode v = Ok b & decode b = Ok v.
Proof.
have [b eE dE] := encode_decode v; exists b; first by rewrite /encode eE.
by rewrite /decode dE /= eqxx.
Qed.

Lemma encode_inv (v : T) b : encode v = Ok b -> decode b = Ok v.
Proof. by have [b' -> dE] := encode_ok v; case=> <-. Qed.

Lemma encode_no_panic (v : T) : never_panics (encode v).
Proof. by rewrite /encode; case: encode_to_vec. Qed.

Lemma decode_no_panic b : never_panics (@decode T B b).
Proof. by rewrite /decode; case: decode_from_slice => [e|[v n]] //=; case: eqP. Qed.
End Encodings.

(** Reading the first [n] elements one by one. *)
Lemma collect_prefix (Error : Type) (v : seq bool) n : (n <= size v)%N ->
  mapM (vec_get v) (iota 0 n) = Ok (take n v) :> outcome Error _.
Proof.
move=> le; rewrite (@mapM_ok _ _ _ _ (nth false v)).
  by move=> i; rewrite mem_iota /= => lt; rewrite (vec_get_lt _ false) // (leq_trans lt).
congr Ok; apply: (@eq_from_nth _ false); rewrite !size_map size_iota.
  by rewrite size_takel.
by move=> i lt; rewrite (nth_map 0%N) ?size_iota // nth_iota // nth_take.
Qed.

Section Points.
Context {E : CurveEngine} {L : CurveLaws E}.

Lemma le_bits_ofE (x : Base) n : (n <= size (to_le_bits x))%N ->
  le_bits_of x n = Ok (take n (to_le_bits x)).
Proof. exact: collect_prefix. Qed.

(** The encoding of a point determines it. *)
Lemma encode_point_inj : injective (encode_point : GE -> seq Base).
Proof.
move=> P Q; rewrite /encode_point.
case cP: (to_coordinates P) => [[x y] i]; case cQ: (to_coordinates Q) => [[x' y'] i'].
case=> xx yy ii; apply: to_coordinates_inj; rewrite cP cQ xx yy.
by case: i i' ii {cP cQ} => -[] //= /eqP; rewrite ?oner_eq0 // eq_sym oner_eq0.
Qed.

Lemma size_encode_point (P : GE) : size (encode_point P) = 3.
Proof. by rewrite /encode_point; case: to_coordinates => [[]]. Qed.
End Points.
