(* ===== verification/Schnorr.v ===== *)
(** * [schnorr.rs], first half: Schnorr signatures and proofs of knowledge

    Randomness drawn from the operating system is an argument (the nonce of
    [sign]); randomness drawn from a seeded ChaCha20 stream goes through the
    engine's [random]. *)
From Stdlib Require Import Strings.Byte Strings.String NArith.
From S2P Require Import Prelude SeqFacts WrapsErrors WrapsEngine WrapsUtils.
From mathcomp Require Import ssreflect ssrfun ssrbool eqtype ssrnat seq.
From mathcomp Require Import fintype bigop ssralg.
Import GRing.Theory.
Set Warnings "-rewrite-rw".
Set Implicit Arguments.
Unset Strict Implicit.
Unset Printing Implicit Defensive.
Local Open Scope ring_scope.

Section Types.
Context {E : CurveEngine}.

Record Keypair : Type := MkKeypair { kp_sk : Scalar; kp_pk : GE }.

Record Signature : Type := MkSignature { sig_e : Base; sig_s : Scalar }.

Record SchnorrPoK : Type := MkSchnorrPoK {
  pok_commitment : GE;
  pok_challenge_field : Scalar;
  pok_response : Scalar
}.

Definition SchnorrAttestedPubKey : Type := GE * SchnorrPoK.
End Types.

Section Schnorr.
Context {E : CurveEngine}.

(** [truncate_to_challenge]: the low [NUM_CHALLENGE_BITS] bits, recomposed. *)
Definition truncate_to_challenge (x : Base) : result Base :=
  let* bits := le_bits_of x NUM_CHALLENGE_BITS in
  Ok (foldl (fun (st : Base * Base) (bit : bool) =>
               let: (acc, coeff) := st in
               (if bit then acc + coeff else acc, coeff + coeff))
            (0, 1) bits).1.

(** [Schnorr::challenge]: [e = H(pk, r, m)], truncated. *)
Definition challenge (pc : Constants) (pk r : GE) (msg : seq Base) : result Base :=
  let elements := encode_point pk ++ encode_point r ++ msg in
  truncate_to_challenge (poseidon_native pc DS_CHALLENGE elements).

(** [Schnorr::keygen] *)
Definition keygen (rng : ChaCha20Rng) : Keypair :=
  let sk := random rng in
  MkKeypair sk (sk *: gen).

(** [Schnorr::sign], with the sampled nonce [k] as an argument. *)
Definition sign (pc : Constants) (kp : Keypair) (msg : seq Base) (k : Scalar) :
    result Signature :=
  let r := k *: gen in
  let* e := challenge pc (kp_pk kp) r msg in
  Ok (MkSignature e (k + kp_sk kp * field_switch e)).

(** [Schnorr::verify]: recover [r = s·G - e·pk] and hash it back. *)
Definition verify (pc : Constants) (pk : GE) (msg : seq Base) (sig : Signature) :
    result bool :=
  let e := field_switch (sig_e sig) in
  let r := sig_s sig *: gen - e *: pk in
  let* e' := challenge pc pk r msg in
  Ok (e' == sig_e sig).

(** The big-endian Horner evaluation of a digest in a field. *)
Definition digest_to_scalar (digest : bytes) : Scalar :=
  let radix := scalar_from 256 in
  foldl (fun acc byte => acc * radix + scalar_from (Byte.to_N byte)) 0 digest.

(** [Schnorr::pok_challenge] *)
Definition pok_challenge (pk commitment : GE) : Scalar :=
  let transcript :=
    flatten [seq flatten [seq to_repr element | element <- encode_point point]
            | point <- [:: gen; pk; commitment]] in
  digest_to_scalar (sha256 (DST_POK ++ transcript)).

(** [Schnorr::prove_knowledge] *)
Definition prove_knowledge (kp : Keypair) (rng : ChaCha20Rng) : SchnorrPoK :=
  let r := random rng in
  let commitment := r *: gen in
  let challenge := pok_challenge (kp_pk kp) commitment in
  let response := r + kp_sk kp * challenge in
  MkSchnorrPoK commitment challenge response.

(** [Schnorr::verify_knowledge] *)
Definition verify_knowledge (pk : GE) (pok : SchnorrPoK) : bool :=
  if pok_challenge pk (pok_commitment pok) != pok_challenge_field pok then false
  else pok_response pok *: gen == pok_commitment pok + pok_challenge_field pok *: pk.

End Schnorr.

(** ** Lemmas *)
Section Facts.
Context {E : CurveEngine} {L : CurveLaws E}.

(** The challenge as a total function. *)
Definition challenge_of (pk r : GE) (msg : seq Base) : Base :=
  (foldl (fun (st : Base * Base) (bit : bool) =>
            let: (acc, coeff) := st in
            (if bit then acc + coeff else acc, coeff + coeff))
     (0, 1) (take NUM_CHALLENGE_BITS
       (to_le_bits (poseidon_native shared_constants DS_CHALLENGE
          (encode_point pk ++ encode_point r ++ msg))))).1.

Lemma challengeE pk r msg : challenge shared_constants pk r msg = Ok (challenge_of pk r msg).
Proof.
by rewrite /challenge /truncate_to_challenge le_bits_ofE // challenge_bits_fit.
Qed.

Lemma verifyE pk msg sig : verify shared_constants pk msg sig =
  Ok (challenge_of pk (sig_s sig *: gen - field_switch (sig_e sig) *: pk) msg == sig_e sig).
Proof. by rewrite /verify challengeE. Qed.

(** The algebra behind signing and proving: [s = k + sk·e] answers the challenge
    [e] for the nonce point [k·G] and the key [sk·G]. *)
Lemma response_eq (V : lmodType Scalar) (g : V) (k sk e : Scalar) :
  (k + sk * e) *: g - e *: (sk *: g) = k *: g.
Proof. by rewrite scalerDl scalerA mulrC addrK. Qed.

Lemma prove_verify_knowledge (kp : Keypair) rng : kp_pk kp = kp_sk kp *: gen ->
  verify_knowledge (kp_pk kp) (prove_knowledge kp rng).
Proof.
move=> pkE; rewrite /verify_knowledge /= eqxx /= pkE scalerDl.
by rewrite [kp_sk kp * _]mulrC -scalerA.
Qed.
End Facts.
