(* ===== verification/Multisig.v ===== *)
(** * [schnorr.rs], second half: the three-round multisignature

    [MultisigRound1], [MultisigRound2], [MultisigRound3] and [RoundMessage] are
    the broadcast messages; [nonce] to [aggregate] are the associated functions
    of [struct Multisig]. *)
From Stdlib Require Import Strings.Byte Strings.String NArith.
From S2P Require Import Prelude SeqFacts WrapsErrors WrapsEngine WrapsUtils Schnorr.
From mathcomp Require Import ssreflect ssrfun ssrbool eqtype ssrnat seq.
From mathcomp Require Import fintype bigop ssralg.
Import GRing.Theory.
Set Warnings "-rewrite-rw".
Set Implicit Arguments.
Unset Strict Implicit.
Unset Printing Implicit Defensive.
Local Open Scope ring_scope.

Record MultisigRound1 : Type := MkRound1 { nonce_commitment : bytes }.

Section Types.
Context {E : CurveEngine}.

Record MultisigRound2 : Type := MkRound2 { nonce_point : GE }.
Record MultisigRound3 : Type := MkRound3 { partial_signature : Signature }.

Inductive RoundMessage : Type :=
| Round1 (m : MultisigRound1)
| Round2 (m : MultisigRound2)
| Round3 (m : MultisigRound3).
End Types.

(** [#[derive(PartialEq)]] on round-1 messages. *)
Definition round1_eqb (a b : MultisigRound1) : bool := nonce_commitment a == nonce_commitment b.

Section Multisig.
Context {E : CurveEngine}.

(** [Multisig::nonce] *)
Definition nonce (protocol_instance_entropy : bytes) (msg : seq Base) : Scalar :=
  let seed := sha256 (protocol_instance_entropy ++ flatten [seq to_repr x | x <- msg]) in
  random (from_seed seed).

(** [Multisig::commit_nonce] *)
Definition commit_nonce (r : GE) : MultisigRound1 :=
  MkRound1 (sha256 (DST_NONCE_COMMITMENT ++ flatten [seq to_repr x | x <- encode_point r])).

(** [Multisig::aggregate_key]: [reduce] has no value on an empty list. *)
Definition aggregate_key (public_keys : seq GE) : result GE :=
  ok_or (invalid_input "a signing set must have at least one member")
    (if public_keys is pk :: pks then Some (foldl +%R pk pks) else None).

(** [Multisig::round1] *)
Definition round1 (protocol_instance_entropy : bytes) (msg : seq Base) : MultisigRound1 :=
  commit_nonce (nonce protocol_instance_entropy msg *: gen).

(** [Multisig::round2] *)
Definition round2 (protocol_instance_entropy : bytes) (msg : seq Base) : MultisigRound2 :=
  MkRound2 (nonce protocol_instance_entropy msg *: gen).

(** [Multisig::challenge] *)
Definition challenge (pc : Constants) (msg : seq Base) (public_keys : seq GE)
    (round1 : seq MultisigRound1) (round2 : seq MultisigRound2) : result Base :=
  let n := size public_keys in
  fail_if n == 0%N with invalid_input "a signing set must have at least one member";;
  fail_if (size round1 != n) || (size round2 != n) with
    invalid_input "round-1 and round-2 message counts must match the signing set";;
  let* _ := foldM (fun (_ : unit) (ir : nat * MultisigRound2) =>
      let: (i, r) := ir in
      let* c := vec_get round1 i in
      fail_if ~~ round1_eqb (commit_nonce (nonce_point r)) c with
        invalid_input ("signer " ++ dec i ++
          ": the round-2 nonce does not open its round-1 commitment")%string;;
      Ok tt) tt (zip (iota 0 (size round2)) round2) in
  let nonce_points := [seq nonce_point m | m <- round2] in
  let* aggregate_r := aggregate_key nonce_points in
  let* aggregate_pk := aggregate_key public_keys in
  fail_if (to_coordinates aggregate_pk).2 with
    invalid_input "the signing set's aggregate public key must not be the identity";;
  Schnorr.challenge pc aggregate_pk aggregate_r msg.

(** [Multisig::round3] *)
Definition round3 (pc : Constants) (protocol_instance_entropy : bytes) (msg : seq Base)
    (sk : Scalar) (public_keys : seq GE) (round1 : seq MultisigRound1)
    (round2 : seq MultisigRound2) : result MultisigRound3 :=
  let* e := challenge pc msg public_keys round1 round2 in
  let nonce := nonce protocol_instance_entropy msg in
  let pk := sk *: gen in
  let point := nonce *: gen in
  let* signer := ok_or (invalid_input "R3 signing key is not in the signing subset")
    (if pk \in public_keys then Some (index pk public_keys) else None) in
  let* m := vec_get round2 signer in
  fail_if nonce_point m != point with
    invalid_input "R3 session entropy or message does not match the signer's round-2 nonce";;
  Ok (MkRound3 (MkSignature e (nonce + sk * field_switch e))).

(** The check of one partial signature in [Multisig::aggregate]. *)
Definition check_partial (e : Base) (public_keys : seq GE) (round2 : seq MultisigRound2)
    (ip : nat * MultisigRound3) : result unit :=
  let: (i, m) := ip in
  let partial := partial_signature m in
  fail_if sig_e partial != e with
    invalid_input ("signer " ++ dec i ++
      ": partial signature answers a different challenge")%string;;
  let* pk := vec_get public_keys i in
  let* r := vec_get round2 i in
  fail_if sig_s partial *: gen - field_switch e *: pk != nonce_point r with
    invalid_input ("signer " ++ dec i ++
      ": partial signature does not verify against its own nonce and key")%string;;
  Ok tt.

(** [Multisig::aggregate] *)
Definition aggregate (pc : Constants) (msg : seq Base) (public_keys : seq GE)
    (round1 : seq MultisigRound1) (round2 : seq MultisigRound2)
    (round3 : seq MultisigRound3) : result Signature :=
  fail_if size round3 != size public_keys with
    invalid_input "round-3 message count must match the signing set";;
  let* e := challenge pc msg public_keys round1 round2 in
  let* _ := foldM (fun _ => check_partial e public_keys round2) tt
              (zip (iota 0 (size round3)) round3) in
  let s := foldl (fun acc partial => acc + sig_s (partial_signature partial)) 0 round3 in
  Ok (MkSignature e s).

End Multisig.

(** ** Lemmas *)
Section Facts.
Context {E : CurveEngine} {L : CurveLaws E}.

(** [pc] is always the shared constants. *)
#[local] Abbreviation pc := shared_constants.

Lemma round1_eqP a b : reflect (a = b) (round1_eqb a b).
Proof. by case: a b => a [b]; apply: (iffP eqP) => /= [->|[]]. Qed.

Lemma aggregate_keyE (pks : seq GE) :
  pks != [::] -> aggregate_key pks = Ok (\sum_(pk <- pks) pk).
Proof.
case: pks => [|pk pks] // _; rewrite /aggregate_key /=; congr Ok.
elim/last_ind: pks => [|pks p IH] /=; first by rewrite big_seq1.
by rewrite -cats1 foldl_cat /= IH -cat_cons big_cat big_seq1.
Qed.

(** The round-2 messages open the round-1 commitments, in order. *)
Definition opened (r1 : seq MultisigRound1) (r2 : seq MultisigRound2) : Prop :=
  r1 = [seq commit_nonce (nonce_point m) | m <- r2].

Definition joint_key (pks : seq GE) : GE := \sum_(pk <- pks) pk.
Definition joint_nonce (r2 : seq MultisigRound2) : GE := \sum_(m <- r2) nonce_point m.

(** What a derived group challenge says, and when there is one. *)
Lemma challengeP msg pks r1 r2 e :
  challenge pc msg pks r1 r2 = Ok e <->
  [/\ pks <> [::], size r2 = size pks, opened r1 r2, joint_key pks != 0 &
      e = challenge_of (joint_key pks) (joint_nonce r2) msg].
Proof.
rewrite /challenge size_eq0; case: eqP => [->|/eqP pks0] /=; first by split=> // -[].
case: (eqVneq (size r1) (size pks)) => [s1|ne] /=; last first.
  split=> // -[_ s2 o _ _]; case/eqP: ne.
  by rewrite o size_map.
case: (eqVneq (size r2) (size pks)) => [s2|ne] /=; last first.
  by split=> // -[_ s2 _ _ _]; rewrite s2 eqxx in ne.
have opens : foldM (fun _ (ir : nat * MultisigRound2) => let: (i, r) := ir in
      let* c := vec_get r1 i in
      fail_if ~~ round1_eqb (commit_nonce (nonce_point r)) c with
        invalid_input ("signer " ++ dec i ++
          ": the round-2 nonce does not open its round-1 commitment")%string;;
      Ok tt) tt (zip (iota 0 (size r2)) r2) = Ok tt :> result unit <-> opened r1 r2.
  pose c0 := MkRound1 [::]; pose m0 := @MkRound2 E 0.
  rewrite (enum_checks_ok m0); split=> [H|-> i lt].
    apply: (@eq_from_nth _ c0); rewrite ?size_map ?s1 // => i lt.
    have lt2 : (i < size r2)%N by rewrite s2.
    rewrite (nth_map m0) //; have := H i lt2; rewrite add0n (vec_get_lt _ c0) ?s1 //=.
    by case: round1_eqP.
  rewrite add0n (vec_get_lt _ c0) ?size_map //= (nth_map m0) //.
  by case: round1_eqP.
case fE: (foldM _ _ _) => [[]|err|] /=; first last.
- by split=> // -[_ _ /opens]; rewrite fE.
- by split=> // -[_ _ /opens]; rewrite fE.
have o : opened r1 r2 by apply/opens.
rewrite !aggregate_keyE //; first by rewrite -size_eq0 size_map s2 size_eq0.
rewrite /= to_coordinates_inf big_map challengeE -/(joint_key pks) -/(joint_nonce r2).
case: eqP => [->|/eqP j0] /=; first by split=> // -[].
split=> [[<-]|[_ _ _ _ ->]] //; split=> //.
by move/eqP: pks0.
Qed.

Lemma challenge_no_panic msg pks r1 r2 : never_panics (challenge pc msg pks r1 r2).
Proof.
rewrite /challenge; case: eqP => // n0; case: eqP => //= s1; case: eqP => //= s2.
apply: bind_no_panic => [|_ _].
  apply: (enum_checks_no_panic (a0 := @MkRound2 E 0)) => i lt; rewrite add0n.
  by rewrite (vec_get_lt _ (MkRound1 [::])) ?s1 -?s2 //=; case: round1_eqb.
have pks0 : pks != [::] by rewrite -size_eq0; apply/eqP.
rewrite !aggregate_keyE //; first by rewrite -size_eq0 size_map s2 size_eq0.
by rewrite /= challengeE; case: (to_coordinates _).2.
Qed.

(** Where a signer's key sits in the signing subset. *)
Lemma round3P entropy msg sk pks r1 r2 m :
  round3 pc entropy msg sk pks r1 r2 = Ok m <->
  exists2 e, challenge pc msg pks r1 r2 = Ok e &
    [/\ sk *: gen \in pks,
        nonce_point (nth (MkRound2 0) r2 (index (sk *: gen) pks)) = nonce entropy msg *: gen &
        m = MkRound3 (MkSignature e (nonce entropy msg + sk * field_switch e))].
Proof.
rewrite /round3; case cE: challenge => [e|err|] /=; first last.
- by split=> // -[].
- by split=> // -[].
have /challengeP [_ s2 _ _ _] := cE.
case: ifP => [inp|out] /=; last by split=> // -[e' _ []].
rewrite (vec_get_lt _ (MkRound2 0)) ?s2 ?index_mem //=.
case: eqP => [nE|nN] /=; last by split=> // -[e' _ [_ /nN]].
by split=> [[<-]|[e' [<-] [_ _ ->]]] //; exists e.
Qed.

Lemma round3_no_panic entropy msg sk pks r1 r2 :
  never_panics (round3 pc entropy msg sk pks r1 r2).
Proof.
rewrite /round3; apply: bind_no_panic => [|e /challengeP [_ s2 _ _ _]].
  exact: challenge_no_panic.
case: ifP => //= inp; rewrite (vec_get_lt _ (MkRound2 0)) ?s2 ?index_mem //=.
by case: eqP.
Qed.

(** The single-signer equation of share [i]. *)
Definition share_ok (e : Base) (pks : seq GE) (r2 : seq MultisigRound2)
    (r3 : seq MultisigRound3) (i : nat) : Prop :=
  let partial := partial_signature (nth (MkRound3 (MkSignature 0 0)) r3 i) in
  sig_e partial = e /\
  sig_s partial *: gen - field_switch e *: nth 0 pks i = nonce_point (nth (MkRound2 0) r2 i).

Definition response_sum (r3 : seq MultisigRound3) : Scalar :=
  \sum_(m <- r3) sig_s (partial_signature m).

Lemma check_partialP e pks r2 r3 i : (i < size pks)%N -> size r2 = size pks ->
  check_partial e pks r2 (i, nth (MkRound3 (MkSignature 0 0)) r3 i) = Ok tt <->
  share_ok e pks r2 r3 i.
Proof.
move=> lt s2; rewrite /check_partial /share_ok; case: eqP => [eE|eN] /=; last by split=> // -[].
rewrite (vec_get_lt _ 0) // (vec_get_lt _ (MkRound2 0)) ?s2 //=.
by case: eqP => [sE|sN] /=; split=> // -[].
Qed.

Lemma aggregateP msg pks r1 r2 r3 sig :
  aggregate pc msg pks r1 r2 r3 = Ok sig <->
  exists2 e, challenge pc msg pks r1 r2 = Ok e &
    [/\ size r3 = size pks, forall i, (i < size pks)%N -> share_ok e pks r2 r3 i &
        sig = MkSignature e (response_sum r3)].
Proof.
rewrite /aggregate; case: (eqVneq (size r3) (size pks)) => [s3|ne] /=; last first.
  by split=> // -[e _ [s3]]; rewrite s3 eqxx in ne.
case cE: challenge => [e|err|] /=; first last.
- by split=> // -[].
- by split=> // -[].
have /challengeP [_ s2 _ _ _] := cE.
have checks : foldM (fun _ => check_partial e pks r2) tt (zip (iota 0 (size r3)) r3) = Ok tt <->
    forall i, (i < size pks)%N -> share_ok e pks r2 r3 i.
  rewrite (enum_checks_ok (MkRound3 (MkSignature 0 0))) s3.
  by split=> H i lt; have := H i lt; rewrite add0n check_partialP.
case fE: (foldM _ _ _) => [[]|err|] /=; first last.
- by split=> // -[e' [<-] [_ /checks]]; rewrite fE.
- by split=> // -[e' [<-] [_ /checks]]; rewrite fE.
rewrite fold_add_sum add0r -/(response_sum r3).
split=> [[<-]|[e' [<-] [_ _ ->]]] //; exists e => //; split=> //.
exact/checks.
Qed.

Lemma aggregate_no_panic msg pks r1 r2 r3 : never_panics (aggregate pc msg pks r1 r2 r3).
Proof.
rewrite /aggregate; case: eqP => //= s3; apply: bind_no_panic => [|e]; first exact: challenge_no_panic.
move=> /challengeP [_ s2 _ _ _]; apply: bind_no_panic => [|//].
apply: (enum_checks_no_panic (a0 := MkRound3 (MkSignature 0 0))) => i; rewrite s3 add0n => lt.
rewrite /check_partial; case: eqP => //= _.
by rewrite (vec_get_lt _ 0) // (vec_get_lt _ (MkRound2 0)) ?s2 //=; case: eqP.
Qed.

(** Summing the share equations gives the equation of the joint key. *)
Lemma shares_sum e pks r2 r3 : size r2 = size pks -> size r3 = size pks ->
  (forall i, (i < size pks)%N -> share_ok e pks r2 r3 i) ->
  response_sum r3 *: gen - field_switch e *: joint_key pks = joint_nonce r2.
Proof.
move=> s2 s3 ok; rewrite /response_sum /joint_key /joint_nonce scaler_suml scaler_sumr.
rewrite (big_nth (MkRound3 (MkSignature 0 0))) (big_nth 0 (r := pks)).
rewrite [RHS](big_nth (MkRound2 0)) s2 s3 -[LHS]sumrB !big_mkord; apply: eq_bigr => i _.
by have [_ <-] := ok i (ltn_ord i).
Qed.

(** Whatever the partial signatures are, a returned aggregate verifies. *)
Lemma aggregate_verified msg pks r1 r2 r3 sig : aggregate pc msg pks r1 r2 r3 = Ok sig ->
  [/\ aggregate_key pks = Ok (joint_key pks), joint_key pks != 0 &
      Schnorr.verify pc (joint_key pks) msg sig = Ok true].
Proof.
case/aggregateP => e /challengeP [/eqP n0 s2 _ j0 eE] [s3 ok ->].
split=> //; first exact: aggregate_keyE.
by rewrite verifyE /= (shares_sum s2 s3 ok) -eE eqxx.
Qed.

(** An honest session: signer [i] holds the secret key [sks_i] and the entropy
    [seeds_i]. *)
Section Honest.
Variables (msg : seq Base) (sks : seq Scalar) (seeds : seq bytes).
Let pks := [seq sk *: gen | sk <- sks].
Let r1 := [seq round1 s msg | s <- seeds].
Let r2 := [seq round2 s msg | s <- seeds].
Hypothesis same_size : size seeds = size sks.
Hypothesis keys_uniq : uniq pks.
Hypothesis some_signer : sks <> [::].
Hypothesis joint_neq0 : joint_key pks != 0.

Definition session_challenge : Base := challenge_of (joint_key pks) (joint_nonce r2) msg.

Definition session_share (i : nat) : MultisigRound3 :=
  MkRound3 (MkSignature session_challenge
    (nonce (nth [::] seeds i) msg + nth 0 sks i * field_switch session_challenge)).

Lemma session_challengeE : challenge pc msg pks r1 r2 = Ok session_challenge.
Proof.
apply/challengeP; split=> //; first by move=> /(congr1 size); rewrite size_map => /size0nil.
- by rewrite !size_map.
- by rewrite /opened -map_comp.
Qed.

Lemma session_round3 i : (i < size sks)%N ->
  round3 pc (nth [::] seeds i) msg (nth 0 sks i) pks r1 r2 = Ok (session_share i).
Proof.
move=> lt; have nthE : nth 0 sks i *: gen = nth 0 pks i by rewrite (nth_map 0).
apply/round3P; exists session_challenge; first exact: session_challengeE.
rewrite nthE mem_nth ?size_map // index_uniq ?size_map //; split=> //.
by rewrite (nth_map [::]) ?same_size.
Qed.

Lemma session_aggregate : exists2 sig,
  aggregate pc msg pks r1 r2 (mkseq session_share (size sks)) = Ok sig &
  Schnorr.verify pc (joint_key pks) msg sig = Ok true.
Proof.
suff agg : exists sig, aggregate pc msg pks r1 r2 (mkseq session_share (size sks)) = Ok sig.
  by have [sig aE] := agg; exists sig => //; have [] := aggregate_verified aE.
eexists; apply/aggregateP; exists session_challenge; first exact: session_challengeE.
split; [by rewrite size_mkseq size_map| |by []].
move=> i; rewrite size_map => lt.
rewrite /share_ok nth_mkseq //; split=> //=.
by rewrite (nth_map 0) // (nth_map [::]) ?same_size // response_eq.
Qed.
End Honest.
End Facts.
