(* ===== verification/AddressBook.v ===== *)
(** * [wraps.rs], address books: padding, hashing, validation and weights

    A [u64] weight is a binary natural number below [U64]; the field
    [weight_range] of a book is the well-formedness that Rust's type gives. *)
From Stdlib Require Import Strings.Byte Strings.String NArith Lia.
From S2P Require Import Prelude SeqFacts WrapsErrors WrapsEngine WrapsUtils Schnorr Multisig.
From mathcomp Require Import ssreflect ssrfun ssrbool eqtype ssrnat seq.
From mathcomp Require Import fintype tuple bigop ssralg.
Import GRing.Theory.
Set Warnings "-rewrite-rw".
Set Implicit Arguments.
Unset Strict Implicit.
Unset Printing Implicit Defensive.
Local Open Scope ring_scope.

Definition Weight : Type := N.

Section AddressBook.
Context {E : CurveEngine}.

Definition AddressBookEntry : Type := Base * SchnorrAttestedPubKey * Weight.
Definition AddressBook : Type := seq AddressBookEntry.

(** The components [(node_id, (pk, pok), weight)] of an entry. *)
Definition node_id (e : AddressBookEntry) : Base := e.1.1.
Definition entry_pk (e : AddressBookEntry) : GE := e.1.2.1.
Definition entry_pok (e : AddressBookEntry) : SchnorrPoK := e.1.2.2.
Definition weight (e : AddressBookEntry) : Weight := e.2.

(** [sentinel_pubkey], [sentinel_attested_pubkey], [padding_entry] *)
Definition sentinel_pubkey : GE := 0 *: gen.

Definition sentinel_attested_pubkey : SchnorrAttestedPubKey :=
  (sentinel_pubkey, MkSchnorrPoK sentinel_pubkey 0 0).

Definition padding_entry : AddressBookEntry := (- 1, sentinel_attested_pubkey, N0).

(** [Vec::resize] *)
Definition resize {A : Type} (v : seq A) (new_len : nat) (value : A) : seq A :=
  take new_len v ++ nseq (new_len - size v) value.

(** [pad_address_book] *)
Definition pad_address_book (ab : AddressBook) : result AddressBook :=
  fail_if (MAX_AB_SIZE < size ab)%N with
    invalid_input ("address book has " ++ dec (size ab) ++ " entries, more than the "
                   ++ dec MAX_AB_SIZE ++ " the circuit can take")%string;;
  Ok (resize ab MAX_AB_SIZE padding_entry).

(** The preimage of the book hash: five elements per entry. *)
Definition book_elements (ab : AddressBook) : seq Base :=
  flatten [seq node_id e :: encode_point (entry_pk e) ++ [:: base_from (weight e)] | e <- ab].

(** [hash_address_book]; the [debug_assert_eq!] panics in a debug build. *)
Definition hash_address_book (pc : Constants) (ab : AddressBook) : result Base :=
  if size ab != MAX_AB_SIZE then Panic
  else Ok (poseidon_native pc DS_ADDRESS_BOOK (book_elements ab)).

(** [pk.to_coordinates().2] *)
Definition is_identity (pk : GE) : bool := (to_coordinates pk).2.

(** The closure of [verify_address_book] over the entries, with its two mutable
    captures [seen_keys] and [total_weight]. *)
Fixpoint verify_entries (ab : AddressBook) (seen_keys : seq GE) (total_weight : N) : bool :=
  match ab with
  | [::] => true
  | e :: ab' =>
      if is_identity (entry_pk e) then verify_entries ab' seen_keys total_weight
      else if entry_pk e \in seen_keys then false
      else match checked_add total_weight (weight e) with
           | None => false
           | Some total =>
               verify_knowledge (entry_pk e) (entry_pok e) &&
               verify_entries ab' (rcons seen_keys (entry_pk e)) total
           end
  end.

(** [verify_address_book] *)
Definition verify_address_book (ab : AddressBook) : bool :=
  if (MAX_AB_SIZE < size ab)%N then false else verify_entries ab [::] N0.

(** [hash_hints_vk] *)
Definition hash_hints_vk (vk_bytes : bytes) : Base :=
  let radix := base_from 256 in
  foldl (fun acc byte => acc * radix + base_from (Byte.to_N byte)) 0
    (sha256 (DST_HINTS_VK ++ vk_bytes)).

(** [signing_subset]: the nonidentity keys the bitvector names, in book order. *)
Definition signing_subset (ab : AddressBook) (bitvector : BitVector) : seq GE :=
  pmap (fun es : AddressBookEntry * bool =>
          if es.2 && ~~ is_identity (entry_pk es.1) then Some (entry_pk es.1) else None)
    (zip ab bitvector).

(** [Iterator::position] *)
Definition position {A : Type} (p : pred A) (s : seq A) : option nat :=
  if has p s then Some (find p s) else None.

(** [reject_sentinel_signers] *)
Definition reject_sentinel_signers (ab : AddressBook) (bitvector : BitVector) : result unit :=
  match position (fun es : AddressBookEntry * bool => es.2 && is_identity (entry_pk es.1))
          (zip ab bitvector) with
  | Some seat => Err (invalid_input ("bitvector selects sentinel seat " ++ dec seat)%string)
  | None => Ok tt
  end.

(** The body of the [try_fold] of [subset_weight]. *)
Definition weigh (acc : N * N) (es : AddressBookEntry * bool) : option (N * N) :=
  let: (signing, total) := acc in
  let: (entry, signed) := es in
  let effective := if is_identity (entry_pk entry) then N0 else weight entry in
  match checked_add total effective with
  | None => None
  | Some total =>
      if signed then
        match checked_add signing effective with
        | None => None
        | Some signing => Some (signing, total)
        end
      else Some (signing, total)
  end.

(** [Iterator::try_fold] *)
Fixpoint try_fold {A S : Type} (f : S -> A -> option S) (s : S) (l : seq A) : option S :=
  match l with
  | [::] => Some s
  | a :: l' => match f s a with Some s' => try_fold f s' l' | None => None end
  end.

(** [subset_weight] *)
Definition subset_weight (ab : AddressBook) (bitvector : BitVector) : option (Weight * Weight) :=
  if (MAX_AB_SIZE < size ab)%N then None
  else try_fold weigh (N0, N0) (zip ab bitvector).

End AddressBook.

(** [meets_threshold] *)
Definition meets_threshold (signing total : Weight) : bool :=
  (N.leb signing total) && N.ltb (N.div total 2) signing.

(** ** The mathematical content of a book *)

Definition sumN (l : seq N) : N := foldr N.add N0 l.

Lemma sumN_cat l1 l2 : sumN (l1 ++ l2) = N.add (sumN l1) (sumN l2).
Proof. by elim: l1 => [|x l IH] //=; rewrite IH N.add_assoc. Qed.

Lemma sumN_nseq0 n : sumN (nseq n N0) = N0.
Proof. by elim: n. Qed.

Section Content.
Context {E : CurveEngine}.
Implicit Types (ab : AddressBook) (bv : BitVector).

(** The weight a seat counts for: none when its key is the identity. *)
Definition effective (e : AddressBookEntry) : N :=
  if is_identity (entry_pk e) then N0 else weight e.

(** The seats with an owner, and their keys. *)
Definition live (e : AddressBookEntry) : bool := ~~ is_identity (entry_pk e).
Definition live_keys ab : seq GE := [seq entry_pk e | e <- ab & live e].

Definition total_weight ab : N := sumN [seq effective e | e <- ab].

(** The weight of the seats named by a list of bits. *)
Definition named_weight ab (bits : seq bool) : N :=
  sumN [seq effective es.1 | es <- zip ab bits & es.2].

(** Every owned seat comes with a valid proof of knowledge. *)
Definition attested ab : bool :=
  all (fun e => live e ==> verify_knowledge (entry_pk e) (entry_pok e)) ab.

Record valid_book ab : Prop := {
  book_size : (size ab <= MAX_AB_SIZE)%N;
  book_keys_uniq : uniq (live_keys ab);
  book_attested : attested ab;
  book_weight : (total_weight ab < U64)%num
}.
End Content.

Lemma checked_addE a b :
  checked_add a b = if (a + b <? U64)%num then Some (a + b)%num else None.
Proof. by []. Qed.

Section Facts.
Context {E : CurveEngine} {L : CurveLaws E}.
Implicit Types (ab : AddressBook) (bv : BitVector).

Lemma is_identityE (P : GE) : is_identity P = (P == 0).
Proof. exact: to_coordinates_inf. Qed.

Lemma total_weight_cons e ab : total_weight (e :: ab) = N.add (effective e) (total_weight ab).
Proof. by []. Qed.

Lemma live_keys_cons e ab :
  live_keys (e :: ab) = if live e then entry_pk e :: live_keys ab else live_keys ab.
Proof. by rewrite /live_keys /=; case: live. Qed.

(** What the loop with its two mutable captures decides. *)
Lemma verify_entriesE ab seen total : (total < U64)%num ->
  verify_entries ab seen total =
  [&& uniq (live_keys ab), all [predC seen] (live_keys ab), attested ab &
      (total + total_weight ab <? U64)%num].
Proof.
elim: ab seen total => [|e ab IH] seen total ltt.
  by rewrite /= N.add_0_r; symmetry; apply/N.ltb_lt.
rewrite /= live_keys_cons total_weight_cons /attested /= /effective /live.
case id: (is_identity (entry_pk e)) => /=; first by rewrite IH.
case: (boolP (entry_pk e \in seen)) => [_|nin] /=; first by rewrite andbF.
rewrite checked_addE N.add_assoc; case: N.ltb_spec => [ltw|gew].
  rewrite IH // -/(attested ab); case: verify_knowledge => /=; last by rewrite !andbF.
  rewrite (eq_all (a2 := predI (predC (mem seen)) (predC1 (entry_pk e)))).
    by move=> x; rewrite /= mem_rcons in_cons negb_or andbC.
  rewrite all_predI (_ : all (predC1 (entry_pk e)) _ = (entry_pk e \notin live_keys ab)).
    rewrite -has_pred1 -all_predC; apply: eq_all => x /=; by rewrite eq_sym.
  by case: (_ \notin _); case: (all _ _); case: (uniq _).
suff -> : (total + weight e + total_weight ab <? U64)%num = false by rewrite !andbF.
by apply/N.ltb_ge; lia.
Qed.

Lemma verify_address_bookP ab : reflect (valid_book ab) (verify_address_book ab).
Proof.
rewrite /verify_address_book; case: ltnP => [gt|le].
  by right=> -[]; rewrite leqNgt gt.
rewrite verify_entriesE //; apply: (iffP and4P) => [[u _ a /N.ltb_lt w]|[_ u a w]]; split=> //.
  by apply/allP.
by apply/N.ltb_lt.
Qed.

Lemma named_weight_le ab bits : (named_weight ab bits <= total_weight ab)%num.
Proof.
elim: ab bits => [|e ab IH] [|b bits] //; rewrite /named_weight /= ?total_weight_cons; try lia.
have := IH bits; rewrite /named_weight; case: b => /=; lia.
Qed.

(** The running sums overflow exactly when the total does. *)
Lemma try_fold_weighE ab bits s t : size ab = size bits -> (s <= t)%num -> (t < U64)%num ->
  try_fold weigh (s, t) (zip ab bits) =
  if (t + total_weight ab <? U64)%num
  then Some ((s + named_weight ab bits)%num, (t + total_weight ab)%num) else None.
Proof.
elim: ab bits s t => [|e ab IH] [|b bits] //= s t.
  move=> _ le lt; rewrite !N.add_0_r.
  by have /N.ltb_lt -> := lt.
move=> [sz] le lt; rewrite total_weight_cons -/(effective e) checked_addE.
rewrite /named_weight /=; case: N.ltb_spec => [ltw|gew]; last first.
  by case: N.ltb_spec => // ?; exfalso; lia.
rewrite N.add_assoc; case: b => /=; last by rewrite IH //; lia.
rewrite checked_addE; case: N.ltb_spec => [lts|]; last by lia.
by rewrite IH //; [lia|rewrite N.add_assoc].
Qed.

Lemma zip_book ab (bv : BitVector) : (size ab <= MAX_AB_SIZE)%N ->
  zip ab bv = zip ab (take (size ab) bv) /\ size ab = size (take (size ab) bv).
Proof.
move=> le; have sz : size (take (size ab) bv) = size ab by rewrite size_takel ?size_tuple.
by split=> //; elim: ab (tval bv) {le sz} => [|e ab IH] [|b bits] //=; rewrite IH.
Qed.

Lemma subset_weightE ab bv : (size ab <= MAX_AB_SIZE)%N ->
  subset_weight ab bv =
  if (total_weight ab <? U64)%num then Some (named_weight ab bv, total_weight ab) else None.
Proof.
move=> le; rewrite /subset_weight ltnNge le /= /named_weight; have [-> sz] := zip_book bv le.
by rewrite try_fold_weighE //; lia.
Qed.
End Facts.

(** Integer division makes the test exact: strictly more than half. *)
Lemma meets_thresholdE (signing total : N) : (signing <= total)%num ->
  meets_threshold signing total = (total <? 2 * signing)%num.
Proof.
move=> le; rewrite /meets_threshold; have /N.leb_le -> := le; rewrite andTb.
have lt : (N.modulo total 2 < 2)%num by apply: N.mod_lt.
have eq := N.div_mod' total 2.
case: N.ltb_spec => h; symmetry.
  by apply/N.ltb_lt; lia.
by apply/N.ltb_ge; have := N.le_0_l (N.modulo total 2); lia.
Qed.

Section Quorum.
Context {E : CurveEngine} {L : CurveLaws E}.
Implicit Types (ab : AddressBook) (bv : BitVector).

(** Inclusion-exclusion on two sets of seats. *)
Lemma named_weight_inter ab b1 b2 : size ab = size b1 -> size ab = size b2 ->
  (named_weight ab b1 + named_weight ab b2 <=
   total_weight ab + named_weight ab [seq x.1 && x.2 | x <- zip b1 b2])%num.
Proof.
elim: ab b1 b2 => [|e ab IH] [|x b1] [|y b2] //= [s1] [s2].
have := IH b1 b2 s1 s2; rewrite total_weight_cons /named_weight.
by case: x y => -[] /=; lia.
Qed.

Lemma named_weight_pos ab bits : named_weight ab bits <> N0 ->
  exists2 i, (i < size ab)%N & [/\ nth false bits i,
    live (nth padding_entry ab i) & weight (nth padding_entry ab i) <> N0].
Proof.
elim: ab bits => [|e ab IH] [|b bits] //; rewrite /named_weight.
have tail : sumN [seq effective es.1 | es <- zip ab bits & es.2] <> N0 ->
    exists2 i, (i < (size ab).+1)%N & [/\ nth false (b :: bits) i,
      live (nth padding_entry (e :: ab) i) & weight (nth padding_entry (e :: ab) i) <> N0].
  by move=> /IH [i lt ex]; exists i.+1.
case: b tail => /=; last by [].
case: (N.eq_dec (effective e) N0) => [->|en] tail h; first by apply: tail; lia.
exists 0%N => //; move: en; rewrite /effective /live /=.
by case: is_identity.
Qed.

(** Two strict majorities of one book share an owned seat of positive weight. *)
Lemma majorities_meet ab (b1 b2 : seq bool) : size ab = size b1 -> size ab = size b2 ->
  (total_weight ab < 2 * named_weight ab b1)%num ->
  (total_weight ab < 2 * named_weight ab b2)%num ->
  exists2 i, (i < size ab)%N & [/\ nth false b1 i, nth false b2 i,
    live (nth padding_entry ab i) & weight (nth padding_entry ab i) <> N0].
Proof.
move=> s1 s2 h1 h2; have inter := named_weight_inter s1 s2.
have sz : size b1 = size b2 by rewrite -s1.
have : named_weight ab [seq x.1 && x.2 | x <- zip b1 b2] <> N0 by lia.
move=> /named_weight_pos [i lt [both li wi]]; exists i => //.
move: both; rewrite (nth_map (false, false)) ?size_zip -?sz ?minnn -?s1 //.
by rewrite nth_zip //= => /andP[].
Qed.
End Quorum.

(** ** Padding *)
Section Padding.
Context {E : CurveEngine} {L : CurveLaws E}.
Implicit Types (ab : AddressBook) (bv : BitVector).

Definition padded ab : AddressBook := ab ++ nseq (MAX_AB_SIZE - size ab) padding_entry.

Lemma pad_address_bookE ab : pad_address_book ab =
  if (size ab <= MAX_AB_SIZE)%N then Ok (padded ab)
  else Err (invalid_input ("address book has " ++ dec (size ab) ++ " entries, more than the "
                   ++ dec MAX_AB_SIZE ++ " the circuit can take")%string).
Proof.
rewrite /pad_address_book ltnNge; case: leqP => //= le; congr Ok.
by rewrite /resize take_oversize.
Qed.

Lemma size_padded ab : (size ab <= MAX_AB_SIZE)%N -> size (padded ab) = MAX_AB_SIZE.
Proof. by move=> le; rewrite size_cat size_nseq subnKC. Qed.

Lemma padded_id ab : size ab = MAX_AB_SIZE -> padded ab = ab.
Proof. by move=> sz; rewrite /padded sz subnn cats0. Qed.

Lemma padding_is_identity : is_identity (entry_pk padding_entry).
Proof. by rewrite is_identityE /entry_pk /= /sentinel_pubkey scale0r. Qed.

Lemma live_keys_padded ab : live_keys (padded ab) = live_keys ab.
Proof.
rewrite /live_keys /padded filter_cat map_cat -[RHS]cats0; congr (_ ++ _).
by elim: (_ - _)%N => //= n IH; rewrite {1}/live padding_is_identity.
Qed.

Lemma total_weight_padded ab : total_weight (padded ab) = total_weight ab.
Proof.
rewrite /total_weight /padded map_cat sumN_cat map_nseq /effective padding_is_identity.
by rewrite sumN_nseq0 N.add_0_r.
Qed.

Lemma attested_padded ab : attested (padded ab) = attested ab.
Proof.
rewrite /attested /padded all_cat all_nseq /live padding_is_identity.
by rewrite implyFb orbT andbT.
Qed.

(** Validation sees the owned seats only. *)
Lemma verify_padded ab : (size ab <= MAX_AB_SIZE)%N ->
  verify_address_book (padded ab) = verify_address_book ab.
Proof.
move=> le; apply/verify_address_bookP/verify_address_bookP => -[_ u a w].
  by split; rewrite ?live_keys_padded ?attested_padded ?total_weight_padded // in u a w *.
by split; rewrite ?size_padded ?live_keys_padded ?attested_padded ?total_weight_padded.
Qed.

Lemma zip_padded ab bv : (size ab <= MAX_AB_SIZE)%N ->
  zip (padded ab) bv = zip ab (take (size ab) bv) ++
    [seq (padding_entry, b) | b <- drop (size ab) bv].
Proof.
move=> le; have sz : size (take (size ab) bv) = size ab by rewrite size_takel ?size_tuple.
rewrite -[in LHS](cat_take_drop (size ab) bv) /padded zip_cat //; congr (_ ++ _).
have : size (drop (size ab) bv) = (MAX_AB_SIZE - size ab)%N by rewrite size_drop size_tuple.
by elim: (drop _ _) (_ - _)%N => [|b bits IH] [|n] //= [/IH ->].
Qed.

Lemma signing_subset_padded ab bv : (size ab <= MAX_AB_SIZE)%N ->
  signing_subset (padded ab) bv = signing_subset ab bv.
Proof.
move=> le; rewrite /signing_subset zip_padded // pmap_cat (proj1 (zip_book bv le)).
rewrite [X in _ ++ X](_ : _ = [::]) ?cats0 //.
by elim: (drop _ _) => //= b bits ->; rewrite padding_is_identity andbF.
Qed.

Lemma named_weight_padded ab bv : (size ab <= MAX_AB_SIZE)%N ->
  named_weight (padded ab) bv = named_weight ab bv.
Proof.
move=> le; rewrite /named_weight zip_padded // (proj1 (zip_book bv le)).
rewrite filter_cat map_cat sumN_cat -[RHS]N.add_0_r; congr (_ + _)%num.
elim: (drop _ _) => //= b bits IH; case: b => //=.
by rewrite IH /effective padding_is_identity.
Qed.

Lemma subset_weight_padded ab bv : (size ab <= MAX_AB_SIZE)%N ->
  subset_weight (padded ab) bv = subset_weight ab bv.
Proof.
move=> le; rewrite !subset_weightE ?size_padded //.
by rewrite total_weight_padded named_weight_padded.
Qed.
End Padding.
