(* ===== verification/Signing.v ===== *)
(** * [wraps.rs], the signing protocol and signature verification

    [struct WRAPS]: key generation, the four phases of [signing_protocol],
    [verify_signature] and the hashes a committee signs. *)
From Stdlib Require Import Strings.Byte Strings.String NArith.
From S2P Require Import Prelude SeqFacts WrapsErrors WrapsEngine WrapsUtils Schnorr Multisig.
From S2P Require Import AddressBook.
From mathcomp Require Import ssreflect ssrfun ssrbool eqtype ssrnat seq.
From mathcomp Require Import fintype tuple bigop ssralg.
Import GRing.Theory.
Set Warnings "-rewrite-rw".
Set Implicit Arguments.
Unset Strict Implicit.
Unset Printing Implicit Defensive.
Local Open Scope ring_scope.

Inductive SigningProtocolPhase : Type := R1 | R2 | R3 | Aggregate.

Definition is_R1 (p : SigningProtocolPhase) : bool := if p is R1 then true else false.

(** [{phase:?}] *)
Definition phase_debug (p : SigningProtocolPhase) : string :=
  match p with R1 => "R1" | R2 => "R2" | R3 => "R3" | Aggregate => "Aggregate" end%string.

(** [validate_signing_phase] *)
Definition validate_signing_phase (phase : SigningProtocolPhase) (num_signers : nat)
    (has_entropy has_signing_key : bool) (round_counts : nat * nat * nat) : result unit :=
  let n := num_signers in
  let: (needs_entropy, needs_signing_key, expected_counts) :=
    match phase with
    | R1 => (true, false, (0, 0, 0)%N)
    | R2 => (true, false, (n, 0, 0)%N)
    | R3 => (true, true, (n, n, 0)%N)
    | Aggregate => (false, false, (n, n, n))
    end in
  fail_if needs_entropy && ~~ has_entropy with
    invalid_input (phase_debug phase ++ " requires session entropy")%string;;
  fail_if needs_signing_key && ~~ has_signing_key with
    invalid_input "R3 requires the caller's signing key";;
  fail_if round_counts != expected_counts with
    invalid_input (phase_debug phase ++ " requires round-message counts [" ++
      dec expected_counts.1.1 ++ ", " ++ dec expected_counts.1.2 ++ ", " ++
      dec expected_counts.2 ++ "] in signing-subset order")%string;;
  Ok tt.

(** [opt.expect(..)] *)
Definition expect {Error A : Type} (o : option A) : outcome Error A :=
  match o with Some a => Ok a | None => Panic end.

Section Types.
Context {E : CurveEngine}.

(** [RotationMessage<E>]: the next book's hash and the next hints key's hash. *)
Definition RotationMessage : Type := Base * Base.
Definition message_elements (m : RotationMessage) : seq Base := [:: m.1; m.2].

Definition SchnorrMultiSignature : Type := BitVector * Signature.

Inductive SigningProtocolObject : Type :=
| ProtocolMessage (m : bytes)
| ProtocolOutput (s : SchnorrMultiSignature).
End Types.

(** The two bincode codecs the protocol uses. *)
Class SigningCodecs (E : CurveEngine) := {
  rotation_codec :: Bincode (@RotationMessage E);
  round_codec :: Bincode (@RoundMessage E)
}.

Class SigningCodecLaws (E : CurveEngine) (C : SigningCodecs E) : Prop := {
  rotation_codec_laws :: BincodeLaws (@rotation_codec E C);
  round_codec_laws :: BincodeLaws (@round_codec E C)
}.

Section Signing.
Context {E : CurveEngine} {C : SigningCodecs E}.

(** [decode_rotation_message] *)
Definition decode_rotation_message (bs : bytes) : result RotationMessage :=
  map_err (fun e => invalid_input ("invalid rotation message: " ++ display e)%string)
    (decode bs).

(** [decode_round_messages]: [payload] selects the expected round. *)
Definition decode_round_messages {T : Type} (messages : seq bytes) (round : string)
    (payload : RoundMessage -> option T) : result (seq T) :=
  mapM (fun ib : nat * bytes =>
      let: (i, bs) := ib in
      let* message :=
        map_err (fun e => invalid_input ("invalid " ++ round ++ " message from signer "
                                        ++ dec i ++ ": " ++ display e)%string)
          (decode bs) in
      ok_or (invalid_input (round ++ " message from signer " ++ dec i ++
                            " has the wrong round tag")%string)
        (payload message))
    (zip (iota 0 (size messages)) messages).

Definition round1_payload (m : RoundMessage) : option MultisigRound1 :=
  if m is Round1 p then Some p else None.
Definition round2_payload (m : RoundMessage) : option MultisigRound2 :=
  if m is Round2 p then Some p else None.
Definition round3_payload (m : RoundMessage) : option MultisigRound3 :=
  if m is Round3 p then Some p else None.

(** [encode_protocol_message] *)
Definition encode_protocol_message (m : RoundMessage) : result SigningProtocolObject :=
  let* bs := encode m in Ok (ProtocolMessage bs).

(** [WRAPS::keygen] *)
Definition wraps_keygen (seed : bytes) : Scalar * SchnorrAttestedPubKey :=
  let: (key_seed, pok_seed) := expand_seed seed in
  let kp := keygen (from_seed key_seed) in
  let pok := prove_knowledge kp (from_seed pok_seed) in
  (kp_sk kp, (kp_pk kp, pok)).

(** [WRAPS::sentinel_keygen] *)
Definition sentinel_keygen : SchnorrAttestedPubKey := sentinel_attested_pubkey.

(** [WRAPS::signing_protocol] *)
Definition signing_protocol (phase : SigningProtocolPhase)
    (protocol_instance_entropy : option bytes) (message_to_sign : bytes)
    (signing_key : option Scalar) (address_book : AddressBook) (bitvector : seq bool)
    (round1_messages round2_messages round3_messages : seq bytes) :
    result SigningProtocolObject :=
  fail_if ~~ verify_address_book address_book with invalid_input "invalid signing address book";;
  let* bitvector := pad_bitvector bitvector in
  let* rest := slice_from bitvector (size address_book) in
  fail_if has id rest with invalid_input "bitvector selects a seat outside the address book";;
  let* _ := reject_sentinel_signers address_book bitvector in
  let participants := signing_subset address_book bitvector in
  fail_if ~~ is_R1 phase && nilp participants with
    invalid_input "a signing set must have at least one member";;
  let* _ := validate_signing_phase phase (size participants)
    (isSome protocol_instance_entropy) (isSome signing_key)
    (size round1_messages, size round2_messages, size round3_messages) in
  let* rotation := decode_rotation_message message_to_sign in
  let message := message_elements rotation in
  let* r1 := decode_round_messages round1_messages "round-1" round1_payload in
  let* r2 := decode_round_messages round2_messages "round-2" round2_payload in
  let* r3 := decode_round_messages round3_messages "round-3" round3_payload in
  match phase with
  | R1 =>
      let* seed := expect protocol_instance_entropy in
      encode_protocol_message (Round1 (round1 seed message))
  | R2 =>
      let* seed := expect protocol_instance_entropy in
      fail_if ~~ has (round1_eqb (round1 seed message)) r1 with
        invalid_input "R2 is missing the caller's round-1 commitment";;
      encode_protocol_message (Round2 (round2 seed message))
  | R3 =>
      let* seed := expect protocol_instance_entropy in
      let* sk := expect signing_key in
      let* share := round3 shared_constants seed message sk participants r1 r2 in
      encode_protocol_message (Round3 share)
  | Aggregate =>
      let* signature := aggregate shared_constants message participants r1 r2 r3 in
      Ok (ProtocolOutput (bitvector, signature))
  end.

(** [WRAPS::verify_signature] *)
Definition verify_signature (address_book : AddressBook) (message : bytes)
    (multisignature : SchnorrMultiSignature) : result bool :=
  let* rotation := decode_rotation_message message in
  let message := message_elements rotation in
  let: (bitvector, signature) := multisignature in
  check (verify_address_book address_book);;
  let* rest := slice_from bitvector (size address_book) in
  check (~~ has id rest);;
  let* _ := reject_sentinel_signers address_book bitvector in
  let* address_book := pad_address_book address_book in
  match subset_weight address_book bitvector with
  | None => Ok false
  | Some (signing_weight, total_weight) =>
      check (meets_threshold signing_weight total_weight);;
      let participants := signing_subset address_book bitvector in
      check (~~ nilp participants);;
      let* joint := aggregate_key participants in
      check (~~ (to_coordinates joint).2);;
      verify shared_constants joint message signature
  end.

(** [WRAPS::compute_addressbook_hash] *)
Definition compute_addressbook_hash (ab : AddressBook) : result Base :=
  fail_if ~~ verify_address_book ab with
    invalid_input "address book is too large, has duplicate nonidentity keys or an invalid key proof, or its total effective weight exceeds u64::MAX";;
  let* padded := pad_address_book ab in
  hash_address_book shared_constants padded.

(** [WRAPS::compute_hints_vk_hash] *)
Definition compute_hints_vk_hash (hints_vk : bytes) : Base := hash_hints_vk hints_vk.

(** [WRAPS::compute_rotation_message] *)
Definition compute_rotation_message (ab_next : AddressBook) (hints_vk : bytes) :
    result bytes :=
  let* h := compute_addressbook_hash ab_next in
  encode ((h, compute_hints_vk_hash hints_vk) : RotationMessage).

End Signing.
