(* ===== verification/SigningFacts.v ===== *)
(** * Lemmas on the signing protocol: its guards, its codecs and its verdicts *)
From Stdlib Require Import Strings.Byte Strings.String NArith Lia.
From S2P Require Import Prelude SeqFacts WrapsErrors WrapsEngine WrapsUtils Schnorr Multisig.
From S2P Require Import AddressBook Signing.
From mathcomp Require Import ssreflect ssrfun ssrbool eqtype ssrnat seq.
From mathcomp Require Import fintype tuple bigop ssralg.
Import GRing.Theory.
Set Warnings "-rewrite-rw".
Set Implicit Arguments.
Unset Strict Implicit.
Unset Printing Implicit Defensive.
Local Open Scope ring_scope.

Lemma nth_true_lt (s : seq bool) i : nth false s i -> (i < size s)%N.
Proof. by case: ltnP => // ge; rewrite nth_default. Qed.

Section Guards.
Context {E : CurveEngine} {L : CurveLaws E}.
Implicit Types (ab : AddressBook) (bv : BitVector).

(** The guards that [signing_protocol] and [verify_signature] share: a valid book,
    no bit beyond the book, no bit on an ownerless seat. *)
Definition seat_guard (es : AddressBookEntry * bool) : bool :=
  es.2 ==> live es.1.

Record selection ab bv : Prop := {
  sel_book : verify_address_book ab;
  sel_inside : ~~ has id (drop (size ab) bv);
  sel_owned : all seat_guard (zip ab bv)
}.

Lemma reject_sentinelP ab bv :
  reject_sentinel_signers ab bv = Ok tt <-> all seat_guard (zip ab bv).
Proof.
rewrite /reject_sentinel_signers /position.
have -> : has (fun es : AddressBookEntry * bool => es.2 && is_identity (entry_pk es.1))
            (zip ab bv) = ~~ all seat_guard (zip ab bv).
  rewrite -has_predC; apply: eq_has => -[e b] /=.
  by rewrite /seat_guard /live /= negb_imply negbK.
by case: all.
Qed.

(** With no bit beyond the book, the guard speaks of every set bit. *)
Lemma owned_seats ab bv : (size ab <= MAX_AB_SIZE)%N -> ~~ has id (drop (size ab) bv) ->
  all seat_guard (zip ab bv) <-> forall i, nth false bv i -> live (nth padding_entry ab i).
Proof.
move=> le ins; have szz : size (zip ab bv) = size ab.
  by rewrite size_zip size_tuple; apply/minn_idPl.
split=> [/(all_nthP (padding_entry, false)) H i bi|H].
  have lt : (i < size ab)%N.
    rewrite ltnNge; apply/negP => ge; case/negP: ins; apply/hasP; exists true => //.
    rewrite -bi -[i](subnKC ge) -nth_drop mem_nth // size_drop ltn_sub2r //.
      exact: leq_ltn_trans ge (nth_true_lt bi).
    exact: nth_true_lt bi.
  have := H i; rewrite szz nth_zip_cond szz lt /seat_guard /= bi; exact.
apply/(all_nthP (padding_entry, false)) => i; rewrite szz => lt.
by rewrite nth_zip_cond szz lt /seat_guard /=; apply/implyP/H.
Qed.

Lemma reject_sentinel_no_panic ab bv : never_panics (reject_sentinel_signers ab bv).
Proof. by rewrite /reject_sentinel_signers; case: position. Qed.

(** The first selected ownerless seat is the same in the padded book. *)
Lemma reject_padded ab bv : (size ab <= MAX_AB_SIZE)%N -> ~~ has id (drop (size ab) bv) ->
  reject_sentinel_signers (padded ab) bv = reject_sentinel_signers ab bv.
Proof.
move=> le ins; rewrite /reject_sentinel_signers /position zip_padded // (proj1 (zip_book bv le)).
set p := (fun _ => _); set s := zip _ _; rewrite has_cat find_cat.
have -> : has p [seq (padding_entry, b) | b <- drop (size ab) bv] = false.
  apply/negbTE; move: ins; rewrite -!all_predC all_map; apply: sub_all => b /=.
  by case: b.
by rewrite orbF; case: has.
Qed.

Lemma sel_size ab bv : selection ab bv -> (size ab <= MAX_AB_SIZE)%N.
Proof. by case=> /verify_address_bookP []. Qed.

(** The selected keys are a subsequence of the owned ones. *)
Lemma signing_subset_sub ab bv : subseq (signing_subset ab bv) (live_keys ab).
Proof.
rewrite /signing_subset /live_keys; elim: ab (tval bv) => [|e ab IH] [|b bits] //=.
  by rewrite sub0seq.
rewrite {1}/live; case: (is_identity _) => /=; first by rewrite andbF; apply: IH.
rewrite andbT; case: b => /=; first by rewrite eqxx.
by apply: subseq_trans (IH bits) (subseq_cons _ _).
Qed.

Lemma signing_subset_uniq ab bv : verify_address_book ab -> uniq (signing_subset ab bv).
Proof.
by move=> /verify_address_bookP [_ u _ _]; apply: subseq_uniq (signing_subset_sub _ _) u.
Qed.

(** A selection with positive weight names a key. *)
Lemma signing_subset_nil ab bv : signing_subset ab bv = [::] -> named_weight ab bv = N0.
Proof.
rewrite /signing_subset /named_weight; elim: ab (tval bv) => [|e ab IH] [|b bits] //=.
case: b => /=; last exact: IH.
by rewrite /effective; case: is_identity => //=; apply: IH.
Qed.

Lemma majority_nonempty ab bv : (total_weight ab < 2 * named_weight ab bv)%num ->
  signing_subset ab bv != [::].
Proof. by move=> lt; apply/eqP => /signing_subset_nil; lia. Qed.
End Guards.

Section Codecs.
Context {E : CurveEngine} {C : SigningCodecs E} {CL : SigningCodecLaws C}.

Lemma decode_rotation_messageE bs r :
  decode_rotation_message bs = Ok r <-> decode bs = Ok r.
Proof. by rewrite /decode_rotation_message; case: decode => [x|x|] //=; split=> // -[]. Qed.

Lemma decode_rotation_no_panic bs : never_panics (decode_rotation_message bs).
Proof.
exact/map_err_no_panic/decode_no_panic.
Qed.

Lemma decode_round_no_panic T msgs name (payload : RoundMessage -> option T) :
  never_panics (decode_round_messages msgs name payload).
Proof.
apply: mapM_no_panic => -[i bs]; apply: bind_no_panic => [|m _]; last exact: ok_or_no_panic.
exact/map_err_no_panic/decode_no_panic.
Qed.

(** The bytes of a round decode back to its payloads, in order. *)
Lemma decode_rounds T (wrap : T -> RoundMessage) name payload (xs : seq T) bss :
  (forall x, payload (wrap x) = Some x) ->
  mapM (fun x => encode (wrap x)) xs = Ok bss ->
  decode_round_messages bss name payload = Ok xs.
Proof.
move=> pw; rewrite /decode_round_messages; move: 0%N => k.
elim: xs bss k => [|x xs IH] bss k /=; first by case=> <-.
have [b eE dE] := encode_ok (wrap x); rewrite eE /=.
case mE: (mapM _ _) => [bs| |] //= [<-] /=; rewrite dE /= pw /=.
by rewrite (IH _ _ mE).
Qed.

Lemma encode_rounds T (wrap : T -> RoundMessage) (xs : seq T) :
  exists2 bss, mapM (fun x => encode (wrap x)) xs = Ok bss & size bss = size xs.
Proof.
elim: xs => [|x xs [bss mE sz]] /=; first by exists [::].
by have [b -> _] := encode_ok (wrap x); rewrite mE /=; exists (b :: bss) => //=; rewrite sz.
Qed.

(** What successfully decoded round messages are. *)
Lemma decode_rounds_inv T msgs name payload (xs : seq T) :
  decode_round_messages msgs name payload = Ok xs ->
  size xs = size msgs /\
  all (fun b => if decode b is Ok m then isSome (payload m) else false) msgs.
Proof.
rewrite /decode_round_messages; move: 0%N => k; elim: msgs xs k => [|b msgs IH] xs k /=.
  by case=> <-.
case dE: (decode b) => [m| |] //=; case pE: (payload m) => [x|] //=.
by case mE: (mapM _ _) => [ys| |] //= [<-] /=; have [-> ->] := IH _ _ mE.
Qed.
End Codecs.

(** ** The phases *)

(** The prior-round message counts a phase expects from [n] signers. *)
Definition expected_counts (phase : SigningProtocolPhase) (n : nat) : nat * nat * nat :=
  match phase with
  | R1 => (0, 0, 0)%N
  | R2 => (n, 0, 0)%N
  | R3 => (n, n, 0)%N
  | Aggregate => (n, n, n)
  end.

Definition needs_entropy (phase : SigningProtocolPhase) : bool :=
  if phase is Aggregate then false else true.

Definition needs_key (phase : SigningProtocolPhase) : bool :=
  if phase is R3 then true else false.

Lemma validate_signing_phaseP phase n he hk counts :
  validate_signing_phase phase n he hk counts = Ok tt <->
  [/\ needs_entropy phase ==> he, needs_key phase ==> hk & counts = expected_counts phase n].
Proof.
rewrite /validate_signing_phase; case: phase; case: he; case: hk => /=;
  try case: eqP => [->|ne]; split=> // H; case: H; done.
Qed.

Lemma validate_no_panic phase n he hk counts :
  never_panics (validate_signing_phase phase n he hk counts).
Proof.
rewrite /validate_signing_phase; case: phase; case: he; case: hk => //=; by case: eqP.
Qed.

Section Protocol.
Context {E : CurveEngine} {L : CurveLaws E} {C : SigningCodecs E} {CL : SigningCodecLaws C}.
Implicit Types (ab : AddressBook) (bv : BitVector).

(** The work of a phase, after its guards. *)
Definition phase_result phase ent sk participants bv message r1 r2 r3 :
    result SigningProtocolObject :=
  match phase with
  | R1 =>
      let* seed := expect ent in
      encode_protocol_message (Round1 (round1 seed message))
  | R2 =>
      let* seed := expect ent in
      fail_if ~~ has (round1_eqb (round1 seed message)) r1 with
        invalid_input "R2 is missing the caller's round-1 commitment";;
      encode_protocol_message (Round2 (round2 seed message))
  | R3 =>
      let* seed := expect ent in
      let* sk := expect sk in
      let* share := round3 shared_constants seed message sk participants r1 r2 in
      encode_protocol_message (Round3 share)
  | Aggregate =>
      let* signature := aggregate shared_constants message participants r1 r2 r3 in
      Ok (ProtocolOutput (bv, signature))
  end.

(** The guards of [signing_protocol] all passed. *)
Record admitted phase ent msg sk ab bits m1 m2 m3 bv (rotation : RotationMessage) r1
    r2 r3 : Prop := {
  adm_bits : pad_bitvector bits = Ok bv;
  adm_sel : selection ab bv;
  adm_signers : ~~ is_R1 phase -> signing_subset ab bv <> [::];
  adm_entropy : needs_entropy phase ==> isSome (ent : option bytes);
  adm_key : needs_key phase ==> isSome (sk : option Scalar);
  adm_counts : (size m1, size m2, size m3) = expected_counts phase (size (signing_subset ab bv));
  adm_msg : decode msg = Ok rotation;
  adm_r1 : decode_round_messages m1 "round-1" round1_payload = Ok r1;
  adm_r2 : decode_round_messages m2 "round-2" round2_payload = Ok r2;
  adm_r3 : decode_round_messages m3 "round-3" round3_payload = Ok r3
}.

Lemma signing_protocolE phase ent msg sk ab bits m1 m2 m3 bv rotation r1 r2 r3 :
  admitted phase ent msg sk ab bits m1 m2 m3 bv rotation r1 r2 r3 ->
  signing_protocol phase ent msg sk ab bits m1 m2 m3 =
  phase_result phase ent sk (signing_subset ab bv) bv (message_elements rotation) r1 r2 r3.
Proof.
case=> bE sel ne ent_ok key_ok cnt /decode_rotation_messageE mE d1 d2 d3.
case: (sel) => vb ins /reject_sentinelP own.
rewrite /signing_protocol vb /= bE /= slice_from_ok ?size_tuple ?(sel_size sel) //=.
rewrite (negbTE ins) own /=; case: ifP => [/andP[nR1 /nilP nil]|_]; first by case: (ne nR1).
have /validate_signing_phaseP -> : [/\ needs_entropy phase ==> isSome ent,
    needs_key phase ==> isSome sk & (size m1, size m2, size m3) =
    expected_counts phase (size (signing_subset ab bv))] by [].
by rewrite /= mE /= d1 /= d2 /= d3.
Qed.

Lemma signing_protocol_inv phase ent msg sk ab bits m1 m2 m3 o :
  signing_protocol phase ent msg sk ab bits m1 m2 m3 = Ok o ->
  exists bv rotation r1 r2 r3,
    admitted phase ent msg sk ab bits m1 m2 m3 bv rotation r1 r2 r3 /\
    phase_result phase ent sk (signing_subset ab bv) bv (message_elements rotation) r1 r2 r3 =
    Ok o.
Proof.
rewrite /signing_protocol => H; inv_ok H.
destruct v1, v2; exists v, v3, v4, v5, v6; split=> //.
have vb : verify_address_book ab by move/negbFE: C0.
have le : (size ab <= size v)%N by rewrite size_tuple; case/verify_address_bookP: vb.
move: E1; rewrite slice_from_ok // => -[restE]; rewrite -restE in C1.
case/validate_signing_phaseP: E3 => ent_ok key_ok cnt; split=> //.
- by split=> //; [rewrite C1|apply/reject_sentinelP].
- by move=> nR1 nil; rewrite nR1 nil in C2.
- exact/decode_rotation_messageE.
Qed.

Lemma phase_result_no_panic phase ent sk pks bv message r1 r2 r3 :
  needs_entropy phase ==> isSome (ent : option bytes) ->
  needs_key phase ==> isSome (sk : option Scalar) ->
  never_panics (phase_result phase ent sk pks bv message r1 r2 r3).
Proof.
have enc m : never_panics (encode_protocol_message m).
  by apply: bind_no_panic => //; apply: encode_no_panic.
case: phase; case: ent => [seed|] //=; case: sk => [sk|] //= _ _;
  rewrite /phase_result /=; try exact: enc.
- by case: ifP => // _; apply: enc.
- by case: ifP => // _; apply: enc.
- by apply: bind_no_panic; [apply: round3_no_panic|move=> m _].
all: by apply: bind_no_panic; [apply: aggregate_no_panic|].
Qed.

Lemma signing_protocol_no_panic phase ent msg sk ab bits m1 m2 m3 :
  never_panics (signing_protocol phase ent msg sk ab bits m1 m2 m3).
Proof.
rewrite /signing_protocol; case vb: verify_address_book => //=.
apply: bind_no_panic => [|bv bE]; first by rewrite /pad_bitvector; case: ltnP.
rewrite slice_from_ok; first by rewrite size_tuple; case/verify_address_bookP: vb.
rewrite /=; case: has => //; apply: bind_no_panic => [|_ _]; first exact: reject_sentinel_no_panic.
case: (_ && _) => //; apply: bind_no_panic => [|[] vE]; first exact: validate_no_panic.
have [eo ko _] := (proj1 (validate_signing_phaseP _ _ _ _ _) vE).
apply: bind_no_panic => [|rot _]; first exact: decode_rotation_no_panic.
do 3 (apply: bind_no_panic => [|? _]; first exact: decode_round_no_panic).
exact: phase_result_no_panic.
Qed.
End Protocol.

(** ** Verdicts of [verify_signature] *)
Section Verdict.
Context {E : CurveEngine} {L : CurveLaws E} {C : SigningCodecs E} {CL : SigningCodecLaws C}.
Implicit Types (ab : AddressBook) (bv : BitVector).

Definition joint ab bv : GE := joint_key (signing_subset ab bv).

(** The Schnorr equation of the joint key. *)
Definition schnorr_ok (pk : GE) (rotation : RotationMessage) (sig : Signature) : bool :=
  challenge_of pk (sig_s sig *: gen - field_switch (sig_e sig) *: pk)
    (message_elements rotation) == sig_e sig.

(** What a signature must satisfy beyond the guards. *)
Definition entitled ab bv (rotation : RotationMessage) (sig : Signature) : bool :=
  [&& (total_weight ab <? 2 * named_weight ab bv)%num, joint ab bv != 0 &
      schnorr_ok (joint ab bv) rotation sig].

Lemma verify_signatureE ab msg bv sig :
  verify_signature ab msg (bv, sig) =
  let* rotation := decode_rotation_message msg in
  if ~~ verify_address_book ab then Ok false
  else if has id (drop (size ab) bv) then Ok false
  else let* _ := reject_sentinel_signers ab bv in Ok (entitled ab bv rotation sig).
Proof.
rewrite /verify_signature; case: decode_rotation_message => [rot| |] //=.
case vb: verify_address_book => //=; have /verify_address_bookP [le _ _ wt] := vb.
rewrite slice_from_ok ?size_tuple //=; case: has => //=.
case: reject_sentinel_signers => [[]| |] //=; rewrite pad_address_bookE le /=.
rewrite subset_weight_padded // signing_subset_padded // subset_weightE //.
have /N.ltb_lt -> := wt; rewrite meets_thresholdE; first exact: named_weight_le.
rewrite /entitled; case: N.ltb_spec => //= maj; have ne := majority_nonempty maj.
rewrite /nilp size_eq0 (negbTE ne) /= aggregate_keyE //= to_coordinates_inf -/(joint ab bv).
by case: eqP => //= _; rewrite verifyE.
Qed.

Lemma verify_signature_true ab msg bv sig :
  verify_signature ab msg (bv, sig) = Ok true <->
  exists2 rotation, decode msg = Ok rotation & selection ab bv /\ entitled ab bv rotation sig.
Proof.
rewrite verify_signatureE; split=> [H|[rot /decode_rotation_messageE -> [[vb ins own] ok]]].
  inv_ok H; exists v; first exact/decode_rotation_messageE.
  destruct v0; case: H => ok; split=> //; split; [exact/negbFE|by rewrite C1|].
  exact/reject_sentinelP.
rewrite /= vb (negbTE ins) /=; move/reject_sentinelP: own => -> /=.
by rewrite ok.
Qed.

Lemma verify_signature_no_panic ab msg ms : never_panics (verify_signature ab msg ms).
Proof.
case: ms => bv sig; rewrite verify_signatureE.
apply: bind_no_panic => [|rot _]; first exact: decode_rotation_no_panic.
case: ifP => // _; case: ifP => // _; apply: bind_no_panic => // .
exact: reject_sentinel_no_panic.
Qed.

Lemma compute_addressbook_hashE ab : compute_addressbook_hash ab =
  if verify_address_book ab
  then Ok (poseidon_native shared_constants DS_ADDRESS_BOOK (book_elements (padded ab)))
  else Err (invalid_input "address book is too large, has duplicate nonidentity keys or an invalid key proof, or its total effective weight exceeds u64::MAX").
Proof.
rewrite /compute_addressbook_hash; case vb: verify_address_book => //=.
have /verify_address_bookP [le _ _ _] := vb.
by rewrite pad_address_bookE le /= /hash_address_book size_padded // eqxx.
Qed.

Lemma compute_rotation_no_panic ab vk : never_panics (compute_rotation_message ab vk).
Proof.
rewrite /compute_rotation_message compute_addressbook_hashE; case: verify_address_book => //=.
exact: encode_no_panic.
Qed.

(** The multisignature an Aggregate call returns passes every check but the
    weight, whatever the messages it was given. *)
Lemma output_verdict ent msg sk ab bits m1 m2 m3 bv sig :
  signing_protocol Aggregate ent msg sk ab bits m1 m2 m3 = Ok (ProtocolOutput (bv, sig)) ->
  verify_signature ab msg (bv, sig) = Ok (total_weight ab <? 2 * named_weight ab bv)%num.
Proof.
case/signing_protocol_inv => bv' [rot] [r1] [r2] [r3] [[bE sel ne _ _ _ dE _ _ _]] /=.
case aE: aggregate => [sig'| |] //= [bvE sigE]; subst bv' sig'.
have [_ j0 ver] := aggregate_verified aE; move: ver; rewrite verifyE => -[ok].
case: sel => vb ins /reject_sentinelP own.
rewrite verify_signatureE (proj2 (decode_rotation_messageE _ _) dE) /= vb (negbTE ins) own /=.
by rewrite /entitled /joint j0 /schnorr_ok ok !andbT.
Qed.
End Verdict.
