(* ===== verification/WrapsToy.v ===== *)
(** * Concrete codecs and a concrete committee for the toy curve

    Three seats keyed by [wraps_keygen] and one ownerless seat, with the first and
    the third seat signing.  Every definition of the signing protocol evaluates on
    this instance. *)
From Stdlib Require Import Strings.Byte Strings.String NArith.
From S2P Require Import Prelude SeqFacts WrapsErrors WrapsEngine WrapsUtils Schnorr Multisig.
From S2P Require Import AddressBook Signing.
From mathcomp Require Import ssreflect ssrfun ssrbool eqtype ssrnat seq div.
From mathcomp Require Import fintype tuple bigop ssralg zmodp.
Import GRing.Theory.
Set Warnings "-rewrite-rw".
Set Implicit Arguments.
Unset Strict Implicit.
Unset Printing Implicit Defensive.
Local Open Scope ring_scope.

Definition base_byte (x : toyB) : byte := toy_byte (val x).
Definition scalar_byte (x : toyS) : byte := toy_byte (val x).
Definition byte_base (b : byte) : toyB := (Byte.to_nat b)%:R.
Definition byte_scalar (b : byte) : toyS := (Byte.to_nat b)%:R.

Lemma base_byteK : cancel base_byte byte_base.
Proof.
move=> x; rewrite /byte_base /base_byte toy_byteK ?natr_Zp //.
exact: ltn_trans (toy_val_lt x) _.
Qed.

Lemma scalar_byteK : cancel scalar_byte byte_scalar.
Proof.
move=> x; rewrite /byte_scalar /scalar_byte toy_byteK ?natr_Zp //.
exact: ltn_trans (toyS_lt x) _.
Qed.

#[export] Instance toy_rotation_codec : Bincode (@RotationMessage toy_curve) := {|
  encode_to_vec := fun m : toyB * toyB => inr [:: base_byte m.1; base_byte m.2];
  decode_from_slice := fun b =>
    if b is x :: y :: _ then inr ((byte_base x, byte_base y), 2) else inl "unexpected end"%string
|}.

Definition toy_encode_round (m : @RoundMessage toy_curve) : bytes :=
  match m with
  | Round1 p => x00 :: nonce_commitment p
  | Round2 p => [:: x01; scalar_byte (nonce_point p)]
  | Round3 p => [:: x02; base_byte (sig_e (partial_signature p));
                    scalar_byte (sig_s (partial_signature p))]
  end.

Definition toy_decode_round (b : bytes) : string + (@RoundMessage toy_curve * nat) :=
  match b with
  | x00 :: c => inr (Round1 (MkRound1 c), size b)
  | x01 :: p :: _ => inr (Round2 (@MkRound2 toy_curve (byte_scalar p)), 2)
  | x02 :: e :: s :: _ =>
      inr (Round3 (MkRound3 (@MkSignature toy_curve (byte_base e) (byte_scalar s))), 3)
  | _ => inl "unexpected end"%string
  end.

#[export] Instance toy_codecs : SigningCodecs toy_curve := {|
  rotation_codec := toy_rotation_codec;
  round_codec := {| encode_to_vec := fun m => inr (toy_encode_round m);
                    decode_from_slice := toy_decode_round |}
|}.

#[export] Instance toy_codec_laws : SigningCodecLaws toy_codecs.
Proof.
split; split=> m; eexists; try by [].
  by case: m => x y /=; rewrite !base_byteK.
case: m => -[m] //=; first by rewrite scalar_byteK.
by case: m => e s /=; rewrite base_byteK scalar_byteK.
Qed.

(** The committee. *)
Definition toy_seed (i : nat) : bytes := [:: toy_byte i; x05].
Definition toy_key (i : nat) := @wraps_keygen toy_curve (toy_seed i).

Definition toy_ab : @AddressBook toy_curve :=
  [:: (1, (toy_key 1).2, 5%num); (2%:R, (toy_key 2).2, 4%num);
      (3%:R, @sentinel_keygen toy_curve, 9%num); (4%:R, (toy_key 3).2, 3%num)].

Definition toy_selected : seq bool := [:: true; false; false; true].
Definition toy_entropies : seq bytes := [:: [:: x07]; [:: x09]].
Definition toy_sks : seq toyS := [:: (toy_key 1).1; (toy_key 3).1].
Definition toy_hints_vk : bytes := [:: x0a; x0b].

(** The rotation of the committee onto itself, its signers' bitvector and the
    multisignature an evaluation of the protocol returns. *)
Definition toy_rotation_bytes : bytes := Eval vm_compute in
  (if compute_rotation_message toy_ab toy_hints_vk is Ok m then m else [::]).

Definition toy_rotation : @RotationMessage toy_curve :=
  (byte_base (nth x00 toy_rotation_bytes 0), byte_base (nth x00 toy_rotation_bytes 1)).

Definition toy_bv : BitVector := [tuple of [seq nth false toy_selected i | i <- iota 0 MAX_AB_SIZE]].

Definition toy_message_of (r : result (@SigningProtocolObject toy_curve)) : bytes :=
  if r is Ok (ProtocolMessage m) then m else [::].

Definition toy_m1 : seq bytes := Eval vm_compute in
  [seq toy_message_of (signing_protocol R1 (Some s) toy_rotation_bytes None toy_ab toy_selected
     [::] [::] [::]) | s <- toy_entropies].

Definition toy_m2 : seq bytes := Eval vm_compute in
  [seq toy_message_of (signing_protocol R2 (Some s) toy_rotation_bytes None toy_ab toy_selected
     toy_m1 [::] [::]) | s <- toy_entropies].

Definition toy_m3 : seq bytes := Eval vm_compute in
  [seq toy_message_of (signing_protocol R3 (Some s.1) toy_rotation_bytes (Some s.2) toy_ab
     toy_selected toy_m1 toy_m2 [::]) | s <- zip toy_entropies toy_sks].

Definition toy_multisig : @Signature toy_curve :=
  if signing_protocol Aggregate None toy_rotation_bytes None toy_ab toy_selected toy_m1 toy_m2 toy_m3
     is Ok (ProtocolOutput (_, sig)) then sig else MkSignature 0 0.

Definition is_output (r : result (@SigningProtocolObject toy_curve)) : bool :=
  if r is Ok (ProtocolOutput _) then true else false.
