(* ===== verification/SigningTheorems.v ===== *)
(** * The signing protocol: completeness, soundness and agreement of signers

    Theorems on [signing_protocol], [verify_signature], [verify_address_book] and
    the hashes of [wraps.rs], each with a witness on the committee of
    [WrapsToy]. *)
From Stdlib Require Import Strings.Byte Strings.String NArith Lia.
From S2P Require Import Prelude SeqFacts WrapsErrors WrapsEngine WrapsUtils Schnorr Multisig.
From S2P Require Import AddressBook Signing SigningFacts WrapsToy.
From mathcomp Require Import ssreflect ssrfun ssrbool eqtype ssrnat seq div.
From mathcomp Require Import fintype tuple bigop ssralg zmodp.
Import GRing.Theory.
Set Warnings "-rewrite-rw".
Set Implicit Arguments.
Unset Strict Implicit.
Unset Printing Implicit Defensive.
Local Open Scope ring_scope.

(** ** Honest sessions *)
Section Rounds.
Context {E : CurveEngine} {L : CurveLaws E} {C : SigningCodecs E} {CL : SigningCodecLaws C}.

(** The selected seats belong to the holders of [sks], in book order, each with
    its own session entropy. *)
Record session (ab : AddressBook) (bits : seq bool) (bv : BitVector) (msg : bytes)
    (rotation : RotationMessage) (sks : seq Scalar) (seeds : seq bytes) : Prop := {
  ses_bits : pad_bitvector bits = Ok bv;
  ses_sel : selection ab bv;
  ses_msg : decode msg = Ok rotation;
  ses_keys : signing_subset ab bv = [seq sk *: gen | sk <- sks];
  ses_entropy : size seeds = size sks;
  ses_some : sks <> [::];
  ses_joint : joint ab bv != 0
}.

Variables (ab : AddressBook) (bits : seq bool) (bv : BitVector) (msg : bytes).
Variables (rotation : RotationMessage) (sks : seq Scalar) (seeds : seq bytes).
Hypothesis ses : session ab bits bv msg rotation sks seeds.

Let message := message_elements rotation.
Let r1 := [seq round1 s message | s <- seeds].
Let r2 := [seq round2 s message | s <- seeds].
Let r3 := mkseq (session_share message sks seeds) (size sks).

Variables (m1 m2 m3 : seq bytes).
Hypothesis e1 : mapM (fun x => encode (Round1 x)) r1 = Ok m1.
Hypothesis e2 : mapM (fun x => encode (Round2 x)) r2 = Ok m2.
Hypothesis e3 : mapM (fun x => encode (Round3 x)) r3 = Ok m3.

Lemma session_sizes : [/\ size m1 = size sks, size m2 = size sks & size m3 = size sks].
Proof.
rewrite (size_mapM e1) (size_mapM e2) (size_mapM e3) size_mkseq !size_map.
by rewrite (ses_entropy ses).
Qed.

Lemma session_decodes :
  [/\ decode_round_messages m1 "round-1" round1_payload = Ok r1,
      decode_round_messages m2 "round-2" round2_payload = Ok r2 &
      decode_round_messages m3 "round-3" round3_payload = Ok r3].
Proof. by split; [apply: decode_rounds e1|apply: decode_rounds e2|apply: decode_rounds e3]. Qed.

Lemma session_keys_uniq : uniq [seq sk *: gen | sk <- sks].
Proof. by rewrite -(ses_keys ses); apply/signing_subset_uniq/sel_book/(ses_sel ses). Qed.

Lemma session_joint : joint_key [seq sk *: gen | sk <- sks] != 0.
Proof. by rewrite -(ses_keys ses); apply: ses_joint ses. Qed.

Lemma no_rounds T name (payload : RoundMessage -> option T) :
  decode_round_messages [::] name payload = Ok [::].
Proof. by []. Qed.

Lemma session_phase phase ent sk ms1 ms2 ms3 q1 q2 q3 :
  decode_round_messages ms1 "round-1" round1_payload = Ok q1 ->
  decode_round_messages ms2 "round-2" round2_payload = Ok q2 ->
  decode_round_messages ms3 "round-3" round3_payload = Ok q3 ->
  needs_entropy phase ==> isSome ent -> needs_key phase ==> isSome sk ->
  (size ms1, size ms2, size ms3) = expected_counts phase (size sks) ->
  signing_protocol phase ent msg sk ab bits ms1 ms2 ms3 =
  phase_result phase ent sk [seq sk *: gen | sk <- sks] bv message q1 q2 q3.
Proof.
move=> d1 d2 d3 eo ko cnt; rewrite -(ses_keys ses); apply: signing_protocolE.
case: ses => bE sel mE kE sE some j0; split=> //.
  by move=> _; rewrite kE => /(congr1 size); rewrite size_map => /size0nil.
by rewrite kE size_map.
Qed.

Lemma run_R1 i : (i < size sks)%N ->
  signing_protocol R1 (Some (nth [::] seeds i)) msg None ab bits [::] [::] [::] =
  Ok (ProtocolMessage (nth [::] m1 i)).
Proof.
move=> lt; have lts : (i < size seeds)%N by rewrite (ses_entropy ses).
rewrite (session_phase (no_rounds _ _) (no_rounds _ _) (no_rounds _ _)) //= /encode_protocol_message.
have := nth_mapM (MkRound1 [::]) [::] e1 (i := i); rewrite size_map (nth_map [::]) //.
by move=> ->.
Qed.

Lemma run_R2 i : (i < size sks)%N ->
  signing_protocol R2 (Some (nth [::] seeds i)) msg None ab bits m1 [::] [::] =
  Ok (ProtocolMessage (nth [::] m2 i)).
Proof.
move=> lt; have lts : (i < size seeds)%N by rewrite (ses_entropy ses).
have [d1 _ _] := session_decodes; have [s1 _ _] := session_sizes.
rewrite (session_phase d1 (no_rounds _ _) (no_rounds _ _)) //= ?s1 //.
have -> : has (round1_eqb (round1 (nth [::] seeds i) message)) r1.
  apply/(has_nthP (MkRound1 [::])); exists i; rewrite ?size_map // (nth_map [::]) //.
  exact/round1_eqP.
rewrite /= /encode_protocol_message.
have := nth_mapM (MkRound2 0) [::] e2 (i := i); rewrite size_map (nth_map [::]) //.
by move=> ->.
Qed.

Lemma run_R3 i : (i < size sks)%N ->
  signing_protocol R3 (Some (nth [::] seeds i)) msg (Some (nth 0 sks i)) ab bits m1 m2 [::] =
  Ok (ProtocolMessage (nth [::] m3 i)).
Proof.
move=> lt; have [d1 d2 _] := session_decodes; have [s1 s2 _] := session_sizes.
rewrite (session_phase d1 d2 (no_rounds _ _)) //= ?s1 ?s2 //.
rewrite session_round3 //.
- exact: ses_entropy ses.
- exact: session_keys_uniq.
- exact: ses_some ses.
- exact: session_joint.
rewrite /= /encode_protocol_message.
have := nth_mapM (MkRound3 (MkSignature 0 0)) [::] e3 (i := i); rewrite size_mkseq nth_mkseq //.
by move=> ->.
Qed.

Lemma run_Aggregate : exists sig,
  signing_protocol Aggregate None msg None ab bits m1 m2 m3 = Ok (ProtocolOutput (bv, sig)).
Proof.
have [d1 d2 d3] := session_decodes; have [s1 s2 s3] := session_sizes.
have [sig agg _] := @session_aggregate E L message sks seeds (ses_entropy ses) (ses_some ses)
  session_joint.
exists sig; rewrite (session_phase d1 d2 d3) //= ?s1 ?s2 ?s3 //.
by rewrite agg.
Qed.
End Rounds.

(** ** Theorems *)
Section Theorems.
Context {E : CurveEngine} {L : CurveLaws E} {C : SigningCodecs E} {CL : SigningCodecLaws C}.
Implicit Types (ab : AddressBook) (bv : BitVector).

(** C4: the three rounds complete.  Take a valid book, a selection of owned seats,
    their secret keys in book order and an entropy per signer, with a joint key
    other than the identity.  Then every signer's R1, R2 and R3 calls, each given
    all messages of the rounds before it, return a message; Aggregate on them
    returns the bitvector with a signature; and [verify_signature] accepts that
    multisignature exactly when the selected seats carry strictly more than half
    of the book's effective weight. *)
Theorem signing_session_verifies ab bits bv msg rotation sks seeds :
  session ab bits bv msg rotation sks seeds ->
  exists m1 m2 m3 sig, let n := size sks in
  [/\ forall i, (i < n)%N ->
        signing_protocol R1 (Some (nth [::] seeds i)) msg None ab bits [::] [::] [::] =
        Ok (ProtocolMessage (nth [::] m1 i)),
      forall i, (i < n)%N ->
        signing_protocol R2 (Some (nth [::] seeds i)) msg None ab bits m1 [::] [::] =
        Ok (ProtocolMessage (nth [::] m2 i)),
      forall i, (i < n)%N ->
        signing_protocol R3 (Some (nth [::] seeds i)) msg (Some (nth 0 sks i)) ab bits m1 m2
          [::] = Ok (ProtocolMessage (nth [::] m3 i)),
      signing_protocol Aggregate None msg None ab bits m1 m2 m3 =
        Ok (ProtocolOutput (bv, sig)) &
      verify_signature ab msg (bv, sig) =
        Ok (total_weight ab <? 2 * named_weight ab bv)%num].
Proof.
move=> ses; pose message := message_elements rotation.
have [m1 e1 _] := encode_rounds Round1 [seq round1 s message | s <- seeds].
have [m2 e2 _] := encode_rounds Round2 [seq round2 s message | s <- seeds].
have [m3 e3 _] := encode_rounds Round3 (mkseq (session_share message sks seeds) (size sks)).
have [sig agg] := run_Aggregate ses e1 e2 e3.
exists m1, m2, m3, sig; split=> // [i|i|i|]; [exact: (run_R1 ses e1)|exact: (run_R2 ses e1 e2 e3)| |].
  exact: (run_R3 ses e1 e2 e3).
exact: output_verdict agg.
Qed.

(** C40: an aggregator cannot be made to output a bad signature.  Whatever bytes
    the round lists hold, when the Aggregate phase returns a multisignature,
    [verify_signature] on the same book and message accepts it exactly when its
    seats carry strictly more than half of the effective weight: every faulty
    commitment, opening or share was rejected before. *)
Theorem aggregate_output_verifies ent msg sk ab bits m1 m2 m3 bv sig :
  signing_protocol Aggregate ent msg sk ab bits m1 m2 m3 = Ok (ProtocolOutput (bv, sig)) ->
  verify_signature ab msg (bv, sig) = Ok (total_weight ab <? 2 * named_weight ab bv)%num.
Proof. exact: output_verdict. Qed.

(** C5: [verify_signature] accepts exactly the authorised rotations: the message
    decodes to a pair of field elements; the book is valid; no bit lies outside
    the book or on an ownerless seat; the named seats weigh strictly more than
    half of the book; their joint key is not the identity; and the signature's
    challenge is the hash of the joint key, the recovered nonce point and the
    message. *)
Theorem verify_signature_spec ab msg bv sig :
  verify_signature ab msg (bv, sig) = Ok true <->
  exists2 rotation, decode msg = Ok rotation &
    [/\ valid_book ab, ~~ has id (drop (size ab) bv),
        forall i, nth false bv i -> live (nth padding_entry ab i),
        (total_weight ab < 2 * named_weight ab bv)%num &
        let pk := \sum_(p <- signing_subset ab bv) p in
        pk != 0 /\
        challenge_of pk (sig_s sig *: gen - field_switch (sig_e sig) *: pk)
          (message_elements rotation) = sig_e sig].
Proof.
rewrite verify_signature_true; split=> -[rot dE H]; exists rot => //.
  case: H => -[vb ins own] /and3P [/N.ltb_lt maj j0 /eqP ok].
  split=> //; first exact/verify_address_bookP.
  exact/(owned_seats (book_size (elimT (verify_address_bookP ab) vb)) ins).
case: H => vb ins own maj [j0 ok]; split.
  split=> //; first exact/verify_address_bookP.
  exact/(owned_seats (book_size vb) ins).
by apply/and3P; split=> //; [exact/N.ltb_lt|exact/eqP].
Qed.

(** C21: two authorised rotations of the same book have a signer in common: some
    owned seat of positive weight signed both. *)
Theorem accepted_quorums_intersect ab msg bv sig msg' bv' sig' :
  verify_signature ab msg (bv, sig) = Ok true ->
  verify_signature ab msg' (bv', sig') = Ok true ->
  exists i, [/\ nth false bv i, nth false bv' i, live (nth padding_entry ab i) &
                weight (nth padding_entry ab i) <> N0].
Proof.
move=> /verify_signature_true [_ _ [sel /and3P [/N.ltb_lt maj _ _]]].
move=> /verify_signature_true [_ _ [_ /and3P [/N.ltb_lt maj' _ _]]].
have le := sel_size sel; have [z sz] := zip_book bv le; have [z' sz'] := zip_book bv' le.
rewrite /named_weight z in maj; rewrite /named_weight z' in maj'.
have [i lt [b1 b2 li wi]] := majorities_meet sz sz' maj maj'.
by exists i; move: b1 b2; rewrite !nth_take.
Qed.

(** No call of the signing interface panics, on any book, bitvector, message
    bytes, round messages, key or entropy: each returns a value or an error. *)
Theorem wraps_signing_never_panics phase ent msg sk ab bits m1 m2 m3 ms vk :
  [/\ never_panics (signing_protocol phase ent msg sk ab bits m1 m2 m3),
      never_panics (verify_signature ab msg ms),
      never_panics (compute_addressbook_hash ab) &
      never_panics (compute_rotation_message ab vk)].
Proof.
split; [exact: signing_protocol_no_panic|exact: verify_signature_no_panic| |].
  by rewrite compute_addressbook_hashE; case: verify_address_book.
exact: compute_rotation_no_panic.
Qed.

(** C36: the phases accept exactly their own inputs.  A phase that returns was
    given a valid book and selection, the session entropy in R1 to R3 and the
    signing key in R3, exactly the prior rounds' messages, one per selected key,
    and each of them decodes to a message tagged with its round. *)
Theorem signing_phase_discipline phase ent msg sk ab bits m1 m2 m3 o :
  signing_protocol phase ent msg sk ab bits m1 m2 m3 = Ok o ->
  exists2 bv, pad_bitvector bits = Ok bv & [/\ selection ab bv,
    needs_entropy phase ==> isSome ent, needs_key phase ==> isSome sk,
    (size m1, size m2, size m3) = expected_counts phase (size (signing_subset ab bv)) &
    [/\ all (fun b => if decode b is Ok m then isSome (round1_payload m) else false) m1,
        all (fun b => if decode b is Ok m then isSome (round2_payload m) else false) m2 &
        all (fun b => if decode b is Ok m then isSome (round3_payload m) else false) m3]].
Proof.
case/signing_protocol_inv => bv [rot] [r1] [r2] [r3] [[bE sel _ eo ko cnt _ d1 d2 d3] _].
exists bv => //; split=> //.
by split; [have [] := decode_rounds_inv d1|have [] := decode_rounds_inv d2|
           have [] := decode_rounds_inv d3].
Qed.

(** Why session entropy must be fresh.  When one signer answers two different
    challenges with the same entropy and message, the two public responses give
    away its secret key. *)
Theorem nonce_reuse_reveals_key entropy msg sk pks r1 r2 pks' r1' r2' m m' :
  round3 shared_constants entropy msg sk pks r1 r2 = Ok m ->
  round3 shared_constants entropy msg sk pks' r1' r2' = Ok m' ->
  let e := field_switch (sig_e (partial_signature m)) in
  let e' := field_switch (sig_e (partial_signature m')) in
  e != e' ->
  sk = (sig_s (partial_signature m) - sig_s (partial_signature m')) / (e - e').
Proof.
case/round3P => e _ [_ _ ->]; case/round3P => e' _ [_ _ ->] /=.
by rewrite -subr_eq0 => d; rewrite opprD addrACA subrr add0r -mulrBr mulfK.
Qed.

End Theorems.

(** ** Witnesses *)

Lemma toy_selection : selection toy_ab toy_bv.
Proof. by split; vm_compute. Qed.

Lemma toy_subset : signing_subset toy_ab toy_bv = [seq sk *: gen | sk <- toy_sks].
Proof. by apply/eqP; vm_compute. Qed.

Lemma toy_session :
  session toy_ab toy_selected toy_bv toy_rotation_bytes toy_rotation toy_sks toy_entropies.
Proof.
split.
- by vm_compute.
- exact: toy_selection.
- by vm_compute.
- exact: toy_subset.
- by vm_compute.
- discriminate.
- rewrite /joint toy_subset /joint_key /toy_sks 2!map_cons [map _ [::]]/= !big_cons big_nil.
  by vm_compute.
Qed.

Lemma signing_session_verifies_witness : exists sig,
  verify_signature toy_ab toy_rotation_bytes (toy_bv, sig) = Ok true.
Proof.
have [m1 [m2 [m3 [sig [_ _ _ _ H]]]]] := signing_session_verifies toy_session.
by exists sig; rewrite H.
Defined.

Lemma toy_output : signing_protocol Aggregate None toy_rotation_bytes None toy_ab toy_selected
  toy_m1 toy_m2 toy_m3 = Ok (ProtocolOutput (toy_bv, toy_multisig)).
Proof.
have : if signing_protocol Aggregate None toy_rotation_bytes None toy_ab toy_selected
    toy_m1 toy_m2 toy_m3 is Ok (ProtocolOutput (bv, _)) then bv == toy_bv else false.
  by vm_compute.
by rewrite /toy_multisig; case: signing_protocol => [[msg|[bv sig]]| |] // /eqP ->.
Qed.

Lemma toy_accepts : verify_signature toy_ab toy_rotation_bytes (toy_bv, toy_multisig) = Ok true.
Proof. by rewrite (output_verdict toy_output). Qed.

Lemma aggregate_output_verifies_witness :
  verify_signature toy_ab toy_rotation_bytes (toy_bv, toy_multisig) = Ok true.
Proof. by rewrite (aggregate_output_verifies toy_output). Defined.

Lemma accepted_quorums_intersect_witness : exists i,
  [/\ nth false toy_bv i, nth false toy_bv i, live (nth padding_entry toy_ab i) &
      weight (nth padding_entry toy_ab i) <> N0].
Proof. exact: accepted_quorums_intersect toy_accepts toy_accepts. Defined.

Lemma signing_phase_discipline_witness : exists2 bv, pad_bitvector toy_selected = Ok bv &
  [/\ selection toy_ab bv, needs_entropy Aggregate ==> isSome (None : option bytes),
      needs_key Aggregate ==> isSome (None : option (@Scalar toy_curve)),
      (size toy_m1, size toy_m2, size toy_m3) =
      expected_counts Aggregate (size (signing_subset toy_ab bv)) &
      [/\ all (fun b => if decode b is Ok m then isSome (round1_payload m) else false) toy_m1,
          all (fun b => if decode b is Ok m then isSome (round2_payload m) else false) toy_m2 &
          all (fun b => if decode b is Ok m then isSome (round3_payload m) else false) toy_m3]].
Proof. exact: signing_phase_discipline toy_output. Defined.

(** One signer, first in a group of two and then alone, with the same entropy. *)
Definition toy_share (n : nat) : result (@MultisigRound3 toy_curve) :=
  let message := message_elements toy_rotation in
  let seeds := take n toy_entropies in
  round3 shared_constants [:: x07] message (nth 0 toy_sks 0)
    [seq sk *: gen | sk <- take n toy_sks]
    [seq round1 s message | s <- seeds] [seq round2 s message | s <- seeds].

Definition toy_share_value (n : nat) : @MultisigRound3 toy_curve :=
  if toy_share n is Ok m then m else MkRound3 (MkSignature 0 0).

Lemma toy_share_ok : toy_share 2 = Ok (toy_share_value 2) /\ toy_share 1 = Ok (toy_share_value 1).
Proof.
have : is_ok (toy_share 2) && is_ok (toy_share 1) by vm_compute.
rewrite /toy_share_value.
by case: (toy_share 2) (toy_share 1) => [m| |] // [m'| |].
Qed.

Lemma nonce_reuse_reveals_key_witness :
  let e := field_switch (sig_e (partial_signature (toy_share_value 2))) in
  let e' := field_switch (sig_e (partial_signature (toy_share_value 1))) in
  nth 0 toy_sks 0 = (sig_s (partial_signature (toy_share_value 2)) -
                     sig_s (partial_signature (toy_share_value 1))) / (e - e').
Proof.
apply: (nonce_reuse_reveals_key (proj1 toy_share_ok) (proj2 toy_share_ok)).
by vm_compute.
Defined.

Lemma verify_signature_spec_witness : exists rotation, decode toy_rotation_bytes = Ok rotation /\
  challenge_of (\sum_(p <- signing_subset toy_ab toy_bv) p)
    (sig_s toy_multisig *: gen -
     field_switch (sig_e toy_multisig) *: \sum_(p <- signing_subset toy_ab toy_bv) p)
    (message_elements rotation) = sig_e toy_multisig.
Proof.
have [rot dE [_ _ _ _ [_ H]]] :=
  proj1 (verify_signature_spec toy_ab toy_rotation_bytes toy_bv toy_multisig) toy_accepts.
exists rot; exact: (conj dE H).
Defined.

Lemma wraps_signing_never_panics_witness :
  [/\ never_panics (signing_protocol Aggregate None [::] None toy_ab (nseq 65 true) [::] [::] [::]),
      never_panics (verify_signature (nseq 65 padding_entry) [::] (toy_bv, toy_multisig)),
      never_panics (compute_addressbook_hash (nseq 65 (padding_entry : @AddressBookEntry toy_curve))) &
      never_panics (compute_rotation_message (nseq 65 (padding_entry : @AddressBookEntry toy_curve))
                      [::])].
Proof.
have [sp _ _ _] := @wraps_signing_never_panics toy_curve toy_curve_laws toy_codecs
  Aggregate None [::] None toy_ab (nseq 65 true) [::] [::] [::] (toy_bv, toy_multisig) [::].
have [_ vs ch cr] := @wraps_signing_never_panics toy_curve toy_curve_laws toy_codecs
  R1 None [::] None (nseq 65 padding_entry) [::] [::] [::] [::] (toy_bv, toy_multisig) [::].
by split; [exact: sp|exact: vs|exact: ch|exact: cr].
Defined.
