(* ===== verification/BookTheorems.v ===== *)
(** * Address books: validation, weights, padding and what the hashes bind *)
From Stdlib Require List.
From Stdlib Require Import Strings.Byte Strings.String NArith Lia.
From S2P Require Import Prelude SeqFacts WrapsErrors WrapsEngine WrapsUtils Schnorr Multisig.
From S2P Require Import AddressBook Signing SigningFacts WrapsToy.
From mathcomp Require Import ssreflect ssrfun ssrbool eqtype ssrnat seq div.
From mathcomp Require Import fintype tuple bigop ssralg zmodp.
Import GRing.Theory.
Set Warnings "-rewrite-rw".
Set Implicit Arguments.
Unset Strict Implicit.
Unset Printing Implicit Defensive.
Local Open Scope ring_scope.

(** ** Lemmas *)
Section Facts.
Context {E : CurveEngine} {L : CurveLaws E} {RL : ReprLaws E}.
Implicit Types (ab : AddressBook) (bv : BitVector).

(** Seats that agree wherever they have an owner: same key, and for an owned seat
    the same proof and weight. *)
Definition same_seat (e e' : AddressBookEntry) : Prop :=
  entry_pk e = entry_pk e' /\
  (live e -> entry_pok e = entry_pok e' /\ weight e = weight e').

Definition same_seats ab ab' : Prop := List.Forall2 same_seat ab ab'.

Lemma same_seats_size ab ab' : same_seats ab ab' -> size ab = size ab'.
Proof. by elim=> //= e e' s s' _ _ ->. Qed.

Lemma same_seats_refl ab : same_seats ab ab.
Proof. by elim: ab => [|e ab IH]; constructor. Qed.

(** Any entry with the identity key can replace any other. *)
Lemma same_seats_set ab i (e : AddressBookEntry) : (i < size ab)%N ->
  entry_pk (nth padding_entry ab i) = entry_pk e -> ~~ live e ->
  same_seats ab (set_nth padding_entry ab i e).
Proof.
elim: ab i => [|x ab IH] [|i] //= lt pk nl; constructor; rewrite ?same_seats_refl //.
- by split=> //; rewrite /live pk => li; rewrite /live li in nl.
- exact: same_seats_refl.
- exact: IH.
Qed.

Lemma same_seat_effective e e' : same_seat e e' -> effective e = effective e'.
Proof.
case=> pk; rewrite /effective /live -pk; case: is_identity => //= H.
by have [] := H isT.
Qed.

Lemma same_seats_keys ab ab' : same_seats ab ab' -> live_keys ab = live_keys ab'.
Proof.
elim=> //= e e' s s' [pk _] _ IH; rewrite !live_keys_cons /live -pk IH.
by case: is_identity.
Qed.

Lemma same_seats_total ab ab' : same_seats ab ab' -> total_weight ab = total_weight ab'.
Proof.
by elim=> //= e e' s s' /same_seat_effective ee _ IH; rewrite !total_weight_cons ee IH.
Qed.

Lemma same_seats_attested ab ab' : same_seats ab ab' -> attested ab = attested ab'.
Proof.
elim=> //= e e' s s' [pk ow] _ IH; rewrite /attested /= -/(attested s) -/(attested s') IH.
congr (_ && _); move: ow; rewrite /live -pk; case: is_identity => //= ow.
by have [-> _] := ow isT.
Qed.

Lemma same_seats_subset ab ab' bv : same_seats ab ab' ->
  signing_subset ab bv = signing_subset ab' bv.
Proof.
move=> H; rewrite /signing_subset; elim: H (tval bv) => //= e e' s s' [pk _] _ IH [|b bits] //=.
by rewrite -pk IH.
Qed.

Lemma same_seats_named ab ab' (bits : seq bool) : same_seats ab ab' ->
  named_weight ab bits = named_weight ab' bits.
Proof.
rewrite /named_weight => H; elim: H bits => //= e e' s s' ee _ IH [|b bits] //=.
by case: b => //=; rewrite (same_seat_effective ee) IH.
Qed.

Lemma same_seats_verify ab ab' : same_seats ab ab' ->
  verify_address_book ab = verify_address_book ab'.
Proof.
move=> H; apply/verify_address_bookP/verify_address_bookP => -[].
  rewrite (same_seats_size H) (same_seats_keys H) (same_seats_attested H).
  by rewrite (same_seats_total H); split.
rewrite -(same_seats_size H) -(same_seats_keys H) -(same_seats_attested H).
by rewrite -(same_seats_total H); split.
Qed.

Lemma same_seats_reject ab ab' bv : same_seats ab ab' ->
  reject_sentinel_signers ab bv = reject_sentinel_signers ab' bv.
Proof.
move=> H; rewrite /reject_sentinel_signers /position.
pose p (es : @AddressBookEntry E * bool) := es.2 && is_identity (entry_pk es.1).
have [hE fE] : has p (zip ab bv) = has p (zip ab' bv) /\ find p (zip ab bv) = find p (zip ab' bv).
  elim: H (tval bv) => //= e e' s s' [pk _] _ IH [|b bits] //=.
  by have [-> ->] := IH bits; rewrite /p /= pk.
by rewrite -/p hE fE.
Qed.

(** ** Injectivity of the preimages *)

(** What a book's commitment is about: ids, keys and weights, after padding. *)
Definition contents ab : seq (Base * GE * N) :=
  [seq (node_id e, entry_pk e, weight e) | e <- padded ab].

(** The weights of a book as the [u64]s they are in the code. *)
Definition u64_weights ab : bool := all (fun e => weight e <? U64)%num ab.

Lemma u64_weights_padded ab : u64_weights ab -> u64_weights (padded ab).
Proof.
by rewrite /u64_weights /padded all_cat all_nseq orbT andbT.
Qed.

Lemma size_entry_elements (e : AddressBookEntry) :
  size (node_id e :: encode_point (entry_pk e) ++ [:: base_from (weight e)]) = 5.
Proof. by rewrite /= size_cat size_encode_point. Qed.

Lemma size_book_elements ab : size (book_elements ab) = (5 * size ab)%N.
Proof.
elim: ab => [|e ab IH] //; rewrite /book_elements /= !size_cat size_encode_point.
by rewrite -/(book_elements ab) IH mulnS.
Qed.

Lemma book_elements_contents ab : book_elements (padded ab) =
  flatten [seq c.1.1 :: encode_point c.1.2 ++ [:: base_from c.2] | c <- contents ab].
Proof. by rewrite /contents -map_comp. Qed.

Section Wide.
Hypothesis u64_inj : forall a b, (a < U64)%num -> (b < U64)%num ->
  base_from a = base_from b -> a = b.

Lemma entry_elements_inj (e e' : AddressBookEntry) :
  (weight e < U64)%num -> (weight e' < U64)%num ->
  node_id e :: encode_point (entry_pk e) ++ [:: base_from (weight e)] =
  node_id e' :: encode_point (entry_pk e') ++ [:: base_from (weight e')] ->
  [/\ node_id e = node_id e', entry_pk e = entry_pk e' & weight e = weight e'].
Proof.
move=> lt lt' [ide]; move/eqP; rewrite eqseq_cat ?size_encode_point // => /andP[/eqP pk /eqP [w]].
by split; [|apply: encode_point_inj|apply: u64_inj].
Qed.

Lemma book_elements_inj ab ab' : size ab = size ab' -> u64_weights ab -> u64_weights ab' ->
  book_elements ab = book_elements ab' ->
  [seq (node_id e, entry_pk e, weight e) | e <- ab] =
  [seq (node_id e, entry_pk e, weight e) | e <- ab'].
Proof.
elim: ab ab' => [|e ab IH] [|e' ab'] // [sz] /andP[lt u] /andP[lt' u'].
rewrite /book_elements [map _ (e :: _)]/= [map _ (e' :: _)]/= ![flatten (_ :: _)]/=.
rewrite -!cat_cons => /eqP; rewrite eqseq_cat ?size_entry_elements // => /andP[/eqP H /eqP T].
have [] := entry_elements_inj _ _ H; try exact/N.ltb_lt.
by move=> /= -> -> ->; rewrite (IH ab').
Qed.
End Wide.

(** Concatenated fixed-width representations determine their elements. *)
Lemma reprs_inj (xs ys : seq Base) : size xs = size ys ->
  flatten [seq to_repr x | x <- xs] = flatten [seq to_repr y | y <- ys] -> xs = ys.
Proof.
elim: xs ys => [|x xs IH] [|y ys] //= [sz] /eqP.
rewrite eqseq_cat; first exact: to_repr_width.
by move=> /andP[/eqP/to_repr_inj -> /eqP/(IH _ sz) ->].
Qed.

(** The preimage of a nonce commitment, and what it means that two collide. *)
Definition nonce_preimage (r : GE) : bytes :=
  DST_NONCE_COMMITMENT ++ flatten [seq to_repr x | x <- encode_point r].

Definition nonces_collide (r r' : GE) : Prop :=
  nonce_preimage r <> nonce_preimage r' /\ sha256 (nonce_preimage r) = sha256 (nonce_preimage r').

Lemma nonce_preimage_inj : injective nonce_preimage.
Proof.
move=> r r' xy; apply: encode_point_inj; apply: reprs_inj; first by rewrite !size_encode_point.
by have := congr1 (drop (size DST_NONCE_COMMITMENT)) xy; rewrite !drop_size_cat.
Qed.

Lemma commit_nonce_binds (r r' : GE) :
  commit_nonce r = commit_nonce r' -> r = r' \/ nonces_collide r r'.
Proof.
move/(congr1 nonce_commitment) => /= H; case: (eqVneq r r') => [->|/eqP ne]; [by left|right].
by split=> // /nonce_preimage_inj.
Qed.
End Facts.

(** ** Theorems *)
Section Theorems.
Context {E : CurveEngine} {L : CurveLaws E} {RL : ReprLaws E} {C : SigningCodecs E} {CL : SigningCodecLaws C}.
Implicit Types (ab : AddressBook) (bv : BitVector).

(** C26: the single pass of [verify_address_book], with its list of seen keys and
    its overflow-checked running weight, decides exactly the book's contract: at
    most 64 seats, pairwise distinct keys on the owned seats, a valid proof of
    knowledge on each of them, and a total effective weight that fits in 64 bits. *)
Theorem verify_address_book_spec ab :
  verify_address_book ab <->
  [/\ (size ab <= MAX_AB_SIZE)%N,
      uniq [seq entry_pk e | e <- ab & entry_pk e != 0],
      all (fun e => (entry_pk e != 0) ==> verify_knowledge (entry_pk e) (entry_pok e)) ab &
      (sumN [seq if entry_pk e == 0%R then N0 else weight e | e <- ab] < U64)%num].
Proof.
have liveE e : live e = (entry_pk e != 0) by rewrite /live is_identityE.
have keysE : [seq entry_pk e | e <- ab & entry_pk e != 0] = live_keys ab.
  by rewrite /live_keys; congr map; apply: eq_filter => e; rewrite liveE.
have attE : all (fun e => (entry_pk e != 0) ==> verify_knowledge (entry_pk e) (entry_pok e)) ab =
            attested ab by apply: eq_all => e; rewrite liveE.
have sumE : [seq if entry_pk e == 0%R then N0 else weight e | e <- ab] = [seq effective e | e <- ab].
  by apply: eq_map => e; rewrite /effective is_identityE.
rewrite keysE attE sumE; split=> [/verify_address_bookP [] //|[sz u a w]].
by apply/verify_address_bookP; split.
Qed.

(** C27: the 64-bit weight arithmetic is exact.  On a book of at most 64 seats
    [subset_weight] returns the true sums of the named and of all effective
    weights, or nothing precisely when the total does not fit in 64 bits; and on
    returned sums the halving test of [meets_threshold] is the strict majority
    [2 * signing > total], for all values. *)
Theorem subset_weight_exact ab bv : (size ab <= MAX_AB_SIZE)%N ->
  let signing := sumN [seq if entry_pk es.1 == 0%R then N0 else weight es.1
                      | es <- zip ab bv & es.2] in
  let total := sumN [seq if entry_pk e == 0%R then N0 else weight e | e <- ab] in
  subset_weight ab bv = (if (total <? U64)%num then Some (signing, total) else None) /\
  meets_threshold signing total = (total <? 2 * signing)%num.
Proof.
move=> le; have eff (e : AddressBookEntry) : (if entry_pk e == 0%R then N0 else weight e) = effective e.
  by rewrite /effective is_identityE.
rewrite /= !(eq_map eff) (eq_map (fun es : AddressBookEntry * bool => eff es.1)).
split; first exact: subset_weightE.
exact/meets_thresholdE/named_weight_le.
Qed.

(** C28: padding is invisible.  A book and the same book written out to 64 seats
    are validated alike, hash to the same commitment, give the same rotation
    message, and accept the same multisignatures whose bits stay inside the
    shorter book. *)
Theorem padding_invariance ab : (size ab <= MAX_AB_SIZE)%N ->
  [/\ pad_address_book ab = Ok (padded ab),
      compute_addressbook_hash (padded ab) = compute_addressbook_hash ab,
      forall vk, compute_rotation_message (padded ab) vk = compute_rotation_message ab vk &
      forall msg bv sig, ~~ has id (drop (size ab) bv) ->
        verify_signature (padded ab) msg (bv, sig) = verify_signature ab msg (bv, sig)].
Proof.
move=> le; have hashE : compute_addressbook_hash (padded ab) = compute_addressbook_hash ab.
  by rewrite !compute_addressbook_hashE verify_padded // [padded (padded ab)]padded_id ?size_padded.
split=> // [|vk|msg bv sig ins]; first by rewrite pad_address_bookE le.
  by rewrite /compute_rotation_message hashE.
rewrite !verify_signatureE verify_padded // size_padded // drop_oversize ?size_tuple //=.
rewrite (negbTE ins) /entitled /joint total_weight_padded named_weight_padded //.
by rewrite signing_subset_padded // reject_padded.
Qed.

(** An ownerless seat is inert.  Two books that agree on the keys of all seats
    and on the proofs and weights of the owned ones are validated alike and accept
    the same multisignatures: the weight and proof written on a seat keyed to the
    identity, and every node id, have no influence. *)
Theorem ownerless_seats_inert ab ab' msg ms : same_seats ab ab' ->
  verify_address_book ab = verify_address_book ab' /\
  verify_signature ab msg ms = verify_signature ab' msg ms.
Proof.
move=> H; case: ms => bv sig; split; first exact: same_seats_verify.
rewrite !verify_signatureE (same_seats_verify H) (same_seats_size H) (same_seats_reject bv H).
by rewrite /entitled /joint (same_seats_total H) (same_seats_named bv H) (same_seats_subset bv H).
Qed.

(** C35: what a book's commitment binds.  Two valid books with the same node ids, keys
    and weights seat by seat after padding have the same commitment, whatever their
    proofs of knowledge; and when two books of different contents have the same
    commitment, their own two preimages of 320 elements are different and collide
    under the sponge.  The base field is one where 64-bit weights are distinct. *)
Theorem book_hash_binds ab ab' h h' :
  (forall a b, (a < U64)%num -> (b < U64)%num -> base_from a = base_from b -> a = b) ->
  u64_weights ab -> u64_weights ab' ->
  compute_addressbook_hash ab = Ok h -> compute_addressbook_hash ab' = Ok h' ->
  let x := book_elements (padded ab) in
  let y := book_elements (padded ab') in
  (contents ab = contents ab' -> h = h') /\
  (contents ab <> contents ab' -> h = h' ->
   [/\ x <> y, size x = 320, size y = 320,
       poseidon_native shared_constants DS_ADDRESS_BOOK x = h &
       poseidon_native shared_constants DS_ADDRESS_BOOK y = h]).
Proof.
move=> inj u u'; rewrite !compute_addressbook_hashE.
case vb: verify_address_book => //; case vb': (verify_address_book ab') => // -[<-] -[<-] x y.
have /verify_address_bookP [le _ _ _] := vb; have /verify_address_bookP [le' _ _ _] := vb'.
split=> [cE|ne xy]; first by rewrite !book_elements_contents cE.
split; rewrite ?size_book_elements ?size_padded // => xE; apply: ne.
by apply: book_elements_inj xE; rewrite ?size_padded //; apply: u64_weights_padded.
Qed.

(** A signer cannot change its nonce after round 1.  When the group challenge
    is derived twice from the same round-1 messages, the signers are as many, and each
    one's round-2 nonce point is the same both times, unless the preimages of its own
    two commitments collide under SHA-256. *)
Theorem round1_commits msg pks msg' pks' r1 r2 r2' e e' :
  Multisig.challenge shared_constants msg pks r1 r2 = Ok e ->
  Multisig.challenge shared_constants msg' pks' r1 r2' = Ok e' ->
  List.Forall2 (fun m m' => nonce_point m = nonce_point m' \/
                            nonces_collide (nonce_point m) (nonce_point m')) r2 r2'.
Proof.
move=> /challengeP [_ _ o _ _] /challengeP [_ _ o' _ _]; move: o'; rewrite o.
elim: r2 r2' {o} => [|m r2 IH] [|m' r2'] //=; case=> mm /IH H; constructor=> //.
exact: commit_nonce_binds (congr1 MkRound1 mm).
Qed.

(** Generated keys make valid books.  A book of at most 64 seats, each keyed by
    [keygen] from its own seed, whose keys are pairwise distinct and not the
    identity and whose weights sum to less than 2^64, passes validation: the
    derived proofs of knowledge all verify. *)
Theorem keygen_book_valid (seats : seq (Base * bytes * N)) :
  let keys := [seq (wraps_keygen s.1.2).2.1 | s <- seats] in
  (size seats <= MAX_AB_SIZE)%N -> uniq keys -> 0 \notin keys ->
  (sumN [seq s.2 | s <- seats] < U64)%num ->
  verify_address_book [seq (s.1.1, (wraps_keygen s.1.2).2, s.2) | s <- seats].
Proof.
move=> keys sz uk nz wt; set ab := map _ _; apply/verify_address_bookP.
have lv s : s \in seats -> live (s.1.1, (wraps_keygen s.1.2).2, s.2).
  move=> sin; rewrite /live is_identityE /entry_pk /=.
  by apply: contraNneq nz => <-; apply/mapP; exists s.
have keysE : live_keys ab = keys.
  rewrite /live_keys /ab /keys filter_map -map_comp; congr map.
  by rewrite (eq_in_filter (a2 := predT)) ?filter_predT // => s /lv.
split; rewrite ?size_map ?keysE //.
  by rewrite /attested all_map; apply/allP => s _; apply/implyP => _; exact: prove_verify_knowledge.
rewrite /total_weight (_ : map effective ab = [seq s.2 | s <- seats]) // /ab -map_comp.
by apply/eq_in_map => s /lv; rewrite /effective /live /= => /negbTE ->.
Qed.
End Theorems.

(** ** Witnesses *)

Lemma subset_weight_exact_witness :
  subset_weight toy_ab toy_bv = Some (8%num, 12%num) /\ meets_threshold 8%num 12%num.
Proof.
have [wE mE] := @subset_weight_exact toy_curve toy_curve_laws toy_ab toy_bv isT.
by split; [rewrite wE; vm_compute|vm_compute].
Defined.

Lemma padding_invariance_witness :
  compute_addressbook_hash (padded toy_ab) = compute_addressbook_hash toy_ab.
Proof. by have [_ H _ _] := padding_invariance (isT : (size toy_ab <= MAX_AB_SIZE)%N). Defined.

(** The book of [WrapsToy] with another weight and another proof on its ownerless
    third seat. *)
Definition toy_ab_inert : @AddressBook toy_curve :=
  set_nth padding_entry toy_ab 2
    (7%:R, (@sentinel_pubkey toy_curve, @MkSchnorrPoK toy_curve 1 2%:R 3%:R), 1000%num).

Lemma toy_same_seats : same_seats toy_ab toy_ab_inert.
Proof. by apply: same_seats_set; [|apply/eqP|]; vm_compute. Qed.

Lemma ownerless_seats_inert_witness :
  verify_address_book toy_ab = verify_address_book toy_ab_inert /\
  verify_signature toy_ab toy_rotation_bytes (toy_bv, toy_multisig) =
  verify_signature toy_ab_inert toy_rotation_bytes (toy_bv, toy_multisig).
Proof. exact: ownerless_seats_inert toy_same_seats. Defined.

Definition toy_r2 : seq (@MultisigRound2 toy_curve) := [:: MkRound2 (5%:R : toyS)].
Definition toy_r1 := [seq commit_nonce (nonce_point m) | m <- toy_r2].

Lemma toy_challenge : Multisig.challenge shared_constants [::] [:: (1 : toyS) : @GE toy_curve]
  toy_r1 toy_r2 = Ok (challenge_of (joint_key [:: (1 : toyS) : @GE toy_curve])
                        (joint_nonce toy_r2) [::]).
Proof.
apply/challengeP; split=> //; rewrite /joint_key big_seq1; by vm_compute.
Qed.

Lemma round1_commits_witness :
  List.Forall2 (fun m m' => nonce_point m = nonce_point m' \/
    @nonces_collide toy_curve (nonce_point m) (nonce_point m')) toy_r2 toy_r2.
Proof. exact: round1_commits toy_challenge toy_challenge. Defined.

Lemma keygen_book_valid_witness : verify_address_book
  [seq (s.1.1, (wraps_keygen s.1.2).2, s.2) | s <-
    [:: (1 : @Base toy_curve, toy_seed 1, 5%num); (2%:R : @Base toy_curve, toy_seed 2, 4%num)]].
Proof. by apply: keygen_book_valid; vm_compute. Defined.

Lemma verify_address_book_spec_witness :
  uniq [seq entry_pk e | e <- toy_ab & entry_pk e != 0].
Proof.
have valid : verify_address_book toy_ab by vm_compute.
by have [_ H _ _] := proj1 (verify_address_book_spec toy_ab) valid.
Defined.
