(* ===== verification/Circuit.v ===== *)
(** * [circuit.rs]: the rotation circuit

    The Rust code is generic in the constraint system it synthesises into; so is
    the model.  [ConstraintSystem M] is the trait's interface over a monad [M],
    and [Gadgets M] the allocated numbers, bits, points and hashes of the Nova
    library.  Two interpretations of the one definition of [synthesize] matter:

    - [proving] runs it with the values the prover's closures compute, and records
      whether every enforced constraint holds of them;
    - [satisfying] reads it as the relation between inputs and outputs that the
      constraints impose, every allocated variable being chosen freely, as by a
      malicious prover. *)
From Stdlib Require Import Strings.Byte Strings.String NArith.
From S2P Require Import Prelude SeqFacts WrapsErrors WrapsEngine WrapsUtils Schnorr Multisig.
From S2P Require Import AddressBook Signing.
From mathcomp Require Import ssreflect ssrfun ssrbool eqtype ssrnat seq.
From mathcomp Require Import fintype tuple bigop ssralg.
Import GRing.Theory.
Set Warnings "-rewrite-rw".
Set Implicit Arguments.
Unset Strict Implicit.
Unset Printing Implicit Defensive.
Local Open Scope ring_scope.

(** ** Interfaces *)

(** [ConstraintSystem]: a monad with variables and rank-one constraints.  [lift]
    embeds native computation, whose panics abort the synthesis. *)
Class ConstraintSystem {E : CurveEngine} (M : Type -> Type) := {
  ret : forall {A : Type}, A -> M A;
  bindM : forall {A B : Type}, M A -> (A -> M B) -> M B;
  lift : forall {A : Type}, result A -> M A;
  (** [AllocatedNum::alloc] with the value its closure computes *)
  alloc : Base -> M Base;
  (** [AllocatedBit::alloc] *)
  alloc_bit : bool -> M Base;
  (** [cs.enforce(a, b, c)]: [a * b = c] *)
  enforce : Base -> Base -> Base -> M unit
}.

Declare Scope circuit_scope.
Delimit Scope circuit_scope with circuit.
Notation "'do*' x ':=' c 'in' k" := (bindM c (fun x => k))
  (at level 10, x pattern, c at level 100, k at level 200,
   format "'do*'  x  ':='  c  'in' '//' k") : circuit_scope.
Local Open Scope circuit_scope.

(** [AllocatedPoint]: affine coordinates and the infinity flag, as variables. *)
Definition AllocatedPoint {E : CurveEngine} : Type := (Base * Base * Base)%type.
Definition point_x {E : CurveEngine} (p : AllocatedPoint) : Base := p.1.1.
Definition point_y {E : CurveEngine} (p : AllocatedPoint) : Base := p.1.2.
Definition point_inf {E : CurveEngine} (p : AllocatedPoint) : Base := p.2.

(** The gadgets of [nova_snark] the circuit uses, and the bits of a scalar. *)
Class Gadgets {E : CurveEngine} (M : Type -> Type) := {
  le_bits_to_num : seq Base -> M Base;
  to_bits_le_strict : Base -> M (seq Base);
  alloc_zero : M Base;
  sponge_circuit : Constants -> seq SpongeOp -> nat -> seq Base -> M Base;
  point_alloc : Base * Base * bool -> M AllocatedPoint;
  check_on_curve : AllocatedPoint -> M unit;
  point_default : M AllocatedPoint;
  select_point_or_infinity : AllocatedPoint -> Base -> M AllocatedPoint;
  point_add : AllocatedPoint -> AllocatedPoint -> M AllocatedPoint;
  point_negate : AllocatedPoint -> M AllocatedPoint;
  point_scalar_mul : AllocatedPoint -> seq Base -> M AllocatedPoint;
  point_alloc_constant : Base * Base -> Base -> M AllocatedPoint
}.

(** [PrimeFieldBits::to_le_bits] and [PrimeField::NUM_BITS] of [E::Scalar]. *)
Class ScalarBits (E : CurveEngine) := {
  scalar_to_le_bits : Scalar -> seq bool;
  SCALAR_NUM_BITS : nat
}.

(** ** The circuit *)

(** [struct RotationCircuit] *)
Record RotationCircuit {E : CurveEngine} : Type := MkRotationCircuit {
  rc_pc : Constants;
  rc_prev_ab : AddressBook;
  rc_bitvector : BitVector;
  rc_sig : Signature;
  rc_msg : RotationMessage
}.

Section Circuit.
Context {E : CurveEngine} {M : Type -> Type} {CS : ConstraintSystem M} {G : Gadgets M}.
Context {SB : ScalarBits E}.

(** [iter.map(f).collect::<Result<Vec<_>, _>>()] in the constraint system. *)
Fixpoint collect {A B : Type} (f : A -> M B) (l : seq A) : M (seq B) :=
  match l with
  | [::] => ret [::]
  | a :: l' => do* b := f a in do* bs := collect f l' in ret (b :: bs)
  end.

(** [poseidon_circuit] *)
Definition poseidon_circuit (pc : Constants) (domain_sep : nat) (elements : seq Base) : M Base :=
  let num_absorbs := as_u32 (size elements) in
  sponge_circuit pc [:: Absorb num_absorbs; Squeeze 1] domain_sep elements.

(** [truncate_to_challenge_circuit]; [bits[..n]] panics past the end. *)
Definition truncate_to_challenge_circuit (x : Base) : M Base :=
  do* bits := to_bits_le_strict x in
  do* low := lift (if (NUM_CHALLENGE_BITS <= size bits)%N
                   then Ok (take NUM_CHALLENGE_BITS bits) else Panic) in
  le_bits_to_num low.

(** [alloc_bits] *)
Definition alloc_bits (bits : seq bool) : M (seq Base) := collect alloc_bit bits.

(** [enforce_equal] *)
Definition enforce_equal (a b : Base) : M unit := enforce (a - b) 1 0.

(** [sum_of] *)
Definition sum_of (terms : seq Base) : M Base :=
  let value := foldl +%R 0 terms in
  do* sum := alloc value in
  do* _ := enforce (foldl +%R 0 terms) 1 sum in
  ret sum.

(** [enforce_range] *)
Definition enforce_range (value : Base) (num_bits : nat) : M unit :=
  do* bits := lift (le_bits_of value num_bits) in
  do* allocated := alloc_bits bits in
  do* recomposed := le_bits_to_num allocated in
  enforce_equal value recomposed.

(** [enforce_greater_than] *)
Definition enforce_greater_than (a b : Base) (bound_bits : nat) : M unit :=
  do* difference := alloc (a - b - 1) in
  do* _ := enforce (a - b - 1) 1 difference in
  enforce_range difference bound_bits.

(** The allocation of one address-book entry: key, weight, node id. *)
Definition alloc_entry (e : AddressBookEntry) : M (AllocatedPoint * Base * Base) :=
  do* point := point_alloc (to_coordinates (entry_pk e)) in
  do* _ := check_on_curve point in
  do* allocated_weight := alloc (base_from (weight e)) in
  do* _ := enforce_range allocated_weight WEIGHT_BITS in
  do* id := alloc (node_id e) in
  ret (point, allocated_weight, id).

(** The preimage of [H(ab)] in the circuit. *)
Definition circuit_preimage (entries : seq (AllocatedPoint * Base * Base)) : seq Base :=
  flatten [seq [:: e.2; point_x e.1.1; point_y e.1.1; point_inf e.1.1; e.1.2] | e <- entries].

(** One effective weight: [weight * (1 - is_infinity)]. *)
Definition alloc_effective (x : AddressBookEntry * (AllocatedPoint * Base * Base)) : M Base :=
  let: (entry, (key, w, _)) := x in
  do* effective := alloc (if is_identity (entry_pk entry) then 0 else base_from (weight entry)) in
  do* _ := enforce w (1 - point_inf key) effective in
  ret effective.

(** One masked weight: [bit * effective]. *)
Definition alloc_masked (x : bool * (Base * Base)) : M Base :=
  let: (signed, (bit, effective)) := x in
  do* masked := alloc (if signed then effective else 0) in
  do* _ := enforce bit effective masked in
  ret masked.

(** The aggregation loop of the joint key. *)
Fixpoint aggregate_keys (pk : AllocatedPoint) (l : seq (AllocatedPoint * Base)) :
    M AllocatedPoint :=
  match l with
  | [::] => ret pk
  | (key, bit) :: l' =>
      do* masked := select_point_or_infinity key bit in
      do* pk := point_add pk masked in
      aggregate_keys pk l'
  end.

(** Check 2: the weights of the selected seats. *)
Definition check_weights (c : RotationCircuit) (entries : seq (AllocatedPoint * Base * Base))
    (bits : seq Base) : M unit :=
  do* effective_weights := collect alloc_effective (zip (rc_prev_ab c) entries) in
  do* masked_weights := collect alloc_masked (zip (rc_bitvector c) (zip bits effective_weights)) in
  do* signing_weight := sum_of masked_weights in
  do* total_weight := sum_of effective_weights in
  do* _ := enforce_range total_weight WEIGHT_BITS in
  do* remaining_weight := alloc (total_weight - signing_weight) in
  do* _ := enforce (total_weight - signing_weight) 1 remaining_weight in
  enforce_greater_than signing_weight remaining_weight WEIGHT_BITS.

(** Check 3: the Schnorr equation of the joint key on the next state. *)
Definition check_signature (c : RotationCircuit) (pk : AllocatedPoint)
    (next_ab_hash next_hints_vk_hash : Base) : M unit :=
  do* s_native := lift (mapM (vec_get (scalar_to_le_bits (sig_s (rc_sig c))))
                         (iota 0 SCALAR_NUM_BITS)) in
  do* s_bits := alloc_bits s_native in
  do* e_native := lift (le_bits_of (sig_e (rc_sig c)) NUM_CHALLENGE_BITS) in
  do* e_bits := alloc_bits e_native in
  do* e := le_bits_to_num e_bits in
  let: (gen_x, gen_y, gen_is_infinity) := to_coordinates gen in
  do* _ := lift (if gen_is_infinity then Panic else Ok tt) in
  do* zero := alloc_zero in
  do* g := point_alloc_constant (gen_x, gen_y) zero in
  do* s_g := point_scalar_mul g s_bits in
  do* e_pk := point_scalar_mul pk e_bits in
  do* neg_e_pk := point_negate e_pk in
  do* r := point_add s_g neg_e_pk in
  do* hash := poseidon_circuit (rc_pc c) DS_CHALLENGE
    [:: point_x pk; point_y pk; point_inf pk; point_x r; point_y r; point_inf r;
        next_ab_hash; next_hints_vk_hash] in
  do* e_expected := truncate_to_challenge_circuit hash in
  enforce_equal e e_expected.

(** [StepCircuit::synthesize] *)
Definition synthesize (c : RotationCircuit) (z_in : seq Base) : M (seq Base) :=
  do* _ := lift (if size z_in != 2 then Panic else Ok tt) in
  do* _ := lift (if size (rc_prev_ab c) != MAX_AB_SIZE then Panic else Ok tt) in
  do* entries := collect alloc_entry (rc_prev_ab c) in
  do* h_ab := poseidon_circuit (rc_pc c) DS_ADDRESS_BOOK (circuit_preimage entries) in
  do* z0 := lift (vec_get z_in 0) in
  do* _ := enforce_equal h_ab z0 in
  do* bits := alloc_bits (rc_bitvector c) in
  do* _ := check_weights c entries bits in
  do* start := point_default in
  do* pk := aggregate_keys start (zip [seq e.1.1 | e <- entries] bits) in
  do* _ := enforce (point_inf pk) 1 0 in
  do* next_ab_hash := alloc (rc_msg c).1 in
  do* next_hints_vk_hash := alloc (rc_msg c).2 in
  do* _ := check_signature c pk next_ab_hash next_hints_vk_hash in
  ret [:: next_ab_hash; next_hints_vk_hash].

End Circuit.

(** [StepCircuit::arity] *)
Definition arity : nat := 2.

(** ** The two interpretations *)

(** Values and the conjunction of all constraints. *)
Definition proving (A : Type) : Type := result (A * bool).

#[export] Instance proving_cs {E : CurveEngine} : ConstraintSystem proving := {|
  ret := fun A a => Ok (a, true);
  bindM := fun A B m k =>
    let* (a, ok) := m in let* (b, ok') := k a in Ok (b, ok && ok');
  lift := fun A r => let* a := r in Ok (a, true);
  alloc := fun v => Ok (v, true);
  alloc_bit := fun b : bool => Ok (if b then 1 else 0, true);
  enforce := fun a b c => Ok (tt, a * b == c)
|}.

(** The values an assignment that satisfies the constraints can take. *)
Definition satisfying (A : Type) : Type := A -> Prop.

#[export] Instance satisfying_cs {E : CurveEngine} : ConstraintSystem satisfying := {|
  ret := fun A a x => x = a;
  bindM := fun A B m k b => exists2 a, m a & k a b;
  lift := fun A r a => r = Ok a;
  alloc := fun _ _ => True;
  alloc_bit := fun _ x => x = 0 \/ x = 1;
  enforce := fun a b c _ => a * b = c
|}.
