(* ===== verification/CircuitFacts.v ===== *)
(** * Laws of the gadget library and lemmas on the circuit's components *)
From Stdlib Require Import Strings.Byte Strings.String NArith Lia.
From S2P Require Import Prelude SeqFacts WrapsErrors WrapsEngine WrapsUtils Schnorr Multisig.
From S2P Require Import AddressBook Signing SigningFacts Circuit.
From mathcomp Require Import ssreflect ssrfun ssrbool eqtype ssrnat seq.
From mathcomp Require Import fintype tuple bigop ssralg.
Import GRing.Theory.
Set Warnings "-rewrite-rw".
Set Implicit Arguments.
Unset Strict Implicit.
Unset Printing Implicit Defensive.
Local Open Scope ring_scope.
Local Open Scope circuit_scope.

Section Values.
Context {E : CurveEngine}.

(** A bit as a field element, a bit list as an integer and as a field element. *)
Definition b2f (b : bool) : Base := if b then 1 else 0.
Definition bitsN (bs : seq bool) : N :=
  foldr (fun (b : bool) acc => ((if b then 1 else 0) + 2 * acc)%num) N0 bs.
Definition num_of_bits (xs : seq Base) : Base := foldr (fun x acc => x + (acc + acc)) 0 xs.

(** The variables that stand for a group element. *)
Definition repr (P : GE) : AllocatedPoint :=
  let: (x, y, i) := to_coordinates P in (x, y, b2f i).

(** A computation that returns one value, in an interpretation given by [returns].
    Only the selection is a law for every triple of variables: the group operations
    compute on the variables of group elements, and a multiplication on those of a
    point other than the identity. *)
Class GadgetLaws (M : Type -> Type) (G : Gadgets M)
    (returns : forall A : Type, M A -> A -> Prop) : Prop := {
  le_bits_to_numP : forall bs : seq bool,
    returns _ (le_bits_to_num (map b2f bs)) (num_of_bits (map b2f bs));
  to_bits_le_strictP : forall x, returns _ (to_bits_le_strict x) (map b2f (to_le_bits x));
  alloc_zeroP : returns _ alloc_zero 0;
  sponge_circuitP : forall pc ops ds xs,
    returns _ (sponge_circuit pc ops ds xs) (sponge pc ops ds xs);
  point_defaultP : returns _ point_default (repr 0);
  select_pointP : forall (p : AllocatedPoint) b,
    returns _ (select_point_or_infinity p (b2f b)) (if b then p else repr 0);
  point_addP : forall P Q : GE, returns _ (point_add (repr P) (repr Q)) (repr (P + Q));
  point_negateP : forall P : GE, returns _ (point_negate (repr P)) (repr (- P));
  point_scalar_mulP : forall (P : GE) (bs : seq bool), P != 0 ->
    returns _ (point_scalar_mul (repr P) (map b2f bs)) (repr (scalar_from (bitsN bs) *: P));
  point_alloc_constantP : forall (P : GE), P != 0 ->
    returns _ (point_alloc_constant (to_coordinates P).1 0) (repr P)
}.

Definition proves (A : Type) (m : proving A) (a : A) : Prop := m = Ok (a, true).
Definition forces (A : Type) (m : satisfying A) (a : A) : Prop := forall x, m x -> x = a.

(** Laws of the field that the circuit relies on: integers below [2^72] have
    distinct images, the canonical bits of an integer recompose it, and a challenge
    has the same value in both fields of the cycle. *)
Class CircuitFieldLaws (SB : ScalarBits E) : Prop := {
  base_from_inj : forall a b, (a < 2 ^ 72)%num -> (b < 2 ^ 72)%num ->
    base_from a = base_from b -> a = b;
  weight_bits_fit : forall x : Base, (WEIGHT_BITS <= size (to_le_bits x))%N;
  recompose : forall (bs : seq bool) (x : Base),
    (size bs <= maxn WEIGHT_BITS NUM_CHALLENGE_BITS)%N ->
    x = num_of_bits (map b2f bs) -> take (size bs) (to_le_bits x) = bs;
  challenge_switch : forall bs : seq bool, (size bs <= NUM_CHALLENGE_BITS)%N ->
    field_switch (num_of_bits (map b2f bs)) = scalar_from (bitsN bs);
  scalar_bits_fit : forall s : Scalar, (SCALAR_NUM_BITS <= size (scalar_to_le_bits s))%N;
  scalar_recompose : forall s : Scalar,
    scalar_from (bitsN (take SCALAR_NUM_BITS (scalar_to_le_bits s))) = s
}.

(** What the constraints of [AllocatedPoint::alloc] and [check_on_curve] impose, and what
    an honest prover's point satisfies.  The curve equation is multiplied by
    [1 - is_infinity], so nothing is said of the coordinates of a flagged point. *)
Class PointSound (G : Gadgets satisfying) : Prop := {
  point_alloc_flag : forall c p, point_alloc c p -> point_inf p = 0 \/ point_inf p = 1;
  check_on_curve_sound : forall p, point_inf p = 0 -> check_on_curve p tt ->
    exists P : GE, p = repr P
}.

Class PointComplete (G : Gadgets proving) : Prop := {
  point_alloc_ok : forall P : GE, proves (point_alloc (to_coordinates P)) (repr P);
  check_on_curve_ok : forall P : GE, proves (check_on_curve (repr P)) tt
}.
End Values.

Section ValueFacts.
Context {E : CurveEngine} {L : CurveLaws E}.

Lemma b2f_or (x : Base) : x = 0 \/ x = 1 -> exists b, x = b2f b.
Proof. by case=> ->; [exists false|exists true]. Qed.

Lemma base_from0 : base_from N0 = 0.
Proof. by rewrite base_fromE. Qed.

Lemma base_fromD a b : base_from (a + b)%num = base_from a + base_from b.
Proof. by rewrite !base_fromE N2Nat.inj_add natrD. Qed.

Lemma base_from1 : base_from 1%num = 1.
Proof. by rewrite base_fromE. Qed.

Lemma base_from_b2f (b : bool) : base_from (if b then 1 else 0)%num = b2f b.
Proof. by case: b; rewrite ?base_from1 ?base_from0. Qed.

Lemma bitsN_cons b bs :
  bitsN (b :: bs) = ((if b then 1 else 0) + (bitsN bs + bitsN bs))%num.
Proof.
have -> : bitsN (b :: bs) = ((if b then 1 else 0) + 2 * bitsN bs)%num by [].
by case: b; lia.
Qed.

Lemma num_of_bitsE bs : num_of_bits (map b2f bs) = base_from (bitsN bs).
Proof.
elim: bs => [|b bs IH]; first by rewrite /= base_from0.
by rewrite bitsN_cons !base_fromD base_from_b2f -IH.
Qed.

Lemma bitsN_lt bs : (bitsN bs < 2 ^ N.of_nat (size bs))%num.
Proof.
elim: bs => [|b bs IH] //; rewrite [size _]/= Nat2N.inj_succ N.pow_succ_r' bitsN_cons.
by case: b; lia.
Qed.

(** The truncation loop of [truncate_to_challenge]. *)
Lemma truncation_loop bs (acc coeff : Base) :
  (foldl (fun (st : Base * Base) (bit : bool) =>
            let: (acc, coeff) := st in
            (if bit then acc + coeff else acc, coeff + coeff)) (acc, coeff) bs).1 =
  acc + coeff * num_of_bits (map b2f bs).
Proof.
elim: bs acc coeff => [|b bs IH] acc coeff /=; first by rewrite mulr0 addr0.
rewrite IH -/(num_of_bits _) mulrDr mulrDl -mulrDr; case: b => /=.
  by rewrite mulr1 addrA.
by rewrite mulr0 add0r.
Qed.

Lemma challenge_of_bits pk r msg : challenge_of pk r msg =
  num_of_bits (map b2f (take NUM_CHALLENGE_BITS (to_le_bits
    (poseidon_native shared_constants DS_CHALLENGE (encode_point pk ++ encode_point r ++ msg))))).
Proof. by rewrite /challenge_of truncation_loop mul1r add0r. Qed.

(** The three variables of a point are its encoding. *)
Lemma repr_encode (P : GE) :
  [:: point_x (repr P); point_y (repr P); point_inf (repr P)] = encode_point P.
Proof. by rewrite /repr /encode_point; case: to_coordinates => [[x y] i]. Qed.

Lemma repr_inf (P : GE) : point_inf (repr P) = b2f (P == 0).
Proof.
by rewrite /repr -to_coordinates_inf; case: to_coordinates => [[x y] i].
Qed.

Lemma b2f_eq0 b : (b2f b == 0) = ~~ b.
Proof. by case: b; rewrite /b2f ?eqxx ?oner_eq0. Qed.
End ValueFacts.
