(* ===== verification/CircuitSound.v ===== *)
(** * Soundness of the rotation circuit

    Any assignment that satisfies the constraints of [synthesize] contains an
    address book that hashes to the input state, with a strict majority that
    signed the output state. *)
From Stdlib Require List.
From Stdlib Require Import Strings.Byte Strings.String NArith Lia.
From S2P Require Import Prelude SeqFacts WrapsErrors WrapsEngine WrapsUtils Schnorr Multisig.
From S2P Require Import AddressBook Signing SigningFacts Circuit CircuitFacts.
From mathcomp Require Import ssreflect ssrfun ssrbool eqtype ssrnat seq.
From mathcomp Require Import fintype tuple bigop ssralg ring_tactic.
Import GRing.Theory.
Set Warnings "-rewrite-rw".
Set Implicit Arguments.
Unset Strict Implicit.
Unset Printing Implicit Defensive.
Local Open Scope ring_scope.
Local Open Scope circuit_scope.

Section Sound.
Context {E : CurveEngine} {L : CurveLaws E} {SB : ScalarBits E} {FL : CircuitFieldLaws SB}.
Context {G : Gadgets satisfying} {GL : GadgetLaws G forces} {PS : PointSound G}.

(** The laws of the gadgets, as inversion lemmas. *)
Lemma le_bits_to_num_sat bs x : le_bits_to_num (map b2f bs) x -> x = num_of_bits (map b2f bs).
Proof. exact: (le_bits_to_numP (GadgetLaws := GL)). Qed.

Lemma select_point_sat p b x :
  select_point_or_infinity p (b2f b) x -> x = if b then p else repr 0.
Proof. exact: (select_pointP (GadgetLaws := GL)). Qed.

Lemma point_add_sat P Q x : point_add (repr P) (repr Q) x -> x = repr (P + Q).
Proof. exact: (point_addP (GadgetLaws := GL)). Qed.

Lemma scalar_mul_sat P bs x : P != 0 -> point_scalar_mul (repr P) (map b2f bs) x ->
  x = repr (scalar_from (bitsN bs) *: P).
Proof. move=> P0; exact: (point_scalar_mulP (GadgetLaws := GL) _ P0). Qed.

Lemma sponge_sat pc ops ds xs x : sponge_circuit pc ops ds xs x -> x = sponge pc ops ds xs.
Proof. exact: (sponge_circuitP (GadgetLaws := GL)). Qed.

Lemma alloc_zero_sat x : alloc_zero x -> x = 0.
Proof. exact: (alloc_zeroP (GadgetLaws := GL)). Qed.

Lemma negate_sat P x : point_negate (repr P) x -> x = repr (- P).
Proof. exact: (point_negateP (GadgetLaws := GL)). Qed.

Lemma strict_bits_sat x bits : to_bits_le_strict x bits -> bits = map b2f (to_le_bits x).
Proof. exact: (to_bits_le_strictP (GadgetLaws := GL)). Qed.

Lemma generator_sat x : point_alloc_constant (to_coordinates gen).1 0 x -> x = repr gen.
Proof. exact/(point_alloc_constantP (GadgetLaws := GL))/gen_neq0. Qed.

Lemma default_sat x : point_default x -> x = repr 0.
Proof. exact: (point_defaultP (GadgetLaws := GL)). Qed.

Lemma collect_sat {A B : Type} (f : A -> satisfying B) l xs :
  collect f l xs -> List.Forall2 f l xs.
Proof.
elim: l xs => [|a l IH] xs /=; first by move=> ->; constructor.
by case=> b fb [bs /IH H ->]; constructor.
Qed.

Lemma collect_size {A B : Type} (f : A -> satisfying B) l xs :
  collect f l xs -> size xs = size l.
Proof. by move/collect_sat; elim=> //= ? ? ? ? _ _ ->. Qed.

(** A loop whose body determines its value is a map. *)
Lemma collect_forces {A B : Type} (f : A -> satisfying B) (g : A -> B) l xs :
  List.Forall (fun a => forces (f a) (g a)) l -> collect f l xs -> xs = map g l.
Proof.
move=> H /collect_sat C; elim: C H => //= a b l' xs' fab _ IH H.
by inversion_clear H; rewrite IH // (H0 _ fab).
Qed.

Lemma alloc_bits_sat bs xs :
  alloc_bits bs xs -> exists2 cs, size cs = size bs & xs = map b2f cs.
Proof.
move/collect_sat; elim=> [|b x bs' xs' /b2f_or [c ->] _ [cs sz ->]]; first by exists [::].
by exists (c :: cs) => //=; rewrite sz.
Qed.

Lemma enforce_equal_sat a b u : enforce_equal a b u -> a = b.
Proof. by rewrite /enforce_equal /= mulr1 => /eqP; rewrite subr_eq0 => /eqP. Qed.

Lemma sum_of_sat terms s : sum_of terms s -> s = \sum_(t <- terms) t.
Proof.
case=> x _ [_ /= e ->]; rewrite mulr1 in e.
by rewrite -e (fold_add_sum id) add0r.
Qed.

Lemma enforce_range_sat v n u : enforce_range v n u ->
  exists2 k, v = base_from k & (k < 2 ^ N.of_nat n)%num.
Proof.
case=> bits lE [xs /alloc_bits_sat [cs sz ->]] [r /le_bits_to_num_sat -> /enforce_equal_sat ->].
have szb : size bits = n by rewrite (size_mapM lE) size_iota.
exists (bitsN cs); first exact: num_of_bitsE.
by rewrite -szb -sz; apply: bitsN_lt.
Qed.

Lemma enforce_greater_sat a b n u : enforce_greater_than a b n u ->
  exists2 k, a = b + 1 + base_from k & (k < 2 ^ N.of_nat n)%num.
Proof.
rewrite /enforce_greater_than => -[d _ [w e H]].
have [k dE lt] := enforce_range_sat H; exists k => //.
move: e; rewrite /= mulr1 => e; by rewrite -dE -e -[a - b - 1]addrA -opprD addrC subrK.
Qed.

(** ** Seats of the circuit

    The seat of a malicious prover need not stand for an entry of a book: when its flag
    is set its coordinates are free. *)
Record seat : Type := MkSeat {
  seat_key : AllocatedPoint;
  seat_weight : N;
  seat_id : Base
}.

Definition seat_vars (s : seat) : AllocatedPoint * Base * Base :=
  (seat_key s, base_from (seat_weight s), seat_id s).
Definition seat_flagged (s : seat) : bool := point_inf (seat_key s) != 0.
Definition seat_effective (s : seat) : N := if seat_flagged s then N0 else seat_weight s.

(** What the constraints of one seat impose: a 64-bit weight, and a key that is a point
    other than the identity or has its flag set. *)
Definition well_formed (s : seat) : Prop :=
  (seat_weight s < U64)%num /\
  (point_inf (seat_key s) = 1 \/ exists2 P : GE, P != 0 & seat_key s = repr P).

(** What is hashed, and the two sums of weights. *)
Definition seat_elements (seats : seq seat) : seq Base := circuit_preimage (map seat_vars seats).
Definition seats_total (seats : seq seat) : N := sumN (map seat_effective seats).
Definition seats_named (seats : seq seat) (bs : seq bool) : N :=
  sumN [seq seat_effective sb.1 | sb <- zip seats bs & sb.2].

(** The seat of an entry, and the entries a seat can stand for: nobody looks at the
    coordinates of a flagged seat that does not sign. *)
Definition entry_seat (e : AddressBookEntry) : seat :=
  MkSeat (repr (entry_pk e)) (weight e) (node_id e).
Definition reads_as (sb : seat * bool) (e : AddressBookEntry) : Prop :=
  [/\ node_id e = seat_id sb.1, weight e = seat_weight sb.1 &
      seat_key sb.1 = repr (entry_pk e) \/
      [/\ ~~ sb.2, seat_flagged sb.1 & entry_pk e = 0]].

(** The variables of an address-book entry. *)
Definition entry_vars (e : AddressBookEntry) : AllocatedPoint * Base * Base :=
  seat_vars (entry_seat e).

Lemma alloc_entry_sat e x : alloc_entry e x -> exists2 s, x = seat_vars s & well_formed s.
Proof.
case=> p /point_alloc_flag flag [[] curve] [w _] [_ /enforce_range_sat [k -> lt] [id _ ->]].
exists (MkSeat p k id) => //; split=> //=; case: flag => [f0|]; [right|by left].
have [P pE] := check_on_curve_sound f0 curve; exists P => //.
by rewrite -(b2f_eq0 (P == 0)) -repr_inf -pE f0.
Qed.

Lemma entries_sat ab entries : collect alloc_entry ab entries ->
  exists2 seats, entries = map seat_vars seats & size seats = size ab /\ List.Forall well_formed seats.
Proof.
move/collect_sat; elim=> [|e x l xs /alloc_entry_sat [s -> wf] _ [seats -> [sz al]]].
  by exists [::].
by exists (s :: seats); split=> //=; [rewrite sz|constructor].
Qed.

Lemma preimage_vars ab : circuit_preimage (map entry_vars ab) = book_elements ab.
Proof.
rewrite /circuit_preimage /book_elements -map_comp; congr flatten; apply: eq_map => e /=.
by rewrite -repr_encode.
Qed.

Lemma alloc_effective_sat e0 s : well_formed s ->
  forces (alloc_effective (e0, seat_vars s)) (base_from (seat_effective s)).
Proof.
case=> _ wf x [y _ [_ /= e1 ->]]; rewrite -e1 /seat_effective /seat_flagged.
case: wf => [->|[P P0 ->]]; first by rewrite oner_eq0 subrr mulr0 base_from0.
by rewrite repr_inf (negbTE P0) /b2f eqxx subr0 mulr1.
Qed.

Lemma effectives_sat ab0 seats xs : size ab0 = size seats -> List.Forall well_formed seats ->
  collect alloc_effective (zip ab0 (map seat_vars seats)) xs ->
  xs = [seq base_from (seat_effective s) | s <- seats].
Proof.
move=> sz wf; elim: wf ab0 xs sz => [|s l ws _ IH] [|e0 ab0] xs //.
rewrite [size _]/= [size (_ :: _)]/= => -[sz] [x /(alloc_effective_sat ws) -> [xs' H ->]].
by rewrite (IH _ _ sz H).
Qed.

Lemma alloc_masked_sat s (b : bool) w :
  forces (alloc_masked (s, (b2f b, base_from w))) (base_from (if b then w else N0)).
Proof.
move=> x [y _ [_ /= e ->]]; rewrite -e.
by case: b {e}; rewrite /b2f ?mul1r ?mul0r ?base_from0.
Qed.

Lemma masked_sat (ss bs : seq bool) (seats : seq seat) xs :
  size ss = size seats -> size bs = size seats ->
  collect alloc_masked
    (zip ss (zip (map b2f bs) [seq base_from (seat_effective s) | s <- seats])) xs ->
  xs = [seq base_from (if sb.2 then seat_effective sb.1 else N0) | sb <- zip seats bs].
Proof.
elim: seats ss bs xs => [|e ab IH] [|s ss] [|b bs] xs //.
move=> [s1] [s2] [x /alloc_masked_sat -> [xs' H ->]].
by rewrite (IH _ _ _ s1 s2 H).
Qed.

Lemma base_from_sum (l : seq N) : \sum_(x <- [seq base_from n | n <- l]) x = base_from (sumN l).
Proof.
elim: l => [|n l IH]; first by rewrite /= big_nil base_from0.
by rewrite /= big_cons IH base_fromD.
Qed.

Lemma masked_sum (T : Type) (w : T -> N) l bs :
  sumN [seq if eb.2 then w eb.1 else N0 | eb <- zip l bs] =
  sumN [seq w eb.1 | eb <- zip l bs & eb.2].
Proof. by elim: l bs => [|e l IH] [|b bs] //=; rewrite IH; case: b. Qed.

Lemma masked_weight ab bs : sumN [seq if eb.2 then effective eb.1 else N0 | eb <- zip ab bs] =
  named_weight ab bs.
Proof. exact: masked_sum. Qed.

Lemma seats_named_le seats bs : (seats_named seats bs <= seats_total seats)%num.
Proof.
rewrite /seats_named /seats_total; elim: seats bs => [|s l IH] [|b bs] //=; try lia.
by have := IH bs; case: b => /=; lia.
Qed.

(** 64 weights of 64 bits sum to less than [2^72]. *)
Lemma seats_total_bound seats : List.Forall well_formed seats ->
  (seats_total seats <= N.of_nat (size seats) * U64)%num.
Proof.
elim=> [|s l [lt _] _ IH] //; rewrite /seats_total [size _]/= Nat2N.inj_succ [sumN _]/=.
have : (seat_effective s <= U64)%num by rewrite /seat_effective; case: seat_flagged; lia.
by move: IH; rewrite -/(seats_total l); lia.
Qed.

(** Check 2 forces a strict majority of a total that fits in 64 bits. *)
Lemma check_weights_sat c seats (bs : seq bool) u : size (rc_prev_ab c) = MAX_AB_SIZE ->
  size seats = MAX_AB_SIZE -> size bs = MAX_AB_SIZE -> List.Forall well_formed seats ->
  check_weights c (map seat_vars seats) (map b2f bs) u ->
  (seats_total seats < U64)%num /\ (seats_total seats < 2 * seats_named seats bs)%num.
Proof.
move=> s0 s1 s2 wf [eff]; rewrite -s1 in s0 s2; move/(effectives_sat s0 wf) => ->.
case=> masked /masked_sat -> //; first by rewrite size_tuple.
case=> sw /sum_of_sat; rewrite (map_comp base_from (fun sb => if sb.2 then _ else _)).
rewrite base_from_sum masked_sum -/(seats_named _ _) => -> [tw] /sum_of_sat.
rewrite (map_comp base_from seat_effective) base_from_sum -/(seats_total seats) => -> [w0].
case/enforce_range_sat => t tE ltt [rem _ [w1 remE H]]; rewrite /= mulr1 in remE.
have [k kE ltk] := enforce_greater_sat H.
have bound := seats_total_bound wf; rewrite s1 in bound.
have lew : (seats_named seats bs <= seats_total seats)%num by exact: seats_named_le.
have p64 : (2 ^ N.of_nat WEIGHT_BITS = U64)%num by [].
have p72 : (2 ^ 72 = 256 * U64)%num by [].
have n64 : N.of_nat MAX_AB_SIZE = 64%num by [].
rewrite p64 in ltt ltk; rewrite n64 in bound.
have small x : (x <= 200 * U64)%num -> (x < 2 ^ 72)%num by rewrite p72 /U64; lia.
have tot : seats_total seats = t by apply: base_from_inj tE; apply: small; lia.
have : base_from (seats_named seats bs + seats_named seats bs)%num =
       base_from (seats_total seats + 1 + k)%num.
  by rewrite !base_fromD base_from1 {1}kE -remE; ring.
move/base_from_inj => cmp; split; first by rewrite tot.
have {}cmp : (seats_named seats bs + seats_named seats bs)%num = (seats_total seats + 1 + k)%num.
  by apply: cmp; apply: small; move: U64 bound lew tot ltt ltk => U; lia.
by lia.
Qed.

(** A selected key is a group element. *)
Definition keyed (kb : AllocatedPoint * bool) (P : GE) : Prop := kb.2 -> kb.1 = repr P.

(** The aggregation loop adds the selected keys, when these are group elements. *)
Lemma aggregate_keys_sat Q (l : seq (AllocatedPoint * bool)) (Ps : seq GE) x :
  List.Forall2 keyed l Ps ->
  aggregate_keys (repr Q) [seq (kb.1, b2f kb.2) | kb <- l] x ->
  x = repr (Q + \sum_(pb <- zip Ps (unzip2 l)) (if pb.2 then pb.1 else 0)).
Proof.
move=> H; elim: H Q => [|[k b] P l' Ps' /= kP _ IH] Q /=; first by rewrite big_nil addr0.
case=> m /select_point_sat; have -> : (if b then k else repr 0) = repr (if b then P else 0).
  by case: b kP => // /(_ isT) /= ->.
by move=> -> [q /point_add_sat -> /IH ->]; rewrite big_cons addrA.
Qed.

Lemma selected_sum ab (bs : seq bool) : \sum_(pb <- zip (map entry_pk ab) bs)
    (if pb.2 then pb.1 else 0) =
  joint_key (pmap (fun es : AddressBookEntry * bool =>
    if es.2 && ~~ is_identity (entry_pk es.1) then Some (entry_pk es.1) else None) (zip ab bs)).
Proof.
rewrite /joint_key; elim: ab bs => [|e ab IH] [|b bs] /=; rewrite ?big_nil //.
rewrite big_cons IH is_identityE; case: b => /=; last by rewrite add0r.
by case: eqP => [->|_] /=; rewrite ?add0r // big_cons.
Qed.

(** Check 3 forces the Schnorr equation for any group element that the joint key
    stands for. *)
Lemma check_signature_sat c p h0 h1 u : rc_pc c = shared_constants ->
  check_signature c p h0 h1 u ->
  exists sig, forall pk : GE, pk != 0 -> p = repr pk -> schnorr_ok pk (h0, h1) sig.
Proof.
move=> pcE [s_nat _ [s_vars /alloc_bits_sat [sbs _ ->]]] [e_nat eN [e_vars]].
move=> /alloc_bits_sat [ebs esz ->] [e /le_bits_to_num_sat ->].
have szE : size ebs = NUM_CHALLENGE_BITS by rewrite esz (size_mapM eN) size_iota.
case gE: (to_coordinates gen) => [[gx gy] gi] [w0 _ [zero /alloc_zero_sat -> [g]]].
rewrite -[(gx, gy)]/((gx, gy, gi).1) -gE => /generator_sat ->.
case=> sg /(scalar_mul_sat gen_neq0) -> [epk mulE [neg negE]].
case=> r addE [h /sponge_sat -> [ee [bits /strict_bits_sat ->]]].
rewrite /= size_map challenge_bits_fit => -[low] [<-].
rewrite -map_take => /le_bits_to_num_sat -> H.
have eq := enforce_equal_sat (u := tt) H.
exists (MkSignature (num_of_bits (map b2f ebs)) (scalar_from (bitsN sbs))) => pk pk0 pE.
move: mulE negE addE eq; rewrite pE => /(scalar_mul_sat pk0) -> /negate_sat -> /point_add_sat -> eq.
rewrite /schnorr_ok [sig_s _]/= [sig_e _]/= challenge_switch ?szE // challenge_of_bits eq pcE.
by rewrite -!repr_encode.
Qed.

Lemma key_vars ab bs : zip [seq e.1.1 | e <- map entry_vars ab] (map b2f bs) =
  [seq (repr pb.1, b2f pb.2) | pb <- zip (map entry_pk ab) bs].
Proof. by elim: ab bs => [|e ab IH] [|b bs] //=; rewrite IH. Qed.

Lemma seat_keys seats bs : zip [seq e.1.1 | e <- map seat_vars seats] (map b2f bs) =
  [seq (kb.1, b2f kb.2) | kb <- zip (map seat_key seats) bs].
Proof. by elim: seats bs => [|e l IH] [|b bs] //=; rewrite IH. Qed.

(** ** Books behind seats *)

(** A seat and an entry it stands for carry the same weight. *)
Lemma reads_effective sb e : reads_as sb e -> seat_effective sb.1 = effective e.
Proof.
case=> _ wE kE; rewrite /seat_effective /effective is_identityE wE.
case: kE => [kE|[_ fl P0]]; last by rewrite fl P0 eqxx.
by rewrite /seat_flagged kE repr_inf b2f_eq0 negbK.
Qed.

Lemma reads_sums seats (bs : seq bool) ab : size bs = size seats ->
  List.Forall2 reads_as (zip seats bs) ab ->
  [/\ total_weight ab = seats_total seats, named_weight ab bs = seats_named seats bs &
      List.Forall2 keyed (zip (map seat_key seats) bs)
        (map entry_pk ab)].
Proof.
elim: seats bs ab => [|s l IH] [|b bs] ab //= sz H; inversion H as [|x e xs ab' re fl]; subst.
  by split.
case: sz => /IH /(_ fl) [t n f]; have eE := reads_effective re; split.
- by rewrite total_weight_cons t -eE.
- by move: n; rewrite /named_weight /seats_named /=; case: (b) => //= ->; rewrite -eE.
- by constructor=> //; rewrite /keyed /= => bT; case: re => _ _ [//|[]]; rewrite /= bT.
Qed.

(** The seats of a book's own preimage stand for that book, whoever signs. *)
Lemma preimage_reads seats (bs : seq bool) ab : size bs = size seats ->
  List.Forall well_formed seats -> all (fun e => weight e <? U64)%num ab ->
  book_elements ab = seat_elements seats -> List.Forall2 reads_as (zip seats bs) ab.
Proof.
move=> sz wf; elim: wf bs ab sz => [|s l [lt _] _ IH] [|b bs] [|e ab] //= [sz].
case/andP=> /N.ltb_lt lte wts; rewrite /seat_elements /circuit_preimage /book_elements /=.
rewrite -repr_encode => -[idE xE yE iE wE] fE; constructor; last exact: IH.
split=> //=.
  have small x : (x < U64)%num -> (x < 2 ^ 72)%num.
    by rewrite (_ : 2 ^ 72 = 256 * U64)%num // /U64; lia.
  by apply: base_from_inj wE; exact: small.
left; case: (seat_key s) xE yE iE => [[x y] i]; case: (repr (entry_pk e)) => [[x' y'] i'].
by rewrite /point_x /point_y /point_inf /= => -> -> ->.
Qed.

(** Seats whose signing members have no free coordinates stand for some book. *)
Definition canonical (seats : seq seat) (bs : seq bool) : Prop :=
  List.Forall (fun sb : seat * bool => sb.2 -> seat_flagged sb.1 -> seat_key sb.1 = repr 0)
    (zip seats bs).

Lemma canonical_reads seats (bs : seq bool) : List.Forall well_formed seats ->
  canonical seats bs -> exists ab, List.Forall2 reads_as (zip seats bs) ab.
Proof.
move=> wf; elim: wf bs => [|s l [_ ws] _ IH] [|b bs] can; try by exists [::]; constructor.
inversion can as [|x xs cs ct]; subst; have [ab rd] := IH _ ct.
pose entry P : AddressBookEntry := (seat_id s, (P, MkSchnorrPoK 0 0 0), seat_weight s).
have [P re] : exists P, reads_as (s, b) (entry P).
  case: ws => [f1|[P _ kE]]; last first.
    by exists P; split=> //; left.
  have fl : seat_flagged s by rewrite /seat_flagged f1 oner_eq0.
  by exists 0; split=> //; case: (b) cs => /= cs; [left; exact: cs|right].
by exists (entry P :: ab); constructor.
Qed.

(** What one satisfied step establishes: 64 seats behind the input state, a strict
    majority of whose weight is named, and a signature on the output state under the
    joint key of any book that the seats stand for: of the book whose own preimage was
    hashed, and of some book when no signing seat has free coordinates. *)
Record authorisation (z_in z_out : seq Base) (seats : seq seat) (bv : BitVector)
    (sig : Signature) : Prop := {
  au_size : size seats = MAX_AB_SIZE;
  au_seats : List.Forall well_formed seats;
  au_hash : poseidon_native shared_constants DS_ADDRESS_BOOK (seat_elements seats) = nth 0 z_in 0;
  au_total : (seats_total seats < U64)%num;
  au_majority : (seats_total seats < 2 * seats_named seats bv)%num;
  au_out : size z_out = 2;
  au_signed : forall ab, List.Forall2 reads_as (zip seats bv) ab ->
    entitled ab bv (nth 0 z_out 0, nth 0 z_out 1) sig;
  au_book : forall ab, all (fun e => weight e <? U64)%num ab ->
    book_elements ab = seat_elements seats ->
    entitled ab bv (nth 0 z_out 0, nth 0 z_out 1) sig;
  au_canonical : canonical seats bv -> exists2 ab, List.Forall2 reads_as (zip seats bv) ab &
    entitled ab bv (nth 0 z_out 0, nth 0 z_out 1) sig
}.

Definition authorised (z_in z_out : seq Base) : Prop :=
  exists seats bv sig, authorisation z_in z_out seats bv sig.

Lemma synthesize_sat c z_in z_out : rc_pc c = shared_constants ->
  synthesize c z_in z_out -> authorised z_in z_out.
Proof.
move=> pcE [w0 g2 [w1 g64 [entries /entries_sat [seats -> [sz wf]]]]].
have sz2 : size z_in = 2 by apply/eqP; move: g2; rewrite /=; case: eqP.
have sz64 : size (rc_prev_ab c) = MAX_AB_SIZE by apply/eqP; move: g64; rewrite /=; case: eqP.
case=> h /sponge_sat -> [z0 z0E [w2]]; rewrite sz64 in sz.
move=> /(enforce_equal_sat (u := w2)) hE [bits /alloc_bits_sat [bs szb ->]].
rewrite size_tuple in szb; case=> w3 /(check_weights_sat sz64 sz szb wf) [tw maj].
case=> start /default_sat -> [pk]; rewrite seat_keys => aggE [w4 /= infE].
case=> h0 _ [h1 _ [w5 /(check_signature_sat pcE) [sig ok] ->]].
pose bv : BitVector := Tuple (introT eqP szb); exists seats, bv, sig.
have signed ab : List.Forall2 reads_as (zip seats bv) ab -> entitled ab bv (h0, h1) sig.
  move=> rd; have [|tE nE kE] := reads_sums _ rd; first by rewrite szb sz.
  have pkE := aggregate_keys_sat kE aggE.
  rewrite add0r unzip2_zip ?size_map ?szb ?sz // selected_sum in pkE.
  have j0 : joint ab bv != 0 by move: infE; rewrite mulr1 pkE repr_inf => /eqP; rewrite b2f_eq0.
  by apply/and3P; split=> //; [apply/N.ltb_lt; rewrite tE nE|exact: ok].
have szE : size bs = size seats by rewrite szb sz.
split=> // [|ab wts bE|can].
- move: z0E; rewrite (vec_get_lt _ 0) ?sz2 // => -[->].
  by rewrite -hE pcE /poseidon_native.
- exact/signed/preimage_reads.
- by have [ab rd] := canonical_reads wf can; exists ab => //; exact: signed.
Qed.

(** C11: soundness of the rotation circuit.  However a prover assigns the variables of
    [synthesize], if every constraint holds then 64 seats hash to the first element of
    the input state, each with a 64-bit weight and a key that is a point or has its
    infinity flag set (with any coordinates); the named seats hold a strict majority of
    a total below 2^64; and the output state is signed under the joint key of any book
    the seats stand for, in particular of the book whose own preimage was hashed, and
    of one whenever no signing seat is flagged with coordinates of its own. *)
Theorem circuit_sound c z_in z_out : rc_pc c = shared_constants ->
  synthesize c z_in z_out -> authorised z_in z_out.
Proof. exact: synthesize_sat. Qed.
End Sound.
