(* ===== verification/CircuitComplete.v ===== *)
(** * Completeness of the rotation circuit

    The values an honest prover assigns satisfy every constraint whenever the
    native checks pass, and the circuit outputs the signed message. *)
From Stdlib Require List.
From Stdlib Require Import Strings.Byte Strings.String NArith Lia.
From S2P Require Import Prelude SeqFacts WrapsErrors WrapsEngine WrapsUtils Schnorr Multisig.
From S2P Require Import AddressBook Signing SigningFacts Circuit CircuitFacts CircuitSound.
From mathcomp Require Import ssreflect ssrfun ssrbool eqtype ssrnat seq.
From mathcomp Require Import fintype tuple bigop ssralg ring_tactic.
Import GRing.Theory.
Set Warnings "-rewrite-rw".
Set Implicit Arguments.
Unset Strict Implicit.
Unset Printing Implicit Defensive.
Local Open Scope ring_scope.
Local Open Scope circuit_scope.

Create HintDb proving.

Section Steps.
Context {E : CurveEngine}.

Lemma proves_bind A B (m : proving A) (k : A -> proving B) a b :
  proves m a -> proves (k a) b -> proves (bindM m k) b.
Proof. by rewrite /proves /= => -> /= ->. Qed.

Lemma proves_ret A (a : A) : proves (ret a) a.
Proof. by []. Qed.

Lemma proves_lift A (r : result A) a : r = Ok a -> proves (Circuit.lift r) a.
Proof. by rewrite /proves /= => ->. Qed.

Lemma proves_alloc v : proves (alloc v) v.
Proof. by []. Qed.

Lemma proves_enforce a b c : a * b = c -> proves (enforce a b c) tt.
Proof. by rewrite /proves /= => ->; rewrite eqxx. Qed.

Lemma proves_collect A B (f : A -> proving B) (g : A -> B) l :
  List.Forall (fun a => proves (f a) (g a)) l -> proves (collect f l) (map g l).
Proof.
elim=> [|a l' fa _ IH] //; apply: proves_bind fa _; apply: proves_bind IH _.
exact: proves_ret.
Qed.

Lemma proves_bits bs : proves (alloc_bits bs) (map b2f bs).
Proof. by apply: proves_collect; elim: bs => [|b bs IH]; constructor. Qed.

Lemma proves_equal a b : a = b -> proves (enforce_equal a b) tt.
Proof. by move=> ->; apply: proves_enforce; rewrite subrr mul0r. Qed.

Lemma proves_sum terms : proves (sum_of terms) (\sum_(t <- terms) t).
Proof.
have sumE : foldl +%R 0 terms = \sum_(t <- terms) t by rewrite (fold_add_sum id) add0r.
rewrite /sum_of sumE; apply: proves_bind (proves_alloc _) _.
by apply: (proves_bind (a := tt)); [apply: proves_enforce; rewrite mulr1|exact: proves_ret].
Qed.
End Steps.

#[export] Hint Resolve proves_ret proves_alloc proves_bits proves_sum : proving.

(** Every integer below [2^n] has [n] bits. *)
Lemma bits_of_N n k : (k < 2 ^ N.of_nat n)%num -> exists2 bs, size bs = n & bitsN bs = k.
Proof.
elim: n k => [|n IH] k; first by case: k => [|p] lt; [exists [::]|exfalso; move: lt; rewrite N.pow_0_r; lia].
rewrite Nat2N.inj_succ N.pow_succ_r' => lt.
have lt2 : (N.div2 k < 2 ^ N.of_nat n)%num.
  by rewrite N.div2_div; apply: N.Div0.div_lt_upper_bound.
have [bs sz bE] := IH _ lt2.
exists (N.odd k :: bs); first by rewrite /= sz.
rewrite bitsN_cons bE; have := N.div2_odd k; case: N.odd; rewrite /N.b2n; lia.
Qed.

Section Complete.
Context {E : CurveEngine} {L : CurveLaws E} {SB : ScalarBits E} {FL : CircuitFieldLaws SB}.
Context {G : Gadgets proving} {GL : GadgetLaws G proves} {PC : PointComplete G}.

Lemma proves_range k : (k < U64)%num -> proves (enforce_range (base_from k) WEIGHT_BITS) tt.
Proof.
move=> lt; have [bs sz kE] := bits_of_N (n := WEIGHT_BITS) lt.
have vE : base_from k = num_of_bits (map b2f bs) by rewrite num_of_bitsE kE.
have bE : take WEIGHT_BITS (to_le_bits (base_from k)) = bs.
  by rewrite -sz; apply: recompose vE; rewrite sz leq_max leqnn.
apply: proves_bind; first by apply/proves_lift/le_bits_ofE/weight_bits_fit.
rewrite bE; apply: proves_bind (proves_bits _) _.
by apply: proves_bind (le_bits_to_numP (GadgetLaws := GL) _) _; apply: proves_equal.
Qed.

Lemma proves_greater a b : (b < a)%num -> (a < U64)%num ->
  proves (enforce_greater_than (base_from a) (base_from b) WEIGHT_BITS) tt.
Proof.
move=> lt lta; have dE : base_from a - base_from b - 1 = base_from (a - b - 1)%num.
  have -> : base_from a = base_from ((a - b - 1) + b + 1)%num by congr base_from; lia.
  by rewrite !base_fromD base_from1; ring.
rewrite /enforce_greater_than dE; apply: proves_bind (proves_alloc _) _.
apply: (proves_bind (a := tt)); first by apply: proves_enforce; rewrite mulr1.
by apply: proves_range; lia.
Qed.

Lemma proves_entry e : (weight e < U64)%num -> proves (alloc_entry e) (entry_vars e).
Proof.
move=> lt; apply: proves_bind (point_alloc_ok _) _; apply: proves_bind (check_on_curve_ok _) _.
apply: proves_bind (proves_alloc _) _; apply: proves_bind (proves_range lt) _.
by apply: proves_bind (proves_alloc _) _.
Qed.

Lemma proves_entries ab : all (fun e => weight e <? U64)%num ab ->
  proves (collect alloc_entry ab) (map entry_vars ab).
Proof.
move=> wts; apply: proves_collect; elim: ab wts => [|e ab IH] /=; first by constructor.
by case/andP=> /N.ltb_lt lt /IH H; constructor => //; apply: proves_entry.
Qed.

Lemma proves_effective e :
  proves (alloc_effective (e, entry_vars e)) (base_from (effective e)).
Proof.
rewrite /alloc_effective /entry_vars /seat_vars [seat_key _]/= repr_inf is_identityE.
have -> : (if entry_pk e == 0 then 0 else base_from (weight e)) = base_from (effective e).
  by rewrite /effective is_identityE; case: eqP; rewrite ?base_from0.
apply: proves_bind (proves_alloc _) _; apply: (proves_bind (a := tt)); last exact: proves_ret.
apply: proves_enforce; rewrite /effective is_identityE.
by case: eqP; rewrite /b2f ?subrr ?mulr0 ?base_from0 // subr0 mulr1.
Qed.

Lemma proves_effectives ab : proves (collect alloc_effective (zip ab (map entry_vars ab)))
  [seq base_from (effective e) | e <- ab].
Proof.
elim: ab => [|e ab IH] //; apply: proves_bind (proves_effective e) _.
by apply: proves_bind IH _.
Qed.

Lemma proves_masked (b : bool) w :
  proves (alloc_masked (b, (b2f b, base_from w))) (base_from (if b then w else N0)).
Proof.
have -> : base_from (if b then w else N0) = if b then base_from w else 0.
  by case: b; rewrite ?base_from0.
apply: proves_bind (proves_alloc _) _; apply: (proves_bind (a := tt)); last exact: proves_ret.
by apply: proves_enforce; case: b; rewrite /b2f ?mul1r ?mul0r.
Qed.

Lemma proves_maskeds ab (bs : seq bool) : size bs = size ab ->
  proves (collect alloc_masked (zip bs (zip (map b2f bs) [seq base_from (effective e) | e <- ab])))
    [seq base_from (if eb.2 then effective eb.1 else N0) | eb <- zip ab bs].
Proof.
elim: ab bs => [|e ab IH] [|b bs] // [sz]; apply: proves_bind (proves_masked b _) _.
by apply: proves_bind (IH _ sz) _.
Qed.

Lemma proves_weights c : size (rc_prev_ab c) = MAX_AB_SIZE ->
  (total_weight (rc_prev_ab c) < U64)%num ->
  (total_weight (rc_prev_ab c) < 2 * named_weight (rc_prev_ab c) (rc_bitvector c))%num ->
  proves (check_weights c (map entry_vars (rc_prev_ab c)) (map b2f (rc_bitvector c))) tt.
Proof.
set ab := rc_prev_ab c; set bv := rc_bitvector c => sz ltT maj.
apply: proves_bind (proves_effectives _) _; apply: proves_bind (proves_maskeds _) _.
  by rewrite size_tuple sz.
apply: proves_bind (proves_sum _) _; apply: proves_bind (proves_sum _) _.
rewrite (map_comp base_from (fun eb : AddressBookEntry * bool => if eb.2 then _ else _)).
rewrite (map_comp base_from effective) !base_from_sum masked_weight -/(total_weight ab).
have le : (named_weight ab bv <= total_weight ab)%num by exact: named_weight_le.
have remE : base_from (total_weight ab) - base_from (named_weight ab bv) =
            base_from (total_weight ab - named_weight ab bv)%num.
  by rewrite -{1}(N.sub_add _ _ le) base_fromD addrK.
apply: proves_bind (proves_range ltT) _; apply: proves_bind (proves_alloc _) _.
apply: (proves_bind (a := tt)); first by apply: proves_enforce; rewrite mulr1.
rewrite remE; apply: proves_greater.
  by move: maj le; set T := total_weight _; set n := named_weight _ _; clear; lia.
exact: N.le_lt_trans le ltT.
Qed.

Lemma proves_keys Q (l : seq (GE * bool)) :
  proves (aggregate_keys (repr Q) [seq (repr pb.1, b2f pb.2) | pb <- l])
    (repr (Q + \sum_(pb <- l) (if pb.2 then pb.1 else 0))).
Proof.
elim: l Q => [|[P b] l IH] Q /=; first by rewrite big_nil addr0; exact: proves_ret.
apply: proves_bind (select_pointP (GadgetLaws := GL) _ _) _.
have -> : (if b then repr P else repr 0) = repr (if b then P else 0) by case: b.
by apply: proves_bind (point_addP (GadgetLaws := GL) _ _) _; rewrite big_cons addrA; apply: IH.
Qed.

Lemma proves_signature c (pk : GE) h0 h1 : rc_pc c = shared_constants -> pk != 0 ->
  schnorr_ok pk (h0, h1) (rc_sig c) -> proves (check_signature c (repr pk) h0 h1) tt.
Proof.
set sig := rc_sig c => pcE pk0 /eqP ok.
have [bs sz eE] : exists2 bs, size bs = NUM_CHALLENGE_BITS & sig_e sig = num_of_bits (map b2f bs).
  rewrite -ok challenge_of_bits; eexists; last by [].
  by rewrite size_takel // challenge_bits_fit.
have bE : take NUM_CHALLENGE_BITS (to_le_bits (sig_e sig)) = bs.
  by rewrite -sz; apply: recompose eE; rewrite sz leq_max leqnn orbT.
apply: proves_bind; first by apply/proves_lift/collect_prefix/scalar_bits_fit.
apply: proves_bind (proves_bits _) _.
apply: proves_bind; first by apply/proves_lift/le_bits_ofE/challenge_bits_fit.
rewrite bE; apply: proves_bind (proves_bits _) _.
apply: proves_bind (le_bits_to_numP (GadgetLaws := GL) _) _; rewrite -eE.
case gE: (to_coordinates gen) => [[gx gy] gi].
have gi0 : gi = false.
  by have := @to_coordinates_inf E L gen; rewrite gE (negbTE gen_neq0).
apply: (proves_bind (a := tt)); first by apply: proves_lift; rewrite gi0.
apply: proves_bind (alloc_zeroP (GadgetLaws := GL)) _.
have -> : (gx, gy) = (to_coordinates gen).1 by rewrite gE.
apply: proves_bind (point_alloc_constantP (GadgetLaws := GL) gen_neq0) _.
apply: proves_bind (point_scalar_mulP (GadgetLaws := GL) _ gen_neq0) _.
apply: proves_bind (point_scalar_mulP (GadgetLaws := GL) _ pk0) _.
apply: proves_bind (point_negateP (GadgetLaws := GL) _) _.
apply: proves_bind (point_addP (GadgetLaws := GL) _ _) _.
apply: proves_bind (sponge_circuitP (GadgetLaws := GL) _ _ _ _) _.
apply: (proves_bind (a := sig_e sig)); last exact: proves_equal.
apply: proves_bind (to_bits_le_strictP (GadgetLaws := GL) _) _.
apply: proves_bind.
  by apply: proves_lift; rewrite size_map challenge_bits_fit -map_take.
rewrite -[X in proves _ X]ok challenge_of_bits scalar_recompose eE challenge_switch ?sz //.
have := le_bits_to_numP (GadgetLaws := GL); rewrite /poseidon_native pcE -!repr_encode.
exact.
Qed.

(** The honest step. *)
Lemma synthesize_proves c z_in : rc_pc c = shared_constants ->
  size z_in = 2 -> size (rc_prev_ab c) = MAX_AB_SIZE ->
  all (fun e => weight e <? U64)%num (rc_prev_ab c) ->
  (total_weight (rc_prev_ab c) < U64)%num ->
  hash_address_book shared_constants (rc_prev_ab c) = Ok (nth 0 z_in 0) ->
  entitled (rc_prev_ab c) (rc_bitvector c) (rc_msg c) (rc_sig c) ->
  proves (synthesize c z_in) [:: (rc_msg c).1; (rc_msg c).2].
Proof.
move=> pcE sz2 sz64 wts ltT; rewrite /hash_address_book sz64 eqxx => -[hE].
case/and3P=> /N.ltb_lt maj j0 ok.
apply: (proves_bind (a := tt)); first by apply: proves_lift; rewrite sz2.
apply: (proves_bind (a := tt)); first by apply: proves_lift; rewrite sz64 eqxx.
apply: proves_bind (proves_entries wts) _.
apply: proves_bind (sponge_circuitP (GadgetLaws := GL) _ _ _ _) _.
apply: (proves_bind (a := nth 0 z_in 0)); first by apply: proves_lift; rewrite (vec_get_lt _ 0) ?sz2.
apply: (proves_bind (a := tt)); first by apply: proves_equal; rewrite -hE pcE preimage_vars.
apply: proves_bind (proves_bits _) _; apply: proves_bind (proves_weights sz64 ltT maj) _.
apply: proves_bind (point_defaultP (GadgetLaws := GL)) _; rewrite key_vars.
apply: proves_bind (proves_keys _ _) _; rewrite add0r selected_sum.
apply: (proves_bind (a := tt)).
  by apply: proves_enforce; rewrite mulr1 repr_inf (negbTE j0).
apply: proves_bind (proves_alloc _) _; apply: proves_bind (proves_alloc _) _.
apply: (proves_bind (a := tt)); last exact: proves_ret.
by apply: proves_signature => //; case: (rc_msg c) ok.
Qed.

(** C12: completeness of the rotation circuit.  For a padded book with 64-bit
    weights and total that hashes to the input state, and a multisignature that
    passes the native checks, the prover's own values satisfy every constraint of
    [synthesize], and its output is the signed message. *)
Theorem circuit_complete c z_in : rc_pc c = shared_constants ->
  size z_in = 2 -> size (rc_prev_ab c) = MAX_AB_SIZE ->
  all (fun e => weight e <? U64)%num (rc_prev_ab c) ->
  (total_weight (rc_prev_ab c) < U64)%num ->
  hash_address_book shared_constants (rc_prev_ab c) = Ok (nth 0 z_in 0) ->
  entitled (rc_prev_ab c) (rc_bitvector c) (rc_msg c) (rc_sig c) ->
  synthesize c z_in = Ok ([:: (rc_msg c).1; (rc_msg c).2], true).
Proof. exact: synthesize_proves. Qed.
End Complete.
