(* ===== verification/CircuitAdequacy.v ===== *)
(** * The two interpretations of the circuit agree

    A prover's run in which every constraint holds is an assignment that satisfies
    the constraint system, provided the same is true of the library's gadgets. *)
From Stdlib Require Import Strings.Byte Strings.String NArith.
From S2P Require Import Prelude SeqFacts WrapsErrors WrapsEngine WrapsUtils Schnorr Multisig.
From S2P Require Import AddressBook Signing Circuit CircuitFacts.
From mathcomp Require Import ssreflect ssrfun ssrbool eqtype ssrnat seq.
From mathcomp Require Import fintype tuple bigop ssralg.
Import GRing.Theory.
Set Warnings "-rewrite-rw".
Set Implicit Arguments.
Unset Strict Implicit.
Unset Printing Implicit Defensive.
Local Open Scope ring_scope.
Local Open Scope circuit_scope.

(** Every value of a run without violated constraints is allowed. *)
Definition agrees (A : Type) (p : proving A) (s : satisfying A) : Prop :=
  forall a, proves p a -> s a.

Class GadgetsAgree {E : CurveEngine} (GP : Gadgets proving) (GS : Gadgets satisfying) : Prop := {
  agree_le_bits : forall bs, agrees (le_bits_to_num (Gadgets := GP) bs) (le_bits_to_num bs);
  agree_strict : forall x, agrees (to_bits_le_strict (Gadgets := GP) x) (to_bits_le_strict x);
  agree_zero : agrees (alloc_zero (Gadgets := GP)) alloc_zero;
  agree_sponge : forall pc ops ds xs,
    agrees (sponge_circuit (Gadgets := GP) pc ops ds xs) (sponge_circuit pc ops ds xs);
  agree_point_alloc : forall c, agrees (point_alloc (Gadgets := GP) c) (point_alloc c);
  agree_on_curve : forall p, agrees (check_on_curve (Gadgets := GP) p) (check_on_curve p);
  agree_default : agrees (point_default (Gadgets := GP)) point_default;
  agree_select : forall p b,
    agrees (select_point_or_infinity (Gadgets := GP) p b) (select_point_or_infinity p b);
  agree_add : forall p q, agrees (point_add (Gadgets := GP) p q) (point_add p q);
  agree_negate : forall p, agrees (point_negate (Gadgets := GP) p) (point_negate p);
  agree_scalar_mul : forall p bs,
    agrees (point_scalar_mul (Gadgets := GP) p bs) (point_scalar_mul p bs);
  agree_constant : forall xy z,
    agrees (point_alloc_constant (Gadgets := GP) xy z) (point_alloc_constant xy z)
}.

Section Agreement.
Context {E : CurveEngine} {SB : ScalarBits E}.
Context {GP : Gadgets proving} {GS : Gadgets satisfying} {GA : GadgetsAgree GP GS}.

Lemma agrees_bind A B (mp : proving A) (ms : satisfying A) (kp : A -> proving B)
    (ks : A -> satisfying B) :
  agrees mp ms -> (forall a, agrees (kp a) (ks a)) -> agrees (bindM mp kp) (bindM ms ks).
Proof.
move=> m k b; rewrite /proves /=; case mE: mp => [[a [|]]| |] //=.
  case kE: (kp a) => [[b' [|]]| |] //= [<-]; exists a; [exact: m|exact: k].
by case: (kp a) => [[]| |].
Qed.

Lemma agrees_ret A (a : A) : agrees (ret a) (ret a).
Proof. by move=> b []. Qed.

Lemma agrees_lift A (r : result A) : agrees (Circuit.lift r) (Circuit.lift r).
Proof. by move=> a; rewrite /proves /=; case: r => [x| |] //= [->]. Qed.

Lemma agrees_alloc v w : agrees (alloc v) (alloc w).
Proof. by []. Qed.

Lemma agrees_alloc_bit b : agrees (alloc_bit b) (alloc_bit b).
Proof. by move=> x [<-] /=; case: b; [right|left]. Qed.

Lemma agrees_enforce a b c : agrees (enforce a b c) (enforce a b c).
Proof. by move=> [] [/eqP]. Qed.

Lemma agrees_collect A B (fp : A -> proving B) (fs : A -> satisfying B) l :
  (forall a, agrees (fp a) (fs a)) -> agrees (collect fp l) (collect fs l).
Proof.
move=> f; elim: l => [|a l IH]; first exact: agrees_ret.
by apply: agrees_bind => [|b]; [exact: f|apply: agrees_bind => [|bs]; [|exact: agrees_ret]].
Qed.
End Agreement.

Create HintDb agree.
#[export] Hint Resolve agrees_ret agrees_lift agrees_alloc agrees_alloc_bit agrees_enforce
  agrees_collect agree_le_bits agree_strict agree_zero agree_sponge agree_point_alloc
  agree_on_curve agree_default agree_select agree_add agree_negate agree_scalar_mul
  agree_constant : agree.

(** Walks through a do-block. *)
Ltac agree := repeat (first [solve [eauto with agree] | apply: agrees_bind; [|intros ?]]).

Section Synthesis.
Context {E : CurveEngine} {SB : ScalarBits E}.
Context {GP : Gadgets proving} {GS : Gadgets satisfying} {GA : GadgetsAgree GP GS}.

Lemma agrees_alloc_bits bs : agrees (alloc_bits bs) (alloc_bits bs).
Proof. by rewrite /alloc_bits; agree. Qed.

Lemma agrees_range v n : agrees (enforce_range v n) (enforce_range v n).
Proof. by rewrite /enforce_range /enforce_equal /alloc_bits; agree. Qed.

Lemma agrees_greater a b n : agrees (enforce_greater_than a b n) (enforce_greater_than a b n).
Proof. by rewrite /enforce_greater_than; agree; exact: agrees_range. Qed.

Lemma agrees_sum ts : agrees (sum_of ts) (sum_of ts).
Proof. by rewrite /sum_of; agree. Qed.

Lemma agrees_entry e : agrees (alloc_entry e) (alloc_entry e).
Proof. by rewrite /alloc_entry; agree; exact: agrees_range. Qed.

Lemma agrees_effective x : agrees (alloc_effective x) (alloc_effective x).
Proof. by case: x => e [[k w] i]; rewrite /alloc_effective; agree. Qed.

Lemma agrees_masked x : agrees (alloc_masked x) (alloc_masked x).
Proof. by case: x => s [b e]; rewrite /alloc_masked; agree. Qed.

Lemma agrees_keys pk l : agrees (aggregate_keys pk l) (aggregate_keys pk l).
Proof.
elim: l pk => [|[k b] l IH] pk; first exact: agrees_ret.
apply: agrees_bind => [|m]; first exact: agree_select.
by apply: agrees_bind => [|q]; [exact: agree_add|exact: IH].
Qed.

#[local] Hint Resolve agrees_range agrees_greater agrees_sum agrees_entry agrees_effective
  agrees_masked agrees_keys : agree.

Lemma agrees_weights c es bs : agrees (check_weights c es bs) (check_weights c es bs).
Proof.
by rewrite /check_weights; agree.
Qed.

Lemma agrees_signature c pk h0 h1 :
  agrees (check_signature c pk h0 h1) (check_signature c pk h0 h1).
Proof.
rewrite /check_signature; case: (to_coordinates gen) => [[gx gy] gi].
by rewrite /alloc_bits /poseidon_circuit /truncate_to_challenge_circuit /enforce_equal; agree.
Qed.

#[local] Hint Resolve agrees_weights agrees_signature : agree.

Lemma synthesize_agrees c z_in : agrees (synthesize c z_in) (synthesize c z_in).
Proof. by rewrite /synthesize /poseidon_circuit /enforce_equal /alloc_bits; agree. Qed.
End Synthesis.
