(* ===== verification/CircuitToy.v ===== *)
(** * A concrete circuit: field, gadgets and one rotation

    Base field of the rationals, so that 64-bit weights have distinct images, and
    the scalar field of 97 elements.  The gadgets compute on decoded points. *)
From Stdlib Require Import Strings.Byte Strings.String NArith Lia.
From S2P Require Import Prelude SeqFacts WrapsErrors WrapsEngine WrapsUtils Schnorr Multisig.
From S2P Require Import AddressBook Signing SigningFacts Circuit CircuitFacts CircuitSound.
From S2P Require Import CircuitComplete CircuitAdequacy.
From mathcomp Require Import ssreflect ssrfun ssrbool eqtype ssrnat seq div prime.
From mathcomp Require Import fintype tuple bigop ssralg ssrnum ssrint rat zmodp.
Import GRing.Theory Num.Theory.
Set Warnings "-rewrite-rw".
Set Implicit Arguments.
Unset Strict Implicit.
Unset Printing Implicit Defensive.
Local Open Scope ring_scope.

(** The [m] low bits of an integer. *)
Fixpoint low_bits (m : nat) (k : N) : seq bool :=
  if m is m'.+1 then N.odd k :: low_bits m' (N.div2 k) else [::].

Lemma size_low_bits m k : size (low_bits m k) = m.
Proof. by elim: m k => //= m IH k; rewrite IH. Qed.

Lemma take_low_bits n m k : (n <= m)%N -> take n (low_bits m k) = low_bits n k.
Proof. by elim: n m k => [|n IH] [|m] k //= le; rewrite IH. Qed.

Lemma bitsN_low_bits m k : (k < 2 ^ N.of_nat m)%num -> bitsN (low_bits m k) = k.
Proof.
elim: m k => [|m IH] k; first by case: k => [|p] //; rewrite N.pow_0_r => lt; exfalso; lia.
rewrite Nat2N.inj_succ N.pow_succ_r' => lt; rewrite /low_bits -/low_bits bitsN_cons IH.
  by rewrite N.div2_div; apply: N.Div0.div_lt_upper_bound.
by have := N.div2_odd k; case: N.odd; rewrite /N.b2n; lia.
Qed.

Lemma low_bits_bitsN bs : low_bits (size bs) (bitsN bs) = bs.
Proof.
elim: bs => [|b bs IH] //; rewrite [size _]/= bitsN_cons /low_bits -/low_bits.
have -> : N.odd ((if b then 1 else 0) + (bitsN bs + bitsN bs))%num = b.
  by rewrite N.odd_add (_ : bitsN bs + bitsN bs = 2 * bitsN bs)%num ?N.odd_mul //; [lia|case: b].
have -> // : N.div2 ((if b then 1 else 0) + (bitsN bs + bitsN bs))%num = bitsN bs.
  have e := N.div2_odd ((if b then 1 else 0) + (bitsN bs + bitsN bs))%num.
  by move: e; case: b; case: N.odd; rewrite /N.b2n; lia.
by rewrite IH.
Qed.

Definition ratS : fieldType := 'F_97.
Definition ratGE : lmodType ratS := (ratS^o)%type.
Definition natq (x : rat) : nat := `|numq x|%N.

Lemma natqK n : natq n%:R = n.
Proof. by rewrite /natq pmulrn numq_int. Qed.

Definition rat_coordinates (P : ratGE) : rat * rat * bool :=
  ((val (P : ratS))%:R, (val (P : ratS))%:R, P == 0).

Definition rat_sponge (ops : seq SpongeOp) (ds : nat) (xs : seq rat) : rat :=
  (foldl (fun acc x => (acc * 3 + natq x + 1) %% 31) ds xs)%N%:R.

#[export] Instance rat_curve : CurveEngine := {|
  Base := rat;
  Scalar := ratS;
  to_repr := fun x => [:: toy_byte (natq x)];
  to_le_bits := fun x => low_bits 70 (N.of_nat (natq x));
  base_from := fun n => (N.to_nat n)%:R;
  scalar_from := fun n => (N.to_nat n)%:R;
  field_switch := fun x => (natq x)%:R;
  NUM_CHALLENGE_BITS := 4;
  GE := ratGE;
  gen := (1 : ratS);
  to_coordinates := rat_coordinates;
  Constants := unit;
  api_constants := tt;
  sponge := fun _ => rat_sponge;
  sha256 := fun b => rcons (nseq 31 x00) (toy_byte (toy_digest b));
  ChaCha20Rng := bytes;
  from_seed := id;
  random := fun r => (toy_digest r + 1)%:R
|}.

Lemma rat_to_le_bits (x : rat) : @to_le_bits rat_curve x = low_bits 70 (N.of_nat (natq x)).
Proof. by []. Qed.

#[export] Instance rat_curve_laws : CurveLaws rat_curve.
Proof.
split=> //.
- move=> P Q [/(congr1 natq)]; rewrite !natqK => /val_inj H _ _; exact: H.
Qed.

#[export] Instance rat_bits : ScalarBits rat_curve :=
  @Build_ScalarBits rat_curve (fun s : ratS => low_bits 7 (N.of_nat (val s))) 7.

Lemma rat_scalar_bits (s : ratS) :
  @scalar_to_le_bits rat_curve rat_bits s = low_bits 7 (N.of_nat (val s)).
Proof. by []. Qed.

#[export] Instance rat_field_laws : CircuitFieldLaws rat_bits.
Proof.
split.
- move=> a b _ _ /(congr1 natq); rewrite !natqK => /(congr1 N.of_nat).
  by rewrite !N2Nat.id.
- by move=> x; rewrite rat_to_le_bits size_low_bits.
- move=> bs x le ->; rewrite num_of_bitsE rat_to_le_bits natqK N2Nat.id.
  by rewrite take_low_bits ?low_bits_bitsN //; apply: leq_trans le _.
- by move=> bs _; rewrite num_of_bitsE [field_switch _]/= natqK.
- by move=> s; rewrite [scalar_to_le_bits s]rat_scalar_bits size_low_bits.
- move=> s; rewrite rat_scalar_bits take_oversize ?size_low_bits // bitsN_low_bits.
    have lt : (val s < 97)%N := leq_trans (ltn_ord s) (isT : ((Zp_trunc (pdiv 97)).+2 <= 97)%N).
    by have := ltP lt; rewrite -[(2 ^ _)%num]/128%num; lia.
  by rewrite [scalar_from _]/= Nat2N.id natr_Zp.
Qed.

(** ** Gadgets *)

Definition unrepr (p : @AllocatedPoint rat_curve) : ratGE := (natq (point_x p))%:R.
Definition unbit (x : rat) : bool := x == 1.

Lemma unreprK : cancel (@repr rat_curve) unrepr.
Proof. by move=> P; rewrite /unrepr natqK natr_Zp. Qed.

Lemma unbitK : cancel (@b2f rat_curve) unbit.
Proof. by case; rewrite /unbit /b2f ?eqxx // eq_sym oner_eq0. Qed.

Lemma unbitsK bs : map unbit (map (@b2f rat_curve) bs) = bs.
Proof. exact: mapK unbitK bs. Qed.

(** The value each gadget computes. *)
Definition rat_select (p : @AllocatedPoint rat_curve) (b : rat) : @AllocatedPoint rat_curve :=
  if unbit b then p else repr 0.
Definition rat_add (p q : @AllocatedPoint rat_curve) : @AllocatedPoint rat_curve :=
  repr (unrepr p + unrepr q).
Definition rat_negate (p : @AllocatedPoint rat_curve) : @AllocatedPoint rat_curve :=
  repr (- unrepr p).
Definition rat_scalar_mul (p : @AllocatedPoint rat_curve) (bs : seq rat) :
    @AllocatedPoint rat_curve :=
  repr ((N.to_nat (bitsN (map unbit bs)))%:R *: unrepr p).

Definition run {A : Type} (a : A) : proving A := Ok (a, true).
Definition is_value {A : Type} (a : A) : satisfying A := fun x => x = a.

#[export] Instance rat_proving : Gadgets proving := {|
  le_bits_to_num := fun xs => run (num_of_bits xs);
  to_bits_le_strict := fun x => run (map b2f (to_le_bits x));
  alloc_zero := run 0;
  sponge_circuit := fun pc ops ds xs => run (sponge pc ops ds xs);
  point_alloc := fun c => run (c.1.1, c.1.2, b2f c.2);
  check_on_curve := fun p => Ok (tt, (point_inf p != 0) || (p == repr (unrepr p)));
  point_default := run (repr 0);
  select_point_or_infinity := fun p b => run (rat_select p b);
  point_add := fun p q => run (rat_add p q);
  point_negate := fun p => run (rat_negate p);
  point_scalar_mul := fun p bs => run (rat_scalar_mul p bs);
  point_alloc_constant := fun xy z => run (xy.1, xy.2, z)
|}.

#[export] Instance rat_satisfying : Gadgets satisfying := {|
  le_bits_to_num := fun xs => is_value (num_of_bits xs);
  to_bits_le_strict := fun x => is_value (map b2f (to_le_bits x));
  alloc_zero := is_value 0;
  sponge_circuit := fun pc ops ds xs => is_value (sponge pc ops ds xs);
  point_alloc := fun _ p => point_inf p = 0 \/ point_inf p = 1;
  check_on_curve := fun p _ => point_inf p = 0 -> p = repr (unrepr p);
  point_default := is_value (repr 0);
  select_point_or_infinity := fun p b => is_value (rat_select p b);
  point_add := fun p q => is_value (rat_add p q);
  point_negate := fun p => is_value (rat_negate p);
  point_scalar_mul := fun p bs => is_value (rat_scalar_mul p bs);
  point_alloc_constant := fun xy z => is_value (xy.1, xy.2, z)
|}.

Lemma rat_constant (P : ratGE) : P != 0 ->
  ((to_coordinates P).1.1, (to_coordinates P).1.2, 0) = @repr rat_curve P.
Proof. by move=> P0; rewrite /repr /= /b2f (negbTE P0). Qed.

Lemma rat_selectE (p : @AllocatedPoint rat_curve) b :
  rat_select p (b2f b) = if b then p else repr 0.
Proof. by rewrite /rat_select unbitK. Qed.

Lemma rat_addE (P Q : ratGE) : rat_add (repr P) (repr Q) = repr (P + Q).
Proof. by rewrite /rat_add !unreprK. Qed.

Lemma rat_negateE (P : ratGE) : rat_negate (repr P) = repr (- P).
Proof. by rewrite /rat_negate unreprK. Qed.

Lemma rat_scalar_mulE (P : ratGE) bs : rat_scalar_mul (repr P) (map b2f bs) =
  repr (scalar_from (bitsN bs) *: (P : @GE rat_curve)).
Proof. by rewrite /rat_scalar_mul unreprK unbitsK. Qed.

#[export] Instance rat_proving_laws : GadgetLaws rat_proving proves.
Proof.
split=> [bs|x||pc ops ds xs||P b|P Q|P|P bs P0|P P0]; try exact: erefl.
- by rewrite -rat_selectE.
- by rewrite -rat_addE.
- by rewrite -rat_negateE.
- by rewrite -rat_scalar_mulE.
- by rewrite -rat_constant.
Qed.

#[export] Instance rat_satisfying_laws : GadgetLaws rat_satisfying forces.
Proof.
split=> [bs|x||pc ops ds xs||P b|P Q|P|P bs P0|P P0] y yE; try exact: yE.
- by rewrite -rat_selectE; exact: yE.
- by rewrite -rat_addE; exact: yE.
- by rewrite -rat_negateE; exact: yE.
- by rewrite -rat_scalar_mulE; exact: yE.
- by rewrite -rat_constant; [exact: P0|exact: yE].
Qed.

#[export] Instance rat_point_sound : PointSound rat_satisfying.
Proof. by split=> [c p H|p f0 H]; [exact: H|exists (unrepr p); exact: H]. Qed.

#[export] Instance rat_point_complete : PointComplete rat_proving.
Proof.
split=> P; first by rewrite /repr; case: (to_coordinates P) => [[x y] i].
have e : repr P = @repr rat_curve (unrepr (repr P)) by rewrite unreprK.
by rewrite /proves /check_on_curve /rat_proving -e eqxx orbT.
Qed.

Lemma agrees_run A (a : A) : agrees (run a) (is_value a).
Proof. by move=> x [<-]. Qed.

Lemma agrees_point (c : rat * rat * bool) :
  agrees (run ((c.1.1, c.1.2, b2f c.2) : @AllocatedPoint rat_curve))
    (fun p => point_inf p = 0 \/ point_inf p = 1).
Proof. by move=> p [<-]; case: c => [[x y] [|]]; [right|left]. Qed.

Lemma agrees_curve (p q : @AllocatedPoint rat_curve) :
  agrees (Ok (tt, (point_inf p != 0) || (p == q)) : proving unit) (fun _ => point_inf p = 0 -> p = q).
Proof. by move=> u [_ /orP[/eqP ne /ne|/eqP]]. Qed.

#[export] Instance rat_agree : GadgetsAgree rat_proving rat_satisfying.
Proof.
split=> *; first [exact: agrees_run|exact: agrees_point|exact: agrees_curve].
Qed.

(** ** A rotation signed by the one owned seat *)

Definition rat_kp : @Keypair rat_curve := @MkKeypair rat_curve 3%:R 3%:R.
Definition rat_ab : @AddressBook rat_curve :=
  padded [:: (5%:R, (3%:R : ratGE, @MkSchnorrPoK rat_curve 0 0 0), 7%num)].
Definition rat_bv : BitVector := [tuple of true :: nseq 63 false].
Definition rat_msg : @RotationMessage rat_curve := (11%:R, 13%:R).
Definition rat_sig : @Signature rat_curve :=
  if sign shared_constants rat_kp (message_elements rat_msg) 8%:R is Ok s then s
  else MkSignature 0 0.
Definition rat_circuit : @RotationCircuit rat_curve :=
  MkRotationCircuit shared_constants rat_ab rat_bv rat_sig rat_msg.
Definition rat_state : seq rat :=
  [:: poseidon_native shared_constants DS_ADDRESS_BOOK (book_elements rat_ab); 0].

Lemma rat_subset : signing_subset rat_ab rat_bv = [:: 3%:R : ratGE].
Proof. by apply/eqP; vm_compute. Qed.

Lemma rat_entitled : entitled rat_ab rat_bv rat_msg rat_sig.
Proof.
rewrite /entitled /joint rat_subset /joint_key big_seq1; apply/and3P.
by split; vm_compute.
Qed.

Lemma rat_hash : hash_address_book shared_constants rat_ab = Ok (nth 0 rat_state 0).
Proof.
have sz : size rat_ab = MAX_AB_SIZE by vm_compute.
by rewrite /hash_address_book sz eqxx.
Qed.

Lemma circuit_complete_witness :
  synthesize rat_circuit rat_state = Ok ([:: rat_msg.1; rat_msg.2], true).
Proof.
apply: circuit_complete.
- exact: erefl.
- exact: erefl.
- by vm_compute.
- by vm_compute.
- by vm_compute.
- exact: rat_hash.
- exact: rat_entitled.
Defined.

Lemma rat_proves : proves (synthesize rat_circuit rat_state) [:: rat_msg.1; rat_msg.2].
Proof.
apply: synthesize_proves; [exact: erefl|exact: erefl|by vm_compute|by vm_compute|by vm_compute| |].
  exact: rat_hash.
exact: rat_entitled.
Qed.

Lemma circuit_sound_witness : authorised rat_state [:: rat_msg.1; rat_msg.2].
Proof.
apply: (circuit_sound (c := rat_circuit)); first exact: erefl.
exact: synthesize_agrees rat_proves.
Defined.
