(* ===== verification/WrapsProof.v ===== *)
(** * [wraps.rs], proofs: construction and verification of rotation chains

    Nova's recursive and compressed SNARKs are the parameter [Nova]; their errors
    are seen through their display text.  [circuit.rs] supplies the step circuit. *)
From Stdlib Require Import Strings.Byte Strings.String NArith.
From S2P Require Import Prelude SeqFacts WrapsErrors WrapsEngine WrapsUtils Schnorr Multisig.
From S2P Require Import AddressBook Signing Circuit.
From mathcomp Require Import ssreflect ssrfun ssrbool eqtype ssrnat seq.
From mathcomp Require Import fintype tuple bigop ssralg.
Import GRing.Theory.
Set Warnings "-rewrite-rw".
Set Implicit Arguments.
Unset Strict Implicit.
Unset Printing Implicit Defensive.
Local Open Scope ring_scope.

Class Nova (E : CurveEngine) := {
  PublicParams : Type;
  RecursiveSNARK : Type;
  CompressedSNARK : Type;
  NovaProverKey : Type;
  NovaVerifierKey : Type;
  (** [nova::PublicParams::setup_with_ptau_dir] *)
  setup_with_ptau_dir : RotationCircuit -> string -> string + PublicParams;
  (** [RecursiveSNARK] *)
  rs_new : PublicParams -> RotationCircuit -> seq Base -> string + RecursiveSNARK;
  rs_num_steps : RecursiveSNARK -> nat;
  rs_outputs : RecursiveSNARK -> seq Base;
  rs_prove_step : PublicParams -> RotationCircuit -> RecursiveSNARK -> string + RecursiveSNARK;
  rs_verify : PublicParams -> nat -> seq Base -> RecursiveSNARK -> string + seq Base;
  (** [CompressedSNARK] *)
  cs_setup : PublicParams -> string + (NovaProverKey * NovaVerifierKey);
  cs_prove : PublicParams -> NovaProverKey -> RecursiveSNARK -> string + CompressedSNARK;
  cs_verify : NovaVerifierKey -> nat -> seq Base -> CompressedSNARK -> string + seq Base
}.

Section Types.
Context {E : CurveEngine} {N : Nova E}.

Record CompressedVerifyingKey : Type := MkCompressedVerifyingKey { inner : NovaVerifierKey }.

Record CompressedWrapsProof : Type := MkCompressedWrapsProof {
  c_num_steps : nat;
  c_z0 : seq Base;
  c_zi : seq Base;
  c_snark : CompressedSNARK
}.

Record UncompressedWrapsProof : Type := MkUncompressedWrapsProof {
  u_num_steps : nat;
  u_z0 : seq Base;
  u_zi : seq Base;
  u_snark : RecursiveSNARK
}.
End Types.

Class ProofCodecs (E : CurveEngine) (N : Nova E) := {
  uncompressed_codec :: Bincode (@UncompressedWrapsProof E N);
  compressed_codec :: Bincode (@CompressedWrapsProof E N)
}.

Class ProofCodecLaws (E : CurveEngine) (N : Nova E) (C : ProofCodecs N) : Prop := {
  uncompressed_codec_laws :: BincodeLaws (@uncompressed_codec E N C);
  compressed_codec_laws :: BincodeLaws (@compressed_codec E N C)
}.

(** [res.map_err(|e| WrapsError::cryptography(format!("{what}: {e}")))?] *)
Definition nova_try {A : Type} (what : string) (r : string + A) : result A :=
  map_err (fun e => cryptography (what ++ ": " ++ e)%string) (of_sum r).

Section Proofs.
Context {E : CurveEngine} {C : SigningCodecs E} {N : Nova E} {PCo : ProofCodecs N}.

(** [RotationCircuit::dummy], with the randomness of the operating system (two
    streams per seat, and the nonce of the signature) as arguments. *)
Definition dummy (pc : Constants) (rngs : seq (ChaCha20Rng * ChaCha20Rng)) (k : Scalar) :
    result RotationCircuit :=
  let keypairs := [seq (keygen r.1, r.2) | r <- rngs] in
  let prev_ab : AddressBook :=
    [seq (base_from (N.of_nat ikp.1), (kp_pk ikp.2.1, prove_knowledge ikp.2.1 ikp.2.2), 1%num)
    | ikp <- zip (iota 0 (size keypairs)) keypairs] in
  let* first := vec_get keypairs 0 in
  let joint := MkKeypair
    (foldl (fun acc kp => acc + kp_sk kp.1) 0 keypairs)
    (foldl (fun acc kp => acc + kp_pk kp.1) (kp_pk first.1) (drop 1 keypairs)) in
  let msg : RotationMessage := (0, 1) in
  let* sig := sign pc joint (message_elements msg) k in
  Ok (MkRotationCircuit pc prev_ab [tuple of nseq MAX_AB_SIZE true] sig msg).

(** [WRAPS::load_public_params] *)
Definition load_public_params (rngs : seq (ChaCha20Rng * ChaCha20Rng)) (k : Scalar)
    (ptau_dir : string) : result PublicParams :=
  let* circuit := dummy shared_constants rngs k in
  nova_try "public parameter setup failed" (setup_with_ptau_dir circuit ptau_dir).

(** [WRAPS::setup_compressed_verifier] *)
Definition setup_compressed_verifier (pp : PublicParams) : result CompressedVerifyingKey :=
  let* keys := nova_try "compressed verifier setup failed" (cs_setup pp) in
  Ok (MkCompressedVerifyingKey keys.2).

(** [WRAPS::verify_uncompressed_wraps_proof] *)
Definition verify_uncompressed_wraps_proof (pp : PublicParams) (running_proof ledger_id
    hints_vk : bytes) : result bool :=
  let* (ab_genesis_hash, genesis_hints_vk_hash) := decode_rotation_message ledger_id in
  let* running := decode running_proof in
  if (size (u_z0 running) != 2) || (size (u_zi running) != 2) then Ok false else
  let* z00 := vec_get (u_z0 running) 0 in
  if z00 != ab_genesis_hash then Ok false else
  let* z01 := vec_get (u_z0 running) 1 in
  if z01 != genesis_hints_vk_hash then Ok false else
  let* zi1 := vec_get (u_zi running) 1 in
  if zi1 != compute_hints_vk_hash hints_vk then Ok false else
  match rs_verify pp (u_num_steps running) (u_z0 running) (u_snark running) with
  | inr zi => Ok (zi == u_zi running)
  | inl _ => Ok false
  end.

(** [WRAPS::verify_compressed_wraps_proof] *)
Definition verify_compressed_wraps_proof (vk : CompressedVerifyingKey) (proof_serialized
    ledger_id hints_vk : bytes) : result bool :=
  let* (ab_genesis_hash, genesis_hints_vk_hash) := decode_rotation_message ledger_id in
  let* proof := decode proof_serialized in
  if (size (c_z0 proof) != 2) || (size (c_zi proof) != 2) then Ok false else
  let* z00 := vec_get (c_z0 proof) 0 in
  let* z01 := vec_get (c_z0 proof) 1 in
  let* zi1 := vec_get (c_zi proof) 1 in
  let genesis_ok := (z00 == ab_genesis_hash) && (z01 == genesis_hints_vk_hash) in
  let hints_ok := zi1 == compute_hints_vk_hash hints_vk in
  match cs_verify (inner vk) (c_num_steps proof) (c_z0 proof) (c_snark proof) with
  | inr zi => Ok [&& genesis_ok, hints_ok & zi == c_zi proof]
  | inl _ => Ok false
  end.

(** The metadata check on a resumed proof. *)
Definition metadata_mismatch (running : UncompressedWrapsProof) : bool :=
  [|| u_num_steps running == 0%N, size (u_z0 running) != 2, size (u_zi running) != 2,
      u_num_steps running != rs_num_steps (u_snark running) |
      u_zi running != rs_outputs (u_snark running)].

(** The running proof that [construct_wraps_proof] advances: a new one at genesis,
    else the decoded previous one. *)
Definition start_or_resume (pp : PublicParams) (circuit : RotationCircuit) (prev_ab_hash
    hints_vk_hash : Base) (prev_proof : option bytes) : result UncompressedWrapsProof :=
  match prev_proof with
  | None =>
      let z0 := [:: prev_ab_hash; hints_vk_hash] in
      let* snark := nova_try "could not start the chain" (rs_new pp circuit z0) in
      Ok (MkUncompressedWrapsProof (rs_num_steps snark) z0 (rs_outputs snark) snark)
  | Some bs =>
      let* running := decode bs in
      fail_if metadata_mismatch running with
        invalid_input "previous running proof metadata does not match its SNARK";;
      Ok running
  end.

(** The rest of [construct_wraps_proof]: one step, then both proofs, each verified. *)
Definition advance (pp : PublicParams) (circuit : RotationCircuit) (ab_genesis_hash : Base)
    (hints_vk : bytes) (running : UncompressedWrapsProof) : result (bytes * bytes) :=
  let* snark := nova_try "proving the rotation failed"
    (rs_prove_step pp circuit (u_snark running)) in
  let running := MkUncompressedWrapsProof (rs_num_steps snark) (u_z0 running)
                   (rs_outputs snark) snark in
  let* z01 := vec_get (u_z0 running) 1 in
  let* not_really_ledger_id := encode ((ab_genesis_hash, z01) : RotationMessage) in
  let* uncompressed := encode running in
  let* ok := verify_uncompressed_wraps_proof pp uncompressed not_really_ledger_id hints_vk in
  fail_if ~~ ok with cryptography "the uncompressed proof just produced does not verify";;
  let* keys := nova_try "compressing SNARK setup failed" (cs_setup pp) in
  let vk := MkCompressedVerifyingKey keys.2 in
  let* snark := nova_try "compressing the proof failed" (cs_prove pp keys.1 (u_snark running)) in
  let* compressed := encode (MkCompressedWrapsProof (u_num_steps running) (u_z0 running)
                               (u_zi running) snark) in
  let* ok := verify_compressed_wraps_proof vk compressed not_really_ledger_id hints_vk in
  fail_if ~~ ok with cryptography "the compressed proof just produced does not verify";;
  Ok (uncompressed, compressed).

(** [WRAPS::construct_wraps_proof] *)
Definition construct_wraps_proof (pp : PublicParams) (ab_genesis_hash : Base)
    (prev_ab next_ab : AddressBook) (prev_proof : option bytes) (hints_vk : bytes)
    (multi_signature : SchnorrMultiSignature) : result (bytes * bytes) :=
  let: (bitvector, signature) := multi_signature in
  fail_if ~~ verify_address_book prev_ab with invalid_input "invalid previous address book";;
  fail_if ~~ verify_address_book next_ab with invalid_input "invalid next address book";;
  let* rest := slice_from bitvector (size prev_ab) in
  fail_if has id rest with
    invalid_input "bitvector selects a seat outside the previous address book";;
  let* prev_ab := pad_address_book prev_ab in
  let* next_ab := pad_address_book next_ab in
  let* prev_ab_hash := hash_address_book shared_constants prev_ab in
  let* next_ab_hash := hash_address_book shared_constants next_ab in
  let hints_vk_hash := compute_hints_vk_hash hints_vk in
  let is_genesis := ~~ isSome prev_proof in
  fail_if is_genesis && (ab_genesis_hash != prev_ab_hash) with
    invalid_input "no previous proof, so this is genesis; but the previous address book does not hash to the genesis hash";;
  fail_if is_genesis && (next_ab_hash != prev_ab_hash) with
    invalid_input "a genesis step must rotate the address book onto itself";;
  let* message := compute_rotation_message next_ab hints_vk in
  let* ok := verify_signature prev_ab message multi_signature in
  fail_if ~~ ok with invalid_input "Schnorr multisignature verification failed";;
  let* msg := decode_rotation_message message in
  let circuit := MkRotationCircuit shared_constants prev_ab bitvector signature msg in
  let* running := start_or_resume pp circuit prev_ab_hash hints_vk_hash prev_proof in
  advance pp circuit ab_genesis_hash hints_vk running.

End Proofs.
#[global] Arguments construct_wraps_proof : simpl never.
