(* ===== verification/WrapsChain.v ===== *)
(** * Chains of rotations: what an accepted proof shows, and that proofs are produced

    [NovaSound] and [NovaComplete] state what the crate relies on in Nova: a
    verified proof of n steps comes from n satisfied steps of the circuit it was set
    up for, and satisfied steps can be proven, compressed and verified. *)
From Stdlib Require Import Strings.Byte Strings.String NArith Lia.
From S2P Require Import Prelude SeqFacts WrapsErrors WrapsEngine WrapsUtils Schnorr Multisig.
From S2P Require Import AddressBook Signing SigningFacts Circuit CircuitFacts CircuitSound.
From S2P Require Import CircuitComplete CircuitAdequacy WrapsProof.
From mathcomp Require Import ssreflect ssrfun ssrbool eqtype ssrnat seq.
From mathcomp Require Import fintype tuple bigop ssralg.
Import GRing.Theory.
Set Warnings "-rewrite-rw".
Set Implicit Arguments.
Unset Strict Implicit.
Unset Printing Implicit Defensive.
Local Open Scope ring_scope.

(** [n] steps of a relation on states. *)
Inductive steps {S : Type} (R : S -> S -> Prop) : nat -> S -> S -> Prop :=
| steps_refl z : steps R 0 z z
| steps_snoc n z z' z'' : steps R n z z' -> R z' z'' -> steps R n.+1 z z''.

Lemma steps_sub {S : Type} (R R' : S -> S -> Prop) n z z' :
  (forall a b, R a b -> R' a b) -> steps R n z z' -> steps R' n z z'.
Proof. by move=> sub; elim=> [x|m x y w _ IH /sub]; [exact: steps_refl|exact: steps_snoc IH]. Qed.

Section Laws.
Context {E : CurveEngine} {SB : ScalarBits E} {N : Nova E}.
Context {GS : Gadgets satisfying} {GP : Gadgets proving}.

(** A step of the circuit with given constants, satisfied by some assignment. *)
Definition satisfied_step (pc : Constants) (z z' : seq Base) : Prop :=
  exists2 c : RotationCircuit, rc_pc c = pc & synthesize c z z'.

(** Nova rejects proofs of zero steps. *)
Class NovaSound : Prop := {
  rs_verify_sound : forall c0 dir pp n z0 zi snark,
    setup_with_ptau_dir c0 dir = inr pp -> rs_verify pp n z0 snark = inr zi ->
    (0 < n)%N /\ steps (satisfied_step (rc_pc c0)) n z0 zi;
  cs_verify_sound : forall c0 dir pp pk vk n z0 zi snark,
    setup_with_ptau_dir c0 dir = inr pp -> cs_setup pp = inr (pk, vk) ->
    cs_verify vk n z0 snark = inr zi ->
    (0 < n)%N /\ steps (satisfied_step (rc_pc c0)) n z0 zi
}.

(** A step of the circuit [c], of the shape of [c0], whose honest assignment
    satisfies the constraints. *)
Definition proven_step (c0 c : RotationCircuit) (z z' : seq Base) : Prop :=
  rc_pc c = rc_pc c0 /\ proves (synthesize c z) z'.

(** [ivc pp snark n z0 zi]: [snark] is the state of an honest prover after [n] steps. *)
Class NovaComplete (ivc : PublicParams -> RecursiveSNARK -> nat -> seq Base -> seq Base -> Prop) :
    Prop := {
  ivc_start : forall c0 dir pp c z0 z1,
    setup_with_ptau_dir c0 dir = inr pp -> proven_step c0 c z0 z1 ->
    exists2 s, rs_new pp c z0 = inr s &
    exists2 s', rs_prove_step pp c s = inr s' & ivc pp s' 1 z0 z1;
  ivc_next : forall c0 dir pp c s n z0 z z',
    setup_with_ptau_dir c0 dir = inr pp -> ivc pp s n z0 z -> proven_step c0 c z z' ->
    exists2 s', rs_prove_step pp c s = inr s' & ivc pp s' n.+1 z0 z';
  ivc_state : forall pp s n z0 z, ivc pp s n z0 z ->
    [/\ (0 < n)%N, rs_num_steps s = n, rs_outputs s = z & rs_verify pp n z0 s = inr z];
  ivc_compress : forall pp s n z0 z, ivc pp s n z0 z ->
    exists pk vk cs, [/\ cs_setup pp = inr (pk, vk), cs_prove pp pk s = inr cs &
                        cs_verify vk n z0 cs = inr z]
}.
End Laws.
Arguments NovaSound {E SB} N {GS}.
Arguments NovaComplete {E SB N GP} ivc.

(** ** Lemmas *)
Section Verdicts.
Context {E : CurveEngine} {C : SigningCodecs E} {N : Nova E} {PCo : ProofCodecs N}.

Lemma size2 (T : eqType) (x0 : T) (s : seq T) : size s = 2 -> s = [:: nth x0 s 0; nth x0 s 1].
Proof. by case: s => [|a [|b [|]]]. Qed.

(** The running proof states its two ends and the SNARK confirms them. *)
Definition states (ledger : RotationMessage) (hints_vk : bytes) (z0 zi : seq Base) : Prop :=
  z0 = [:: ledger.1; ledger.2] /\ exists h, zi = [:: h; compute_hints_vk_hash hints_vk].

Lemma statesP ledger vk (z0 zi : seq Base) : states ledger vk z0 zi <->
  [/\ size z0 = 2, size zi = 2, nth 0 z0 0 = ledger.1, nth 0 z0 1 = ledger.2 &
      nth 0 zi 1 = compute_hints_vk_hash vk].
Proof.
split=> [[-> [h ->]] //|[s0 si e0 e1 ei]]; split; first by rewrite (size2 0 s0) e0 e1.
by exists (nth 0 zi 0); rewrite [LHS](size2 0 si) ei.
Qed.

Lemma two_ends ledger vk (z0 zi : seq Base) : states ledger vk z0 zi <->
  [&& size z0 == 2, size zi == 2, nth 0 z0 0 == ledger.1, nth 0 z0 1 == ledger.2 &
      nth 0 zi 1 == compute_hints_vk_hash vk].
Proof.
rewrite statesP; split=> [[-> -> -> -> ->]|/and5P [/eqP ? /eqP ? /eqP ? /eqP ? /eqP ?] //].
by rewrite !eqxx.
Qed.

(** The verdict of the running proof's verification, once its inputs decode. *)
Lemma verify_uncompressedE pp proof lid vk : verify_uncompressed_wraps_proof pp proof lid vk =
  let* ledger := decode_rotation_message lid in
  let* running := decode proof in
  let z0 := u_z0 running in let zi := u_zi running in
  Ok ([&& size z0 == 2, size zi == 2, nth 0 z0 0 == ledger.1, nth 0 z0 1 == ledger.2 &
       nth 0 zi 1 == compute_hints_vk_hash vk] &&
      if rs_verify pp (u_num_steps running) z0 (u_snark running) is inr z then z == zi else false).
Proof.
rewrite /verify_uncompressed_wraps_proof; case: decode_rotation_message => [[g gh]| |] //=.
case: decode => [[n z0 zi s]| |] //=.
case: (altP (size z0 =P 2)) => [s0|] //=; case: (altP (size zi =P 2)) => [si|] //=.
rewrite !(vec_get_lt _ 0) ?s0 ?si //=.
case: eqP => //= _; case: eqP => //= _; case: eqP => //= _; by case: rs_verify.
Qed.

Lemma verify_compressedE vk proof lid hvk : verify_compressed_wraps_proof vk proof lid hvk =
  let* ledger := decode_rotation_message lid in
  let* p := decode proof in
  let z0 := c_z0 p in let zi := c_zi p in
  Ok ([&& size z0 == 2, size zi == 2, nth 0 z0 0 == ledger.1, nth 0 z0 1 == ledger.2 &
       nth 0 zi 1 == compute_hints_vk_hash hvk] &&
      if cs_verify (inner vk) (c_num_steps p) z0 (c_snark p) is inr z then z == zi else false).
Proof.
rewrite /verify_compressed_wraps_proof; case: decode_rotation_message => [[g gh]| |] //=.
case: decode => [[n z0 zi s]| |] //=.
case: (altP (size z0 =P 2)) => [s0|] //=; case: (altP (size zi =P 2)) => [si|] //=.
rewrite !(vec_get_lt _ 0) ?s0 ?si //=.
by case: cs_verify => [e|z] /=; rewrite ?andbF // -!andbA.
Qed.

Lemma verdict (A : Type) (r : string + A) (P : bool) (Q : A -> bool) :
  P && (if r is inr z then Q z else false) <-> P /\ exists2 z, r = inr z & Q z.
Proof.
case: r => [e|z]; first by rewrite andbF; split=> // -[_ [z]].
by split=> [/andP[p q]|[-> [_ [<-] ->]]] //; split=> //; exists z.
Qed.

Lemma verify_uncompressed_true pp proof lid vk :
  verify_uncompressed_wraps_proof pp proof lid vk = Ok true <->
  exists ledger running,
  [/\ decode lid = Ok ledger, decode proof = Ok running,
      states ledger vk (u_z0 running) (u_zi running) &
      rs_verify pp (u_num_steps running) (u_z0 running) (u_snark running) = inr (u_zi running)].
Proof.
rewrite verify_uncompressedE; split=> [H|[ledger [run [/decode_rotation_messageE -> -> st ver]]]].
  inv_ok H; exists v, v0; case: H => /verdict [/two_ends st [z zE /eqP zz]]; rewrite zz in zE.
  by split=> //; apply/decode_rotation_messageE.
rewrite [bind _ _]/=; apply: (congr1 Ok); apply/verdict; split; first exact/two_ends.
by exists (u_zi run).
Qed.

Lemma verify_compressed_true vk proof lid hvk :
  verify_compressed_wraps_proof vk proof lid hvk = Ok true <->
  exists ledger p,
  [/\ decode lid = Ok ledger, decode proof = Ok p, states ledger hvk (c_z0 p) (c_zi p) &
      cs_verify (inner vk) (c_num_steps p) (c_z0 p) (c_snark p) = inr (c_zi p)].
Proof.
rewrite verify_compressedE; split=> [H|[ledger [p [/decode_rotation_messageE -> -> st ver]]]].
  inv_ok H; exists v, v0; case: H => /verdict [/two_ends st [z zE /eqP zz]]; rewrite zz in zE.
  by split=> //; apply/decode_rotation_messageE.
rewrite [bind _ _]/=; apply: (congr1 Ok); apply/verdict; split; first exact/two_ends.
by exists (c_zi p).
Qed.
End Verdicts.

Section Rotations.
Context {E : CurveEngine} {L : CurveLaws E} {C : SigningCodecs E} {CL : SigningCodecLaws C}.
Context {N : Nova E} {PCo : ProofCodecs N}.
Implicit Types (ab : AddressBook) (bv : BitVector).

(** The commitment to a book. *)
Definition book_hash ab : Base :=
  poseidon_native shared_constants DS_ADDRESS_BOOK (book_elements (padded ab)).

Lemma book_hash_padded ab : (size ab <= MAX_AB_SIZE)%N -> book_hash (padded ab) = book_hash ab.
Proof. by move=> le; rewrite /book_hash [padded (padded _)]padded_id ?size_padded. Qed.

Lemma hash_padded ab : (size ab <= MAX_AB_SIZE)%N ->
  hash_address_book shared_constants (padded ab) = Ok (book_hash ab).
Proof. by move=> le; rewrite /hash_address_book size_padded // eqxx. Qed.

Lemma entitled_padded ab bv rot sig : (size ab <= MAX_AB_SIZE)%N ->
  entitled (padded ab) bv rot sig = entitled ab bv rot sig.
Proof.
by move=> le; rewrite /entitled /joint total_weight_padded named_weight_padded // signing_subset_padded.
Qed.

Lemma selection_padded ab bv : (size ab <= MAX_AB_SIZE)%N -> ~~ has id (drop (size ab) bv) ->
  selection (padded ab) bv <-> selection ab bv.
Proof.
move=> le ins; have own : all seat_guard (zip (padded ab) bv) <-> all seat_guard (zip ab bv).
  by rewrite -!reject_sentinelP reject_padded.
split=> -[vb _ o]; rewrite ?verify_padded // in vb; split; rewrite ?verify_padded //;
  try exact/own.
by rewrite size_padded // drop_oversize // size_tuple.
Qed.

Lemma rotation_message ab vk : verify_address_book ab ->
  exists2 b, compute_rotation_message ab vk = Ok b &
             decode b = Ok (book_hash ab, compute_hints_vk_hash vk).
Proof.
move=> vb; rewrite /compute_rotation_message compute_addressbook_hashE vb /=.
exact: encode_ok.
Qed.

(** What the prover checks before it proves a rotation from [prev] to [next]. *)
Record rotation_ok (g : Base) prev next (genesis : bool) (vk : bytes) bv sig : Prop := {
  rot_sel : selection prev bv;
  rot_next : verify_address_book next;
  rot_entitled : entitled prev bv (book_hash next, compute_hints_vk_hash vk) sig;
  rot_genesis : genesis -> g = book_hash prev /\ book_hash next = book_hash prev
}.

Definition rotation_circuit prev next vk bv sig : RotationCircuit :=
  MkRotationCircuit shared_constants (padded prev) bv sig
    (book_hash next, compute_hints_vk_hash vk).

(** Its proving part. *)
Definition fold_rotation pp g prev next pf vk bv sig : result (bytes * bytes) :=
  let circuit := rotation_circuit prev next vk bv sig in
  let* running := start_or_resume pp circuit (book_hash prev) (compute_hints_vk_hash vk) pf in
  advance pp circuit g vk running.

Lemma signature_padded prev next vk bv sig b : (size prev <= MAX_AB_SIZE)%N ->
  ~~ has id (drop (size prev) bv) -> decode b = Ok (book_hash next, compute_hints_vk_hash vk) ->
  verify_signature (padded prev) b (bv, sig) = Ok true <->
  selection prev bv /\ entitled prev bv (book_hash next, compute_hints_vk_hash vk) sig.
Proof.
move=> le ins dE; rewrite verify_signature_true; split=> [[rot]|[sel ok]].
  by rewrite dE => -[<-] [/selection_padded sel]; rewrite entitled_padded // => ok; split=> //; apply: sel.
by eexists; [exact: dE|rewrite entitled_padded //; split=> //; apply/selection_padded].
Qed.

Lemma construct_ok pp g prev next pf vk bv sig :
  rotation_ok g prev next (~~ isSome pf) vk bv sig ->
  construct_wraps_proof pp g prev next pf vk (bv, sig) = fold_rotation pp g prev next pf vk bv sig.
Proof.
case=> sel vn ent gen; have [vp ins _] := sel; have le := sel_size sel.
have /verify_address_bookP [len _ _ _] := vn.
rewrite /construct_wraps_proof vp vn /= slice_from_ok ?size_tuple //= (negbTE ins).
rewrite !pad_address_bookE le len /= !hash_padded //=.
have [b bE dE] : exists2 b, compute_rotation_message (padded next) vk = Ok b &
    decode b = Ok (book_hash next, compute_hints_vk_hash vk).
  by rewrite -(book_hash_padded len); apply: rotation_message; rewrite verify_padded.
have sE : verify_signature (padded prev) b (bv, sig) = Ok true.
  exact/(signature_padded (next := next) (vk := vk)).
have rE : decode_rotation_message b = Ok (book_hash next, compute_hints_vk_hash vk).
  exact/decode_rotation_messageE.
rewrite (_ : _ && _ = false); first by case: isSome gen => //= -[] // -> _; rewrite eqxx.
rewrite (_ : _ && _ = false); first by case: isSome gen => //= -[] // _ ->; rewrite eqxx.
by rewrite bE /= sE /= rE.
Qed.

Lemma construct_inv pp g prev next pf vk bv sig r :
  construct_wraps_proof pp g prev next pf vk (bv, sig) = Ok r ->
  rotation_ok g prev next (~~ isSome pf) vk bv sig.
Proof.
rewrite /construct_wraps_proof; case vp: verify_address_book => //=.
case vn: (verify_address_book next) => //=; have /verify_address_bookP [le _ _ _] := vp.
have /verify_address_bookP [len _ _ _] := vn.
rewrite slice_from_ok ?size_tuple //=; case ins: has => //=; move/negbT: ins => ins.
rewrite !pad_address_bookE le len /= !hash_padded //=.
case g1: (_ && _) => //; case g2: (_ && _) => //.
have [b bE dE] : exists2 b, compute_rotation_message (padded next) vk = Ok b &
    decode b = Ok (book_hash next, compute_hints_vk_hash vk).
  by rewrite -(book_hash_padded len); apply: rotation_message; rewrite verify_padded.
rewrite bE /=; case sE: verify_signature => [[]| |] //= _.
have [sel ent] := (signature_padded sig le ins dE).1 sE; split=> // ng.
by move: g1 g2; rewrite ng /= => /negbFE/eqP -> /negbFE/eqP ->.
Qed.
End Rotations.
