(* ===== verification/ChainTheorems.v ===== *)
(** * Theorems on rotation chains

    What an accepted proof shows, what the prover checks before it returns one, and
    that a chain of signed rotations can always be proven. *)
From Stdlib Require Import Strings.Byte Strings.String NArith Lia.
From S2P Require Import Prelude SeqFacts WrapsErrors WrapsEngine WrapsUtils Schnorr Multisig.
From S2P Require Import AddressBook Signing SigningFacts Circuit CircuitFacts CircuitSound.
From S2P Require Import CircuitComplete WrapsProof WrapsChain.
From mathcomp Require Import ssreflect ssrfun ssrbool eqtype ssrnat seq.
From mathcomp Require Import fintype tuple bigop ssralg.
Import GRing.Theory.
Set Warnings "-rewrite-rw".
Set Implicit Arguments.
Unset Strict Implicit.
Unset Printing Implicit Defensive.
Local Open Scope ring_scope.

Lemma nova_try_inv (A : Type) what (r : string + A) a : nova_try what r = Ok a -> r = inr a.
Proof. by rewrite /nova_try; case: r => //= x [->]. Qed.

Lemma nova_try_no_panic (A : Type) what (r : string + A) : never_panics (nova_try what r).
Proof. by case: r. Qed.

Section Parameters.
Context {E : CurveEngine} {L : CurveLaws E} {C : SigningCodecs E} {N : Nova E}.

(** Loaded parameters were set up for a circuit with the shared constants. *)
Lemma load_inv rngs k dir pp : load_public_params rngs k dir = Ok pp ->
  exists2 c, rc_pc c = shared_constants & setup_with_ptau_dir c dir = inr pp.
Proof.
rewrite /load_public_params; case dE: dummy => [c| |] //= H; exists c; last exact: nova_try_inv H.
move: dE {H}; rewrite /dummy => H; inv_ok H; by case: H => <-.
Qed.

Lemma dummy_ok rngs k : (0 < size rngs)%N -> exists c, dummy shared_constants rngs k = Ok c.
Proof.
by case: rngs => // r rngs _; rewrite /dummy /sign /= Schnorr.challengeE /=; eexists.
Qed.

Lemma load_no_panic rngs k dir : (0 < size rngs)%N -> never_panics (load_public_params rngs k dir).
Proof.
move=> /(dummy_ok k) [c cE]; rewrite /load_public_params cE /=; exact: nova_try_no_panic.
Qed.

Lemma setup_inv pp vk : setup_compressed_verifier pp = Ok vk ->
  exists pk, cs_setup pp = inr (pk, inner vk).
Proof.
rewrite /setup_compressed_verifier => H; inv_ok H; case: H => <-.
by exists v.1; rewrite (nova_try_inv E0); case: (v).
Qed.

Lemma setup_ok pp pk nvk : cs_setup pp = inr (pk, nvk) ->
  setup_compressed_verifier pp = Ok (MkCompressedVerifyingKey nvk).
Proof. by rewrite /setup_compressed_verifier => ->. Qed.
End Parameters.

Section Proving.
Context {E : CurveEngine} {L : CurveLaws E} {C : SigningCodecs E} {CL : SigningCodecLaws C}.
Context {N : Nova E} {PCo : ProofCodecs N} {PCL : ProofCodecLaws PCo}.
Implicit Types (ab : AddressBook) (bv : BitVector).

(** The genesis hints hash of the chain that a call extends. *)
Definition genesis_hints (pf : option bytes) (vk : bytes) : Base :=
  match pf with
  | None => compute_hints_vk_hash vk
  | Some b => if decode b is Ok running then nth 0 (u_z0 running) 1 else 0
  end.

Lemma start_inv pp c h vkh pf run : start_or_resume pp c h vkh pf = Ok run ->
  size (u_z0 run) = 2 /\ (pf = None -> u_z0 run = [:: h; vkh]) /\
  (forall b, pf = Some b -> decode b = Ok run).
Proof.
case: pf => [b|] /= H; inv_ok H; case: H => <-; last by [].
case/norP: C0 => _ /norP[/negPn/eqP -> _]; split=> //; split=> // _ [<-] //.
Qed.

Lemma start_no_panic pp c h vkh pf : never_panics (start_or_resume pp c h vkh pf).
Proof.
case: pf => [b|] /=; apply: bind_no_panic => [|r _] //; try exact: decode_no_panic.
  by case: ifP.
exact: nova_try_no_panic.
Qed.

Lemma genesis_hintsE pp c h pf vk run :
  start_or_resume pp c h (compute_hints_vk_hash vk) pf = Ok run ->
  nth 0 (u_z0 run) 1 = genesis_hints pf vk.
Proof.
case: pf => [b|] /start_inv [_ [z d]]; last by rewrite z.
by rewrite /genesis_hints (d b).
Qed.

Lemma advance_inv pp c g vk run u cp : advance pp c g vk run = Ok (u, cp) ->
  size (u_z0 run) = 2 ->
  exists lid vkc,
  [/\ encode ((g, nth 0 (u_z0 run) 1) : RotationMessage) = Ok lid,
      setup_compressed_verifier pp = Ok vkc,
      verify_uncompressed_wraps_proof pp u lid vk = Ok true &
      verify_compressed_wraps_proof vkc cp lid vk = Ok true].
Proof.
rewrite /advance => H sz; inv_ok H; case: H => <- <-.
rewrite (vec_get_lt _ 0) ?sz // in E1; case: E1 => zE; rewrite -zE /= in E2.
exists v1, (MkCompressedVerifyingKey v4.2); rewrite (negbFE C0) in E4.
rewrite (negbFE C1) in E8; split=> //.
by rewrite (setup_ok (pk := v4.1) (nvk := v4.2)) // (nova_try_inv E5); case: (v4).
Qed.

Lemma uncompressed_no_panic pp b lid vk :
  never_panics (verify_uncompressed_wraps_proof pp b lid vk).
Proof.
rewrite verify_uncompressedE; apply: bind_no_panic => [|? _]; first exact: decode_rotation_no_panic.
by apply: bind_no_panic => //; apply: decode_no_panic.
Qed.

Lemma compressed_no_panic vkc b lid vk :
  never_panics (verify_compressed_wraps_proof vkc b lid vk).
Proof.
rewrite verify_compressedE; apply: bind_no_panic => [|? _]; first exact: decode_rotation_no_panic.
by apply: bind_no_panic => //; apply: decode_no_panic.
Qed.

Lemma advance_no_panic pp c g vk run : size (u_z0 run) = 2 ->
  never_panics (advance pp c g vk run).
Proof.
move=> sz; apply: bind_no_panic => [|s _]; first exact: nova_try_no_panic.
rewrite /= (vec_get_lt _ 0) ?sz //=.
do 2 (apply: bind_no_panic => [|? _]; first exact: encode_no_panic).
apply: bind_no_panic => [|? _]; [exact: uncompressed_no_panic|case: ifP => // _].
do 2 (apply: bind_no_panic => [|? _]; first exact: nova_try_no_panic).
apply: bind_no_panic => [|? _]; first exact: encode_no_panic.
apply: bind_no_panic => [|? _]; last by case: ifP.
exact: compressed_no_panic.
Qed.

(** Both outputs are accepted for the ledger id [(g, gh)] and the hints key [vk]. *)
Definition accepted (pp : PublicParams) (g gh : Base) (vk : bytes) (out : bytes * bytes) : Prop :=
  exists2 vkc, setup_compressed_verifier pp = Ok vkc & forall lid, decode lid = Ok (g, gh) ->
    verify_uncompressed_wraps_proof pp out.1 lid vk = Ok true /\
    verify_compressed_wraps_proof vkc out.2 lid vk = Ok true.

(** The advance of an honest prover. *)
Lemma advance_ok SB GP (ivc : PublicParams -> RecursiveSNARK -> nat -> seq Base -> seq Base -> Prop)
    (NC : @NovaComplete E SB N GP ivc) pp c g gh h vk run s' n :
  rs_prove_step pp c (u_snark run) = inr s' -> u_z0 run = [:: g; gh] ->
  ivc pp s' n [:: g; gh] [:: h; compute_hints_vk_hash vk] ->
  exists u cp, [/\ advance pp c g vk run = Ok (u, cp), accepted pp g gh vk (u, cp) &
    decode u = Ok (MkUncompressedWrapsProof n [:: g; gh] [:: h; compute_hints_vk_hash vk] s')].
Proof.
move=> pE zE iE; have [_ nE oE vE] := ivc_state iE.
have [pk [nvk [cs [kE cE wE]]]] := ivc_compress iE.
set zi := [:: h; _] in iE oE vE wE *.
have [lid lE lD] := encode_ok ((g, gh) : RotationMessage).
have [u uE uD] := encode_ok (MkUncompressedWrapsProof n [:: g; gh] zi s').
have [cp cpE cpD] := encode_ok (MkCompressedWrapsProof n [:: g; gh] zi cs).
have st : states (g, gh) vk [:: g; gh] zi by split=> //; exists h.
pose vkc := MkCompressedVerifyingKey nvk.
have both l : decode l = Ok (g, gh) -> verify_uncompressed_wraps_proof pp u l vk = Ok true /\
    verify_compressed_wraps_proof vkc cp l vk = Ok true.
  move=> lD'; rewrite verify_uncompressed_true verify_compressed_true.
  by split; exists (g, gh); eexists; split; [|exact: uD| | | |exact: cpD|..].
exists u, cp; split=> //; last by exists vkc => //; apply: setup_ok kE.
have [uT cT] := both lid lD.
by rewrite /advance pE /= zE /= nE oE lE /= uE /= uT /= kE /= cE /= cpE /= cT.
Qed.
Lemma construct_no_panic pp g prev next pf vk ms :
  never_panics (construct_wraps_proof pp g prev next pf vk ms).
Proof.
case: ms => bv sig; rewrite /construct_wraps_proof; case vp: verify_address_book => //=.
case vn: (verify_address_book next) => //=; have /verify_address_bookP [le _ _ _] := vp.
have /verify_address_bookP [len _ _ _] := vn.
rewrite slice_from_ok ?size_tuple //=; case: has => //=.
rewrite !pad_address_bookE le len /= !hash_padded //=; case: (_ && _) => //; case: (_ && _) => //.
apply: bind_no_panic => [|msg _]; first exact: compute_rotation_no_panic.
apply: bind_no_panic => [|ok _]; first exact: verify_signature_no_panic.
case: ifP => // _; apply: bind_no_panic => [|m _]; first exact: decode_rotation_no_panic.
apply: bind_no_panic => [|run /start_inv [sz _]]; first exact: start_no_panic.
exact: advance_no_panic.
Qed.
End Proving.

(** ** Properties *)
Section Verified.
Context {E : CurveEngine} {L : CurveLaws E} {C : SigningCodecs E} {CL : SigningCodecLaws C}.
Context {N : Nova E} {PCo : ProofCodecs N} {PCL : ProofCodecLaws PCo}.
Implicit Types (ab : AddressBook) (bv : BitVector).

(** C14: what both verifiers accept.  [verify_uncompressed_wraps_proof] and
    [verify_compressed_wraps_proof] return [true] exactly when the ledger id and the
    proof decode, the proof's initial state is the two elements of the ledger id (the
    hints component included), its final state carries the hash of the given hints
    key, and the SNARK verifies from that initial to that final state. *)
Theorem verify_wraps_proof_spec pp vkc proof lid vk :
  (verify_uncompressed_wraps_proof pp proof lid vk = Ok true <->
   exists g gh h n snark,
   [/\ decode lid = Ok (g, gh),
       decode proof = Ok (MkUncompressedWrapsProof n [:: g; gh]
                            [:: h; compute_hints_vk_hash vk] snark) &
       rs_verify pp n [:: g; gh] snark = inr [:: h; compute_hints_vk_hash vk]]) /\
  (verify_compressed_wraps_proof vkc proof lid vk = Ok true <->
   exists g gh h n snark,
   [/\ decode lid = Ok (g, gh),
       decode proof = Ok (MkCompressedWrapsProof n [:: g; gh]
                            [:: h; compute_hints_vk_hash vk] snark) &
       cs_verify (inner vkc) n [:: g; gh] snark = inr [:: h; compute_hints_vk_hash vk]]).
Proof.
split; [rewrite verify_uncompressed_true|rewrite verify_compressed_true]; split.
- case=> -[g gh] [[n z0 zi s] [dl dp [/= e0 [h e1]] ver]].
  by subst z0 zi; exists g, gh, h, n, s.
- case=> g [gh] [h] [n] [s] [dl dp ver]; exists (g, gh); eexists.
  by split; [exact: dl|exact: dp|split=> //; exists h|exact: ver].
- case=> -[g gh] [[n z0 zi s] [dl dp [/= e0 [h e1]] ver]].
  by subst z0 zi; exists g, gh, h, n, s.
- case=> g [gh] [h] [n] [s] [dl dp ver]; exists (g, gh); eexists.
  by split; [exact: dl|exact: dp|split=> //; exists h|exact: ver].
Qed.

(** C13: what the prover vouches for.  When [construct_wraps_proof] returns, both
    books are valid, the signature selects owned seats of the previous book that hold
    a strict majority and signed the next book and hints key; at genesis the previous
    book has the genesis hash and is carried over unchanged; and the two returned
    proofs are accepted by the two verifiers, under the ledger id made of the genesis
    hash and the chain's genesis hints hash. *)
Theorem construct_wraps_proof_sound pp g prev next pf vk bv sig u cp :
  construct_wraps_proof pp g prev next pf vk (bv, sig) = Ok (u, cp) ->
  rotation_ok g prev next (~~ isSome pf) vk bv sig /\
  exists lid vkc,
  [/\ encode ((g, genesis_hints pf vk) : RotationMessage) = Ok lid,
      setup_compressed_verifier pp = Ok vkc,
      verify_uncompressed_wraps_proof pp u lid vk = Ok true &
      verify_compressed_wraps_proof vkc cp lid vk = Ok true].
Proof.
move=> H; have ok : rotation_ok g prev next (~~ isSome pf) vk bv sig by apply: construct_inv H.
split=> //; rewrite (construct_ok pp ok) in H.
move: H; rewrite /fold_rotation; case sE: start_or_resume => [run| |] //= aE.
by rewrite -(genesis_hintsE sE); apply: advance_inv aE _; case/start_inv: sE.
Qed.

(** The proof layer never panics: loading parameters for the 64 seats of the
    dummy circuit, constructing proofs and verifying them return a value or an error,
    on any input. *)
Theorem wraps_proofs_never_panic pp vkc g prev next pf vk ms proof lid rngs k dir :
  [/\ never_panics (construct_wraps_proof pp g prev next pf vk ms),
      never_panics (verify_uncompressed_wraps_proof pp proof lid vk),
      never_panics (verify_compressed_wraps_proof vkc proof lid vk),
      never_panics (setup_compressed_verifier pp) &
      size rngs = MAX_AB_SIZE -> never_panics (load_public_params rngs k dir)].
Proof.
split; [|exact: uncompressed_no_panic|exact: compressed_no_panic| |].
- exact: construct_no_panic.
- by apply: bind_no_panic => //; apply: nova_try_no_panic.
- by move=> sz; apply: load_no_panic; rewrite sz.
Qed.
End Verified.

Section Sound.
Context {E : CurveEngine} {L : CurveLaws E} {SB : ScalarBits E} {FL : CircuitFieldLaws SB}.
Context {G : Gadgets satisfying} {GL : GadgetLaws G forces} {PS : PointSound G}.
Context {C : SigningCodecs E} {N : Nova E} {PCo : ProofCodecs N} {NS : NovaSound N}.

Lemma steps_authorised n z z' :
  steps (satisfied_step shared_constants) n z z' -> steps authorised n z z'.
Proof. by apply: steps_sub => a b [c pcE]; apply: synthesize_sat. Qed.

(** What each verifier's acceptance shows, for parameters of the shared circuit. *)
Lemma uncompressed_authorised c dir pp proof lid vk :
  rc_pc c = shared_constants -> setup_with_ptau_dir c dir = inr pp ->
  verify_uncompressed_wraps_proof pp proof lid vk = Ok true ->
  exists g gh h n, [/\ decode lid = Ok (g, gh), (0 < n)%N &
    steps authorised n [:: g; gh] [:: h; compute_hints_vk_hash vk]].
Proof.
move=> pcE sE /verify_uncompressed_true [] [g gh] [run [dl _ [-> [h ->]]]].
case/(rs_verify_sound sE) => n0 st; rewrite pcE in st.
by exists g, gh, h, (u_num_steps run); split=> //; apply: steps_authorised.
Qed.

Lemma compressed_authorised c dir pp pk vkc proof lid vk :
  rc_pc c = shared_constants -> setup_with_ptau_dir c dir = inr pp ->
  cs_setup pp = inr (pk, inner vkc) -> verify_compressed_wraps_proof vkc proof lid vk = Ok true ->
  exists g gh h n, [/\ decode lid = Ok (g, gh), (0 < n)%N &
    steps authorised n [:: g; gh] [:: h; compute_hints_vk_hash vk]].
Proof.
move=> pcE sE kE /verify_compressed_true [] [g gh] [p [dl _ [-> [h ->]]]].
case/(cs_verify_sound sE kE) => n0 st; rewrite pcE in st.
by exists g, gh, h, (c_num_steps p); split=> //; apply: steps_authorised.
Qed.

(** C1: soundness of accepted chains.  For parameters that [load_public_params]
    returned, a proof that either verifier accepts for a ledger id and a hints key
    stands for at least one step, and every step from the state in the ledger id to a
    state with that hints key was authorised: 64 seats hash to the state's first
    element, the named ones hold a strict majority of their total weight, and the next
    state is signed under the joint key of any book the seats stand for, in particular
    of the book whose own preimage is what was hashed. *)
Theorem accepted_chain_authorised rngs k dir pp proof lid vk :
  load_public_params rngs k dir = Ok pp ->
  verify_uncompressed_wraps_proof pp proof lid vk = Ok true \/
  (exists2 vkc, setup_compressed_verifier pp = Ok vkc &
                verify_compressed_wraps_proof vkc proof lid vk = Ok true) ->
  exists g gh h n,
  [/\ decode lid = Ok (g, gh), (0 < n)%N &
      steps authorised n [:: g; gh] [:: h; compute_hints_vk_hash vk]].
Proof.
case/load_inv => c pcE sE [|[vkc /setup_inv [pk kE]]]; first exact: uncompressed_authorised pcE sE.
exact: compressed_authorised pcE sE kE.
Qed.
End Sound.

Section Live.
Context {E : CurveEngine} {L : CurveLaws E} {SB : ScalarBits E} {FL : CircuitFieldLaws SB}.
Context {G : Gadgets proving} {GL : GadgetLaws G proves} {PC : PointComplete G}.
Context {C : SigningCodecs E} {CL : SigningCodecLaws C}.
Context {N : Nova E} {PCo : ProofCodecs N} {PCL : ProofCodecLaws PCo}.
Context {ivc : PublicParams -> RecursiveSNARK -> nat -> seq Base -> seq Base -> Prop}.
Context {NC : NovaComplete ivc}.
Implicit Types (ab : AddressBook) (bv : BitVector).

(** A rotation as the caller supplies it: the next book and hints key, and the
    multisignature of the current book's owners. *)
Record Rotation : Type := MkRotation {
  r_next : AddressBook;
  r_vk : bytes;
  r_bv : BitVector;
  r_sig : Signature
}.

(** Weights are [u64]s. *)
Definition u64_weights ab : bool := all (fun e => weight e <? U64)%num ab.

Definition signed_by (g : Base) ab (genesis : bool) (r : Rotation) : Prop :=
  u64_weights ab /\ rotation_ok g ab (r_next r) genesis (r_vk r) (r_bv r) (r_sig r).

(** Each rotation is signed by the book that the one before it installed. *)
Fixpoint signed_chain (g : Base) ab (rs : seq Rotation) : Prop :=
  if rs is r :: rs' then signed_by g ab false r /\ signed_chain g (r_next r) rs' else True.

(** The caller's loop: each running proof is fed to the next call. *)
Fixpoint extend (pp : PublicParams) (g : Base) ab (out : bytes * bytes) (rs : seq Rotation) :
    result (bytes * bytes) :=
  if rs is r :: rs' then
    let* out := construct_wraps_proof pp g ab (r_next r) (Some out.1) (r_vk r)
                  (r_bv r, r_sig r) in
    extend pp g (r_next r) out rs'
  else Ok out.

(** The outputs of an honest prover after [n] steps. *)
Definition honest_output pp g gh h vk n (out : bytes * bytes) : Prop :=
  accepted pp g gh vk out /\
  exists2 s, decode out.1 = Ok (MkUncompressedWrapsProof n [:: g; gh]
                                  [:: h; compute_hints_vk_hash vk] s) &
    ivc pp s n [:: g; gh] [:: h; compute_hints_vk_hash vk].

Lemma rotation_proven c0 g ab (gen : bool) r z : rc_pc c0 = shared_constants ->
  signed_by g ab gen r -> size z = 2 -> nth 0 z 0 = book_hash ab ->
  proven_step c0 (rotation_circuit ab (r_next r) (r_vk r) (r_bv r) (r_sig r)) z
    [:: book_hash (r_next r); compute_hints_vk_hash (r_vk r)].
Proof.
move=> pcE [wts [sel vn ent _]] sz hz; split; first by rewrite pcE.
have le := sel_size sel; have [/verify_address_bookP [_ _ _ lt] _ _] := sel.
apply: synthesize_proves => //=; rewrite ?size_padded // ?total_weight_padded ?entitled_padded //.
  by move: wts; rewrite /u64_weights /padded all_cat all_nseq orbC => ->.
by rewrite hz hash_padded.
Qed.

Lemma genesis_output c0 dir pp ab r : rc_pc c0 = shared_constants ->
  setup_with_ptau_dir c0 dir = inr pp -> signed_by (book_hash ab) ab true r ->
  exists2 out, construct_wraps_proof pp (book_hash ab) ab (r_next r) None (r_vk r)
                 (r_bv r, r_sig r) = Ok out &
    honest_output pp (book_hash ab) (compute_hints_vk_hash (r_vk r)) (book_hash (r_next r))
      (r_vk r) 1 out.
Proof.
move=> pcE sE sig; have [_ ok] := sig; rewrite construct_ok // /fold_rotation /=.
have [s nE [s' pE iE]] := ivc_start sE
  (rotation_proven (z := [:: book_hash ab; compute_hints_vk_hash (r_vk r)]) pcE sig erefl erefl).
rewrite nE /=; set run := MkUncompressedWrapsProof _ _ _ s.
have [u [cp [aE acc dE]]] := advance_ok (run := run) NC pE erefl iE.
by rewrite aE; exists (u, cp) => //; split=> //; exists s'.
Qed.

Lemma next_output c0 dir pp g gh ab vk n out r : rc_pc c0 = shared_constants ->
  setup_with_ptau_dir c0 dir = inr pp -> signed_by g ab false r ->
  honest_output pp g gh (book_hash ab) vk n out ->
  exists2 out', construct_wraps_proof pp g ab (r_next r) (Some out.1) (r_vk r)
                 (r_bv r, r_sig r) = Ok out' &
    honest_output pp g gh (book_hash (r_next r)) (r_vk r) n.+1 out'.
Proof.
move=> pcE sE sig [_ [s dE iE]]; have [_ ok] := sig; rewrite construct_ok // /fold_rotation /= dE /=.
have [n0 nE oE _] := ivc_state iE.
rewrite /metadata_mismatch /= nE oE !eqxx (gtn_eqF n0) /=.
have [s' pE iE'] := ivc_next sE iE (rotation_proven (z := [:: _; _]) pcE sig erefl erefl).
set run := MkUncompressedWrapsProof _ _ _ s.
have [u [cp [aE acc dE']]] := advance_ok (run := run) NC pE erefl iE'.
by rewrite aE; exists (u, cp) => //; split=> //; exists s'.
Qed.

Lemma extend_output c0 dir pp g gh ab vk n out rs : rc_pc c0 = shared_constants ->
  setup_with_ptau_dir c0 dir = inr pp -> signed_chain g ab rs ->
  honest_output pp g gh (book_hash ab) vk n out ->
  exists2 out', extend pp g ab out rs = Ok out' &
    honest_output pp g gh (book_hash (last ab (map r_next rs))) (last vk (map r_vk rs))
      (n + size rs) out'.
Proof.
move=> pcE sE; elim: rs ab vk n out => [|r rs IH] ab vk n out /=.
  by move=> _ ok; exists out; rewrite ?addn0.
case=> sig chain ok; have [out1 -> ok1] := next_output pcE sE sig ok.
by rewrite /= addnS -addSn; apply: IH chain ok1.
Qed.

(** C2: chains can be proven.  Start at a valid book that its own majority signs at
    genesis, and let each next book and hints key be signed by a strict majority of
    the current book, weights being [u64]s.  With parameters from
    [load_public_params], every call of [construct_wraps_proof] along the chain
    succeeds, each fed with the running proof of the one before, and both final
    proofs are accepted by the verifiers for the ledger id of the genesis book and
    genesis hints key and for the last hints key. *)
Theorem signed_chains_are_proven rngs k dir pp ab0 r rs :
  load_public_params rngs k dir = Ok pp ->
  signed_by (book_hash ab0) ab0 true r -> signed_chain (book_hash ab0) (r_next r) rs ->
  exists out0 u cp lid vkc,
  [/\ construct_wraps_proof pp (book_hash ab0) ab0 (r_next r) None (r_vk r)
        (r_bv r, r_sig r) = Ok out0,
      extend pp (book_hash ab0) (r_next r) out0 rs = Ok (u, cp),
      compute_rotation_message ab0 (r_vk r) = Ok lid /\ setup_compressed_verifier pp = Ok vkc,
      verify_uncompressed_wraps_proof pp u lid (last (r_vk r) (map r_vk rs)) = Ok true &
      verify_compressed_wraps_proof vkc cp lid (last (r_vk r) (map r_vk rs)) = Ok true].
Proof.
case/load_inv => c0 pcE sE sig chain.
have [out0 cE ok0] := genesis_output pcE sE sig.
have [[u cp] eE [[vkc kE acc] _]] := extend_output pcE sE chain ok0.
have [lid lE lD] : exists2 b, compute_rotation_message ab0 (r_vk r) = Ok b &
    decode b = Ok (book_hash ab0, compute_hints_vk_hash (r_vk r)).
  by apply: rotation_message; case: sig => _ [[]].
by have [uT cT] := acc lid lD; exists out0, u, cp, lid, vkc.
Qed.
End Live.
