(* ===== verification/NovaToy.v ===== *)
(** * A concrete Nova: proofs that carry their circuits

    The running proof holds its initial state, its step circuits and its step count,
    and verification replays the circuits.  It meets [NovaSound] and [NovaComplete],
    and a chain of two rotations over the rational curve is proven and verified. *)
From Stdlib Require Import Strings.Byte Strings.String NArith Lia.
From S2P Require Import Prelude SeqFacts WrapsErrors WrapsEngine WrapsUtils Schnorr Multisig.
From S2P Require Import AddressBook Signing SigningFacts BookTheorems Circuit CircuitFacts.
From S2P Require Import CircuitSound CircuitComplete CircuitAdequacy CircuitToy WrapsProof WrapsChain ChainTheorems.
From mathcomp Require Import ssreflect ssrfun ssrbool eqtype ssrnat seq choice.
From mathcomp Require Import fintype tuple bigop ssralg ssrnum ssrint rat zmodp.
Import GRing.Theory.
Set Warnings "-rewrite-rw".
Set Implicit Arguments.
Unset Strict Implicit.
Unset Printing Implicit Defensive.
Local Open Scope ring_scope.

Section Replay.
Context {E : CurveEngine} {SB : ScalarBits E} {GP : Gadgets proving}.

(** Initial state, circuits, completed steps. *)
Definition replay_snark : Type := seq Base * seq RotationCircuit * nat.

Definition replay_step (z : option (seq Base)) (c : RotationCircuit) : option (seq Base) :=
  if z is Some z then if synthesize c z is Ok (z', true) then Some z' else None else None.

Definition replay (z : seq Base) (cs : seq RotationCircuit) : option (seq Base) :=
  foldl replay_step (Some z) cs.

Definition replay_new (c : RotationCircuit) (z0 : seq Base) : string + replay_snark :=
  if replay z0 [:: c] is Some _ then inr (z0, [:: c], 0%N) else inl "unsatisfied"%string.

Definition replay_prove (c : RotationCircuit) (s : replay_snark) : string + replay_snark :=
  let: (z0, cs, i) := s in
  if i == 0%N then inr (z0, cs, 1%N)
  else if replay z0 (rcons cs c) is Some _ then inr (z0, rcons cs c, i.+1)
  else inl "unsatisfied"%string.

Definition replay_outputs (s : replay_snark) : seq Base :=
  if replay s.1.1 s.1.2 is Some z then z else [::].

Definition replay_verify (n : nat) (z0 : seq Base) (s : replay_snark) : string + seq Base :=
  if [&& (0 < n)%N, n == s.2, n == size s.1.2 & z0 == s.1.1]
  then if replay z0 s.1.2 is Some z then inr z else inl "unsatisfied"%string
  else inl "bad statement"%string.

#[export] Instance replay_nova : Nova E := {|
  PublicParams := Constants;
  RecursiveSNARK := replay_snark;
  CompressedSNARK := replay_snark;
  NovaProverKey := unit;
  NovaVerifierKey := unit;
  setup_with_ptau_dir := fun c _ => inr (rc_pc c);
  rs_new := fun _ => replay_new;
  rs_num_steps := fun s => s.2;
  rs_outputs := replay_outputs;
  rs_prove_step := fun _ => replay_prove;
  rs_verify := fun _ => replay_verify;
  cs_setup := fun _ => inr (tt, tt);
  cs_prove := fun _ _ s => inr s;
  cs_verify := fun _ => replay_verify
|}.

Lemma replay_rcons z cs c : replay z (rcons cs c) = replay_step (replay z cs) c.
Proof. by rewrite /replay -cats1 foldl_cat. Qed.

Lemma replay_stepP z c z' : replay_step (Some z) c = Some z' <-> proves (synthesize c z) z'.
Proof.
rewrite /replay_step /proves; case: synthesize => [[w []]| |] //; split=> // -[->] //.
Qed.

(** The invariant of the honest prover. *)
Definition replay_ivc (_ : Constants) (s : replay_snark) (n : nat) (z0 z : seq Base) : Prop :=
  [/\ (0 < n)%N, s.2 = n, size s.1.2 = n, s.1.1 = z0 & replay z0 s.1.2 = Some z].

Lemma replay_ivc_verify pc s n z0 z : replay_ivc pc s n z0 z -> replay_verify n z0 s = inr z.
Proof.
by case=> n0 e1 e2 e3 rE; rewrite /replay_verify n0 e1 e2 e3 !eqxx /= rE.
Qed.

#[export] Instance replay_complete : NovaComplete replay_ivc.
Proof.
split.
- move=> c0 dir pp c z0 z1 _ [_ /replay_stepP st]; exists (z0, [:: c], 0%N).
    by rewrite /rs_new /= /replay_new /replay /foldl st.
  by exists (z0, [:: c], 1%N).
- move=> c0 dir pp c [[z0' cs] i] n z0 z z' _ [n0 /= ? ? ? rE] [_ /replay_stepP st]; subst.
  exists (z0, rcons cs c, (size cs).+1).
    by rewrite /rs_prove_step /= (gtn_eqF n0) replay_rcons rE st.
  by split; rewrite //= ?size_rcons // replay_rcons rE.
- move=> pp s n z0 z iv; have := replay_ivc_verify iv; case: iv => n0 e1 e2 e3 rE vE; split=> //.
  by rewrite /rs_outputs /= /replay_outputs e3 rE.
- move=> pp s n z0 z iv; exists tt, tt, s; split=> //; exact: replay_ivc_verify iv.
Qed.

Context {GS : Gadgets satisfying} {GA : GadgetsAgree GP GS}.
Hypothesis one_constants : forall a b : Constants, a = b.

Lemma replay_steps pc z0 cs z : replay z0 cs = Some z ->
  steps (satisfied_step pc) (size cs) z0 z.
Proof.
elim/last_ind: cs z => [|cs c IH] z; first by case=> <-; apply: steps_refl.
rewrite replay_rcons size_rcons; case rE: replay => [z'|] // /replay_stepP st.
apply: steps_snoc (IH _ rE) _; exists c; first exact: one_constants.
exact: synthesize_agrees st.
Qed.

Lemma replay_verify_sound pc n z0 zi s : replay_verify n z0 s = inr zi ->
  (0 < n)%N /\ steps (satisfied_step pc) n z0 zi.
Proof.
rewrite /replay_verify; case: and4P => [[n0 _ /eqP nE _]|] //.
by case rE: replay => [z|] // [<-]; split=> //; rewrite nE; exact: replay_steps.
Qed.

Lemma replay_sound : NovaSound replay_nova.
Proof. by split=> [c0 dir pp|c0 dir pp pk vk] n z0 zi s; [move=> _|move=> _ _]; exact: replay_verify_sound. Qed.
End Replay.

(** ** Codecs: every value is pickled, and its code is the number of bytes *)
Section Pickled.
Context {T : Type} {Code : countType} {to : T -> Code} {from : Code -> T}.
Hypothesis toK : cancel to from.

Definition pickled : Bincode T := {|
  encode_to_vec := fun v => inr (nseq (pickle (to v)) x00);
  decode_from_slice := fun b =>
    if @unpickle Code (size b) is Some c then inr (from c, size b) else inl "bad code"%string
|}.

Lemma pickled_laws : BincodeLaws pickled.
Proof.
split=> v; exists (nseq (pickle (to v)) x00) => //=.
by rewrite size_nseq pickleK toK.
Qed.
End Pickled.

Section Codes.
Abbreviation F := 'F_97.
Abbreviation E := rat_curve.

Definition sig_code (s : @Signature E) : rat * F := (sig_e s, sig_s s).
Definition code_sig (c : rat * F) : @Signature E := @MkSignature E c.1 c.2.

Definition entry_code (e : @AddressBookEntry E) : rat * (F * (F * F * F)) * nat :=
  (e.1.1, (e.1.2.1, (pok_commitment e.1.2.2, pok_challenge_field e.1.2.2, pok_response e.1.2.2)),
   N.to_nat e.2).
Definition code_entry (c : rat * (F * (F * F * F)) * nat) : @AddressBookEntry E :=
  (c.1.1, (c.1.2.1, @MkSchnorrPoK E c.1.2.2.1.1 c.1.2.2.1.2 c.1.2.2.2), N.of_nat c.2).

Lemma entry_codeK : cancel entry_code code_entry.
Proof. by case=> [[i [pk [a b c]]] w]; rewrite /code_entry /entry_code /= N2Nat.id. Qed.

Definition circuit_code (c : @RotationCircuit E) :
    seq (rat * (F * (F * F * F)) * nat) * BitVector * (rat * F) * (rat * rat) :=
  (map entry_code (rc_prev_ab c), rc_bitvector c, sig_code (rc_sig c), rc_msg c).
Definition code_circuit
    (c : seq (rat * (F * (F * F * F)) * nat) * BitVector * (rat * F) * (rat * rat)) :
    @RotationCircuit E :=
  @MkRotationCircuit E tt (map code_entry c.1.1.1) c.1.1.2 (code_sig c.1.2) c.2.

Lemma circuit_codeK : cancel circuit_code code_circuit.
Proof.
case=> -[] ab bv [e s] m; rewrite /code_circuit /circuit_code /=; congr MkRotationCircuit.
exact: mapK entry_codeK ab.
Qed.

Definition snark_code (s : @replay_snark E) :=
  (s.1.1 : seq rat, map circuit_code s.1.2, s.2).
Definition code_snark c : @replay_snark E := (c.1.1, map code_circuit c.1.2, c.2).

Lemma snark_codeK : cancel snark_code code_snark.
Proof.
by case=> [[z0 cs] i]; rewrite /code_snark /snark_code /= (mapK circuit_codeK).
Qed.

Definition running_code (p : @UncompressedWrapsProof E replay_nova) :=
  (u_num_steps p, u_z0 p : seq rat, u_zi p : seq rat, snark_code (u_snark p)).
Definition code_running c : @UncompressedWrapsProof E replay_nova :=
  @MkUncompressedWrapsProof E replay_nova c.1.1.1 c.1.1.2 c.1.2 (code_snark c.2).
Lemma running_codeK : cancel running_code code_running.
Proof. by case=> n z0 zi s; rewrite /code_running /running_code snark_codeK. Qed.

Definition compressed_code (p : @CompressedWrapsProof E replay_nova) :=
  (c_num_steps p, c_z0 p : seq rat, c_zi p : seq rat, snark_code (c_snark p)).
Definition code_compressed c : @CompressedWrapsProof E replay_nova :=
  @MkCompressedWrapsProof E replay_nova c.1.1.1 c.1.1.2 c.1.2 (code_snark c.2).
Lemma compressed_codeK : cancel compressed_code code_compressed.
Proof. by case=> n z0 zi s; rewrite /code_compressed /compressed_code snark_codeK. Qed.

Definition round_code (m : @RoundMessage E) : seq nat + (F + (rat * F)) :=
  match m with
  | Round1 p => inl (map Byte.to_nat (nonce_commitment p))
  | Round2 p => inr (inl (nonce_point p))
  | Round3 p => inr (inr (sig_code (partial_signature p)))
  end.
Definition code_round (c : seq nat + (F + (rat * F))) : @RoundMessage E :=
  match c with
  | inl b => Round1 (MkRound1 (map toy_byte b))
  | inr (inl p) => Round2 (@MkRound2 E p)
  | inr (inr s) => Round3 (MkRound3 (code_sig s))
  end.

Lemma byte_natK : cancel Byte.to_nat toy_byte.
Proof. by case; vm_compute. Qed.

Lemma round_codeK : cancel round_code code_round.
Proof. by case=> -[x] //=; [rewrite (mapK byte_natK)|case: x]. Qed.
End Codes.

#[export] Instance rat_codecs : SigningCodecs rat_curve := {|
  rotation_codec := @pickled (rat * rat) (rat * rat)%type id id;
  round_codec := @pickled _ _ round_code code_round
|}.

#[export] Instance rat_codec_laws : SigningCodecLaws rat_codecs.
Proof. by split; apply: pickled_laws => //; exact: round_codeK. Qed.

#[export] Instance rat_proof_codecs : ProofCodecs (@replay_nova rat_curve rat_bits rat_proving) := {|
  uncompressed_codec := @pickled _ _ running_code code_running;
  compressed_codec := @pickled _ _ compressed_code code_compressed
|}.

#[export] Instance rat_proof_codec_laws : ProofCodecLaws rat_proof_codecs.
Proof. split; apply: pickled_laws; [exact: running_codeK|exact: compressed_codeK]. Qed.

#[export] Instance rat_nova_sound : NovaSound (@replay_nova rat_curve rat_bits rat_proving).
Proof. by apply: replay_sound => -[] []. Qed.

(** ** Two rotations: genesis onto itself, then to a second book *)
Definition chain_key (i : nat) := @wraps_keygen rat_curve [:: toy_byte i].
Definition book_a : @AddressBook rat_curve := [:: (5%:R, (chain_key 1).2, 7%num)].
Definition book_b : @AddressBook rat_curve := [:: (6%:R, (chain_key 2).2, 9%num)].
Definition vk_a : bytes := [:: x0a].
Definition vk_b : bytes := [:: x0b].

Definition chain_sig (i : nat) (m : @RotationMessage rat_curve) : @Signature rat_curve :=
  let kp := @MkKeypair rat_curve (chain_key i).1 (chain_key i).2.1 in
  if sign shared_constants kp (message_elements m) 8%:R is Ok s then s else MkSignature 0 0.

Definition rotate_a : @Rotation rat_curve :=
  MkRotation book_a vk_a rat_bv (chain_sig 1 (book_hash book_a, compute_hints_vk_hash vk_a)).
Definition rotate_b : @Rotation rat_curve :=
  MkRotation book_b vk_b rat_bv (chain_sig 1 (book_hash book_b, compute_hints_vk_hash vk_b)).

Lemma book_a_subset : signing_subset book_a rat_bv = [:: (chain_key 1).2.1].
Proof. by apply/eqP; vm_compute. Qed.

Lemma a_entitled r : r = rotate_a \/ r = rotate_b ->
  entitled book_a (r_bv r) (book_hash (r_next r), compute_hints_vk_hash (r_vk r)) (r_sig r).
Proof.
case=> ->; rewrite /entitled /joint book_a_subset /joint_key big_seq1; apply/and3P;
  by split; vm_compute.
Qed.

Lemma a_selection : selection book_a rat_bv.
Proof. by split; vm_compute. Qed.

Lemma signed_a : signed_by (book_hash book_a) book_a true rotate_a.
Proof.
split; first by vm_compute.
split; [exact: a_selection|by vm_compute|by apply: a_entitled; left|by []].
Qed.

Lemma signed_b : signed_by (book_hash book_a) book_a false rotate_b.
Proof.
split; first by vm_compute.
split; [exact: a_selection|by vm_compute|by apply: a_entitled; right|by []].
Qed.

(** ** What the commitments of concrete books bind *)

(** The first book with a weight that the small sponge does not tell from it. *)
Definition book_c : @AddressBook rat_curve := [:: (5%:R, (chain_key 1).2, 38%num)].

Lemma rat_u64_inj a b : (a < U64)%num -> (b < U64)%num ->
  @base_from rat_curve a = base_from b -> a = b.
Proof.
have lt72 x : (x < U64 -> x < 2 ^ 72)%num by move=> lt; apply: N.lt_trans lt _.
by move=> /lt72 lt /lt72 lt'; exact: base_from_inj.
Qed.

Lemma valid_hash (ab : @AddressBook rat_curve) :
  verify_address_book ab -> compute_addressbook_hash ab = Ok (book_hash ab).
Proof. by move=> vb; rewrite compute_addressbook_hashE vb. Qed.

Lemma book_aE : compute_addressbook_hash book_a = Ok (book_hash book_a).
Proof. by apply: valid_hash; vm_compute. Qed.

Lemma book_cE : compute_addressbook_hash book_c = Ok (book_hash book_c).
Proof. by apply: valid_hash; vm_compute. Qed.

Lemma book_a_paddedE :
  compute_addressbook_hash (padded book_a) = Ok (book_hash (padded book_a)).
Proof. by apply: valid_hash; vm_compute. Qed.

Lemma weight_of_contents (e : @AddressBookEntry rat_curve) d :
  (head d (contents [:: e])).2 = weight e.
Proof. by []. Qed.

(** A book and its padded form have one commitment; two books of different weights
    with one commitment exhibit a collision. *)
Lemma book_hash_binds_witness :
  book_hash book_a = book_hash (padded book_a) /\
  [/\ book_elements (padded book_a) <> book_elements (padded book_c),
      size (book_elements (padded book_a)) = 320, size (book_elements (padded book_c)) = 320,
      poseidon_native shared_constants DS_ADDRESS_BOOK (book_elements (padded book_a)) =
        book_hash book_a &
      poseidon_native shared_constants DS_ADDRESS_BOOK (book_elements (padded book_c)) =
        book_hash book_a].
Proof.
have ua : u64_weights book_a by vm_compute.
have up : u64_weights (padded book_a) by vm_compute.
have uc : u64_weights book_c by vm_compute.
have eqh : book_hash book_a = book_hash book_c by apply/eqP; vm_compute.
have [same _] := book_hash_binds rat_u64_inj ua up book_aE book_a_paddedE.
have [_ other] := book_hash_binds rat_u64_inj ua uc book_aE book_cE.
split; first by apply: same; rewrite /contents [padded (padded _)]padded_id.
refine (other _ eqh) => /(congr1 (fun s => (head (0, 0, N0) s).2)).
by rewrite !weight_of_contents.
Defined.

Definition chain_rngs : seq (bytes * bytes) := nseq MAX_AB_SIZE ([::], [::]).

Lemma chain_load k dir :
  @load_public_params rat_curve replay_nova chain_rngs k dir = Ok tt.
Proof.
have [c cE] := dummy_ok k (isT : (0 < size chain_rngs)%N).
rewrite /load_public_params [X in bind X]cE -[LHS]/(Ok (rc_pc c)).
by case: (rc_pc c).
Qed.

(** The genesis step of the concrete chain. *)
Definition chain_genesis : result (bytes * bytes) :=
  construct_wraps_proof (tt : @PublicParams rat_curve replay_nova) (book_hash book_a) book_a book_a
    None vk_a (rat_bv, r_sig rotate_a).

Lemma chain_genesisP : exists u cp lid, [/\ chain_genesis = Ok (u, cp),
  decode lid = Ok (book_hash book_a, compute_hints_vk_hash vk_a) &
  verify_uncompressed_wraps_proof (tt : @PublicParams rat_curve replay_nova) u lid vk_a = Ok true].
Proof.
have [c pcE sE] := load_inv (chain_load 1 "ptau"%string).
have [[u cp] cE [[vkc _ acc] _]] := genesis_output pcE sE signed_a.
have [lid _ lD] := encode_ok
  ((book_hash book_a, compute_hints_vk_hash vk_a) : @RotationMessage rat_curve).
by exists u, cp, lid; split; [exact: cE|exact: lD|exact: (acc lid lD).1].
Qed.

Lemma signed_chains_are_proven_witness :
  exists out0 u cp lid vkc,
  [/\ construct_wraps_proof (tt : @PublicParams rat_curve replay_nova) (book_hash book_a) book_a
        book_a None vk_a (rat_bv, r_sig rotate_a) = Ok out0,
      extend tt (book_hash book_a) book_a out0 [:: rotate_b] = Ok (u, cp),
      compute_rotation_message book_a vk_a = Ok lid /\ setup_compressed_verifier tt = Ok vkc,
      verify_uncompressed_wraps_proof tt u lid vk_b = Ok true &
      verify_compressed_wraps_proof vkc cp lid vk_b = Ok true].
Proof.
apply: (signed_chains_are_proven (rs := [:: rotate_b]) (chain_load 1 "ptau"%string) signed_a).
by split; [exact: signed_b|].
Defined.

Lemma construct_wraps_proof_sound_witness :
  exists u cp, chain_genesis = Ok (u, cp) /\
  rotation_ok (book_hash book_a) book_a book_a true vk_a rat_bv (r_sig rotate_a) /\
  exists lid vkc,
  [/\ encode ((book_hash book_a, compute_hints_vk_hash vk_a) : @RotationMessage rat_curve) = Ok lid,
      setup_compressed_verifier (tt : @PublicParams rat_curve replay_nova) = Ok vkc,
      verify_uncompressed_wraps_proof tt u lid vk_a = Ok true &
      verify_compressed_wraps_proof vkc cp lid vk_a = Ok true].
Proof.
have [u [cp [lid [cE _ _]]]] := chain_genesisP; exists u, cp; split; first exact: cE.
exact: (construct_wraps_proof_sound (pf := None) cE).
Defined.

Lemma accepted_chain_authorised_witness :
  exists lid g gh h n,
  [/\ decode lid = Ok ((g, gh) : @RotationMessage rat_curve), (0 < n)%N &
      steps authorised n [:: g; gh] [:: h; compute_hints_vk_hash vk_a]].
Proof.
have [u [cp [lid [_ _ uT]]]] := chain_genesisP; exists lid.
exact: (accepted_chain_authorised (chain_load 1 "ptau"%string) (or_introl uT)).
Defined.

Lemma verify_wraps_proof_spec_witness :
  exists lid proof g gh h n snark,
  [/\ decode lid = Ok ((g, gh) : @RotationMessage rat_curve),
      decode proof = Ok (@MkUncompressedWrapsProof rat_curve replay_nova n [:: g; gh]
                           [:: h; compute_hints_vk_hash vk_a] snark) &
      replay_verify n [:: g; gh] snark = inr [:: h; compute_hints_vk_hash vk_a]].
Proof.
have [u [cp [lid [_ _ uT]]]] := chain_genesisP; exists lid, u.
exact: ((verify_wraps_proof_spec (tt : @PublicParams rat_curve replay_nova) (@MkCompressedVerifyingKey rat_curve replay_nova tt) u lid vk_a).1.1 uT).
Defined.

Lemma wraps_proofs_never_panic_witness :
  never_panics (@load_public_params rat_curve replay_nova chain_rngs 1 "ptau"%string).
Proof.
have [_ _ _ _ H] := wraps_proofs_never_panic (tt : @PublicParams rat_curve replay_nova)
  (@MkCompressedVerifyingKey rat_curve replay_nova tt) 0 [::] [::] None [::]
  (rat_bv, r_sig rotate_a) [::] [::] chain_rngs 1 "ptau"%string.
exact: H (size_nseq _ _).
Defined.
