(* ===== verification/CacheInterface.v ===== *)
(** * What the key caches promise to the JNI entry points

    [jni_hints.rs] reads reference strings and aggregation keys through the caches of
    [jni_cache.rs].  Its theorems use only this interface; [LruCache] discharges it. *)
From S2P Require Import Prelude.

(** The boxed error of [get]: from reading the Java array or from deserializing. *)
Inductive CacheError (JniError SerError : Type) : Type :=
| JniFailed (e : JniError)
| ParseFailed (e : SerError).
Arguments JniFailed {JniError SerError} e.
Arguments ParseFailed {JniError SerError} e.

(** A cache of values of type [T]: [JNIMapCache::new], [get] and [reset], as
    operations on the state of its cell.  The argument of [get] is what
    [convert_byte_array] returned. *)
Class MapCache (JniError SerError T : Type) := {
  cache_state : Type;
  cache_new : cache_state;
  cache_get : cache_state -> JniError + bytes ->
    outcome (CacheError JniError SerError) T * cache_state;
  cache_reset : cache_state -> cache_state
}.

(** What [get] returns without a cache. *)
Definition uncached {JniError SerError T : Type} (deserialize : bytes -> SerError + T)
    (jarray : JniError + bytes) : outcome (CacheError JniError SerError) T :=
  match jarray with
  | inl e => Err (JniFailed e)
  | inr vec => match deserialize vec with
               | inl e => Err (ParseFailed e)
               | inr val => Ok val
               end
  end.

(** The promise: an invariant that every operation keeps, under which [get] answers as
    if there were no cache. *)
Class MapCacheSpec {JniError SerError T : Type} (deserialize : bytes -> SerError + T)
    (C : MapCache JniError SerError T) := {
  cache_ok : cache_state -> Prop;
  cache_new_ok : cache_ok cache_new;
  cache_reset_ok : forall s, cache_ok s -> cache_ok (cache_reset s);
  cache_get_ok : forall s jarray, cache_ok s -> cache_ok (snd (cache_get s jarray));
  cache_get_value : forall s jarray, cache_ok s ->
    fst (cache_get s jarray) = uncached deserialize jarray
}.
