(* ===== verification/LruCache.v ===== *)
(** * [jni_cache.rs]: the caches of parsed keys

    [LRUCache] as its map and recency list, and [JNIMapCache], whose [get] holds the
    lock twice and deserializes in between.  Java threads interleave at those two
    critical sections; [step] is that interleaving. *)
From stdpp Require Import base gmap list fin_maps sets.
From Stdlib Require Import Strings.Byte NArith.
From S2P Require Import Prelude CacheInterface.

Section LRU.
Context {K : Type} `{Countable K} {V : Type} (SIZE : nat).

Record LRUCache : Type := MkLRUCache {
  cache_map : gmap K V;
  lru_list : list K
}.

(** [LRUCache::new] *)
Definition new : LRUCache := MkLRUCache ∅ [].

(** [LRUCache::push_back_key] *)
Definition push_back_key (c : LRUCache) (key : K) : LRUCache :=
  MkLRUCache (cache_map c) (filter (λ v, v ≠ key) (lru_list c) ++ [key]).

(** [LRUCache::get_if_hit] *)
Definition get_if_hit (c : LRUCache) (key : K) : option V * LRUCache :=
  match cache_map c !! key with
  | Some v => (Some v, push_back_key c key)
  | None => (None, c)
  end.

(** The eviction in [LRUCache::insert]: [pop_front], whose result is unwrapped. *)
Definition evict {Error : Type} (c : LRUCache) : outcome Error LRUCache :=
  if decide (SIZE < length (lru_list c)) then
    match lru_list c with
    | [] => Panic
    | key_to_evict :: rest => Ok (MkLRUCache (delete key_to_evict (cache_map c)) rest)
    end
  else Ok c.

(** [LRUCache::insert], with its closing [assert_eq!]. *)
Definition insert_key {Error : Type} (c : LRUCache) (key : K) (value : V) :
    outcome Error (V * LRUCache) :=
  match get_if_hit c key with
  | (Some v, c) => Ok (v, c)
  | (None, c) =>
      let c := push_back_key c key in
      let c := MkLRUCache (<[key := value]> (cache_map c)) (lru_list c) in
      let* c := evict c in
      if decide (length (lru_list c) = size (cache_map c)) then Ok (value, c) else Panic
  end.

(** [LRUCache::reset] *)
Definition reset_lru (c : LRUCache) : LRUCache := MkLRUCache ∅ [].

(** ** Invariant *)

Record lru_ok (c : LRUCache) : Prop := {
  lru_nodup : NoDup (lru_list c);
  lru_dom : ∀ k, k ∈ lru_list c ↔ is_Some (cache_map c !! k);
  lru_bound : length (lru_list c) ≤ SIZE
}.

(** The recency list after a key is used. *)
Definition touch (l : list K) (k : K) : list K := filter (λ v, v ≠ k) l ++ [k].

Lemma elem_of_touch l k x : x ∈ touch l k ↔ x = k ∨ x ∈ l.
Proof.
  unfold touch. rewrite elem_of_app, list_elem_of_filter, list_elem_of_singleton.
  destruct (decide (x = k)); naive_solver.
Qed.

Lemma NoDup_touch l k : NoDup l → NoDup (touch l k).
Proof.
  intros nd. apply NoDup_app. split_and!; [by apply NoDup_filter| |apply NoDup_singleton].
  intros x [Hne _]%list_elem_of_filter. by rewrite list_elem_of_singleton.
Qed.

Lemma filter_absent (l : list K) k : k ∉ l → filter (λ v, v ≠ k) l = l.
Proof.
  induction l as [|x l IH]; [done|]. rewrite not_elem_of_cons. intros [ne nin].
  rewrite filter_cons_True by congruence. by rewrite IH.
Qed.

Lemma length_touch_in l k : NoDup l → k ∈ l → length (touch l k) = length l.
Proof.
  intros nd (l1 & l2 & ->)%list_elem_of_split. unfold touch.
  apply NoDup_app in nd as (_ & disj & nd). apply NoDup_cons in nd as [nin2 _].
  assert (k ∉ l1) by (intros Hin; apply (disj _ Hin); left).
  rewrite filter_app, filter_cons_False by (intros Hne; by apply Hne).
  rewrite !filter_absent by done. rewrite !length_app. simpl. lia.
Qed.

(** The list and the map have one length: the assertion of [insert] holds. *)
Lemma lru_size c : lru_ok c → length (lru_list c) = size (cache_map c).
Proof.
  intros [nd dm _]. rewrite <- size_dom. rewrite <- (size_list_to_set (C := gset K)) by done.
  f_equal. apply set_eq. intros k. rewrite elem_of_list_to_set, elem_of_dom. apply dm.
Qed.

Lemma new_ok : lru_ok new.
Proof.
  split; simpl; [constructor| |lia]. intros k. rewrite lookup_empty, elem_of_nil.
  split; [done|by intros []].
Qed.

Lemma push_back_ok c k v : lru_ok c → cache_map c !! k = Some v → lru_ok (push_back_key c k).
Proof.
  intros [nd dm le] hit. assert (k ∈ lru_list c) as Hin by (apply dm; eauto).
  split; simpl; fold (touch (lru_list c) k).
  - by apply NoDup_touch.
  - intros x. rewrite elem_of_touch, dm. naive_solver.
  - by rewrite length_touch_in.
Qed.

(** A miss appends the key; a full cache drops its oldest entry. *)
Definition after_miss (c : LRUCache) (k : K) (v : V) : LRUCache :=
  let m := <[k := v]> (cache_map c) in
  let l := lru_list c ++ [k] in
  match l with
  | oldest :: rest => if decide (SIZE < length l) then MkLRUCache (delete oldest m) rest
                      else MkLRUCache m l
  | [] => MkLRUCache m l
  end.

Lemma grown_ok c k v : lru_ok c → cache_map c !! k = None →
  NoDup (lru_list c ++ [k]) ∧
  ∀ x, x ∈ lru_list c ++ [k] ↔ is_Some (<[k := v]> (cache_map c) !! x).
Proof.
  intros [nd dm le] miss. assert (k ∉ lru_list c) as nin by (rewrite dm, miss; by intros []).
  split.
  - apply NoDup_app. split_and!; [done| |apply NoDup_singleton].
    intros x Hx. rewrite list_elem_of_singleton. congruence.
  - intros x. rewrite elem_of_app, list_elem_of_singleton, lookup_insert_is_Some', dm. naive_solver.
Qed.

Lemma after_miss_ok c k v : lru_ok c → cache_map c !! k = None → lru_ok (after_miss c k v).
Proof.
  intros ok miss. destruct (grown_ok c k v ok miss) as [nd dm]. destruct ok as [_ _ le].
  unfold after_miss. destruct (lru_list c ++ [k]) as [|x l] eqn:El.
  { by destruct (lru_list c). }
  apply (f_equal length) in El. rewrite length_app in El. simpl in El.
  apply NoDup_cons in nd as [nin nd]. destruct (decide _) as [gt|ngt].
  - split; simpl; [done| |lia]. intros y. rewrite lookup_delete_is_Some, <- dm, elem_of_cons.
    naive_solver.
  - split; simpl in *; [by constructor|done|lia].
Qed.

(** [insert] on each branch. *)
Lemma insert_hit {Error : Type} c k v w : cache_map c !! k = Some w →
  insert_key c k v = @Ok Error _ (w, push_back_key c k).
Proof. intros hit. unfold insert_key, get_if_hit. by rewrite hit. Qed.

Lemma insert_miss {Error : Type} c k v : lru_ok c → cache_map c !! k = None →
  insert_key c k v = @Ok Error _ (v, after_miss c k v).
Proof.
  intros ok miss. unfold insert_key, get_if_hit. rewrite miss. simpl.
  rewrite filter_absent by (rewrite (lru_dom _ ok), miss; by intros []).
  pose proof (lru_size _ (after_miss_ok c k v ok miss)) as sz.
  unfold after_miss in *. unfold evict. simpl. destruct (lru_list c ++ [k]) as [|x l] eqn:El.
  { by destruct (lru_list c). }
  destruct (decide _); simpl in *; by rewrite decide_True.
Qed.

Lemma insert_ok {Error : Type} c k v : lru_ok c →
  ∃ w c', insert_key c k v = @Ok Error _ (w, c') ∧ lru_ok c' ∧
    w = default v (cache_map c !! k) ∧
    ∀ x y, cache_map c' !! x = Some y → cache_map c !! x = Some y ∨ (x = k ∧ y = v).
Proof.
  intros ok. destruct (cache_map c !! k) as [w|] eqn:lk.
  - eexists _, _. split; [by apply insert_hit|]. split_and!; eauto using push_back_ok.
  - eexists _, _. split; [by apply insert_miss|]. split_and!; [by apply after_miss_ok|done|].
    assert (∀ x y, <[k := v]> (cache_map c) !! x = Some y →
              cache_map c !! x = Some y ∨ (x = k ∧ y = v)) as ins.
    { intros x y. rewrite lookup_insert_Some. naive_solver. }
    intros x y. unfold after_miss. destruct (lru_list c ++ [k]); [apply ins|].
    destruct (decide _); simpl; [rewrite lookup_delete_Some; intros [_ Hl]; by apply ins|apply ins].
Qed.
End LRU.
Arguments LRUCache K {EqDecision0 H} V.

(** ** [JNIMapCache] *)

Section JNI.
Context {K : Type} `{Countable K} {V JniError SerError : Type} (SIZE : nat).
(** [T::deserialize_uncompressed] *)
Context (deserialize_uncompressed : K → SerError + V).

Abbreviation Cell := (option (LRUCache K V)).
Abbreviation CError := (CacheError JniError SerError).

(** The first critical section of [get]. *)
Definition fast_path (cell : Cell) (vec : K) : option V * Cell :=
  match cell with
  | None => (None, Some new)
  | Some c => let '(r, c) := get_if_hit c vec in (r, Some c)
  end.

(** The second critical section; [guard.as_mut().unwrap()] panics on an empty cell. *)
Definition slow_path (cell : Cell) (vec : K) (val : V) : outcome CError V * Cell :=
  match cell with
  | None => (Panic, None)
  | Some c => match insert_key SIZE c vec val with
              | Ok (v, c) => (Ok v, Some c)
              | Err e => (Err e, Some c)
              | Panic => (Panic, Some c)
              end
  end.

(** [JNIMapCache::get]; [jarray] is the outcome of [env.convert_byte_array]. *)
Definition get (cell : Cell) (jarray : JniError + K) : outcome CError V * Cell :=
  match jarray with
  | inl err => (Err (JniFailed err), cell)
  | inr vec =>
      match fast_path cell vec with
      | (Some v, cell) => (Ok v, cell)
      | (None, cell) =>
          match deserialize_uncompressed vec with
          | inl err => (Err (ParseFailed err), cell)
          | inr val => slow_path cell vec val
          end
      end
  end.

(** [JNIMapCache::reset] *)
Definition reset (cell : Cell) : Cell := option_map reset_lru cell.

(** ** Interleaved calls *)

(** A call to [get], by its position between the critical sections. *)
Inductive call : Type :=
| Entered (vec : K)
| Missed (vec : K)
| Parsed (vec : K) (val : V)
| Returned (vec : K) (r : outcome CError V).

(** The cell behind the lock and the calls made so far.  A panic while the lock is
    held poisons it. *)
Record config : Type := MkConfig {
  cell : Cell;
  calls : gmap nat call;
  poisoned : bool
}.

Definition is_panic {E A : Type} (r : outcome E A) : bool :=
  match r with Panic => true | _ => false end.

Inductive step : config → config → Prop :=
| step_enter s t vec : calls s !! t = None →
    step s (MkConfig (cell s) (<[t := Entered vec]> (calls s)) (poisoned s))
| step_hit s t vec v c : calls s !! t = Some (Entered vec) → poisoned s = false →
    fast_path (cell s) vec = (Some v, c) →
    step s (MkConfig c (<[t := Returned vec (Ok v)]> (calls s)) false)
| step_miss s t vec c : calls s !! t = Some (Entered vec) → poisoned s = false →
    fast_path (cell s) vec = (None, c) →
    step s (MkConfig c (<[t := Missed vec]> (calls s)) false)
| step_parse s t vec val : calls s !! t = Some (Missed vec) →
    deserialize_uncompressed vec = inr val →
    step s (MkConfig (cell s) (<[t := Parsed vec val]> (calls s)) (poisoned s))
| step_unparsable s t vec err : calls s !! t = Some (Missed vec) →
    deserialize_uncompressed vec = inl err →
    step s (MkConfig (cell s) (<[t := Returned vec (Err (ParseFailed err))]> (calls s)) (poisoned s))
| step_insert s t vec val r c : calls s !! t = Some (Parsed vec val) → poisoned s = false →
    slow_path (cell s) vec val = (r, c) →
    step s (MkConfig c (<[t := Returned vec r]> (calls s)) (is_panic r))
| step_locked s t x : calls s !! t = Some x → poisoned s = true →
    (∃ vec, x = Entered vec ∨ ∃ val, x = Parsed vec val) →
    step s (MkConfig (cell s) (<[t := Returned (match x with
      Entered k | Missed k | Parsed k _ | Returned k _ => k end) Panic]> (calls s)) true)
| step_reset s : poisoned s = false →
    step s (MkConfig (reset (cell s)) (calls s) false).

Definition initial : config := MkConfig None ∅ false.

(** What the parser alone would answer. *)
Definition parse (vec : K) : outcome CError V :=
  match deserialize_uncompressed vec with
  | inl err => Err (ParseFailed err)
  | inr val => Ok val
  end.

(** The invariant of the shared cell: a well-formed cache of parsed values. *)
Definition cell_ok (c : Cell) : Prop :=
  ∀ l, c = Some l → lru_ok SIZE l ∧
    ∀ k v, cache_map l !! k = Some v → deserialize_uncompressed k = inr v.

Definition call_ok (c : Cell) (x : call) : Prop :=
  match x with
  | Entered _ => True
  | Missed _ => is_Some c
  | Parsed vec val => is_Some c ∧ deserialize_uncompressed vec = inr val
  | Returned vec r => r = parse vec
  end.

Record config_ok (s : config) : Prop := {
  ok_cell : cell_ok (cell s);
  ok_calls : ∀ t x, calls s !! t = Some x → call_ok (cell s) x;
  ok_lock : poisoned s = false
}.

Lemma fast_path_ok c vec r c' : cell_ok c → fast_path c vec = (r, c') →
  cell_ok c' ∧ is_Some c' ∧ ∀ v, r = Some v → parse vec = Ok v.
Proof.
  intros ok. unfold fast_path. destruct c as [l|].
  - destruct (ok l eq_refl) as [lok vals]. unfold get_if_hit.
    destruct (cache_map l !! vec) as [v|] eqn:lk; intros [= <- <-]; split_and!; eauto; try done.
    + intros ? [= <-]. split; [by eapply push_back_ok|done].
    + intros ? [= <-]. unfold parse. by rewrite (vals _ _ lk).
  - intros [= <- <-]. split_and!; eauto; [|done]. intros ? [= <-].
    split; [apply new_ok|]. intros k v. simpl. by rewrite lookup_empty.
Qed.

Lemma slow_path_ok c vec val r c' : cell_ok c → is_Some c →
  deserialize_uncompressed vec = inr val → slow_path c vec val = (r, c') →
  cell_ok c' ∧ is_Some c' ∧ r = parse vec.
Proof.
  intros ok [l ->] pv. destruct (ok l eq_refl) as [lok vals]. unfold slow_path.
  destruct (insert_ok (Error := CError) SIZE l vec val lok) as (w & l' & -> & lok' & wE & sub).
  intros [= <- <-]. split_and!; eauto.
  - intros ? [= <-]. split; [done|]. intros k v [Hl|[-> ->]]%sub; eauto.
  - unfold parse. rewrite pv, wE. destruct (cache_map l !! vec) as [u|] eqn:lk; [|done].
    apply vals in lk. simpl. congruence.
Qed.

Lemma reset_ok c : cell_ok c → cell_ok (reset c).
Proof.
  intros ok l. destruct c as [l0|]; [|done]. intros [= <-]. split; [apply new_ok|].
  intros k v. simpl. by rewrite lookup_empty.
Qed.

Lemma call_ok_grow c c' x : (is_Some c → is_Some c') → call_ok c x → call_ok c' x.
Proof. destruct x; naive_solver. Qed.

(** A step that sets one call and keeps the cell initialised. *)
Lemma config_ok_set s t x c : config_ok s → cell_ok c → (is_Some (cell s) → is_Some c) →
  call_ok c x → config_ok (MkConfig c (<[t := x]> (calls s)) false).
Proof.
  intros [_ calls_ok _] cok grow xok. split; simpl; [done| |done].
  intros t' y [[<- <-]|[_ Hl]]%lookup_insert_Some; eauto using call_ok_grow.
Qed.

Lemma step_ok s s' : config_ok s → step s s' → config_ok s'.
Proof.
  intros ok st. pose proof ok as [cok calls_ok lock].
  destruct st as [s t vec Hn|s t vec v c Ht Hp Hf|s t vec c Ht Hp Hf|s t vec val Ht Hd
                 |s t vec err Ht Hd|s t vec val r c Ht Hp Hs|s t x Ht Hp Hx|s Hp].
  - rewrite lock. by apply config_ok_set.
  - destruct (fast_path_ok _ _ _ _ cok Hf) as (cok' & some & res).
    apply config_ok_set; [done..|]. simpl. symmetry. by apply res.
  - destruct (fast_path_ok _ _ _ _ cok Hf) as (cok' & some & _). by apply config_ok_set.
  - rewrite lock. apply config_ok_set; [done..|]. split; [by apply (calls_ok t (Missed vec))|done].
  - rewrite lock. apply config_ok_set; [done..|]. simpl. unfold parse. by rewrite Hd.
  - destruct (calls_ok _ _ Ht) as [some pv].
    destruct (slow_path_ok _ _ _ _ _ cok some pv Hs) as (cok' & some' & ->).
    replace (is_panic (parse vec)) with false.
    + by apply config_ok_set.
    + unfold parse. by rewrite pv.
  - congruence.
  - split; simpl; [by apply reset_ok| |done].
    intros t x Ht. eapply call_ok_grow; [|by apply (calls_ok t)].
    by destruct (cell s).
Qed.

Lemma initial_ok : config_ok initial.
Proof. split; simpl; [done| |done]. intros t x. by rewrite lookup_empty. Qed.

Lemma reachable_ok s : rtc step initial s → config_ok s.
Proof.
  intros st. assert (∀ a b, rtc step a b → config_ok a → config_ok b) as pres.
  { induction 1; eauto using step_ok. }
  by apply (pres initial); [|apply initial_ok].
Qed.

(** *** Completion of a call *)

Definition vec_of (x : call) : K :=
  match x with Entered k | Missed k | Parsed k _ | Returned k _ => k end.

Definition returns (s : config) (t : nat) (vec : K) : Prop :=
  ∃ s', rtc step s s' ∧ calls s' !! t = Some (Returned vec (parse vec)).

Lemma returns_step s s' t vec : step s s' → returns s' t vec → returns s t vec.
Proof. intros st (s'' & run & ret). exists s''. split; [by eapply rtc_l|done]. Qed.

Lemma parsed_returns s t vec val : config_ok s → calls s !! t = Some (Parsed vec val) →
  returns s t vec.
Proof.
  intros ok Ht. pose proof ok as [cok calls_ok lock]. destruct (calls_ok _ _ Ht) as [some pv].
  destruct (slow_path (cell s) vec val) as [r c] eqn:Hs.
  destruct (slow_path_ok _ _ _ _ _ cok some pv Hs) as (_ & _ & ->).
  eapply returns_step; [by eapply step_insert|].
  eexists. split; [reflexivity|]. simpl. by rewrite lookup_insert_eq.
Qed.

Lemma missed_returns s t vec : config_ok s → calls s !! t = Some (Missed vec) → returns s t vec.
Proof.
  intros ok Ht. destruct (deserialize_uncompressed vec) as [err|val] eqn:Hd.
  - eapply returns_step; [by eapply step_unparsable|]. eexists. split; [reflexivity|].
    simpl. rewrite lookup_insert_eq. unfold parse. by rewrite Hd.
  - assert (step s (MkConfig (cell s) (<[t := Parsed vec val]> (calls s)) (poisoned s))) as st
      by by eapply step_parse.
    eapply returns_step; [exact st|]. eapply parsed_returns; [by eapply step_ok|].
    simpl. by rewrite lookup_insert_eq.
Qed.

Lemma call_returns s t x : config_ok s → calls s !! t = Some x → returns s t (vec_of x).
Proof.
  intros ok Ht. pose proof ok as [cok calls_ok lock]. destruct x as [vec|vec|vec val|vec r]; simpl.
  - destruct (fast_path (cell s) vec) as [r c] eqn:Hf.
    destruct (fast_path_ok _ _ _ _ cok Hf) as (_ & _ & res). destruct r as [v|].
    + eapply returns_step; [by eapply step_hit|]. eexists. split; [reflexivity|].
      simpl. by rewrite lookup_insert_eq, (res v).
    + assert (step s (MkConfig c (<[t := Missed vec]> (calls s)) false)) as st by by eapply step_miss.
      eapply returns_step; [exact st|]. eapply missed_returns; [by eapply step_ok|].
      simpl. by rewrite lookup_insert_eq.
  - by apply missed_returns.
  - by eapply parsed_returns.
  - exists s. split; [reflexivity|]. rewrite Ht. f_equal. f_equal. by apply (calls_ok t (Returned vec r)).
Qed.

(** *** One thread *)

Lemma get_ok c j : cell_ok c →
  (get c j).1 = match j with inl e => Err (JniFailed e) | inr vec => parse vec end ∧
  cell_ok (get c j).2.
Proof.
  intros ok. destruct j as [e|vec]; [done|]. simpl.
  destruct (fast_path c vec) as [r c'] eqn:Hf.
  destruct (fast_path_ok _ _ _ _ ok Hf) as (ok' & some & res).
  destruct r as [v|]; [by rewrite (res v)|].
  destruct (deserialize_uncompressed vec) as [err|val] eqn:Hd; simpl.
  - unfold parse. by rewrite Hd.
  - destruct (slow_path c' vec val) as [r c''] eqn:Hs.
    destruct (slow_path_ok _ _ _ _ _ ok' some Hd Hs) as (? & _ & ->). done.
Qed.

(** *** The recency order *)

Definition lru_of (c : Cell) : list K := match c with Some l => lru_list l | None => [] end.

(** [L] holds the [SIZE] most recently used keys of [R]. *)
Definition recent (R L : list K) : Prop :=
  NoDup R ∧ ∃ P, R = P ++ L ∧ length L ≤ SIZE ∧ (P = [] ∨ length L = SIZE).

Lemma recent_drop R L : recent R L → L = drop (length R - SIZE) R.
Proof.
  intros (_ & P & -> & le & [->|full]); rewrite length_app; simpl.
  - by replace (length L - SIZE) with 0 by lia.
  - replace (length P + length L - SIZE) with (length P) by lia. by rewrite drop_app_length.
Qed.

Lemma recent_hit R L k : recent R L → k ∈ L → recent (touch R k) (touch L k).
Proof.
  intros (nd & P & -> & le & full) Hin. split; [by apply NoDup_touch|].
  apply NoDup_app in nd as (_ & disj & ndL). exists P.
  rewrite length_touch_in by done. split_and!; [|done..].
  unfold touch. rewrite filter_app, (filter_absent P), app_assoc; [done|].
  intros HP. by apply (disj k).
Qed.

Lemma recent_miss R L k : recent R L → k ∉ L →
  recent (touch R k) (match L ++ [k] with
                      | _ :: rest => if decide (SIZE < length (L ++ [k])) then rest else L ++ [k]
                      | [] => []
                      end).
Proof.
  intros (nd & P & -> & le & full) nin. split; [by apply NoDup_touch|].
  unfold touch. rewrite filter_app, (filter_absent L) by done. rewrite <- app_assoc.
  destruct (L ++ [k]) as [|x l] eqn:El; [by destruct L|].
  apply (f_equal length) in El. rewrite length_app in El. simpl in El.
  destruct (decide _) as [gt|ngt]; simpl in *.
  - exists (filter (λ v, v ≠ k) P ++ [x]). rewrite <- app_assoc. split_and!; [done|lia|right; lia].
  - exists (filter (λ v, v ≠ k) P). split_and!; [done|simpl; lia|].
    left. destruct full as [->|]; [done|lia].
Qed.

Lemma lru_of_after_miss (l : LRUCache K V) k v : lru_list (after_miss SIZE l k v) =
  match lru_list l ++ [k] with
  | _ :: rest => if decide (SIZE < length (lru_list l ++ [k])) then rest else lru_list l ++ [k]
  | [] => []
  end.
Proof. unfold after_miss. destruct (lru_list l ++ [k]); [done|]. by destruct (decide _). Qed.

Lemma get_recent c R vec val : cell_ok c → recent R (lru_of c) →
  deserialize_uncompressed vec = inr val →
  recent (touch R vec) (lru_of (get c (inr vec)).2).
Proof.
  intros ok rec Hd. simpl.
  assert (∀ l, lru_ok SIZE l → recent R (lru_list l) → cache_map l !! vec = None →
    recent (touch R vec) (lru_of (slow_path (Some l) vec val).2)) as miss.
  { intros l lok rl lk. simpl. rewrite insert_miss by done. simpl. rewrite lru_of_after_miss.
    apply recent_miss; [done|]. rewrite (lru_dom _ _ lok), lk. by intros []. }
  destruct c as [l|]; simpl in *.
  - destruct (ok l eq_refl) as [lok _]. unfold get_if_hit.
    destruct (cache_map l !! vec) as [w|] eqn:lk; simpl.
    + apply recent_hit; [done|]. apply (lru_dom _ _ lok). eauto.
    + rewrite Hd. by apply miss.
  - rewrite Hd. apply miss; [apply new_ok|done|]. apply lookup_empty.
Qed.

Lemma get_recent_err c R vec err : recent R (lru_of c) → cell_ok c →
  deserialize_uncompressed vec = inl err → recent R (lru_of (get c (inr vec)).2).
Proof.
  intros rec ok Hd. simpl. destruct c as [l|]; simpl in *; [|by rewrite Hd].
  unfold get_if_hit. destruct (cache_map l !! vec) as [w|] eqn:lk; [|by rewrite Hd].
  destruct (ok l eq_refl) as [_ vals]. apply vals in lk. congruence.
Qed.

Definition parsable (vec : K) : Prop := is_Some (match deserialize_uncompressed vec with
                                                 | inr v => Some v | inl _ => None end).
#[export] Instance parsable_dec vec : Decision (parsable vec).
Proof. unfold parsable. apply _. Defined.

(** A sequence of calls by one thread. *)
Definition gets (c : Cell) (vecs : list K) : Cell := foldl (λ c vec, (get c (inr vec)).2) c vecs.

Lemma gets_recent c R vecs : cell_ok c → recent R (lru_of c) →
  recent (foldl touch R (filter parsable vecs)) (lru_of (gets c vecs)).
Proof.
  revert c R. induction vecs as [|vec vecs IH]; intros c R ok rec; [done|].
  destruct (get_ok c (inr vec) ok) as [_ ok']. rewrite filter_cons.
  change (gets c (vec :: vecs)) with (gets (get c (inr vec)).2 vecs).
  destruct (deserialize_uncompressed vec) as [err|val] eqn:Hd.
  - rewrite decide_False by (unfold parsable; rewrite Hd; by intros []).
    apply IH; [exact ok'|]. by eapply get_recent_err.
  - rewrite decide_True by (unfold parsable; rewrite Hd; eauto). simpl foldl.
    apply IH; [exact ok'|]. by eapply get_recent.
Qed.

Lemma gets_ok c vecs : cell_ok c → cell_ok (gets c vecs).
Proof.
  revert c. induction vecs as [|vec vecs IH]; intros c ok; [done|].
  apply (IH (get c (inr vec)).2). by apply get_ok.
Qed.

(** ** Properties *)



End JNI.

(** ** Two threads that race for one key *)

#[export] Instance byte_eq_dec : EqDecision byte := Byte.byte_eq_dec.
#[export] Instance byte_countable : Countable byte :=
  inj_countable Byte.to_N Byte.of_N Byte.of_to_N.

(** The caches keep what the interface promises. *)
#[export] Instance lru_map_cache {JniError SerError T : Type} (SIZE : nat)
    (deserialize : bytes → SerError + T) : MapCache JniError SerError T := {|
  cache_state := option (LRUCache bytes T);
  cache_new := None;
  cache_get := get SIZE deserialize;
  cache_reset := reset
|}.

#[export] Program Instance lru_map_cache_spec {JniError SerError T : Type} (SIZE : nat)
    (deserialize : bytes → SerError + T) :
    MapCacheSpec deserialize (@lru_map_cache JniError SerError T SIZE deserialize) := {|
  cache_ok := cell_ok SIZE deserialize
|}.
Next Obligation. done. Qed.
Next Obligation. intros. by apply reset_ok. Qed.
Next Obligation. intros. by apply get_ok. Qed.
Next Obligation. intros. by apply get_ok. Qed.

Definition toy_parse (vec : list byte) : unit + N :=
  match vec with [b] => inr (Byte.to_N b) | _ => inl () end.

Abbreviation toy_step := (step (JniError := unit) 2 toy_parse).

Definition race : config (K := list byte) (V := N) (JniError := unit) (SerError := unit) :=
  MkConfig (Some (MkLRUCache {[ [x07] := 7%N ]} [[x07]]))
    {[ 0 := Returned [x07] (Ok 7%N); 1 := Returned [x07] (Ok 7%N) ]} false.

Lemma race_reachable : rtc toy_step initial race.
Proof.
  eapply rtc_l; [by apply (step_enter _ _ _ 0 [x07])|].
  eapply rtc_l; [by apply (step_enter _ _ _ 1 [x07])|].
  eapply rtc_l; [by eapply (step_miss _ _ _ 0 [x07])|].
  eapply rtc_l; [by eapply (step_miss _ _ _ 1 [x07])|].
  eapply rtc_l; [by eapply (step_parse _ _ _ 0 [x07] 7%N)|].
  eapply rtc_l; [by eapply (step_parse _ _ _ 1 [x07] 7%N)|].
  eapply rtc_l; [by eapply (step_insert _ _ _ 0 [x07] 7%N)|].
  eapply rtc_l; [by eapply (step_insert _ _ _ 1 [x07] 7%N)|].
  match goal with |- rtc _ ?s _ => replace s with race; [apply rtc_refl|] end.
  by vm_compute.
Qed.



