(* ===== verification/Jni.v ===== *)
(** * [jni_util.rs]: byte arrays across the Java boundary

    The Java environment is the parameter [JNIEnv]; its failures end in a null array
    or an error.  Rust's [u8] bytes cross as Java's signed [jbyte]s. *)
From Stdlib Require Import Strings.Byte Strings.String ZArith Lia.
From S2P Require Import Prelude SeqFacts.
From mathcomp Require Import ssreflect ssrfun ssrbool eqtype ssrnat seq tuple.
Set Warnings "-rewrite-rw".
Set Implicit Arguments.
Unset Strict Implicit.
Unset Printing Implicit Defensive.

(** A [jbyte]: a signed 8-bit integer. *)
Definition jbyte : Type := Z.

(** [x as jbyte] on [u8] *)
Definition as_jbyte (x : byte) : jbyte :=
  let n := Z.of_N (Byte.to_N x) in if (n <? 128)%Z then n else (n - 256)%Z.

(** [x as u8] on [jbyte] *)
Definition as_u8 (x : jbyte) : byte :=
  if Byte.of_N (Z.to_N (x mod 256)) is Some b then b else x00.

Lemma as_jbyteK : cancel as_jbyte as_u8.
Proof. by case; vm_compute. Qed.

Class JNIEnv := {
  JByteArray : Type;
  JObjectArray : Type;
  JniErr : Type;
  (** [JNIEnv::convert_byte_array] *)
  convert_byte_array : JByteArray -> JniErr + bytes;
  (** [JNIEnv::new_byte_array] and [JNIEnv::set_byte_array_region] on all of it *)
  new_byte_array : nat -> JniErr + JByteArray;
  set_byte_array_region : JByteArray -> seq jbyte -> JniErr + JByteArray;
  (** arrays of arrays *)
  get_array_length : JObjectArray -> JniErr + nat;
  get_object_array_element : JObjectArray -> nat -> JniErr + JByteArray;
  (** arrays of [jint] and [jlong]: the length, and a region from 0 read into a
      buffer of the given length *)
  JIntArray : Type;
  JLongArray : Type;
  get_int_array_length : JIntArray -> JniErr + nat;
  get_int_array_region : JIntArray -> nat -> JniErr + seq Z;
  get_long_array_region : JLongArray -> nat -> JniErr + seq Z;
  (** null references *)
  is_null : JByteArray -> bool;
  (** arrays of [jboolean], as bytes *)
  JBooleanArray : Type;
  get_boolean_array_length : JBooleanArray -> JniErr + nat;
  get_boolean_array_region : JBooleanArray -> nat -> JniErr + bytes;
  (** strings: [get_string], then [to_str] *)
  JString : Type;
  string_is_null : JString -> bool;
  get_string : JString -> JniErr + string;
  (** classes and objects *)
  JClass : Type;
  jobject : Type;
  find_class : string -> JniErr + JClass;
  new_object : JClass -> string -> seq (option JByteArray) -> JniErr + jobject
}.

(** [x as usize] on [jint] and [jshort]: sign extension, then two's complement. *)
Definition as_usize (x : Z) : nat := Z.to_nat (x mod 2 ^ 64).

(** A filled array reads back as the bytes it was filled with. *)
Class JNILaws (J : JNIEnv) : Prop := {
  convert_filled : forall (a a' : JByteArray) (v : seq jbyte),
    new_byte_array (size v) = inr a -> set_byte_array_region a v = inr a' ->
    convert_byte_array a' = inr (map as_u8 v);
  int_region_size : forall a n v, get_int_array_region a n = inr v -> size v = n;
  long_region_size : forall a n v, get_long_array_region a n = inr v -> size v = n;
  long_region_range : forall a n v, get_long_array_region a n = inr v ->
    all (fun x => (- 2 ^ 63 <=? x) && (x <? 2 ^ 63))%Z v;
  boolean_region_size : forall a n v, get_boolean_array_region a n = inr v -> size v = n
}.

(** ** Bodies of entry points

    A body reads and changes the library's static state [S], and may return early or
    panic; its errors end in the entry point's null answer. *)
Section Body.
Context {S : Type}.

Definition jni (A : Type) : Type := S -> outcome unit A * S.

Definition jret {A : Type} (a : A) : jni A := fun st => (Ok a, st).

Definition jbind {A B : Type} (m : jni A) (k : A -> jni B) : jni B := fun st =>
  match m st with
  | (Ok a, st) => k a st
  | (Err e, st) => (Err e, st)
  | (Panic, st) => (Panic, st)
  end.

(** [match m { Ok(val) => val, Err(_) => return null }] *)
Definition jtry {Error A : Type} (m : outcome Error A) : jni A := fun st =>
  (map_err (fun _ => tt) m, st).

(** [catch_unwind(body).unwrap_or_else(|_| null)] *)
Definition entry {A : Type} (null : A) (body : jni A) (st : S) : A * S :=
  let '(r, st) := body st in (catch_unwind null r, st).

Definition jmap {A B : Type} (f : A -> B) (m : jni A) : jni B := jbind m (fun a => jret (f a)).

Lemma jbind_Ok A B (m : jni A) (k : A -> jni B) st b :
  (jbind m k st).1 = Ok b <-> exists2 a, (m st).1 = Ok a & (k a (m st).2).1 = Ok b.
Proof.
rewrite /jbind; case: (m st) => [[a|e|] st'] /=; split.
- by move=> H; exists a.
- by case=> _ [<-].
- by [].
- by case.
- by [].
- by case.
Qed.

Lemma jtry_Ok X A (m : outcome X A) st a : (jtry m st).1 = Ok a <-> m = Ok a.
Proof. by case: m => //= x; split=> -[->]. Qed.

Lemma entry_true (m : jni bool) st : (entry false m st).1 = true <-> (m st).1 = Ok true.
Proof. by rewrite /entry; case: (m st) => [[b|e|] st'] //=; split=> [->|[]]. Qed.

Lemma entry_some A (m : jni (option A)) st a :
  (entry None m st).1 = Some a <-> (m st).1 = Ok (Some a).
Proof. by rewrite /entry; case: (m st) => [[b|e|] st'] //=; split=> [->|[]]. Qed.

(** Bodies that neither panic, whatever the static state. *)
Definition safe {A : Type} (I : S -> Prop) (m : jni A) : Prop :=
  forall st, I st -> never_panics (m st).1 /\ I (m st).2.

Lemma safe_ret (I : S -> Prop) A (a : A) : safe I (jret a).
Proof. by []. Qed.

Lemma safe_try (I : S -> Prop) X A (m : outcome X A) : never_panics m -> safe I (jtry m).
Proof. by case: m. Qed.

Lemma safe_bind (I : S -> Prop) A B (m : jni A) (k : A -> jni B) : safe I m ->
  (forall st a, (m st).1 = Ok a -> safe I (k a)) -> safe I (jbind m k).
Proof.
move=> sm sk st ok; have [np ok'] := sm st ok; have {}sk := sk st.
by rewrite /jbind; case: (m st) np ok' sk => [[a|e|] st'] //= _ ok' sk; apply: sk.
Qed.
End Body.
Arguments jni S A : clear implicits.

Notation "'do?' x ':=' m 'in' k" := (jbind m (fun x => k))
  (at level 10, x pattern, m at level 100, k at level 200,
   format "'do?'  x  ':='  m  'in' '//' k").

(** [jbyteArray]: a reference that may be null. *)
Definition jbyteArray {J : JNIEnv} : Type := option JByteArray.

Section Util.
Context {J : JNIEnv}.

(** [jbyte_vec_to_jbyte_array] *)
Definition jbyte_vec_to_jbyte_array (vec : seq jbyte) : jbyteArray :=
  match new_byte_array (size vec) with
  | inl _ => None
  | inr array =>
      match set_byte_array_region array vec with
      | inr array => Some array
      | inl _ => None
      end
  end.

(** [u8_vec_to_jbyte_array] *)
Definition u8_vec_to_jbyte_array (vec : bytes) : jbyteArray :=
  jbyte_vec_to_jbyte_array (map as_jbyte vec).

(** [two_u8_vec_to_jbyte_array] *)
Definition two_u8_vec_to_jbyte_array (vec1 vec2 : bytes) : jbyteArray :=
  jbyte_vec_to_jbyte_array (map as_jbyte (vec1 ++ vec2)).

(** [jbyte_arrays_to_u8_vecs] *)
Definition jbyte_arrays_to_u8_vecs (jarray : JObjectArray) : outcome unit (seq bytes) :=
  let* length := map_err (fun _ => tt) (of_sum (get_array_length jarray)) in
  foldM (fun vecs i =>
      let* element := map_err (fun _ => tt) (of_sum (get_object_array_element jarray i)) in
      let* vec := map_err (fun _ => tt) (of_sum (convert_byte_array element)) in
      Ok (rcons vecs vec))
    [::] (iota 0 length).

(** [build_entropy_array]: the fixed-size array, when the length fits. *)
Definition build_entropy_array (random_size : nat) (random_array : JByteArray) :
    outcome unit bytes :=
  let* random_vec := map_err (fun _ => tt) (of_sum (convert_byte_array random_array)) in
  if size random_vec == random_size then Ok random_vec else Err tt.

(** [deserialize_jbyte_array], for a type's [deserialize_uncompressed] *)
Definition deserialize_jbyte_array {T SE : Type} (deserialize_uncompressed : bytes -> SE + T)
    (jarray : JByteArray) : outcome (JniErr + SE) T :=
  let* vec := map_err inl (of_sum (convert_byte_array jarray)) in
  map_err inr (of_sum (deserialize_uncompressed vec)).

(** [serialize_object], for a type's [serialize] *)
Definition serialize_object {T Error : Type} (serialize : T -> outcome Error bytes) (obj : T) :
    outcome Error jbyteArray :=
  let* vec := serialize obj in Ok (u8_vec_to_jbyte_array vec).

(** ** Lemmas *)

Lemma jbyte_array_read {L : JNILaws J} v a :
  u8_vec_to_jbyte_array v = Some a -> convert_byte_array a = inr v.
Proof.
rewrite /u8_vec_to_jbyte_array /jbyte_vec_to_jbyte_array.
case nE: new_byte_array => [e|b] //; case sE: set_byte_array_region => [e|b'] // [<-].
by rewrite (convert_filled nE sE) (mapK as_jbyteK).
Qed.

Lemma two_jbyte_array_read {L : JNILaws J} v1 v2 a :
  two_u8_vec_to_jbyte_array v1 v2 = Some a -> convert_byte_array a = inr (v1 ++ v2).
Proof. exact: jbyte_array_read. Qed.

Lemma jbyte_arrays_no_panic jarray : never_panics (jbyte_arrays_to_u8_vecs jarray).
Proof.
apply: bind_no_panic => [|n _]; first by case: get_array_length.
apply: foldM_no_panic => vecs i; apply: bind_no_panic => [|e _].
  by case: get_object_array_element.
by apply: bind_no_panic => //; case: convert_byte_array.
Qed.

(** A Java array of byte arrays with the given contents. *)
Definition holds (jarray : JObjectArray) (vecs : seq bytes) : Prop :=
  get_array_length jarray = inr (size vecs) /\
  forall i, i < size vecs -> exists2 a, get_object_array_element jarray i = inr a &
    convert_byte_array a = inr (nth [::] vecs i).

Lemma read_loop jarray n : forall k acc vecs,
  foldM (fun vecs i =>
      let* element := map_err (fun _ => tt) (of_sum (get_object_array_element jarray i)) in
      let* vec := map_err (fun _ => tt) (of_sum (convert_byte_array element)) in
      Ok (rcons vecs vec)) acc (iota k n) = Ok vecs <->
  exists tail, [/\ vecs = acc ++ tail, size tail = n &
    forall i, i < n -> exists2 a, get_object_array_element jarray (k + i) = inr a &
      convert_byte_array a = inr (nth [::] tail i)].
Proof.
elim: n => [|n IH] k acc vecs /=.
  by split=> [[<-]|[tail [-> /size0nil -> _]]]; [exists [::]; rewrite cats0|rewrite cats0].
split=> [H|[[|v tail] [-> // [sz] elt]]].
  inv_ok H; case: E => vE; subst v; case/IH: H => tail [-> sz elt]; exists (v1 :: tail).
  rewrite cat_rcons /= sz.
  split=> // -[|i] lt; first by exists v0; rewrite ?addn0.
  by rewrite addnS -addSn; apply: elt.
have [a aE cE] := elt 0 isT; rewrite addn0 in aE; rewrite aE /= cE /=; apply/IH.
exists tail; rewrite cat_rcons; split=> // i lt.
by rewrite addSn -addnS; apply: elt.
Qed.

Lemma jbyte_arrays_read jarray vecs :
  jbyte_arrays_to_u8_vecs jarray = Ok vecs <-> holds jarray vecs.
Proof.
rewrite /jbyte_arrays_to_u8_vecs /holds; case: get_array_length => [e|n] /=; first by split=> // -[].
rewrite read_loop; split=> [[tail [-> sz elt]]|[[->] elt]].
  by rewrite /= sz; split=> // i; apply: elt.
by exists vecs; split=> // i; apply: elt.
Qed.
End Util.
