(* ===== verification/Eip2537.v ===== *)
(** * [jni_eth.rs] and [jni_blst.rs]: Ethereum BLS keys and signatures

    EIP-2537 encodings of curve points and the sync-committee signature check.  The
    [blst] library is the parameter [Blst]; [BlstLaws] states what the code relies on:
    the group structure of its Jacobian points and the uncompressed serialization. *)
From Stdlib Require Import Strings.Byte Strings.String NArith.
From S2P Require Import Prelude SeqFacts Jni.
From mathcomp Require Import ssreflect ssrfun ssrbool eqtype ssrnat seq div.
From mathcomp Require Import fintype tuple bigop ssralg.
Import GRing.Theory.
Set Warnings "-rewrite-rw".
Set Implicit Arguments.
Unset Strict Implicit.
Unset Printing Implicit Defensive.

Class Blst := {
  blst_fp : Type;
  (** [blst_bendian_from_fp] *)
  blst_bendian_from_fp : blst_fp -> 48.-tuple byte;
  (** Jacobian points *)
  blst_p1 : Type
}.

(** [blst_p1_affine] and [blst_p2_affine], by their coordinates in [blst_fp]. *)
Record blst_p1_affine {B : Blst} : Type := MkP1 { p1_x : blst_fp; p1_y : blst_fp }.
Record blst_p2_affine {B : Blst} : Type := MkP2 {
  p2_x0 : blst_fp; p2_x1 : blst_fp; p2_y0 : blst_fp; p2_y1 : blst_fp
}.

(** The functions of [blst] on points; [None] is a [BLST_ERROR] other than success. *)
Class BlstOps (B : Blst) := {
  blst_p1_uncompress : bytes -> option blst_p1_affine;
  blst_p2_uncompress : bytes -> option blst_p2_affine;
  blst_p1_deserialize : bytes -> option blst_p1_affine;
  blst_p2_deserialize : bytes -> option blst_p2_affine;
  blst_p1_affine_in_g1 : blst_p1_affine -> bool;
  blst_p2_affine_in_g2 : blst_p2_affine -> bool;
  blst_p1_from_affine : blst_p1_affine -> blst_p1;
  blst_p1_to_affine : blst_p1 -> blst_p1_affine;
  blst_p1_cneg : blst_p1 -> bool -> blst_p1;
  blst_p1_add_or_double : blst_p1 -> blst_p1 -> blst_p1;
  blst_p1_is_inf : blst_p1 -> bool;
  (** public key, signature, hash or encode, message, DST, augmentation *)
  blst_core_verify_pk_in_g1 :
    blst_p1_affine -> blst_p2_affine -> bool -> bytes -> bytes -> bytes -> bool
}.

Definition ETHEREUM_DST : bytes := byte_string "BLS_SIG_BLS12381G2_XMD:SHA-256_SSWU_RO_POP_".
Definition FP_LENGTH_BYTES : nat := 48.
Definition EIP2537_FP_PADDING_LENGTH_BYTES : nat := 16.
Definition EIP2537_FP_LENGTH_BYTES : nat := EIP2537_FP_PADDING_LENGTH_BYTES + FP_LENGTH_BYTES.
Definition ZCASH_FLAGS_MASK : N := 0xe0.

Definition is_zero (b : byte) : bool := Byte.eqb b x00.

(** [v[a..b]]: a range outside the vector panics. *)
Definition slice {Error A : Type} (v : seq A) (a b : nat) : outcome Error (seq A) :=
  if (a <= b) && (b <= size v) then Ok (take (b - a) (drop a v)) else Panic.

(** [v.split_at(k)] *)
Definition split_at {Error A : Type} (v : seq A) (k : nat) : outcome Error (seq A * seq A) :=
  if k <= size v then Ok (take k v, drop k v) else Panic.

(** The loop body of [eip2537_to_zcash]; the error [tt] is [None]. *)
Definition copy_element (encoded serialized : bytes) (element : nat) : outcome unit bytes :=
  let* padded := slice encoded (element * EIP2537_FP_LENGTH_BYTES)
                   ((element + 1) * EIP2537_FP_LENGTH_BYTES) in
  let* (padding, fp) := split_at padded EIP2537_FP_PADDING_LENGTH_BYTES in
  fail_if has (fun b => ~~ is_zero b) padding with tt;;
  Ok (serialized ++ fp).

(** [eip2537_to_zcash] *)
Definition eip2537_to_zcash (encoded : bytes) (order : seq nat) : outcome unit bytes :=
  fail_if (size encoded != size order * EIP2537_FP_LENGTH_BYTES) || all is_zero encoded with tt;;
  let* serialized := foldM (copy_element encoded) [::] order in
  let* first := vec_get serialized 0 in
  fail_if ~~ (N.land (Byte.to_N first) ZCASH_FLAGS_MASK =? 0)%num with tt;;
  Ok serialized.

Section Points.
Context {B : Blst} {O : BlstOps B}.

(** [g1_from_eip2537] *)
Definition g1_from_eip2537 (encoded : bytes) : outcome unit blst_p1_affine :=
  let* serialized := eip2537_to_zcash encoded [:: 0; 1] in
  match blst_p1_deserialize serialized with
  | Some point => if blst_p1_affine_in_g1 point then Ok point else Err tt
  | None => Err tt
  end.

(** [g2_from_eip2537] *)
Definition g2_from_eip2537 (encoded : bytes) : outcome unit blst_p2_affine :=
  let* serialized := eip2537_to_zcash encoded [:: 1; 0; 3; 2] in
  match blst_p2_deserialize serialized with
  | Some point => if blst_p2_affine_in_g2 point then Ok point else Err tt
  | None => Err tt
  end.

(** [opt.is_some()] on a computation that may panic *)
Definition is_some {A : Type} (m : outcome unit A) : outcome unit bool :=
  match m with Ok _ => Ok true | Err _ => Ok false | Panic => Panic end.

(** [validate_g1_eip2537_public_keys] *)
Definition validate_g1_eip2537_public_keys (public_keys : seq bytes) : outcome unit bool :=
  if nilp public_keys then Ok false
  else allM (fun public_key => is_some (g1_from_eip2537 public_key)) public_keys.

(** [verify_signers] *)
Definition verify_signers (signers : blst_p1) (message : bytes) (signature : blst_p2_affine) :
    bool :=
  if blst_p1_is_inf signers then false
  else blst_core_verify_pk_in_g1 (blst_p1_to_affine signers) signature true message
         ETHEREUM_DST [::].

(** [match opt { Some(val) => val, None => return false }] throughout a body *)
Definition or_false (m : outcome unit bool) : outcome unit bool :=
  match m with Ok b => Ok b | Err _ => Ok false | Panic => Panic end.

(** [verify_sync_aggregate] *)
Definition verify_sync_aggregate (aggregate_public_key : bytes)
    (non_signer_public_keys : seq bytes) (message signature : bytes) : outcome unit bool :=
  or_false
    (let* aggregate_public_key := g1_from_eip2537 aggregate_public_key in
     let* signature := g2_from_eip2537 signature in
     let* signers := foldM (fun signers encoded =>
         let* non_signer := g1_from_eip2537 encoded in
         let negated := blst_p1_cneg (blst_p1_from_affine non_signer) true in
         Ok (blst_p1_add_or_double signers negated))
       (blst_p1_from_affine aggregate_public_key) non_signer_public_keys in
     Ok (verify_signers signers message signature)).

(** [result[a..].copy_from_slice(src)] on an array *)
Definition write_at (v : bytes) (a : nat) (src : bytes) : bytes :=
  take a v ++ src ++ drop (a + size src) v.

(** [fq_to_be48] *)
Definition fq_to_be48 (fq : blst_fp) : bytes := blst_bendian_from_fp fq.

(** [g1_to_eip2537] *)
Definition g1_to_eip2537 (point : blst_p1_affine) : bytes :=
  let result := nseq 128 x00 in
  let result := write_at result 16 (fq_to_be48 (p1_x point)) in
  write_at result 80 (fq_to_be48 (p1_y point)).

(** [g2_to_eip2537] *)
Definition g2_to_eip2537 (point : blst_p2_affine) : bytes :=
  let result := nseq 256 x00 in
  let result := write_at result 16 (fq_to_be48 (p2_x0 point)) in
  let result := write_at result 80 (fq_to_be48 (p2_x1 point)) in
  let result := write_at result 144 (fq_to_be48 (p2_y0 point)) in
  write_at result 208 (fq_to_be48 (p2_y1 point)).

Context {J : JNIEnv}.

(** [EthereumBlsBridge.validateG1Eip2537PublicKeys] *)
Definition validateG1Eip2537PublicKeysImpl (public_keys_jarray : JObjectArray) : bool :=
  catch_unwind false
    (let* public_keys := jbyte_arrays_to_u8_vecs public_keys_jarray in
     validate_g1_eip2537_public_keys public_keys).

(** [EthereumBlsBridge.verifySyncAggregate] *)
Definition verifySyncAggregateImpl (aggregate_public_key_jarray : JByteArray)
    (non_signer_public_keys_jarray : JObjectArray) (message_jarray signature_jarray : JByteArray) :
    bool :=
  catch_unwind false
    (let* aggregate_public_key :=
       map_err (fun _ => tt) (of_sum (convert_byte_array aggregate_public_key_jarray)) in
     let* non_signer_public_keys := jbyte_arrays_to_u8_vecs non_signer_public_keys_jarray in
     let* message := map_err (fun _ => tt) (of_sum (convert_byte_array message_jarray)) in
     let* signature := map_err (fun _ => tt) (of_sum (convert_byte_array signature_jarray)) in
     verify_sync_aggregate aggregate_public_key non_signer_public_keys message signature).

(** [HintsLibraryBridge.decompressG1ToEip2537] *)
Definition decompressG1ToEip2537Impl (compressed_jarray : JByteArray) : jbyteArray :=
  match convert_byte_array compressed_jarray with
  | inl _ => None
  | inr compressed =>
      if size compressed != 48 then None else
      match blst_p1_uncompress compressed with
      | None => None
      | Some point =>
          if ~~ blst_p1_affine_in_g1 point then None
          else u8_vec_to_jbyte_array (g1_to_eip2537 point)
      end
  end.

(** [HintsLibraryBridge.decompressG2ToEip2537] *)
Definition decompressG2ToEip2537Impl (compressed_jarray : JByteArray) : jbyteArray :=
  match convert_byte_array compressed_jarray with
  | inl _ => None
  | inr compressed =>
      if size compressed != 96 then None else
      match blst_p2_uncompress compressed with
      | None => None
      | Some point =>
          if ~~ blst_p2_affine_in_g2 point then None
          else u8_vec_to_jbyte_array (g2_to_eip2537 point)
      end
  end.
End Points.
