(* ===== verification/Eip2537Facts.v ===== *)
(** * Theorems on EIP-2537 encodings and the sync-committee check *)
From Stdlib Require Import Strings.Byte Strings.String NArith ZArith.
From S2P Require Import Prelude SeqFacts Jni Eip2537.
From mathcomp Require Import ssreflect ssrfun ssrbool eqtype ssrnat seq div.
From mathcomp Require Import fintype tuple bigop ssralg zmodp.
Import GRing.Theory.
Set Warnings "-rewrite-rw".
Set Implicit Arguments.
Unset Strict Implicit.
Unset Printing Implicit Defensive.

(** What the code relies on in [blst]. *)
Class BlstLaws (B : Blst) (O : BlstOps B) (Curve : zmodType) (point : blst_p1 -> Curve)
    (finite1 : blst_p1_affine -> Prop) (finite2 : blst_p2_affine -> Prop) : Prop := {
  (** the Jacobian arithmetic computes in the curve's group *)
  point_add : forall p q, point (blst_p1_add_or_double p q) = (point p + point q)%R;
  point_cneg : forall p b, point (blst_p1_cneg p b) = if b then (- point p)%R else point p;
  point_inf : forall p, blst_p1_is_inf p = (point p == 0%R);
  point_affine : forall p q, point p = point q -> blst_p1_to_affine p = blst_p1_to_affine q;
  (** canonical elements have 381 bits *)
  bendian_top : forall x, N.land (Byte.to_N (tnth (blst_bendian_from_fp x) ord0)) 0xe0 = 0%num;
  (** finite points of the curve: not both coordinates zero, and read back from
      their uncompressed serialization, which has no flag set *)
  finite1_nonzero : forall p, finite1 p ->
    ~~ (all is_zero (blst_bendian_from_fp (p1_x p)) && all is_zero (blst_bendian_from_fp (p1_y p)));
  finite2_nonzero : forall p, finite2 p ->
    ~~ all is_zero (blst_bendian_from_fp (p2_x0 p) ++ blst_bendian_from_fp (p2_x1 p) ++
                    blst_bendian_from_fp (p2_y0 p) ++ blst_bendian_from_fp (p2_y1 p));
  deserialize1 : forall p, finite1 p ->
    blst_p1_deserialize (blst_bendian_from_fp (p1_x p) ++ blst_bendian_from_fp (p1_y p)) = Some p;
  deserialize2 : forall p, finite2 p ->
    blst_p2_deserialize (blst_bendian_from_fp (p2_x1 p) ++ blst_bendian_from_fp (p2_x0 p) ++
                         blst_bendian_from_fp (p2_y1 p) ++ blst_bendian_from_fp (p2_y0 p)) = Some p
}.

(** ** The encoding *)

(** The 64 bytes of element [i]. *)
Definition chunk (e : bytes) (i : nat) : bytes :=
  take EIP2537_FP_LENGTH_BYTES (drop (i * EIP2537_FP_LENGTH_BYTES) e).
Definition padding (e : bytes) (i : nat) : bytes := take EIP2537_FP_PADDING_LENGTH_BYTES (chunk e i).
Definition payload (e : bytes) (i : nat) : bytes := drop EIP2537_FP_PADDING_LENGTH_BYTES (chunk e i).

(** An accepted encoding: its length, not all zero, zero padding, flag bits clear. *)
Definition canonical (e : bytes) (order : seq nat) : bool :=
  [&& size e == size order * EIP2537_FP_LENGTH_BYTES, ~~ all is_zero e,
      all (fun i => all is_zero (padding e i)) order &
      (N.land (Byte.to_N (nth x00 (flatten [seq payload e i | i <- order]) 0)) ZCASH_FLAGS_MASK
       =? 0)%num].

Lemma size_chunk e n i : size e = n * EIP2537_FP_LENGTH_BYTES -> i < n ->
  size (chunk e i) = EIP2537_FP_LENGTH_BYTES.
Proof.
move=> sz lt; rewrite /chunk size_takel // size_drop sz -mulnBl leq_pmull // subn_gt0 //.
Qed.

Lemma size_payload e n i : size e = n * EIP2537_FP_LENGTH_BYTES -> i < n ->
  size (payload e i) = FP_LENGTH_BYTES.
Proof. by move=> sz lt; rewrite /payload size_drop (size_chunk sz lt). Qed.

Lemma copy_elementE e n acc i : size e = n * EIP2537_FP_LENGTH_BYTES -> i < n ->
  copy_element e acc i = if all is_zero (padding e i) then Ok (acc ++ payload e i) else Err tt.
Proof.
move=> sz lt; have szc := size_chunk sz lt.
rewrite /copy_element /slice leq_mul2r leq_addr orbT sz leq_mul2r addn1 lt orbT.
rewrite -mulnBl subSnn mul1n -/(chunk e i) /= /split_at szc /=.
by rewrite has_predC -/(padding e i) -/(payload e i); case: all.
Qed.

Lemma strip_loop e n order acc : size e = n * EIP2537_FP_LENGTH_BYTES ->
  all (fun i => i < n) order ->
  foldM (copy_element e) acc order =
  if all (fun i => all is_zero (padding e i)) order
  then Ok (acc ++ flatten [seq payload e i | i <- order]) else Err tt.
Proof.
move=> sz; elim: order acc => [|i order IH] acc; first by rewrite /= cats0.
move=> /andP [lt rng] /=; rewrite (copy_elementE _ sz lt); case: all => //=.
by rewrite IH // catA.
Qed.

Lemma eip2537E e order : 0 < size order -> all (fun i => i < size order) order ->
  eip2537_to_zcash e order =
  if canonical e order then Ok (flatten [seq payload e i | i <- order]) else Err tt.
Proof.
move=> n0 rng; rewrite /eip2537_to_zcash /canonical.
case: eqP => [sz|//]; case: (all is_zero e) => //=; rewrite (strip_loop _ sz) //; case: all => //=.
set s := flatten _.
have lt0 : 0 < size s.
  rewrite /s; case: order rng n0 sz @s => // i order /andP [lt _] _ sz.
  by rewrite /= size_cat (size_payload sz lt).
by rewrite (vec_get_lt _ x00) //=; case: N.eqb.
Qed.

(** The elements of an encoding determine it. *)
Lemma flatten_chunks n e : size e = n * EIP2537_FP_LENGTH_BYTES ->
  flatten [seq chunk e i | i <- iota 0 n] = e.
Proof.
elim: n e => [|n IH] e sz; first by rewrite (size0nil sz).
rewrite /= (iotaDl 1 0) -map_comp -[RHS](cat_take_drop EIP2537_FP_LENGTH_BYTES).
rewrite {1}/chunk mul0n drop0 -(IH (drop EIP2537_FP_LENGTH_BYTES e)).
  by rewrite size_drop sz mulSn addKn.
congr (_ ++ flatten _); apply: eq_map => i /=.
by rewrite /chunk drop_drop mulnDl mul1n addnC.
Qed.

Lemma zero_bytes (a b : bytes) : size a = size b -> all is_zero a -> all is_zero b -> a = b.
Proof.
elim: a b => [|x a IH] [|y b] //= [sz] /andP [/byte_dec_bl -> za] /andP [/byte_dec_bl -> zb].
by rewrite (IH b).
Qed.

Lemma canonical_inj e e' order : perm_eq order (iota 0 (size order)) ->
  canonical e order -> canonical e' order ->
  flatten [seq payload e i | i <- order] = flatten [seq payload e' i | i <- order] -> e = e'.
Proof.
move=> perm /and4P [/eqP sz _ pad _] /and4P [/eqP sz' _ pad' _] eq.
have rng i : (i \in order) = (i < size order) by rewrite (perm_mem perm) mem_iota.
have shapeE : shape [seq payload e i | i <- order] = shape [seq payload e' i | i <- order].
  by rewrite /shape -!map_comp; apply/eq_in_map => i; rewrite rng /= => lt;
     rewrite (size_payload sz lt) (size_payload sz' lt).
have/eq_in_map pay := eq_from_flatten_shape eq shapeE.
rewrite -(flatten_chunks sz) -(flatten_chunks sz'); congr flatten; apply/eq_in_map => i.
rewrite -(perm_mem perm) => ino; have lt : i < size order by rewrite -rng.
rewrite -[chunk e i](cat_take_drop EIP2537_FP_PADDING_LENGTH_BYTES).
rewrite -[chunk e' i](cat_take_drop EIP2537_FP_PADDING_LENGTH_BYTES).
congr (_ ++ _); last exact: pay.
apply: zero_bytes; [|exact: (allP pad)|exact: (allP pad')].
by rewrite size_take (size_chunk sz lt) size_take (size_chunk sz' lt).
Qed.

(** ** Writing points *)

Lemma write_atE (a b c src : bytes) n : n = size a -> size src = size b ->
  write_at (a ++ b ++ c) n src = a ++ src ++ c.
Proof.
move=> -> sz; rewrite /write_at take_size_cat // sz; congr (_ ++ (_ ++ _)).
by rewrite catA drop_size_cat // size_cat.
Qed.

Definition zeros (n : nat) : bytes := nseq n x00.

Lemma size_zeros n : size (zeros n) = n.
Proof. exact: size_nseq. Qed.

Lemma zeros_split m n k : zeros (m + (n + k)) = zeros m ++ zeros n ++ zeros k.
Proof. by rewrite /zeros !nseqD. Qed.

Section Points.
Context {B : Blst} {O : BlstOps B}.

Lemma size_be x : size (fq_to_be48 x) = 48.
Proof. exact: size_tuple. Qed.

Lemma g1_layout p : g1_to_eip2537 p =
  zeros 16 ++ fq_to_be48 (p1_x p) ++ zeros 16 ++ fq_to_be48 (p1_y p).
Proof.
rewrite /g1_to_eip2537 -/(zeros 128) -[zeros 128]/(zeros (16 + (48 + (16 + (48 + 0))))).
rewrite !zeros_split write_atE ?size_zeros ?size_be //.
rewrite [X in write_at X _ _](_ : _ = (zeros 16 ++ fq_to_be48 (p1_x p) ++ zeros 16) ++
  zeros 48 ++ zeros 0); first by rewrite -!catA.
by rewrite write_atE ?size_cat ?size_zeros ?size_be // cats0 -!catA.
Qed.

Lemma g2_layout p : g2_to_eip2537 p =
  zeros 16 ++ fq_to_be48 (p2_x0 p) ++ zeros 16 ++ fq_to_be48 (p2_x1 p) ++
  zeros 16 ++ fq_to_be48 (p2_y0 p) ++ zeros 16 ++ fq_to_be48 (p2_y1 p).
Proof.
rewrite /g2_to_eip2537 -/(zeros 256).
rewrite -[zeros 256]/(zeros (16 + (48 + (16 + (48 + (16 + (48 + (16 + (48 + 0))))))))).
rewrite !zeros_split write_atE ?size_zeros ?size_be //.
rewrite [X in write_at (write_at (write_at X _ _) _ _) _ _](_ : _ =
  (zeros 16 ++ fq_to_be48 (p2_x0 p) ++ zeros 16) ++ zeros 48 ++
  (zeros 16 ++ zeros 48 ++ zeros 16 ++ zeros 48 ++ zeros 0)); first by rewrite -!catA.
rewrite write_atE ?size_cat ?size_zeros ?size_be //.
rewrite [X in write_at (write_at X _ _) _ _](_ : _ =
  (zeros 16 ++ fq_to_be48 (p2_x0 p) ++ zeros 16 ++ fq_to_be48 (p2_x1 p) ++ zeros 16) ++
  zeros 48 ++ (zeros 16 ++ zeros 48 ++ zeros 0)); first by rewrite -!catA.
rewrite write_atE ?size_cat ?size_zeros ?size_be //.
rewrite [X in write_at X _ _](_ : _ =
  (zeros 16 ++ fq_to_be48 (p2_x0 p) ++ zeros 16 ++ fq_to_be48 (p2_x1 p) ++ zeros 16 ++
   fq_to_be48 (p2_y0 p) ++ zeros 16) ++ zeros 48 ++ zeros 0); first by rewrite -!catA.
by rewrite write_atE ?size_cat ?size_zeros ?size_be // cats0 -!catA.
Qed.

(** Both writers concatenate padded elements. *)
Definition layout (xs : seq blst_fp) : bytes := flatten [seq zeros 16 ++ fq_to_be48 x | x <- xs].

Lemma g1_layoutE p : g1_to_eip2537 p = layout [:: p1_x p; p1_y p].
Proof. by rewrite g1_layout /layout /flatten; cbn [map foldr]; rewrite cats0 -!catA. Qed.

Lemma g2_layoutE p : g2_to_eip2537 p = layout [:: p2_x0 p; p2_x1 p; p2_y0 p; p2_y1 p].
Proof. by rewrite g2_layout /layout /flatten; cbn [map foldr]; rewrite cats0 -!catA. Qed.

Lemma layout_cons x xs : layout (x :: xs) = (zeros 16 ++ fq_to_be48 x) ++ layout xs.
Proof. by []. Qed.

Lemma size_layout xs : size (layout xs) = size xs * EIP2537_FP_LENGTH_BYTES.
Proof.
elim: xs => [|x xs IH] //; rewrite layout_cons !size_cat IH size_zeros size_be.
by rewrite mulSn.
Qed.

Lemma chunk_layout x0 xs i : i < size xs ->
  chunk (layout xs) i = zeros 16 ++ fq_to_be48 (nth x0 xs i).
Proof.
elim: xs i => [|x xs IH] [|i] // lt; rewrite layout_cons /chunk.
  by rewrite mul0n drop0 take_size_cat // size_cat size_zeros size_be.
rewrite mulSn addnC -drop_drop drop_size_cat; first by rewrite size_cat size_zeros size_be.
exact: IH.
Qed.

Lemma payload_layout x0 xs i : i < size xs -> payload (layout xs) i = fq_to_be48 (nth x0 xs i).
Proof. by move=> lt; rewrite /payload (chunk_layout x0 lt) drop_size_cat // size_zeros. Qed.

Lemma padding_layout xs i : i < size xs -> all is_zero (padding (layout xs) i).
Proof.
case: xs => // x xs lt; rewrite /padding (chunk_layout x lt) take_size_cat ?size_zeros //.
Qed.

Lemma layout_zero xs : all is_zero (layout xs) = all (fun x => all is_zero (fq_to_be48 x)) xs.
Proof.
elim: xs => [|x xs IH] //; rewrite layout_cons !all_cat IH; congr (_ && _).
Qed.
End Points.

Section Laws.
Context {B : Blst} {O : BlstOps B} {Curve : zmodType} {point : blst_p1 -> Curve}.
Context {finite1 : blst_p1_affine -> Prop} {finite2 : blst_p2_affine -> Prop}.
Context {L : BlstLaws O point finite1 finite2}.

Lemma be_top x : (N.land (Byte.to_N (nth x00 (fq_to_be48 x) 0)) ZCASH_FLAGS_MASK =? 0)%num.
Proof. by rewrite -(tnth_nth _ _ ord0) bendian_top. Qed.

(** A written point is accepted, unless every coordinate is zero. *)
Lemma layout_accepted x0 xs order : perm_eq order (iota 0 (size xs)) -> 0 < size xs ->
  eip2537_to_zcash (layout xs) order =
  if all (fun x => all is_zero (fq_to_be48 x)) xs then Err tt
  else Ok (flatten [seq fq_to_be48 (nth x0 xs i) | i <- order]).
Proof.
move=> perm n0; have szo : size order = size xs by rewrite (perm_size perm) size_iota.
have rng i : i \in order -> i < size xs by rewrite (perm_mem perm) mem_iota.
have payE : [seq payload (layout xs) i | i <- order] = [seq fq_to_be48 (nth x0 xs i) | i <- order].
  by apply/eq_in_map => i /rng lt; apply: payload_layout.
rewrite eip2537E ?szo //; first by apply/allP => i /rng.
rewrite /canonical payE size_layout szo eqxx layout_zero; case: (all _ xs) => //=.
have -> : all (fun i => all is_zero (padding (layout xs) i)) order.
  by apply/allP => i /rng; apply: padding_layout.
case: order szo {perm rng payE} => [sz|i order _]; first by rewrite -sz in n0.
rewrite /= nth_cat size_be /= (be_top _) //.
Qed.

Lemma zcash_inj e e' s order : 0 < size order -> perm_eq order (iota 0 (size order)) ->
  eip2537_to_zcash e order = Ok s -> eip2537_to_zcash e' order = Ok s -> e = e'.
Proof.
move=> n0 perm; have rng : all (fun i => i < size order) order.
  by apply/allP => i; rewrite (perm_mem perm) mem_iota.
rewrite !eip2537E //; case c1: canonical => // -[<-]; case c2: canonical => // -[eq].
exact: canonical_inj perm c1 c2 (esym eq).
Qed.

(** C18: points survive the EIP-2537 encoding.  A point of the prime-order subgroup
    that is not the identity, written by [g1_to_eip2537] or [g2_to_eip2537], is read
    back unchanged by the validating decoders; an encoding of zero coordinates (the
    identity) is rejected; and no two encodings convert to the same bytes. *)
Theorem eip2537_roundtrip :
  (forall p, finite1 p -> blst_p1_affine_in_g1 p -> g1_from_eip2537 (g1_to_eip2537 p) = Ok p) /\
  (forall p, finite2 p -> blst_p2_affine_in_g2 p -> g2_from_eip2537 (g2_to_eip2537 p) = Ok p) /\
  (forall p, all is_zero (fq_to_be48 (p1_x p)) -> all is_zero (fq_to_be48 (p1_y p)) ->
     g1_from_eip2537 (g1_to_eip2537 p) = Err tt) /\
  (forall e e' s order, order \in [:: [:: 0; 1]; [:: 1; 0; 3; 2]] ->
     eip2537_to_zcash e order = Ok s -> eip2537_to_zcash e' order = Ok s -> e = e').
Proof.
split; [move=> p|split; [move=> p|split=> [p|e e' s order]]].
- move=> fin ing; rewrite /g1_from_eip2537 g1_layoutE (layout_accepted (p1_x p)) //=.
  by rewrite andbT (negbTE (finite1_nonzero fin)) /= cats0 deserialize1 // ing.
- move=> fin ing; rewrite /g2_from_eip2537 g2_layoutE (layout_accepted (p2_x0 p)) //=.
  have := @finite2_nonzero _ _ _ _ _ _ L _ fin; rewrite !all_cat andbT => /negbTE ->.
  by rewrite /= cats0 deserialize2 // ing.
- by move=> zx zy; rewrite /g1_from_eip2537 g1_layoutE (layout_accepted (p1_x p)) //= zx zy.
- by rewrite !inE => /orP [] /eqP ->; apply: zcash_inj.
Qed.

(** ** The sync-committee check *)

Lemma eip2537_no_panic e order : 0 < size order -> all (fun i => i < size order) order ->
  never_panics (eip2537_to_zcash e order).
Proof. by move=> n0 rng; rewrite eip2537E //; case: canonical. Qed.

Lemma g1_no_panic e : never_panics (g1_from_eip2537 e).
Proof.
apply: bind_no_panic => [|s _]; first exact: eip2537_no_panic.
by case: blst_p1_deserialize => // p; case: ifP.
Qed.

Lemma g2_no_panic e : never_panics (g2_from_eip2537 e).
Proof.
apply: bind_no_panic => [|s _]; first exact: eip2537_no_panic.
by case: blst_p2_deserialize => // p; case: ifP.
Qed.

(** The subtraction of one non-signer, and of all of them. *)
Definition subtract (signers : blst_p1) (n : blst_p1_affine) : blst_p1 :=
  blst_p1_add_or_double signers (blst_p1_cneg (blst_p1_from_affine n) true).

Lemma subtract_loop J es :
  foldM (fun signers encoded =>
      let* non_signer := g1_from_eip2537 encoded in
      let negated := blst_p1_cneg (blst_p1_from_affine non_signer) true in
      Ok (blst_p1_add_or_double signers negated)) J es =
  let* ns := mapM g1_from_eip2537 es in Ok (foldl subtract J ns).
Proof.
elim: es J => [|e es IH] J //=; case: g1_from_eip2537 => [n| |] //=; rewrite IH.
by case: mapM.
Qed.

Lemma point_subtract J ns : point (foldl subtract J ns) =
  (point J - \sum_(n <- ns) point (blst_p1_from_affine n))%R.
Proof.
elim: ns J => [|n ns IH] J /=; first by rewrite big_nil subr0.
by rewrite IH /subtract point_add point_cneg big_cons opprD addrA.
Qed.

Lemma verify_sync_aggregateE agg nons msg sg : verify_sync_aggregate agg nons msg sg =
  or_false (let* a := g1_from_eip2537 agg in
            let* s := g2_from_eip2537 sg in
            let* ns := mapM g1_from_eip2537 nons in
            Ok (verify_signers (foldl subtract (blst_p1_from_affine a) ns) msg s)).
Proof.
rewrite /verify_sync_aggregate; case: g1_from_eip2537 => [a| |] //=.
by case: g2_from_eip2537 => [s| |] //=; rewrite subtract_loop; case: mapM.
Qed.

Lemma or_falseP m : or_false m = Ok true <-> m = Ok true.
Proof. by case: m. Qed.

(** C19: what [verify_sync_aggregate] accepts.  It always returns, and returns [true]
    exactly when the aggregate key, the signature and every non-signer key are
    accepted encodings and the signature verifies, under the Ethereum domain tag,
    for the group element of the aggregate minus the non-signers, which is not the
    identity; the representation of that element does not matter. *)
Theorem sync_aggregate_spec agg nons msg sg :
  (exists b, verify_sync_aggregate agg nons msg sg = Ok b) /\
  (verify_sync_aggregate agg nons msg sg = Ok true <->
   exists a s ns J,
   [/\ g1_from_eip2537 agg = Ok a, g2_from_eip2537 sg = Ok s,
       mapM g1_from_eip2537 nons = Ok ns,
       point J = (point (blst_p1_from_affine a) -
                  \sum_(n <- ns) point (blst_p1_from_affine n))%R /\ point J != 0%R &
       blst_core_verify_pk_in_g1 (blst_p1_to_affine J) s true msg ETHEREUM_DST [::]]).
Proof.
rewrite verify_sync_aggregateE; split.
  have := @g1_no_panic agg; case: g1_from_eip2537 => [a|e|] //= _; last by exists false.
  have := @g2_no_panic sg; case: g2_from_eip2537 => [s|e|] //= _; last by exists false.
  have : never_panics (mapM g1_from_eip2537 nons) by apply: mapM_no_panic => e; apply: g1_no_panic.
  case: mapM => [ns|e|] //= _; last by exists false.
  by eexists.
rewrite or_falseP; split=> [H|[a [s [ns [J [-> -> -> [pJ J0] ver]]]]]].
  inv_ok H; move: H; rewrite /verify_signers point_inf => -[].
  set J := foldl _ _ _; case: eqP => // /eqP J0 ver; exists v, v0, v1, J.
  by split=> //; split=> //; apply: point_subtract.
rewrite /= /verify_signers point_inf point_subtract -pJ (negbTE J0).
congr Ok; rewrite -[RHS]ver (@point_affine _ _ _ _ _ _ L _ J) //.
by rewrite point_subtract.
Qed.
End Laws.

(** ** A concrete instance: the group of seven elements *)
#[export] Instance toy_blst : Blst := {|
  blst_fp := byte;
  blst_bendian_from_fp := fun x => [tuple of rcons (nseq 47 x00) x];
  blst_p1 := 'F_7
|}.

Definition f7_byte (x : 'F_7) : byte := as_u8 (Z.of_nat x).
Definition byte_f7 (x : byte) : 'F_7 := (Byte.to_nat x)%:R%R.

#[export] Instance toy_blst_ops : BlstOps toy_blst :=
  @Build_BlstOps toy_blst
    (fun b => Some (@MkP1 toy_blst (nth x00 b 47) x01))
    (fun b => Some (@MkP2 toy_blst (nth x00 b 47) (nth x00 b 95) x01 x01))
    (fun b => Some (@MkP1 toy_blst (nth x00 b 47) (nth x00 b 95)))
    (fun b => Some (@MkP2 toy_blst (nth x00 b 95) (nth x00 b 47) (nth x00 b 191) (nth x00 b 143)))
    (fun _ => true)
    (fun _ => true)
    (fun p => byte_f7 (p1_x p))
    (fun p => @MkP1 toy_blst (f7_byte p) x01)
    (fun p b => if b then (- p)%R else p)
    (fun p q => (p + q)%R)
    (fun p => p == 0%R)
    (fun pk sig _ _ _ _ => Byte.eqb (p1_x pk) (p2_x0 sig)).

Definition toy_finite1 (p : @blst_p1_affine toy_blst) : Prop := ~~ is_zero (p1_x p : byte).
Definition toy_finite2 (p : @blst_p2_affine toy_blst) : Prop := ~~ is_zero (p2_x0 p : byte).

#[export] Instance toy_blst_laws : BlstLaws toy_blst_ops (fun p : 'F_7 => p) toy_finite1 toy_finite2.
Proof.
split=> //.
- by move=> p q ->.
- by move=> [x y]; rewrite /toy_finite1 /= => nz; rewrite !(andbF, andbT) (negbTE nz).
- by move=> [x0 x1 y0 y1]; rewrite /toy_finite2 /= => nz; rewrite (negbTE nz).
- by case.
- by case.
Qed.

Definition toy_point : @blst_p1_affine toy_blst := @MkP1 toy_blst x03 x01.
Definition toy_signature : @blst_p2_affine toy_blst := @MkP2 toy_blst x02 x04 x05 x06.

Lemma eip2537_roundtrip_witness :
  g1_from_eip2537 (g1_to_eip2537 toy_point) = Ok toy_point /\
  g2_from_eip2537 (g2_to_eip2537 toy_signature) = Ok toy_signature.
Proof.
have [r1 [r2 _]] := @eip2537_roundtrip toy_blst toy_blst_ops 'F_7 (fun p => p) toy_finite1
  toy_finite2 toy_blst_laws.
by split; [apply: r1|apply: r2].
Defined.

(** A committee whose keys sum to five; the holder of three did not sign. *)
Definition toy_aggregate : bytes := g1_to_eip2537 (@MkP1 toy_blst x05 x01).

Lemma sync_aggregate_spec_witness :
  exists a s ns J,
  [/\ g1_from_eip2537 toy_aggregate = Ok a,
      g2_from_eip2537 (g2_to_eip2537 toy_signature) = Ok s,
      mapM g1_from_eip2537 [:: g1_to_eip2537 toy_point] = Ok ns,
      (J : 'F_7) = (byte_f7 (p1_x a) - \sum_(n <- ns) byte_f7 (p1_x n))%R /\ J != 0%R &
      blst_core_verify_pk_in_g1 (blst_p1_to_affine J) s true [::] ETHEREUM_DST [::]].
Proof.
have [_ [spec _]] := @sync_aggregate_spec toy_blst toy_blst_ops 'F_7 (fun p => p) toy_finite1
  toy_finite2 toy_blst_laws toy_aggregate [:: g1_to_eip2537 toy_point] [::]
  (g2_to_eip2537 toy_signature).
by apply: spec; vm_compute.
Defined.
