(* ===== verification/ToyJni.v ===== *)
(** * A concrete Java environment

    Java arrays are sequences, whose allocation succeeds; no reference is null. *)
From Stdlib Require Import Strings.Byte Strings.String ZArith.
From S2P Require Import Prelude SeqFacts Jni.
From mathcomp Require Import ssreflect ssrfun ssrbool eqtype ssrnat seq.
Set Warnings "-rewrite-rw".
Set Implicit Arguments.
Unset Strict Implicit.
Unset Printing Implicit Defensive.

#[export] Instance toy_jni : JNIEnv := {|
  JByteArray := bytes;
  JObjectArray := seq bytes;
  JniErr := unit;
  convert_byte_array := fun b => inr b;
  new_byte_array := fun n => inr (nseq n x00);
  set_byte_array_region := fun _ v => inr (map as_u8 v);
  get_array_length := fun a => inr (size a);
  get_object_array_element := fun a i => if i < size a then inr (nth [::] a i) else inl tt;
  JIntArray := seq Z;
  JLongArray := seq Z;
  get_int_array_length := fun a => inr (size a);
  get_int_array_region := fun a n => if n <= size a then inr (take n a) else inl tt;
  get_long_array_region := fun a n =>
    if (n <= size a) && all (fun x => (- 2 ^ 63 <=? x) && (x <? 2 ^ 63))%Z (take n a)
    then inr (take n a) else inl tt;
  is_null := fun _ => false;
  JBooleanArray := bytes;
  get_boolean_array_length := fun a => inr (size a);
  get_boolean_array_region := fun a n => if n <= size a then inr (take n a) else inl tt;
  JString := string;
  string_is_null := fun _ => false;
  get_string := fun s => inr s;
  JClass := unit;
  jobject := seq (option bytes);
  find_class := fun _ => inr tt;
  new_object := fun _ _ args => inr args
|}.

#[export] Instance toy_jni_laws : JNILaws toy_jni.
Proof.
split=> [a a' v _ [<-] //|a n v /=|a n v /=|a n v /=|a n v /=].
- by case: leqP => // le [<-]; apply: size_takel.
- by case: leqP => //= le; case: ifP => // _ [<-]; apply: size_takel.
- by case: leqP => //= le; case: ifP => // ok [<-].
- by case: leqP => // le [<-]; apply: size_takel.
Qed.
