(* ===== verification/JniHints.v ===== *)
(** * [jni_crs.rs] and [jni_hints.rs]: the JNI entry points of hinTS

    Each entry point reads its arguments from Java arrays, calls the scheme and writes
    the result back; an error or a caught panic becomes null or [false].  Reference
    strings and aggregation keys go through the two caches, whose state is threaded. *)
From Stdlib Require Import Strings.Byte Strings.String ZArith.
From S2P Require Import Prelude Errors Engine SeqFacts Utils Kzg Transcript Setup Hints.
From S2P Require Import CacheInterface Jni.
From mathcomp Require Import ssreflect ssrfun ssrbool eqtype ssrnat seq.
From mathcomp Require Import ssralg.
Set Warnings "-rewrite-rw".
Set Implicit Arguments.
Unset Strict Implicit.
Unset Printing Implicit Defensive.

(** [serialize_uncompressed] and [deserialize_uncompressed] of arkworks, as derived for
    the types of the crate. *)
Class Uncompressed (E : Engine) (T : Type) := {
  ser_uncompressed : T -> SerializationError + bytes;
  deser_uncompressed : bytes -> SerializationError + T
}.

Class UncompressedLaws (E : Engine) (T : Type) (U : Uncompressed E T) : Prop := {
  ser_deser : forall (x : T) b, ser_uncompressed x = inr b -> deser_uncompressed b = inr x
}.

Class HintsCodecs (E : Engine) := {
  codec_crs :: Uncompressed E CRS;
  codec_proof :: Uncompressed E ContributionProof;
  codec_sk :: Uncompressed E SecretKey;
  codec_hint :: Uncompressed E ExtendedPublicKey;
  codec_ak :: Uncompressed E AggregationKey;
  codec_vk :: Uncompressed E VerificationKey;
  codec_partial : Uncompressed E PartialSignature;
  codec_threshold :: Uncompressed E ThresholdSignature
}.

Class HintsCodecLaws (E : Engine) (C : HintsCodecs E) : Prop := {
  laws_crs :: UncompressedLaws (@codec_crs E C);
  laws_hint :: UncompressedLaws (@codec_hint E C);
  laws_ak :: UncompressedLaws (@codec_ak E C);
  laws_vk :: UncompressedLaws (@codec_vk E C);
  laws_threshold :: UncompressedLaws (@codec_threshold E C)
}.

Section EntryPoints.
Context {E : Engine} {C : HintsCodecs E} {J : JNIEnv}.
Context {CC : MapCache JniErr SerializationError CRS}.
Context {AC : MapCache JniErr SerializationError AggregationKey}.

(** The two static caches. *)
Record Caches : Type := MkCaches {
  CRS_CACHE : @cache_state _ _ _ CC;
  AGGREGATION_KEY_CACHE : @cache_state _ _ _ AC
}.

Definition fresh : Caches := MkCaches cache_new cache_new.

Abbreviation jni := (Jni.jni Caches).

(** [CRS_CACHE.get] and [AGGREGATION_KEY_CACHE.get] *)
Definition crs_get (jarray : JByteArray) : jni CRS := fun st =>
  let '(r, c) := cache_get (CRS_CACHE st) (convert_byte_array jarray) in
  (map_err (fun _ => tt) r, MkCaches c (AGGREGATION_KEY_CACHE st)).
Definition ak_get (jarray : JByteArray) : jni AggregationKey := fun st =>
  let '(r, c) := cache_get (AGGREGATION_KEY_CACHE st) (convert_byte_array jarray) in
  (map_err (fun _ => tt) r, MkCaches (CRS_CACHE st) c).

(** [serialize] *)
Definition serialize {T : Type} {U : Uncompressed E T} (t : T) : outcome HError bytes :=
  lift_encoding (ser_uncompressed t).

Definition de {T : Type} {U : Uncompressed E T} (jarray : JByteArray) : jni T :=
  jtry (deserialize_jbyte_array deser_uncompressed jarray).
Definition put {T : Type} {U : Uncompressed E T} (t : T) : jni jbyteArray :=
  jtry (serialize_object serialize t).
Definition raw (jarray : JByteArray) : jni bytes := jtry (of_sum (convert_byte_array jarray)).

(** ** [jni_crs.rs] *)

(** [PowersOfTauProtocol::init(signers_num as usize)] on a [jshort].  The length
    [degree + 1] wraps around in a release build; the wrapped length of a short below -1 exceeds
    [isize::MAX], on which [vec!] panics. *)
Definition init_crs (signers_num : Z) : outcome unit CRS :=
  if (signers_num <? -1)%Z then Panic
  else Ok (PowersOfTauProtocol.towers
    (Z.to_nat ((signers_num mod 2 ^ 64 + 1) mod 2 ^ 64))).

Definition initCRSImpl (signers_num : Z) : jni jbyteArray :=
  do? crs := jtry (init_crs signers_num) in
  put crs.

Definition updateCRSImpl (prev_crs_array random_array : JByteArray) : jni jbyteArray :=
  do? prev_crs := (de prev_crs_array : jni CRS) in
  do? random_arr := jtry (build_entropy_array RANDOM_SIZE random_array) in
  do? (crs, contribution_proof) := jtry (PowersOfTauProtocol.contribute prev_crs random_arr) in
  do? serialized_crs := jtry (serialize crs) in
  do? serialized_contribution_proof := jtry (serialize contribution_proof) in
  jret (two_u8_vec_to_jbyte_array serialized_crs serialized_contribution_proof).

Definition verifyCRSImpl (prev_crs_array next_crs_array contribution_proof_array : JByteArray) :
    jni bool :=
  do? prev_crs := (de prev_crs_array : jni CRS) in
  do? next_crs := (de next_crs_array : jni CRS) in
  do? contribution_proof := (de contribution_proof_array : jni ContributionProof) in
  jtry (PowersOfTauProtocol.verify_contribution prev_crs next_crs contribution_proof).

Definition pruneCRSImpl (prev_crs_array : JByteArray) (signers_num : Z) : jni jbyteArray :=
  do? prev_crs := (de prev_crs_array : jni CRS) in
  do? crs := jtry (PowersOfTauProtocol.prune_crs prev_crs (as_usize signers_num)) in
  put crs.

(** ** [jni_hints.rs] *)

Definition generateSecretKey (random_jarray : JByteArray) : jni jbyteArray :=
  do? random_arr := jtry (build_entropy_array RANDOM_SIZE random_jarray) in
  do? secret_key := jtry (HinTS.keygen random_arr) in
  put secret_key.

Definition computeHintsImpl (crs_jarray secret_key_jarray : JByteArray) (party_id n : Z) :
    jni jbyteArray :=
  do? crs := crs_get crs_jarray in
  do? secret_key := (de secret_key_jarray : jni SecretKey) in
  do? hint := jtry (HinTS.hint_gen crs (as_usize n) (as_usize party_id) secret_key) in
  put hint.

Definition validateHintsKeyImpl (crs_jarray hints_jarray : JByteArray) (party_id n : Z) : jni bool :=
  do? crs := crs_get crs_jarray in
  do? hints := (de hints_jarray : jni ExtendedPublicKey) in
  jtry (HinTS.verify_hint crs (as_usize n) (as_usize party_id) hints).

(** The loop that deserializes the first [n] elements of a Java array. *)
Definition read_objects {T : Type} {U : Uncompressed E T} (jarray : JObjectArray) (n : nat) :
    jni (seq T) :=
  jtry (mapM (fun i =>
      let* jobj := map_err (fun _ => tt) (of_sum (get_object_array_element jarray i)) in
      map_err (fun _ => tt) (deserialize_jbyte_array deser_uncompressed jobj))
    (iota 0 n)).

(** [HashMap::insert] *)
Definition hashmap_insert {V : Type} (m : seq (nat * V)) (k : nat) (v : V) : seq (nat * V) :=
  (k, v) :: [seq kv <- m | kv.1 != k].

(** [Weight::from] on [i64] *)
Definition weight_from (w : Z) : F :=
  if (w <? 0)%Z then (- (Z.to_nat (- w))%:R)%R else ((Z.to_nat w)%:R)%R.

Definition preprocessImpl (crs_jarray : JByteArray) (parties_jarray : JIntArray)
    (hints_jarray : JObjectArray) (weights_jarray : JLongArray) (n : Z) : jni (option jobject) :=
  do? crs := crs_get crs_jarray in
  do? num_of_keys := jtry (of_sum (get_int_array_length parties_jarray)) in
  do? keys := jtry (of_sum (get_int_array_region parties_jarray num_of_keys)) in
  do? weights := jtry (of_sum (get_long_array_region weights_jarray num_of_keys)) in
  do? hints_array := (read_objects hints_jarray num_of_keys : jni (seq ExtendedPublicKey)) in
  do? signer_info := jtry (foldM (fun m i =>
      let* key := vec_get keys i in
      let* weight := vec_get weights i in
      let* hint := vec_get hints_array i in
      @Ok unit _ (hashmap_insert m (as_usize key) (weight_from weight, hint)))
    [::] (iota 0 num_of_keys)) in
  do? (vk, ak) := jtry (HinTS.preprocess (as_usize n) crs signer_info) in
  do? serialized_vk := put vk in
  do? serialized_ak := put ak in
  do? keys_clz := jtry (of_sum (find_class
    "com/hedera/cryptography/hints/AggregationAndVerificationKeys")) in
  do? keys_obj := jtry (of_sum (new_object keys_clz "([B[B)V" [:: serialized_vk; serialized_ak])) in
  jret (Some keys_obj).

Definition signBlsImpl (message_jarray secret_key_jarray : JByteArray) : jni jbyteArray :=
  do? message := raw message_jarray in
  do? secret_key := (de secret_key_jarray : jni SecretKey) in
  do? signature := jtry (HinTS.sign message secret_key) in
  @put _ codec_partial signature.

Definition verifyBlsImpl (signature_jarray message_jarray aggregation_key_jarray : JByteArray)
    (party_id : Z) : jni bool :=
  do? message := raw message_jarray in
  do? aggregation_key := ak_get aggregation_key_jarray in
  do? signature := @de _ codec_partial signature_jarray in
  jtry (HinTS.partial_verify message aggregation_key (as_usize party_id) signature).

(** [r] is the randomness that [partial_verify_batch] draws. *)
Definition verifyBlsBatchImpl (r : F) (message_jarray aggregation_key_jarray : JByteArray)
    (parties_jarray : JIntArray) (partial_signatures_jarray : JObjectArray) : jni bool :=
  do? message := raw message_jarray in
  do? aggregation_key := ak_get aggregation_key_jarray in
  do? num_of_keys := jtry (of_sum (get_int_array_length parties_jarray)) in
  do? keys := jtry (of_sum (get_int_array_region parties_jarray num_of_keys)) in
  let keys_usize := map as_usize keys in
  do? partial_signatures := @read_objects _ codec_partial partial_signatures_jarray num_of_keys in
  jtry (HinTS.partial_verify_batch r message aggregation_key keys_usize partial_signatures).

Definition aggregateSignaturesImpl (crs_jarray aggregation_key_jarray verification_key_jarray :
    JByteArray) (parties_jarray : JIntArray) (partial_signatures_jarray : JObjectArray) :
    jni jbyteArray :=
  do? crs := crs_get crs_jarray in
  do? aggregation_key := ak_get aggregation_key_jarray in
  do? verification_key := (de verification_key_jarray : jni VerificationKey) in
  do? num_of_keys := jtry (of_sum (get_int_array_length parties_jarray)) in
  do? keys := jtry (of_sum (get_int_array_region parties_jarray num_of_keys)) in
  do? partial_signatures_array :=
    @read_objects _ codec_partial partial_signatures_jarray num_of_keys in
  do? partial_signatures := jtry (foldM (fun m i =>
      let* key := vec_get keys i in
      let* signature := vec_get partial_signatures_array i in
      @Ok unit _ (hashmap_insert m (as_usize key) signature))
    [::] (iota 0 num_of_keys)) in
  do? threshold_signature :=
    jtry (HinTS.aggregate crs aggregation_key verification_key partial_signatures) in
  put threshold_signature.

Definition verifyAggregateImpl (signature_jarray message_jarray verification_key_jarray :
    JByteArray) (threshold_numerator threshold_denominator : Z) : jni bool :=
  do? signature := (de signature_jarray : jni ThresholdSignature) in
  do? message := raw message_jarray in
  do? verification_key := (de verification_key_jarray : jni VerificationKey) in
  jtry (HinTS.verify message verification_key signature
          (weight_from threshold_numerator, weight_from threshold_denominator)).

Definition resetCache : jni unit := fun st =>
  (Ok tt, MkCaches (cache_reset (CRS_CACHE st)) (cache_reset (AGGREGATION_KEY_CACHE st))).

End EntryPoints.
