(* ===== verification/JniHintsFacts.v ===== *)
(** * Theorems on the JNI entry points of hinTS

    Entry points never need their panic handler, their answers do not depend on what
    earlier calls left in the caches, and objects cross the byte boundary unchanged. *)
From Stdlib Require Import Strings.Byte Strings.String ZArith.
From S2P Require Import Prelude Errors Engine SeqFacts Utils Kzg Transcript Setup Hints.
From S2P Require Import Ceremony Safety CacheInterface Jni JniHints.
From mathcomp Require Import ssreflect ssrfun ssrbool eqtype ssrnat seq.
From mathcomp Require Import ssralg.
Import GRing.Theory.
Set Warnings "-rewrite-rw".
Set Implicit Arguments.
Unset Strict Implicit.
Unset Printing Implicit Defensive.

Section Setup.
Context {E : Engine}.

Lemma tower_lengths_no_panic prev next : never_panics (validate_crs_tower_lengths prev next).
Proof. by rewrite /validate_crs_tower_lengths; case: ifP => // _; case: ifP. Qed.

Lemma validate_inv prev next len : validate_crs_tower_lengths prev next = Ok len ->
  [/\ 2 < len, size (powers_of_g prev) = len & size (powers_of_h prev) = len].
Proof.
rewrite /validate_crs_tower_lengths; case: ltnP => // m3.
by case C: [|| _, _ | _] => // -[<-]; move/negbT/norP: C => [_ /norP[_ /negPn/eqP gh]].
Qed.

Lemma prune_no_panic crs d : never_panics (PowersOfTauProtocol.prune_crs crs d).
Proof.
apply: bind_no_panic => [|len /validate_inv [_ sg sh]]; first exact: tower_lengths_no_panic.
by case: leqP => // lt; rewrite !slice_inclE ?sg ?sh.
Qed.

Lemma contribute_no_panic crs seed : never_panics (PowersOfTauProtocol.contribute crs seed).
Proof.
rewrite /PowersOfTauProtocol.contribute; case: rand_F => r rng.
apply: bind_no_panic => [|len /validate_inv [l2 sg sh]]; first exact: tower_lengths_no_panic.
have l1 : 1 < len := ltnW l2.
rewrite !(vec_get_lt _ 0%R) ?sg //=.
  by rewrite size_map size_zip sg size_map size_iota addn1 subn1 prednK ?minnn // ltnW.
rewrite /schnorr_nizk; case: rand_F => z ?; rewrite /random_oracle.
by do 3 (case: (compressed _) => [?|?] //=).
Qed.
End Setup.

Section Facts.
Context {E : Engine} {L : EngineLaws E} {C : HintsCodecs E} {J : JNIEnv} {JL : JNILaws J}.
Context {CC : MapCache JniErr SerializationError CRS}.
Context {AC : MapCache JniErr SerializationError AggregationKey}.
Context {CS : MapCacheSpec deser_uncompressed CC} {AS : MapCacheSpec deser_uncompressed AC}.

Abbreviation jni := (Jni.jni (@Caches _ _ CC AC)).

Definition caches_ok (st : @Caches _ _ CC AC) : Prop :=
  cache_ok (CRS_CACHE st) /\ cache_ok (AGGREGATION_KEY_CACHE st).

Lemma fresh_ok : caches_ok fresh.
Proof. split; exact: cache_new_ok. Qed.

(** A body that does not panic, keeps the caches in order and answers as with fresh ones. *)
Definition well_behaved {A : Type} (m : jni A) : Prop :=
  forall st, caches_ok st ->
    [/\ never_panics (m st).1, (m st).1 = (m fresh).1 & caches_ok (m st).2].

Lemma wb_ret A (a : A) : well_behaved (jret a).
Proof. by []. Qed.

Lemma wb_try Error A (m : outcome Error A) : never_panics m -> well_behaved (jtry m).
Proof. by case: m. Qed.

Lemma wb_bind A B (m : jni A) (k : A -> jni B) : well_behaved m ->
  (forall a, (m fresh).1 = Ok a -> well_behaved (k a)) -> well_behaved (jbind m k).
Proof.
move=> wm wk st ok; rewrite /jbind.
have [np eq ok'] := wm st ok; have [_ _ okf] := wm fresh fresh_ok.
case mE: (m st) np eq ok' => [o st'] /= np eq ok'; case fE: (m fresh) eq okf => [o' st0] /= eq okf.
subst o'; case: o np mE fE => [a|e|] // _ mE fE.
have wa : well_behaved (k a) by apply: wk; rewrite fE.
have [np1 eq1 ok1] := wa st' ok'; have [_ eq0 _] := wa st0 okf.
by split=> //; rewrite eq1 eq0.
Qed.

Lemma uncached_no_panic T (d : bytes -> SerializationError + T) (j : JniErr + bytes) :
  never_panics (uncached d j).
Proof. by rewrite /uncached; case: j => // b; case: (d b). Qed.

Lemma wb_crs a : well_behaved (crs_get a).
Proof.
move=> st [okc oka]; rewrite /crs_get.
have := cache_get_value _ (convert_byte_array a) okc; have := cache_get_ok _ (convert_byte_array a) okc.
have := cache_get_value (CRS_CACHE fresh) (convert_byte_array a) (proj1 fresh_ok).
case: (cache_get (CRS_CACHE st) _) => [r c] /=; case: (cache_get (CRS_CACHE fresh) _) => [r0 c0] /=.
by move=> -> okc' ->; split=> //; apply/map_err_no_panic/uncached_no_panic.
Qed.

Lemma wb_ak a : well_behaved (ak_get a).
Proof.
move=> st [okc oka]; rewrite /ak_get.
have := cache_get_value _ (convert_byte_array a) oka; have := cache_get_ok _ (convert_byte_array a) oka.
have := cache_get_value (AGGREGATION_KEY_CACHE fresh) (convert_byte_array a) (proj2 fresh_ok).
case: (cache_get (AGGREGATION_KEY_CACHE st) _) => [r c] /=.
case: (cache_get (AGGREGATION_KEY_CACHE fresh) _) => [r0 c0] /=.
by move=> -> okc' ->; split=> //; apply/map_err_no_panic/uncached_no_panic.
Qed.

Lemma of_sum_no_panic X A (s : X + A) : never_panics (of_sum s).
Proof. by case: s. Qed.

Lemma deserialize_no_panic T X (d : bytes -> X + T) a : never_panics (deserialize_jbyte_array d a).
Proof.
apply: bind_no_panic => [|b _]; exact/map_err_no_panic/of_sum_no_panic.
Qed.

Lemma wb_de T (U : Uncompressed E T) a : well_behaved (de a : jni T).
Proof. exact/wb_try/deserialize_no_panic. Qed.

Lemma wb_raw a : well_behaved (raw a).
Proof. exact/wb_try/of_sum_no_panic. Qed.

Lemma wb_sum X A (s : X + A) : well_behaved (jtry (of_sum s)).
Proof. exact/wb_try/of_sum_no_panic. Qed.

Lemma wb_serialize T (U : Uncompressed E T) (t : T) : well_behaved (jtry (serialize t)).
Proof. exact/wb_try/lift_encoding_no_panic. Qed.

Lemma wb_put T (U : Uncompressed E T) (t : T) : well_behaved (put t).
Proof. by apply: wb_try; apply: bind_no_panic => //; apply: lift_encoding_no_panic. Qed.

Lemma wb_entropy n a : well_behaved (jtry (build_entropy_array n a)).
Proof.
apply: wb_try; apply: bind_no_panic => [|b _]; last by case: ifP.
exact/map_err_no_panic/of_sum_no_panic.
Qed.

Lemma wb_objects T (U : Uncompressed E T) a n : well_behaved (read_objects a n : jni (seq T)).
Proof.
apply: wb_try; apply: mapM_no_panic => i; apply: bind_no_panic => [|o _].
  exact/map_err_no_panic/of_sum_no_panic.
exact/map_err_no_panic/deserialize_no_panic.
Qed.
End Facts.

Create HintDb jni.
#[export] Hint Resolve wb_ret wb_crs wb_ak wb_de wb_raw wb_sum wb_serialize wb_put wb_entropy
  wb_objects : jni.
#[export] Hint Resolve hint_gen_safe verify_hint_safe preprocess_safe partial_verify_safe
  partial_verify_batch_safe aggregate_safe verify_safe prune_no_panic contribute_no_panic : jni.

(** Decomposes a body into its calls. *)
Ltac wb_step :=
  match goal with
  | |- well_behaved (jbind _ _) => apply: wb_bind; [|let a := fresh "a" in intros a ?]
  | |- well_behaved (let: (_, _) := ?p in _) => destruct p
  | |- well_behaved (jtry _) => first [solve [eauto with jni]|apply: wb_try]
  end.
Ltac wb := repeat (solve [eauto with jni] || wb_step).

(** ** Requests *)
Section Requests.
Context {E : Engine} {C : HintsCodecs E} {J : JNIEnv}.
Context {CC : MapCache JniErr SerializationError CRS}.
Context {AC : MapCache JniErr SerializationError AggregationKey}.

(** A call from Java, with the randomness it draws. *)
Inductive request : Type :=
| InitCRS (signers_num : Z)
| UpdateCRS (prev_crs random : JByteArray)
| VerifyCRS (prev_crs next_crs proof : JByteArray)
| PruneCRS (prev_crs : JByteArray) (signers_num : Z)
| GenerateSecretKey (random : JByteArray)
| ComputeHints (crs secret_key : JByteArray) (party_id n : Z)
| ValidateHintsKey (crs hints : JByteArray) (party_id n : Z)
| Preprocess (crs : JByteArray) (parties : JIntArray) (hints : JObjectArray)
    (weights : JLongArray) (n : Z)
| SignBls (message secret_key : JByteArray)
| VerifyBls (signature message aggregation_key : JByteArray) (party_id : Z)
| VerifyBlsBatch (r : F) (message aggregation_key : JByteArray) (parties : JIntArray)
    (signatures : JObjectArray)
| AggregateSignatures (crs aggregation_key verification_key : JByteArray) (parties : JIntArray)
    (signatures : JObjectArray)
| VerifyAggregate (signature message verification_key : JByteArray) (numerator denominator : Z)
| ResetCache.

Inductive reply : Type :=
| RArray (a : jbyteArray)
| RBool (b : bool)
| RObject (o : option jobject)
| RUnit.

Definition body (r : request) : Jni.jni (@Caches _ _ CC AC) reply :=
  match r with
  | InitCRS k => jmap RArray (initCRSImpl k)
  | UpdateCRS p a => jmap RArray (updateCRSImpl p a)
  | VerifyCRS p n c => jmap RBool (verifyCRSImpl p n c)
  | PruneCRS p k => jmap RArray (pruneCRSImpl p k)
  | GenerateSecretKey a => jmap RArray (generateSecretKey a)
  | ComputeHints c s i n => jmap RArray (computeHintsImpl c s i n)
  | ValidateHintsKey c h i n => jmap RBool (validateHintsKeyImpl c h i n)
  | Preprocess c p h w n => jmap RObject (preprocessImpl c p h w n)
  | SignBls m s => jmap RArray (signBlsImpl m s)
  | VerifyBls s m a i => jmap RBool (verifyBlsImpl s m a i)
  | VerifyBlsBatch r m a p s => jmap RBool (verifyBlsBatchImpl r m a p s)
  | AggregateSignatures c a v p s => jmap RArray (aggregateSignaturesImpl c a v p s)
  | VerifyAggregate s m v n d => jmap RBool (verifyAggregateImpl s m v n d)
  | ResetCache => jmap (fun _ => RUnit) resetCache
  end.

(** What an entry point answers on error. *)
Definition null_of (r : request) : reply :=
  match r with
  | VerifyCRS _ _ _ | ValidateHintsKey _ _ _ _ | VerifyBls _ _ _ _ | VerifyBlsBatch _ _ _ _ _
  | VerifyAggregate _ _ _ _ _ => RBool false
  | Preprocess _ _ _ _ _ => RObject None
  | ResetCache => RUnit
  | _ => RArray None
  end.

Definition handle (r : request) : Caches -> reply * Caches := entry (null_of r) (body r).

(** A sequence of calls. *)
Fixpoint serve (rs : seq request) (st : Caches) : seq reply :=
  if rs is r :: rs' then let '(a, st) := handle r st in a :: serve rs' st else [::].
End Requests.

Section Stateless.
Context {E : Engine} {L : EngineLaws E} {C : HintsCodecs E} {J : JNIEnv} {JL : JNILaws J}.
Context {CC : MapCache JniErr SerializationError CRS}.
Context {AC : MapCache JniErr SerializationError AggregationKey}.
Context {CS : MapCacheSpec deser_uncompressed CC} {AS : MapCacheSpec deser_uncompressed AC}.

Abbreviation jni := (Jni.jni (@Caches _ _ CC AC)).

Lemma keygen_safe seed : never_panics (HinTS.keygen seed).
Proof.
rewrite /HinTS.keygen; case: fill_bytes => a rng; case: fill_bytes => b rng'.
by apply: bind_no_panic => //; apply: generate_pok_no_panic.
Qed.

Lemma sign_safe m sk : never_panics (HinTS.sign m sk).
Proof. by apply: bind_no_panic => //; apply: hash_to_g2_no_panic. Qed.

Lemma verify_contribution_safe p n c : never_panics (PowersOfTauProtocol.verify_contribution p n c).
Proof. by have [b ->] := verify_contribution_total p n c. Qed.

#[local] Hint Resolve keygen_safe sign_safe verify_contribution_safe : jni.

Lemma wb_reset : well_behaved resetCache.
Proof. by move=> st [okc oka]; split=> //; split; exact: cache_reset_ok. Qed.

Lemma wb_map A B (f : A -> B) (m : jni A) : well_behaved m -> well_behaved (jmap f m).
Proof. by move=> wm; apply: wb_bind => // a _; exact: wb_ret. Qed.

Lemma wb_simple :
  (forall k, (-1 <= k)%Z -> well_behaved (initCRSImpl k)) /\ (forall p a, well_behaved (updateCRSImpl p a)) /\
  (forall p n c, well_behaved (verifyCRSImpl p n c)) /\
  (forall p k, well_behaved (pruneCRSImpl p k)) /\
  (forall a, well_behaved (generateSecretKey a)) /\
  (forall c s i n, well_behaved (computeHintsImpl c s i n)) /\
  (forall c h i n, well_behaved (validateHintsKeyImpl c h i n)) /\
  (forall m s, well_behaved (signBlsImpl m s)) /\
  (forall s m a i, well_behaved (verifyBlsImpl s m a i)) /\
  (forall r m a p s, well_behaved (verifyBlsBatchImpl r m a p s)) /\
  (forall s m v n d, well_behaved (verifyAggregateImpl s m v n d)).
Proof.
split.
  by move=> k k1; rewrite /initCRSImpl /init_crs (proj2 (Z.ltb_ge _ _) k1); wb.
repeat match goal with |- _ /\ _ => split end; intros;
  rewrite /updateCRSImpl /verifyCRSImpl /pruneCRSImpl /generateSecretKey
    /computeHintsImpl /validateHintsKeyImpl /signBlsImpl /verifyBlsImpl /verifyBlsBatchImpl
    /verifyAggregateImpl; wb.
Qed.

(** The loops that build the maps stay within their vectors. *)
Lemma foldM_in_range (X S : Type) (f : S -> nat -> outcome X S) s n :
  (forall s i, i < n -> never_panics (f s i)) -> never_panics (foldM f s (iota 0 n)).
Proof.
move=> H; have {}H : forall i, i \in iota 0 n -> forall s, never_panics (f s i).
  by move=> i; rewrite mem_iota => lt s'; apply: H.
elim: (iota 0 n) s H => [|i l IH] s //= H.
by apply: bind_no_panic => [|s' _]; [apply: H; rewrite mem_head|apply: IH => j jl; apply: H; rewrite inE jl orbT].
Qed.

Lemma get_in_range (X A : Type) (v : seq A) n i : size v = n -> i < n ->
  never_panics (vec_get v i : outcome X A).
Proof. by move=> <-; rewrite /vec_get; elim: v i => [|x v IH] [|i] //= lt; apply: IH. Qed.

Lemma try_Ok X A (m : outcome X A) a : (jtry m (fresh : @Caches _ _ CC AC)).1 = Ok a -> m = Ok a.
Proof. by case: m => //= x [->]. Qed.

Lemma region_read (s : JniErr + seq Z) v :
  (jtry (of_sum s) (fresh : @Caches _ _ CC AC)).1 = Ok v -> s = inr v.
Proof. by move=> H; move: (try_Ok H) => {H}; case: s => //= x [->]. Qed.

Lemma objects_size T (U : Uncompressed E T) a n v :
  ((read_objects a n : jni (seq T)) (fresh : @Caches _ _ CC AC)).1 = Ok v -> size v = n.
Proof. by move=> H; have /size_mapM := try_Ok H; rewrite size_iota. Qed.

Lemma wb_aggregate c a v p s : well_behaved (aggregateSignaturesImpl c a v p s).
Proof.
rewrite /aggregateSignaturesImpl; do 4 (apply: wb_bind; [by wb|intros ? _]).
apply: wb_bind => [|keys /region_read/int_region_size sk]; first by wb.
apply: wb_bind => [|sigs /objects_size ss]; first by wb.
apply: wb_bind => [|m _]; last by wb.
apply: wb_try; apply: foldM_in_range => m i lt.
by do 2 (apply: bind_no_panic => [|? _]; [by apply: get_in_range lt|]).
Qed.

Lemma wb_preprocess c p h w n : well_behaved (preprocessImpl c p h w n).
Proof.
rewrite /preprocessImpl; do 2 (apply: wb_bind; [by wb|intros ? _]).
apply: wb_bind => [|keys /region_read/int_region_size sk]; first by wb.
apply: wb_bind => [|ws /region_read/long_region_size sw]; first by wb.
apply: wb_bind => [|hs /objects_size sh]; first by wb.
apply: wb_bind => [|m _]; last by wb.
apply: wb_try; apply: foldM_in_range => m i lt.
by do 3 (apply: bind_no_panic => [|? _]; [by apply: get_in_range lt|]).
Qed.

(** Sizes that a new reference string can have. *)
Definition fits (r : request) : Prop := if r is InitCRS k then (-1 <= k)%Z else True.

Lemma wb_body r : fits r -> well_behaved (body r).
Proof.
have [h1 [h2 [h3 [h4 [h5 [h6 [h7 [h8 [h9 [h10 h11]]]]]]]]]] := wb_simple.
case: r => /= *; apply: wb_map;
  by [|exact: h1|exact: wb_preprocess|exact: wb_aggregate|exact: wb_reset].
Qed.

(** Whether or not it panics, a body answers as with fresh caches. *)
Lemma steady_body r st : caches_ok st ->
  (body r st).1 = (body r fresh).1 /\ caches_ok (body r st).2.
Proof.
move=> ok; have [fr|[k -> lt]] : fits r \/ exists2 k, r = InitCRS k & (k < -1)%Z.
- case: r; try (by left); move=> k.
  by case: (Z.lt_ge_cases k (-1)) => lt; [right; exists k|left].
- by have [] := wb_body fr ok.
rewrite /= /jmap /jbind /initCRSImpl /init_crs (proj2 (Z.ltb_lt _ _) lt).
by split.
Qed.

Lemma serve_stateless rs st : caches_ok st ->
  serve rs st = [seq (handle r fresh).1 | r <- rs].
Proof.
elim: rs st => [|r rs IH] st ok //=; have [eq ok'] := steady_body r ok.
rewrite /handle /entry; case bE: (body r st) eq ok' => [o st'] /= eq ok'.
by rewrite IH // eq; case: (body r fresh).
Qed.

(** ** Inversion of bodies *)

Definition reads {T : Type} {U : Uncompressed E T} (jarray : JByteArray) (x : T) : Prop :=
  exists2 b, convert_byte_array jarray = inr b & deser_uncompressed b = inr x.

Lemma de_Ok T (U : Uncompressed E T) a (st : @Caches _ _ CC AC) (x : T) :
  ((de a : jni T) st).1 = Ok x <-> reads a x.
Proof.
rewrite /de /jtry /reads /deserialize_jbyte_array /=.
case: convert_byte_array => [e|b] /=; first by split=> // -[].
case dE: deser_uncompressed => [e|y] /=; split=> //.
- by case=> _ [<-]; rewrite dE.
- by case=> <-; exists b.
- by case=> _ [<-]; rewrite dE => -[->].
Qed.

Lemma reads_deserialize T (U : Uncompressed E T) a (x : T) :
  reads a x -> deserialize_jbyte_array deser_uncompressed a = Ok x.
Proof. by case=> b cE dE; rewrite /deserialize_jbyte_array cE /= dE. Qed.

Lemma raw_Ok a (st : @Caches _ _ CC AC) b :
  (raw a st).1 = Ok b <-> convert_byte_array a = inr b.
Proof. by rewrite /raw /jtry; case: convert_byte_array => [e|c] /=; split=> // -[->]. Qed.

Lemma uncached_Ok T (U : Uncompressed E T) a (x : T) :
  uncached deser_uncompressed (convert_byte_array a) = Ok x -> reads a x.
Proof.
rewrite /uncached /reads; case: convert_byte_array => // b.
by case dE: deser_uncompressed => [e|y] //= [<-]; exists b.
Qed.

Lemma crs_get_Ok a (st : @Caches _ _ CC AC) x : caches_ok st ->
  (crs_get a st).1 = Ok x -> reads a x.
Proof.
case=> okc _; rewrite /crs_get; have := cache_get_value _ (convert_byte_array a) okc.
by case: cache_get => r c /= -> H; apply: uncached_Ok; exact: map_err_Ok_inv H.
Qed.

Lemma ak_get_Ok a (st : @Caches _ _ CC AC) x : caches_ok st ->
  (ak_get a st).1 = Ok x -> reads a x.
Proof.
case=> _ oka; rewrite /ak_get; have := cache_get_value _ (convert_byte_array a) oka.
by case: cache_get => r c /= -> H; apply: uncached_Ok; exact: map_err_Ok_inv H.
Qed.

Lemma uncached_reads T (U : Uncompressed E T) a (x : T) :
  reads a x -> uncached deser_uncompressed (convert_byte_array a) = Ok x.
Proof. by case=> b cE dE; rewrite /uncached cE dE. Qed.

Lemma crs_get_reads a (st : @Caches _ _ CC AC) x : caches_ok st -> reads a x ->
  (crs_get a st).1 = Ok x.
Proof.
case=> okc _ rd; rewrite /crs_get.
by have := cache_get_value _ (convert_byte_array a) okc; case: cache_get => o c /= ->; rewrite (uncached_reads rd).
Qed.

Lemma ak_get_reads a (st : @Caches _ _ CC AC) x : caches_ok st -> reads a x ->
  (ak_get a st).1 = Ok x.
Proof.
case=> _ oka rd; rewrite /ak_get.
by have := cache_get_value _ (convert_byte_array a) oka; case: cache_get => o c /= ->; rewrite (uncached_reads rd).
Qed.

(** The verdict of [verifyAggregate] on arrays. *)
Lemma verify_aggregateP s m v num den (st : @Caches _ _ CC AC) :
  (entry false (verifyAggregateImpl s m v num den) st).1 = true <->
  exists pi msg vk, [/\ reads s pi, convert_byte_array m = inr msg, reads v vk &
    HinTS.verify msg vk pi (weight_from num, weight_from den) = Ok true].
Proof.
rewrite entry_true /verifyAggregateImpl; split.
  case/jbind_Ok=> pi /de_Ok rpi /jbind_Ok [msg /raw_Ok cm] /jbind_Ok [vk /de_Ok rv] /jtry_Ok ver.
  by exists pi, msg, vk.
case=> pi [msg [vk [rpi cm rv ver]]]; apply/jbind_Ok; exists pi; first exact/de_Ok.
apply/jbind_Ok; exists msg; first exact/raw_Ok.
by apply/jbind_Ok; exists vk; [exact/de_Ok|exact/jtry_Ok].
Qed.

Lemma reads_fun T (U : Uncompressed E T) a (x y : T) : reads a x -> reads a y -> x = y.
Proof. by case=> b cE dE [b']; rewrite cE => -[<-]; rewrite dE => -[]. Qed.

Lemma put_reads T (U : Uncompressed E T) (UL : UncompressedLaws U) (t : T)
    (st : @Caches _ _ CC AC) a : (put t st).1 = Ok (Some a) -> reads a t.
Proof.
move/jtry_Ok; rewrite /serialize_object /serialize; case sE: ser_uncompressed => [e|b] //= [aE].
by exists b; [exact: jbyte_array_read aE|exact: ser_deser sE].
Qed.

(** ** The arrays of a call *)

(** A Java array of [int]s, and one of serialized objects, read as sequences. *)
Definition ints_of (jarray : JIntArray) (xs : seq Z) : Prop :=
  get_int_array_length jarray = inr (size xs) /\ get_int_array_region jarray (size xs) = inr xs.
Definition objects_of {T : Type} (U : Uncompressed E T) (jarray : JObjectArray) (xs : seq T) : Prop :=
  forall i, i < size xs -> exists2 o, get_object_array_element jarray i = inr o &
    forall x0, reads o (nth x0 xs i).

(** [m] is the map of the parties [keys] to the [values] at the same index: of several
    values for a party it holds the last one. *)
Definition keyed_by {V : Type} (keys : seq Z) (values : seq V) (m : seq (nat * V)) : Prop :=
  uniq (map fst m) /\ forall k, HinTS.hashmap_get m k =
    ohead [seq kv.2 | kv <- rev (zip (map as_usize keys) values) & kv.1 == k].

Lemma hashmap_get_insert V (m : seq (nat * V)) k v k' :
  HinTS.hashmap_get (hashmap_insert m k v) k' = if k == k' then Some v else HinTS.hashmap_get m k'.
Proof.
rewrite /HinTS.hashmap_get /hashmap_insert /=; case: eqP => [->|/eqP ne] //=.
rewrite -filter_predI; congr (omap _ (ohead _)); apply: eq_filter => kv /=.
by case: eqP => //= ->; rewrite eq_sym.
Qed.

Lemma hashmap_insert_uniq V (m : seq (nat * V)) k v :
  uniq (map fst m) -> uniq (map fst (hashmap_insert m k v)).
Proof.
have -> : map fst (hashmap_insert m k v) = k :: [seq x <- map fst m | x != k] by rewrite filter_map.
by move=> u; rewrite cons_uniq mem_filter eqxx filter_uniq.
Qed.

Lemma insert_all_keyed V (keys : seq Z) (values : seq V) : keyed_by keys values
  (foldl (fun m kv => hashmap_insert m kv.1 kv.2) [::] (zip (map as_usize keys) values)).
Proof.
rewrite /keyed_by; elim/last_ind: (zip _ _) => [|l kv [u IH]]; first by split.
rewrite foldl_rcons; split=> [|k]; first exact: hashmap_insert_uniq.
by rewrite hashmap_get_insert rev_rcons IH /=; case: eqP.
Qed.

Lemma fold_keyed X V (keys : seq Z) (values : seq V) sigs : size keys = size values ->
  foldM (fun m i =>
      let* key := vec_get keys i in
      let* value := vec_get values i in
      @Ok X _ (hashmap_insert m (as_usize key) value)) [::] (iota 0 (size keys)) = Ok sigs ->
  keyed_by keys values sigs.
Proof.
case: values => [|v0 vs] sz; first by case: keys sz => //= _ [<-].
set values := v0 :: vs in sz *; pose f m i := hashmap_insert m (as_usize (nth 0%Z keys i)) (nth v0 values i).
have [|m i _|-> _ [<-]] := @foldM_pure X _ _ (fun m i =>
  let* key := vec_get keys i in let* value := vec_get values i in
  Ok (hashmap_insert m (as_usize key) value)) f (fun _ => True) [::] (iota 0 (size keys)).
- by [].
- by rewrite mem_iota => lt; rewrite (vec_get_lt _ 0%Z) // (vec_get_lt _ v0) -?sz.
have := insert_all_keyed keys values.
have -> : zip (map as_usize keys) values =
    [seq (as_usize (nth 0%Z keys i), nth v0 values i) | i <- iota 0 (size keys)].
  rewrite -[in LHS](mkseq_nth 0%Z keys) -[in LHS](mkseq_nth v0 values) /mkseq -sz -map_comp.
  by elim: (iota 0 _) => //= i l ->.
by congr keyed_by; elim: (iota _ _) [::] => //= i l IH m.
Qed.

Lemma read_objects_Ok T (U : Uncompressed E T) a (xs : seq T) (st : @Caches _ _ CC AC) :
  objects_of U a xs -> ((read_objects a (size xs) : jni (seq T)) st).1 = Ok xs.
Proof.
move=> H; apply/jtry_Ok; case: xs H => // x0 xs; set ys := x0 :: xs => H.
rewrite (@mapM_ok _ _ _ _ (nth x0 ys)) ?map_nth_iota0 ?take_size // => i; rewrite mem_iota => lt.
have [o -> rd] := H i lt; rewrite [bind _ _]/=.
by rewrite (reads_deserialize (rd x0)).
Qed.

Lemma read_objects_inv T (U : Uncompressed E T) a n (xs : seq T) (st : @Caches _ _ CC AC) :
  ((read_objects a n : jni (seq T)) st).1 = Ok xs -> size xs = n /\ objects_of U a xs.
Proof.
move/jtry_Ok => H; have sz := size_mapM H; rewrite size_iota in sz; split=> // i lt.
have read x0 : exists2 o, get_object_array_element a i = inr o & reads o (nth x0 xs i).
  have := nth_mapM 0 x0 H (i := i); rewrite size_iota nth_iota -?sz // => /(_ lt).
  case: get_object_array_element => [e|o] //= H'; have {H'} := map_err_Ok_inv _ _ _ H'.
  rewrite /deserialize_jbyte_array.
  case cE: convert_byte_array => [e|b] //=; case dE: deser_uncompressed => [e|x] //= [<-].
  by exists o => //; exists b.
have [x0] : exists x0 : T, True by case: xs lt {H sz read} => // x0; exists x0.
move=> _; have [o oE _] := read x0; exists o => // x1.
by have [o'] := read x1; rewrite oE => -[<-].
Qed.

Lemma aggregate_returns st c a v p s crs ak vk keys objs sigs pi b arr : caches_ok st ->
  reads c crs -> reads a ak -> reads v vk ->
  get_int_array_length p = inr (size objs) -> get_int_array_region p (size objs) = inr keys ->
  objects_of codec_partial s objs ->
  foldM (fun m i =>
      let* key := vec_get keys i in
      let* signature := vec_get objs i in
      @Ok unit _ (hashmap_insert m (as_usize key) signature)) [::] (iota 0 (size objs)) = Ok sigs ->
  HinTS.aggregate crs ak vk sigs = Ok pi ->
  ser_uncompressed pi = inr b -> u8_vec_to_jbyte_array b = Some arr ->
  (entry None (aggregateSignaturesImpl c a v p s) st).1 = Some arr.
Proof.
move=> ok rc ra rv nE kE oE mE agg sE aE; apply/entry_some; rewrite /aggregateSignaturesImpl.
apply/jbind_Ok; exists crs; first exact: crs_get_reads.
have [_ _ ok1] := wb_crs c ok.
apply/jbind_Ok; exists ak; first exact: ak_get_reads.
apply/jbind_Ok; exists vk; first exact/de_Ok.
apply/jbind_Ok; exists (size objs); first by apply/jtry_Ok; rewrite nE.
apply/jbind_Ok; exists keys; first by apply/jtry_Ok; rewrite kE.
apply/jbind_Ok; exists objs; first exact: read_objects_Ok.
apply/jbind_Ok; exists sigs; first exact/jtry_Ok.
apply/jbind_Ok; exists pi; first exact/jtry_Ok.
by apply/jtry_Ok; rewrite /serialize_object /serialize sE /= aE.
Qed.

(** ** Properties *)


(** C25: signatures cross the boundary unchanged.  When [aggregateSignatures] returns
    an array, its inputs decode to a reference string, an aggregation key, a
    verification key, parties and as many partial signatures, the i-th read from the
    i-th array; [HinTS::aggregate] accepts the map that takes each party to its
    signature, the last one of a party listed more than once; and [verifyAggregate] on
    the returned array answers [true] exactly when [HinTS::verify] accepts that
    aggregate for the message and the threshold, in whatever state the caches are. *)
Theorem jni_aggregate_verify {CLaws : HintsCodecLaws C} st c a v p s arr : caches_ok st ->
  (entry None (aggregateSignaturesImpl c a v p s) st).1 = Some arr ->
  exists crs ak vk keys objs sigs pi,
  [/\ [/\ reads c crs, reads a ak & reads v vk],
      [/\ ints_of p keys, size objs = size keys & objects_of codec_partial s objs],
      keyed_by keys objs sigs,
      HinTS.aggregate crs ak vk sigs = Ok pi &
      forall m msg num den (st' : @Caches _ _ CC AC), convert_byte_array m = inr msg ->
        (entry false (verifyAggregateImpl arr m v num den) st').1 = true <->
        HinTS.verify msg vk pi (weight_from num, weight_from den) = Ok true].
Proof.
move=> ok /entry_some; rewrite /aggregateSignaturesImpl.
case/jbind_Ok=> crs /(crs_get_Ok ok) rc /jbind_Ok [ak].
have [_ _ ok1] := wb_crs c ok; move/(ak_get_Ok ok1) => ra /jbind_Ok [vk /de_Ok rv].
case/jbind_Ok=> n /jtry_Ok nE /jbind_Ok [keys /jtry_Ok kE /jbind_Ok [objs]].
move/read_objects_inv=> [so oo] /jbind_Ok [sigs /jtry_Ok sE].
case/jbind_Ok=> pi /jtry_Ok agg H; have rpi : reads arr pi by apply: put_reads H.
have [{}nE [{}kE sk]] : get_int_array_length p = inr n /\
    get_int_array_region p n = inr keys /\ size keys = n.
  move: nE kE; case: get_int_array_length => [e|n'] //= [<-].
  by case rE: get_int_array_region => [e|ks] //= [<-]; split=> //; split=> //; exact: int_region_size rE.
exists crs, ak, vk, keys, objs, sigs, pi; split=> //.
- by rewrite so -sk; split=> //; rewrite /ints_of sk.
- by rewrite -sk in sE so; exact: fold_keyed sE.
move=> m msg num den st' cm; rewrite verify_aggregateP.
split=> [[pi' [msg' [vk' [rpi' cm' rv' ver]]]]|ver]; last by exists pi, msg, vk.
rewrite (reads_fun rpi' rpi) (reads_fun rv' rv) in ver.
by move: cm'; rewrite cm => -[->].
Qed.
End Stateless.
