(* ===== verification/JniToy.v ===== *)
(** * The hinTS entry points, evaluated

    In the environment of [ToyJni] every object is pickled into a number, its
    code being that many zero bytes.  The committee of [Completeness] aggregates and
    verifies through the entry points, over a cache that keeps nothing and over the
    caches of [LruCache]. *)
From Stdlib Require Import Strings.Byte Strings.String ZArith.
From S2P Require Import LruCache.
From S2P Require Import Prelude Errors Engine SeqFacts Utils Kzg Transcript Setup Hints.
From S2P Require Import ToyEngine Ceremony HintSound Keys Completeness Safety.
From S2P Require Import CacheInterface Jni ToyJni JniHints JniHintsFacts.
From mathcomp Require Import ssreflect ssrfun ssrbool eqtype ssrnat seq choice.
From mathcomp Require Import fintype bigop ssralg zmodp.
Import GRing.Theory.
Set Warnings "-rewrite-rw".
Set Implicit Arguments.
Unset Strict Implicit.
Unset Printing Implicit Defensive.

(** ** Codes *)

Definition enc1 (x : toy_F) : seq nat := [:: val x].
Definition dec1 (s : seq nat) : toy_F := ((head 0 s)%:R)%R.
Definition encs (xs : seq toy_F) : seq nat := map val xs.
Definition decs (s : seq nat) : seq toy_F := map (fun n => n%:R%R) s.

Lemma enc1K : cancel enc1 dec1.
Proof. by move=> x; rewrite /dec1 /= natr_Zp. Qed.
Lemma encsK : cancel encs decs.
Proof. by move=> xs; rewrite /decs /encs -map_comp map_id_in // => x _ /=; rewrite natr_Zp. Qed.

Section Pickled.
Context {T : Type} (to : T -> seq (seq nat)) (from : seq (seq nat) -> T).
Hypothesis toK : cancel to from.

Definition pickled_uncompressed : Uncompressed toy T :=
  @Build_Uncompressed toy T (fun x => inr (nseq (pickle (to x)) x00))
    (fun b => if @unpickle (seq (seq nat)) (size b) is Some c then inr (from c) else inl tt).

Lemma pickled_uncompressed_laws : UncompressedLaws pickled_uncompressed.
Proof.
by split=> x b [<-]; rewrite /deser_uncompressed /pickled_uncompressed size_nseq pickleK toK.
Qed.
End Pickled.

Abbreviation fld s i := (nth [::] s i).

Definition crs_code (c : @UniversalParams toy) := [:: encs (powers_of_g c); encs (powers_of_h c)].
Definition code_crs s : @UniversalParams toy := @MkParams toy (decs (fld s 0)) (decs (fld s 1)).
Lemma crs_codeK : cancel crs_code code_crs.
Proof. by case=> g h; rewrite /code_crs /crs_code /= !encsK. Qed.

Definition proof_code (p : @ContributionProof toy) := [:: enc1 (p1_mul_z p); enc1 (z_plus_hr p)].
Definition code_proof s : @ContributionProof toy :=
  @MkContributionProof toy (dec1 (fld s 0)) (dec1 (fld s 1)).

Definition pop_code (p : @ProofOfPossesion toy) :=
  [:: enc1 (commitment p); enc1 (challenge p); enc1 (response p)].
Definition code_pop s : @ProofOfPossesion toy :=
  @MkProofOfPossesion toy (dec1 (fld s 0)) (dec1 (fld s 1)) (dec1 (fld s 2)).

Definition sk_code (k : @SecretKey toy) := enc1 (secret k) :: pop_code (pop k).
Definition code_sk s : @SecretKey toy := @MkSecretKey toy (dec1 (fld s 0)) (code_pop (behead s)).

Definition hint_code (h : @ExtendedPublicKey toy) :=
  [:: [:: epk_i h]; [:: epk_n h]; enc1 (pk_i h); enc1 (sk_i_l_i_of_tau_com_1 h);
      enc1 (sk_i_l_i_of_tau_com_2 h); encs (qz_i_terms h); enc1 (qx_i_term h);
      enc1 (qx_i_term_mul_tau h)] ++ pop_code (pok_i h).
Definition code_hint s : @ExtendedPublicKey toy :=
  @MkExtendedPublicKey toy (head 0 (fld s 0)) (head 0 (fld s 1)) (dec1 (fld s 2))
    (code_pop (drop 8 s)) (dec1 (fld s 3)) (dec1 (fld s 4)) (decs (fld s 5)) (dec1 (fld s 6))
    (dec1 (fld s 7)).
Lemma hint_codeK : cancel hint_code code_hint.
Proof.
case=> i n pk [a b c] x y qz q q'; rewrite /code_hint /hint_code /= /code_pop /= /pop_code /=.
by rewrite !enc1K encsK.
Qed.

Definition ak_code (k : @AggregationKey toy) :=
  [:: [:: ak_n k]; encs (weights k); encs (pks k); encs (qz_terms k); encs (qx_terms k);
      encs (qx_mul_tau_terms k)].
Definition code_ak s : @AggregationKey toy :=
  @MkAggregationKey toy (head 0 (fld s 0)) (decs (fld s 1)) (decs (fld s 2)) (decs (fld s 3))
    (decs (fld s 4)) (decs (fld s 5)).
Lemma ak_codeK : cancel ak_code code_ak.
Proof. by case=> n w p qz qx qt; rewrite /code_ak /ak_code /= !encsK. Qed.

Definition vk_code (k : @VerificationKey toy) :=
  [:: [:: vk_n k]; enc1 (total_weight k); enc1 (g_0 k); enc1 (h_0 k); enc1 (h_1 k);
      enc1 (l_n_minus_1_of_tau_com k); enc1 (w_of_tau_com k); enc1 (sk_of_tau_com k);
      enc1 (z_of_tau_com k)].
Definition code_vk s : @VerificationKey toy :=
  @MkVerificationKey toy (head 0 (fld s 0)) (dec1 (fld s 1)) (dec1 (fld s 2)) (dec1 (fld s 3))
    (dec1 (fld s 4)) (dec1 (fld s 5)) (dec1 (fld s 6)) (dec1 (fld s 7)) (dec1 (fld s 8)).
Lemma vk_codeK : cancel vk_code code_vk.
Proof. by case=> *; rewrite /code_vk /vk_code /= !enc1K. Qed.

Definition sig_code (p : @ThresholdSignature toy) :=
  [:: enc1 (agg_pk p); enc1 (agg_weight p); enc1 (agg_sig p); enc1 (b_of_tau_com p);
      enc1 (qx_of_tau_com p); enc1 (qx_of_tau_mul_tau_com p); enc1 (qz_of_tau_com p);
      enc1 (parsum_of_tau_com p); enc1 (q_mrg_of_tau_com p); enc1 (opening_proof_r p);
      enc1 (opening_proof_r_div_omega p); enc1 (parsum_of_r p); enc1 (parsum_of_r_div_omega p);
      enc1 (w_of_r p); enc1 (b_of_r p); enc1 (q_mrg_of_r p)].
Definition code_sig s : @ThresholdSignature toy :=
  let f i := dec1 (fld s i) in
  @MkThresholdSignature toy (f 0) (f 1) (f 2) (f 3) (f 4) (f 5) (f 6) (f 7) (f 8) (f 9) (f 10)
    (f 11) (f 12) (f 13) (f 14) (f 15).
Lemma sig_codeK : cancel sig_code code_sig.
Proof. by case=> *; rewrite /code_sig /sig_code /= !enc1K. Qed.

#[export] Instance toy_hints_codecs : HintsCodecs toy :=
  @Build_HintsCodecs toy (pickled_uncompressed crs_code code_crs)
    (pickled_uncompressed proof_code code_proof) (pickled_uncompressed sk_code code_sk)
    (pickled_uncompressed hint_code code_hint) (pickled_uncompressed ak_code code_ak)
    (pickled_uncompressed vk_code code_vk)
    (pickled_uncompressed (fun x : toy_G => [:: enc1 x]) (fun s => dec1 (fld s 0) : toy_G))
    (pickled_uncompressed sig_code code_sig).

#[export] Instance toy_hints_codec_laws : HintsCodecLaws toy_hints_codecs.
Proof.
split; apply: pickled_uncompressed_laws;
  [exact: crs_codeK|exact: hint_codeK|exact: ak_codeK|exact: vk_codeK|exact: sig_codeK].
Qed.

(** A cache that never keeps anything. *)
#[export] Instance no_cache T (U : Uncompressed toy T) : MapCache unit unit T := {|
  cache_state := unit;
  cache_new := tt;
  cache_get := fun s j => (uncached deser_uncompressed j, s);
  cache_reset := id
|}.

#[export] Instance no_cache_spec T (U : Uncompressed toy T) :
  MapCacheSpec deser_uncompressed (no_cache U) := @Build_MapCacheSpec unit unit T _ (no_cache U)
    (fun _ => True) I (fun _ _ => I) (fun _ _ _ => I) (fun _ _ _ => erefl).

(** ** The committee through the entry points *)

Definition arr {T : Type} {U : Uncompressed toy T} (x : T) : bytes :=
  if ser_uncompressed x is inr b then b else [::].

Lemma arr_reads T (to : T -> seq (seq nat)) from (toK : cancel to from) (x : T) :
  @reads toy toy_jni T (pickled_uncompressed to from) (@arr T (pickled_uncompressed to from) x) x.
Proof.
exists (nseq (pickle (to x)) x00) => //.
by rewrite /deser_uncompressed /pickled_uncompressed size_nseq pickleK toK.
Qed.

Definition java_crs : bytes := arr (toy_crs 5%:R%R 5).
Definition java_ak : bytes := arr toy_ak.
Definition java_vk : bytes := arr toy_vk.
Definition java_parties : seq Z := [:: 0%Z; 1%Z].
Definition java_sigs : seq bytes := [seq @arr _ codec_partial (toy_sig i) | i <- [:: 0; 1]].

Abbreviation java_state := (@fresh toy toy_jni (no_cache codec_crs) (no_cache codec_ak)).

Lemma partial_codeK : cancel (fun x : toy_G => [:: enc1 x]) (fun s => dec1 (fld s 0) : toy_G).
Proof. by move=> x; rewrite /= enc1K. Qed.

Definition java_signature : @ThresholdSignature toy :=
  if HinTS.aggregate (toy_crs 5%:R%R 5) toy_ak toy_vk [:: (1, toy_sig 1); (0, toy_sig 0)]
  is Ok pi then pi else MkThresholdSignature 0 0 0 0 0 0 0 0 0 0 0 0 0 0 0 0.

Lemma java_aggregate : HinTS.aggregate (toy_crs 5%:R%R 5) toy_ak toy_vk
  [:: (1, toy_sig 1); (0, toy_sig 0)] = Ok java_signature.
Proof.
have : is_ok (HinTS.aggregate (toy_crs 5%:R%R 5) toy_ak toy_vk
  [:: (1, toy_sig 1); (0, toy_sig 0)]) by vm_compute.
by rewrite /java_signature; case: HinTS.aggregate.
Qed.

Definition java_call : option bytes :=
  (entry None (@aggregateSignaturesImpl toy toy_hints_codecs toy_jni (no_cache codec_crs)
    (no_cache codec_ak) java_crs java_ak java_vk java_parties java_sigs) java_state).1.

Lemma java_state_ok : caches_ok java_state.
Proof. by split. Qed.

Lemma toy_array (v : bytes) : @u8_vec_to_jbyte_array toy_jni v = Some (map as_u8 (map as_jbyte v)).
Proof. by []. Qed.

Lemma toy_serialized T (to : T -> seq (seq nat)) from (x : T) :
  @ser_uncompressed toy T (pickled_uncompressed to from) x =
  inr (@arr T (pickled_uncompressed to from) x).
Proof. by []. Qed.

Lemma java_callP : exists a, java_call = Some a.
Proof.
eexists.
apply: (@aggregate_returns toy toy_hints_codecs toy_jni _ _ _ _ java_state java_crs java_ak java_vk
  java_parties java_sigs (toy_crs 5%:R%R 5) toy_ak toy_vk java_parties [:: toy_sig 0; toy_sig 1]
  [:: (1, toy_sig 1); (0, toy_sig 0)] java_signature (arr java_signature) _ java_state_ok).
- exact: arr_reads crs_codeK _.
- exact: arr_reads ak_codeK _.
- exact: arr_reads vk_codeK _.
- exact: erefl.
- exact: erefl.
- move=> [|[|i]] // _.
  + exists (@arr _ codec_partial (toy_sig 0)); first exact: erefl.
    by move=> x0; exact: arr_reads partial_codeK (toy_sig 0).
  + exists (@arr _ codec_partial (toy_sig 1)); first exact: erefl.
    by move=> x0; exact: arr_reads partial_codeK (toy_sig 1).
- exact: erefl.
- exact: java_aggregate.
- exact: toy_serialized.
- exact: toy_array.
Qed.

Lemma jni_aggregate_verify_witness :
  exists a crs ak vk keys objs sigs pi,
  [/\ [/\ @reads toy toy_jni _ codec_crs java_crs crs, @reads toy toy_jni _ codec_ak java_ak ak &
          @reads toy toy_jni _ codec_vk java_vk vk],
      [/\ @ints_of toy_jni java_parties keys, size objs = size keys &
          objects_of codec_partial java_sigs objs],
      keyed_by keys objs sigs,
      HinTS.aggregate crs ak vk sigs = Ok pi &
      forall m msg num den (st' : Caches), @convert_byte_array toy_jni m = inr msg ->
        (entry false (@verifyAggregateImpl toy toy_hints_codecs toy_jni (no_cache codec_crs)
           (no_cache codec_ak) a m java_vk num den) st').1 = true <->
        HinTS.verify msg vk pi (weight_from num, weight_from den) = Ok true].
Proof.
have [a aE] := java_callP; exists a.
exact: (@jni_aggregate_verify toy toy_hints_codecs toy_jni toy_jni_laws (no_cache codec_crs)
  (no_cache codec_ak) _ _ toy_hints_codec_laws java_state java_crs java_ak java_vk java_parties
  java_sigs a java_state_ok aE).
Defined.

(** The caches of [jni_hints.rs], with their sizes. *)
Definition crs_lru : MapCache unit unit (@UniversalParams toy) :=
  @LruCache.lru_map_cache unit unit _ 4 (@deser_uncompressed toy _ codec_crs).
Definition ak_lru : MapCache unit unit (@AggregationKey toy) :=
  @LruCache.lru_map_cache unit unit _ 4 (@deser_uncompressed toy _ codec_ak).

