(* ===== verification/JniWraps.v ===== *)
(** * [jni_wraps.rs] and the [jni_util.rs] of WRAPS: the JNI entry points of WRAPS

    Each entry point reads its arguments from Java arrays, calls [struct WRAPS] and
    writes the result back; an error or a caught panic becomes null or [false].  The
    public parameters and the compressed verifying key are write-once statics. *)
From Stdlib Require Import Strings.Byte Strings.String NArith ZArith Lia.
From S2P Require Import Prelude SeqFacts WrapsErrors WrapsEngine WrapsUtils Schnorr Multisig.
From S2P Require Import AddressBook Signing Circuit WrapsProof Jni.
From mathcomp Require Import ssreflect ssrfun ssrbool eqtype ssrnat seq tuple.
From mathcomp Require Import ssralg.
Set Warnings "-rewrite-rw".
Set Implicit Arguments.
Unset Strict Implicit.
Unset Printing Implicit Defensive.

(** [x as u64] on [jlong]: two's complement. *)
Definition as_u64 (x : Z) : N := Z.to_N (x mod 2 ^ 64).

(** The bincode codecs that cross the boundary. *)
Class JniCodecs (E : CurveEngine) (N : Nova E) := {
  codec_message :: Bincode bytes;
  codec_secret : Bincode Scalar;
  codec_attested :: Bincode SchnorrAttestedPubKey;
  codec_multisig :: Bincode SchnorrMultiSignature;
  codec_hash : Bincode Base;
  codec_verifying :: Bincode (@CompressedVerifyingKey E N)
}.

Class JniCodecLaws (E : CurveEngine) (N : Nova E) (JC : JniCodecs N) : Prop := {
  laws_message :: BincodeLaws (@codec_message E N JC);
  laws_secret : BincodeLaws (@codec_secret E N JC);
  laws_attested :: BincodeLaws (@codec_attested E N JC);
  laws_multisig :: BincodeLaws (@codec_multisig E N JC);
  laws_hash : BincodeLaws (@codec_hash E N JC);
  laws_verifying :: BincodeLaws (@codec_verifying E N JC)
}.

(** ** [jni_util.rs] *)
Section Util.
Context {J : JNIEnv}.

(** [serialize_to_jbyte_array] *)
Definition serialize_to_jbyte_array {T : Type} {B : Bincode T} (obj : T) :
    outcome unit jbyteArray :=
  map_err (fun _ => tt) (let* vec := encode obj in Ok (u8_vec_to_jbyte_array vec)).

(** [deserialize_from_jbyte_array] *)
Definition deserialize_from_jbyte_array {T : Type} {B : Bincode T} (java_byte_array : JByteArray) :
    outcome unit T :=
  let* vec := map_err (fun _ => tt) (of_sum (convert_byte_array java_byte_array)) in
  map_err (fun _ => tt) (decode vec).

(** [build_entropy_array] *)
Definition build_entropy_array (random_array : JByteArray) : outcome unit bytes :=
  let* random_vec := map_err (fun _ => tt) (of_sum (convert_byte_array random_array)) in
  if size random_vec == ENTROPY_SIZE then Ok random_vec else Err tt.

(** [build_vector] *)
Definition build_vector {T : Type} {B : Bincode T} (java_array : JObjectArray) :
    outcome unit (seq T) :=
  let* len := map_err (fun _ => tt) (of_sum (get_array_length java_array)) in
  foldM (fun vec i =>
      let* jobj := map_err (fun _ => tt) (of_sum (get_object_array_element java_array i)) in
      fail_if is_null jobj with tt;;
      let* obj := deserialize_from_jbyte_array jobj in
      Ok (rcons vec obj))
    [::] (iota 0 len).

(** [jboolean_array_to_vec] *)
Definition jboolean_array_to_vec (boolean_jarray : JBooleanArray) : outcome unit (seq bool) :=
  let* num := map_err (fun _ => tt) (of_sum (get_boolean_array_length boolean_jarray)) in
  let* jboolean_vec :=
    map_err (fun _ => tt) (of_sum (get_boolean_array_region boolean_jarray num)) in
  foldM (fun vec i =>
      let* b := vec_get jboolean_vec i in
      Ok (rcons vec (~~ Byte.eqb b x00)))
    [::] (iota 0 num).

Context {E : CurveEngine} {B : Bincode SchnorrAttestedPubKey}.

(** [build_address_book]: weights below zero are refused, node ids are reinterpreted. *)
Definition build_address_book (schnorr_public_keys_jarray : JObjectArray)
    (weights_jarray node_ids_jarray : JLongArray) : outcome unit AddressBook :=
  let* num_of_keys := map_err (fun _ => tt) (of_sum (get_array_length schnorr_public_keys_jarray)) in
  let* weights_jlong :=
    map_err (fun _ => tt) (of_sum (get_long_array_region weights_jarray num_of_keys)) in
  let* node_ids_jlong :=
    map_err (fun _ => tt) (of_sum (get_long_array_region node_ids_jarray num_of_keys)) in
  foldM (fun (entries : AddressBook) i =>
      let* w := vec_get weights_jlong i in
      fail_if (w <? 0)%Z with tt;;
      let* jobj := map_err (fun _ => tt)
        (of_sum (get_object_array_element schnorr_public_keys_jarray i)) in
      let* key := deserialize_from_jbyte_array jobj in
      let* id := vec_get node_ids_jlong i in
      Ok (rcons entries ((base_from (as_u64 id), key, as_u64 w) : AddressBookEntry)))
    [::] (iota 0 num_of_keys).

End Util.

(** ** [OnceLock] *)

(** [OnceLock::get_or_init]: a panic of the initializer leaves the cell empty. *)
Definition get_or_init {A : Type} (cell : option A) (f : outcome unit A) :
    outcome unit A * option A :=
  match cell with
  | Some v => (Ok v, cell)
  | None =>
      match f with
      | Ok v => (Ok v, Some v)
      | Err e => (Err e, None)
      | Panic => (Panic, None)
      end
  end.

(** [match r { Ok(val) => Some(val), Err(_) => None }] *)
Definition res_ok {Error A : Type} (r : outcome Error A) : outcome unit (option A) :=
  match r with Ok a => Ok (Some a) | Err _ => Ok None | Panic => Panic end.

(** ** [jni_wraps.rs] *)
Section EntryPoints.
Context {E : CurveEngine} {C : SigningCodecs E} {N : Nova E} {PCo : ProofCodecs N}.
Context {JC : JniCodecs N} {J : JNIEnv}.

(** The two statics. *)
Record Statics : Type := MkStatics {
  PUBLIC_PARAMS : option (option PublicParams);
  COMPRESSED_VERIFYING_KEY : option (option CompressedVerifyingKey)
}.

Definition unloaded : Statics := MkStatics None None.

Abbreviation jni := (Jni.jni Statics).

Definition init_params (f : outcome unit (option PublicParams)) : jni (option PublicParams) :=
  fun st => let '(r, cell) := get_or_init (PUBLIC_PARAMS st) f in
            (r, MkStatics cell (COMPRESSED_VERIFYING_KEY st)).
Definition init_key (f : outcome unit (option CompressedVerifyingKey)) :
    jni (option CompressedVerifyingKey) :=
  fun st => let '(r, cell) := get_or_init (COMPRESSED_VERIFYING_KEY st) f in
            (r, MkStatics (PUBLIC_PARAMS st) cell).

(** [PUBLIC_PARAMS.get()] and [COMPRESSED_VERIFYING_KEY.get()], when loaded. *)
Definition get_params : jni PublicParams := fun st =>
  (if PUBLIC_PARAMS st is Some (Some pp) then Ok pp else Err tt, st).
Definition get_key : jni CompressedVerifyingKey := fun st =>
  (if COMPRESSED_VERIFYING_KEY st is Some (Some vk) then Ok vk else Err tt, st).

(** [env.convert_byte_array], and [if jarray.is_null() { None } else { .. }] *)
Definition raw_bytes (jarray : JByteArray) : jni bytes := jtry (of_sum (convert_byte_array jarray)).
Definition nullable {A : Type} (read : JByteArray -> outcome unit A) (jarray : JByteArray) :
    jni (option A) :=
  if is_null jarray then jret None else jmap Some (jtry (read jarray)).

(** [rngs] and [k] are the randomness that [load_public_params] draws. *)
Definition loadPublicParams (rngs : seq (ChaCha20Rng * ChaCha20Rng)) (k : Scalar)
    (path : JString) : jni bool :=
  if string_is_null path then jret false else
  do? rust_path := jtry (of_sum (get_string path)) in
  do? option_params := init_params (res_ok (load_public_params rngs k rust_path)) in
  jret (isSome option_params).

Definition loadCompressedVerifyingKey (bytes_jarray : JByteArray) : jni bool :=
  do? option_key := init_key (res_ok (deserialize_from_jbyte_array bytes_jarray)) in
  jret (isSome option_key).

Definition generateSchnorrKeysImpl (random_jarray : JByteArray) : jni (option jobject) :=
  do? random_arr := jtry (build_entropy_array random_jarray) in
  let: (private_key, public_key) := wraps_keygen random_arr in
  do? serialized_private_key :=
    jtry (@serialize_to_jbyte_array _ _ codec_secret private_key) in
  do? serialized_public_key := jtry (serialize_to_jbyte_array public_key) in
  do? keys_clz := jtry (of_sum (find_class "com/hedera/cryptography/wraps/SchnorrKeys")) in
  do? keys_obj := jtry (of_sum (new_object keys_clz "([B[B)V"
                     [:: serialized_private_key; serialized_public_key])) in
  jret (Some keys_obj).

Definition provideSentinelPublicKey : jni jbyteArray :=
  jtry (serialize_to_jbyte_array sentinel_keygen).

(** [match phase_ordinal] *)
Definition phase_of (phase_ordinal : Z) : option SigningProtocolPhase :=
  match phase_ordinal with
  | 0%Z => Some R1
  | 1%Z => Some R2
  | 2%Z => Some R3
  | 3%Z => Some Aggregate
  | _ => None
  end.

Definition runSigningProtocolPhaseImpl (phase_ordinal : Z)
    (random_jarray message_jarray schnorr_private_key_jarray : JByteArray)
    (schnorr_public_keys_jarray : JObjectArray) (weights_jarray node_ids_jarray : JLongArray)
    (signers_jarray : JBooleanArray) (round1messages_jarray round2messages_jarray
    round3messages_jarray : JObjectArray) : jni jbyteArray :=
  do? phase := jtry (ok_or tt (phase_of phase_ordinal)) in
  do? random_arr := nullable build_entropy_array random_jarray in
  do? message := raw_bytes message_jarray in
  do? signing_key :=
    nullable (@deserialize_from_jbyte_array _ _ codec_secret) schnorr_private_key_jarray in
  do? ab := jtry (build_address_book schnorr_public_keys_jarray weights_jarray node_ids_jarray) in
  do? signers := jtry (jboolean_array_to_vec signers_jarray) in
  do? round1messages := jtry (build_vector round1messages_jarray) in
  do? round2messages := jtry (build_vector round2messages_jarray) in
  do? round3messages := jtry (build_vector round3messages_jarray) in
  do? obj := jtry (signing_protocol phase random_arr message signing_key ab signers
               round1messages round2messages round3messages) in
  match obj with
  | ProtocolMessage msg_encoded => jtry (serialize_to_jbyte_array msg_encoded)
  | ProtocolOutput signature => jtry (serialize_to_jbyte_array signature)
  end.

Definition verifySignatureImpl (schnorr_public_keys_jarray : JObjectArray)
    (weights_jarray node_ids_jarray : JLongArray) (message_jarray signature_jarray : JByteArray) :
    jni bool :=
  do? ab := jtry (build_address_book schnorr_public_keys_jarray weights_jarray node_ids_jarray) in
  do? message := raw_bytes message_jarray in
  do? signature := jtry (deserialize_from_jbyte_array signature_jarray) in
  jtry (verify_signature ab message signature).

Definition hashAddressBookImpl (schnorr_public_keys_jarray : JObjectArray)
    (weights_jarray node_ids_jarray : JLongArray) : jni jbyteArray :=
  do? ab := jtry (build_address_book schnorr_public_keys_jarray weights_jarray node_ids_jarray) in
  do? hash := jtry (compute_addressbook_hash ab) in
  jtry (@serialize_to_jbyte_array _ _ codec_hash hash).

Definition hashArrayImpl (input_jarray : JByteArray) : jni jbyteArray :=
  if is_null input_jarray then jret None else
  do? input_vec := raw_bytes input_jarray in
  if nilp input_vec then jret None else
  let hash := compute_hints_vk_hash input_vec in
  jtry (@serialize_to_jbyte_array _ _ codec_hash hash).

Definition formatRotationMessageImpl (schnorr_public_keys_jarray : JObjectArray)
    (weights_jarray node_ids_jarray : JLongArray) (tss_vk_jarray : JByteArray) :
    jni jbyteArray :=
  do? ab := jtry (build_address_book schnorr_public_keys_jarray weights_jarray node_ids_jarray) in
  do? tss_vk_vec := raw_bytes tss_vk_jarray in
  do? msg := jtry (compute_rotation_message ab tss_vk_vec) in
  jret (u8_vec_to_jbyte_array msg).

Definition constructWrapsProofImpl (ab_genesis_hash_jarray : JByteArray)
    (prev_schnorr_public_keys_jarray : JObjectArray) (prev_weights_jarray prev_node_ids_jarray :
    JLongArray) (next_schnorr_public_keys_jarray : JObjectArray) (next_weights_jarray
    next_node_ids_jarray : JLongArray) (prev_proof_jarray tss_vk_jarray signature_jarray :
    JByteArray) : jni (option jobject) :=
  do? ab_genesis_hash :=
    jtry (@deserialize_from_jbyte_array _ _ codec_hash ab_genesis_hash_jarray) in
  do? prev_ab := jtry (build_address_book prev_schnorr_public_keys_jarray prev_weights_jarray
                   prev_node_ids_jarray) in
  do? next_ab := jtry (build_address_book next_schnorr_public_keys_jarray next_weights_jarray
                   next_node_ids_jarray) in
  do? prev_proof := nullable (fun a => map_err (fun _ => tt) (of_sum (convert_byte_array a)))
                      prev_proof_jarray in
  do? tss_vk_vec := raw_bytes tss_vk_jarray in
  do? signature := jtry (deserialize_from_jbyte_array signature_jarray) in
  do? public_params := get_params in
  do? (uncompressed_proof, compressed_proof) := jtry (construct_wraps_proof public_params
        ab_genesis_hash prev_ab next_ab prev_proof tss_vk_vec signature) in
  let uncompressed_proof_jarray := u8_vec_to_jbyte_array uncompressed_proof in
  let compressed_proof_jarray := u8_vec_to_jbyte_array compressed_proof in
  do? proof_clz := jtry (of_sum (find_class "com/hedera/cryptography/wraps/Proof")) in
  do? proof_obj := jtry (of_sum (new_object proof_clz "([B[B)V"
                      [:: uncompressed_proof_jarray; compressed_proof_jarray])) in
  jret (Some proof_obj).

Definition verifyCompressedProofImpl (compressed_proof_jarray ledger_id_jarray tss_vk_jarray :
    JByteArray) : jni bool :=
  do? ledger_id_vec := raw_bytes ledger_id_jarray in
  do? tss_vk_vec := raw_bytes tss_vk_jarray in
  do? compressed_proof := raw_bytes compressed_proof_jarray in
  do? compressed_verifying_key := get_key in
  jtry (verify_compressed_wraps_proof compressed_verifying_key compressed_proof ledger_id_vec
          tss_vk_vec).

Definition verifyUncompressedProofImpl (uncompressed_proof_jarray ledger_id_jarray tss_vk_jarray :
    JByteArray) : jni bool :=
  do? ledger_id_vec := raw_bytes ledger_id_jarray in
  do? tss_vk_vec := raw_bytes tss_vk_jarray in
  do? uncompressed_proof := raw_bytes uncompressed_proof_jarray in
  do? public_params := get_params in
  jtry (verify_uncompressed_wraps_proof public_params uncompressed_proof ledger_id_vec
          tss_vk_vec).

End EntryPoints.
