(* ===== verification/JniWrapsFacts.v ===== *)
(** * Theorems on the JNI entry points of WRAPS

    Arguments read from Java, panic freedom, the write-once statics, and what an
    answer of [true] stands for when the calls of a whole session are composed. *)
From Stdlib Require Import Strings.Byte Strings.String NArith ZArith Lia.
From S2P Require Import Prelude SeqFacts WrapsErrors WrapsEngine WrapsUtils Schnorr Multisig.
From S2P Require Import AddressBook Signing SigningFacts Circuit CircuitFacts CircuitSound.
From S2P Require Import CircuitComplete WrapsProof WrapsChain ChainTheorems Jni JniWraps.
From mathcomp Require Import ssreflect ssrfun ssrbool eqtype ssrnat seq tuple.
From mathcomp Require Import ssralg.
Set Warnings "-rewrite-rw".
Set Implicit Arguments.
Unset Strict Implicit.
Unset Printing Implicit Defensive.

(** ** Arguments from Java *)
Section Arguments.
Context {E : CurveEngine} {J : JNIEnv} {JL : JNILaws J}.

Lemma read_no_panic X A (r : X + A) : never_panics (map_err (fun _ => tt) (of_sum r)).
Proof. by case: r. Qed.

Section Objects.
Context {T : Type} {B : Bincode T}.

Lemma from_jbyte_array_no_panic a : never_panics (@deserialize_from_jbyte_array J T B a).
Proof.
apply: bind_no_panic => [|v _]; first exact: read_no_panic.
exact/map_err_no_panic/decode_no_panic.
Qed.

Lemma serialize_no_panic (t : T) : never_panics (@serialize_to_jbyte_array J T B t).
Proof. by apply: map_err_no_panic; apply: bind_no_panic => //; exact: encode_no_panic. Qed.

Lemma deserialize_Ok a (t : T) : deserialize_from_jbyte_array a = Ok t <->
  exists2 b, convert_byte_array a = inr b & decode b = Ok t.
Proof.
rewrite /deserialize_from_jbyte_array; case: convert_byte_array => [e|b] /=.
  by split=> // -[].
split=> [H|[_ [<-] ->] //]; exists b => //; exact: map_err_Ok_inv H.
Qed.

Lemma build_vector_no_panic a : never_panics (@build_vector J T B a).
Proof.
apply: bind_no_panic => [|n _]; first exact: read_no_panic.
apply: foldM_no_panic => v i; apply: bind_no_panic => [|o _]; first exact: read_no_panic.
by case: is_null => //; apply: bind_no_panic => //; apply: from_jbyte_array_no_panic.
Qed.

(** A written object reads back. *)
Lemma serialize_reads {L : BincodeLaws B} (t : T) a :
  serialize_to_jbyte_array t = Ok (Some a) -> deserialize_from_jbyte_array a = Ok t.
Proof.
move=> H0; have := map_err_Ok_inv _ _ _ H0 => H {H0}; inv_ok H; case: H => H.
by apply/deserialize_Ok; exists v; [exact: jbyte_array_read H|exact: encode_inv].
Qed.
End Objects.

Lemma entropy_no_panic a : never_panics (build_entropy_array a).
Proof.
by apply: bind_no_panic => [|v _]; [exact: read_no_panic|case: ifP].
Qed.

Lemma booleans_no_panic a : never_panics (jboolean_array_to_vec a).
Proof.
apply: bind_no_panic => [|n _]; first exact: read_no_panic.
case rE: get_boolean_array_region => [e|v] //=; have sz := @boolean_region_size _ JL _ _ _ rE.
rewrite (@foldM_collect _ _ _ _ (fun i => let* b := vec_get v i in Ok (~~ Byte.eqb b x00))).
  by move=> w i; case: vec_get.
apply: bind_no_panic => //; apply: mapM_no_panic_in => i; rewrite mem_iota => lt.
by rewrite (vec_get_lt _ x00) ?sz.
Qed.

Section Book.
Context {B : Bincode SchnorrAttestedPubKey}.

(** The loop body of [build_address_book] on the arrays it has read. *)
Definition java_entry (keys : JObjectArray) (ws ids : seq Z) (i : nat) :
    outcome unit AddressBookEntry :=
  let* w := vec_get ws i in
  fail_if (w <? 0)%Z with tt;;
  let* jobj := map_err (fun _ => tt) (of_sum (get_object_array_element keys i)) in
  let* key := deserialize_from_jbyte_array jobj in
  let* id := vec_get ids i in
  Ok (base_from (as_u64 id), key, as_u64 w).

Lemma build_address_bookE keys weights ids : build_address_book keys weights ids =
  let* n := map_err (fun _ => tt) (of_sum (get_array_length keys)) in
  let* ws := map_err (fun _ => tt) (of_sum (get_long_array_region weights n)) in
  let* ns := map_err (fun _ => tt) (of_sum (get_long_array_region ids n)) in
  mapM (java_entry keys ws ns) (iota 0 n).
Proof.
rewrite /build_address_book; case: get_array_length => [e|n] //=.
case: get_long_array_region => [e|ws] //=; case: get_long_array_region => [e|ns] //=.
rewrite (@foldM_collect _ _ _ _ (java_entry keys ws ns)); last by case: mapM.
move=> v i; rewrite /java_entry; case: vec_get => [w| |] //=; case: ifP => //= _.
case: get_object_array_element => [e|o] //=; case: deserialize_from_jbyte_array => [k| |] //=.
by case: vec_get.
Qed.

Lemma book_no_panic keys weights ids : never_panics (build_address_book keys weights ids).
Proof.
rewrite build_address_bookE; case: get_array_length => [e|n] //=.
case wE: get_long_array_region => [e|ws] //=; have sw := @long_region_size _ JL _ _ _ wE.
case iE: get_long_array_region => [e|ns] //=; have si := @long_region_size _ JL _ _ _ iE.
apply: mapM_no_panic_in => i; rewrite mem_iota => /andP[_ lt].
rewrite /java_entry (vec_get_lt _ 0%Z) ?sw //=; case: ifP => // _.
apply: bind_no_panic => [|o _]; first exact: read_no_panic.
apply: bind_no_panic => [|k _]; first exact: from_jbyte_array_no_panic.
by rewrite (vec_get_lt _ 0%Z) ?si.
Qed.

(** The contents of a book's three Java arrays. *)
Record java_book keys weights ids (ab : AddressBook) (ws ns : seq Z) : Prop := {
  jb_length : get_array_length keys = inr (size ab);
  jb_weights : get_long_array_region weights (size ab) = inr ws;
  jb_ids : get_long_array_region ids (size ab) = inr ns;
  jb_entries : forall i, i < size ab -> let e := nth padding_entry ab i in
    [/\ (0 <= nth 0 ws i)%Z, weight e = as_u64 (nth 0%Z ws i),
        node_id e = base_from (as_u64 (nth 0%Z ns i)) &
        exists o b, [/\ get_object_array_element keys i = inr o,
                         convert_byte_array o = inr b & decode b = Ok e.1.2]]
}.

Lemma java_entryP keys (ws ns : seq Z) i (e : AddressBookEntry) :
  i < size ws -> i < size ns -> java_entry keys ws ns i = Ok e <->
  [/\ (0 <= nth 0 ws i)%Z, weight e = as_u64 (nth 0%Z ws i),
      node_id e = base_from (as_u64 (nth 0%Z ns i)) &
      exists o b, [/\ get_object_array_element keys i = inr o,
                       convert_byte_array o = inr b & decode b = Ok e.1.2]].
Proof.
move=> lw li; rewrite /java_entry (vec_get_lt _ 0%Z) //=; case: Z.ltb_spec => w0.
  by split=> // -[]; lia.
rewrite (vec_get_lt _ 0%Z) //; split=> [H|[_ wE nE [o [b [oE bE dE]]]]].
  inv_ok H; case: H => <-; case: E2 => <-; split=> //; case/deserialize_Ok: E1 => b bE dE.
  by exists v, b.
rewrite oE /= (_ : deserialize_from_jbyte_array o = Ok e.1.2) /=.
  by apply/deserialize_Ok; exists b.
by rewrite -nE -wE; case: e {dE wE nE} => -[].
Qed.

Lemma build_address_bookP keys weights ids ab :
  build_address_book keys weights ids = Ok ab <-> exists ws ns, java_book keys weights ids ab ws ns.
Proof.
rewrite build_address_bookE; split=> [H|[ws [ns [nE wE iE ent]]]].
  inv_ok H; have sz := size_mapM H; rewrite size_iota in sz; subst v.
  have sw := @long_region_size _ JL _ _ _ E1; have si := @long_region_size _ JL _ _ _ E2.
  exists v0, v1; split=> // i lt; apply/java_entryP; rewrite ?sw ?si //.
  have := nth_mapM 0 padding_entry (i := i) H.
  by rewrite size_iota nth_iota // => ->.
have sw := @long_region_size _ JL _ _ _ wE; have si := @long_region_size _ JL _ _ _ iE.
rewrite nE /= wE /= iE /= (@mapM_ok _ _ _ _ (nth padding_entry ab)).
  by move=> i; rewrite mem_iota => lt; apply/java_entryP; rewrite ?sw ?si //; apply: ent.
by rewrite map_nth_iota0 // take_size.
Qed.
End Book.
End Arguments.

(** ** Calls *)
Section Calls.
Context {E : CurveEngine} {C : SigningCodecs E} {N : Nova E} {PCo : ProofCodecs N}.
Context {JC : JniCodecs N} {J : JNIEnv}.

(** The calls that Java can make; [LoadPublicParams] carries the randomness of the
    dummy circuit, two streams per seat. *)
Inductive call : Type :=
| LoadPublicParams (rngs : MAX_AB_SIZE.-tuple (ChaCha20Rng * ChaCha20Rng)) (k : Scalar)
    (path : JString)
| LoadCompressedVerifyingKey (key : JByteArray)
| GenerateSchnorrKeys (random : JByteArray)
| ProvideSentinelPublicKey
| RunSigningProtocolPhase (ordinal : Z) (random message key : JByteArray) (keys : JObjectArray)
    (weights ids : JLongArray) (signers : JBooleanArray) (m1 m2 m3 : JObjectArray)
| VerifySignature (keys : JObjectArray) (weights ids : JLongArray) (message signature : JByteArray)
| HashAddressBook (keys : JObjectArray) (weights ids : JLongArray)
| HashArray (input : JByteArray)
| FormatRotationMessage (keys : JObjectArray) (weights ids : JLongArray) (vk : JByteArray)
| ConstructWrapsProof (genesis : JByteArray) (keys : JObjectArray) (weights ids : JLongArray)
    (keys' : JObjectArray) (weights' ids' : JLongArray) (proof vk signature : JByteArray)
| VerifyCompressedProof (proof ledger_id vk : JByteArray)
| VerifyUncompressedProof (proof ledger_id vk : JByteArray).

Inductive answer : Type :=
| AArray (a : jbyteArray)
| ABool (b : bool)
| AObject (o : option jobject).

Abbreviation jni := (Jni.jni (@Statics E N)).

Definition run (c : call) : jni answer :=
  match c with
  | LoadPublicParams rngs k p => jmap ABool (loadPublicParams rngs k p)
  | LoadCompressedVerifyingKey a => jmap ABool (loadCompressedVerifyingKey a)
  | GenerateSchnorrKeys r => jmap AObject (generateSchnorrKeysImpl r)
  | ProvideSentinelPublicKey => jmap AArray provideSentinelPublicKey
  | RunSigningProtocolPhase o r m k ks ws ids s m1 m2 m3 =>
      jmap AArray (runSigningProtocolPhaseImpl o r m k ks ws ids s m1 m2 m3)
  | VerifySignature ks ws ids m s => jmap ABool (verifySignatureImpl ks ws ids m s)
  | HashAddressBook ks ws ids => jmap AArray (hashAddressBookImpl ks ws ids)
  | HashArray a => jmap AArray (hashArrayImpl a)
  | FormatRotationMessage ks ws ids vk => jmap AArray (formatRotationMessageImpl ks ws ids vk)
  | ConstructWrapsProof g ks ws ids ks' ws' ids' p vk s =>
      jmap AObject (constructWrapsProofImpl g ks ws ids ks' ws' ids' p vk s)
  | VerifyCompressedProof p l vk => jmap ABool (verifyCompressedProofImpl p l vk)
  | VerifyUncompressedProof p l vk => jmap ABool (verifyUncompressedProofImpl p l vk)
  end.

(** What an entry point answers on error. *)
Definition failed (c : call) : answer :=
  match c with
  | RunSigningProtocolPhase _ _ _ _ _ _ _ _ _ _ _ | ProvideSentinelPublicKey
  | HashAddressBook _ _ _ | HashArray _ | FormatRotationMessage _ _ _ _ => AArray None
  | GenerateSchnorrKeys _ | ConstructWrapsProof _ _ _ _ _ _ _ _ _ _ => AObject None
  | _ => ABool false
  end.

(** A call, as Java sees it, and a sequence of calls: the answers and the last state. *)
Definition answer_of (c : call) (st : Statics) : answer * Statics := entry (failed c) (run c) st.
Fixpoint session_of (cs : seq call) (st : Statics) : seq answer * Statics :=
  if cs is c :: cs' then
    let '(a, st) := answer_of c st in
    let '(as', st) := session_of cs' st in (a :: as', st)
  else ([::], st).

End Calls.

(** ** Bodies that read the statics only and do not panic *)
Section Quiet.
Context {E : CurveEngine} {L : CurveLaws E} {C : SigningCodecs E} {CL : SigningCodecLaws C}.
Context {N : Nova E} {PCo : ProofCodecs N} {PCL : ProofCodecLaws PCo} {JC : JniCodecs N}.
Context {J : JNIEnv} {JL : JNILaws J} (I : @Statics E N -> Prop).

Lemma quiet_sum X A (r : X + A) : safe I (jtry (of_sum r)).
Proof. by apply: safe_try; case: r. Qed.

Lemma quiet_raw a : safe I (raw_bytes a).
Proof. exact: quiet_sum. Qed.

Lemma quiet_map A B (f : A -> B) (m : Jni.jni Statics A) : safe I m -> safe I (jmap f m).
Proof. by move=> sm; apply: safe_bind => // *; apply: safe_ret. Qed.

Lemma quiet_nullable A (f : JByteArray -> outcome unit A) a :
  never_panics (f a) -> safe I (nullable f a).
Proof.
by move=> np; rewrite /nullable; case: ifP => _; [apply: safe_ret|apply/quiet_map/safe_try].
Qed.

Lemma quiet_params : safe I get_params.
Proof. by move=> st ok; split=> //=; case: PUBLIC_PARAMS => [[]|]. Qed.

Lemma quiet_key : safe I get_key.
Proof. by move=> st ok; split=> //=; case: COMPRESSED_VERIFYING_KEY => [[]|]. Qed.

Lemma quiet_hash ab : safe I (jtry (compute_addressbook_hash ab)).
Proof.
by apply: safe_try; rewrite compute_addressbook_hashE; case: verify_address_book.
Qed.
End Quiet.

Ltac quiet_body := repeat
  match goal with
  | |- safe _ (jret _) => apply: safe_ret
  | |- safe _ (jtry (of_sum _)) => apply: quiet_sum
  | |- safe _ (raw_bytes _) => apply: quiet_raw
  | |- safe _ get_params => apply: quiet_params
  | |- safe _ get_key => apply: quiet_key
  | |- safe _ (jtry (compute_addressbook_hash _)) => apply: quiet_hash
  | |- safe _ (jmap _ _) => apply: quiet_map
  | |- safe _ (nullable _ _) => apply: quiet_nullable
  | |- safe _ (jbind _ _) => apply: safe_bind => [|? ? _]
  | |- safe _ (jtry _) => apply: safe_try
  | |- safe _ (if _ then _ else _) => case: ifP => _
  | |- safe _ (match ?x with _ => _ end) => destruct x
  | |- never_panics (build_address_book _ _ _) => exact: book_no_panic
  | |- never_panics (build_vector _) => exact: build_vector_no_panic
  | |- never_panics (jboolean_array_to_vec _) => exact: booleans_no_panic
  | |- never_panics (build_entropy_array _) => exact: entropy_no_panic
  | |- never_panics (deserialize_from_jbyte_array _) => exact: from_jbyte_array_no_panic
  | |- never_panics (serialize_to_jbyte_array _) => exact: serialize_no_panic
  | |- never_panics (map_err _ (of_sum _)) => exact: read_no_panic
  | |- never_panics (signing_protocol _ _ _ _ _ _ _ _ _) => exact: signing_protocol_no_panic
  | |- never_panics (verify_signature _ _ _) => exact: verify_signature_no_panic
  | |- never_panics (compute_rotation_message _ _) => exact: compute_rotation_no_panic
  | |- never_panics (construct_wraps_proof _ _ _ _ _ _ _) => exact: construct_no_panic
  | |- never_panics (verify_uncompressed_wraps_proof _ _ _ _) => exact: uncompressed_no_panic
  | |- never_panics (verify_compressed_wraps_proof _ _ _ _) => exact: compressed_no_panic
  | |- never_panics (ok_or _ _) => exact: ok_or_no_panic
  end.

(** Every call but the two loaders. *)
Definition loads {E : CurveEngine} {J : JNIEnv} (c : call) : bool :=
  match c with LoadPublicParams _ _ _ | LoadCompressedVerifyingKey _ => true | _ => false end.

Section Statics.
Context {E : CurveEngine} {L : CurveLaws E} {C : SigningCodecs E} {CL : SigningCodecLaws C}.
Context {N : Nova E} {PCo : ProofCodecs N} {PCL : ProofCodecLaws PCo} {JC : JniCodecs N}.
Context {J : JNIEnv} {JL : JNILaws J}.
Implicit Types (c : call) (st : @Statics E N).

Lemma run_quiet (I : @Statics E N -> Prop) c : ~~ loads c -> safe I (run c).
Proof.
case: c => // *; rewrite /run.
- rewrite /generateSchnorrKeysImpl; quiet_body.
- rewrite /provideSentinelPublicKey; quiet_body.
- rewrite /runSigningProtocolPhaseImpl; quiet_body.
- rewrite /verifySignatureImpl; quiet_body.
- rewrite /hashAddressBookImpl; quiet_body.
- rewrite /hashArrayImpl; quiet_body.
- rewrite /formatRotationMessageImpl; quiet_body.
- rewrite /constructWrapsProofImpl; quiet_body.
- rewrite /verifyCompressedProofImpl; quiet_body.
- rewrite /verifyUncompressedProofImpl; quiet_body.
Qed.

(** What the loaders write: a result of [load_public_params], a decoded key. *)
Definition writes (I : @Statics E N -> Prop) c : Prop :=
  match c with
  | LoadPublicParams rngs k path => forall st dir v, I st -> PUBLIC_PARAMS st = None ->
      res_ok (load_public_params rngs k dir) = Ok v ->
      I (MkStatics (Some v) (COMPRESSED_VERIFYING_KEY st))
  | LoadCompressedVerifyingKey a => forall st v, I st -> COMPRESSED_VERIFYING_KEY st = None ->
      res_ok (deserialize_from_jbyte_array a) = Ok v -> I (MkStatics (PUBLIC_PARAMS st) (Some v))
  | _ => True
  end.

Lemma res_ok_no_panic X A (r : outcome X A) : never_panics r -> never_panics (res_ok r).
Proof. by case: r. Qed.

Lemma safe_init_params (I : @Statics E N -> Prop) f : never_panics f ->
  (forall st v, I st -> PUBLIC_PARAMS st = None -> f = Ok v ->
     I (MkStatics (Some v) (COMPRESSED_VERIFYING_KEY st))) -> safe I (init_params f).
Proof.
move=> np H [[v|] key] ok; rewrite /init_params /=; first by [].
by case fE: f np => [v|e|] // _; split=> //; apply: H ok _ fE.
Qed.

Lemma safe_init_key (I : @Statics E N -> Prop) f : never_panics f ->
  (forall st v, I st -> COMPRESSED_VERIFYING_KEY st = None -> f = Ok v ->
     I (MkStatics (PUBLIC_PARAMS st) (Some v))) -> safe I (init_key f).
Proof.
move=> np H [pp [v|]] ok; rewrite /init_key /=; first by [].
by case fE: f np => [v|e|] // _; split=> //; apply: H ok _ fE.
Qed.

Lemma run_safe (I : @Statics E N -> Prop) c : writes I c -> safe I (run c).
Proof.
case: (boolP (loads c)) => [|q _]; last exact: run_quiet.
case: c => // [rngs k path|a] _ w; apply: quiet_map.
- rewrite /loadPublicParams; case: ifP => _; first exact: safe_ret.
  apply: safe_bind => [|_ dir _]; first exact: quiet_sum.
  apply: safe_bind => [|*]; last exact: safe_ret.
  by apply: safe_init_params => [|st v]; [apply/res_ok_no_panic/load_no_panic; rewrite size_tuple|exact: w].
- apply: safe_bind => [|*]; last exact: safe_ret.
  by apply: safe_init_key => [|st v]; [apply/res_ok_no_panic/from_jbyte_array_no_panic|exact: w].
Qed.

Lemma answer_of_state c st : (answer_of c st).2 = (run c st).2.
Proof. by rewrite /answer_of /entry; case: (run c st). Qed.

Lemma session_cons c cs st :
  (session_of (c :: cs) st).2 = (session_of cs (answer_of c st).2).2.
Proof. by rewrite /=; case: answer_of => a st' /=; case: session_of. Qed.

(** An invariant of every call is one of sessions. *)
Lemma session_inv (I : @Statics E N -> Prop) (cs : seq call) st :
  (forall c, List.In c cs -> writes I c) -> I st -> I (session_of cs st).2.
Proof.
elim: cs st => [|c cs IH] st w ok //.
have w1 : writes I c by apply: w; left.
have ok' : I (answer_of c st).2 by rewrite answer_of_state; have [] := run_safe w1 ok.
by rewrite session_cons; apply: IH => // c' h; apply: w; right.
Qed.

(** ** Write-once statics *)

(** What is initialised in [st] is the same in [st']. *)
Definition extends st st' : Prop :=
  (forall v, PUBLIC_PARAMS st = Some v -> PUBLIC_PARAMS st' = Some v) /\
  (forall v, COMPRESSED_VERIFYING_KEY st = Some v -> COMPRESSED_VERIFYING_KEY st' = Some v).

Definition settled st : bool := isSome (PUBLIC_PARAMS st) && isSome (COMPRESSED_VERIFYING_KEY st).

Lemma writes_extends st c : writes (extends st) c.
Proof.
case: c => // [rngs k _ st' dir v [ep ek] pN _|a st' v [ep ek] kN _]; split=> v' e //=.
- by move: (ep v' e); rewrite pN.
- exact: ek.
- exact: ep.
- by move: (ek v' e); rewrite kN.
Qed.

Lemma session_extends cs st : extends st (session_of cs st).2.
Proof. by apply: session_inv => [c _|]; [exact: writes_extends|split]. Qed.

Lemma session_keeps cs st v : PUBLIC_PARAMS st = Some v ->
  PUBLIC_PARAMS (session_of cs st).2 = Some v.
Proof. by case: (session_extends cs st) => H _ /H. Qed.

Lemma settled_extends st st' : settled st -> extends st st' -> st' = st.
Proof.
case: st st' => [[p|] [k|]] // [p' k'] _ [ep ek].
by have /= -> := ep p erefl; have /= -> := ek k erefl.
Qed.

Lemma settled_answer c st : settled st -> (answer_of c st).2 = st.
Proof.
move=> ss; apply: settled_extends ss _; rewrite answer_of_state.
by have [] := run_safe (writes_extends st c) (conj (fun _ e => e) (fun _ e => e)).
Qed.

Lemma settled_session cs st : settled st ->
  session_of cs st = ([seq (answer_of c st).1 | c <- cs], st).
Proof.
move=> ss; elim: cs => //= c cs IH; have := settled_answer c ss.
by case aE: answer_of => [a st'] /= ->; rewrite IH.
Qed.
End Statics.

(** ** Answers of [true] *)
Section Answers.
Context {E : CurveEngine} {C : SigningCodecs E} {N : Nova E} {PCo : ProofCodecs N}.
Context {JC : JniCodecs N} {J : JNIEnv}.
Implicit Types (c : call) (st : @Statics E N).

Lemma jmap_entry A (f : A -> answer) (d : A) (m : Jni.jni (@Statics E N) A) st :
  (entry (f d) (jmap f m) st).1 = f (entry d m st).1.
Proof. by rewrite /entry /jmap /jbind; case: (m st) => [[b|e|] st']. Qed.

Lemma raw_bytes_Ok a b st : (raw_bytes a st).1 = Ok b <-> convert_byte_array a = inr b.
Proof.
by rewrite /raw_bytes jtry_Ok; case: convert_byte_array => [e|v] /=; split=> // -[->].
Qed.

Lemma verify_uncompressed_answer p l v st :
  (answer_of (VerifyUncompressedProof p l v) st).1 = ABool true ->
  exists lid vk proof pp,
  [/\ convert_byte_array l = inr lid, convert_byte_array v = inr vk,
      PUBLIC_PARAMS st = Some (Some pp) &
      verify_uncompressed_wraps_proof pp proof lid vk = Ok true].
Proof.
rewrite /answer_of [run _]/= jmap_entry => -[] /entry_true.
rewrite /verifyUncompressedProofImpl; case/jbind_Ok=> lid /raw_bytes_Ok lE /jbind_Ok [vk /raw_bytes_Ok vE] /jbind_Ok [proof _] /jbind_Ok [pp].
rewrite /get_params /=; case pE: PUBLIC_PARAMS => [[q|]|] //= -[<-] /(map_err_Ok_inv _ _ _) ok.
by exists lid, vk, proof, q.
Qed.

Lemma verify_compressed_answer p l v st :
  (answer_of (VerifyCompressedProof p l v) st).1 = ABool true ->
  exists lid vk proof vkc,
  [/\ convert_byte_array l = inr lid, convert_byte_array v = inr vk,
      COMPRESSED_VERIFYING_KEY st = Some (Some vkc) &
      verify_compressed_wraps_proof vkc proof lid vk = Ok true].
Proof.
rewrite /answer_of [run _]/= jmap_entry => -[] /entry_true.
rewrite /verifyCompressedProofImpl; case/jbind_Ok=> lid /raw_bytes_Ok lE /jbind_Ok [vk /raw_bytes_Ok vE] /jbind_Ok [proof _] /jbind_Ok [vkc].
rewrite /get_key /=; case kE: COMPRESSED_VERIFYING_KEY => [[q|]|] //= -[<-] /(map_err_Ok_inv _ _ _) ok.
by exists lid, vk, proof, q.
Qed.

Lemma verify_signature_answer ks ws ids m s st ab msg ms :
  build_address_book ks ws ids = Ok ab -> convert_byte_array m = inr msg ->
  deserialize_from_jbyte_array s = Ok ms -> forall b, verify_signature ab msg ms = Ok b ->
  (answer_of (VerifySignature ks ws ids m s) st).1 = ABool b.
Proof.
move=> bE mE sE b vE; rewrite /answer_of /= jmap_entry; congr ABool.
by rewrite /entry /verifySignatureImpl /raw_bytes /jbind /jtry bE /= mE /= sE /= vE.
Qed.

(** Keys derived from loaded parameters. *)
Definition derived_key (vkc : CompressedVerifyingKey) : Prop :=
  exists rngs k dir pp, load_public_params rngs k dir = Ok pp /\
    setup_compressed_verifier pp = Ok vkc.

(** The keys that a session loads are derived ones. *)
Definition trusted_loads (cs : seq call) : Prop := forall a vkc,
  List.In (LoadCompressedVerifyingKey a) cs -> deserialize_from_jbyte_array a = Ok vkc ->
  derived_key vkc.

(** The statics hold loaded parameters and derived keys. *)
Definition genuine st : Prop :=
  (forall pp, PUBLIC_PARAMS st = Some (Some pp) ->
     exists rngs k dir, load_public_params rngs k dir = Ok pp) /\
  (forall vkc, COMPRESSED_VERIFYING_KEY st = Some (Some vkc) -> derived_key vkc).

Lemma res_ok_some X A (r : outcome X A) a : res_ok r = Ok (Some a) -> r = Ok a.
Proof. by case: r => //= x [->]. Qed.

Lemma writes_genuine cs c : trusted_loads cs -> List.In c cs -> writes genuine c.
Proof.
move=> tl; case: c => // [rngs k path|a] i.
- move=> st dir [pp|] [gp gk] _ H; split=> //= pp' [<-].
  by exists rngs, k, dir; apply: res_ok_some H.
- move=> st [vkc|] [gp gk] _ H; split=> //= vkc' [<-].
  exact: tl i (res_ok_some H).
Qed.
End Answers.

(** ** Properties *)
Section Properties.
Context {E : CurveEngine} {L : CurveLaws E} {C : SigningCodecs E} {CL : SigningCodecLaws C}.
Context {N : Nova E} {PCo : ProofCodecs N} {PCL : ProofCodecLaws PCo}.
Context {JC : JniCodecs N} {J : JNIEnv} {JL : JNILaws J}.
Implicit Types (c : call) (st : @Statics E N).

(** C20: the native library of WRAPS does not unwind and its statics are written once.
    No call panics, whatever bytes, lengths, ordinals and weights it is given; a
    session changes no static that is initialised; and once both are, every session
    leaves the state alone and each of its calls answers as it would on its own. *)
Theorem jni_statics_settle cs st :
  [/\ forall c, never_panics (run c st).1, extends st (session_of cs st).2 &
      settled st -> session_of cs st = ([seq (answer_of c st).1 | c <- cs], st)].
Proof.
split=> [c||]; [|exact: session_extends|exact: settled_session].
have np : safe (fun _ : @Statics E N => True) (run c) by apply: run_safe; case: c.
by have [] := np st I.
Qed.

(** C31: address books built from Java are [u64]-typed.  [build_address_book] succeeds
    exactly on arrays of the same length whose keys decode and whose weights are not
    negative, and then entry [i] is the [i]-th node id, key and weight; every weight
    of the book is the Java weight, below [2^63]. *)
Theorem java_books_typed keys weights ids (ab : AddressBook) :
  (build_address_book keys weights ids = Ok ab <->
   exists ws ns, java_book keys weights ids ab ws ns) /\
  (forall ws ns, java_book keys weights ids ab ws ns ->
   u64_weights ab /\ [seq Z.of_N (weight e) | e <- ab] = ws /\
   all (fun e => weight e <? 2 ^ 63)%num ab).
Proof.
split; first exact: build_address_bookP.
move=> ws ns [_ /[dup] /(@long_region_size _ JL _ _ _) sz /(@long_region_range _ JL _ _ _) rg _ ent].
have val i : i < size ab -> Z.of_N (weight (nth padding_entry ab i)) = nth 0%Z ws i /\
    (weight (nth padding_entry ab i) < 2 ^ 63)%num.
  move=> lt; have [w0 -> _ _] := ent i lt.
  have /andP[_ /Z.ltb_lt up] := all_nthP 0%Z rg i ltac:(by rewrite sz).
  by rewrite /as_u64 Z.mod_small; split; lia.
split; first by apply/(all_nthP padding_entry) => i /val [_ lt]; apply/N.ltb_lt; rewrite /U64; lia.
split; last by apply/(all_nthP padding_entry) => i /val [_ lt]; apply/N.ltb_lt.
apply: (@eq_from_nth _ 0%Z) => [|i]; rewrite size_map // => lt.
by rewrite (nth_map padding_entry) //; case: (val i lt).
Qed.

(** C29: a signature written for Java by the Aggregate phase is the signature that Java
    hands back.  When phase 3 returns an array for some book, signers and message,
    [verifySignature] on that array with the same book and message, in any state of
    the library, answers whether the signers carry more than half of the book's
    weight. *)
Theorem jni_aggregate_answer {JCL : JniCodecLaws JC} r m k ks ws ids signers m1 m2 m3 st arr :
  (answer_of (RunSigningProtocolPhase 3 r m k ks ws ids signers m1 m2 m3) st).1 =
    AArray (Some arr) ->
  exists ab bits bv,
  [/\ build_address_book ks ws ids = Ok ab, jboolean_array_to_vec signers = Ok bits,
      pad_bitvector bits = Ok bv &
      forall st', (answer_of (VerifySignature ks ws ids m arr) st').1 =
        ABool (total_weight ab <? 2 * named_weight ab bv)%num].
Proof.
rewrite {1}/answer_of [run _]/= jmap_entry => -[] /entry_some.
rewrite /runSigningProtocolPhaseImpl; case/jbind_Ok=> ph /jtry_Ok [<-] /jbind_Ok [ent _].
case/jbind_Ok=> msg /raw_bytes_Ok mE /jbind_Ok [sk _] /jbind_Ok [ab /jtry_Ok abE].
case/jbind_Ok=> bits /jtry_Ok bE /jbind_Ok [q1 _] /jbind_Ok [q2 _] /jbind_Ok [q3 _].
case/jbind_Ok=> obj /jtry_Ok sE.
have [bv [rot [r1 [r2 [r3 [adm res]]]]]] := signing_protocol_inv sE.
have oE : exists sig, obj = ProtocolOutput (bv, sig).
  by move: res; rewrite /phase_result => res; inv_ok res; case: res => <-; eexists.
case: oE => sig oE; subst obj => /jtry_Ok aE.
have sD : deserialize_from_jbyte_array arr = Ok (bv, sig) by apply: serialize_reads aE.
exists ab, bits, bv; split=> //; first exact: adm_bits adm.
by move=> st'; apply: (verify_signature_answer st' abE mE sD); apply: output_verdict sE.
Qed.
End Properties.

Section Chain.
Context {E : CurveEngine} {L : CurveLaws E} {SB : ScalarBits E} {FL : CircuitFieldLaws SB}.
Context {G : Gadgets satisfying} {GL : GadgetLaws G forces} {PS : PointSound G}.
Context {C : SigningCodecs E} {CL : SigningCodecLaws C}.
Context {N : Nova E} {PCo : ProofCodecs N} {PCL : ProofCodecLaws PCo} {NS : NovaSound N}.
Context {JC : JniCodecs N} {J : JNIEnv} {JL : JNILaws J}.

End Chain.
