(* ===== verification/JniWrapsToy.v ===== *)
(** * The WRAPS entry points, evaluated

    In the environment of [ToyJni], over the rational curve and the Nova of [NovaToy]:
    a session loads the parameters and verifies the concrete chain, and the owner of
    [book_a] signs through the entry points. *)
From Stdlib Require Import Strings.Byte Strings.String NArith ZArith.
From S2P Require Import Prelude SeqFacts WrapsErrors WrapsEngine WrapsUtils Schnorr Multisig.
From S2P Require Import AddressBook Signing SigningFacts SigningTheorems Circuit CircuitFacts.
From S2P Require Import CircuitSound CircuitComplete CircuitAdequacy CircuitToy WrapsProof.
From S2P Require Import WrapsChain ChainTheorems NovaToy Jni ToyJni JniWraps JniWrapsFacts.
From mathcomp Require Import ssreflect ssrfun ssrbool eqtype ssrnat seq choice.
From mathcomp Require Import fintype tuple bigop ssralg ssrnum ssrint rat zmodp.
Import GRing.Theory.
Set Warnings "-rewrite-rw".
Set Implicit Arguments.
Unset Strict Implicit.
Unset Printing Implicit Defensive.

(** ** Codecs *)
Section Codes.
Abbreviation F := 'F_97.
Abbreviation E := rat_curve.
Abbreviation N := (@replay_nova rat_curve rat_bits rat_proving).

Definition attested_code (k : @SchnorrAttestedPubKey E) : F * (F * F * F) :=
  (k.1, (pok_commitment k.2, pok_challenge_field k.2, pok_response k.2)).
Definition code_attested (c : F * (F * F * F)) : @SchnorrAttestedPubKey E :=
  (c.1, @MkSchnorrPoK E c.2.1.1 c.2.1.2 c.2.2).
Lemma attested_codeK : cancel attested_code code_attested.
Proof. by case=> pk [a b c]. Qed.

Definition multisig_code (s : @SchnorrMultiSignature E) : BitVector * (rat * F) :=
  (s.1, sig_code s.2).
Definition code_multisig (c : BitVector * (rat * F)) : @SchnorrMultiSignature E :=
  (c.1, code_sig c.2).
Lemma multisig_codeK : cancel multisig_code code_multisig.
Proof. by case=> bv [e s]. Qed.

Definition verifying_code (_ : @CompressedVerifyingKey E N) : unit := tt.
Definition code_verifying (_ : unit) : @CompressedVerifyingKey E N :=
  @MkCompressedVerifyingKey E N tt.
Lemma verifying_codeK : cancel verifying_code code_verifying.
Proof. by case=> -[]. Qed.

#[local] Definition bytes_codeK : cancel (map Byte.to_nat) (map toy_byte) := mapK byte_natK.
End Codes.

#[export] Instance rat_jni_codecs : JniCodecs (@replay_nova rat_curve rat_bits rat_proving) := {|
  codec_message := @pickled bytes (seq nat) (map Byte.to_nat) (map toy_byte);
  codec_secret := @pickled 'F_97 'F_97 id id;
  codec_attested := @pickled _ _ attested_code code_attested;
  codec_multisig := @pickled _ _ multisig_code code_multisig;
  codec_hash := @pickled rat rat id id;
  codec_verifying := @pickled _ _ verifying_code code_verifying
|}.

#[export] Instance rat_jni_codec_laws : JniCodecLaws rat_jni_codecs.
Proof.
split; apply: pickled_laws => //; [exact: bytes_codeK|exact: attested_codeK|
  exact: multisig_codeK|exact: verifying_codeK].
Qed.

(** ** Calls on given contents *)
Section Returns.
Context {E : CurveEngine} {C : SigningCodecs E} {N : Nova E} {PCo : ProofCodecs N}.
Context {JC : JniCodecs N} {J : JNIEnv}.
Implicit Types (c : call) (st : @Statics E N).

Lemma loaded_params (rngs : MAX_AB_SIZE.-tuple (ChaCha20Rng * ChaCha20Rng)) k p dir pp st : string_is_null p = false -> get_string p = inr dir ->
  load_public_params rngs k dir = Ok pp -> PUBLIC_PARAMS st = None ->
  PUBLIC_PARAMS (answer_of (LoadPublicParams rngs k p) st).2 = Some (Some pp).
Proof.
move=> nE gE lE; case: st => p0 key /= ->.
by rewrite /answer_of /entry /= /loadPublicParams nE /jmap /jbind /jtry gE /= /init_params /= lE.
Qed.

Lemma uncompressed_returns p l v st lid vk proof pp : convert_byte_array p = inr proof ->
  convert_byte_array l = inr lid -> convert_byte_array v = inr vk ->
  PUBLIC_PARAMS st = Some (Some pp) ->
  verify_uncompressed_wraps_proof pp proof lid vk = Ok true ->
  (answer_of (VerifyUncompressedProof p l v) st).1 = ABool true.
Proof.
move=> pE lE vE sE ok; rewrite /answer_of /entry /= /verifyUncompressedProofImpl.
by rewrite /jmap /jbind /raw_bytes /jtry lE /= vE /= pE /= /get_params sE ok.
Qed.

Lemma aggregate_answers r m k ks ws ids s m1 m2 m3 st ent msg sk ab bits q1 q2 q3 ms arr :
  is_null r = false -> build_entropy_array r = Ok ent -> convert_byte_array m = inr msg ->
  is_null k = false -> @deserialize_from_jbyte_array J _ codec_secret k = Ok sk ->
  build_address_book ks ws ids = Ok ab -> jboolean_array_to_vec s = Ok bits ->
  build_vector m1 = Ok q1 -> build_vector m2 = Ok q2 -> build_vector m3 = Ok q3 ->
  signing_protocol Aggregate None msg None ab bits q1 q2 q3 = Ok (ProtocolOutput ms) ->
  serialize_to_jbyte_array ms = Ok (Some arr) ->
  (answer_of (RunSigningProtocolPhase 3 r m k ks ws ids s m1 m2 m3) st).1 = AArray (Some arr).
Proof.
move=> nr rE mE nk kE bE sE e1 e2 e3 pE oE.
have pE' : signing_protocol Aggregate (Some ent) msg (Some sk) ab bits q1 q2 q3 =
  Ok (ProtocolOutput ms) by [].
rewrite /answer_of /entry /= /runSigningProtocolPhaseImpl /jmap /jbind /raw_bytes /nullable.
by rewrite nr nk /jmap /jbind /jtry rE /= mE /= kE /= bE /= sE /= e1 /= e2 /= e3 /= pE' /= oE.
Qed.
End Returns.

(** ** Java arrays with given contents *)

Lemma toy_raw (v : bytes) : @convert_byte_array toy_jni v = inr v.
Proof. by []. Qed.

Lemma toy_written (v : bytes) : exists a, @u8_vec_to_jbyte_array toy_jni v = Some a.
Proof. by eexists; exact: erefl. Qed.

Section Objects.
Context {T : Type} {B : Bincode T} {L : BincodeLaws B}.

Lemma toy_object (t : T) : exists a, @deserialize_from_jbyte_array toy_jni T B a = Ok t.
Proof. by have [b _ dE] := encode_ok t; exists b; apply/deserialize_Ok; exists b. Qed.

Lemma toy_written_object (t : T) : exists a, @serialize_to_jbyte_array toy_jni T B t = Ok (Some a).
Proof.
have [b bE _] := encode_ok t; have [a aE] := toy_written b.
by exists a; rewrite /serialize_to_jbyte_array bE /= aE.
Qed.

Lemma toy_vector (ts : seq T) : exists a, @build_vector toy_jni T B a = Ok ts.
Proof.
have [a sz el] : exists2 a : seq bytes, size a = size ts &
    forall t0 i, i < size ts ->
      @deserialize_from_jbyte_array toy_jni T B (nth [::] a i) = Ok (nth t0 ts i).
  elim: ts => [|t ts [a sz el]]; first by exists [::].
  have [b bE] := toy_object t; exists (b :: a) => /=; first by rewrite sz.
  by move=> t0 [|i] //= /el.
exists a; rewrite /build_vector [bind _ _]/= sz.
case: ts sz el => [|t ts] sz el; first by [].
rewrite (@foldM_collect _ _ _ _ (fun i => let* o := map_err (fun _ => tt) (of_sum
  (@get_object_array_element toy_jni a i)) in @deserialize_from_jbyte_array toy_jni T B o)).
  by move=> v i; rewrite /= sz; case: ifP.
rewrite (@mapM_ok _ _ _ _ (nth t (t :: ts))) => [i|]; last by rewrite map_nth_iota0 // take_size.
rewrite mem_iota => /andP[_ lt]; have {}lt : i < size (t :: ts) by [].
by rewrite [get_object_array_element _ _]/= sz lt [bind _ _]/= (el t).
Qed.
End Objects.

(** ** The chain of [NovaToy], verified through a session *)

Definition java_loads (key : bytes) : seq (@call rat_curve toy_jni) :=
  [:: @LoadPublicParams rat_curve toy_jni [tuple of nseq MAX_AB_SIZE ([::], [::])] 1%R "ptau"%string;
      LoadCompressedVerifyingKey (key : @JByteArray toy_jni); ProvideSentinelPublicKey].

Abbreviation rat_nova := (@replay_nova rat_curve rat_bits rat_proving).

Lemma all_derived (vkc : @CompressedVerifyingKey rat_curve rat_nova) : derived_key vkc.
Proof.
exists chain_rngs, 1%R, "ptau"%string, tt; split; first exact: chain_load.
by case: vkc => -[].
Qed.

Lemma java_trusted key : trusted_loads (N := rat_nova) (java_loads key).
Proof. by move=> a vkc _ _; exact: all_derived. Qed.

Lemma java_loaded key : PUBLIC_PARAMS (session_of (java_loads key) (@unloaded rat_curve rat_nova)).2 =
  Some (Some tt).
Proof.
rewrite session_cons; apply: session_keeps.
exact: (loaded_params (rngs := [tuple of nseq MAX_AB_SIZE ([::], [::])]) (erefl false)
  (erefl (inr "ptau"%string)) (chain_load 1%R "ptau"%string)).
Qed.


Lemma jni_statics_settle_witness :
  let st := @MkStatics rat_curve rat_nova (Some (Some tt)) (Some None) in
  session_of (java_loads [:: x00]) st = ([seq (answer_of c st).1 | c <- java_loads [:: x00]], st).
Proof.
have [_ _ H] := jni_statics_settle (java_loads [:: x00])
  (@MkStatics rat_curve rat_nova (Some (Some tt)) (Some None)).
exact: H (erefl true).
Defined.

(** ** The owner of [book_a] signs through the entry points *)

Definition java_weights : seq Z := [:: Zpos 7].
Definition java_ids : seq Z := [:: Zpos 5].

Lemma java_book_a : exists keys : seq bytes,
  @java_book rat_curve toy_jni _ keys java_weights java_ids book_a
    java_weights java_ids.
Proof.
have [k kE] := toy_object (chain_key 1).2; exists [:: k].
have /deserialize_Ok [b bE dE] := kE.
split; [exact: erefl|exact: erefl|exact: erefl|].
move=> [|i] // _; split; [by []|exact: erefl|by apply/eqP; vm_compute|].
by exists k, b; split.
Qed.

Lemma java_books_typed_witness : exists keys,
  build_address_book (J := toy_jni) keys java_weights java_ids = Ok book_a /\
  u64_weights book_a /\ [seq Z.of_N (weight e) | e <- book_a] = java_weights /\
  all (fun e => weight e <? 2 ^ 63)%num book_a.
Proof.
have [keys kE] := java_book_a; exists keys.
have [[_ H] T] := java_books_typed (J := toy_jni) (JC := rat_jni_codecs) keys java_weights java_ids book_a.
split; [by apply: H; exists java_weights, java_ids|exact: T kE].
Defined.

Lemma entitled_joint {CE : CurveEngine} (ab : @AddressBook CE) bv rot sig :
  entitled ab bv rot sig -> joint ab bv != 0%R.
Proof. by case/and3P. Qed.

Definition java_rotation : @RotationMessage rat_curve :=
  (book_hash book_a, compute_hints_vk_hash vk_a).

Lemma java_session msg : decode msg = Ok java_rotation ->
  session book_a [:: true] rat_bv msg java_rotation [:: (chain_key 1).1] [:: nseq 32 x00].
Proof.
move=> mE; split.
- by rewrite /pad_bitvector /=; congr Ok; apply/val_inj; vm_compute.
- exact: a_selection.
- exact: mE.
- by rewrite book_a_subset; apply/eqP; vm_compute.
- exact: erefl.
- by [].
- exact: (entitled_joint (a_entitled (or_introl (erefl rotate_a)))).
Qed.

Lemma java_aggregated : exists r m k ks s m1 m2 m3 arr,
  (answer_of (@RunSigningProtocolPhase rat_curve toy_jni 3 r m k ks java_weights java_ids s m1 m2 m3)
    (@unloaded rat_curve rat_nova)).1 = AArray (Some arr).
Proof.
have [msg _ mE] := encode_ok java_rotation; have ses := java_session mE.
have [m1 e1 _] := encode_rounds Round1
  [seq round1 s (message_elements java_rotation) | s <- [:: nseq 32 x00]].
have [m2 e2 _] := encode_rounds Round2
  [seq round2 s (message_elements java_rotation) | s <- [:: nseq 32 x00]].
have [m3 e3 _] := encode_rounds Round3 (mkseq (session_share (message_elements java_rotation)
  [:: (chain_key 1).1] [:: nseq 32 x00]) (size [:: (chain_key 1).1])).
have [sig agg] := run_Aggregate ses e1 e2 e3.
have [k kE] := @toy_object _ _ laws_secret (0%R : @Scalar rat_curve).
have [ks bE] := java_book_a.
have {}bE : build_address_book (J := toy_jni) ks java_weights java_ids = Ok book_a.
  by apply/build_address_bookP; exists java_weights, java_ids.
have [a1 v1] := toy_vector m1; have [a2 v2] := toy_vector m2; have [a3 v3] := toy_vector m3.
have [arr aE] := toy_written_object ((rat_bv, sig) : @SchnorrMultiSignature rat_curve).
exists (nseq 32 x00), msg, k, ks, [:: x01], a1, a2, a3, arr.
exact: (aggregate_answers (r := nseq 32 x00 : @JByteArray toy_jni)
  (s := [:: x01] : @JBooleanArray toy_jni) unloaded (erefl false) (erefl (Ok (nseq 32 x00)))
  (toy_raw msg) (erefl false) kE bE (erefl (Ok [:: true])) v1 v2 v3 agg aE).
Qed.

Lemma jni_aggregate_answer_witness : exists m ks s arr ab bits bv,
  [/\ build_address_book (J := toy_jni) ks java_weights java_ids = Ok ab,
      @jboolean_array_to_vec toy_jni s = Ok bits, pad_bitvector bits = Ok bv &
      forall st' : @Statics rat_curve rat_nova,
        (answer_of (VerifySignature ks java_weights java_ids m arr) st').1 =
        ABool (total_weight ab <? 2 * named_weight ab bv)%num].
Proof.
have [r [m [k [ks [s [m1 [m2 [m3 [arr aE]]]]]]]]] := java_aggregated.
exists m, ks, s, arr.
exact: (jni_aggregate_answer aE).
Defined.
