(* ===== verification/Demo.v ===== *)
(** * [examples/demo.rs]: ten rotations, end to end

    The driver of the crate's demonstration: a genesis committee rotates itself, then
    nine fresh committees follow, each rotation signed in three rounds, folded into the
    running proof and verified; only a serialized checkpoint survives an iteration.
    Every [expect], [unwrap], [assert!] and [unreachable!] is a panic.  The randomness
    of the operating system is an argument; what is printed is left out. *)
From Stdlib Require Import Strings.Byte Strings.String NArith.
From S2P Require Import Prelude SeqFacts WrapsErrors WrapsEngine WrapsUtils Schnorr Multisig.
From S2P Require Import AddressBook Signing Circuit WrapsProof.
From mathcomp Require Import ssreflect ssrfun ssrbool eqtype ssrnat seq div.
From mathcomp Require Import fintype tuple bigop ssralg.
Import GRing.Theory.
Set Warnings "-rewrite-rw".
Set Implicit Arguments.
Unset Strict Implicit.
Unset Printing Implicit Defensive.
Local Open Scope ring_scope.

(** The demonstration returns no errors. *)
Abbreviation demo := (outcome Empty_set).

(** [res.unwrap()], [res.expect(..)] *)
Definition expect_ok {Error A : Type} (r : outcome Error A) : demo A :=
  if r is Ok a then Ok a else Panic.

(** [assert!(c)] *)
Definition demo_assert (c : bool) : demo unit := if c then Ok tt else Panic.

(** ** The types that cross a bincode boundary *)
Inductive ty : Type :=
| TBool | TBytes | TPath | TSeed | TParams | TKey | TPhase | TBits
| TBase | TScalar | TPoint | TPoK | TWeight | TSignature | TR1 | TR2 | TR3
| TPair (a b : ty) | TSeq (a : ty) | TOpt (a : ty).

Abbreviation TAttested := (TPair TPoint TPoK).
Abbreviation TEntry := (TPair (TPair TBase TAttested) TWeight).
Abbreviation TBook := (TSeq TEntry).
Abbreviation TMultisig := (TPair TBits TSignature).
Abbreviation TMessages := (TSeq TBytes).

Section Types.
Context {E : CurveEngine} {N : Nova E}.

Fixpoint denote (t : ty) : Type :=
  match t with
  | TBool => bool
  | TBytes | TSeed => bytes
  | TPath => string
  | TParams => @PublicParams E N
  | TKey => @CompressedVerifyingKey E N
  | TPhase => SigningProtocolPhase
  | TBits => BitVector
  | TBase => Base
  | TScalar => Scalar
  | TPoint => GE
  | TPoK => SchnorrPoK
  | TWeight => Weight
  | TSignature => Signature
  | TR1 => MultisigRound1
  | TR2 => MultisigRound2
  | TR3 => MultisigRound3
  | TPair a b => denote a * denote b
  | TSeq a => seq (denote a)
  | TOpt a => option (denote a)
  end%type.

(** [struct DemoState] *)
Record DemoState : Type := MkDemoState {
  st_pp : PublicParams;
  st_genesis : Base;
  st_ledger : bytes;
  st_prev : AddressBook * seq Scalar;
  st_running : option bytes;
  st_completed : nat
}.
End Types.

(** The bincode codecs of the demonstration; rotation and round messages have the ones
    of the crate. *)
Class DemoCodecs (E : CurveEngine) (N : Nova E) := {
  codec : forall t : ty, Bincode (@denote E N t);
  object_codec : Bincode (@SigningProtocolObject E);
  state_codec : Bincode (@DemoState E N)
}.

Class DemoCodecLaws (E : CurveEngine) (N : Nova E) (D : DemoCodecs N) : Prop := {
  codec_laws : forall t, BincodeLaws (@codec E N D t);
  object_codec_laws : BincodeLaws (@object_codec E N D);
  state_codec_laws : BincodeLaws (@state_codec E N D)
}.

(** [round_trip]: the decoded value of a value's encoding. *)
Definition round_trip {T : Type} (B : Bincode T) (value : T) : demo T :=
  let* bs := expect_ok (encode value) in
  let* decoded := expect_ok (@decode T B bs) in
  let* encoded_again := expect_ok (encode decoded) in
  let* _ := demo_assert (bs == encoded_again) in
  Ok decoded.

(** [sufficient_bitvector], [insufficient_bitvector] *)
Definition from_fn (f : nat -> bool) : BitVector := [tuple of [seq f i | i <- iota 0 MAX_AB_SIZE]].
Definition sufficient_bitvector (size : nat) : BitVector :=
  from_fn (fun i => (i < size)%N && ((i %% 2 == 0)%N || (i %% 3 == 0)%N)).
Definition insufficient_bitvector (size : nat) : BitVector :=
  from_fn (fun i => (i < size)%N && (i %% 3 == 0)%N).

(** [ptau_dir], given the environment variable. *)
Definition ptau_dir (wraps_ptau_dir : option string) : string :=
  if wraps_ptau_dir is Some dir then dir else "params".

(** What [random_address_book] draws: the number of seats, and a seed and a weight
    for each. *)
Record BookDraws : Type := MkBookDraws {
  bd_size : nat;
  bd_seed : nat -> bytes;
  bd_weight : nat -> N
}.

Section Driver.
Context {E : CurveEngine} {C : SigningCodecs E} {N : Nova E} {PCo : ProofCodecs N}.
Context {D : DemoCodecs N}.

(** [round_trip] at a type with its codec. *)
Definition rt (t : ty) (value : @denote E N t) : demo (@denote E N t) :=
  round_trip (codec t) value.
Arguments rt t value : clear implicits.

(** The body of the closure over the seats. *)
Definition random_seat (draws : BookDraws) (i : nat) : demo (Scalar * AddressBookEntry) :=
  let seed := bd_seed draws i in
  let* seed := if i == 0%N then rt TSeed seed else Ok seed in
  let generated := wraps_keygen seed in
  let* (sk, attested) :=
    if i == 0%N then rt (TPair TScalar TAttested) generated else Ok generated in
  let* (sk, attested) :=
    if i == 0%N then
      let* sk := rt TScalar sk in
      let: (pk, pok) := attested in
      let* pk := rt TPoint pk in
      let* pok := rt TPoK pok in
      Ok (sk, (pk, pok))
    else Ok (sk, attested) in
  let entry : AddressBookEntry := (base_from (N.of_nat i), attested, bd_weight draws i) in
  let* entry := if i == 0%N then rt TEntry entry else Ok entry in
  Ok (sk, entry).

(** [random_address_book] *)
Definition random_address_book (draws : BookDraws) : demo (AddressBook * seq Scalar) :=
  let* seats := mapM (random_seat draws) (iota 0 (bd_size draws)) in
  let* ab := rt TBook [seq s.2 | s <- seats] in
  let* keys := rt (TSeq TScalar) [seq s.1 | s <- seats] in
  Ok (ab, keys).

(** ** [threshold_sign] *)
Section Sign.
Variables (message : bytes) (address_book : AddressBook) (keys : seq Scalar).
Variables (bitvector : BitVector) (report_serialization : bool) (seed : nat -> bytes).

(** The keys whose bit is set, and one seed for each. *)
Definition signing_keys : seq Scalar := [seq kb.1 | kb <- zip keys bitvector & kb.2].
Definition sign_seeds : seq bytes := mkseq seed (size signing_keys).

Abbreviation TInputs := (TPair (TPair (TPair (TPair (TPair (TPair (TPair (TPair TPhase
  (TOpt TSeed)) TBytes) (TOpt TScalar)) TBook) TBits) TMessages) TMessages) TMessages).

(** The closure [run]. *)
Definition run_phase (phase : SigningProtocolPhase) (i : option nat) (sk : option Scalar)
    (r1 r2 r3 : seq bytes) : demo SigningProtocolObject :=
  let report := report_serialization && (if i is Some i then i == 0%N else true) in
  let* entropy := if i is Some i then let* s := vec_get sign_seeds i in Ok (Some s) else Ok None in
  let inputs := (phase, entropy, message, sk, address_book, bitvector, r1, r2, r3) in
  let* (phase, entropy, message, sk, book, bits, r1, r2, r3) :=
    if report then rt TInputs inputs else Ok inputs in
  let* output := expect_ok (signing_protocol phase entropy message sk book (tval bits) r1 r2 r3) in
  if report then round_trip object_codec output else Ok output.

(** One message per signer; [unreachable!] otherwise. *)
Definition collect_round (run : nat -> demo SigningProtocolObject) : demo (seq bytes) :=
  mapM (fun i =>
      let* object := run i in
      if object is ProtocolMessage m then Ok m else Panic)
    (iota 0 (size signing_keys)).

(** The size report of a round: its first message is decoded and taken apart. *)
Definition report_round (inspect : RoundMessage -> demo unit) (round : seq bytes) :
    demo (seq bytes) :=
  if report_serialization then
    let* first := vec_get round 0 in
    let* wire := expect_ok (@decode RoundMessage round_codec first) in
    let* wire := round_trip round_codec wire in
    let* _ := inspect wire in
    rt TMessages round
  else Ok round.

Definition inspect_round1 (wire : RoundMessage) : demo unit :=
  if wire is Round1 payload then let* _ := rt TR1 payload in Ok tt else Panic.
Definition inspect_round2 (wire : RoundMessage) : demo unit :=
  if wire is Round2 payload then let* _ := rt TR2 payload in Ok tt else Panic.
Definition inspect_round3 (wire : RoundMessage) : demo unit :=
  if wire is Round3 payload then
    let* payload := rt TR3 payload in
    let* _ := rt TSignature (partial_signature payload) in Ok tt
  else Panic.

Definition threshold_sign : demo SchnorrMultiSignature :=
  let* round1 := collect_round (fun i => run_phase R1 (Some i) None [::] [::] [::]) in
  let* round1 := report_round inspect_round1 round1 in
  let* round2 := collect_round (fun i => run_phase R2 (Some i) None round1 [::] [::]) in
  let* round2 := report_round inspect_round2 round2 in
  let* round3 := collect_round (fun i =>
    let* sk := vec_get signing_keys i in
    run_phase R3 (Some i) (Some sk) round1 round2 [::]) in
  let* round3 := report_round inspect_round3 round3 in
  let* object := run_phase Aggregate None None round1 round2 round3 in
  if object is ProtocolOutput sig then
    if report_serialization then rt TMultisig sig else Ok sig
  else Panic.
End Sign.

(** ** Checkpoints *)

(** [save_checkpoint], [restore_checkpoint] *)
Definition save_checkpoint (state : DemoState) : demo bytes :=
  expect_ok (@encode _ state_codec state).
Definition restore_checkpoint (bs : bytes) : demo DemoState :=
  let* state := expect_ok (@decode _ state_codec bs) in
  let* again := expect_ok (@encode _ state_codec state) in
  let* _ := demo_assert (again == bs) in
  Ok state.

(** ** [main] *)

(** [vec![i as u8; 1248]] *)
Definition hints_key (i : nat) : bytes :=
  nseq 1248 (if Byte.of_nat (i %% 256)%N is Some b then b else x00).

(** The genesis book with its first four seats held open. *)
Definition hold_open (sentinel : SchnorrAttestedPubKey) (ab : AddressBook) : AddressBook :=
  [seq if (ie.1 < 4)%N then (base_from (N.of_nat ie.1), sentinel, N0) else ie.2
  | ie <- zip (iota 0 (size ab)) ab].

(** [main] up to the loop. *)
Definition prepare (rngs : seq (ChaCha20Rng * ChaCha20Rng)) (k : Scalar)
    (wraps_ptau_dir : option string) (genesis : BookDraws) : demo bytes :=
  let* dir := rt TPath (ptau_dir wraps_ptau_dir) in
  let* pp := expect_ok (load_public_params rngs k dir) in
  let* pp := rt TParams pp in
  let* vk := expect_ok (setup_compressed_verifier pp) in
  let* vk_bytes := expect_ok (@encode _ (codec TKey) vk) in
  let* vk_bytes := rt TBytes vk_bytes in
  let* (genesis_ab, genesis_keys) := random_address_book genesis in
  let* h := expect_ok (compute_addressbook_hash genesis_ab) in
  let* ab_genesis_hash := rt TBase h in
  let* m := expect_ok (compute_rotation_message genesis_ab (hints_key 0)) in
  let* ledger_id := rt TBytes m in
  let* sentinel := rt TAttested sentinel_keygen in
  let* held_open := rt TBook (hold_open sentinel genesis_ab) in
  let* h := expect_ok (compute_addressbook_hash held_open) in
  let* _ := rt TBase h in
  save_checkpoint (MkDemoState pp ab_genesis_hash ledger_id (genesis_ab, genesis_keys) None 0).

(** What one rotation draws: the next book and the signing seeds of the two sessions. *)
Record RotationDraws : Type := MkRotationDraws {
  rd_next : BookDraws;
  rd_sign : nat -> bytes;
  rd_short : nat -> bytes
}.

(** The message that rotates to [next] under the hints key [vk], with its checks. *)
Definition rotation_bytes (i : nat) (ledger_id : bytes) (next : AddressBook) (vk : bytes) :
    demo bytes :=
  let* hints_vk_hash := rt TBase (compute_hints_vk_hash vk) in
  let* m := expect_ok (compute_rotation_message next vk) in
  let* message := rt TBytes m in
  let* decoded := expect_ok (@decode RotationMessage rotation_codec message) in
  let* decoded_message := round_trip rotation_codec decoded in
  let* _ := demo_assert (decoded_message.2 == hints_vk_hash) in
  let* again := expect_ok (@encode RotationMessage rotation_codec decoded_message) in
  let* _ := demo_assert (again == message) in
  let* _ := if i == 0%N then demo_assert (message == ledger_id) else Ok tt in
  Ok message.

(** The signature of the sufficient committee, verified. *)
Definition signed_rotation (message : bytes) (prev : AddressBook * seq Scalar)
    (seed : nat -> bytes) : demo SchnorrMultiSignature :=
  let* bitvector := rt TBits (sufficient_bitvector (size prev.1)) in
  let* multisignature := threshold_sign message prev.1 prev.2 bitvector true seed in
  let* (signing_book, signed_message, signature) :=
    rt (TPair (TPair TBook TBytes) TMultisig) (prev.1, message, multisignature) in
  let* ok := expect_ok (verify_signature signing_book signed_message signature) in
  let* ok := rt TBool ok in
  let* _ := demo_assert ok in
  Ok multisignature.

Abbreviation TConstruct :=
  (TPair (TPair (TPair (TPair (TPair TBase TBook) TBook) (TOpt TBytes)) TBytes) TMultisig).

(** The two proofs of the rotation, verified; the running one is returned. *)
Definition proven_rotation (st : DemoState) (wraps_vk : CompressedVerifyingKey)
    (next : AddressBook) (vk : bytes) (multisignature : SchnorrMultiSignature) : demo bytes :=
  let* (genesis_hash, prev_ab, next_ab, prev_proof, proof_hints_vk, proof_signature) :=
    rt TConstruct (st_genesis st, (st_prev st).1, next, st_running st, vk, multisignature) in
  let* (uncompressed, compressed) := expect_ok (construct_wraps_proof (st_pp st) genesis_hash
    prev_ab next_ab prev_proof proof_hints_vk proof_signature) in
  let* (uncompressed, compressed) := rt (TPair TBytes TBytes) (uncompressed, compressed) in
  let* (proof, verifier_ledger_id, verifier_hints_vk) :=
    rt (TPair (TPair TBytes TBytes) TBytes) (compressed, st_ledger st, vk) in
  let* verified := expect_ok (verify_compressed_wraps_proof wraps_vk proof verifier_ledger_id
    verifier_hints_vk) in
  let* verified := rt TBool verified in
  let* _ := demo_assert verified in
  let* (uncompressed, verifier_ledger_id, verifier_hints_vk) :=
    rt (TPair (TPair TBytes TBytes) TBytes) (uncompressed, st_ledger st, vk) in
  let* verified := expect_ok (verify_uncompressed_wraps_proof (st_pp st) uncompressed
    verifier_ledger_id verifier_hints_vk) in
  let* verified := rt TBool verified in
  let* _ := demo_assert verified in
  Ok uncompressed.

(** A minority signs, and must be refused. *)
Definition refused_minority (st : DemoState) (message : bytes) (next : AddressBook) (vk : bytes)
    (seed : nat -> bytes) : demo unit :=
  let: (ab, keys) := st_prev st in
  let* short := threshold_sign message ab keys (insufficient_bitvector (size ab)) false seed in
  match construct_wraps_proof (st_pp st) (st_genesis st) ab next (st_running st) vk short with
  | Ok _ => Panic
  | Err _ => Ok tt
  | Panic => Panic
  end.

(** An iteration after the checkpoint is restored. *)
Definition rotate (st : DemoState) (draws : RotationDraws) : demo bytes :=
  let i := st_completed st in
  let* wraps_vk := expect_ok (setup_compressed_verifier (st_pp st)) in
  let* next := if i == 0%N then Ok (st_prev st) else random_address_book (rd_next draws) in
  let* vk := rt TBytes (hints_key i) in
  let* message := rotation_bytes i (st_ledger st) next.1 vk in
  let* multisignature := signed_rotation message (st_prev st) (rd_sign draws) in
  let* uncompressed := proven_rotation st wraps_vk next.1 vk multisignature in
  let* _ := refused_minority st message next.1 vk (rd_short draws) in
  save_checkpoint (MkDemoState (st_pp st) (st_genesis st) (st_ledger st) next
    (Some uncompressed) i.+1).

Definition num_steps : nat := 10.

(** The [loop], with fuel for its iterations; the last checkpoint is the result. *)
Fixpoint demo_loop (fuel : nat) (draws : nat -> RotationDraws) (checkpoint : bytes) :
    demo (option DemoState) :=
  if fuel is fuel'.+1 then
    let* st := restore_checkpoint checkpoint in
    let* _ := demo_assert (st_completed st <= num_steps)%N in
    let* _ := demo_assert (~~ isSome (st_running st) == (st_completed st == 0%N)) in
    if st_completed st == num_steps then Ok (Some st)
    else
      let* checkpoint := rotate st (draws (st_completed st)) in
      demo_loop fuel' draws checkpoint
  else Ok None.

(** [main] *)
Definition demo_main (fuel : nat) (rngs : seq (ChaCha20Rng * ChaCha20Rng)) (k : Scalar)
    (wraps_ptau_dir : option string) (genesis : BookDraws) (draws : nat -> RotationDraws) :
    demo (option DemoState) :=
  let* checkpoint := prepare rngs k wraps_ptau_dir genesis in
  demo_loop fuel draws checkpoint.

End Driver.
#[global] Arguments rt {E N D} t value : simpl never.
