(* ===== verification/DemoFacts.v ===== *)
(** * Theorems on the demonstration

    Which committees its two bitvectors select, and that with honest randomness the
    ten rotations run to the end, with every assertion satisfied. *)
From Stdlib Require Import Strings.Byte Strings.String NArith Lia.
From S2P Require Import Prelude SeqFacts WrapsErrors WrapsEngine WrapsUtils Schnorr Multisig.
From S2P Require Import AddressBook Signing SigningFacts SigningTheorems BookTheorems Circuit.
From S2P Require Import CircuitFacts CircuitSound CircuitComplete WrapsProof WrapsChain.
From S2P Require Import ChainTheorems Demo.
From mathcomp Require Import ssreflect ssrfun ssrbool eqtype ssrnat seq div.
From mathcomp Require Import fintype tuple bigop ssralg.
Import GRing.Theory.
Set Warnings "-rewrite-rw".
Set Implicit Arguments.
Unset Strict Implicit.
Unset Printing Implicit Defensive.
Local Open Scope ring_scope.

(** ** Panicking wrappers *)

Lemma expect_okE X A (r : outcome X A) a : r = Ok a -> expect_ok r = Ok a.
Proof. by move=> ->. Qed.

Lemma round_tripE T (B : Bincode T) (L : BincodeLaws B) (v : T) : round_trip B v = Ok v.
Proof.
by have [b eE dE] := encode_ok v; rewrite /round_trip eE /= dE /= eE /= eqxx.
Qed.

(** ** Random books *)
Section Books.
Context {E : CurveEngine} {L : CurveLaws E}.
Implicit Types (d : BookDraws).

Definition draw_key d (i : nat) : Scalar := (wraps_keygen (bd_seed d i)).1.
Definition draw_pk d (i : nat) : GE := (wraps_keygen (bd_seed d i)).2.1.
Definition draw_entry d (i : nat) : AddressBookEntry :=
  (base_from (N.of_nat i), (wraps_keygen (bd_seed d i)).2, bd_weight d i).
Definition book d : AddressBook := mkseq (draw_entry d) (bd_size d).
Definition book_keys d : seq Scalar := mkseq (draw_key d) (bd_size d).

(** What the two ranges of [random_address_book] give. *)
Definition in_range d : Prop :=
  (MAX_AB_SIZE %/ 4 <= bd_size d <= MAX_AB_SIZE)%N /\
  forall i, (475 <= bd_weight d i)%num /\ (bd_weight d i <= 525)%num.

(** Draws that make a valid book: few seats, small weights, and distinct keys other than
    the identity. *)
Record usable d : Prop := {
  us_size : (bd_size d <= MAX_AB_SIZE)%N;
  us_weight : forall i, (bd_weight d i <= 525)%num;
  us_uniq : uniq (mkseq (draw_pk d) (bd_size d));
  us_live : 0 \notin mkseq (draw_pk d) (bd_size d)
}.

(** Usable draws of [random_address_book]. *)
Record good_draws d : Prop := {
  gd_range : in_range d;
  gd_uniq : uniq (mkseq (draw_pk d) (bd_size d));
  gd_live : 0 \notin mkseq (draw_pk d) (bd_size d)
}.

Lemma good_usable d : good_draws d -> usable d.
Proof. by case=> -[/andP[_ le] rg] u l; split=> // i; case: (rg i). Qed.

Lemma draw_pkE d i : draw_pk d i = draw_key d i *: gen.
Proof. by rewrite /draw_pk /draw_key /wraps_keygen; case: expand_seed. Qed.

Lemma size_book d : size (book d) = bd_size d.
Proof. exact: size_mkseq. Qed.

Lemma draw_live d i : usable d -> (i < bd_size d)%N -> live (draw_entry d i).
Proof.
move=> g lt; rewrite /live is_identityE; apply: contraNneq (us_live g) => <-.
by apply/mapP; exists i; rewrite // mem_iota.
Qed.

Lemma effective_draw d i : usable d -> (i < bd_size d)%N ->
  effective (draw_entry d i) = bd_weight d i.
Proof. by move=> g lt; have := draw_live g lt; rewrite /effective /live => /negbTE ->. Qed.

(** ** Committees *)

Lemma sumN_range lo hi (l : seq N) : (forall x, x \in l -> (lo <= x)%num /\ (x <= hi)%num) ->
  (N.of_nat (size l) * lo <= sumN l)%num /\ (sumN l <= N.of_nat (size l) * hi)%num.
Proof.
elim: l => [|x l IH] H; first by rewrite /=; lia.
have [lx xh] := H x (mem_head _ _).
have [|l1 l2] := IH; first by move=> y yl; apply: H; rewrite in_cons yl orbT.
have -> : size (x :: l) = (1 + size l)%coq_nat by [].
rewrite [sumN _]/= Nat2N.inj_add; lia.
Qed.

Lemma zip_from_fn d f : (bd_size d <= MAX_AB_SIZE)%N ->
  zip (book d) (from_fn f) = [seq (draw_entry d i, f i) | i <- iota 0 (bd_size d)].
Proof.
move=> le; rewrite (proj1 (zip_book _ _)) size_book // /book /mkseq.
rewrite -map_take take_iota (minn_idPl le).
by elim: (iota _ _) => //= i l ->.
Qed.

Lemma named_from_fn d f : usable d ->
  named_weight (book d) (from_fn f) = sumN [seq bd_weight d i | i <- iota 0 (bd_size d) & f i].
Proof.
move=> g; have le := us_size g.
rewrite /named_weight zip_from_fn // filter_map -map_comp; congr sumN.
apply/eq_in_map => i; rewrite mem_filter mem_iota => /andP[_ lt].
exact: effective_draw.
Qed.

Lemma total_book d : usable d ->
  total_weight (book d) = sumN [seq bd_weight d i | i <- iota 0 (bd_size d)].
Proof.
move=> g; rewrite /total_weight /book /mkseq -map_comp; congr sumN.
apply/eq_in_map => i; rewrite mem_iota => lt.
exact: effective_draw.
Qed.

Lemma sumN_filterC (T : Type) (w : T -> N) (f : pred T) l :
  sumN [seq w i | i <- l] = N.add (sumN [seq w i | i <- l & f i]) (sumN [seq w i | i <- l & ~~ f i]).
Proof. by elim: l => //= x l ->; case: (f x) => /=; lia. Qed.

Lemma weights_range d (f : pred nat) l : in_range d ->
  (N.of_nat (count f l) * 475 <= sumN [seq bd_weight d i | i <- l & f i])%num /\
  (sumN [seq bd_weight d i | i <- l & f i] <= N.of_nat (count f l) * 525)%num.
Proof.
case=> _ rg; have := @sumN_range 475 525 [seq bd_weight d i | i <- l & f i].
by rewrite size_map size_filter; apply => x /mapP [i _ ->].
Qed.
(** Seats that outnumber others enough outweigh them. *)
Lemma outweigh d (f g : pred nat) l : in_range d ->
  (N.of_nat (count g l) * 525 < N.of_nat (count f l) * 475)%num ->
  (sumN [seq bd_weight d i | i <- l & g i] < sumN [seq bd_weight d i | i <- l & f i])%num.
Proof.
move=> rg lt; have [lo _] := weights_range f l rg; have [_ hi] := weights_range g l rg; lia.
Qed.
End Books.

(** Seats counted: the sufficient committee outweighs the rest at the extremes of the
    range of weights, and the insufficient one is outweighed. *)
Definition thirds (n : nat) : bool :=
  let yes i := ((i %% 2 == 0)%N || (i %% 3 == 0)%N) in
  let c := N.of_nat (count yes (iota 0 n)) in
  let c' := N.of_nat (count (predC yes) (iota 0 n)) in
  let d := N.of_nat (count (fun i => i %% 3 == 0)%N (iota 0 n)) in
  let d' := N.of_nat (count (predC (fun i => i %% 3 == 0)%N) (iota 0 n)) in
  (c' * 525 <? c * 475)%num && (d * 525 <? d' * 475)%num.

Lemma thirdsP n : (MAX_AB_SIZE %/ 4 <= n <= MAX_AB_SIZE)%N -> thirds n.
Proof.
move=> rg; have /allP : all thirds (iota 16 49) by vm_compute.
by apply; rewrite mem_iota.
Qed.

Section Committees.
Context {E : CurveEngine} {L : CurveLaws E}.
Implicit Types (d : BookDraws).

Lemma halves (a b t : N) : t = N.add a b ->
  ((b < a)%num -> (t < 2 * a)%num) /\ ((a < b)%num -> (2 * a < t)%num).
Proof. by move=> ->; split=> ?; lia. Qed.

Lemma in_seats d f : [seq i <- iota 0 (bd_size d) | (i < bd_size d)%N && f i] =
  [seq i <- iota 0 (bd_size d) | f i].
Proof. by apply: eq_in_filter => i; rewrite mem_iota add0n => /andP[_ ->]. Qed.

(** In any book of the size and weights that [random_address_book] draws, the seats of
    [sufficient_bitvector] weigh more than half of the book, and those of
    [insufficient_bitvector] less than half. *)
Lemma outweighs d : good_draws d ->
  (total_weight (book d) < 2 * named_weight (book d) (sufficient_bitvector (bd_size d)))%num /\
  (2 * named_weight (book d) (insufficient_bitvector (bd_size d)) < total_weight (book d))%num.
Proof.
move=> gd; have rg := gd_range gd; have g := good_usable gd; have /andP[/N.ltb_lt s1 /N.ltb_lt s2] := thirdsP (proj1 rg).
rewrite /sufficient_bitvector /insufficient_bitvector !named_from_fn // !in_seats total_book //.
set l := iota _ _ in s1 s2 *; set yes := fun i : nat => _ || _.
have o1 : (sumN [seq bd_weight d i | i <- l & ~~ yes i] < sumN [seq bd_weight d i | i <- l & yes i])%num.
  exact: outweigh rg s1.
have o2 : (sumN [seq bd_weight d i | i <- l & (i %% 3 == 0)%N] <
           sumN [seq bd_weight d i | i <- l & ~~ (i %% 3 == 0)%N])%num by exact: outweigh rg s2.
have e1 := sumN_filterC (bd_weight d) yes l.
have e2 := sumN_filterC (bd_weight d) (fun i => (i %% 3 == 0)%N) l.
by split; [apply: (proj1 (halves e1))|apply: (proj2 (halves e2))].
Qed.
End Committees.

(** ** Sessions *)
Section Sessions.
Context {E : CurveEngine} {L : CurveLaws E} {C : SigningCodecs E} {CL : SigningCodecLaws C}.
Context {N : Nova E} {D : DemoCodecs N} {DL : DemoCodecLaws D}.
Implicit Types (d : BookDraws) (f : pred nat).

Lemma rtE t (v : @denote E N t) : rt t v = Ok v.
Proof. exact: (round_tripE (codec_laws t)). Qed.

Lemma from_fnE f : tval (from_fn f) = [seq f i | i <- iota 0 MAX_AB_SIZE].
Proof. by []. Qed.

Lemma zip_seats (A : Type) (e : nat -> A) n f : (n <= MAX_AB_SIZE)%N ->
  zip (mkseq e n) (from_fn f) = [seq (e i, f i) | i <- iota 0 n].
Proof.
move=> le; rewrite /mkseq from_fnE -(subnKC le) iotaD map_cat.
by elim: (iota 0 n) => [|i l IH] /=; [case: map|rewrite IH].
Qed.

Lemma book_valid d : usable d -> verify_address_book (book d).
Proof.
move=> g; have le := us_size g.
pose seats := mkseq (fun i => (@base_from E (N.of_nat i), bd_seed d i, bd_weight d i)) (bd_size d).
have keysE : [seq (wraps_keygen s.1.2).2.1 | s <- seats] = mkseq (draw_pk d) (bd_size d).
  by rewrite /seats /mkseq -map_comp.
have := @keygen_book_valid E L seats; rewrite keysE size_mkseq /seats /mkseq -!map_comp.
apply=> //; [exact: us_uniq|exact: us_live|].
have := @sumN_range 0 525 [seq bd_weight d i | i <- iota 0 (bd_size d)].
case=> [x /mapP [i _ ->]|_]; [by split; [exact: N.le_0_l|exact: us_weight]|]; rewrite size_map size_iota /U64 => hi.
have : (N.of_nat (bd_size d) <= 64)%num by move/leP: le; rewrite /MAX_AB_SIZE; lia.
by move: hi; rewrite (_ : map _ _ = [seq bd_weight d i | i <- iota 0 (bd_size d)]) //; lia.
Qed.

Lemma book_subset d f : usable d ->
  signing_subset (book d) (from_fn f) = [seq draw_pk d i | i <- iota 0 (bd_size d) & f i].
Proof.
move=> g; have le := us_size g.
rewrite /signing_subset zip_seats //.
have : all (fun i => i < bd_size d)%N (iota 0 (bd_size d)) by apply/allP => i; rewrite mem_iota.
elim: (iota _ _) => //= i l IH /andP[lt /IH ->].
by have := draw_live g lt; rewrite /live => ->; rewrite andbT; case: (f i).
Qed.

Lemma book_signing_keys d f : usable d ->
  signing_keys (book_keys d) (from_fn f) = [seq draw_key d i | i <- iota 0 (bd_size d) & f i].
Proof.
move=> g; have le := us_size g.
by rewrite /signing_keys zip_seats // filter_map -map_comp.
Qed.

Lemma book_selection d f : usable d -> (forall i, f i -> (i < bd_size d)%N) ->
  selection (book d) (from_fn f).
Proof.
move=> g fi; have le := us_size g; split; first exact: book_valid.
  rewrite size_book from_fnE -map_drop drop_iota has_map; apply/hasPn => i.
  by rewrite mem_iota add0n => /andP[ge _]; apply/negP => /fi; rewrite ltnNge ge.
rewrite zip_seats // all_map; apply/allP => i; rewrite mem_iota => /andP[_ lt].
by rewrite /seat_guard /= (draw_live g lt) implybT.
Qed.

(** Committees with a joint key. *)
Definition has_joint d f : Prop := joint (book d) (from_fn f) != 0.

Lemma book_session d f seed msg rotation : usable d ->
  (forall i, f i -> (i < bd_size d)%N) -> has_joint d f -> decode msg = Ok rotation ->
  session (book d) (tval (from_fn f)) (from_fn f) msg rotation
    (signing_keys (book_keys d) (from_fn f)) (sign_seeds (book_keys d) (from_fn f) seed).
Proof.
move=> g fi j mE; have sE := book_subset f g; have kE := book_signing_keys f g; split=> //.
- exact: pad_bitvector_id.
- exact: book_selection.
- by rewrite sE kE -map_comp; apply: eq_map => i; exact: draw_pkE.
- exact: size_mkseq.
- rewrite kE => nil; move: j; rewrite /has_joint /joint sE.
  by case: (filter _ _) nil => //; rewrite /joint_key big_nil eqxx.
Qed.

(** ** [threshold_sign] on an honest session *)
Section Threshold.
Variables (ab : AddressBook) (keys : seq Scalar) (bv : BitVector) (msg : bytes).
Variables (rotation : RotationMessage) (seed : nat -> bytes) (report : bool).
Let sks := signing_keys keys bv.
Let seeds := sign_seeds keys bv seed.
Hypothesis ses : session ab (tval bv) bv msg rotation sks seeds.

Lemma run_phaseE phase i sk r1 r2 r3 ent o :
  (if i is Some i then exists2 s, ent = Some s & vec_get seeds i = Ok s :> demo _
   else ent = None) ->
  signing_protocol phase ent msg sk ab (tval bv) r1 r2 r3 = Ok o ->
  run_phase msg ab keys bv report seed phase i sk r1 r2 r3 = Ok o.
Proof.
move=> entE pE; rewrite /run_phase.
have -> : (if i is Some i then let* s := vec_get (sign_seeds keys bv seed) i in Ok (Some s)
           else Ok None) = Ok ent :> demo _.
  by case: i entE => [i [s -> sE]|-> //]; rewrite -/seeds sE.
rewrite [bind (Ok _) _]/=; case: (report && _).
  by rewrite rtE /= pE /= (round_tripE object_codec_laws).
by rewrite /= pE.
Qed.

Lemma seed_get i : (i < size sks)%N -> vec_get seeds i = Ok (nth [::] seeds i) :> demo _.
Proof. by move=> lt; rewrite (vec_get_lt _ [::]) // size_mkseq. Qed.

Lemma collect_roundE run ms : size ms = size sks ->
  (forall i, (i < size sks)%N -> run i = Ok (ProtocolMessage (nth [::] ms i))) ->
  collect_round keys bv run = Ok ms.
Proof.
move=> sz H; rewrite /collect_round (@mapM_ok _ _ _ _ (nth [::] ms)) => [i|].
  by rewrite mem_iota -/sks => lt; rewrite H.
by rewrite -/sks -sz map_nth_iota0 // take_size.
Qed.

Lemma report_roundE T (wrap : T -> RoundMessage) xs ms inspect : xs <> [::] ->
  mapM (fun x => encode (wrap x)) xs = Ok ms -> (forall x, inspect (wrap x) = Ok tt) ->
  report_round report inspect ms = Ok ms.
Proof.
case: xs => // x xs _ mE iE; rewrite /report_round; case: report => //.
move: mE => /=; case bE: encode => [b| |] //=; case: mapM => [bs| |] //= -[<-].
rewrite [vec_get _ _]/= [bind _ _]/= (encode_inv bE) /= (round_tripE round_codec_laws) /= iE /=.
exact: (rtE (t := TMessages)).
Qed.

Lemma threshold_signE : exists sig,
  threshold_sign msg ab keys bv report seed = Ok (bv, sig) /\
  verify_signature ab msg (bv, sig) = Ok (total_weight ab <? 2 * named_weight ab bv)%num.
Proof.
pose message := message_elements rotation.
have [m1 e1 s1] := encode_rounds Round1 [seq round1 s message | s <- seeds].
have [m2 e2 s2] := encode_rounds Round2 [seq round2 s message | s <- seeds].
have [m3 e3 s3] := encode_rounds Round3 (mkseq (session_share message sks seeds) (size sks)).
have [sig agg] := run_Aggregate ses e1 e2 e3.
have sz : size seeds = size sks := ses_entropy ses.
rewrite size_map sz in s1; rewrite size_map sz in s2; rewrite size_mkseq in s3.
have pos : (0 < size sks)%N by rewrite lt0n size_eq0; apply/eqP/(ses_some ses).
have ne (A : Type) (g : bytes -> A) : [seq g s | s <- seeds] <> [::].
  by move/(congr1 size); rewrite size_map sz => s0; rewrite s0 in pos.
exists sig; split; last exact: output_verdict agg.
rewrite /threshold_sign (collect_roundE s1) => [i lt|].
  by apply: run_phaseE (run_R1 ses e1 lt); exists (nth [::] seeds i) => //; exact: seed_get.
rewrite /= (report_roundE _ e1) //= => [x|]; first by rewrite rtE.
rewrite (collect_roundE s2) => [i lt|].
  by apply: run_phaseE (run_R2 ses e1 e2 e3 lt); exists (nth [::] seeds i) => //; exact: seed_get.
rewrite /= (report_roundE _ e2) //= => [x|]; first by rewrite rtE.
rewrite (collect_roundE s3) => [i lt|].
  rewrite (vec_get_lt _ 0) //=.
  by apply: run_phaseE (run_R3 ses e1 e2 e3 lt); exists (nth [::] seeds i) => //; exact: seed_get.
rewrite /= (report_roundE _ e3) //= => [|x|].
- by move/(congr1 size); rewrite size_mkseq => s0; rewrite s0 in pos.
- by rewrite rtE /= rtE.
rewrite (run_phaseE (ent := None) _ agg) //=; case: report => //.
exact: (rtE (t := TMultisig)).
Qed.
End Threshold.
End Sessions.

(** ** The driver *)
Section Books.
Context {E : CurveEngine} {L : CurveLaws E} {C : SigningCodecs E} {CL : SigningCodecLaws C}.
Context {N : Nova E} {D : DemoCodecs N} {DL : DemoCodecLaws D}.
Implicit Types (d : BookDraws).

Lemma random_seatE d i : random_seat d i = Ok (draw_key d i, draw_entry d i).
Proof.
rewrite /random_seat /draw_entry /draw_key; case: ifP => _.
  rewrite rtE; cbn [bind]; case: (wraps_keygen _) => sk [pk pok].
  by rewrite rtE /= rtE /= rtE /= rtE /= rtE.
by cbn [bind]; case: (wraps_keygen _).
Qed.

Lemma random_address_bookE d : random_address_book d = Ok (book d, book_keys d).
Proof.
rewrite /random_address_book (@mapM_ok _ _ _ _ (fun i => (draw_key d i, draw_entry d i))).
  by move=> i _; exact: random_seatE.
by rewrite /= -!map_comp rtE /= rtE.
Qed.

(** Holding seats open keeps the owned keys distinct and the weight small. *)
Lemma held_open_seats (held : pred nat) (e s : nat -> AddressBookEntry) (l : seq nat) :
  (forall i, live (s i) = false) ->
  let opened := [seq if held i then s i else e i | i <- l] in
  let closed := [seq e i | i <- l] in
  [/\ subseq (live_keys opened) (live_keys closed), attested closed -> attested opened &
      (total_weight opened <= total_weight closed)%num].
Proof.
move=> dead /=; elim: l => [|i l [sub att le]]; first by split=> //; lia.
rewrite /= !live_keys_cons !total_weight_cons /attested /= -!/(attested _).
case: (held i).
  rewrite dead /effective -[is_identity (entry_pk (s i))]negbK -/(live (s i)) dead /=.
  split; [|by case/andP|lia].
  by case: (live _) => //; apply: subseq_trans sub (subseq_cons _ _).
split; [|by case/andP=> -> /att|lia].
by case: (live _); rewrite //= eqxx.
Qed.

Lemma hold_open_valid d : usable d -> verify_address_book (hold_open sentinel_keygen (book d)).
Proof.
move=> g; have vb : verify_address_book (book d) by apply: book_valid.
have /verify_address_bookP [sz u a w] := vb.
pose s i : AddressBookEntry := (@base_from E (N.of_nat i), sentinel_keygen, N0).
have -> : hold_open sentinel_keygen (book d) =
    [seq if (i < 4)%N then s i else draw_entry d i | i <- iota 0 (bd_size d)].
  rewrite /hold_open size_book /book /mkseq.
  by elim: (iota _ _) => //= i l ->.
have [|sub att le] := @held_open_seats (fun i => i < 4)%N (draw_entry d) s (iota 0 (bd_size d)).
  by move=> i; rewrite /live /s /entry_pk /= padding_is_identity.
apply/verify_address_bookP; split; first by rewrite size_map size_iota -(size_book d).
- exact: subseq_uniq sub u.
- exact: att.
- exact: N.le_lt_trans le w.
Qed.
End Books.

Section Driver.
Context {E : CurveEngine} {L : CurveLaws E} {SB : ScalarBits E} {FL : CircuitFieldLaws SB}.
Context {G : Gadgets proving} {GL : GadgetLaws G proves} {PC : PointComplete G}.
Context {C : SigningCodecs E} {CL : SigningCodecLaws C}.
Context {N : Nova E} {PCo : ProofCodecs N} {PCL : ProofCodecLaws PCo}.
Context {ivc : PublicParams -> RecursiveSNARK -> nat -> seq Base -> seq Base -> Prop}.
Context {NC : NovaComplete ivc} {D : DemoCodecs N} {DL : DemoCodecLaws D}.
Implicit Types (d : BookDraws).

(** Draws that the demonstration can use: its two committees have joint keys. *)
Record lucky d : Prop := {
  lucky_good : good_draws d;
  lucky_sufficient : joint (book d) (sufficient_bitvector (bd_size d)) != 0;
  lucky_insufficient : joint (book d) (insufficient_bitvector (bd_size d)) != 0
}.

Lemma lucky_usable d : lucky d -> usable d.
Proof. by case=> /good_usable. Qed.

Lemma book_u64 d : usable d -> u64_weights (book d).
Proof.
move=> /us_weight rg; rewrite /u64_weights /book /mkseq all_map; apply/allP => i _ /=.
by apply/N.ltb_lt; rewrite /weight /U64 /=; have := rg i; lia.
Qed.

Section Rotation.
Variables (c0 : RotationCircuit) (dir : string) (pp : @PublicParams E N) (d0 : BookDraws).
Hypotheses (pcE : rc_pc c0 = shared_constants) (sE : setup_with_ptau_dir c0 dir = inr pp).
Hypothesis usable0 : usable d0.

Let g : Base := book_hash (book d0).
Let gh : Base := compute_hints_vk_hash (hints_key 0).

Variable ledger : bytes.
Hypothesis ledgerE : compute_rotation_message (book d0) (hints_key 0) = Ok ledger.

Lemma ledgerD : decode ledger = Ok (g, gh).
Proof.
have vb : verify_address_book (book d0) by apply: book_valid usable0.
by have [b bE] := rotation_message (hints_key 0) vb; move: bE; rewrite ledgerE => -[<-].
Qed.

(** The sufficient committee's signature, accepted; the insufficient one's, refused. *)
Lemma sufficient_signs d msg (rotation : RotationMessage) report seed : lucky d -> decode msg = Ok rotation ->
  exists2 sig, threshold_sign msg (book d) (book_keys d) (sufficient_bitvector (bd_size d)) report
                 seed = Ok (sufficient_bitvector (bd_size d), sig) &
    verify_signature (book d) msg (sufficient_bitvector (bd_size d), sig) = Ok true.
Proof.
case=> gd js _ mE; have [maj _] := outweighs gd; have us := good_usable gd.
have ses : session (book d) (tval (sufficient_bitvector (bd_size d))) (sufficient_bitvector (bd_size d))
    msg rotation (signing_keys (book_keys d) (sufficient_bitvector (bd_size d)))
    (sign_seeds (book_keys d) (sufficient_bitvector (bd_size d)) seed).
  by apply: book_session => // i /andP[].
have [sig [tE vE]] := threshold_signE report ses.
by exists sig => //; rewrite vE; congr Ok; apply/N.ltb_lt.
Qed.

Lemma insufficient_signs d msg (rotation : RotationMessage) report seed : lucky d -> decode msg = Ok rotation ->
  exists2 sig, threshold_sign msg (book d) (book_keys d) (insufficient_bitvector (bd_size d)) report
                 seed = Ok (insufficient_bitvector (bd_size d), sig) &
    verify_signature (book d) msg (insufficient_bitvector (bd_size d), sig) = Ok false.
Proof.
case=> gd _ js mE; have [_ min] := outweighs gd; have us := good_usable gd.
have ses : session (book d) (tval (insufficient_bitvector (bd_size d))) (insufficient_bitvector (bd_size d))
    msg rotation (signing_keys (book_keys d) (insufficient_bitvector (bd_size d)))
    (sign_seeds (book_keys d) (insufficient_bitvector (bd_size d)) seed).
  by apply: book_session => // i /andP[].
have [sig [tE vE]] := threshold_signE report ses.
by exists sig => //; rewrite vE; congr Ok; apply/N.ltb_ge/N.lt_le_incl.
Qed.

(** The running proof after [i] rotations, the last of which installed [prev]. *)
Definition chain_at (i : nat) (prev : AddressBook) (running : option bytes) : Prop :=
  if i is i'.+1 then
    exists2 out, running = Some out.1 &
      honest_output (ivc := ivc) pp g gh (book_hash prev) (hints_key i') i out
  else running = None /\ prev = book d0.

Lemma rotation_signed d next vk bv msg sig (genesis : bool) : usable d ->
  verify_address_book next -> decode msg = Ok (book_hash next, compute_hints_vk_hash vk) ->
  verify_signature (book d) msg (bv, sig) = Ok true ->
  (genesis -> g = book_hash (book d) /\ book_hash next = book_hash (book d)) ->
  signed_by g (book d) genesis (MkRotation next vk bv sig).
Proof.
move=> gd vn mE /verify_signature_true [rot]; rewrite mE => -[<-] [sel ent] gen.
by split; [exact: book_u64|split].
Qed.

Lemma construct_next i d next running msg bv sig : usable d ->
  chain_at i (book d) running -> (i = 0%N -> next = book d) -> verify_address_book next ->
  decode msg = Ok (book_hash next, compute_hints_vk_hash (hints_key i)) ->
  verify_signature (book d) msg (bv, sig) = Ok true ->
  exists out, [/\ construct_wraps_proof pp g (book d) next running (hints_key i) (bv, sig) = Ok out,
    chain_at i.+1 next (Some out.1) & accepted pp g gh (hints_key i) out].
Proof.
case: i => [|i] gd /=.
  move=> [-> e0] en vn mE vE.
  have sig0 : signed_by g (book d) true (MkRotation next (hints_key 0) bv sig).
    by apply: rotation_signed mE vE _ => // _; rewrite en // /g e0.
  rewrite {1}/g -e0 in sig0 *.
  have [out cE ho] := genesis_output (NC := NC) pcE sE sig0.
  by rewrite /g -e0; exists out; split=> //; [exists out|case: ho].
move=> [out -> ho] _ vn mE vE.
have sgn : signed_by g (book d) false (MkRotation next (hints_key i.+1) bv sig).
  exact: rotation_signed mE vE _.
have [out' cE ho'] := next_output (NC := NC) pcE sE sgn ho.
by exists out'; split=> //; [exists out'|case: ho'].
Qed.

(** The insufficient committee's signature does not rotate. *)
Lemma construct_refused next running vk d msg bv sig :
  decode msg = Ok (book_hash next, compute_hints_vk_hash vk) ->
  verify_signature (book d) msg (bv, sig) = Ok false ->
  exists e, construct_wraps_proof pp g (book d) next running vk (bv, sig) = Err e.
Proof.
move=> mE vE; have np : never_panics (construct_wraps_proof pp g (book d) next running vk (bv, sig)).
  exact: construct_no_panic.
case cE: construct_wraps_proof np => [r|e|] // _; last by exists e.
have [sel _ ent _] := construct_inv cE.
have vT : verify_signature (book d) msg (bv, sig) = Ok true.
  by apply/verify_signature_true; exists (book_hash next, compute_hints_vk_hash vk).
by have := etrans (esym vE) vT.
Qed.

Lemma rotation_bytesE i next vk msg : compute_rotation_message next vk = Ok msg ->
  (i = 0%N -> msg = ledger) -> rotation_bytes i ledger next vk = Ok msg.
Proof.
move=> mE m0; have eE : exists h, encode ((h, compute_hints_vk_hash vk) : RotationMessage) = Ok msg.
  by move: mE; rewrite /compute_rotation_message => H; inv_ok H; exists v.
case: eE => h eE; rewrite /rotation_bytes rtE /= mE /= rtE /= (encode_inv eE) /=.
rewrite (round_tripE rotation_codec_laws) /= eqxx /= eE /= eqxx /=.
by case: eqP => // i0; rewrite (m0 i0) eqxx.
Qed.

Lemma signed_rotationE d msg (rotation : RotationMessage) seed : lucky d -> decode msg = Ok rotation ->
  exists2 sig, signed_rotation msg (book d, book_keys d) seed =
                 Ok (sufficient_bitvector (bd_size d), sig) &
    verify_signature (book d) msg (sufficient_bitvector (bd_size d), sig) = Ok true.
Proof.
move=> ld mE; have [sig tE vE] := @sufficient_signs d msg rotation true seed ld mE.
exists sig => //; rewrite /signed_rotation rtE [(_, _).1]/= size_book; cbn [bind].
by rewrite [(_, _).2]/= tE; cbn [bind]; rewrite rtE; cbn [bind]; rewrite vE /= rtE.
Qed.

Lemma proven_rotationE st vkc next ms out i : st_pp st = pp -> st_ledger st = ledger ->
  construct_wraps_proof (st_pp st) (st_genesis st) (st_prev st).1 next (st_running st)
    (hints_key i) ms = Ok out ->
  setup_compressed_verifier pp = Ok vkc -> accepted pp g gh (hints_key i) out ->
  proven_rotation st vkc next (hints_key i) ms = Ok out.1.
Proof.
move=> ppE lE cE kE [vkc']; rewrite kE => -[<-] /(_ _ ledgerD) [uT cT].
rewrite /proven_rotation rtE /= cE; case: out cE uT cT => u cp /= _ uT cT.
by rewrite rtE /= rtE /= lE cT /= rtE /= rtE /= ppE uT /= rtE.
Qed.

(** What holds of a checkpoint after [i] rotations. *)
Record good_state (i : nat) (st : DemoState) : Prop := {
  gs_pp : st_pp st = pp;
  gs_genesis : st_genesis st = g;
  gs_ledger : st_ledger st = ledger;
  gs_completed : st_completed st = i;
  gs_prev : exists d, [/\ lucky d, st_prev st = (book d, book_keys d) &
                          chain_at i (book d) (st_running st)]
}.

Definition at_checkpoint (i : nat) (b : bytes) : Prop :=
  exists2 st, restore_checkpoint b = Ok st & good_state i st.

Lemma saved i st : good_state i st -> exists2 b, save_checkpoint st = Ok b & at_checkpoint i b.
Proof.
move=> gs; have [b bE bD] := @encode_ok _ _ state_codec_laws st.
exists b; first by rewrite /save_checkpoint bE.
by exists st => //; rewrite /restore_checkpoint bD /= bE /= eqxx.
Qed.

Lemma refused_minorityE st d next i msg seed : lucky d ->
  st_pp st = pp -> st_genesis st = g -> st_prev st = (book d, book_keys d) ->
  decode msg = Ok (book_hash next, compute_hints_vk_hash (hints_key i)) ->
  refused_minority st msg next (hints_key i) seed = Ok tt.
Proof.
move=> ld ppE gE pE mE; rewrite /refused_minority pE size_book ppE gE.
have [sig tE vE] := insufficient_signs false seed ld mE.
by rewrite tE /=; have [e ->] := construct_refused (st_running st) mE vE.
Qed.

Lemma rotate_ok i st draws : good_state i st -> lucky (rd_next draws) ->
  exists2 b, rotate st draws = Ok b & at_checkpoint i.+1 b.
Proof.
case=> ppE gE lE iE [d [ld pE ch]] ln.
have [d' [ld' nE n0]] : exists d', [/\ lucky d',
    (if st_completed st == 0%N then Ok (st_prev st) else random_address_book (rd_next draws)) =
      Ok (book d', book_keys d') & i = 0%N -> d' = d].
  rewrite iE pE; case: eqP => [_|i0]; first by exists d.
  by exists (rd_next draws); split=> //; exact: random_address_bookE.
have vn : verify_address_book (book d') by apply: book_valid (lucky_usable ld').
have [msg mE mD] := rotation_message (hints_key i) vn.
have m0 : i = 0%N -> msg = ledger.
  move=> i0; move: mE ch; rewrite (n0 i0) i0 /= => mE [_ e0].
  by move: mE; rewrite e0 ledgerE => -[].
have [sig sgE vE] := @signed_rotationE d msg _ (rd_sign draws) ld mD.
have en : i = 0%N -> book d' = book d by move=> /n0 ->.
have [out [cE ch' acc]] := construct_next (lucky_usable ld) ch en vn mD vE.
have [vkc kE _] := acc.
have prE := @proven_rotationE st vkc (book d') _ out i ppE lE _ kE acc.
rewrite ppE gE pE in prE; have {}prE := prE _ cE.
have rE := @refused_minorityE st d (book d') i msg (rd_short draws) ld ppE gE pE mD.
have [b bE at_b] : exists2 b, save_checkpoint (MkDemoState pp g ledger (book d', book_keys d')
    (Some out.1) i.+1) = Ok b & at_checkpoint i.+1 b.
  by apply: saved; split=> //; exists d'.
exists b => //; rewrite /rotate ppE kE /= nE /= iE rtE /= lE (rotation_bytesE mE m0) /=.
by rewrite pE sgE /= prE /= rE /= gE.
Qed.

(** A rotation that can be proven shows that the parameters have a verifier. *)
Lemma setup_returns msg bv sig : decode msg = Ok (g, gh) ->
  verify_signature (book d0) msg (bv, sig) = Ok true ->
  exists vkc, setup_compressed_verifier pp = Ok vkc.
Proof.
move=> mD vE; have vn : verify_address_book (book d0) by apply: book_valid usable0.
have [out [_ _ [vkc kE _]]] := @construct_next 0 d0 (book d0) None msg bv sig usable0
  (conj erefl erefl) (fun _ => erefl) vn mD vE.
by exists vkc.
Qed.

Lemma demo_loop_ok i b draws fuel : (i <= num_steps)%N -> at_checkpoint i b ->
  (forall j, lucky (rd_next (draws j))) -> (num_steps - i < fuel)%N ->
  exists2 st, demo_loop fuel draws b = Ok (Some st) & good_state num_steps st.
Proof.
move=> le at_b ld; have [k kE] : exists k, k = (num_steps - i)%N by exists (num_steps - i)%N.
rewrite -kE; elim: k i b fuel le at_b kE => [|k IH] i b [|fuel] le [st rE gs] kE // lt.
  have iE : i = num_steps by apply/eqP; rewrite eqn_leq le -subn_eq0 -kE.
  exists st; last by rewrite -iE.
  have := gs_prev gs; rewrite iE => -[d [_ _ [out roE _]]].
  by rewrite /= rE /= (gs_completed gs) iE roE.
have [b' bE at_b'] := rotate_ok gs (ld i).
have lt' : (i < num_steps)%N by rewrite -subn_gt0 -kE.
have [|st' lE gs'] := IH i.+1 b' fuel lt' at_b' _ lt; first by rewrite subnS -kE.
exists st' => //; rewrite /= rE /= (gs_completed gs) le /=.
have -> : (~~ isSome (st_running st) == (i == 0%N)) = true.
  have [d [_ _ ch]] := gs_prev gs; case: (i) ch => [[-> _]|j [out -> _]] //.
by rewrite (ltn_eqF lt') /= bE.
Qed.
End Rotation.

(** C7: the system works end to end.  When the parameters load and the drawn books have
    distinct keys other than the identity, and joint keys for the two committees, the
    demonstration runs to its end: all its assertions hold through ten rotations of
    serialized checkpoints (three signing rounds and an aggregation each, the signature
    and both proofs accepted, the minority refused), eleven iterations of fuel are
    enough, and the last running proof is accepted for the genesis ledger id. *)
Theorem demo_completes rngs k env d0 draws pp fuel :
  load_public_params rngs k (ptau_dir env) = Ok pp ->
  lucky d0 -> (forall i, lucky (rd_next (draws i))) -> (num_steps < fuel)%N ->
  exists st u,
  [/\ demo_main fuel rngs k env d0 draws = Ok (Some st), st_completed st = num_steps,
      st_running st = Some u,
      compute_rotation_message (book d0) (hints_key 0) = Ok (st_ledger st) &
      verify_uncompressed_wraps_proof pp u (st_ledger st) (hints_key num_steps.-1) = Ok true].
Proof.
move=> lE l0 ld lt; have [c0 pcE sE] := load_inv lE; have us := lucky_usable l0.
have vb : verify_address_book (book d0) by apply: book_valid us.
have [ledger mE mD] := rotation_message (hints_key 0) vb.
have [sig0 _ vE0] := @sufficient_signs d0 ledger _ false (fun _ => [::]) l0 mD.
have [vkc kE] := setup_returns pcE sE us mD vE0.
have [b bE at_b] : exists2 b, save_checkpoint (MkDemoState pp (book_hash (book d0)) ledger
    (book d0, book_keys d0) None 0) = Ok b & at_checkpoint pp d0 ledger 0 b.
  by apply: saved; split=> //; exists d0.
have [st loE [ppE gE leE cE [d [_ _ [out rE [[vkc' _ acc] _]]]]]] :=
  demo_loop_ok pcE sE us mE (leq0n num_steps) at_b ld lt.
exists st, out.1; split=> //; [|by rewrite leE|by rewrite leE; case: (acc ledger mD)].
rewrite /demo_main /prepare rtE /= lE /= rtE /= kE /=.
have [vkb vkbE _] := @encode_ok _ _ (codec_laws TKey) vkc.
rewrite vkbE /= rtE /= random_address_bookE /= compute_addressbook_hashE vb /= rtE /= mE /= rtE /=.
by rewrite rtE /= rtE /= compute_addressbook_hashE hold_open_valid //= rtE /= bE.
Qed.
End Driver.
