(* ===== verification/DemoToy.v ===== *)
(** * The demonstration, instantiated

    Over the rational curve and the Nova of [NovaToy], with pickled codecs, a book of
    sixteen seats meets the conditions of the demonstration. *)
From Stdlib Require Import Strings.Byte Strings.String NArith Lia.
From S2P Require Import Prelude SeqFacts WrapsErrors WrapsEngine WrapsUtils Schnorr Multisig.
From S2P Require Import AddressBook Signing SigningFacts Circuit CircuitFacts CircuitSound.
From S2P Require Import CircuitComplete CircuitAdequacy CircuitToy WrapsProof WrapsChain.
From S2P Require Import ChainTheorems NovaToy Demo DemoFacts.
From mathcomp Require Import ssreflect ssrfun ssrbool eqtype ssrnat seq choice.
From mathcomp Require Import fintype tuple bigop ssralg ssrnum ssrint rat zmodp.
Import GRing.Theory.
Set Warnings "-rewrite-rw".
Set Implicit Arguments.
Unset Strict Implicit.
Unset Printing Implicit Defensive.

(** ** Codecs: every type of the demonstration is countable *)
Section Codes.
Abbreviation F := 'F_97.
Abbreviation E := rat_curve.
Abbreviation N := (@replay_nova rat_curve rat_bits rat_proving).

Fixpoint codes (t : ty) : countType :=
  match t with
  | TBool => bool
  | TBytes | TSeed | TR1 => seq nat
  | TPath => seq nat
  | TParams | TKey => unit
  | TPhase | TWeight => nat
  | TBits => BitVector
  | TBase => rat
  | TScalar | TPoint | TR2 => F
  | TPoK => (F * F * F)%type
  | TSignature | TR3 => (rat * F)%type
  | TPair a b => (codes a * codes b)%type
  | TSeq a => seq (codes a)
  | TOpt a => option (codes a)
  end.

Definition byte_codes (b : bytes) : seq nat := map Byte.to_nat b.
Definition codes_byte (c : seq nat) : bytes := map toy_byte c.
Definition phase_code (p : SigningProtocolPhase) : nat :=
  match p with R1 => 0 | R2 => 1 | R3 => 2 | Aggregate => 3 end.
Definition code_phase (n : nat) : SigningProtocolPhase :=
  match n with 0 => R1 | 1 => R2 | 2 => R3 | _ => Aggregate end.

Fixpoint to_codes (t : ty) : @denote E N t -> codes t :=
  match t with
  | TBool => fun b => b
  | TBytes | TSeed => byte_codes
  | TPath => fun s => byte_codes (list_byte_of_string s)
  | TParams => fun _ => tt
  | TKey => fun _ => tt
  | TPhase => phase_code
  | TBits => fun v => v
  | TBase => fun x => x
  | TScalar | TPoint => fun x => x
  | TPoK => fun p => (pok_commitment p, pok_challenge_field p, pok_response p)
  | TWeight => N.to_nat
  | TSignature => sig_code
  | TR1 => fun m => byte_codes (nonce_commitment m)
  | TR2 => fun m => nonce_point m
  | TR3 => fun m => sig_code (partial_signature m)
  | TPair a b => fun x => (to_codes x.1, to_codes x.2)
  | TSeq a => fun s => map (@to_codes a) s
  | TOpt a => fun o => omap (@to_codes a) o
  end.

Fixpoint of_codes (t : ty) : codes t -> @denote E N t :=
  match t with
  | TBool => fun b => b
  | TBytes | TSeed => codes_byte
  | TPath => fun c => string_of_list_byte (codes_byte c)
  | TParams => fun _ => tt
  | TKey => fun _ => @MkCompressedVerifyingKey E N tt
  | TPhase => code_phase
  | TBits => fun v => v
  | TBase => fun x => x
  | TScalar | TPoint => fun x => x
  | TPoK => fun c => @MkSchnorrPoK E c.1.1 c.1.2 c.2
  | TWeight => N.of_nat
  | TSignature => code_sig
  | TR1 => fun c => MkRound1 (codes_byte c)
  | TR2 => fun c => @MkRound2 E c
  | TR3 => fun c => MkRound3 (code_sig c)
  | TPair a b => fun x => (of_codes x.1, of_codes x.2)
  | TSeq a => fun s => map (@of_codes a) s
  | TOpt a => fun o => omap (@of_codes a) o
  end.

Lemma byte_codesK : cancel byte_codes codes_byte.
Proof. exact: mapK byte_natK. Qed.

Lemma to_codesK t : cancel (@to_codes t) (@of_codes t).
Proof.
elim: t => //=; try exact: byte_codesK.
- by move=> s; rewrite byte_codesK string_of_list_byte_of_string.
- by case.
- by case=> -[].
- by case.
- by case.
- by move=> x; rewrite N2Nat.id.
- by case.
- by case=> b; rewrite byte_codesK.
- by case.
- by case=> -[].
- by move=> a Ka b Kb [x y] /=; rewrite Ka Kb.
- by move=> a Ka; exact: mapK Ka.
- by move=> a Ka [x|] //=; rewrite Ka.
Qed.

(** Objects and states, through the codes of their parts. *)
Abbreviation TState := (TPair (TPair (TPair TBase TBytes) (TPair TBook (TSeq TScalar)))
  (TOpt TBytes)).

Definition object_code (o : @SigningProtocolObject E) : codes TBytes + codes TMultisig :=
  match o with
  | ProtocolMessage m => inl (@to_codes TBytes m)
  | ProtocolOutput s => inr (@to_codes TMultisig s)
  end.
Definition code_object (c : codes TBytes + codes TMultisig) : @SigningProtocolObject E :=
  match c with
  | inl m => ProtocolMessage (@of_codes TBytes m)
  | inr s => ProtocolOutput (@of_codes TMultisig s)
  end.
Lemma object_codeK : cancel object_code code_object.
Proof.
case=> x; rewrite /code_object /object_code; [congr ProtocolMessage|congr ProtocolOutput].
  exact: (@to_codesK TBytes).
exact: (@to_codesK TMultisig).
Qed.

Definition state_code (st : @DemoState E N) : codes TState * nat :=
  (@to_codes TState (st_genesis st, st_ledger st, st_prev st, st_running st), st_completed st).
Definition code_state (c : codes TState * nat) : @DemoState E N :=
  let: (g, l, p, r) := @of_codes TState c.1 in @MkDemoState E N tt g l p r c.2.
Lemma state_codeK : cancel state_code code_state.
Proof.
case=> -[] g l p r n; rewrite /code_state /state_code.
by rewrite (@to_codesK TState).
Qed.
End Codes.

#[export] Instance rat_demo_codecs : DemoCodecs (@replay_nova rat_curve rat_bits rat_proving) := {|
  codec := fun t => @pickled _ (codes t) (@to_codes t) (@of_codes t);
  object_codec := @pickled _ _ object_code code_object;
  state_codec := @pickled _ _ state_code code_state
|}.

#[export] Instance rat_demo_codec_laws : DemoCodecLaws rat_demo_codecs.
Proof.
split=> [t||]; apply: pickled_laws; [exact: to_codesK|exact: object_codeK|exact: state_codeK].
Qed.

(** ** A lucky book *)

Definition toy_draws : BookDraws :=
  MkBookDraws 16 (fun i => [:: toy_byte i]) (fun _ => 500%num).

Definition toy_rotation_draws (_ : nat) : RotationDraws :=
  MkRotationDraws toy_draws (fun i => [:: toy_byte i]) (fun i => [:: toy_byte i]).

Lemma toy_good : @good_draws rat_curve toy_draws.
Proof.
split.
- split=> // i; rewrite /toy_draws /=; lia.
- by vm_compute.
- by vm_compute.
Qed.

Lemma toy_lucky : @lucky rat_curve toy_draws.
Proof.
split; first exact: toy_good.
all: rewrite /joint (book_subset _ (good_usable toy_good)) /joint_key unlock; by vm_compute.
Qed.

(** ** The demonstration *)

Lemma demo_completes_witness :
  exists st u,
  [/\ @demo_main rat_curve rat_codecs replay_nova rat_proof_codecs rat_demo_codecs 11 chain_rngs
        1%R None toy_draws toy_rotation_draws = Ok (Some st),
      st_completed st = 10, st_running st = Some u,
      compute_rotation_message (@book rat_curve toy_draws) (hints_key 0) = Ok (st_ledger st) &
      verify_uncompressed_wraps_proof (tt : @PublicParams rat_curve replay_nova) u (st_ledger st)
        (hints_key 9) = Ok true].
Proof.
exact: (demo_completes (draws := toy_rotation_draws) (env := None)
  (chain_load 1%R (ptau_dir None)) toy_lucky (fun _ => toy_lucky) (isT : (num_steps < 11)%N)).
Defined.
