(* ===== verification/Stats.v ===== *)
(** * [examples/stats.rs]: three rotations, measured

    The second example program: committees of three equal weights, two of whom sign
    each of three linked rotations.  Every value crosses its codec ([round_trip] is the
    one of [Demo]).  The report of sizes and the report of timings are maps whose
    insertions assert that no name is reported twice; the durations themselves and the
    printed tables are left out, the randomness of the operating system is an argument. *)
From Stdlib Require Import Strings.Byte Strings.String NArith.
From S2P Require Import Prelude SeqFacts WrapsErrors WrapsEngine WrapsUtils Schnorr Multisig.
From S2P Require Import AddressBook Signing Circuit WrapsProof Demo.
From HB Require Import structures.
From mathcomp Require Import ssreflect ssrfun ssrbool eqtype ssrnat seq.
From mathcomp Require Import fintype tuple bigop ssralg.
Import GRing.Theory.
Set Warnings "-rewrite-rw".
Set Implicit Arguments.
Unset Strict Implicit.
Unset Printing Implicit Defensive.

HB.instance Definition _ := hasDecEq.Build string String.eqb_spec.

(** ** The two reports *)

(** [assert!(map.insert(name, v).is_none())] on a [BTreeMap] *)
Definition insert_new {V : Type} (m : seq (string * V)) (name : string) (v : V) :
    demo (seq (string * V)) :=
  let* _ := demo_assert (name \notin unzip1 m) in Ok ((name, v) :: m).

(** [struct SizeReport] *)
Record SizeReport : Type := MkSizeReport {
  sr_enabled : bool;
  sr_types : seq (string * nat);
  sr_artifacts : seq (string * nat)
}.

(** [SizeReport::new] *)
Definition size_report (enabled : bool) : SizeReport := MkSizeReport enabled [::] [::].

(** [SizeReport::size] *)
Definition report_size {T : Type} (B : Bincode T) (r : SizeReport) (name : string) (value : T) :
    demo SizeReport :=
  if sr_enabled r then
    let* bs := expect_ok (encode value) in
    let* types := insert_new (sr_types r) name (size bs) in
    Ok (MkSizeReport (sr_enabled r) types (sr_artifacts r))
  else Ok r.

(** [SizeReport::artifact] *)
Definition report_artifact (r : SizeReport) (name : string) (n : nat) : demo SizeReport :=
  if sr_enabled r then
    let* artifacts := insert_new (sr_artifacts r) name n in
    Ok (MkSizeReport (sr_enabled r) (sr_types r) artifacts)
  else Ok r.

(** [struct TimingReport], with the number of calls of each method. *)
Record TimingReport : Type := MkTimingReport {
  tr_enabled : bool;
  tr_methods : seq (string * nat)
}.

(** [TimingReport::new] *)
Definition timing_report (enabled : bool) : TimingReport := MkTimingReport enabled [::].

(** [timing.calls += 1] on [methods.entry(method).or_default()] *)
Definition count_call (ms : seq (string * nat)) (method : string) : seq (string * nat) :=
  if method \in unzip1 ms then [seq if e.1 == method then (e.1, e.2.+1) else e | e <- ms]
  else (method, 1) :: ms.

(** [TimingReport::measure]; the [expect] on a result is made part of the call. *)
Definition measure {A : Type} (t : TimingReport) (method : string) (call : demo A) :
    demo (A * TimingReport) :=
  let* value := call in
  Ok (value, if tr_enabled t then MkTimingReport (tr_enabled t) (count_call (tr_methods t) method)
             else t).

(** [TimingReport::print]: the methods of the setup and of the rotation are disjoint. *)
Definition print_timings (t setup : TimingReport) : demo unit :=
  if ~~ tr_enabled t then Ok tt
  else
    let* _ := foldM (fun m e => insert_new m e.1 e.2) [::] (tr_methods setup ++ tr_methods t) in
    Ok tt.

Section Stats.
Context {E : CurveEngine} {C : SigningCodecs E} {N : Nova E} {PCo : ProofCodecs N}.
Context {D : DemoCodecs N}.
Local Open Scope string_scope.

(** ** [random_address_book] *)

(** One iteration of the loop over the members. *)
Definition random_member (seed : nat -> bytes)
    (st : TimingReport * AddressBook * seq Scalar) (member : nat) :
    demo (TimingReport * AddressBook * seq Scalar) :=
  let: (timings, address_book, keys) := st in
  let* seed := rt TSeed (seed member) in
  let* (generated, timings) := measure timings "WRAPS::keygen" (Ok (wraps_keygen seed)) in
  let* (sk, (pk, pok)) := rt (TPair TScalar TAttested) generated in
  let* sk := rt TScalar sk in
  let* pk := rt TPoint pk in
  let* pok := rt TPoK pok in
  let* attested := rt TAttested (pk, pok) in
  let* entry := rt TEntry (base_from (N.of_nat member), attested, 1%num) in
  Ok (timings, rcons address_book entry, rcons keys sk).

Definition random_address_book (seed : nat -> bytes) (timings : TimingReport) :
    demo (AddressBook * seq Scalar * TimingReport) :=
  let* (timings, address_book, keys) :=
    foldM (random_member seed) (timings, [::], [::]) (iota 0 3) in
  let* keys := rt (TSeq TScalar) keys in
  let* address_book := rt TBook address_book in
  Ok (address_book, keys, timings).

(** ** [sign] *)

Definition signers : seq nat := [:: 0; 2].

Abbreviation TInputs := (TPair (TPair (TPair (TPair (TPair (TPair (TPair (TPair TPhase
  (TOpt TSeed)) TBytes) (TOpt TScalar)) TBook) TBits) TMessages) TMessages) TMessages).

Section Sign.
Variables (message : bytes) (address_book : AddressBook) (keys : seq Scalar).
Variables (bitvector : BitVector) (entropy : seq bytes).

(** The closure [run]. *)
Definition run (phase : SigningProtocolPhase) (signer : option nat) (key : option Scalar)
    (r1 r2 r3 : seq bytes) (timings : TimingReport) : demo (SigningProtocolObject * TimingReport) :=
  let* phase := rt TPhase phase in
  let* seed := if signer is Some i then let* s := vec_get entropy i in Ok (Some s) else Ok None in
  let* seed := rt (TOpt TSeed) seed in
  let* key := rt (TOpt TScalar) key in
  let* (phase, seed, message, key, book, bits, r1, r2, r3) :=
    rt TInputs (phase, seed, message, key, address_book, bitvector, r1, r2, r3) in
  let* (output, timings) := measure timings "WRAPS::signing_protocol"
    (expect_ok (signing_protocol phase seed message key book (tval bits) r1 r2 r3)) in
  let* output := round_trip object_codec output in
  Ok (output, timings).

(** One round: each signer's outgoing message, as received. *)
Definition broadcast (turn : nat -> TimingReport -> demo (SigningProtocolObject * TimingReport))
    (timings : TimingReport) : demo (seq bytes * TimingReport) :=
  let* (round, timings) := foldM (fun (st : seq bytes * TimingReport) i =>
      let: (round, timings) := st in
      let* (object, timings) := turn i timings in
      if object is ProtocolMessage outgoing then
        let* received := rt TBytes outgoing in Ok (rcons round received, timings)
      else Panic)
    ([::], timings) (iota 0 (size signers)) in
  let* round := rt TMessages round in
  Ok (round, timings).

(** The three rounds and the aggregation. *)
Definition sign_rounds (timings : TimingReport) :
    demo (seq bytes * seq bytes * seq bytes * SchnorrMultiSignature * TimingReport) :=
  let* (round1, timings) :=
    broadcast (fun i => run R1 (Some i) None [::] [::] [::]) timings in
  let* (round2, timings) :=
    broadcast (fun i => run R2 (Some i) None round1 [::] [::]) timings in
  let* (round3, timings) :=
    broadcast (fun i timings =>
      let* member := vec_get signers i in
      let* key := vec_get keys member in
      run R3 (Some i) (Some key) round1 round2 [::] timings) timings in
  let* (object, timings) := run Aggregate None None round1 round2 round3 timings in
  if object is ProtocolOutput (bits, signature) then
    let* signature := rt TSignature signature in
    let* multisignature := rt TMultisig (bits, signature) in
    let* _ := demo_assert (multisignature.1 == bitvector) in
    Ok (round1, round2, round3, multisignature, timings)
  else Panic.
End Sign.

(** [inspect_round_message] *)
Definition inspect_round_message (bs : bytes) : demo RoundMessage :=
  let* message := expect_ok (@decode RoundMessage round_codec bs) in
  let* again := expect_ok (@encode RoundMessage round_codec message) in
  let* _ := demo_assert (again == bs) in
  Ok message.

(** The sizes that [sign] reports of its multisignature, *)
Definition report_signature (report : SizeReport) (bitvector : BitVector)
    (multisignature : SchnorrMultiSignature) : demo SizeReport :=
  let* report := report_size (codec TBits) report "BitVector" bitvector in
  let* report := report_size (codec TBase) report "SchnorrChallenge<E2>" (sig_e multisignature.2) in
  let* report := report_size (codec TScalar) report "SchnorrResponse<E2>" (sig_s multisignature.2) in
  let* report := report_size (codec TSignature) report "Signature<E2>" multisignature.2 in
  let* report := report_size (codec TMultisig) report "SchnorrMultiSignature<E2>" multisignature in
  report_size (codec TPhase) report "SigningProtocolPhase" R1.

(** of the first message of each round, *)
Definition report_round1 (report : SizeReport) (round1 : seq bytes) : demo SizeReport :=
  let* first := vec_get round1 0 in
  let* decoded := inspect_round_message first in
  if decoded is Round1 payload then
    let* payload := rt TR1 payload in
    let* report := report_size (codec TR1) report "MultisigRound1" payload in
    let* report := report_size round_codec report "RoundMessage<E2>::Round1" decoded in
    report_size (codec TBytes) report "SigningProtocolMessage (round 1)" first
  else Panic.
Definition report_round2 (report : SizeReport) (round2 : seq bytes) : demo SizeReport :=
  let* first := vec_get round2 0 in
  let* decoded := inspect_round_message first in
  if decoded is Round2 payload then
    let* payload := rt TR2 payload in
    let* report := report_size (codec TR2) report "MultisigRound2<E2>" payload in
    let* report := report_size round_codec report "RoundMessage<E2>::Round2" decoded in
    report_size (codec TBytes) report "SigningProtocolMessage (round 2)" first
  else Panic.
Definition report_round3 (report : SizeReport) (round3 : seq bytes) : demo SizeReport :=
  let* first := vec_get round3 0 in
  let* decoded := inspect_round_message first in
  if decoded is Round3 payload then
    let* payload := rt TR3 payload in
    let* _ := rt TSignature (partial_signature payload) in
    let* report := report_size (codec TR3) report "MultisigRound3<E2>" payload in
    let* report := report_size round_codec report "RoundMessage<E2>::Round3" decoded in
    report_size (codec TBytes) report "SigningProtocolMessage (round 3)" first
  else Panic.

(** and of the objects that signing_protocol returns. *)
Definition report_objects (report : SizeReport) (round1 round2 round3 : seq bytes)
    (multisignature : SchnorrMultiSignature) : demo SizeReport :=
  let* first := vec_get round1 0 in
  let* report := report_size object_codec report
    "SigningProtocolObject::ProtocolMessage (round 1)" (ProtocolMessage first) in
  let* first := vec_get round2 0 in
  let* report := report_size object_codec report
    "SigningProtocolObject::ProtocolMessage (round 2)" (ProtocolMessage first) in
  let* first := vec_get round3 0 in
  let* report := report_size object_codec report
    "SigningProtocolObject::ProtocolMessage (round 3)" (ProtocolMessage first) in
  report_size object_codec report
    "SigningProtocolObject<E2>::ProtocolOutput" (ProtocolOutput multisignature).

Definition sign (message : bytes) (address_book : AddressBook) (keys : seq Scalar)
    (seed : nat -> bytes) (report : SizeReport) (timings : TimingReport) :
    demo (SchnorrMultiSignature * SizeReport * TimingReport) :=
  let* bitvector := rt TBits (from_fn (fun i => i \in signers)) in
  let* entropy := rt (TSeq TSeed) (mkseq seed (size signers)) in
  let* (round1, round2, round3, multisignature, timings) :=
    sign_rounds message address_book keys bitvector entropy timings in
  let* report := report_signature report bitvector multisignature in
  let* report := report_round1 report round1 in
  let* report := report_round2 report round2 in
  let* report := report_round3 report round3 in
  let* report := report_objects report round1 round2 round3 multisignature in
  Ok (multisignature, report, timings).

(** [report_address_book_types] *)
Definition report_address_book_types (report : SizeReport) (book : AddressBook) (keys : seq Scalar) :
    demo SizeReport :=
  let* entry := vec_get book 0 in
  let: (public_key, pok) := entry.1.2 in
  let* report := report_size (codec TBase) report "Base" entry.1.1 in
  let* key := vec_get keys 0 in
  let* report := report_size (codec TScalar) report "SchnorrSecretKey<E2>" key in
  let* report := report_size (codec TPoint) report "SchnorrPublicKey<E2>" public_key in
  let* report := report_size (codec TPoK) report "SchnorrPoK<E2>" pok in
  let* report := report_size (codec TScalar) report "SchnorrPoKChallenge<E2>"
    (pok_challenge_field pok) in
  let* report := report_size (codec TAttested) report "SchnorrAttestedPubKey<E2>" entry.1.2 in
  let* report := report_size (codec TWeight) report "Weight" entry.2 in
  let* report := report_size (codec TBase) report "NodeId<E2>" entry.1.1 in
  let* report := report_size (codec TEntry) report "AddressBookEntry<E2>" entry in
  report_size (codec TBook) report "AddressBook<E2>" book.

(** ** [main] *)

Definition ROTATIONS : nat := 3.

(** The values that outlive a rotation. *)
Section Rotation.
Variables (pp : @PublicParams E N) (vk : CompressedVerifyingKey) (vk_bytes : bytes).
Variables (genesis_hash : Base) (ledger_id : bytes) (setup_timings : TimingReport).

(** The sizes that a rotation reports first. *)
Definition report_setup (report : SizeReport) (previous : AddressBook * seq Scalar) :
    demo SizeReport :=
  let* report := report_size (codec TParams) report "PublicParams" pp in
  let* report := report_artifact report "Full verification key (bincode)" (size vk_bytes) in
  let* report := report_size (codec TBase) report "AddressBookHash<E2>" genesis_hash in
  let* report := report_artifact report "Ledger ID (genesis rotation message)" (size ledger_id) in
  report_address_book_types report previous.1 previous.2.

(** The successor's book, the hints key and the message that rotates to them. *)
Definition propose (rotation : nat) (next : AddressBook) (report : SizeReport)
    (timings : TimingReport) : demo (AddressBook * bytes * bytes * SizeReport * TimingReport) :=
  let* (next_hash, timings) := measure timings "WRAPS::compute_addressbook_hash"
    (expect_ok (compute_addressbook_hash next)) in
  let* next_hash := rt TBase next_hash in
  let* hints_vk := rt TBytes (hints_key rotation) in
  let* (hints_vk_hash, timings) := measure timings "WRAPS::compute_hints_vk_hash"
    (Ok (compute_hints_vk_hash hints_vk)) in
  let* hints_vk_hash := rt TBase hints_vk_hash in
  let* (next_book, hints_vk) := rt (TPair TBook TBytes) (next, hints_vk) in
  let* (message, timings) := measure timings "WRAPS::compute_rotation_message"
    (expect_ok (compute_rotation_message next_book hints_vk)) in
  let* message := rt TBytes message in
  let* decoded_message := expect_ok (@decode RotationMessage rotation_codec message) in
  let* _ := demo_assert (decoded_message == (next_hash, hints_vk_hash)) in
  let* again := expect_ok (@encode RotationMessage rotation_codec decoded_message) in
  let* _ := demo_assert (again == message) in
  let* _ := if rotation == 0 then demo_assert (message == ledger_id) else Ok tt in
  let* report := report_size (codec TBase) report "HintsVKHash<E2>" hints_vk_hash in
  let* report := report_size rotation_codec report "RotationMessage<E2>" decoded_message in
  Ok (next_book, hints_vk, message, report, timings).

(** The signature of two of the three members, verified. *)
Definition attest (message : bytes) (previous : AddressBook * seq Scalar) (seed : nat -> bytes)
    (report : SizeReport) (timings : TimingReport) :
    demo (AddressBook * SchnorrMultiSignature * SizeReport * TimingReport) :=
  let* (multisignature, report, timings) :=
    sign message previous.1 previous.2 seed report timings in
  let* (book, message, multisignature) :=
    rt (TPair (TPair TBook TBytes) TMultisig) (previous.1, message, multisignature) in
  let* (ok, timings) := measure timings "WRAPS::verify_signature"
    (expect_ok (verify_signature book message multisignature)) in
  let* ok := rt TBool ok in
  let* _ := demo_assert ok in
  Ok (book, multisignature, report, timings).

Abbreviation TConstruct :=
  (TPair (TPair (TPair (TPair (TPair TBase TBook) TBook) (TOpt TBytes)) TBytes) TMultisig).

(** The two proofs, verified; the running one is returned. *)
Definition fold_and_check (rotation : nat) (running_proof : option bytes) (book next_book : AddressBook)
    (hints_vk : bytes) (multisignature : SchnorrMultiSignature) (report : SizeReport)
    (timings : TimingReport) : demo (bytes * SizeReport * TimingReport) :=
  let* _ := demo_assert (~~ isSome running_proof == (rotation == 0)) in
  let* previous_proof := rt (TOpt TBytes) running_proof in
  let* (proof_genesis, prev_book, next_book, previous_proof, proof_hints, signature) :=
    rt TConstruct (genesis_hash, book, next_book, previous_proof, hints_vk, multisignature) in
  let* (proofs, timings) := measure timings "WRAPS::construct_wraps_proof"
    (expect_ok (construct_wraps_proof pp proof_genesis prev_book next_book previous_proof
      proof_hints signature)) in
  let* report := report_artifact report "Running proof (bincode)" (size proofs.1) in
  let* report := report_artifact report "Compressed proof (bincode)" (size proofs.2) in
  let* (running, compressed) := rt (TPair TBytes TBytes) proofs in
  let* running := rt TBytes running in
  let* compressed := rt TBytes compressed in
  let* (compressed, proof_ledger_id, proof_hints) :=
    rt (TPair (TPair TBytes TBytes) TBytes) (compressed, ledger_id, proof_hints) in
  let* (ok, timings) := measure timings "WRAPS::verify_compressed_wraps_proof"
    (expect_ok (verify_compressed_wraps_proof vk compressed proof_ledger_id proof_hints)) in
  let* ok := rt TBool ok in
  let* _ := demo_assert ok in
  let* (running, proof_ledger_id, proof_hints) :=
    rt (TPair (TPair TBytes TBytes) TBytes) (running, proof_ledger_id, proof_hints) in
  let* (ok, timings) := measure timings "WRAPS::verify_uncompressed_wraps_proof"
    (expect_ok (verify_uncompressed_wraps_proof pp running proof_ledger_id proof_hints)) in
  let* ok := rt TBool ok in
  let* _ := demo_assert ok in
  Ok (running, report, timings).

(** One iteration of the loop, given the seeds of its committee and of its signers. *)
Definition rotate (keygen_seed sign_seed : nat -> nat -> bytes)
    (st : (AddressBook * seq Scalar) * option bytes) (rotation : nat) :
    demo ((AddressBook * seq Scalar) * option bytes) :=
  let: (previous, running_proof) := st in
  let report := size_report (rotation.+1 == ROTATIONS) in
  let timings := timing_report (rotation.+1 == ROTATIONS) in
  let* report := report_setup report previous in
  let* (next, timings) :=
    if rotation == 0 then Ok (previous, timings)
    else random_address_book (keygen_seed rotation) timings in
  let* (next_book, hints_vk, message, report, timings) := propose rotation next.1 report timings in
  let* (book, multisignature, report, timings) :=
    attest message previous (sign_seed rotation) report timings in
  let* (running, report, timings) :=
    fold_and_check rotation running_proof book next_book hints_vk multisignature report timings in
  let* _ := print_timings timings setup_timings in
  Ok (next, Some running).
End Rotation.

(** [main]; the last committee and running proof are the result. *)
Definition stats_main (rngs : seq (ChaCha20Rng * ChaCha20Rng)) (k : Scalar)
    (wraps_ptau_dir : option string) (keygen_seed sign_seed : nat -> nat -> bytes) :
    demo ((AddressBook * seq Scalar) * option bytes) :=
  let setup_timings := timing_report true in
  let* dir := rt TPath (ptau_dir wraps_ptau_dir) in
  let* (pp, setup_timings) := measure setup_timings "WRAPS::load_public_params"
    (expect_ok (load_public_params rngs k dir)) in
  let* pp := rt TParams pp in
  let* (vk, setup_timings) := measure setup_timings "WRAPS::setup_compressed_verifier"
    (expect_ok (setup_compressed_verifier pp)) in
  let* vk_bytes := expect_ok (@encode _ (codec TKey) vk) in
  let* vk_bytes := rt TBytes vk_bytes in
  let quiet_timings := timing_report false in
  let* (previous, quiet_timings) := random_address_book (keygen_seed 0) quiet_timings in
  let* (h, quiet_timings) := measure quiet_timings "WRAPS::compute_addressbook_hash"
    (expect_ok (compute_addressbook_hash previous.1)) in
  let* genesis_hash := rt TBase h in
  let* m := expect_ok (compute_rotation_message previous.1 (hints_key 0)) in
  let* ledger_id := rt TBytes m in
  foldM (rotate pp vk vk_bytes genesis_hash ledger_id setup_timings keygen_seed sign_seed)
    (previous, None) (iota 0 ROTATIONS).
End Stats.
