(* ===== verification/StatsFacts.v ===== *)
(** * Theorems on the second example program

    No name is reported twice, and with honest randomness the three rotations run to the
    end with every assertion satisfied. *)
From Stdlib Require Import Strings.Byte Strings.String NArith Lia.
From S2P Require Import Prelude SeqFacts WrapsErrors WrapsEngine WrapsUtils Schnorr Multisig.
From S2P Require Import AddressBook Signing SigningFacts SigningTheorems BookTheorems Circuit.
From S2P Require Import CircuitFacts CircuitSound CircuitComplete WrapsProof WrapsChain.
From S2P Require Import ChainTheorems Demo DemoFacts Stats.
From mathcomp Require Import ssreflect ssrfun ssrbool eqtype ssrnat seq.
From mathcomp Require Import fintype tuple bigop ssralg.
Import GRing.Theory.
Set Warnings "-rewrite-rw".
Set Implicit Arguments.
Unset Strict Implicit.
Unset Printing Implicit Defensive.

(** ** Reports *)

Lemma insert_newE V (m : seq (string * V)) n v : n \notin unzip1 m ->
  insert_new m n v = Ok ((n, v) :: m).
Proof. by rewrite /insert_new => ->. Qed.

(** The names in a report, when it is kept. *)
Definition known (r : SizeReport) (types artifacts : seq string) : Prop :=
  sr_enabled r -> unzip1 (sr_types r) = types /\ unzip1 (sr_artifacts r) = artifacts.

Lemma known_new b : known (size_report b) [::] [::].
Proof. by []. Qed.

Lemma size_known T (B : Bincode T) (L : BincodeLaws B) r ts arts n (v : T) :
  known r ts arts -> n \notin ts ->
  exists2 r', report_size B r n v = Ok r' & known r' (n :: ts) arts.
Proof.
rewrite /report_size => k nt; case e: (sr_enabled r); last by exists r => //; rewrite /known e.
have [tE aE] := k e; have [b -> _] := encode_ok v.
by rewrite /= insert_newE ?tE //=; eexists=> //; rewrite /known /= tE aE.
Qed.

Lemma artifact_known r ts arts n v : known r ts arts -> n \notin arts ->
  exists2 r', report_artifact r n v = Ok r' & known r' ts (n :: arts).
Proof.
rewrite /report_artifact => k na; case e: (sr_enabled r); last by exists r => //; rewrite /known e.
have [tE aE] := k e.
by rewrite /= insert_newE ?aE //=; eexists=> //; rewrite /known /= tE aE.
Qed.

(** The methods that the setup measures are not measured again. *)
Definition setup_methods : seq string :=
  [:: "WRAPS::setup_compressed_verifier"; "WRAPS::load_public_params"]%string.
Definition apart (t : TimingReport) : Prop := uniq (setup_methods ++ unzip1 (tr_methods t)).

Lemma apart_new b : apart (timing_report b).
Proof. by []. Qed.

Lemma unzip1_count ms m :
  unzip1 (count_call ms m) = if m \in unzip1 ms then unzip1 ms else m :: unzip1 ms.
Proof.
rewrite /count_call; case: ifP => // _.
by rewrite /unzip1 -map_comp; apply: eq_map => e /=; case: ifP.
Qed.

Lemma measureE A t m (v : A) : apart t -> m \notin setup_methods ->
  exists2 t', measure t m (Ok v) = Ok (v, t') & apart t'.
Proof.
move=> ap nm; rewrite /measure /=; eexists=> //; case: (tr_enabled t) => //.
rewrite /apart [tr_methods _]/= unzip1_count; case: ifP => // nin.
rewrite -[m :: _]cat1s (uniq_catCA setup_methods) cat1s cons_uniq mem_cat (negbTE nm) nin.
exact: ap.
Qed.

Lemma insert_all V (l : seq (string * V)) m : uniq (unzip1 m ++ unzip1 l) ->
  exists m', foldM (fun m e => insert_new m e.1 e.2) m l = Ok m'.
Proof.
elim: l m => [|[n v] l IH] m /= u; first by exists m.
move: u; rewrite -[n :: _]cat1s uniq_catCA cat1s cons_uniq mem_cat negb_or.
by case/andP=> /andP[nm nl] u; rewrite insert_newE //; apply: IH; rewrite /= mem_cat negb_or nm nl.
Qed.

Lemma print_timingsE t setup : unzip1 (tr_methods setup) = setup_methods -> apart t ->
  print_timings t setup = Ok tt.
Proof.
rewrite /print_timings => sE ap; case: (~~ _) => //.
have [|m ->] := @insert_all nat (tr_methods setup ++ tr_methods t) [::]; last by [].
by rewrite /unzip1 map_cat -!/(unzip1 _) sE.
Qed.

(** ** Committees *)
Section Committee.
Context {E : CurveEngine} {L : CurveLaws E} {C : SigningCodecs E} {CL : SigningCodecLaws C}.
Context {N : Nova E} {D : DemoCodecs N} {DL : DemoCodecLaws D}.
Local Open Scope ring_scope.
Implicit Types (seed : nat -> bytes) (t : TimingReport).

(** The draws of [random_address_book] as draws of the demonstration. *)
Definition members seed : BookDraws := MkBookDraws 3 seed (fun _ => 1%num).
Definition chosen : BitVector := from_fn (fun i => i \in signers).

Lemma random_memberE seed t ab keys i : apart t ->
  exists2 t', random_member seed (t, ab, keys) i =
    Ok (t', rcons ab (draw_entry (members seed) i), rcons keys (draw_key (members seed) i)) & apart t'.
Proof.
move=> ap; rewrite /random_member rtE; cbn [bind].
have [t' -> ap'] := measureE (m := "WRAPS::keygen"%string) (wraps_keygen (seed i)) ap isT.
cbn [bind]; exists t' => //; rewrite rtE; cbn [bind].
rewrite /draw_entry /draw_key -[bd_seed _ i]/(seed i); case: (wraps_keygen (seed i)) => sk [pk pok].
by rewrite rtE /= rtE /= rtE /= rtE /= rtE.
Qed.

Lemma stats_bookE seed t : apart t ->
  exists2 t', random_address_book seed t = Ok (book (members seed), book_keys (members seed), t') &
    apart t'.
Proof.
move=> ap; have [t1 e1 ap1] := random_memberE seed [::] [::] 0 ap.
have [t2 e2 ap2] := random_memberE seed [:: draw_entry (members seed) 0] [:: draw_key (members seed) 0] 1 ap1.
have [t3 e3 ap3] := random_memberE seed
  [:: draw_entry (members seed) 0; draw_entry (members seed) 1]
  [:: draw_key (members seed) 0; draw_key (members seed) 1] 2 ap2.
exists t3 => //; rewrite /random_address_book [iota 0 3]/=; cbn [foldM].
rewrite e1; cbn [bind]; rewrite e2; cbn [bind]; rewrite e3; cbn [bind].
by rewrite rtE; cbn [bind]; rewrite rtE.
Qed.

(** Seeds for which the two signers have a joint key. *)
Record fit seed : Prop := {
  fit_usable : usable (members seed);
  fit_joint : joint (book (members seed)) chosen != 0
}.

Lemma chosen_majority seed : usable (members seed) ->
  (total_weight (book (members seed)) < 2 * named_weight (book (members seed)) chosen)%num.
Proof. by move=> us; rewrite /chosen named_from_fn // total_book. Qed.

Definition chosen_keys seed : seq Scalar := [:: draw_key (members seed) 0; draw_key (members seed) 2].

Lemma chosen_session seed entropy msg rotation : fit seed -> decode msg = Ok rotation ->
  session (book (members seed)) (tval chosen) chosen msg rotation (chosen_keys seed)
    (mkseq entropy 2).
Proof.
case=> us j mE.
have cs i : i \in signers -> (i < bd_size (members seed))%N by rewrite !inE => /orP[] /eqP ->.
have := book_session entropy us cs j mE; rewrite /sign_seeds (book_signing_keys _ us).
by move=> /(_ L).
Qed.
End Committee.

(** ** Sessions *)
Section Sessions.
Context {E : CurveEngine} {L : CurveLaws E} {C : SigningCodecs E} {CL : SigningCodecLaws C}.
Context {N : Nova E} {D : DemoCodecs N} {DL : DemoCodecLaws D}.
Local Open Scope ring_scope.
Variables (ab : AddressBook) (keys : seq Scalar) (bv : BitVector) (msg : bytes).
Variables (rotation : RotationMessage) (k0 k2 : Scalar) (entropy : nat -> bytes).
Let sks := [:: k0; k2].
Let seeds := mkseq entropy 2.
Hypothesis keys0 : vec_get keys 0 = Ok k0 :> demo _.
Hypothesis keys2 : vec_get keys 2 = Ok k2 :> demo _.
Hypothesis ses : session ab (tval bv) bv msg rotation sks seeds.
Implicit Types (t : TimingReport).

Lemma runE phase i sk r1 r2 r3 ent o t : apart t ->
  (if i is Some i then exists2 s, ent = Some s & vec_get seeds i = Ok s :> demo _
   else ent = None) ->
  signing_protocol phase ent msg sk ab (tval bv) r1 r2 r3 = Ok o ->
  exists2 t', run msg ab bv seeds phase i sk r1 r2 r3 t = Ok (o, t') & apart t'.
Proof.
move=> ap entE pE; have [t' tE ap'] := measureE (m := "WRAPS::signing_protocol"%string) o ap isT.
exists t' => //; rewrite /run rtE; cbn [bind].
have -> : (if i is Some i then let* s := vec_get seeds i in Ok (Some s) else Ok None) = Ok ent :> demo _.
  by case: i entE => [i [s -> sE]|-> //]; rewrite sE.
by cbn [bind]; do 3 (rewrite rtE; cbn [bind]);
   rewrite pE [expect_ok _]/= tE /= (round_tripE object_codec_laws).
Qed.

Lemma entropy_get i : (i < 2)%N -> vec_get seeds i = Ok (nth [::] seeds i) :> demo _.
Proof. by move=> lt; rewrite (vec_get_lt _ [::]). Qed.

Lemma broadcastE turn ms t : size ms = 2 ->
  (forall i t, (i < 2)%N -> apart t ->
     exists2 t', turn i t = Ok (ProtocolMessage (nth [::] ms i), t') & apart t') ->
  apart t -> exists2 t', broadcast turn t = Ok (ms, t') & apart t'.
Proof.
case: ms => [|m [|m' [|//]]] // _ H ap.
have [t1 e1 ap1] := H 0%N t isT ap; have [t2 e2 ap2] := H 1%N t1 isT ap1.
exists t2 => //; rewrite /broadcast /=.
by rewrite e1 /= rtE /= e2 /= rtE /= rtE.
Qed.
(** A round whose first message encodes a payload. *)
Definition starts_with T (wrap : T -> RoundMessage) (round : seq bytes) : Prop :=
  exists x b bs, round = b :: bs /\ encode (wrap x) = Ok b.

Lemma encoded_starts T (wrap : T -> RoundMessage) xs ms : size ms = 2 ->
  mapM (fun x => encode (wrap x)) xs = Ok ms -> starts_with wrap ms.
Proof.
case: xs => [|x xs] sz /=; first by case=> e; rewrite -e in sz.
by case bE: encode => [b| |] //=; case: mapM => [bs| |] //= -[<-]; exists x, b, bs.
Qed.

Lemma inspectE m b : encode m = Ok b -> inspect_round_message b = Ok m.
Proof. by move=> bE; rewrite /inspect_round_message (encode_inv bE) /= bE /= eqxx. Qed.

Lemma sign_roundsE t : apart t -> exists m1 m2 m3 sig,
  [/\ exists2 t', sign_rounds msg ab keys bv seeds t = Ok (m1, m2, m3, (bv, sig), t') & apart t',
      starts_with Round1 m1, starts_with Round2 m2, starts_with Round3 m3 &
      verify_signature ab msg (bv, sig) = Ok (total_weight ab <? 2 * named_weight ab bv)%num].
Proof.
move=> ap; pose message := message_elements rotation.
have [m1 e1 s1] := encode_rounds Round1 [seq round1 s message | s <- seeds].
have [m2 e2 s2] := encode_rounds Round2 [seq round2 s message | s <- seeds].
have [m3 e3 s3] := encode_rounds Round3 (mkseq (session_share message sks seeds) (size sks)).
have [sig agg] := run_Aggregate ses e1 e2 e3.
have sh1 := encoded_starts s1 e1; have sh2 := encoded_starts s2 e2; have sh3 := encoded_starts s3 e3.
exists m1, m2, m3, sig; split=> //; last exact: output_verdict agg.
have [t1 b1 ap1] : exists2 t', broadcast (fun i => run msg ab bv seeds R1 (Some i) None [::] [::] [::]) t =
    Ok (m1, t') & apart t'.
  apply: broadcastE => // i t' lt ap'; apply: runE (run_R1 ses e1 lt) => //.
  by exists (nth [::] seeds i) => //; exact: entropy_get.
have [t2 b2 ap2] : exists2 t', broadcast (fun i => run msg ab bv seeds R2 (Some i) None m1 [::] [::]) t1 =
    Ok (m2, t') & apart t'.
  apply: broadcastE => // i t' lt ap'; apply: runE (run_R2 ses e1 e2 e3 lt) => //.
  by exists (nth [::] seeds i) => //; exact: entropy_get.
have [t3 b3 ap3] : exists2 t', broadcast (fun i t =>
    let* member := vec_get signers i in let* key := vec_get keys member in
    run msg ab bv seeds R3 (Some i) (Some key) m1 m2 [::] t) t2 = Ok (m3, t') & apart t'.
  apply: broadcastE => // i t' lt ap'.
  have [|t'' rE ap''] := runE (i := Some i) ap' _ (run_R3 ses e1 e2 e3 lt).
    by exists (nth [::] seeds i) => //; exact: entropy_get.
  by exists t'' => //; case: i lt rE => [|[|//]] _ /= <-; rewrite ?keys0 ?keys2.
have [t4 b4 ap4] := @runE Aggregate None None m1 m2 m3 None _ t3 ap3 erefl agg.
exists t4 => //; rewrite /sign_rounds b1; cbn [bind]; rewrite b2; cbn [bind].
rewrite b3; cbn [bind]; rewrite b4; cbn [bind].
by rewrite rtE; cbn [bind]; rewrite rtE /= eqxx.
Qed.
End Sessions.

(** ** Sizes *)
Section Sizes.
Context {E : CurveEngine} {C : SigningCodecs E} {CL : SigningCodecLaws C}.
Context {N : Nova E} {D : DemoCodecs N} {DL : DemoCodecLaws D}.
Implicit Types (r : SizeReport) (round : seq bytes).
Local Open Scope string_scope.
#[local] Existing Instances codec_laws object_codec_laws round_codec_laws rotation_codec_laws.

(** The names that a rotation reports, in order. *)
Definition setup_names : seq string :=
  [:: "PublicParams"; "AddressBookHash<E2>"; "Base"; "SchnorrSecretKey<E2>";
      "SchnorrPublicKey<E2>"; "SchnorrPoK<E2>"; "SchnorrPoKChallenge<E2>";
      "SchnorrAttestedPubKey<E2>"; "Weight"; "NodeId<E2>"; "AddressBookEntry<E2>";
      "AddressBook<E2>"].
Definition message_names : seq string := [:: "HintsVKHash<E2>"; "RotationMessage<E2>"].
Definition sign_names : seq string :=
  [:: "BitVector"; "SchnorrChallenge<E2>"; "SchnorrResponse<E2>"; "Signature<E2>";
      "SchnorrMultiSignature<E2>"; "SigningProtocolPhase";
      "MultisigRound1"; "RoundMessage<E2>::Round1"; "SigningProtocolMessage (round 1)";
      "MultisigRound2<E2>"; "RoundMessage<E2>::Round2"; "SigningProtocolMessage (round 2)";
      "MultisigRound3<E2>"; "RoundMessage<E2>::Round3"; "SigningProtocolMessage (round 3)";
      "SigningProtocolObject::ProtocolMessage (round 1)";
      "SigningProtocolObject::ProtocolMessage (round 2)";
      "SigningProtocolObject::ProtocolMessage (round 3)";
      "SigningProtocolObject<E2>::ProtocolOutput"].
Definition setup_artifacts : seq string :=
  [:: "Full verification key (bincode)"; "Ledger ID (genesis rotation message)"].

(** One report, whose name is new. *)
Ltac reported :=
  match goal with
  | K : known ?r ?ts ?arts |- context [bind (@report_size _ ?B ?r ?n ?v) _] =>
      let r' := fresh "r" in let e := fresh "e" in let K' := fresh "K" in
      destruct (@size_known _ B _ r ts arts n v K (eq_refl true)) as [r' e K'];
      rewrite e; cbn [bind]; clear e K
  | K : known ?r ?ts ?arts |- context [bind (report_artifact ?r ?n ?v) _] =>
      let r' := fresh "r" in let e := fresh "e" in let K' := fresh "K" in
      destruct (@artifact_known r ts arts n v K (eq_refl true)) as [r' e K'];
      rewrite e; cbn [bind]; clear e K
  | K : known ?r ?ts ?arts |- @ex2 _ (fun x => @report_size _ ?B ?r ?n ?v = _) _ =>
      exact (@size_known _ B _ r ts arts n v K (eq_refl true))
  end.

Lemma report_setupE r (pp : @PublicParams E N) vk_bytes h ledger entry book key keys :
  known r [::] [::] ->
  exists2 r', report_setup pp vk_bytes h ledger r (entry :: book, key :: keys) = Ok r' &
    known r' (rev setup_names) (rev setup_artifacts).
Proof.
move=> K; rewrite /report_setup.
do 4 reported.
rewrite /report_address_book_types; case: entry => [[id [pk pok]] w].
cbn [vec_get List.nth_error fst snd bind]; do 9 reported.
reported.
Qed.

Definition message_types : seq string := rev (setup_names ++ message_names).

Lemma report_signatureE r bv ms : known r message_types (rev setup_artifacts) ->
  exists2 r', report_signature r bv ms = Ok r' &
    known r' (rev (setup_names ++ message_names ++ take 6 sign_names)) (rev setup_artifacts).
Proof. by move=> K; rewrite /report_signature; do 5 reported; reported. Qed.

Lemma report_roundsE r m1 m2 m3 ms :
  starts_with Round1 m1 -> starts_with Round2 m2 -> starts_with Round3 m3 ->
  known r (rev (setup_names ++ message_names ++ take 6 sign_names)) (rev setup_artifacts) ->
  exists2 r', (let* r := report_round1 r m1 in let* r := report_round2 r m2 in
               let* r := report_round3 r m3 in report_objects r m1 m2 m3 ms) = Ok r' &
    known r' (rev (setup_names ++ message_names ++ sign_names)) (rev setup_artifacts).
Proof.
move=> [x1 [b1 [l1 [-> e1]]]] [x2 [b2 [l2 [-> e2]]]] [x3 [b3 [l3 [-> e3]]]] K.
rewrite /report_round1 /report_round2 /report_round3 /report_objects.
cbn [vec_get List.nth_error bind]; rewrite (inspectE e1) (inspectE e2) (inspectE e3).
cbn [bind]; rewrite !rtE; cbn [bind]; do 3 reported.
do 3 reported.
rewrite rtE; cbn [bind]; do 3 reported.
do 3 reported.
reported.
Qed.
End Sizes.

(** ** The driver *)
Section Driver.
Context {E : CurveEngine} {L : CurveLaws E} {SB : ScalarBits E} {FL : CircuitFieldLaws SB}.
Context {G : Gadgets proving} {GL : GadgetLaws G proves} {PC : PointComplete G}.
Context {C : SigningCodecs E} {CL : SigningCodecLaws C}.
Context {N : Nova E} {PCo : ProofCodecs N} {PCL : ProofCodecLaws PCo}.
Context {ivc : PublicParams -> RecursiveSNARK -> nat -> seq Base -> seq Base -> Prop}.
Context {NC : NovaComplete ivc} {D : DemoCodecs N} {DL : DemoCodecLaws D}.
Local Open Scope ring_scope.
Implicit Types (seed entropy : nat -> bytes) (r : SizeReport) (t : TimingReport).

Abbreviation seats seed := (book (members seed)).

Lemma signE seed entropy msg rotation r t : fit seed -> decode msg = Ok (rotation : RotationMessage) ->
  known r message_types (rev setup_artifacts) -> apart t ->
  exists sig r' t', [/\ sign msg (seats seed) (book_keys (members seed)) entropy r t =
      Ok ((chosen, sig), r', t'), verify_signature (seats seed) msg (chosen, sig) = Ok true,
      known r' (rev (setup_names ++ message_names ++ sign_names)) (rev setup_artifacts) & apart t'].
Proof.
move=> ft mE K ap.
have ses : session (seats seed) (tval chosen) chosen msg rotation (chosen_keys seed) (mkseq entropy 2).
  by apply: chosen_session.
have [] := @sign_roundsE E L C CL N D DL _ (book_keys (members seed)) _ _ _ _ _ _ erefl erefl ses t ap.
move=> m1 [m2 [m3 [sig [[t' sE ap'] s1 s2 s3 vE]]]].
have [r1 e1 K1] := report_signatureE chosen (chosen, sig) K.
have [r2 e2 K2] := report_roundsE (chosen, sig) s1 s2 s3 K1.
exists sig, r2, t'; split=> //; last first.
  by rewrite vE; congr Ok; apply/N.ltb_lt/chosen_majority/fit_usable.
rewrite /sign rtE; cbn [bind]; rewrite rtE; cbn [bind].
rewrite -/chosen sE; cbn [bind]; rewrite e1; cbn [bind].
move: e2; case: (report_round1 r1 m1) => //= ra; case: (report_round2 ra m2) => //= rb.
by case: (report_round3 rb m3) => //= rc ->.
Qed.
Section Rotation.
Variables (c0 : RotationCircuit) (dir : string) (pp : @PublicParams E N) (seed0 : nat -> bytes).
Hypotheses (pcE : rc_pc c0 = shared_constants) (sE : setup_with_ptau_dir c0 dir = inr pp).
Hypothesis fit0 : fit seed0.
Let g : Base := book_hash (seats seed0).
Let gh : Base := compute_hints_vk_hash (hints_key 0).
Variables (ledger vk_bytes : bytes) (vk : CompressedVerifyingKey) (setup : TimingReport).
Hypothesis ledgerE : compute_rotation_message (seats seed0) (hints_key 0) = Ok ledger.
Hypothesis vkE : setup_compressed_verifier pp = Ok vk.
Hypothesis setupE : unzip1 (tr_methods setup) = setup_methods.

Lemma proposeE i next msg r t : verify_address_book next ->
  compute_rotation_message next (hints_key i) = Ok msg ->
  decode msg = Ok ((book_hash next, compute_hints_vk_hash (hints_key i)) : RotationMessage) ->
  (i = 0%N -> msg = ledger) -> known r (rev setup_names) (rev setup_artifacts) -> apart t ->
  exists r' t', [/\ propose ledger i next r t = Ok (next, hints_key i, msg, r', t'),
    known r' message_types (rev setup_artifacts) & apart t'].
Proof.
move=> vn mE mD m0 K ap.
have eE : encode ((book_hash next, compute_hints_vk_hash (hints_key i)) : RotationMessage) = Ok msg.
  have eE : exists h, encode ((h, compute_hints_vk_hash (hints_key i)) : RotationMessage) = Ok msg.
    by move: mE; rewrite /compute_rotation_message => H; inv_ok H; exists v.
  by case: eE => h eE; move: mD; rewrite (encode_inv eE) => -[<-].
rewrite /propose compute_addressbook_hashE vn; cbn [expect_ok].
have [t1 -> ap1] := measureE (m := "WRAPS::compute_addressbook_hash"%string) (book_hash next) ap isT.
cbn [bind]; rewrite rtE; cbn [bind]; rewrite rtE; cbn [bind].
have [t2 -> ap2] := measureE (m := "WRAPS::compute_hints_vk_hash"%string)
  (compute_hints_vk_hash (hints_key i)) ap1 isT.
cbn [bind]; rewrite rtE; cbn [bind]; rewrite rtE; cbn [bind]; rewrite mE [expect_ok _]/=.
have [t3 -> ap3] := measureE (m := "WRAPS::compute_rotation_message"%string) msg ap2 isT.
cbn [bind]; rewrite rtE; cbn [bind]; rewrite mD; cbn [bind expect_ok].
rewrite eqxx; cbn [bind demo_assert]; rewrite eE; cbn [bind expect_ok].
rewrite eqxx; cbn [bind demo_assert].
have -> : (if i == 0%N then demo_assert (msg == ledger) else Ok tt) = Ok tt.
  by case: eqP => // i0; rewrite (m0 i0) eqxx.
cbn [bind].
have [r1 -> K1] := size_known (codec_laws TBase) (n := "HintsVKHash<E2>"%string)
  (compute_hints_vk_hash (hints_key i)) K isT.
cbn [bind].
have [r2 -> K2] := size_known rotation_codec_laws (n := "RotationMessage<E2>"%string)
  (book_hash next, compute_hints_vk_hash (hints_key i)) K1 isT.
by exists r2, t3.
Qed.

Lemma attestE seed entropy msg rotation r t : fit seed -> decode msg = Ok (rotation : RotationMessage) ->
  known r message_types (rev setup_artifacts) -> apart t ->
  exists sig r' t', [/\ attest msg (seats seed, book_keys (members seed)) entropy r t =
      Ok (seats seed, (chosen, sig), r', t'), verify_signature (seats seed) msg (chosen, sig) = Ok true,
      known r' (rev (setup_names ++ message_names ++ sign_names)) (rev setup_artifacts) & apart t'].
Proof.
move=> ft mE K ap; have [sig [r1 [t1 [sgE vE K1 ap1]]]] := signE entropy ft mE K ap.
have [t2 tE ap2] := measureE (m := "WRAPS::verify_signature"%string) true ap1 isT.
exists sig, r1, t2; split=> //; rewrite /attest; cbn [fst snd]; rewrite sgE; cbn [bind].
by rewrite rtE; cbn [bind]; rewrite vE [expect_ok _]/= tE; cbn [bind]; rewrite rtE.
Qed.

Lemma fold_and_checkE i running book next ms out r t ts :
  (~~ isSome running == (i == 0%N)) ->
  construct_wraps_proof pp g book next running (hints_key i) ms = Ok out ->
  accepted pp g gh (hints_key i) out -> known r ts (rev setup_artifacts) -> apart t ->
  exists r' t', fold_and_check pp vk g ledger i running book next (hints_key i) ms r t =
    Ok (out.1, r', t') /\ apart t'.
Proof.
move=> isn cE [vk']; rewrite vkE => -[<-] acc K ap.
have [|uT cT] := acc ledger; first by apply: ledgerD ledgerE; exact: fit_usable fit0.
rewrite /fold_and_check isn; cbn [bind demo_assert]; rewrite rtE; cbn [bind].
rewrite rtE; cbn [bind]; rewrite cE; cbn [expect_ok].
have [t1 -> ap1] := measureE (m := "WRAPS::construct_wraps_proof"%string) out ap isT; cbn [bind].
have [r1 -> K1] := artifact_known (n := "Running proof (bincode)"%string) (size out.1) K isT.
cbn [bind].
have [r2 -> _] := artifact_known (n := "Compressed proof (bincode)"%string) (size out.2) K1 isT.
cbn [bind]; rewrite rtE; cbn [bind]; case: out uT cT {cE acc} => u cp; cbn [fst snd] => uT cT.
do 3 (rewrite rtE; cbn [bind]); rewrite cT; cbn [expect_ok].
have [t2 -> ap2] := measureE (m := "WRAPS::verify_compressed_wraps_proof"%string) true ap1 isT.
cbn [bind]; rewrite rtE; cbn [bind demo_assert]; rewrite rtE; cbn [bind]; rewrite uT; cbn [expect_ok].
have [t3 -> ap3] := measureE (m := "WRAPS::verify_uncompressed_wraps_proof"%string) true ap2 isT.
by cbn [bind]; rewrite rtE; cbn [bind demo_assert]; eexists _, t3.
Qed.
(** What holds after [i] rotations. *)
Definition at_rotation (i : nat) (st : (AddressBook * seq Scalar) * option bytes) : Prop :=
  exists seed, [/\ fit seed, st.1 = (seats seed, book_keys (members seed)) &
    chain_at (ivc := ivc) pp (members seed0) i (seats seed) st.2].

Lemma stats_rotate i st keygen_seed sign_seed : at_rotation i st -> fit (keygen_seed i) ->
  exists2 st', rotate pp vk vk_bytes g ledger setup keygen_seed sign_seed st i = Ok st' &
    at_rotation i.+1 st'.
Proof.
case: st => previous running [seed [ft /= -> ch]] fn.
pose b := i.+1 == ROTATIONS.
have [r1 e1 K1] := report_setupE pp vk_bytes g ledger (draw_entry (members seed) 0)
  (behead (seats seed)) (draw_key (members seed) 0) (behead (book_keys (members seed)))
  (@known_new b).
have [seed' [ft' s0 [t1 nE ap1]]] : exists seed', [/\ fit seed', i = 0%N -> seed' = seed &
    exists2 t', (if i == 0%N then Ok (seats seed, book_keys (members seed), timing_report b)
      else random_address_book (keygen_seed i) (timing_report b)) =
      Ok (seats seed', book_keys (members seed'), t') & apart t'].
  case: eqP => [_|i0]; first by exists seed; split=> //; exists (timing_report b).
  by exists (keygen_seed i); split=> //; exact: stats_bookE (apart_new b).
have vn : verify_address_book (seats seed') by apply: book_valid (fit_usable ft').
have [msg mE mD] := rotation_message (hints_key i) vn.
have m0 : i = 0%N -> msg = ledger.
  move=> i0; move: mE ch; rewrite (s0 i0) i0 /= => mE [_ e0].
  by move: mE; rewrite e0 ledgerE => -[].
have [r2 [t2 [pE K2 ap2]]] := proposeE vn mE mD m0 K1 ap1.
have [sig [r3 [t3 [aE vE K3 ap3]]]] := attestE (sign_seed i) ft mD K2 ap2.
have en : i = 0%N -> seats seed' = seats seed by move=> /s0 ->.
have [out [cE ch' acc]] := construct_next pcE sE (fit_usable ft) ch en vn mD vE.
have isn : ~~ isSome running == (i == 0%N).
  by case: (i) ch => [[-> _]|j [o -> _]].
have [r4 [t4 [fE ap4]]] := fold_and_checkE isn cE acc K3 ap3.
exists ((seats seed', book_keys (members seed')), Some out.1); last by exists seed'.
rewrite /rotate -/b e1; cbn [bind]; rewrite nE; cbn [bind fst snd]; rewrite pE; cbn [bind].
rewrite aE; cbn [bind]; rewrite fE; cbn [bind].
by rewrite (print_timingsE setupE ap4).
Qed.
End Rotation.

(** C34: the second example program works end to end.  When the parameters load and every
    committee of three has distinct keys other than the identity and a joint key for its
    first and third member, the three rotations run to the end: two equal members out of
    three are a majority, every assertion holds, no type, artifact or method is reported
    twice, and the last running proof is accepted for the genesis ledger id. *)
Theorem stats_completes rngs k env keygen_seed sign_seed pp :
  load_public_params rngs k (ptau_dir env) = Ok pp -> (forall i, fit (keygen_seed i)) ->
  exists last u ledger,
  [/\ stats_main rngs k env keygen_seed sign_seed = Ok (last, Some u),
      compute_rotation_message (seats (keygen_seed 0%N)) (hints_key 0) = Ok ledger,
      verify_address_book last.1 &
      verify_uncompressed_wraps_proof pp u ledger (hints_key 2) = Ok true].
Proof.
move=> lE ft; have [c0 pcE sE] := load_inv lE; have us := fit_usable (ft 0%N).
have vb : verify_address_book (seats (keygen_seed 0%N)) by apply: book_valid us.
have [ledger mE mD] := rotation_message (hints_key 0) vb.
have [sig [_ [_ [_ vE _ _]]]] := @signE (keygen_seed 0%N) (fun _ => [::]) ledger _
  (MkSizeReport false [::] [::]) (timing_report false) (ft 0%N) mD (fun H => False_ind _ (notF H)) isT.
have [vk vkE] := setup_returns pcE sE us mD vE.
have [vkb vkbE _] := @encode_ok _ _ (codec_laws TKey) vk.
pose setup := MkTimingReport true [:: ("WRAPS::setup_compressed_verifier", 1%N);
  ("WRAPS::load_public_params", 1%N)]%string.
have step := stats_rotate pcE sE (ft 0%N) vkb mE vkE (erefl : unzip1 (tr_methods setup) = setup_methods).
have at0 : at_rotation pp (keygen_seed 0%N) 0%N
    ((seats (keygen_seed 0%N), book_keys (members (keygen_seed 0%N))), None).
  by exists (keygen_seed 0%N); split; [exact: ft| |].
have [st1 e1 at1] := step 0%N _ keygen_seed sign_seed at0 (ft 0%N).
have [st2 e2 at2] := step 1%N _ keygen_seed sign_seed at1 (ft 1%N).
have [[last run3] e3 [seed [fs /= lastE [out runE [[vk' _ acc] _]]]]] := step 2%N _ keygen_seed sign_seed at2 (ft 2%N).
exists last, out.1, ledger; split=> //; last by case: (acc ledger mD).
- rewrite /stats_main rtE; cbn [bind]; rewrite lE; cbn [expect_ok measure bind tr_enabled timing_report].
  rewrite rtE; cbn [bind]; rewrite vkE; cbn [expect_ok measure bind tr_enabled tr_methods].
  rewrite vkbE; cbn [expect_ok bind]; rewrite rtE; cbn [bind].
  have [t1 -> _] := stats_bookE (keygen_seed 0%N) (apart_new false); cbn [bind fst snd].
  rewrite compute_addressbook_hashE vb; cbn [measure expect_ok bind]; rewrite rtE; cbn [bind].
  rewrite mE; cbn [expect_ok bind]; rewrite rtE; cbn [bind].
  by rewrite -/setup [iota _ _]/=; cbn [foldM]; rewrite e1; cbn [bind]; rewrite e2; cbn [bind]; rewrite e3 runE.
- by rewrite lastE; apply: book_valid (fit_usable fs).
Qed.
End Driver.
