(* ===== verification/StatsToy.v ===== *)
(** * The second example program, instantiated

    The rational curve and the codecs of [DemoToy] give fitting committees. *)
From Stdlib Require Import Strings.Byte Strings.String NArith Lia.
From S2P Require Import Prelude SeqFacts WrapsErrors WrapsEngine WrapsUtils Schnorr Multisig.
From S2P Require Import AddressBook Signing SigningFacts Circuit CircuitFacts CircuitSound.
From S2P Require Import CircuitComplete CircuitAdequacy CircuitToy WrapsProof WrapsChain.
From S2P Require Import ChainTheorems NovaToy Demo DemoFacts DemoToy Stats StatsFacts.
From mathcomp Require Import ssreflect ssrfun ssrbool eqtype ssrnat seq.
From mathcomp Require Import fintype tuple bigop ssralg rat.
Import GRing.Theory.
Set Warnings "-rewrite-rw".
Set Implicit Arguments.
Unset Strict Implicit.
Unset Printing Implicit Defensive.

Definition toy_seed (i : nat) : bytes := [:: toy_byte i].

Lemma toy_members : @usable rat_curve (members toy_seed).
Proof. by split; [|move=> i; apply/N.leb_le|vm_compute|vm_compute]. Qed.

Lemma toy_fit : @fit rat_curve toy_seed.
Proof.
split; first exact: toy_members.
rewrite /joint (book_subset _ toy_members) /joint_key unlock; by vm_compute.
Qed.

Lemma stats_completes_witness : exists last u ledger,
  [/\ @stats_main rat_curve rat_codecs replay_nova rat_proof_codecs rat_demo_codecs chain_rngs
        1%R None (fun _ => toy_seed) (fun _ => toy_seed) = Ok (last, Some u),
      compute_rotation_message (@book rat_curve (members toy_seed)) (hints_key 0) = Ok ledger,
      verify_address_book last.1 &
      verify_uncompressed_wraps_proof (tt : @PublicParams rat_curve replay_nova) u ledger
        (hints_key 2) = Ok true].
Proof.
exact: (stats_completes (env := None) (keygen_seed := fun _ => toy_seed) (fun _ => toy_seed)
  (chain_load 1%R (ptau_dir None)) (fun _ => toy_fit)).
Defined.
